(* ===== verification/_CoqProject ===== *)
-Q . S2P
Prelude.v
GoBytes.v
GoTime.v
GoFloat.v
Protocol.v
WalDisk.v
WalScan.v
Wal.v
WalQueue.v
WalCommit.v
WalCalm.v
WalOpen.v
WalFiles.v
WalDurable.v
WalCrash.v
WalReopen.v
WalCursor.v
WalClose.v
SeqTracker.v
VmClient.v
VmRequest.v
Receiver.v
Repeats.v
Poller.v
PollTrace.v
TcpClient.v
TcpServer.v
Serving.v
Handlers.v
Sender.v
SenderSpec.v
SenderLive.v
SenderPace.v
System.v
Logger.v
Config.v
Backfill.v
Restarts.v
Lifetimes.v
Sync.v
Monitor.v
Metrics.v
Backpressure.v
PollLive.v
Commands.v
LinkProxy.v
