(* ===== verification/Prelude.v ===== *)
(** * vm-sync: a verification development

    vm-sync copies the samples of one VictoriaMetrics database to another over
    a link that may fail at any moment.  The sender ([cmd/sender]) polls the
    source in windows of time ([internal/sender/poller.go]), cuts what it
    exports into frames ([internal/protocol]) and appends them to a write-ahead
    log ([internal/wal]); its sending loop ([internal/sender/sender.go]) sends
    the head of the log over TCP ([internal/transport/tcp_client.go]) and
    commits a frame when the answer at its position is 0xff.  The receiver
    ([cmd/receiver]) reads frames concurrently
    ([internal/transport/tcp_server.go]), imports each one into the target
    ([internal/receiver], [internal/vm]) and answers in order.  What matters is
    that no sample is lost: every crash, refusal or lost connection may repeat
    a frame and none may drop one.

    ** Files

    Shared:
    - [Prelude]: Go's integers, bytes, the state-and-outcome monad [M] with its
      weakest precondition [wp], tactics and generic lemmas;
    - [GoBytes], [GoTime], [GoFloat]: the functions of Go's standard library the
      program calls ([bytes.TrimSpace], [strconv.ParseInt], [time.ParseDuration],
      [strconv.ParseFloat], [strconv.FormatFloat]).

    The wire format:
    - [Protocol]: [frame.go], [codec.go].  gzip and zstd are the operations of
      the class [Codec], with their inverse laws in [CodecLaws].

    The log ([wal.go], [cursor.go], [dlq.go]):
    - [WalDisk]: the record [WAL], the directory ([segs], checkpoint, dead
      letters) and the system calls; an oracle decides what each call returns,
      and a failing write may have written a prefix;
    - [WalScan], [WalOpen]: [indexSegment], [resyncRecord], [scanSegments],
      [Open]; [Wal]: one definition for each method that holds the mutex;
      [WalFiles]: the names of the segments and dead letters, how the loops over
      the directory read them back, [DiskUsage];
    - [WalQueue], [WalCommit]: the specification of the log as a [queue] of
      numbered frames, the invariant [wal_inv] and the relation [represents],
      and the proof that the operations refine the queue under every sequence of
      failing calls; [WalCalm]: the same when no call fails ([log_ok]), and the
      class [LogPromise] of the invariants the sender may rely on;
    - [WalDurable], [WalCrash]: what each operation leaves on the disk when the
      process dies at any of its system calls ([survives]), that [Open] recovers
      it, and the instance [durable_log] of [LogPromise]; [WalReopen]: [Open] may
      itself be cut short, any number of times, before it recovers the log;
    - [WalCursor]: which cursors an operation on the log can leave in memory and
      on the disk; [WalClose]: [Close], alone and followed by [Open].

    The receiver ([receiver.go], [dlq.go], [client.go]):
    - [SeqTracker], [VmClient], [Receiver]: [HandleFrame] as one call;
      [Repeats]: the same frame again, after any other calls;
      [VmRequest]: the requests of the client of the database;
    - [Handlers]: the same call as a sequence of critical sections, and pools
      of calls whose sections interleave ([pool_step]).

    The sender ([poller.go], [sender.go], [main.go]) and the transport:
    - [Poller], [Sender], [Backfill], and [Restarts] for starts that fail or die on
      the way; [SenderSpec], [SenderLive] and [SenderPace]
      hold the safety, the progress and the waits of the sending loop;
      [PollTrace]: the loop of the poller as a sequence of operations on the log,
      between which the sender makes calls of its own (the lists of [visit]s);
      [Backpressure]: when a full disk stops it, and what it reports of that;
      [PollLive]: the progress of the loop;
    - [TcpClient] with a network oracle, [TcpServer] with a connection as a
      transition system ([conn_step]), [Serving] with the whole server as one
      ([srv_step]): the accept loop, the map of connections, [Close];
    - [System]: sender, connections and handlers together; [Lifetimes]: the
      same over any number of crashes, stops and restarts of both processes, for
      any program that calls the log beside the sender ([LogPromise],
      [CrashPromise]); [Sync]: with the poller as that program.

    [Config] models [internal/config/config.go], [Logger] the part of
    [internal/logger/logger.go] that reads the configuration; [Monitor] and
    [Metrics] model [internal/monitor/metrics.go]; [Commands] puts the components
    together as [run] of the two commands does; [LinkProxy] models the
    proxy of the benchmark ([bench/linkproxy/main.go]).

    ** What the theorems show

    - Nothing is lost: [Sync.samples_synced] from the answers of the source to
      the frames the receiver has kept, [Lifetimes.no_frame_lost] from the log
      onwards over crashes and restarts, [System.at_least_once] while the
      processes run; they compose [PollTrace.poller_is_its_trace],
      [SenderSpec.Run_loses_no_frame], [Receiver.HandleFrame_ack_means_landed],
      [Handlers.concurrent_acks_mean_landed], [Poller.pollOnce_cursor_safe],
      [Backfill.backfillInit_never_skips], [WalCommit.MoveToDLQ_keeps_frame].
    - The log is a durable queue: [WalQueue.AppendBatch_refines],
      [WalQueue.PeekBatch_refines], [WalCommit.Commit_refines],
      [WalOpen.Open_recovers], under crashes [WalCrash.crash_runs_refine]
      and [Restarts.starts_interrupted], in order
      [WalClose.Close_Open]; what the recovery scan does with damaged segments
      ([WalScan]), and that the files it looks for are those the log writes
      ([WalFiles.scan_finds_segments]).
    - Order and limits of a connection: [TcpServer.acks_in_order]; the server
      around it: [Serving.connections_limited], [Serving.Close_is_final],
      [Serving.shutdown_ends], and [Commands.programs_deliver], the whole system
      with this server and one assumption on the network ([Commands.linked]: TCP
      keeps the bytes of each direction in order); both processes start as the
      theorems about the whole system ask for: [Commands.sender_starts], [Commands.receiver_starts].
    - Progress: [TcpServer.connection_drains],
      [SenderLive.Run_drains_the_log], [PollLive.poller_catches_up]; pace:
      [SenderPace.Run_paced], [Backpressure.full_disk_pauses].
    - Repeats: [SeqTracker.done_never_skips], [Receiver.tryCloseGap_safe],
      [Repeats.HandleFrame_repeat_absorbed].
    - The frame format is a bijection on well-formed frames and detects a
      changed byte ([Protocol]).
    - The export request names the window it is for ([VmRequest.export_names_window]).
    - The configuration: which files are accepted and what the components are
      then given ([Config.Validate_exact]); the
      metrics page says what the counters hold ([Metrics.Render_samples]).

    ** Crashes

    A crash is the failure of a system call after which the process does nothing
    more: the operation is run with a list of answers in which that call fails,
    and the world it leaves is the one the next process opens.  A write that is
    cut leaves fewer bytes than a frame's header ([tear_ok]): a record torn
    inside its payload is indexed by the recovery scan
    ([WalScan.scan_indexes_torn_payload]).  A crash is excluded while [hazard]
    holds, between the opening of a log whose last segment had been removed and
    the first checkpoint saved after it: a second crash then loses a frame
    ([WalCrash.reused_segment_loses_frame]).  For the same reason a start may
    be cut short only if it finds a segment, or a checkpoint that acknowledges no
    bytes ([WalReopen.reopenable]).  Data that was written is taken to reach the
    disk, synchronised or not.  The crash of a running sender is cut out of [Run] by its fuel and
    by the answers of the network, and may then fall inside any one operation on
    the log.  A sender that stops in order leaves [Run] when its context is
    cancelled, lets the poller finish its round, and calls [Close].

    ** Conventions, bounds and fuel

    Integers are [Z]; where Go's width matters the wrap is written out
    ([u64], [i64], ...).  Timestamps in milliseconds and their sums in the
    poller are not wrapped: the code adds [int64], which differs only for clocks
    or windows near 2^63.  Bytes are integers in [0, 256).  A Go panic is the
    outcome [Panic], an error is [Err].  A clock reading is an argument.
    - [WalScan.index_loop] and [resync_loop] are given the size of the file as
      fuel; each turn consumes at least one byte ([WalScan.scan_terminates]).
    - [Sender.window_loop] is a loop of the code that does not end while the
      peer refuses: its fuel bounds the number of reconnections and running out
      is the error [SFuel]; the safety theorems hold for every fuel, and
      [SenderLive.Run_drains_the_log] needs one turn.
    - [Sender.Run] is cut after a number of turns of its endless loop.
    - [Handlers]: a section is what runs under one mutex.  Go holds two mutexes
      while it closes a gap; the model lets other handlers run in between, so its
      interleavings include those of the code.
    - [VmClient.probe_loop], [GoTime.parse_terms], [GoTime.shortest] and
      [Config.expand_days] have fuel from the width of the integers or the
      length of the text, which the loops cannot exceed.

    ** Not modelled

    Log lines and their writing, command-line flags, the delivery of signals, YAML
    decoding, the transport of HTTP and TLS (the requests, and what the code makes
    of each answer, are modelled), the HTTP servers of the metrics, [Listen], [Addr]
    and [readFrameLen] of the server ([net.Listen] and a function that nothing
    calls), the gauges the poller sets after a round.  Reads of a local file return
    what the file holds. *)
From stdpp Require Export base tactics option list list_numbers gmap relations sorting.
From Stdlib Require Export ZArith Lia.
Local Open Scope Z_scope.

(** ** Go integers *)

Definition u8 (x : Z) : Z := x mod 2 ^ 8.
Definition u16 (x : Z) : Z := x mod 2 ^ 16.
Definition u32 (x : Z) : Z := x mod 2 ^ 32.
Definition u64 (x : Z) : Z := x mod 2 ^ 64.
(** Two's complement: the [int64] that holds the low 64 bits of [x]. *)
Definition i64 (x : Z) : Z := (x + 2 ^ 63) mod 2 ^ 64 - 2 ^ 63.

Definition is_u64 (x : Z) : Prop := 0 <= x < 2 ^ 64.
Definition is_i64 (x : Z) : Prop := - 2 ^ 63 <= x < 2 ^ 63.

Lemma u64_small x : is_u64 x -> u64 x = x.
Proof. apply Z.mod_small. Qed.
Lemma u32_small x : 0 <= x < 2 ^ 32 -> u32 x = x.
Proof. apply Z.mod_small. Qed.
Lemma u64_range x : is_u64 (u64 x).
Proof. apply Z.mod_pos_bound. lia. Qed.
Lemma i64_small x : is_i64 x -> i64 x = x.
Proof. unfold is_i64, i64. intros. rewrite Z.mod_small; lia. Qed.
Lemma i64_range x : is_i64 (i64 x).
Proof. unfold is_i64, i64. pose proof (Z.mod_pos_bound (x + 2 ^ 63) (2 ^ 64)). lia. Qed.

(** Wrapping may be left to the end of a sum. *)
Lemma i64_add x d : i64 (i64 x + d) = i64 (x + d).
Proof.
  unfold i64. f_equal. replace ((x + 2 ^ 63) mod 2 ^ 64 - 2 ^ 63 + d + 2 ^ 63) with ((x + 2 ^ 63) mod 2 ^ 64 + d) by lia.
  rewrite Zplus_mod_idemp_l. f_equal. lia.
Qed.

Lemma u64_add x d : u64 (u64 x + d) = u64 (x + d).
Proof. apply Zplus_mod_idemp_l. Qed.

Lemma lxor_range n a b :
  0 <= n -> 0 <= a < 2 ^ n -> 0 <= b < 2 ^ n -> 0 <= Z.lxor a b < 2 ^ n.
Proof.
  intros Hn Ha Hb.
  rewrite <- (Z.mod_small a (2 ^ n)), <- (Z.mod_small b (2 ^ n)) by done.
  rewrite <- !Z.land_ones by done.
  assert (Z.lxor (Z.land a (Z.ones n)) (Z.land b (Z.ones n)) =
          Z.land (Z.lxor a b) (Z.ones n)) as ->.
  { apply Z.bits_inj'. intros i _. rewrite Z.lxor_spec, !Z.land_spec, Z.lxor_spec.
    by destruct (Z.testbit a i), (Z.testbit b i), (Z.testbit (Z.ones n) i). }
  rewrite Z.land_ones by done. apply Z.mod_pos_bound. lia.
Qed.

Lemma lxor_cancel_r a b c : Z.lxor a c = Z.lxor b c -> a = b.
Proof.
  intros H. rewrite <- (Z.lxor_0_r a), <- (Z.lxor_0_r b), <- (Z.lxor_nilpotent c).
  by rewrite <- !Z.lxor_assoc, H.
Qed.

(** ** Lists measured in [Z] *)

Definition len {A} (l : list A) : Z := Z.of_nat (length l).

Lemma len_nil {A} : len (@nil A) = 0.
Proof. done. Qed.
Lemma len_cons {A} (x : A) l : len (x :: l) = 1 + len l.
Proof. unfold len. cbn [length]. lia. Qed.
Lemma len_app {A} (l k : list A) : len (l ++ k) = len l + len k.
Proof. unfold len. rewrite length_app. lia. Qed.
Lemma len_nonneg {A} (l : list A) : 0 <= len l.
Proof. unfold len. lia. Qed.
Lemma len_replicate {A} n (x : A) : len (replicate n x) = Z.of_nat n.
Proof. unfold len. by rewrite length_replicate. Qed.
Lemma len_zero_nil {A} (l : list A) : len l = 0 -> l = [].
Proof. destruct l; [done|]. rewrite len_cons. pose proof (len_nonneg l). lia. Qed.
Lemma len_drop {A} n (l : list A) : len (drop n l) = Z.max 0 (len l - Z.of_nat n).
Proof. unfold len. rewrite length_drop. lia. Qed.
Lemma len_take {A} n (l : list A) : len (take n l) = Z.min (len l) (Z.of_nat n).
Proof. unfold len. rewrite length_take. lia. Qed.

Create HintDb vmsync.
Create Rewrite HintDb vmsync_len.
#[export] Hint Rewrite @len_nil @len_cons @len_app @len_replicate @len_take @len_drop : vmsync_len.
#[export] Hint Resolve u64_range i64_range len_nonneg : vmsync.

(** [zlia]: linear arithmetic after pushing [len] through list operations. *)
Ltac zlia :=
  unfold is_u64, is_i64 in *; autorewrite with vmsync_len in *;
  repeat match goal with
  | |- context [len ?l] => lazymatch goal with
      | _ : 0 <= len l |- _ => fail
      | _ => pose proof (len_nonneg l) end
  | H : context [len ?l] |- _ => lazymatch goal with
      | _ : 0 <= len l |- _ => fail
      | _ => pose proof (len_nonneg l) end
  end; lia.

(** Case analysis on the boolean comparisons of the code. *)
Ltac case_bool :=
  match goal with
  | |- context [Z.ltb ?a ?b] => destruct (Z.ltb_spec a b)
  | |- context [Z.leb ?a ?b] => destruct (Z.leb_spec a b)
  | |- context [Z.eqb ?a ?b] => destruct (Z.eqb_spec a b)
  | H : context [Z.ltb ?a ?b] |- _ => destruct (Z.ltb_spec a b)
  | H : context [Z.leb ?a ?b] |- _ => destruct (Z.leb_spec a b)
  | H : context [Z.eqb ?a ?b] |- _ => destruct (Z.eqb_spec a b)
  end.

(** Byte slices [l[a:b]] of Go (for [0 <= a <= b <= len l]). *)
Definition slice {A} (l : list A) (a b : Z) : list A :=
  take (Z.to_nat (b - a)) (drop (Z.to_nat a) l).

Lemma slice_app_exact {A} (l k m : list A) :
  slice (l ++ k ++ m) (len l) (len l + len k) = k.
Proof.
  unfold slice, len.
  replace (Z.to_nat (Z.of_nat (length l))) with (length l) by lia.
  rewrite drop_app_length.
  replace (Z.to_nat _) with (length k) by lia.
  apply take_app_length.
Qed.

Lemma slice_eq {A} (c l k m : list A) a b :
  c = l ++ k ++ m -> a = len l -> b = len l + len k -> slice c a b = k.
Proof. intros -> -> ->. apply slice_app_exact. Qed.

(** ** Bytes and big-endian integers ([encoding/binary]) *)

Abbreviation bytes := (list Z).
Definition is_byte (b : Z) : Prop := 0 <= b < 256.
Definition is_bytes (l : bytes) : Prop := Forall is_byte l.

Fixpoint be_put (n : nat) (v : Z) : bytes :=
  match n with
  | O => []
  | S n' => be_put n' (v / 256) ++ [v mod 256]
  end.

Definition be_get (l : bytes) : Z := foldl (fun a b => a * 256 + b) 0 l.

Lemma len_be_put n v : len (be_put n v) = Z.of_nat n.
Proof.
  revert v. induction n as [|n IH]; intros v; [done|].
  cbn [be_put]. rewrite len_app, IH, len_cons, len_nil. lia.
Qed.
Lemma length_be_put n v : length (be_put n v) = n.
Proof. pose proof (len_be_put n v) as L. unfold len in L. lia. Qed.
#[export] Hint Rewrite len_be_put : vmsync_len.

Lemma be_get_snoc l b : be_get (l ++ [b]) = be_get l * 256 + b.
Proof. unfold be_get. by rewrite foldl_app. Qed.

Lemma be_get_put n v : be_get (be_put n v) = v mod 256 ^ Z.of_nat n.
Proof.
  revert v. induction n as [|n IH]; intros v; cbn [be_put].
  - by rewrite Z.mod_1_r.
  - rewrite be_get_snoc, IH.
    replace (Z.of_nat (S n)) with (Z.of_nat n + 1) by lia.
    rewrite Z.pow_add_r, Z.pow_1_r by lia.
    rewrite (Z.mul_comm (256 ^ _)).
    rewrite Z.rem_mul_r by (try apply Z.pow_nonzero; lia). lia.
Qed.

Lemma be_put_bytes n v : is_bytes (be_put n v).
Proof.
  revert v. induction n as [|n IH]; intros v; cbn [be_put]; [constructor|].
  apply Forall_app. split; [apply IH|].
  repeat constructor; apply Z.mod_pos_bound; lia.
Qed.

Lemma is_bytes_snoc l b : is_bytes (l ++ [b]) <-> is_bytes l /\ is_byte b.
Proof. unfold is_bytes. by rewrite Forall_app, Forall_singleton. Qed.

Lemma be_put_get l : is_bytes l -> be_put (length l) (be_get l) = l.
Proof.
  induction l as [|b l IH] using rev_ind; intros Hl; [done|].
  apply is_bytes_snoc in Hl as [Hl Hb].
  rewrite length_app. cbn [length]. rewrite Nat.add_1_r. cbn [be_put].
  rewrite be_get_snoc. unfold is_byte in Hb.
  rewrite Z.div_add_l, Z.div_small by lia.
  rewrite Z.add_0_r, IH by done.
  f_equal. f_equal. rewrite Z.add_comm, Z.mod_add, Z.mod_small by lia. done.
Qed.

Lemma be_get_range l : is_bytes l -> 0 <= be_get l < 256 ^ len l.
Proof.
  induction l as [|b l IH] using rev_ind; intros Hl; [done|].
  apply is_bytes_snoc in Hl as [Hl Hb].
  specialize (IH Hl). unfold is_byte in Hb.
  rewrite be_get_snoc. replace (len (l ++ [b])) with (len l + 1) by zlia.
  rewrite Z.pow_add_r, Z.pow_1_r by (try apply len_nonneg; lia).
  set (P := 256 ^ len l) in *. clearbody P. lia.
Qed.

Lemma is_bytes_app l k : is_bytes (l ++ k) <-> is_bytes l /\ is_bytes k.
Proof. apply Forall_app. Qed.
Lemma is_bytes_take n l : is_bytes l -> is_bytes (take n l).
Proof. apply Forall_take. Qed.
Lemma is_bytes_drop n l : is_bytes l -> is_bytes (drop n l).
Proof. apply Forall_drop. Qed.
Lemma is_bytes_slice l a b : is_bytes l -> is_bytes (slice l a b).
Proof. intros. by apply is_bytes_take, is_bytes_drop. Qed.
#[export] Hint Resolve be_put_bytes is_bytes_take is_bytes_drop is_bytes_slice : vmsync.

(** ** Outcomes of Go functions *)

(** A Go call returns a value, returns an error, or panics. *)
Inductive outcome (E A : Type) : Type :=
| Ok (a : A)
| Err (e : E)
| Panic.
Arguments Ok {E A} a.
Arguments Err {E A} e.
Arguments Panic {E A}.

Definition is_ok {E A} (o : outcome E A) : bool :=
  match o with Ok _ => true | _ => false end.

(** State and outcome: the state reached before an error or a panic is kept,
    as the receiver of a Go method keeps its fields. *)
Definition M (S E A : Type) : Type := S -> outcome E A * S.

Definition ret {S E A} (a : A) : M S E A := fun s => (Ok a, s).
Definition fail {S E A} (e : E) : M S E A := fun s => (Err e, s).
Definition panic {S E A} : M S E A := fun s => (Panic, s).
Definition bind {S E A B} (m : M S E A) (k : A -> M S E B) : M S E B :=
  fun s => match m s with
           | (Ok a, s') => k a s'
           | (Err e, s') => (Err e, s')
           | (Panic, s') => (Panic, s')
           end.
Definition gets {S E A} (f : S -> A) : M S E A := fun s => (Ok (f s), s).
Definition modify {S E} (f : S -> S) : M S E unit := fun s => (Ok tt, f s).
(** [x, err := m]: the error becomes a value the code inspects. *)
Definition attempt {S E A} (m : M S E A) : M S E (outcome E A) :=
  fun s => match m s with
           | (Panic, s') => (Panic, s')
           | (o, s') => (Ok o, s')
           end.

Declare Scope go_scope.
Delimit Scope go_scope with go.
Notation "x <- m ;; k" := (bind m (fun x => k))
  (at level 100, m at next level, right associativity) : go_scope.
Notation "m ;;; k" := (bind m (fun _ => k))
  (at level 100, right associativity) : go_scope.

(** [wp m Q s]: running [m] from [s] gives an outcome and a state in [Q]; every
    outcome is covered, so [Q] says what errors and panics leave behind. *)
Definition wp {S E A} (m : M S E A) (Q : outcome E A -> S -> Prop) (s : S) : Prop :=
  Q (fst (m s)) (snd (m s)).

(** What remains to be shown after [m] for the rest [k] of a sequence. *)
Definition bind_post {S E A B} (k : A -> M S E B) (Q : outcome E B -> S -> Prop)
    (o : outcome E A) (s : S) : Prop :=
  match o with
  | Ok a => wp (k a) Q s
  | Err e => Q (Err e) s
  | Panic => Q Panic s
  end.

Lemma wp_bind {S E A B} (m : M S E A) (k : A -> M S E B) Q s :
  wp m (bind_post k Q) s -> wp (bind m k) Q s.
Proof. unfold bind_post, wp, bind. by destruct (m s) as [[a|e|] s1]. Qed.

Lemma wp_ret {S E A} (a : A) Q (s : S) : Q (Ok a) s -> wp (E := E) (ret a) Q s.
Proof. done. Qed.
Lemma wp_fail {S E A} (e : E) Q (s : S) : Q (Err e) s -> wp (A := A) (fail e) Q s.
Proof. done. Qed.
Lemma wp_gets {S E A} (f : S -> A) Q (s : S) : Q (Ok (f s)) s -> wp (E := E) (gets f) Q s.
Proof. done. Qed.
Lemma wp_modify {S E} (f : S -> S) Q (s : S) : Q (Ok tt) (f s) -> wp (E := E) (modify f) Q s.
Proof. done. Qed.
Lemma wp_attempt {S E A} (m : M S E A) Q (s : S) :
  wp m (fun o s' => match o with Panic => Q Panic s' | _ => Q (Ok o) s' end) s ->
  wp (attempt m) Q s.
Proof. unfold wp, attempt. by destruct (m s) as [[a|e|] s']. Qed.

Lemma wp_conseq {S E A} (m : M S E A) (Q Q' : outcome E A -> S -> Prop) s :
  wp m Q s -> (forall o s', Q o s' -> Q' o s') -> wp m Q' s.
Proof. unfold wp. auto. Qed.

Lemma wp_run {S E A} (m : M S E A) Q (s : S) o s' : wp m Q s -> m s = (o, s') -> Q o s'.
Proof. unfold wp. intros H Hr. by rewrite Hr in H. Qed.

(** Sequencing is associative. *)
Lemma bind_assoc {S E A B C} (m : M S E A) (k : A -> M S E B) (h : B -> M S E C) s :
  bind (bind m k) h s = bind m (fun x => bind (k x) h) s.
Proof. unfold bind. by destruct (m s) as [[|?|] ?]. Qed.

Lemma wp_eq {S E A} (m m' : M S E A) Q s : m s = m' s -> wp m' Q s -> wp m Q s.
Proof. unfold wp. by intros ->. Qed.

(** One step of symbolic execution through the structural primitives. *)
Ltac wp_step :=
  lazymatch goal with
  | |- wp (bind _ _) _ _ => apply wp_bind
  | |- wp (ret _) _ _ => apply wp_ret
  | |- wp (fail _) _ _ => apply wp_fail
  | |- wp (gets _) _ _ => apply wp_gets
  | |- wp (modify _) _ _ => apply wp_modify
  | |- bind_post _ _ (Ok _) _ => unfold bind_post at 1
  | |- bind_post _ _ (Err _) _ => unfold bind_post at 1
  end.
Ltac wp_steps := repeat (wp_step; cbv beta zeta).

(** ** Transition systems *)

Lemma rtc_invariant {A} (R : relation A) (I : A -> Prop) x y :
  (forall a b, I a -> R a b -> I b) -> I x -> rtc R x y -> I y.
Proof. intros Hstep Hx Hr. induction Hr; eauto. Qed.
