(* ===== verification/GoBytes.v ===== *)
(** * The string and byte-slice functions of Go's standard library that the
    program uses ([bytes], [strings], [strconv], [fmt]), on lists of bytes, with
    the laws the components rely on. *)
From S2P Require Import Prelude.
From Stdlib Require Ascii String.
Export String.StringSyntax.
Delimit Scope string_scope with str.
Local Open Scope Z_scope.

(** ** Literals *)

Definition lit (s : String.string) : bytes :=
  map (fun a => Z.of_nat (Ascii.nat_of_ascii a)) (String.list_ascii_of_string s).

Arguments lit s%_str.

Definition NL : Z := 10.

(** ** Searching *)

Fixpoint has_prefix (p l : bytes) : bool :=
  match p, l with
  | [], _ => true
  | x :: p', y :: l' => (x =? y) && has_prefix p' l'
  | _ :: _, [] => false
  end.

(** [strings.HasSuffix]. *)
Definition has_suffix (p l : bytes) : bool := has_prefix (rev p) (rev l).

(** [bytes.Index], from position [i]: -1 when there is no match. *)
Fixpoint index_from (i : Z) (p l : bytes) : Z :=
  if has_prefix p l then i
  else match l with [] => -1 | _ :: l' => index_from (i + 1) p l' end.
Definition Index (l p : bytes) : Z := index_from 0 p l.

(** [bytes.LastIndex]. *)
Fixpoint last_index_from (i : Z) (p l : bytes) : Z :=
  match l with
  | [] => if has_prefix p [] then i else -1
  | _ :: l' =>
      let r := last_index_from (i + 1) p l' in
      if 0 <=? r then r else if has_prefix p l then i else -1
  end.
Definition LastIndex (l p : bytes) : Z := last_index_from 0 p l.

Definition IndexByte (l : bytes) (b : Z) : Z := Index l [b].
Definition LastIndexByte (l : bytes) (b : Z) : Z := LastIndex l [b].

(** [bytes.Count] of one byte. *)
Definition CountByte (l : bytes) (b : Z) : Z := len (filter (fun x => x = b) l).

(** [bytes.Split] on one byte: always at least one piece. *)
Fixpoint SplitByte (sep : Z) (l : bytes) : list bytes :=
  match l with
  | [] => [[]]
  | b :: l' =>
      if b =? sep then [] :: SplitByte sep l'
      else match SplitByte sep l' with
           | [] => [[b]]
           | p :: ps => (b :: p) :: ps
           end
  end.

(** [strings.Join] with one byte. *)
Fixpoint JoinByte (sep : Z) (ps : list bytes) : bytes :=
  match ps with
  | [] => []
  | [p] => p
  | p :: rest => p ++ sep :: JoinByte sep rest
  end.

(** ** White space *)

(** The UTF-8 encodings of the runes of [unicode.IsSpace]. *)
Definition space_runes : list bytes :=
  [[9]; [10]; [11]; [12]; [13]; [32]; [194; 133]; [194; 160]; [225; 154; 128];
   [226; 128; 128]; [226; 128; 129]; [226; 128; 130]; [226; 128; 131]; [226; 128; 132];
   [226; 128; 133]; [226; 128; 134]; [226; 128; 135]; [226; 128; 136]; [226; 128; 137];
   [226; 128; 138]; [226; 128; 168]; [226; 128; 169]; [226; 128; 175]; [226; 129; 159];
   [227; 128; 128]].

(** The length of the first rune of [runes] that starts [l], 0 when none does. *)
Fixpoint rune_len (runes : list bytes) (l : bytes) : nat :=
  match runes with
  | [] => 0%nat
  | r :: rest => if has_prefix r l then length r else rune_len rest l
  end.

Fixpoint strip (fuel : nat) (runes : list bytes) (l : bytes) : bytes :=
  match fuel with
  | O => l
  | S fuel' => match rune_len runes l with
               | O => l
               | n => strip fuel' runes (drop n l)
               end
  end.

Definition TrimLeft (l : bytes) : bytes := strip (length l) space_runes l.
Definition TrimRight (l : bytes) : bytes :=
  rev (strip (length l) (map (fun r => rev r) space_runes) (rev l)).
Definition TrimSpace (l : bytes) : bytes := TrimRight (TrimLeft l).

(** ** Decimal numbers *)

Definition is_digit (b : Z) : bool := (48 <=? b) && (b <=? 57).

Fixpoint digits_value (acc : Z) (l : bytes) : Z :=
  match l with [] => acc | b :: l' => digits_value (acc * 10 + (b - 48)) l' end.

(** The longest prefix of digits. *)
Fixpoint take_digits (l : bytes) : bytes :=
  match l with
  | b :: l' => if is_digit b then b :: take_digits l' else []
  | [] => []
  end.

Definition sign_split (l : bytes) : Z * bytes :=
  match l with
  | 45 :: l' => (-1, l')
  | 43 :: l' => (1, l')
  | _ => (1, l)
  end.

Definition in_i64 (x : Z) : option Z :=
  if (- 2 ^ 63 <=? x) && (x <? 2 ^ 63) then Some x else None.

(** [strconv.ParseInt(s, 10, 64)]. *)
Definition ParseInt (s : bytes) : option Z :=
  let '(sg, ds) := sign_split s in
  match ds with
  | [] => None
  | _ => if forallb is_digit ds then in_i64 (sg * digits_value 0 ds) else None
  end.

(** [fmt.Sscanf(s, "%d", &x)] on a [s] that does not start with a blank. *)
Definition Sscanf_d (s : bytes) : option Z :=
  let '(sg, ds) := sign_split s in
  match take_digits ds with
  | [] => None
  | d => in_i64 (sg * digits_value 0 d)
  end.

(** [fmt.Sprintf("%d", n)] for [0 <= n < 10 ^ fuel]. *)
Fixpoint dec_digits (fuel : nat) (n : Z) (acc : bytes) : bytes :=
  match fuel with
  | O => acc
  | S fuel' =>
      let acc' := 48 + n mod 10 :: acc in
      if n <? 10 then acc' else dec_digits fuel' (n / 10) acc'
  end.
Definition Sprintf_d (n : Z) : bytes :=
  if n <? 0 then 45 :: dec_digits 20 (- n) [] else dec_digits 20 n [].

(** ** Laws *)

Lemma SplitByte_nonempty sep l : SplitByte sep l <> [].
Proof. destruct l as [|b l]; cbn; [done|]. destruct (b =? sep); [done|]. by destruct (SplitByte sep l). Qed.

Lemma JoinByte_cons sep p ps : ps <> [] -> JoinByte sep (p :: ps) = p ++ sep :: JoinByte sep ps.
Proof. by destruct ps. Qed.

Lemma Join_Split sep l : JoinByte sep (SplitByte sep l) = l.
Proof.
  induction l as [|b l IH]; [done|]. cbn [SplitByte].
  destruct (Z.eqb_spec b sep) as [->|Hb].
  - rewrite JoinByte_cons by apply SplitByte_nonempty. by rewrite IH.
  - destruct (SplitByte sep l) as [|p ps] eqn:E; [by apply SplitByte_nonempty in E|].
    destruct ps as [|p' ps]; cbn in *; by rewrite IH.
Qed.

Lemma SplitByte_no_sep sep l : Forall (fun p => sep ∉ p) (SplitByte sep l).
Proof.
  induction l as [|b l IH]; cbn [SplitByte]; [constructor; [by apply not_elem_of_nil|constructor]|].
  destruct (Z.eqb_spec b sep) as [->|Hb]; [by constructor; [apply not_elem_of_nil|]|].
  destruct (SplitByte sep l) as [|p ps].
  - constructor; [|constructor]. by intros ->%list_elem_of_singleton.
  - apply Forall_cons in IH as [Hp IH]. constructor; [|done]. by intros [->|H]%elem_of_cons.
Qed.

Lemma Split_line sep l : sep ∉ l -> SplitByte sep l = [l].
Proof.
  induction l as [|b l IH]; intros H; [done|]. apply not_elem_of_cons in H as [Hb H].
  cbn [SplitByte]. destruct (Z.eqb_spec b sep); [done|]. by rewrite IH.
Qed.

Lemma Split_app sep l rest : sep ∉ l -> SplitByte sep (l ++ sep :: rest) = l :: SplitByte sep rest.
Proof.
  induction l as [|b l IH]; intros H; cbn [app SplitByte].
  - by rewrite Z.eqb_refl.
  - apply not_elem_of_cons in H as [Hb H]. destruct (Z.eqb_spec b sep); [done|]. by rewrite IH.
Qed.

Lemma Split_Join sep ps : ps <> [] -> Forall (fun p => sep ∉ p) ps -> SplitByte sep (JoinByte sep ps) = ps.
Proof.
  intros He Hp. induction Hp as [|p ps Hn Hp IH]; [done|].
  destruct ps as [|p' ps]; [by apply Split_line|].
  rewrite JoinByte_cons by done. rewrite Split_app by done. f_equal. by apply IH.
Qed.

(** *** Decimal round trip *)

Lemma dec_digits_value fuel : forall n acc, 0 <= n < 10 ^ Z.of_nat fuel -> (0 < fuel)%nat ->
  digits_value 0 (dec_digits fuel n acc) = digits_value n acc.
Proof.
  induction fuel as [|fuel IH]; intros n acc Hn Hf; [lia|]. cbn [dec_digits].
  pose proof (Z.div_mod n 10 ltac:(lia)) as Hd. pose proof (Z.mod_pos_bound n 10 ltac:(lia)).
  destruct (Z.ltb_spec n 10) as [Hs|Hs].
  - cbn [digits_value]. rewrite (Z.mod_small n 10) by lia. f_equal. lia.
  - assert (Hq : 0 <= n / 10 < 10 ^ Z.of_nat fuel).
    { rewrite Nat2Z.inj_succ, Z.pow_succ_r in Hn by lia. split; [apply Z.div_pos; lia|].
      apply Z.div_lt_upper_bound; lia. }
    rewrite IH; [|done|].
    + cbn [digits_value]. f_equal. lia.
    + destruct fuel; [|lia]. change (10 ^ Z.of_nat 0) with 1 in Hq.
      pose proof (Z.div_le_mono 10 n 10 ltac:(lia) Hs). lia.
Qed.

Lemma dec_digits_digits fuel : forall n acc,
  forallb is_digit acc = true -> forallb is_digit (dec_digits fuel n acc) = true.
Proof.
  induction fuel as [|fuel IH]; intros n acc Ha; [done|]. cbn [dec_digits].
  pose proof (Z.mod_pos_bound n 10 ltac:(lia)).
  assert (H' : forallb is_digit (48 + n mod 10 :: acc) = true).
  { cbn [forallb]. rewrite Ha, andb_true_r. unfold is_digit.
    destruct (Z.leb_spec 48 (48 + n mod 10)), (Z.leb_spec (48 + n mod 10) 57); done || lia. }
  destruct (n <? 10); auto.
Qed.

Lemma dec_digits_nonempty fuel n acc : acc <> [] \/ (0 < fuel)%nat -> dec_digits fuel n acc <> [].
Proof.
  revert n acc. induction fuel as [|fuel IH]; intros n acc H; cbn [dec_digits].
  { destruct H; [done|lia]. }
  destruct (n <? 10); [done|]. apply IH. by left.
Qed.

Lemma take_digits_all l rest :
  forallb is_digit l = true -> match rest with b :: _ => is_digit b = false | [] => True end ->
  take_digits (l ++ rest) = l.
Proof.
  intros Hl Hr. induction l as [|b l IH]; cbn.
  - destruct rest; [done|]. cbn. by rewrite Hr.
  - cbn in Hl. apply andb_prop in Hl as [-> Hl]. by rewrite IH.
Qed.

Lemma sign_split_digit b l : is_digit b = true -> sign_split (b :: l) = (1, b :: l).
Proof.
  unfold is_digit. intros [H1%Z.leb_le H2%Z.leb_le]%andb_prop. unfold sign_split.
  destruct (Z.eq_dec b 45) as [->|]; [done|]. destruct (Z.eq_dec b 43) as [->|]; [done|].
  destruct b as [|p|p]; [lia| |lia]. repeat (destruct p as [p|p|]; try done).
Qed.

(** The text [%d] prints, split into its sign and its digits. *)
Lemma Sprintf_d_shape n rest : is_i64 n ->
  exists ds, sign_split (Sprintf_d n ++ rest) = (if n <? 0 then -1 else 1, ds ++ rest) /\
    ds <> [] /\ forallb is_digit ds = true /\ digits_value 0 ds = Z.abs n /\
    Sprintf_d n = (if n <? 0 then [45] else []) ++ ds.
Proof.
  intros Hn. unfold Sprintf_d, is_i64 in *.
  exists (dec_digits 20 (Z.abs n) []).
  assert (Hv : digits_value 0 (dec_digits 20 (Z.abs n) []) = Z.abs n).
  { apply dec_digits_value; [|lia]. change (10 ^ Z.of_nat 20) with 100000000000000000000. lia. }
  assert (Hd : forallb is_digit (dec_digits 20 (Z.abs n) []) = true) by by apply dec_digits_digits.
  assert (He : dec_digits 20 (Z.abs n) [] <> []) by (apply dec_digits_nonempty; right; lia).
  destruct (Z.ltb_spec n 0).
  - rewrite Z.abs_neq in * by lia. repeat (split; [done|]). done.
  - rewrite Z.abs_eq in * by lia. split; [|done].
    destruct (dec_digits 20 n []) as [|b l]; [done|]. apply sign_split_digit.
    cbn in Hd. by apply andb_prop in Hd as [-> _].
Qed.

Lemma sign_abs n : (if n <? 0 then -1 else 1) * Z.abs n = n.
Proof. destruct (Z.ltb_spec n 0); lia. Qed.

Lemma in_i64_some n : is_i64 n -> in_i64 n = Some n.
Proof.
  unfold is_i64, in_i64. intros Hn.
  destruct (Z.leb_spec (- 2 ^ 63) n), (Z.ltb_spec n (2 ^ 63)); done || lia.
Qed.

Lemma ParseInt_Sprintf n : is_i64 n -> ParseInt (Sprintf_d n) = Some n.
Proof.
  intros Hn. destruct (Sprintf_d_shape n [] Hn) as (ds & Hs & He & Hd & Hv & _).
  rewrite !app_nil_r in Hs. unfold ParseInt. rewrite Hs.
  destruct ds as [|b ds]; [done|]. by rewrite Hd, Hv, sign_abs, in_i64_some.
Qed.

Lemma Sscanf_Sprintf n rest : is_i64 n ->
  match rest with b :: _ => is_digit b = false | [] => True end ->
  Sscanf_d (Sprintf_d n ++ rest) = Some n.
Proof.
  intros Hn Hr. destruct (Sprintf_d_shape n rest Hn) as (ds & Hs & He & Hd & Hv & _).
  unfold Sscanf_d. rewrite Hs, take_digits_all by done.
  destruct ds as [|b ds]; [done|]. by rewrite Hv, sign_abs, in_i64_some.
Qed.

(** *** Trimming *)

(** A text whose first and last bytes start no space rune is not trimmed. *)
Lemma TrimSpace_id l :
  rune_len space_runes l = 0%nat -> rune_len (map (fun r => rev r) space_runes) (rev l) = 0%nat ->
  TrimSpace l = l.
Proof.
  intros Hl Hr. unfold TrimSpace, TrimLeft, TrimRight.
  assert (E : strip (length l) space_runes l = l) by (destruct (length l); cbn [strip]; [done|by rewrite Hl]).
  rewrite E. destruct (length l); cbn [strip]; rewrite ?Hr; apply rev_involutive.
Qed.

Lemma TrimSpace_nl l :
  l <> [] -> rune_len space_runes l = 0%nat ->
  rune_len (map (fun r => rev r) space_runes) (rev l) = 0%nat ->
  rune_len space_runes (l ++ [NL]) = 0%nat ->
  TrimSpace (l ++ [NL]) = l.
Proof.
  intros He Hl Hr Hn. unfold TrimSpace, TrimLeft, TrimRight.
  rewrite length_app. cbn [length]. rewrite Nat.add_1_r. cbn [strip]. rewrite Hn.
  rewrite length_app, rev_app_distr. cbn [length rev app]. rewrite Nat.add_1_r. cbn [strip].
  change (rune_len (map (fun r => rev r) space_runes) (NL :: rev l)) with 1%nat. cbv beta iota.
  change (drop 1 (NL :: rev l)) with (rev l).
  destruct (length l); cbn [strip]; rewrite ?Hr; apply rev_involutive.
Qed.

(** Visible ASCII characters start no blank, in either direction. *)
Definition is_graph (b : Z) : Prop := 33 <= b < 128.

Definition not_graph_head (r : bytes) : bool :=
  match r with x :: _ => (x <? 33) || (128 <=? x) | [] => false end.

Lemma rune_len_graph runes b rest :
  forallb not_graph_head runes = true -> is_graph b -> rune_len runes (b :: rest) = 0%nat.
Proof.
  intros Hr Hb. induction runes as [|r runes IH]; cbn [rune_len]; [done|].
  cbn [forallb] in Hr. apply andb_prop in Hr as [Hr Hrs].
  destruct r as [|x r]; [done|]. cbn [has_prefix]. unfold is_graph in Hb. cbn in Hr.
  destruct (Z.eqb_spec x b) as [->|]; [|by apply IH].
  destruct (Z.ltb_spec b 33), (Z.leb_spec 128 b); done || lia.
Qed.

Lemma rune_len_ascii l b rest :
  l = b :: rest -> is_graph b -> rune_len space_runes l = 0%nat.
Proof. intros -> Hb. by apply rune_len_graph. Qed.

Lemma rune_len_rev_ascii l b rest :
  l = b :: rest -> is_graph b -> rune_len (map (fun r => rev r) space_runes) l = 0%nat.
Proof. intros -> Hb. by apply rune_len_graph. Qed.

Lemma Sprintf_d_graph n : is_i64 n -> Sprintf_d n <> [] /\ Forall is_graph (Sprintf_d n).
Proof.
  intros Hn. destruct (Sprintf_d_shape n [] Hn) as (ds & _ & He & Hd & _ & ->). split.
  - destruct (n <? 0); [done|by destruct ds].
  - apply Forall_app. split; [destruct (n <? 0); by repeat constructor|].
    clear He. induction ds as [|b ds IH]; [constructor|]. cbn in Hd.
    apply andb_prop in Hd as [Hb Hd]. unfold is_digit in Hb.
    apply andb_prop in Hb as [H1%Z.leb_le H2%Z.leb_le].
    constructor; [unfold is_graph; lia|by apply IH].
Qed.

Lemma graph_heads l : l <> [] -> Forall is_graph l ->
  rune_len space_runes l = 0%nat /\ rune_len (map (fun r => rev r) space_runes) (rev l) = 0%nat /\
  (forall rest, rune_len space_runes (l ++ rest) = 0%nat).
Proof.
  intros He Hg. destruct l as [|b l _] using rev_ind; [done|].
  apply Forall_app in Hg as [Hg Hb]. apply Forall_cons in Hb as [Hb _].
  rewrite rev_app_distr. split; [|split].
  - destruct l as [|b' l]; cbn [app]; (eapply rune_len_ascii; [done|]); [done|].
    by apply Forall_cons in Hg as [? _].
  - by eapply rune_len_rev_ascii.
  - intros rest. destruct l as [|b' l]; cbn [app]; (eapply rune_len_ascii; [done|]); [done|].
    by apply Forall_cons in Hg as [? _].
Qed.

Lemma TrimSpace_graph l : l <> [] -> Forall is_graph l -> TrimSpace l = l.
Proof. intros He Hg. destruct (graph_heads l He Hg) as (? & ? & _). by apply TrimSpace_id. Qed.

Lemma TrimSpace_graph_nl l : l <> [] -> Forall is_graph l -> TrimSpace (l ++ [NL]) = l.
Proof. intros He Hg. destruct (graph_heads l He Hg) as (? & ? & ?). by apply TrimSpace_nl. Qed.

(** *** Searching *)

Lemma has_prefix_app p l : has_prefix p (p ++ l) = true.
Proof. induction p as [|b p IH]; cbn; [done|]. by rewrite Z.eqb_refl. Qed.
Lemma has_suffix_app l p : has_suffix p (l ++ p) = true.
Proof. unfold has_suffix. rewrite rev_app_distr. apply has_prefix_app. Qed.

Lemma last_index_from_ge p l : forall i, 0 <= i -> last_index_from i p l = -1 \/ i <= last_index_from i p l.
Proof.
  induction l as [|b l IH]; intros i Hi; cbn [last_index_from].
  - destruct (has_prefix p []); [right; lia|by left].
  - destruct (Z.leb_spec 0 (last_index_from (i + 1) p l)).
    + destruct (IH (i + 1) ltac:(lia)); lia.
    + destruct (has_prefix p (b :: l)); [right; lia|by left].
Qed.

(** The last match is found when no later position matches. *)
Lemma LastIndex_app pre p l :
  (forall k, (0 < k <= length (p ++ l))%nat -> has_prefix p (drop k (p ++ l)) = false) ->
  LastIndex (pre ++ p ++ l) p = len pre.
Proof.
  intros Hno. unfold LastIndex.
  assert (Hnone : forall k i, (0 < k <= length (p ++ l))%nat -> 0 <= i ->
    last_index_from i p (drop k (p ++ l)) = -1).
  { intros k. remember (length (p ++ l) - k)%nat as d eqn:Ed. revert k Ed.
    induction d as [|d IH]; intros k Ed i Hk Hi.
    - pose proof (Hno k Hk) as Hn. rewrite drop_ge in * by lia. cbn. by rewrite Hn.
    - pose proof (Hno k Hk) as Hn. destruct (drop k (p ++ l)) as [|b r] eqn:E.
      { cbn. by rewrite Hn. }
      cbn [last_index_from]. rewrite Hn.
      assert (Er : r = drop (S k) (p ++ l)).
      { replace (S k) with (k + 1)%nat by lia. by rewrite <- drop_drop, E. }
      rewrite Er, (IH (S k)) by lia. done. }
  assert (Hgen : forall pre i, 0 <= i -> last_index_from i p (pre ++ p ++ l) = i + len pre).
  { intros q. induction q as [|b q IH]; intros i Hi; cbn [app].
    - rewrite len_nil, Z.add_0_r. destruct (p ++ l) as [|b r] eqn:E.
      + apply app_eq_nil in E as [-> ->]. done.
      + cbn [last_index_from]. rewrite <- E, has_prefix_app.
        pose proof (Hnone 1%nat (i + 1) ltac:(cbn; lia) ltac:(lia)) as Hr. cbn [drop] in Hr.
        rewrite drop_0 in Hr. rewrite Hr. done.
    - cbn [last_index_from]. rewrite IH by lia. rewrite len_cons. pose proof (len_nonneg q).
      destruct (Z.leb_spec 0 (i + 1 + len q)); lia. }
  by rewrite Hgen.
Qed.

Lemma Index_app_byte pre b l : b ∉ pre -> IndexByte (pre ++ b :: l) b = len pre.
Proof.
  intros Hb. unfold IndexByte, Index.
  assert (Hgen : forall i, index_from i [b] (pre ++ b :: l) = i + len pre).
  { induction pre as [|c pre IH]; intros i; cbn [app].
    - cbn. rewrite Z.eqb_refl. rewrite len_nil. cbn. lia.
    - cbn [index_from has_prefix]. apply not_elem_of_cons in Hb as [Hne Hb].
      destruct (Z.eqb_spec b c); [done|]. cbn [andb]. rewrite IH, len_cons by done. lia. }
  by rewrite Hgen.
Qed.
