(* ===== verification/GoTime.v ===== *)
(** * Floating-point numbers and durations of Go's standard library
    ([strconv.ParseFloat], [strconv.FormatFloat], [time.ParseDuration]), as the
    configuration uses them.  A [float64] is a number of the Standard Library's
    executable specification of IEEE 754 arithmetic. *)
From S2P Require Import Prelude GoBytes.
From Stdlib Require Import SpecFloat.
Local Open Scope Z_scope.

(** ** [float64] *)

Definition float64 : Type := spec_float.
Definition f64_of_Z (z : Z) : float64 := binary_normalize 53 1024 z 0 false.
Definition f64_mul (x y : float64) : float64 := SFmul 53 1024 x y.
Definition f64_div (x y : float64) : float64 := SFdiv 53 1024 x y.

(** [uint64(x)] of a finite [x >= 0] below [2^64]. *)
Definition f64_trunc (x : float64) : Z :=
  match x with
  | S754_finite _ m e => if 0 <=? e then Z.pos m * 2 ^ e else Z.pos m / 2 ^ (- e)
  | _ => 0
  end.

(** The float nearest to [d * 10 ^ k], for [d > 0]. *)
Definition f64_decimal (neg : bool) (d k : Z) : float64 :=
  if 0 <=? k then
    match d * 10 ^ k with
    | Z.pos m => binary_round 53 1024 neg m 0
    | _ => S754_zero neg
    end
  else
    let '(q, e, l) := SFdiv_core_binary 53 1024 d 0 (10 ^ (- k)) 0 in
    binary_round_aux 53 1024 neg q e l.

Definition f64_eqb (x y : float64) : bool :=
  match x, y with
  | S754_finite s m e, S754_finite s' m' e' => Bool.eqb s s' && Pos.eqb m m' && (e =? e')
  | S754_zero s, S754_zero s' => Bool.eqb s s'
  | _, _ => false
  end.

(** ** [strconv.ParseFloat] on strings of signs, dots and digits *)

Definition is_minus (l : bytes) : bool := match l with 45 :: _ => true | _ => false end.

Definition drop_digits (l : bytes) : bytes := drop (length (take_digits l)) l.

Definition ParseFloat (s : bytes) : option float64 :=
  let '(sg, ds) := sign_split s in
  let int := take_digits ds in
  let frac := match drop_digits ds with 46 :: l => take_digits l | _ => [] end in
  let rest := match drop_digits ds with 46 :: l => drop_digits l | l => l end in
  match rest with
  | _ :: _ => None
  | [] =>
      if len (int ++ frac) =? 0 then None
      else
        let d := digits_value 0 (int ++ frac) in
        if d =? 0 then Some (S754_zero (is_minus s))
        else
          match f64_decimal (is_minus s) d (- len frac) with
          | S754_infinity _ => None
          | x => Some x
          end
  end.

(** ** [strconv.FormatFloat(x, 'f', -1, 64)] *)

(** The decimal [d * 10 ^ k] nearest to [x = m * 2 ^ e] among those that read
    back as [x], if there is one. *)
Definition shortest_at (neg : bool) (m : positive) (e k : Z) : option Z :=
  (* x / 10 ^ k as a fraction *)
  let num := Z.pos m * 2 ^ Z.max 0 e * 10 ^ Z.max 0 (- k) in
  let den := 2 ^ Z.max 0 (- e) * 10 ^ Z.max 0 k in
  let lo := num / den in
  let ok d := (0 <? d) && f64_eqb (f64_decimal neg d k) (S754_finite neg m e) in
  match ok lo, ok (lo + 1) with
  | true, true => Some (if 2 * (num - lo * den) <=? den then lo else lo + 1)
  | true, false => Some lo
  | false, true => Some (lo + 1)
  | false, false => None
  end.

(** The largest such exponent from [k] down. *)
Fixpoint shortest (fuel : nat) (neg : bool) (m : positive) (e k : Z) : Z * Z :=
  match fuel with
  | O => (0, k)
  | S fuel' =>
      match shortest_at neg m e k with
      | Some d => (d, k)
      | None => shortest fuel' neg m e (k - 1)
      end
  end.

Definition pad (n : Z) (l : bytes) : bytes := replicate (Z.to_nat n - length l) 48 ++ l.

Definition FormatFloat (x : float64) : bytes :=
  match x with
  | S754_zero s => if s then [45; 48] else [48]
  | S754_finite s m e =>
      let k0 := len (Sprintf_d (Z.pos m * 2 ^ Z.max 0 e / 2 ^ Z.max 0 (- e))) in
      let '(d, k) := shortest (Z.to_nat (k0 + 345)) s m e k0 in
      (if s then [45] else []) ++
      (if 0 <=? k then Sprintf_d d ++ replicate (Z.to_nat k) 48
       else Sprintf_d (d / 10 ^ (- k)) ++ 46 :: pad (- k) (Sprintf_d (d mod 10 ^ (- k))))
  | S754_infinity s => if s then lit "-Inf" else lit "+Inf"
  | S754_nan => lit "NaN"
  end.

(** ** [time.ParseDuration] *)

(** [leadingInt]: the value, at most [2^63], and the rest. *)
Fixpoint leadingInt (x : Z) (s : bytes) : option (Z * bytes) :=
  match s with
  | c :: s' =>
      if negb (is_digit c) then Some (x, s)
      else if 2 ^ 63 / 10 <? x then None
      else
        let x' := x * 10 + (c - 48) in
        if 2 ^ 63 <? x' then None else leadingInt x' s'
  | [] => Some (x, [])
  end.

(** [leadingFraction]. *)
Fixpoint leadingFraction (x : Z) (scale : float64) (overflow : bool) (s : bytes) :
    Z * float64 * bytes :=
  match s with
  | c :: s' =>
      if negb (is_digit c) then (x, scale, s)
      else if overflow then leadingFraction x scale true s'
      else if (2 ^ 63 - 1) / 10 <? x then leadingFraction x scale true s'
      else
        let y := x * 10 + (c - 48) in
        if 2 ^ 63 <? y then leadingFraction x scale true s'
        else leadingFraction y (f64_mul scale (f64_of_Z 10)) false s'
  | [] => (x, scale, [])
  end.

(** The bytes up to the next digit or dot. *)
Fixpoint take_unit (s : bytes) : bytes :=
  match s with
  | c :: s' => if (c =? 46) || is_digit c then [] else c :: take_unit s'
  | [] => []
  end.

Definition unitMap : list (bytes * Z) :=
  [(lit "ns", 1); (lit "us", 1000); ([194; 181; 115], 1000); ([206; 188; 115], 1000);
   (lit "ms", 1000000); (lit "s", 1000000000); (lit "m", 60 * 1000000000);
   (lit "h", 3600 * 1000000000)].

Fixpoint assoc (u : bytes) (l : list (bytes * Z)) : option Z :=
  match l with
  | [] => None
  | (k, v) :: l' => if decide (u = k) then Some v else assoc u l'
  end.

(** One number with its unit: its nanoseconds and the rest. *)
Definition parse_term (s : bytes) : option (Z * bytes) :=
  match s with
  | [] => None
  | c :: _ =>
      if negb ((c =? 46) || is_digit c) then None
      else
        match leadingInt 0 s with
        | None => None
        | Some (v, s1) =>
            let pre := negb (len s =? len s1) in
            let '(f, scale, s2, post) :=
              match s1 with
              | 46 :: s1' =>
                  let '(f, scale, s2) := leadingFraction 0 (f64_of_Z 1) false s1' in
                  (f, scale, s2, negb (len s1' =? len s2))
              | _ => (0, f64_of_Z 1, s1, false)
              end in
            if negb pre && negb post then None
            else
              let u := take_unit s2 in
              if len u =? 0 then None
              else
                match assoc u unitMap with
                | None => None
                | Some unit =>
                    if 2 ^ 63 / unit <? v then None
                    else
                      let v1 := v * unit in
                      let v2 := if 0 <? f
                                then v1 + f64_trunc (f64_mul (f64_of_Z f) (f64_div (f64_of_Z unit) scale))
                                else v1 in
                      if (0 <? f) && (2 ^ 63 <? v2) then None
                      else Some (v2, drop (length u) s2)
                end
        end
  end.

Fixpoint parse_terms (fuel : nat) (d : Z) (s : bytes) : option Z :=
  match s with
  | [] => Some d
  | _ =>
      match fuel with
      | O => None
      | S fuel' =>
          match parse_term s with
          | None => None
          | Some (v, s') => let d' := u64 (d + v) in if 2 ^ 63 <? d' then None else parse_terms fuel' d' s'
          end
      end
  end.

(** The duration in nanoseconds; every term takes at least two bytes. *)
Definition ParseDuration (s : bytes) : option Z :=
  let s1 := match s with 45 :: l => l | 43 :: l => l | _ => s end in
  if decide (s1 = [48]) then Some 0
  else if len s1 =? 0 then None
  else
    match parse_terms (length s1) 0 s1 with
    | None => None
    | Some d =>
        if is_minus s then Some (- d) else if 2 ^ 63 - 1 <? d then None else Some d
    end.

Example ParseDuration_terms :
  ParseDuration (lit "1h30m0.5s") = Some (5400500 * 1000000) /\
  ParseDuration (lit "-1.5h") = Some (- 5400 * 1000000000) /\
  ParseDuration (lit "500ms") = Some 500000000 /\
  ParseDuration (lit "9223372036854775807ns") = Some (2 ^ 63 - 1) /\
  ParseDuration (lit "9223372036854775808ns") = None /\
  ParseDuration (lit "-9223372036854775808ns") = Some (- 2 ^ 63) /\
  ParseDuration (lit "5") = None /\ ParseDuration (lit ".s") = None.
Proof. vm_compute. repeat split. Qed.

Example FormatFloat_digits :
  (fun x => option_map FormatFloat (ParseFloat x)) <$>
    [lit "0.1"; lit "12.50"; lit "1000000"; lit "-0"; lit "16777217.25"; lit "0.000123"; lit "123456789012345678"] =
  [Some (lit "0.1"); Some (lit "12.5"); Some (lit "1000000"); Some (lit "-0"); Some (lit "16777217.25");
   Some (lit "0.000123"); Some (lit "123456789012345680")].
Proof. vm_compute. reflexivity. Qed.

(** ** The range of a duration *)

Lemma parse_terms_range fuel : forall d s r, 0 <= d <= 2 ^ 63 ->
  parse_terms fuel d s = Some r -> 0 <= r <= 2 ^ 63.
Proof.
  induction fuel as [|fuel IH]; intros d [|c s] r Hd; cbn [parse_terms]; try done; try congruence.
  destruct (parse_term (c :: s)) as [[v s']|]; [|done]. cbv zeta.
  destruct (Z.ltb_spec (2 ^ 63) (u64 (d + v))); [done|]. apply IH. pose proof (u64_range (d + v)). zlia.
Qed.

Lemma ParseDuration_i64 s d : ParseDuration s = Some d -> is_i64 d.
Proof.
  unfold ParseDuration, is_i64. destruct (decide _); [intros [= <-]; lia|]. destruct (_ =? 0); [done|].
  destruct (parse_terms _ _ _) as [r|] eqn:E; [|done]. apply parse_terms_range in E; [|lia].
  destruct (is_minus s); [intros [= <-]; lia|]. destruct (Z.ltb_spec (2 ^ 63 - 1) r); [done|]. intros [= <-]. lia.
Qed.
