(* ===== verification/GoFloat.v ===== *)
(** * The accuracy of floating-point division, and of the decimal fractions
    that [fmt.Sprintf] and [strconv.FormatFloat] print with a fixed number of
    digits.

    Go divides two [float64] as IEEE 754 prescribes, which is the division of the
    Standard Library's [SpecFloat]: the quotient of two integers is off by half a
    unit of its last place at most. *)
From S2P Require Import Prelude GoBytes GoTime.
From Stdlib Require Import SpecFloat.
Local Open Scope Z_scope.

(** ** Decimal fractions *)

(** The integer nearest to [num / den], the even one of two that are as near. *)
Definition round_half_even (num den : Z) : Z :=
  let q := num / den in
  let r := 2 * (num mod den) in
  if r <? den then q else if den <? r then q + 1 else if Z.even q then q else q + 1.

(** [%.kf], which is [strconv.FormatFloat(x, 'f', k, 64)]. *)
Definition Sprintf_f (k : Z) (x : float64) : bytes :=
  let digits n := Sprintf_d (n / 10 ^ k) ++ 46 :: pad k (Sprintf_d (n mod 10 ^ k)) in
  match x with
  | S754_zero s => (if s then [45] else []) ++ digits 0
  | S754_finite s m e =>
      (if s then [45] else []) ++ digits (round_half_even (Z.pos m * 2 ^ Z.max 0 e * 10 ^ k) (2 ^ Z.max 0 (- e)))
  | S754_infinity s => if s then lit "-Inf" else lit "+Inf"
  | S754_nan => lit "NaN"
  end.

Lemma round_half_even_near num den n : 0 < den -> 2 * Z.abs (num - n * den) < den -> round_half_even num den = n.
Proof.
  intros Hd Hn. unfold round_half_even. pose proof (Z.div_mod num den ltac:(lia)) as E.
  pose proof (Z.mod_pos_bound num den Hd) as Hr. set (q := num / den) in *. set (r := num mod den) in *. clearbody q r.
  destruct (Z.le_gt_cases 0 (num - n * den)) as [Hs|Hs].
  - assert (q = n) as -> by nia. destruct (Z.ltb_spec (2 * r) den); [done|nia].
  - assert (q = n - 1) as -> by nia. destruct (Z.ltb_spec (2 * r) den); [nia|].
    destruct (Z.ltb_spec den (2 * r)); [lia|nia].
Qed.

(** ** The digits of a mantissa *)

Lemma digits2_log2 p : Z.pos (digits2_pos p) = Z.log2 (Z.pos p) + 1.
Proof.
  induction p as [p IH|p IH|]; cbn [digits2_pos]; [..|done]; rewrite Pos2Z.inj_succ, IH.
  - rewrite (Pos2Z.inj_xI p), Z.log2_succ_double by lia. lia.
  - rewrite (Pos2Z.inj_xO p), Z.log2_double by lia. lia.
Qed.

Lemma mantissa_digits m n : 0 <= n -> 2 ^ n <= m < 2 ^ (n + 1) -> Zdigits2 m = n + 1.
Proof.
  intros Hn Hm. assert (0 < 2 ^ n) by lia. destruct m as [|p|p]; [lia| |lia]. cbn [Zdigits2].
  rewrite digits2_log2. f_equal. apply Z.log2_unique; [done|]. by rewrite <- Z.add_1_r.
Qed.

Definition f64_fexp (e : Z) : Z := fexp 53 1024 e.
Lemma fexp_normal e : -1021 <= e -> f64_fexp e = e - 53.
Proof. intros He. unfold f64_fexp, fexp, emin. lia. Qed.

(** ** Rounding *)

(** The place of [r / d] between 0 and 1. *)
Definition placed (l : location) (r d : Z) : Prop :=
  match l with
  | loc_Exact => r = 0
  | loc_Inexact Lt => 0 < r /\ 2 * r < d
  | loc_Inexact Eq => 0 < r /\ 2 * r = d
  | loc_Inexact Gt => r < d /\ d < 2 * r
  end.

Lemma new_location_placed d r : 0 <= r < d -> placed (new_location d r) r d.
Proof.
  intros Hr. unfold new_location. destruct (Z.even d) eqn:Ed.
  - unfold new_location_even. destruct (Z.eqb_spec r 0); [done|]. cbn.
    destruct (Z.compare_spec (2 * r) d); lia.
  - unfold new_location_odd. destruct (Z.eqb_spec r 0); [done|].
    assert (Hodd : 2 * r <> d).
    { intros <-. by rewrite Z.even_mul in Ed. }
    destruct (Z.compare_spec (2 * r + 1) d); cbn; lia.
Qed.

Lemma loc_record m l : loc_of_shr_record (shr_record_of_loc m l) = l /\ shr_m (shr_record_of_loc m l) = m.
Proof. by destruct l as [|[]]. Qed.

(** Half a unit at most. *)
Lemma round_near q l r d : 0 < d -> placed l r d ->
  2 * Z.abs (round_nearest_even q l * d - (q * d + r)) <= d /\ q <= round_nearest_even q l <= q + 1.
Proof.
  intros Hd Hl. destruct l as [|[]]; cbn [round_nearest_even placed] in *; [..|nia].
  - split; [|lia]. replace (q * d - (q * d + r)) with (- r) by lia. lia.
  - destruct (Z.even q); (split; [|lia]).
    + replace (q * d - (q * d + r)) with (- r) by lia. lia.
    + replace ((q + 1) * d - (q * d + r)) with (d - r) by lia. lia.
  - split; [|lia]. replace (q * d - (q * d + r)) with (- r) by lia. lia.
Qed.

(** Dropping the last digit. *)
Lemma shr_1_placed q l r d : 0 < q -> 0 <= r < d -> placed l r d ->
  let s := shr_1 (shr_record_of_loc q l) in
  shr_m s = q / 2 /\ placed (loc_of_shr_record s) (q mod 2 * d + r) (2 * d).
Proof.
  intros Hq Hr Hl. destruct q as [|p|p]; [done| |done].
  assert (Hp : (exists h, Z.pos p = 2 * h + 1 /\ 0 <= h /\ (p = xH /\ h = 0 \/ exists p', p = xI p' /\ h = Z.pos p')) \/
     exists p', p = xO p').
  { destruct p as [p|p|]; [left|by right; exists p|left].
    - exists (Z.pos p). split; [lia|]. split; [lia|]. right. by exists p.
    - exists 0. split; [lia|]. split; [lia|]. by left. }
  destruct Hp as [(h & Eh & Hh & Hp)|[p' ->]].
  - assert (Ed : Z.pos p / 2 = h) by (rewrite Eh, (Z.add_comm (2 * h)), Z.mul_comm, Z.div_add by lia; done).
    assert (Em : Z.pos p mod 2 = 1) by (rewrite Z.mod_eq, Ed by lia; lia). rewrite Ed, Em.
    destruct l as [|[]]; cbn [placed] in Hl; destruct Hp as [[-> ->]|(p' & -> & ->)]; cbn; (split; [done|lia]).
  - assert (Ed : Z.pos (xO p') / 2 = Z.pos p') by (rewrite (Pos2Z.inj_xO p'), Z.mul_comm; apply Z.div_mul; lia).
    assert (Em : Z.pos (xO p') mod 2 = 0) by (rewrite Z.mod_eq, Ed by lia; lia). rewrite Ed, Em.
    destruct l as [|[]]; cbn [placed] in Hl; cbn; (split; [done|lia]).
Qed.

Lemma shr_fexp_none m e l : f64_fexp (Zdigits2 m + e) = e -> shr_fexp 53 1024 m e l = (shr_record_of_loc m l, e).
Proof. unfold shr_fexp, f64_fexp. intros ->. by rewrite Z.sub_diag. Qed.

Lemma shr_fexp_one m e l : f64_fexp (Zdigits2 m + e) = e + 1 ->
  shr_fexp 53 1024 m e l = (shr_1 (shr_record_of_loc m l), e + 1).
Proof. unfold shr_fexp, f64_fexp. intros ->. by replace (e + 1 - e) with 1 by lia. Qed.

(** A mantissa of the right size, or one that rounding has carried over. *)
Lemma round_end n e : 2 ^ 52 <= n <= 2 ^ 53 -> -1074 <= e <= 900 ->
  exists m k, 0 <= k <= 1 /\ 2 ^ 52 <= Z.pos m < 2 ^ 53 /\ n = Z.pos m * 2 ^ k /\
    shr_fexp 53 1024 n e loc_Exact = (Build_shr_record (Z.pos m) false false, e + k).
Proof.
  intros Hn He. destruct (Z.eq_dec n (2 ^ 53)) as [->|Hne].
  - exists (2 ^ 52)%positive, 1. split; [lia|]. split; [lia|]. split; [done|]. rewrite shr_fexp_one; [done|].
    rewrite (mantissa_digits _ 53) by lia. rewrite fexp_normal; lia.
  - exists (Z.to_pos n), 0. rewrite Z2Pos.id by lia. split; [lia|]. split; [lia|]. split; [lia|].
    rewrite shr_fexp_none; [by rewrite Z.add_0_r|]. rewrite (mantissa_digits _ 52) by lia. rewrite fexp_normal; lia.
Qed.

Lemma shr_record_exact m : shr_record_of_loc m loc_Exact = Build_shr_record m false false.
Proof. done. Qed.

(** The quotient [q] and its remainder [r] of a division by [d], with 53 or 54
    digits: what is returned is off by half a unit of the last place at most. *)
Lemma round_aux_spec q r d e l : 0 < d -> 0 <= r < d -> placed l r d ->
  2 ^ 52 <= q < 2 ^ 54 -> -1074 <= e <= 800 ->
  exists m k, binary_round_aux 53 1024 false q e l = S754_finite false m (e + k) /\
    2 ^ 52 <= Z.pos m < 2 ^ 53 /\ 0 <= k <= 2 /\
    2 * Z.abs (Z.pos m * 2 ^ k * d - (q * d + r)) <= 2 ^ k * d.
Proof.
  intros Hd Hr Hl Hq He.
  assert (Hone : exists i mrs d' q', 0 <= i <= 1 /\ shr_fexp 53 1024 q e l = (mrs, e + i) /\ d' = 2 ^ i * d /\
      shr_m mrs = q' /\ 2 ^ 52 <= q' < 2 ^ 53 /\
      exists r', 0 <= r' < d' /\ placed (loc_of_shr_record mrs) r' d' /\ q' * d' + r' = q * d + r).
  { destruct (Z_lt_le_dec q (2 ^ 53)) as [Hs|Hs].
    - exists 0, (shr_record_of_loc q l), d, q. destruct (loc_record q l) as [E1 E2]. rewrite E1, E2, Z.add_0_r, Z.mul_1_l.
      split; [lia|]. split; [apply shr_fexp_none; rewrite (mantissa_digits _ 52) by lia; rewrite fexp_normal; lia|].
      split; [done|]. split; [done|]. split; [lia|]. by exists r.
    - destruct (shr_1_placed q l r d) as [E1 E2]; [lia|done|done|]. cbv zeta in E1, E2.
      exists 1, (shr_1 (shr_record_of_loc q l)), (2 * d), (q / 2). split; [lia|].
      split; [apply shr_fexp_one; rewrite (mantissa_digits _ 53) by lia; rewrite fexp_normal; lia|].
      split; [done|]. split; [done|]. split; [split; [apply Z.div_le_lower_bound; lia|apply Z.div_lt_upper_bound; lia]|].
      pose proof (Z.mod_pos_bound q 2 ltac:(lia)). pose proof (Z.div_mod q 2 ltac:(lia)).
      exists (q mod 2 * d + r). split; [nia|]. split; [done|nia]. }
  destruct Hone as (i & mrs & d' & q' & Hi & E1 & Ed & Eq & Hq' & r' & Hr' & Hp & Esum).
  assert (0 < d') by lia.
  destruct (round_near q' (loc_of_shr_record mrs) r' d') as [Hnear Hn]; [done|done|].
  destruct (round_end (round_nearest_even q' (loc_of_shr_record mrs)) (e + i)) as (m & k & Hk & Hm & En & E2); [lia|lia|].
  exists m, (i + k). unfold binary_round_aux. rewrite E1, Eq, E2. cbn [shr_m].
  destruct (Z.leb_spec (e + i + k) (1024 - 53)); [|lia]. rewrite Z.add_assoc. split; [done|]. split; [done|]. split; [lia|].
  rewrite Esum, En, Ed in Hnear. rewrite Z.pow_add_r by lia.
  assert (1 <= 2 ^ k) by (apply Z.pow_le_mono_r with (b := 0); lia).
  replace (Z.pos m * (2 ^ i * 2 ^ k) * d) with (Z.pos m * 2 ^ k * (2 ^ i * d)) by lia.
  etrans; [exact (proj1 (conj Hnear I))|]. assert (0 < 2 ^ i) by (apply Z.pow_pos_nonneg; lia). nia.
Qed.

(** ** Integers as floats, and their quotients *)

Lemma f64_of_pos a : 0 < a < 2 ^ 53 -> exists m e,
  f64_of_Z a = S754_finite false m e /\ 2 ^ 52 <= Z.pos m < 2 ^ 53 /\ -52 <= e <= 0 /\ Z.pos m = a * 2 ^ (- e).
Proof.
  intros Ha. destruct a as [|p|p]; [lia| |lia]. unfold f64_of_Z, binary_normalize, binary_round.
  set (n := Z.log2 (Z.pos p)). pose proof (Z.log2_spec (Z.pos p) ltac:(lia)) as Hn. fold n in Hn.
  assert (H0 : 0 <= n) by apply Z.log2_nonneg.
  assert (Hn52 : n <= 52) by (unfold n; apply Z.lt_succ_r, Z.log2_lt_pow2; lia).
  change (fexp 53 1024) with f64_fexp. rewrite digits2_log2. fold n. rewrite fexp_normal by lia.
  assert (E : shl_align p 0 (n + 1 + 0 - 53) = (Z.to_pos (Z.pos p * 2 ^ (52 - n)), n - 52)).
  { unfold shl_align. replace (n + 1 + 0 - 53 - 0) with (n - 52) by lia. destruct (n - 52) as [|d|d] eqn:Ed; [|lia|].
    - replace (52 - n) with 0 by lia. by rewrite Z.mul_1_r.
    - replace (n + 1 + 0 - 53) with (n - 52) by lia. replace (52 - n) with (Z.pos d) by lia. rewrite Ed. f_equal.
      apply Pos2Z.inj. rewrite Z2Pos.id by (apply Z.mul_pos_pos; [lia|apply Z.pow_pos_nonneg; lia]).
      rewrite <- Z.shiftl_mul_pow2 by lia. by apply (Pos.iter_swap_gen _ _ Z.pos xO (Z.mul 2)). }
  rewrite E. set (m := Z.to_pos _).
  assert (Em : Z.pos m = Z.pos p * 2 ^ (52 - n)).
  { unfold m. rewrite Z2Pos.id; [done|]. apply Z.mul_pos_pos; [lia|apply Z.pow_pos_nonneg; lia]. }
  assert (Hm : 2 ^ 52 <= Z.pos m < 2 ^ 53).
  { assert (E52 : 2 ^ 52 = 2 ^ n * 2 ^ (52 - n)) by (rewrite <- Z.pow_add_r by lia; f_equal; lia).
    assert (0 < 2 ^ (52 - n)) by (apply Z.pow_pos_nonneg; lia). rewrite Z.pow_succ_r in Hn by done.
    change (2 ^ 53) with (2 * 2 ^ 52). rewrite Em, E52. nia. }
  exists m, (n - 52). split; [|split; [done|split; [lia|]]].
  - assert (Hd : f64_fexp (Zdigits2 (Z.pos m) + (n - 52)) = n - 52).
    { rewrite (mantissa_digits _ 52) by lia. rewrite fexp_normal; lia. }
    unfold binary_round_aux. rewrite shr_fexp_none by done. rewrite shr_record_exact. cbn [shr_m loc_of_shr_record round_nearest_even].
    rewrite shr_fexp_none by done. cbn [shr_m shr_record_of_loc]. by destruct (Z.leb_spec (n - 52) (1024 - 53)); [|lia].
  - rewrite Em. f_equal. f_equal. lia.
Qed.

Lemma SFdiv_normal m1 e1 m2 e2 :
  2 ^ 52 <= Z.pos m1 < 2 ^ 53 -> 2 ^ 52 <= Z.pos m2 < 2 ^ 53 -> -52 <= e1 <= 0 -> -52 <= e2 <= 0 ->
  exists m k, f64_div (S754_finite false m1 e1) (S754_finite false m2 e2) = S754_finite false m (e1 - e2 - 53 + k) /\
    2 ^ 52 <= Z.pos m < 2 ^ 53 /\ 0 <= k <= 2 /\
    2 * Z.abs (Z.pos m * 2 ^ k * Z.pos m2 - Z.pos m1 * 2 ^ 53) <= 2 ^ k * Z.pos m2.
Proof.
  intros H1 H2 He1 He2. unfold f64_div, SFdiv, SFdiv_core_binary.
  rewrite (mantissa_digits (Z.pos m1) 52), (mantissa_digits (Z.pos m2) 52) by lia. change (fexp 53 1024) with f64_fexp.
  rewrite fexp_normal by lia.
  replace (Z.min (52 + 1 + e1 - (52 + 1 + e2) - 53) (e1 - e2)) with (e1 - e2 - 53) by lia. cbv zeta.
  replace (e1 - e2 - (e1 - e2 - 53)) with 53 by lia. cbv iota. rewrite Z.shiftl_mul_pow2 by lia.
  pose proof (Z_div_mod (Z.pos m1 * 2 ^ 53) (Z.pos m2) ltac:(lia)) as Hdiv.
  destruct (Z.div_eucl _ _) as [q r]. destruct Hdiv as [E Hr]. cbn [xorb].
  destruct (round_aux_spec q r (Z.pos m2) (e1 - e2 - 53) (new_location (Z.pos m2) r)) as (m & k & Em & Hm & Hk & Hb);
    [lia|lia|by apply new_location_placed|nia|lia|].
  exists m, k. split; [exact Em|]. split; [done|]. split; [done|]. by rewrite E, (Z.mul_comm (Z.pos m2) q).
Qed.

Lemma abs_scale c x y : 0 < c -> 2 * Z.abs (x * c) <= y * c -> 2 * Z.abs x <= y.
Proof. intros Hc H. rewrite Z.abs_mul, (Z.abs_eq c) in H by lia. nia. Qed.

(** The arithmetic of the next lemma: the quotient has enough binary places. *)
Lemma half_clash m a b H U V C T : 0 < a -> 0 < V -> 0 < C -> H <= m -> a < U * b -> H = U * V -> b < 2 * V -> 0 < b ->
  T <= V * C -> 2 * Z.abs (m * C * b - a * T) <= C * b -> False.
Proof.
  intros Ha HV HC Hm Hab E Hb Hb0 HT Hn.
  assert (H1 : a * T <= (U * b - 1) * (V * C)).
  { etrans; [apply Z.mul_le_mono_nonneg_l with (p := a); [lia|exact HT]|].
    apply Z.mul_le_mono_nonneg_r; [|lia]. apply Z.mul_nonneg_nonneg; lia. }
  assert (H2 : H * (C * b) <= m * (C * b)).
  { apply Z.mul_le_mono_nonneg_r; [|done]. apply Z.mul_nonneg_nonneg; lia. }
  assert (H3 : C * b < C * (2 * V)) by (apply Z.mul_lt_mono_pos_l; lia).
  rewrite E in H2. replace ((U * b - 1) * (V * C)) with (U * V * (C * b) - V * C) in H1 by lia.
  replace (m * C * b) with (m * (C * b)) in Hn by lia. lia.
Qed.

(** The quotient of two integers, with [k] binary places at least. *)
Lemma f64_quotient a b k : 1 <= k <= 52 -> 0 < b < 2 ^ k -> 0 < a < 2 ^ (53 - k) * b -> a < 2 ^ 53 ->
  exists m e, f64_div (f64_of_Z a) (f64_of_Z b) = S754_finite false m e /\ e <= - k /\
    2 ^ 52 <= Z.pos m < 2 ^ 53 /\ 2 * Z.abs (Z.pos m * b - a * 2 ^ (- e)) <= b.
Proof.
  intros Hk Hb [Ha0 Ha] Ha53. assert (Hkb : 2 ^ k <= 2 ^ 52) by (apply Z.pow_le_mono_r; lia).
  destruct (f64_of_pos a) as (m1 & e1 & -> & Hm1 & He1 & E1); [lia|].
  destruct (f64_of_pos b) as (m2 & e2 & -> & Hm2 & He2 & E2); [lia|].
  destruct (SFdiv_normal m1 e1 m2 e2) as (m & c & E & Hm & Hc & Hn); [done..|].
  exists m, (e1 - e2 - 53 + c). split; [exact E|]. set (t := 53 + e2 - e1).
  assert (Ht : 1 <= t) by (unfold t; lia).
  assert (Hn' : 2 * Z.abs (Z.pos m * 2 ^ c * b - a * 2 ^ t) <= 2 ^ c * b).
  { apply (abs_scale (2 ^ (- e2))); [apply Z.pow_pos_nonneg; lia|].
    assert (Et : a * 2 ^ (- e1) * 2 ^ 53 = a * 2 ^ t * 2 ^ (- e2)).
    { rewrite <- !Z.mul_assoc, <- !Z.pow_add_r by lia. do 2 f_equal. unfold t. lia. }
    rewrite Z.mul_sub_distr_r, <- Et, <- E1, <- !Z.mul_assoc, <- E2, !Z.mul_assoc. exact Hn. }
  assert (Hc1 : 0 < 2 ^ c) by (apply Z.pow_pos_nonneg; lia).
  assert (Hsmall : c + k <= t).
  { apply Z.nlt_ge. intros Hlt.
    assert (Hp : 2 ^ t <= 2 ^ (k - 1) * 2 ^ c) by (rewrite <- Z.pow_add_r by lia; apply Z.pow_le_mono_r; lia).
    assert (E52 : 2 ^ 52 = 2 ^ (53 - k) * 2 ^ (k - 1)) by (rewrite <- Z.pow_add_r by lia; f_equal; lia).
    assert (Ek : 2 ^ k = 2 * 2 ^ (k - 1)) by (rewrite <- Z.pow_succ_r by lia; f_equal; lia).
    assert (0 < 2 ^ (k - 1)) by (apply Z.pow_pos_nonneg; lia).
    apply (half_clash (Z.pos m) a b (2 ^ 52) (2 ^ (53 - k)) (2 ^ (k - 1)) (2 ^ c) (2 ^ t)); lia. }
  split; [unfold t in Hsmall; lia|]. split; [done|].
  apply (abs_scale (2 ^ c)); [done|]. rewrite Z.mul_sub_distr_r.
  replace (- (e1 - e2 - 53 + c)) with (t - c) by (unfold t; lia).
  rewrite <- (Z.mul_assoc a), <- Z.pow_add_r by lia. replace (t - c + c) with t by lia.
  replace (Z.pos m * b * 2 ^ c) with (Z.pos m * 2 ^ c * b) by lia. by rewrite (Z.mul_comm b).
Qed.

(** Printing a quotient with [d] decimal places gives the decimal fraction
    [n / 10 ^ d] it is meant to be, when the unit of its last binary place is
    smaller. *)
Lemma Sprintf_quotient a b k d n : 1 <= k <= 52 -> 0 < b < 2 ^ k -> 0 < a < 2 ^ (53 - k) * b -> a < 2 ^ 53 ->
  0 <= d -> 10 ^ d < 2 ^ k -> n * b = a * 10 ^ d ->
  Sprintf_f d (f64_div (f64_of_Z a) (f64_of_Z b)) = Sprintf_d (n / 10 ^ d) ++ 46 :: pad d (Sprintf_d (n mod 10 ^ d)).
Proof.
  intros Hk Hb Ha Ha53 Hd Hlt En. destruct (f64_quotient a b k) as (m & e & -> & He & _ & Hn); [done..|].
  unfold Sprintf_f. cbn [app]. rewrite (Z.max_l 0 e) by lia. rewrite (Z.max_r 0 (- e)) by lia. rewrite Z.mul_1_r.
  assert (Hp : 2 ^ k <= 2 ^ (- e)) by (apply Z.pow_le_mono_r; lia). assert (0 < 10 ^ d) by (apply Z.pow_pos_nonneg; lia).
  rewrite (round_half_even_near _ _ n); [done|lia|].
  set (D := 2 ^ (- e)) in *. set (T := 10 ^ d) in *. clearbody D T. clear He.
  assert (Hs : 2 * Z.abs ((Z.pos m * T - n * D) * b) <= b * T).
  { replace ((Z.pos m * T - n * D) * b) with ((Z.pos m * b - a * D) * T) by (rewrite !Z.mul_sub_distr_r; nia).
    rewrite Z.abs_mul, (Z.abs_eq T) by lia. nia. }
  rewrite (Z.mul_comm b) in Hs. apply abs_scale in Hs; lia.
Qed.
