(* ===== verification/Protocol.v ===== *)
(** * ISFP frames: [internal/protocol/frame.go] and [internal/protocol/codec.go].

    The 20-byte header, the frame encoder and decoder, and the bounded
    decompression.  [hash/crc32] is computed; the compressors (the vendored
    zstd package, and gzip, whose output is not determined by its
    documentation) are the operations of the class [Codec], with their
    documented inverse laws in [CodecLaws]. *)
From S2P Require Import Prelude.
Local Open Scope Z_scope.
Local Open Scope go_scope.

(** ** Constants (frame.go) *)

Definition Magic : Z := 0x5057.
Definition Version : Z := 0x01.
Definition HeaderSize : Z := 20.
Definition MaxFrameLen : Z := Z.shiftl 1 20.
Definition MaxDecompressedLen : Z := Z.shiftl 16 20.

Definition TypeData : Z := 0x01.
Definition TypeHeartbeat : Z := 0x02.
Definition TypeControl : Z := 0x03.
Definition TypeDataZstd : Z := 0x04.
Definition TypeError : Z := 0xFF.

Definition AckSuccess : Z := 0xff.
Definition AckFail : Z := 0x00.

(** The sentinel errors of frame.go, then the unnamed ones of codec.go. *)
Inductive perr : Type :=
| ErrBadMagic (got : Z)
| ErrBadVersion (got : Z)
| ErrBadCRC (seq : Z)
| ErrTooLarge (n : Z)
| ErrShort (n : Z)
| ErrLengthMismatch (hdr got : Z)
| ErrHeartbeatPayload
| ErrUnsupportedType (typ : Z)
| ErrCompress
| ErrDecompress
| ErrDecompressedTooLarge.

(** [errors.Is(err, protocol.ErrTooLarge)]. *)
Definition is_too_large (e : perr) : bool :=
  match e with ErrTooLarge _ => true | _ => false end.

Record Frame := mkFrame {
  f_Version : Z; f_Type : Z; f_Seq : Z; f_CRC : Z; f_Payload : bytes }.

Record Header := mkHeader {
  h_Magic : Z; h_Version : Z; h_Type : Z; h_Seq : Z; h_Length : Z; h_CRC : Z }.

(** A header whose fields fit their Go types. *)
Definition header_ok (h : Header) : Prop :=
  0 <= h_Magic h < 2 ^ 16 /\ is_byte (h_Version h) /\ is_byte (h_Type h) /\
  is_u64 (h_Seq h) /\ 0 <= h_Length h < 2 ^ 32 /\ 0 <= h_CRC h < 2 ^ 32.

Definition IsHeartbeat (f : Frame) : bool := f_Type f =? TypeHeartbeat.
Definition IsData (f : Frame) : bool := f_Type f =? TypeData.
Definition IsDataZstd (f : Frame) : bool := f_Type f =? TypeDataZstd.

(** ** [crc32.ChecksumIEEE] *)

Definition crc_step (c : Z) : Z :=
  if Z.testbit c 0 then Z.lxor (Z.shiftr c 1) 0xEDB88320 else Z.shiftr c 1.
Definition crc_byte (c b : Z) : Z := Nat.iter 8 crc_step (Z.lxor c b).
Definition crc_update (c : Z) (bs : bytes) : Z := foldl crc_byte c bs.
Definition ChecksumIEEE (bs : bytes) : Z :=
  Z.lxor (crc_update 0xFFFFFFFF bs) 0xFFFFFFFF.

(** ** The compressors *)

(** A reader is the bytes it yields before it stops, and whether it stops
    at a clean end of stream rather than with an error. *)
Definition stream : Type := bytes * bool.

Class Codec := {
  gzip_write : bytes -> option bytes;     (** [gzip.NewWriterLevel] .. [Close] *)
  zstd_EncodeAll : bytes -> bytes;        (** [zstd.Encoder.EncodeAll] *)
  gzip_open : bytes -> option stream;     (** [gzip.NewReader] *)
  zstd_open : bytes -> option stream      (** [zstd.Decoder.Reset] *)
}.

(** What the two packages document: decompression inverts compression. *)
Class CodecLaws (C : Codec) := {
  gzip_inverse p c : is_bytes p -> gzip_write p = Some c -> gzip_open c = Some (p, true);
  zstd_inverse p : is_bytes p -> zstd_open (zstd_EncodeAll p) = Some (p, true);
  gzip_bytes p c : is_bytes p -> gzip_write p = Some c -> is_bytes c;
  zstd_bytes p : is_bytes p -> is_bytes (zstd_EncodeAll p)
}.

(** [io.ReadAll(&io.LimitedReader{R: r, N: n})]. *)
Definition ReadAll_limited (r : stream) (n : Z) : option bytes :=
  if n <=? len r.1 then Some (take (Z.to_nat n) r.1)
  else if r.2 then Some r.1 else None.

(** ** Encoding (codec.go) *)

Definition putHeader (dst : bytes) (h : Header) : bytes :=
  be_put 2 (h_Magic h) ++ [u8 (h_Version h)] ++ [u8 (h_Type h)] ++
  be_put 8 (h_Seq h) ++ be_put 4 (h_Length h) ++ be_put 4 (h_CRC h) ++
  drop 20 dst.

Definition encodeRaw (typ seq : Z) (payload : bytes) (crc : Z) : bytes :=
  let head := putHeader (replicate 20 0)
    (mkHeader Magic Version typ seq (u32 (len payload)) crc) in
  head ++ payload.

Section WithCodec.
Context {C : Codec}.

Definition gzipCompress (payload : bytes) : outcome perr bytes :=
  match gzip_write payload with Some c => Ok c | None => Err ErrCompress end.

Definition Encode (typ seq : Z) (payload : bytes) : outcome perr bytes :=
  if typ =? TypeHeartbeat then
    if negb (len payload =? 0) then Err ErrHeartbeatPayload
    else Ok (encodeRaw typ seq [] 0)
  else if MaxDecompressedLen <? len payload then Err (ErrTooLarge (len payload))
  else
    let compressed :=
      if typ =? TypeData then gzipCompress payload
      else if typ =? TypeDataZstd then Ok (zstd_EncodeAll payload)
      else Err (ErrUnsupportedType typ) in
    match compressed with
    | Ok c =>
        if MaxFrameLen <? HeaderSize + len c then Err (ErrTooLarge (HeaderSize + len c))
        else Ok (encodeRaw typ seq c (ChecksumIEEE c))
    | Err e => Err e
    | Panic => Panic
    end.

Definition EncodeData (seq : Z) (lineProtocol : bytes) := Encode TypeData seq lineProtocol.
Definition EncodeDataZstd (seq : Z) (lineProtocol : bytes) := Encode TypeDataZstd seq lineProtocol.
Definition EncodeHeartbeat (seq : Z) := Encode TypeHeartbeat seq [].

(** ** Decoding (codec.go) *)

Definition ParseHeader (buf : bytes) : outcome perr Header :=
  if len buf <? HeaderSize then Err (ErrShort (len buf))
  else
    let h := mkHeader (be_get (slice buf 0 2)) (be_get (slice buf 2 3))
      (be_get (slice buf 3 4)) (be_get (slice buf 4 12))
      (be_get (slice buf 12 16)) (be_get (slice buf 16 20)) in
    if negb (h_Magic h =? Magic) then Err (ErrBadMagic (h_Magic h))
    else if negb (h_Version h =? Version) then Err (ErrBadVersion (h_Version h))
    else if MaxFrameLen <? HeaderSize + h_Length h then Err (ErrTooLarge (h_Length h))
    else Ok h.

Definition Decode (frameBytes : bytes) : outcome perr Frame :=
  if len frameBytes <? HeaderSize then Err (ErrShort (len frameBytes))
  else
    match ParseHeader (slice frameBytes 0 HeaderSize) with
    | Err e => Err e
    | Panic => Panic
    | Ok h =>
        if negb (len frameBytes =? HeaderSize + h_Length h)
        then Err (ErrLengthMismatch (h_Length h) (len frameBytes - HeaderSize))
        else
          let payload := drop (Z.to_nat HeaderSize) frameBytes in
          if negb (ChecksumIEEE payload =? h_CRC h) then Err (ErrBadCRC (h_Seq h))
          else Ok (mkFrame (h_Version h) (h_Type h) (h_Seq h) (h_CRC h) payload)
    end.

Definition gunzip (payload : bytes) : outcome perr bytes :=
  match gzip_open payload with
  | None => Err ErrDecompress
  | Some r => match ReadAll_limited r (MaxDecompressedLen + 1) with
              | None => Err ErrDecompress
              | Some out => Ok out
              end
  end.

Definition Decompress (f : Frame) : outcome perr bytes :=
  let out :=
    if f_Type f =? TypeData then gunzip (f_Payload f)
    else if f_Type f =? TypeDataZstd then
      match zstd_open (f_Payload f) with
      | None => Err ErrDecompress
      | Some r => match ReadAll_limited r (MaxDecompressedLen + 1) with
                  | None => Err ErrDecompress
                  | Some out => Ok out
                  end
      end
    else Err (ErrUnsupportedType (f_Type f)) in
  match out with
  | Ok out => if MaxDecompressedLen <? len out then Err ErrDecompressedTooLarge else Ok out
  | Err e => Err e
  | Panic => Panic
  end.

End WithCodec.

(** ** The header codec *)

Lemma len_putHeader dst h : len dst = 20 -> len (putHeader dst h) = 20.
Proof. intros Hd. unfold putHeader. zlia. Qed.

Lemma be_get_byte b : is_byte b -> be_get [b] = b.
Proof. unfold be_get, is_byte. cbn. lia. Qed.

Lemma u8_byte b : is_byte b -> u8 b = b.
Proof. intros Hb. apply Z.mod_small. exact Hb. Qed.

Lemma putHeader_bytes h : is_bytes (putHeader (replicate 20 0) h).
Proof.
  unfold putHeader. rewrite !is_bytes_app.
  repeat split; auto with vmsync; repeat constructor;
    unfold is_byte, u8; apply Z.mod_pos_bound; lia.
Qed.

(** The fields a parser reads back at their offsets. *)
Lemma parse_fields h rest :
  header_ok h ->
  let buf := putHeader (replicate 20 0) h ++ rest in
  mkHeader (be_get (slice buf 0 2)) (be_get (slice buf 2 3))
    (be_get (slice buf 3 4)) (be_get (slice buf 4 12))
    (be_get (slice buf 12 16)) (be_get (slice buf 16 20)) = h.
Proof.
  intros (Hm & Hv & Ht & Hs & Hl & Hc). unfold is_u64 in Hs. cbn zeta.
  unfold putHeader. rewrite !u8_byte by done.
  set (m := be_put 2 _). set (s := be_put 8 _). set (l := be_put 4 (h_Length h)).
  set (c := be_put 4 _). set (v := h_Version h) in *. set (t := h_Type h) in *.
  assert (len m = 2 /\ len s = 8 /\ len l = 4 /\ len c = 4) as (Lm & Ls & Ll & Lc)
    by (unfold m, s, l, c; zlia).
  rewrite drop_replicate. cbn [Nat.sub replicate]. rewrite <- !app_assoc, app_nil_l.
  rewrite (slice_eq _ [] m ([v] ++ [t] ++ s ++ l ++ c ++ rest)) by (done || zlia).
  rewrite (slice_eq _ m [v] ([t] ++ s ++ l ++ c ++ rest)) by (done || zlia).
  rewrite (slice_eq _ (m ++ [v]) [t] (s ++ l ++ c ++ rest))
    by (by rewrite <- !app_assoc || zlia).
  rewrite (slice_eq _ (m ++ [v] ++ [t]) s (l ++ c ++ rest))
    by (by rewrite <- !app_assoc || zlia).
  rewrite (slice_eq _ (m ++ [v] ++ [t] ++ s) l (c ++ rest))
    by (by rewrite <- !app_assoc || zlia).
  rewrite (slice_eq _ (m ++ [v] ++ [t] ++ s ++ l) c rest)
    by (by rewrite <- !app_assoc || zlia).
  unfold m, s, l, c. rewrite !be_get_put, !be_get_byte by done.
  rewrite !Z.mod_small by (cbn; lia). by destruct h.
Qed.

(** The header checks that [ParseHeader] makes after reading the fields. *)
Definition header_valid (h : Header) : Prop :=
  h_Magic h = Magic /\ h_Version h = Version /\ HeaderSize + h_Length h <= MaxFrameLen.

Lemma ParseHeader_put h rest :
  header_ok h -> header_valid h ->
  ParseHeader (putHeader (replicate 20 0) h ++ rest) = Ok h.
Proof.
  intros Hok (Hm & Hv & Hl). unfold ParseHeader.
  rewrite parse_fields by done.
  pose proof (len_putHeader (replicate 20 0) h eq_refl) as L.
  destruct (Z.ltb_spec (len (putHeader (replicate 20 0) h ++ rest)) HeaderSize) as [Hlt|_].
  { unfold HeaderSize in Hlt. zlia. }
  rewrite Hm, Hv, !Z.eqb_refl. cbn [negb].
  destruct (Z.ltb_spec MaxFrameLen (HeaderSize + h_Length h)); [lia|done].
Qed.

Lemma slice_prefix {A} (l k : list A) n : len l = n -> slice (l ++ k) 0 n = l.
Proof. intros H. apply (slice_eq _ [] l k); [done|done|zlia]. Qed.

Lemma slice_split20 (buf : bytes) : 20 <= len buf ->
  buf = slice buf 0 2 ++ slice buf 2 3 ++ slice buf 3 4 ++ slice buf 4 12 ++
        slice buf 12 16 ++ slice buf 16 20 ++ drop 20 buf.
Proof.
  intros H.
  assert (Hd : forall a b, 0 <= a <= b ->
    drop (Z.to_nat a) buf = slice buf a b ++ drop (Z.to_nat b) buf).
  { intros a b Hab. unfold slice.
    rewrite <- (take_drop (Z.to_nat (b - a)) (drop (Z.to_nat a) buf)) at 1.
    rewrite drop_drop. do 2 f_equal. lia. }
  change (drop 20 buf) with (drop (Z.to_nat 20) buf).
  rewrite <- (Hd 16 20), <- (Hd 12 16), <- (Hd 4 12), <- (Hd 3 4), <- (Hd 2 3),
    <- (Hd 0 2) by lia. done.
Qed.

Lemma len_slice {A} (l : list A) a b :
  0 <= a <= b -> b <= len l -> len (slice l a b) = b - a.
Proof. intros. unfold slice. zlia. Qed.

Lemma be_put_slice buf a b n : is_bytes buf -> 0 <= a <= b -> b <= len buf ->
  b - a = Z.of_nat n -> be_put n (be_get (slice buf a b)) = slice buf a b.
Proof.
  intros Hb ? ? Hn. rewrite <- (be_put_get (slice buf a b)) at 2 by auto with vmsync.
  f_equal. pose proof (len_slice buf a b). unfold len in *. lia.
Qed.

Lemma slice_single buf a b : is_bytes buf -> 0 <= a -> b = a + 1 -> b <= len buf ->
  slice buf a b = [be_get (slice buf a b)] /\ is_byte (be_get (slice buf a b)).
Proof.
  intros Hb Ha -> Hl. pose proof (len_slice buf a (a + 1) ltac:(lia) Hl) as L.
  pose proof (is_bytes_slice buf a (a + 1) Hb) as Hs.
  destruct (slice buf a (a + 1)) as [|x [|y t]]; rewrite ?len_cons, ?len_nil in L; try zlia.
  apply Forall_inv in Hs. by rewrite be_get_byte.
Qed.

(** What a successful parse says about the bytes: they are the printed header. *)
Lemma ParseHeader_inv buf h :
  is_bytes buf -> ParseHeader buf = Ok h ->
  header_ok h /\ header_valid h /\
  buf = putHeader (replicate 20 0) h ++ drop 20 buf.
Proof.
  intros Hb. unfold ParseHeader.
  destruct (Z.ltb_spec (len buf) HeaderSize) as [|Hlen]; [done|].
  unfold HeaderSize in Hlen. set (h0 := mkHeader _ _ _ _ _ _).
  destruct (Z.eqb_spec (h_Magic h0) Magic) as [Em|]; [|done].
  destruct (Z.eqb_spec (h_Version h0) Version) as [Ev|]; [|done]. cbn [negb].
  destruct (Z.ltb_spec MaxFrameLen (HeaderSize + h_Length h0)) as [|El]; [done|].
  intros [= <-].
  pose proof (slice_single buf 2 3 Hb) as [V1 V2]; [lia..|].
  pose proof (slice_single buf 3 4 Hb) as [T1 T2]; [lia..|].
  assert (Hr : forall a b, 0 <= a <= b -> b <= 20 ->
    0 <= be_get (slice buf a b) < 256 ^ (b - a)).
  { intros a b ? ?. rewrite <- (len_slice buf a b) by lia.
    by apply be_get_range, is_bytes_slice. }
  split; [|split].
  - unfold header_ok, is_u64, h0; cbn -[Z.pow slice]. repeat split; try apply V2; try apply T2;
      try (apply Hr; lia); eapply Z.lt_le_trans; try (apply Hr; lia); cbn; lia.
  - done.
  - rewrite (slice_split20 buf) at 1 by lia.
    unfold putHeader, h0; cbn [h_Magic h_Version h_Type h_Seq h_Length h_CRC].
    rewrite !u8_byte by done. rewrite <- V1, <- T1.
    rewrite !be_put_slice by (done || lia).
    rewrite drop_replicate. cbn [Nat.sub replicate]. by rewrite <- !app_assoc.
Qed.

(** ** CRC-32 *)

Definition is_crc (c : Z) : Prop := 0 <= c < 2 ^ 32.

Lemma crc_poly_bit31 : Z.testbit 0xEDB88320 31 = true.
Proof. done. Qed.

Lemma shiftr1_bound c : is_crc c -> 0 <= Z.shiftr c 1 < 2 ^ 31.
Proof. unfold is_crc. rewrite Z.shiftr_div_pow2 by lia. change (2 ^ 1) with 2.
  intros. split; [apply Z.div_pos; lia|apply Z.div_lt_upper_bound; lia].
Qed.

Lemma crc_step_range c : is_crc c -> is_crc (crc_step c).
Proof.
  intros H. pose proof (shiftr1_bound c H). unfold crc_step, is_crc in *.
  destruct (Z.testbit c 0); [|lia]. apply lxor_range; lia.
Qed.

Lemma low_bit_split c : c = 2 * Z.shiftr c 1 + Z.b2z (Z.testbit c 0).
Proof.
  rewrite Z.bit0_odd, Z.shiftr_div_pow2 by lia. change (2 ^ 1) with 2.
  pose proof (Zmod_odd c). pose proof (Z.div_mod c 2).
  destruct (Z.odd c); cbn [Z.b2z]; lia.
Qed.

Lemma testbit31_small c : 0 <= c < 2 ^ 31 -> Z.testbit c 31 = false.
Proof.
  intros H. rewrite Z.testbit_false by lia. by rewrite Z.div_small.
Qed.

Lemma crc_step_inj c d : is_crc c -> is_crc d -> crc_step c = crc_step d -> c = d.
Proof.
  intros Hc Hd He. pose proof (shiftr1_bound c Hc) as Bc. pose proof (shiftr1_bound d Hd) as Bd.
  rewrite (low_bit_split c), (low_bit_split d). unfold crc_step in He.
  destruct (Z.testbit c 0), (Z.testbit d 0).
  - by rewrite (lxor_cancel_r _ _ _ He).
  - apply (f_equal (fun z => Z.testbit z 31)) in He.
    by rewrite Z.lxor_spec, (testbit31_small _ Bc), (testbit31_small _ Bd) in He.
  - apply (f_equal (fun z => Z.testbit z 31)) in He.
    by rewrite Z.lxor_spec, (testbit31_small _ Bc), (testbit31_small _ Bd) in He.
  - by rewrite He.
Qed.

Lemma crc_iter_range n c : is_crc c -> is_crc (Nat.iter n crc_step c).
Proof. intros H. induction n; cbn; auto using crc_step_range. Qed.

Lemma crc_iter_inj n c d : is_crc c -> is_crc d ->
  Nat.iter n crc_step c = Nat.iter n crc_step d -> c = d.
Proof.
  intros Hc Hd. induction n as [|n IH]; [done|]. intros He.
  apply IH, crc_step_inj; auto using crc_iter_range.
Qed.

Lemma is_byte_crc b : is_byte b -> is_crc b.
Proof. unfold is_byte, is_crc. lia. Qed.

Lemma crc_byte_range c b : is_crc c -> is_byte b -> is_crc (crc_byte c b).
Proof.
  intros Hc Hb. apply crc_iter_range, lxor_range; [lia|done|by apply is_byte_crc].
Qed.

Lemma crc_update_range c bs : is_crc c -> is_bytes bs -> is_crc (crc_update c bs).
Proof.
  revert c. induction bs as [|b bs IH]; intros c Hc Hb; [done|].
  apply Forall_cons in Hb as [Hb Hbs]. apply IH; auto using crc_byte_range.
Qed.

Lemma ChecksumIEEE_range bs : is_bytes bs -> is_crc (ChecksumIEEE bs).
Proof.
  intros H. apply lxor_range; [lia| |lia].
  apply crc_update_range; [unfold is_crc; lia|done].
Qed.

(** For fixed input bytes the register update is injective in the register,
    and for a fixed register it is injective in the byte. *)
Lemma crc_update_inj bs c d : is_crc c -> is_crc d -> is_bytes bs ->
  crc_update c bs = crc_update d bs -> c = d.
Proof.
  revert c d. induction bs as [|b bs IH]; intros c d Hc Hd Hb He; [done|].
  apply Forall_cons in Hb as [Hb Hbs].
  apply IH in He; auto using crc_byte_range.
  apply crc_iter_inj in He; try (apply lxor_range; [lia|done|by apply is_byte_crc]).
  by apply lxor_cancel_r in He.
Qed.

Lemma ChecksumIEEE_one_byte pre post a b :
  is_bytes pre -> is_byte a -> is_byte b -> is_bytes post -> a <> b ->
  ChecksumIEEE (pre ++ a :: post) <> ChecksumIEEE (pre ++ b :: post).
Proof.
  intros Hpre Ha Hb Hpost Hne He. apply Hne.
  apply lxor_cancel_r in He. unfold crc_update in He. rewrite !foldl_app in He. cbn [foldl] in He.
  set (c := foldl crc_byte _ pre) in He.
  assert (is_crc c) as Hc by (apply crc_update_range; [unfold is_crc; lia|done]).
  apply (crc_update_inj post) in He; auto using crc_byte_range.
  apply crc_iter_inj in He; try (apply lxor_range; [lia|done|by apply is_byte_crc]).
  rewrite !(Z.lxor_comm c) in He. by apply lxor_cancel_r in He.
Qed.

(** ** Frames *)

Lemma MaxFrameLen_val : MaxFrameLen = 1048576. Proof. done. Qed.
Lemma MaxDecompressedLen_val : MaxDecompressedLen = 16777216. Proof. done. Qed.

(** [zlia] with the protocol's constants. *)
Ltac plia := rewrite ?MaxFrameLen_val, ?MaxDecompressedLen_val in *; unfold HeaderSize in *; zlia.

Lemma Header_of_raw typ seq (c : bytes) crc :
  is_byte typ -> is_u64 seq -> HeaderSize + len c <= MaxFrameLen -> is_crc crc ->
  let h := mkHeader Magic Version typ seq (u32 (len c)) crc in
  header_ok h /\ header_valid h /\ h_Length h = len c.
Proof.
  intros Ht Hs Hl Hc. cbn zeta. assert (0 <= len c < 2 ^ 32) by plia.
  unfold header_ok, header_valid; cbn [h_Magic h_Version h_Type h_Seq h_Length h_CRC].
  rewrite u32_small by done. unfold is_crc, Magic, Version, is_byte in *. repeat split; plia.
Qed.

Lemma len_encodeRaw typ seq c crc : len (encodeRaw typ seq c crc) = HeaderSize + len c.
Proof. unfold encodeRaw. rewrite len_app, len_putHeader by done. done. Qed.

Lemma drop20_encodeRaw typ seq c crc : drop 20 (encodeRaw typ seq c crc) = c.
Proof.
  unfold encodeRaw. set (h := mkHeader _ _ _ _ _ _).
  pose proof (len_putHeader (replicate 20 0) h eq_refl) as L. unfold len in L.
  replace 20%nat with (length (putHeader (replicate 20 0) h)) at 1 by lia.
  apply drop_app_length.
Qed.

Lemma ParseHeader_encodeRaw typ seq c crc :
  is_byte typ -> is_u64 seq -> HeaderSize + len c <= MaxFrameLen -> is_crc crc ->
  ParseHeader (encodeRaw typ seq c crc) =
    Ok (mkHeader Magic Version typ seq (len c) crc).
Proof.
  intros Ht Hs Hl Hc. pose proof (Header_of_raw typ seq c crc Ht Hs Hl Hc) as (Hok & Hv & HL).
  cbn in HL. rewrite HL in *. unfold encodeRaw. rewrite HL. by apply ParseHeader_put.
Qed.

Lemma Decode_encodeRaw typ seq c crc :
  is_byte typ -> is_u64 seq -> HeaderSize + len c <= MaxFrameLen -> is_crc crc ->
  Decode (encodeRaw typ seq c crc) =
    if ChecksumIEEE c =? crc then Ok (mkFrame Version typ seq crc c) else Err (ErrBadCRC seq).
Proof.
  intros Ht Hs Hl Hc. unfold Decode. rewrite len_encodeRaw.
  pose proof (len_nonneg c). destruct (Z.ltb_spec (HeaderSize + len c) HeaderSize); [lia|].
  pose proof (Header_of_raw typ seq c crc Ht Hs Hl Hc) as (Hok & Hv & HL). cbn in HL.
  unfold encodeRaw at 1. rewrite slice_prefix by by apply len_putHeader.
  rewrite <- (app_nil_r (putHeader _ _)), ParseHeader_put by done. cbn [h_Length].
  rewrite HL, Z.eqb_refl. cbn [negb]. change (Z.to_nat HeaderSize) with 20%nat.
  rewrite drop20_encodeRaw. cbn. by destruct (ChecksumIEEE c =? crc).
Qed.

Section EncodeDecode.
Context {C : Codec} {CL : CodecLaws C}.

(** The compressed payload that a frame of type [typ] carries for [p]. *)
Definition carries (typ : Z) (p c : bytes) : Prop :=
  (typ = TypeHeartbeat /\ p = [] /\ c = []) \/
  (typ = TypeData /\ gzip_write p = Some c) \/
  (typ = TypeDataZstd /\ c = zstd_EncodeAll p).

Lemma carries_byte typ p c : carries typ p c -> is_byte typ.
Proof. unfold carries, is_byte. unfold TypeHeartbeat, TypeData, TypeDataZstd. lia. Qed.

Lemma carries_bytes typ p c : is_bytes p -> carries typ p c -> is_bytes c.
Proof.
  intros Hp [(_ & _ & ->)|[(_ & H)|(_ & ->)]]; [constructor| |].
  - by eapply gzip_bytes.
  - by apply zstd_bytes.
Qed.

Lemma Encode_inv typ seq p fb :
  Encode typ seq p = Ok fb ->
  exists c, carries typ p c /\ fb = encodeRaw typ seq c (ChecksumIEEE c) /\
    HeaderSize + len c <= MaxFrameLen /\ len p <= MaxDecompressedLen.
Proof.
  unfold Encode, carries, gzipCompress.
  destruct (Z.eqb_spec typ TypeHeartbeat) as [->|Hh].
  { destruct (Z.eqb_spec (len p) 0) as [E|]; [|done]. intros [= <-].
    apply len_zero_nil in E as ->. exists [].
    repeat split; [by left|plia|plia]. }
  destruct (Z.ltb_spec MaxDecompressedLen (len p)); [done|].
  destruct (Z.eqb_spec typ TypeData) as [->|Hd].
  - destruct (gzip_write p) as [c|]; [|done].
    destruct (Z.ltb_spec MaxFrameLen (HeaderSize + len c)); [done|].
    intros [= <-]. exists c. repeat split; [by right; left|plia|plia].
  - destruct (Z.eqb_spec typ TypeDataZstd) as [->|]; [|done].
    destruct (Z.ltb_spec MaxFrameLen (HeaderSize + len (zstd_EncodeAll p))); [done|].
    intros [= <-]. eexists. repeat split; [by right; right|plia|plia].
Qed.

Lemma ReadAll_limited_all p n : len p < n -> ReadAll_limited (p, true) n = Some p.
Proof. intros H. unfold ReadAll_limited. cbn. destruct (Z.leb_spec n (len p)); [lia|done]. Qed.

Lemma Decompress_carries typ seq v crc p c :
  is_bytes p -> len p <= MaxDecompressedLen -> typ <> TypeHeartbeat -> carries typ p c ->
  Decompress (mkFrame v typ seq crc c) = Ok p.
Proof.
  intros Hp Hl Hh Hc. unfold Decompress, gunzip. cbn [f_Type f_Payload].
  destruct Hc as [(-> & _)|[(-> & Hc)|(-> & ->)]]; [done| |]; cbn.
  - rewrite (gzip_inverse p c Hp Hc), ReadAll_limited_all by lia.
    destruct (Z.ltb_spec MaxDecompressedLen (len p)); [lia|done].
  - rewrite (zstd_inverse p Hp), ReadAll_limited_all by lia.
    destruct (Z.ltb_spec MaxDecompressedLen (len p)); [lia|done].
Qed.

End EncodeDecode.

(** ** Properties *)

Section Properties.
Context {C : Codec} {CL : CodecLaws C}.

(** C20: a frame that [Encode] produces is accepted by [Decode], which returns
    the type and the sequence number it was given; [Decompress] then returns
    the payload unchanged, and the frame respects the 1 MB limit. *)
Theorem Decode_Encode typ seq p fb :
  is_bytes p -> is_u64 seq -> Encode typ seq p = Ok fb ->
  len fb <= MaxFrameLen /\
  exists f, Decode fb = Ok f /\ f_Type f = typ /\ f_Seq f = seq /\
    (typ <> TypeHeartbeat -> Decompress f = Ok p).
Proof.
  intros Hp Hs He. apply Encode_inv in He as (c & Hc & -> & Hl & Hlp).
  split; [by rewrite len_encodeRaw|].
  pose proof (carries_bytes _ _ _ Hp Hc) as Hcb.
  rewrite Decode_encodeRaw by eauto using carries_byte, ChecksumIEEE_range.
  rewrite Z.eqb_refl. eexists. repeat split. intros Hh. by apply Decompress_carries.
Qed.

(** [Encode] succeeds exactly when the type is known and the sizes are
    within the two limits; for a data type, a failure that is not a failure of
    the compressor is [ErrTooLarge], the error the poller shrinks its window on. *)
Theorem Encode_spec typ seq p :
  (is_ok (Encode typ seq p) = true <->
    exists c, carries typ p c /\ HeaderSize + len c <= MaxFrameLen /\
              len p <= MaxDecompressedLen) /\
  (forall e, typ = TypeData \/ typ = TypeDataZstd -> Encode typ seq p = Err e ->
    is_too_large e = true \/ (typ = TypeData /\ gzip_write p = None)) /\
  Encode typ seq p <> Panic.
Proof.
  split; [split|split].
  - destruct (Encode typ seq p) as [fb| |] eqn:E; try done. intros _.
    apply Encode_inv in E as (c & Hc & _ & ? & ?). eauto.
  - intros (c & Hc & Hl & Hp). unfold Encode, gzipCompress.
    destruct Hc as [(-> & -> & ->)|[(-> & Hz)|(-> & ->)]]; cbn -[Z.ltb len]; [done| |];
      (destruct (Z.ltb_spec MaxDecompressedLen (len p)); [lia|]).
    + rewrite Hz. destruct (Z.ltb_spec MaxFrameLen (HeaderSize + len c)); [lia|done].
    + destruct (Z.ltb_spec MaxFrameLen (HeaderSize + len (zstd_EncodeAll p))); [lia|done].
  - intros e Ht. unfold Encode, gzipCompress.
    destruct Ht as [->| ->]; cbn -[Z.ltb len];
      (destruct (Z.ltb MaxDecompressedLen (len p)); [intros [= <-]; by left|]).
    + destruct (gzip_write p) as [c|]; [|by right].
      destruct (Z.ltb MaxFrameLen _); [intros [= <-]; by left|done].
    + destruct (Z.ltb MaxFrameLen _); [intros [= <-]; by left|done].
  - unfold Encode, gzipCompress.
    destruct (typ =? TypeHeartbeat); [by destruct (negb _)|].
    destruct (Z.ltb _ _); [done|]. destruct (typ =? TypeData).
    + destruct (gzip_write p); [by destruct (Z.ltb _ _)|done].
    + destruct (typ =? TypeDataZstd); [by destruct (Z.ltb _ _)|done].
Qed.

End Properties.

Section Decoding.
Context {C : Codec}.

(** [Decode] accepts only the canonical encoding: a byte string it accepts
    is the printed header of the returned fields followed by the payload, with
    the protocol's version, a matching CRC and at most 1 MB. *)
Theorem Decode_canonical fb f :
  is_bytes fb -> Decode fb = Ok f ->
  fb = encodeRaw (f_Type f) (f_Seq f) (f_Payload f) (f_CRC f) /\
  f_CRC f = ChecksumIEEE (f_Payload f) /\ f_Version f = Version /\
  is_byte (f_Type f) /\ is_u64 (f_Seq f) /\ len fb <= MaxFrameLen.
Proof.
  intros Hb. unfold Decode.
  destruct (Z.ltb_spec (len fb) HeaderSize) as [|Hl]; [done|].
  destruct (ParseHeader _) as [h| |] eqn:E; [|done..].
  destruct (Z.eqb_spec (len fb) (HeaderSize + h_Length h)) as [El|]; [|done]. cbn [negb].
  set (pl := drop _ fb). destruct (Z.eqb_spec (ChecksumIEEE pl) (h_CRC h)) as [Ec|]; [|done].
  intros [= <-]. cbn.
  apply ParseHeader_inv in E as (Hok & (Hm & Hv & HL) & E); [|by apply is_bytes_slice].
  rewrite (drop_ge (slice fb 0 HeaderSize)), app_nil_r in E
    by (pose proof (len_slice fb 0 HeaderSize); unfold len, HeaderSize in *; lia).
  assert (fb = slice fb 0 HeaderSize ++ pl) as Hfb.
  { unfold slice, pl, HeaderSize. by rewrite drop_0, take_drop. }
  assert (h_Length h = len pl) as Hpl by (unfold pl; plia).
  destruct Hok as (_ & _ & Ht & Hs & Hlen & _).
  repeat split; try done; try apply Hs; try apply Ht; [|plia].
  rewrite Hfb at 1. rewrite E. unfold encodeRaw.
  rewrite u32_small, <- Hm, <- Hv, <- Hpl by lia. by destruct h.
Qed.

(** C34: altering one byte of the payload of an accepted frame is always
    detected: [Decode] then fails with [ErrBadCRC]. *)
Theorem Decode_detects_byte_error hd pre a b post f :
  len hd = HeaderSize -> is_bytes (hd ++ pre ++ a :: post) -> is_byte b -> a <> b ->
  Decode (hd ++ pre ++ a :: post) = Ok f ->
  Decode (hd ++ pre ++ b :: post) = Err (ErrBadCRC (f_Seq f)).
Proof.
  intros Hhd Hb Hbb Hne. unfold Decode.
  replace (len (hd ++ pre ++ b :: post)) with (len (hd ++ pre ++ a :: post)) by zlia.
  rewrite !slice_prefix by done.
  assert (forall x, drop (Z.to_nat HeaderSize) (hd ++ x) = x) as Hdrop.
  { intros x. replace (Z.to_nat HeaderSize) with (length hd); [apply drop_app_length|].
    unfold len, HeaderSize in *. lia. }
  rewrite !Hdrop.
  case_match; [done|]. destruct (ParseHeader hd) as [h| |]; [|done..].
  case_match; [done|].
  destruct (Z.eqb_spec (ChecksumIEEE (pre ++ a :: post)) (h_CRC h)) as [E|]; [|done].
  intros [= <-]. cbn [negb f_Seq].
  destruct (Z.eqb_spec (ChecksumIEEE (pre ++ b :: post)) (h_CRC h)) as [E'|]; [|done].
  exfalso. rewrite !is_bytes_app in Hb. destruct Hb as (_ & Hpre & Hpost).
  apply Forall_cons in Hpost as [Ha Hpost].
  apply (ChecksumIEEE_one_byte pre post a b); first [done|congruence].
Qed.

(** [Decompress] never returns a silently truncated payload: what it
    returns is the decompressor's whole, cleanly ended stream and is at most
    16 MB. *)
Theorem Decompress_whole f out :
  Decompress f = Ok out ->
  len out <= MaxDecompressedLen /\
  ((f_Type f = TypeData /\ gzip_open (f_Payload f) = Some (out, true)) \/
   (f_Type f = TypeDataZstd /\ zstd_open (f_Payload f) = Some (out, true))).
Proof.
  assert (Hr : forall r o, ReadAll_limited r (MaxDecompressedLen + 1) = Some o ->
    len o <= MaxDecompressedLen -> r = (o, true)).
  { intros [l c] o. unfold ReadAll_limited. cbn.
    destruct (Z.leb_spec (MaxDecompressedLen + 1) (len l)) as [Hl|Hl].
    - intros [= <-]. rewrite len_take. plia.
    - destruct c; [|done]. by intros [= <-]. }
  unfold Decompress, gunzip.
  destruct (Z.eqb_spec (f_Type f) TypeData) as [Et|_];
    [|destruct (Z.eqb_spec (f_Type f) TypeDataZstd) as [Et|]; [|done]].
  - destruct (gzip_open _) as [r|]; [|done].
    destruct (ReadAll_limited r _) as [o|] eqn:E; [|done].
    destruct (Z.ltb_spec MaxDecompressedLen (len o)); [done|]. intros [= <-].
    split; [done|]. left. by rewrite (Hr _ _ E).
  - destruct (zstd_open _) as [r|]; [|done].
    destruct (ReadAll_limited r _) as [o|] eqn:E; [|done].
    destruct (Z.ltb_spec MaxDecompressedLen (len o)); [done|]. intros [= <-].
    split; [done|]. right. by rewrite (Hr _ _ E).
Qed.

End Decoding.

(** ** Witnesses, with the identity codec *)

#[local] Instance id_codec : Codec := {
  gzip_write p := Some p; zstd_EncodeAll p := p;
  gzip_open p := Some (p, true); zstd_open p := Some (p, true) }.

#[local] Instance id_codec_laws : CodecLaws id_codec.
Proof. split; cbn; naive_solver. Qed.

Lemma Decode_Encode_witness :
  len (encodeRaw TypeDataZstd 7 [1; 2; 3] (ChecksumIEEE [1; 2; 3])) <= MaxFrameLen /\
  exists f, Decode (encodeRaw TypeDataZstd 7 [1; 2; 3] (ChecksumIEEE [1; 2; 3])) = Ok f /\
    f_Type f = TypeDataZstd /\ f_Seq f = 7 /\
    (TypeDataZstd <> TypeHeartbeat -> Decompress f = Ok [1; 2; 3]).
Proof.
  apply (Decode_Encode TypeDataZstd 7 [1; 2; 3]).
  - repeat constructor; unfold is_byte; lia.
  - unfold is_u64; lia.
  - reflexivity.
Defined.

(** A compressor that fails, for the error branch. *)
Definition failing_codec : Codec := {|
  gzip_write p := None; zstd_EncodeAll p := p;
  gzip_open p := None; zstd_open p := Some (p, true) |}.

Lemma Encode_spec_witness :
  is_too_large ErrCompress = true \/
  (TypeData = TypeData /\ @gzip_write failing_codec [1] = None).
Proof.
  apply (proj1 (proj2 (@Encode_spec failing_codec TypeData 3 [1]))).
  - left. reflexivity.
  - reflexivity.
Defined.

Lemma Decode_canonical_witness :
  let fb := encodeRaw TypeData 5 [9] (ChecksumIEEE [9]) in
  fb = encodeRaw TypeData 5 [9] (ChecksumIEEE [9]) /\
  ChecksumIEEE [9] = ChecksumIEEE [9] /\ Version = Version /\
  is_byte TypeData /\ is_u64 5 /\ len fb <= MaxFrameLen.
Proof.
  apply (Decode_canonical (encodeRaw TypeData 5 [9] (ChecksumIEEE [9]))
    (mkFrame Version TypeData 5 (ChecksumIEEE [9]) [9])).
  - vm_compute. repeat constructor; discriminate.
  - vm_compute. reflexivity.
Defined.

Lemma Decode_detects_byte_error_witness :
  Decode (take 20 (encodeRaw TypeData 5 [9; 8] (ChecksumIEEE [9; 8])) ++ [9] ++ 7 :: [])
  = Err (ErrBadCRC 5).
Proof.
  apply (Decode_detects_byte_error
    (take 20 (encodeRaw TypeData 5 [9; 8] (ChecksumIEEE [9; 8]))) [9] 8 7 []
    (mkFrame Version TypeData 5 (ChecksumIEEE [9; 8]) [9; 8])).
  - vm_compute. reflexivity.
  - vm_compute. repeat constructor; discriminate.
  - unfold is_byte; lia.
  - discriminate.
  - vm_compute. reflexivity.
Defined.

Lemma Decompress_whole_witness :
  len [1; 2] <= MaxDecompressedLen /\
  ((TypeData = TypeData /\ gzip_open [1; 2] = Some ([1; 2], true)) \/
   (TypeData = TypeDataZstd /\ zstd_open [1; 2] = Some ([1; 2], true))).
Proof.
  apply (Decompress_whole (mkFrame Version TypeData 1 0 [1; 2]) [1; 2]).
  vm_compute. reflexivity.
Defined.
