(* ===== verification/WalDisk.v ===== *)
(** * The write-ahead log's state and its file operations
    ([internal/wal/wal.go] types, [internal/wal/cursor.go], [internal/wal/dlq.go]).

    The directory is modelled by its contents: the segment files by index, the
    checkpoint file and the two kinds of dead-letter files.  Every system call
    takes its result from an oracle, so that each error path of the code is a
    path of the model; a failing [write] may have written a prefix. *)
From S2P Require Import Prelude Protocol.
Local Open Scope Z_scope.
Local Open Scope go_scope.

(** ** Constants *)

Definition DefaultSegmentSize : Z := Z.shiftl 64 20.
Definition DefaultDLQMaxSize : Z := Z.shiftl 1 30.
Definition recordHeadLen : Z := 4.
(** [time.Second], in nanoseconds. *)
Definition checkpointInterval : Z := 1000000000.

Definition BackfillNoneNs : Z := 0.
Definition BackfillAllNs : Z := -1.

(** ** Data *)

Record frameIndex := mkFI {
  fi_seg : Z; fi_offset : Z; fi_length : Z; fi_seq : Z; fi_typ : Z }.

Record FrameData := mkFD { fd_Seq : Z; fd_Bytes : bytes }.

Record checkpoint := mkCP {
  CursorNs : Z; NextSeq : Z; SegStart : Z; AckedBytes : Z; BackfillNs : Z }.
Definition zero_checkpoint : checkpoint := mkCP 0 0 0 0 0.

(** The [checkpoint] file: its JSON text is represented by what
    [loadCheckpoint] reads from it, the decoded record and whether the text
    lacks the key [backfill_ns]. *)
Inductive ckpt_file : Type :=
| CkMissing
| CkUnparsable
| CkFile (cp : checkpoint) (legacy : bool).

(** [w.curFile]: nil, an open handle on the segment [curSeg], or a non-nil
    handle whose [Close] has been called. *)
Inductive handle : Type := HNil | HOpen | HClosed.
#[export] Instance handle_eq_dec : EqDecision handle.
Proof. solve_decision. Defined.

Record WAL := mkWAL {
  w_segSize : Z;
  w_dlqMax : Z;
  w_cp : checkpoint;
  w_index : list frameIndex;
  w_acked : Z;
  w_curSeg : Z;
  w_curFile : handle;
  w_curOffset : Z;
  w_lockFile : bool;          (** [lockFile != nil] *)
  w_lastCp : option Z;        (** the zero [time.Time] is [None] *)
  w_notify : bool;            (** the one-place channel holds a token *)
  w_legacyCheckpoint : bool }.

(** The result the operating system gives to one call. *)
Inductive io : Type := IoOk | IoFail (n : nat).

Record World := mkWorld {
  segs : gmap Z bytes;
  ckpt : ckpt_file;
  dlq_frames : gmap Z bytes;
  dlq_metas : gmap Z bytes;
  flocked : bool;
  faults : list io;
  wal : WAL }.

Inductive werr : Type :=
| ErrMkdir | ErrOpenLock | ErrLocked
| ErrReadCheckpoint | ErrParseCheckpoint | ErrSaveCheckpoint
| ErrReadDir | ErrRemoveSegment (seg : Z) | ErrOpenSegment (seg : Z)
| ErrStatSegment (seg : Z) | ErrCloseSegment (seg : Z)
| ErrCorruptAcked (seg off : Z) | ErrTruncate (seg off : Z)
| ErrOutOfOrder (seq next : Z) | ErrWriteHead | ErrWriteFrame | ErrFsync
| ErrFrameShort (n : Z) | ErrEncode (e : perr)
| ErrEmpty | ErrReadFrame (seq : Z)
| ErrCommitOrder (seq pending : Z)
| ErrCursorRegress (from to : Z)
| ErrDLQUnknown (seq : Z) | ErrDLQOpen | ErrDLQRead | ErrDLQCapacity
| ErrDLQMkdir | ErrDLQWrite
| ErrFuel.

Abbreviation W := (M World werr).

(** ** Field updates *)

Definition set_segs (f : gmap Z bytes -> gmap Z bytes) (s : World) : World :=
  mkWorld (f (segs s)) (ckpt s) (dlq_frames s) (dlq_metas s) (flocked s) (faults s) (wal s).
Definition set_ckpt (c : ckpt_file) (s : World) : World :=
  mkWorld (segs s) c (dlq_frames s) (dlq_metas s) (flocked s) (faults s) (wal s).
Definition set_dlq_frames (f : gmap Z bytes -> gmap Z bytes) (s : World) : World :=
  mkWorld (segs s) (ckpt s) (f (dlq_frames s)) (dlq_metas s) (flocked s) (faults s) (wal s).
Definition set_dlq_metas (f : gmap Z bytes -> gmap Z bytes) (s : World) : World :=
  mkWorld (segs s) (ckpt s) (dlq_frames s) (f (dlq_metas s)) (flocked s) (faults s) (wal s).
Definition set_flocked (b : bool) (s : World) : World :=
  mkWorld (segs s) (ckpt s) (dlq_frames s) (dlq_metas s) b (faults s) (wal s).
Definition set_faults (l : list io) (s : World) : World :=
  mkWorld (segs s) (ckpt s) (dlq_frames s) (dlq_metas s) (flocked s) l (wal s).
Definition set_wal (f : WAL -> WAL) (s : World) : World :=
  mkWorld (segs s) (ckpt s) (dlq_frames s) (dlq_metas s) (flocked s) (faults s) (f (wal s)).

Definition with_cp (cp : checkpoint) (w : WAL) : WAL :=
  mkWAL (w_segSize w) (w_dlqMax w) cp (w_index w) (w_acked w) (w_curSeg w) (w_curFile w)
    (w_curOffset w) (w_lockFile w) (w_lastCp w) (w_notify w) (w_legacyCheckpoint w).
Definition with_index (l : list frameIndex) (a : Z) (w : WAL) : WAL :=
  mkWAL (w_segSize w) (w_dlqMax w) (w_cp w) l a (w_curSeg w) (w_curFile w)
    (w_curOffset w) (w_lockFile w) (w_lastCp w) (w_notify w) (w_legacyCheckpoint w).
Definition with_cur (seg : Z) (h : handle) (off : Z) (w : WAL) : WAL :=
  mkWAL (w_segSize w) (w_dlqMax w) (w_cp w) (w_index w) (w_acked w) seg h off
    (w_lockFile w) (w_lastCp w) (w_notify w) (w_legacyCheckpoint w).
Definition with_lockFile (b : bool) (w : WAL) : WAL :=
  mkWAL (w_segSize w) (w_dlqMax w) (w_cp w) (w_index w) (w_acked w) (w_curSeg w) (w_curFile w)
    (w_curOffset w) b (w_lastCp w) (w_notify w) (w_legacyCheckpoint w).
Definition with_lastCp (t : option Z) (w : WAL) : WAL :=
  mkWAL (w_segSize w) (w_dlqMax w) (w_cp w) (w_index w) (w_acked w) (w_curSeg w) (w_curFile w)
    (w_curOffset w) (w_lockFile w) t (w_notify w) (w_legacyCheckpoint w).
Definition with_notify (b : bool) (w : WAL) : WAL :=
  mkWAL (w_segSize w) (w_dlqMax w) (w_cp w) (w_index w) (w_acked w) (w_curSeg w) (w_curFile w)
    (w_curOffset w) (w_lockFile w) (w_lastCp w) b (w_legacyCheckpoint w).
Definition with_legacy (b : bool) (w : WAL) : WAL :=
  mkWAL (w_segSize w) (w_dlqMax w) (w_cp w) (w_index w) (w_acked w) (w_curSeg w) (w_curFile w)
    (w_curOffset w) (w_lockFile w) (w_lastCp w) (w_notify w) b.

Definition cp_Cursor (ts : Z) (c : checkpoint) : checkpoint :=
  mkCP ts (NextSeq c) (SegStart c) (AckedBytes c) (BackfillNs c).
Definition cp_NextSeq (n : Z) (c : checkpoint) : checkpoint :=
  mkCP (CursorNs c) n (SegStart c) (AckedBytes c) (BackfillNs c).
Definition cp_Ack (seg acked : Z) (c : checkpoint) : checkpoint :=
  mkCP (CursorNs c) (NextSeq c) seg acked (BackfillNs c).
Definition cp_Backfill (b : Z) (c : checkpoint) : checkpoint :=
  mkCP (CursorNs c) (NextSeq c) (SegStart c) (AckedBytes c) b.

(** ** System calls *)

(** The next result of the oracle; when it is exhausted every call succeeds. *)
Definition next_io : W io := fun s =>
  match faults s with
  | [] => (Ok IoOk, s)
  | r :: rest => (Ok r, set_faults rest s)
  end.

(** A call with no effect on the modelled files but its success. *)
Definition sys (e : werr) : W unit :=
  r <- next_io ;;
  match r with IoOk => ret tt | IoFail _ => fail e end.

(** [w.curFile.Write(b)] on an [O_APPEND] file: a failing call may leave any
    prefix of [b] in the file.  A nil or closed handle fails at once. *)
Definition write_cur (b : bytes) (e : werr) : W unit :=
  w <- gets wal ;;
  match w_curFile w with
  | HOpen =>
      r <- next_io ;;
      match r with
      | IoOk => modify (set_segs (alter (fun c => c ++ b) (w_curSeg w)))
      | IoFail n =>
          modify (set_segs (alter (fun c => c ++ take n b) (w_curSeg w))) ;;; fail e
      end
  | _ => fail e
  end.

(** [w.curFile.Sync()]. *)
Definition sync_cur (e : werr) : W unit :=
  w <- gets wal ;;
  match w_curFile w with HOpen => sys e | _ => fail e end.

(** [w.curFile.Close()] on a non-nil handle: the handle is closed even when the
    call reports an error, and closing it again is an error. *)
Definition close_cur (e : werr) : W unit :=
  w <- gets wal ;;
  match w_curFile w with
  | HOpen =>
      modify (set_wal (with_cur (w_curSeg w) HClosed (w_curOffset w))) ;;; sys e
  | _ => fail e
  end.

(** [os.OpenFile(segPath, O_RDWR|O_APPEND|O_CREATE)] followed by [Stat]:
    returns the size. *)
Definition open_append (seg : Z) (eo es : werr) : W Z :=
  sys eo ;;;
  modify (set_segs (fun m => match m !! seg with Some _ => m | None => <[seg := []]> m end)) ;;;
  sys es ;;;
  m <- gets segs ;;
  ret (match m !! seg with Some c => len c | None => 0 end).

(** [os.Remove(segPath)], where a missing file is not an error for the caller. *)
Definition remove_seg (seg : Z) (e : werr) : W unit :=
  sys e ;;; modify (set_segs (delete seg)).

(** [ReadAt(buf, off)] with [len(buf) = n] on file contents [c]. *)
Definition pread (c : bytes) (off n : Z) : option bytes :=
  if off + n <=? len c then Some (slice c off (off + n)) else None.

(** ** The checkpoint file (cursor.go) *)

Definition syncDir : W unit := sys ErrSaveCheckpoint ;;; sys ErrSaveCheckpoint.

(** tmp file: open, write, fsync, close; rename; fsync of the directory. *)
Definition saveCheckpoint (cp : checkpoint) : W unit :=
  sys ErrSaveCheckpoint ;;;
  sys ErrSaveCheckpoint ;;;
  sys ErrSaveCheckpoint ;;;
  sys ErrSaveCheckpoint ;;;
  sys ErrSaveCheckpoint ;;;
  modify (set_ckpt (CkFile cp false)) ;;;
  syncDir.

Definition loadCheckpoint : W (checkpoint * bool) :=
  sys ErrReadCheckpoint ;;;
  c <- gets ckpt ;;
  match c with
  | CkMissing => ret (zero_checkpoint, false)
  | CkUnparsable => fail ErrParseCheckpoint
  | CkFile cp legacy => ret (cp, legacy)
  end.

(** ** The dead-letter directory (dlq.go) *)

Definition map_bytes (m : gmap Z bytes) : Z := map_fold (fun _ b n => len b + n) 0 m.

Definition dlqSize (s : World) : Z := map_bytes (dlq_frames s) + map_bytes (dlq_metas s).

(** [os.WriteFile]: the file is opened and truncated, written, and closed; a
    failing write leaves a prefix in it, a failing close the whole. *)
Definition write_file (put : bytes -> World -> World) (b : bytes) (e : werr) : W unit :=
  sys e ;;;
  modify (put []) ;;;
  r <- next_io ;;
  match r with
  | IoOk => modify (put b)
  | IoFail n => modify (put (take n b)) ;;; fail e
  end ;;;
  sys e.

(** [meta] is the formatted text of the [.txt] file. *)
Definition writeDLQ (seq : Z) (frameBytes meta : bytes) : W unit :=
  write_file (fun b => set_dlq_frames (<[seq := b]>)) frameBytes ErrDLQWrite ;;;
  write_file (fun b => set_dlq_metas (<[seq := b]>)) meta ErrDLQWrite.
