(* ===== verification/WalScan.v ===== *)
(** * Recovery scan of one segment: [indexSegment] and [resyncRecord]
    ([internal/wal/wal.go]). *)
From S2P Require Import Prelude Protocol WalDisk.
Local Open Scope Z_scope.

(** ** Definitions *)

(** What [ReadAt] returns in its buffer of [n] bytes: possibly fewer. *)
Definition read_some (c : bytes) (off n : Z) : bytes := slice c off (off + n).

(** One iteration of the loop of [resyncRecord] at [p]: [break], [continue]
    or [return p]. *)
Inductive probe : Type := PBreak | PNext | PFound.

Definition probe_at (f : bytes) (fileSize p : Z) : probe :=
  match pread f p recordHeadLen with
  | None => PBreak
  | Some hd =>
      let length := be_get hd in
      if (length <=? 0) || (MaxFrameLen <? length) then PNext
      else if fileSize <? p + recordHeadLen + length then PNext
      else match pread f (p + recordHeadLen) HeaderSize with
           | None => PBreak
           | Some hb => match ParseHeader hb with
                        | Ok hdr => if length =? HeaderSize + h_Length hdr then PFound else PNext
                        | _ => PNext
                        end
           end
  end.

(** The loop [for p := badOff+1; p+24 <= limit; p++] with [n] iterations left. *)
Fixpoint resync_loop (n : nat) (f : bytes) (fileSize p : Z) : Z :=
  match n with
  | O => -1
  | S n' => match probe_at f fileSize p with
            | PBreak => -1
            | PNext => resync_loop n' f fileSize (p + 1)
            | PFound => p
            end
  end.

Definition resync_limit (fileSize badOff : Z) : Z :=
  let limit := badOff + (MaxFrameLen + recordHeadLen) in
  if fileSize <? limit then fileSize else limit.

Definition resyncRecord (f : bytes) (fileSize badOff : Z) : Z :=
  let limit := resync_limit fileSize badOff in
  resync_loop (Z.to_nat (limit - (recordHeadLen + HeaderSize) - badOff)) f fileSize (badOff + 1).

(** How the scan of a segment ends. *)
Inductive verdict : Type :=
| VEof                  (** the loop reached the end of the file *)
| VTorn (off : Z)       (** the file is truncated at [off] *)
| VRefuse (off : Z)     (** corruption inside the acknowledged prefix *)
| VFuel.

(** [skipCorrupt]: the offset to continue from, or how the scan ends. *)
Definition skipCorrupt (f : bytes) (fileSize skip badOff : Z) : Z + verdict :=
  let next := resyncRecord f fileSize badOff in
  if 0 <=? next then inl next
  else if badOff <? skip then inr (VRefuse badOff)
  else inr (VTorn badOff).

(** The callers that leave the loop whatever [skipCorrupt] answers. *)
Definition stop_corrupt (r : Z + verdict) : verdict :=
  match r with inl _ => VEof | inr v => v end.

(** What one iteration of the scan finds at [off]. *)
Inductive rec_class : Type :=
| RcEnd                             (** nothing left to read *)
| RcTorn                            (** a head or a frame header cut short *)
| RcBad                             (** impossible length or inconsistent header *)
| RcGood (length : Z) (hdr : Header).

Definition classify (f : bytes) (off : Z) : rec_class :=
  let head := read_some f off recordHeadLen in
  if len head <? recordHeadLen then (if 0 <? len head then RcTorn else RcEnd)
  else
    let length := be_get head in
    if (length <=? 0) || (MaxFrameLen <? length) then RcBad
    else match pread f (off + recordHeadLen) HeaderSize with
         | None => RcTorn
         | Some hb => match ParseHeader hb with
                      | Ok hdr => if length =? HeaderSize + h_Length hdr
                                  then RcGood length hdr else RcBad
                      | _ => RcBad
                      end
         end.

Fixpoint index_loop (fuel : nat) (idx : Z) (f : bytes) (skip off : Z)
    (acc : list frameIndex) : list frameIndex * verdict :=
  match fuel with
  | O => (acc, VFuel)
  | S fuel' =>
      match classify f off with
      | RcEnd => (acc, VEof)
      | RcTorn => (acc, stop_corrupt (skipCorrupt f (len f) skip off))
      | RcBad => match skipCorrupt f (len f) skip off with
                 | inl next => index_loop fuel' idx f skip next acc
                 | inr v => (acc, v)
                 end
      | RcGood length hdr =>
          let acc' := if off + recordHeadLen + length <=? skip then acc
                      else acc ++ [mkFI idx off length (h_Seq hdr) (h_Type hdr)] in
          index_loop fuel' idx f skip (off + (recordHeadLen + length)) acc'
      end
  end.

(** Each iteration advances [off], so the file's size bounds them. *)
Definition scan_fuel (f : bytes) : nat := S (S (length f)).

Definition scan_segment (idx : Z) (f : bytes) (skip : Z) : list frameIndex * verdict :=
  index_loop (scan_fuel f) idx f skip 0 [].

(** The layout of a segment: a record per frame. *)
Definition record (fb : bytes) : bytes := be_put 4 (len fb) ++ fb.
Definition layout (fbs : list bytes) : bytes := concat (map record fbs).

(** A frame whose header parses and announces the frame's own length. *)
Definition wf_frame (fb : bytes) : Prop :=
  exists h, ParseHeader fb = Ok h /\ len fb = HeaderSize + h_Length h /\
            0 <= h_Length h.

Definition frame_seq (fb : bytes) : Z := be_get (slice fb 4 12).
Definition frame_typ (fb : bytes) : Z := be_get (slice fb 3 4).

(** The index entries of consecutive records. *)
Fixpoint entries (idx off : Z) (fbs : list bytes) : list frameIndex :=
  match fbs with
  | [] => []
  | fb :: rest => mkFI idx off (len fb) (frame_seq fb) (frame_typ fb) ::
                  entries idx (off + (recordHeadLen + len fb)) rest
  end.

(** ** Reading records *)

Ltac rlia := unfold recordHeadLen in *; plia.

Lemma len_record fb : len (record fb) = 4 + len fb.
Proof. unfold record. rlia. Qed.
#[export] Hint Rewrite len_record : vmsync_len.

Lemma layout_cons fb fbs : layout (fb :: fbs) = record fb ++ layout fbs.
Proof. done. Qed.
Lemma layout_app a b : layout (a ++ b) = layout a ++ layout b.
Proof. unfold layout. by rewrite map_app, concat_app. Qed.

Lemma slice_app_l {A} (a b : list A) i j :
  0 <= i <= j -> j <= len a -> slice (a ++ b) i j = slice a i j.
Proof.
  intros Hi Hj. unfold slice, len in *. rewrite drop_app_le by lia.
  rewrite take_app_le; [done|]. rewrite length_drop. lia.
Qed.

Lemma slice_app_r {A} (a b : list A) i j :
  len a <= i <= j -> slice (a ++ b) i j = slice b (i - len a) (j - len a).
Proof.
  intros Hi. unfold slice, len in *. rewrite drop_app_ge by lia. f_equal; [lia|].
  f_equal. lia.
Qed.

Lemma ParseHeader_prefix a b : HeaderSize <= len a -> ParseHeader (a ++ b) = ParseHeader a.
Proof.
  intros H. unfold ParseHeader, HeaderSize in *.
  rewrite !slice_app_l by lia.
  destruct (Z.ltb_spec (len (a ++ b)) 20); [zlia|].
  destruct (Z.ltb_spec (len a) 20); [lia|done].
Qed.

Lemma wf_frame_header fb : wf_frame fb ->
  exists h, ParseHeader (slice fb 0 HeaderSize) = Ok h /\ len fb = HeaderSize + h_Length h /\
    0 < len fb <= MaxFrameLen /\ h_Seq h = frame_seq fb /\ h_Type h = frame_typ fb /\
    HeaderSize <= len fb.
Proof.
  intros (h & Hp & Hl & H0). exists h.
  assert (HeaderSize <= len fb) as Hfb by lia.
  assert (fb = slice fb 0 HeaderSize ++ drop 20 fb) as Hs.
  { unfold slice, HeaderSize. by rewrite drop_0, take_drop. }
  split. { rewrite <- Hp. rewrite Hs at 2. rewrite ParseHeader_prefix; [done|].
    rewrite len_slice; plia. }
  revert Hp. unfold ParseHeader.
  destruct (Z.ltb_spec (len fb) HeaderSize); [done|].
  repeat (case_match; [done|]). intros [= <-]. cbn in *.
  destruct (Z.ltb_spec MaxFrameLen (HeaderSize + be_get (slice fb 12 16))); [done|].
  unfold frame_seq, frame_typ. repeat split; plia.
Qed.

(** The first record of a suffix is read back. *)
Lemma classify_record pre fb rest : wf_frame fb ->
  exists h, classify (pre ++ record fb ++ rest) (len pre) = RcGood (len fb) h /\
    h_Seq h = frame_seq fb /\ h_Type h = frame_typ fb.
Proof.
  intros Hwf. destruct (wf_frame_header fb Hwf) as (h & Hp & Hl & Hb & Hs & Ht & Hf).
  exists h. split; [|done]. unfold classify, read_some.
  rewrite (slice_eq _ pre (be_put 4 (len fb)) (fb ++ rest))
    by first [done | rlia | unfold record; by rewrite <- app_assoc].
  destruct (Z.ltb_spec (len (be_put 4 (len fb))) recordHeadLen); [rlia|].
  rewrite be_get_put, Z.mod_small by (change (256 ^ Z.of_nat 4) with (2 ^ 32); plia).
  destruct (Z.leb_spec (len fb) 0); [lia|].
  destruct (Z.ltb_spec MaxFrameLen (len fb)); [lia|]. cbn [orb].
  unfold pread.
  destruct (Z.leb_spec (len pre + recordHeadLen + HeaderSize)
    (len (pre ++ record fb ++ rest))); [|rlia].
  rewrite slice_app_r by rlia. rewrite slice_app_l by rlia.
  unfold record. rewrite slice_app_r by rlia.
  replace (slice fb _ _) with (slice fb 0 HeaderSize)
    by (f_equal; rlia).
  rewrite Hp. destruct (Z.eqb_spec (len fb) (HeaderSize + h_Length h)); [done|lia].
Qed.

(** The scan over a run of records: those ending at or before [skip] are
    dropped, the others indexed. *)
Definition unacked (skip : Z) (l : list frameIndex) : list frameIndex :=
  filter (fun e => skip < fi_offset e + recordHeadLen + fi_length e) l.

Lemma index_loop_records fbs : forall fuel idx pre tail skip acc,
  Forall wf_frame fbs ->
  index_loop (length fbs + fuel) idx (pre ++ layout fbs ++ tail) skip (len pre) acc =
  index_loop fuel idx (pre ++ layout fbs ++ tail) skip (len pre + len (layout fbs))
    (acc ++ unacked skip (entries idx (len pre) fbs)).
Proof.
  induction fbs as [|fb fbs IH]; intros fuel idx pre tail skip acc Hwf.
  - cbn. by rewrite app_nil_r, Z.add_0_r.
  - apply Forall_cons in Hwf as [Hfb Hwf]. cbn [length Nat.add index_loop].
    rewrite layout_cons, <- !app_assoc.
    destruct (classify_record pre fb (layout fbs ++ tail) Hfb) as (h & -> & Hs & Ht).
    cbn [entries]. rewrite Hs, Ht.
    specialize (IH fuel idx (pre ++ record fb) tail skip).
    rewrite <- !app_assoc, len_app, len_record in IH. rewrite IH by done.
    f_equal; [rlia|]. unfold unacked. rewrite filter_cons. cbn [fi_offset fi_length].
    destruct (Z.leb_spec (len pre + recordHeadLen + len fb) skip);
      case_decide; try lia; [done|]. by rewrite <- app_assoc.
Qed.

(** ** Resynchronisation *)

Definition is_found (p : probe) : bool := match p with PFound => true | _ => false end.

Lemma resync_loop_spec n f size p :
  let r := resync_loop n f size p in
  r = -1 \/ (p <= r < p + Z.of_nat n /\ probe_at f size r = PFound /\
             forall q, p <= q < r -> probe_at f size q = PNext).
Proof.
  revert p. induction n as [|n IH]; intros p; cbn -[Z.of_nat]; [by left|].
  destruct (probe_at f size p) eqn:E; [by left| |right].
  - destruct (IH (p + 1)) as [H|(Hr & Hf & Hq)]; [by left|right].
    split; [lia|]. split; [done|]. intros q Hq'.
    destruct (decide (q = p)) as [->|]; [done|]. apply Hq. lia.
  - split; [lia|]. split; [done|]. intros. lia.
Qed.

Lemma resync_loop_found n f size p r :
  p <= r < p + Z.of_nat n -> probe_at f size r = PFound ->
  (forall q, p <= q < r -> probe_at f size q = PNext) ->
  resync_loop n f size p = r.
Proof.
  revert p. induction n as [|n IH]; intros p Hr Hf Hq; [lia|]. cbn -[Z.of_nat].
  destruct (decide (p = r)) as [->|]; [by rewrite Hf|].
  rewrite (Hq p) by lia. apply IH; [lia|done|]. intros. apply Hq. lia.
Qed.

Lemma resync_advances f size bad :
  resyncRecord f size bad = -1 \/ bad < resyncRecord f size bad.
Proof.
  unfold resyncRecord. cbn zeta.
  destruct (resync_loop_spec (Z.to_nat (resync_limit size bad - (recordHeadLen + HeaderSize) - bad))
    f size (bad + 1)) as [->|(H & _)]; [by left|right; lia].
Qed.

Lemma skipCorrupt_advances f size skip bad next :
  skipCorrupt f size skip bad = inl next -> bad < next.
Proof.
  unfold skipCorrupt. destruct (resync_advances f size bad) as [->|H]; cbn.
  - by destruct (bad <? skip).
  - destruct (Z.leb_spec 0 (resyncRecord f size bad)); [by intros [= <-]|].
    by destruct (bad <? skip).
Qed.

Lemma skipCorrupt_no_fuel f size skip bad : skipCorrupt f size skip bad <> inr VFuel.
Proof. unfold skipCorrupt. repeat case_match; congruence. Qed.

(** ** Termination *)

Lemma classify_in_range f off : 0 <= off ->
  (forall l h, classify f off = RcGood l h -> 0 < l /\ off < len f) /\
  (classify f off = RcBad -> off < len f).
Proof.
  intros H0. unfold classify, read_some.
  destruct (Z.ltb_spec (len (slice f off (off + recordHeadLen))) recordHeadLen) as [|Hl].
  { by case_match. }
  assert (off < len f).
  { unfold slice, recordHeadLen in Hl. rewrite len_take, len_drop in Hl. lia. }
  set (l0 := be_get _). destruct (Z.leb_spec l0 0); [done|].
  destruct (Z.ltb_spec MaxFrameLen l0); [done|]. cbn [orb].
  destruct (pread _ _ _) as [hb|]; [|done]. destruct (ParseHeader hb) as [h| |]; try done.
  destruct (l0 =? _); [|done]. split; [|done]. by intros l h' [= <- _].
Qed.

Lemma index_loop_fuel fuel idx f skip : forall off acc,
  0 <= off -> len f - off < Z.of_nat fuel -> (0 < fuel)%nat ->
  snd (index_loop fuel idx f skip off acc) <> VFuel.
Proof.
  induction fuel as [|fuel IH]; intros off acc H0 Hm Hf; [lia|]. cbn [index_loop].
  destruct (classify_in_range f off H0) as [HG HB].
  assert (stop_corrupt (skipCorrupt f (len f) skip off) <> VFuel).
  { pose proof (skipCorrupt_no_fuel f (len f) skip off).
    destruct (skipCorrupt _ _ _ _) as [|[]]; cbn; congruence. }
  destruct (classify f off) as [| | |l h] eqn:E; try done.
  - pose proof (skipCorrupt_no_fuel f (len f) skip off).
    destruct (skipCorrupt f (len f) skip off) as [next|v] eqn:Es; [|cbn; congruence].
    apply skipCorrupt_advances in Es. specialize (HB eq_refl). apply IH; lia.
  - destruct (HG l h eq_refl). apply IH; unfold recordHeadLen; lia.
Qed.

(** ** Entries and acknowledged prefixes *)

Lemma entries_app idx a : forall off b,
  entries idx off (a ++ b) = entries idx off a ++ entries idx (off + len (layout a)) b.
Proof.
  induction a as [|fb a IH]; intros off b; cbn [app entries].
  - by rewrite Z.add_0_r.
  - rewrite IH, layout_cons. do 3 f_equal. rlia.
Qed.

Lemma entries_bounds idx fbs : forall off,
  Forall (fun e => off <= fi_offset e /\ 0 <= fi_length e /\
    fi_offset e + recordHeadLen + fi_length e <= off + len (layout fbs)) (entries idx off fbs).
Proof.
  induction fbs as [|fb fbs IH]; intros off; cbn [entries]; constructor.
  - rewrite layout_cons. cbn. rlia.
  - eapply Forall_impl; [apply IH|]. intros e He. rewrite layout_cons. cbn in He. rlia.
Qed.

Lemma unacked_none skip l :
  Forall (fun e => fi_offset e + recordHeadLen + fi_length e <= skip) l -> unacked skip l = [].
Proof.
  unfold unacked. induction 1 as [|e l He _ IH]; [done|].
  rewrite filter_cons. case_decide; [lia|done].
Qed.

Lemma unacked_all skip l :
  Forall (fun e => skip < fi_offset e + recordHeadLen + fi_length e) l -> unacked skip l = l.
Proof.
  unfold unacked. induction 1 as [|e l He _ IH]; [done|].
  rewrite filter_cons. case_decide; [by rewrite IH|lia].
Qed.

Lemma unacked_app skip l k : unacked skip (l ++ k) = unacked skip l ++ unacked skip k.
Proof. apply filter_app. Qed.

Lemma unacked_entries idx a b :
  unacked (len (layout a)) (entries idx 0 (a ++ b)) = entries idx (len (layout a)) b.
Proof.
  rewrite entries_app, Z.add_0_l, unacked_app.
  rewrite (unacked_none _ (entries idx 0 a)), app_nil_l.
  2: { eapply Forall_impl; [apply entries_bounds|]. cbn. lia. }
  apply unacked_all. eapply Forall_impl; [apply entries_bounds|]. cbn. rlia.
Qed.

(** ** Ends of a segment *)

Lemma classify_tail pre tail :
  classify (pre ++ tail) (len pre) =
    if len tail <? recordHeadLen then (if 0 <? len tail then RcTorn else RcEnd)
    else classify (pre ++ tail) (len pre).
Proof.
  destruct (Z.ltb_spec (len tail) recordHeadLen) as [H|H]; [|done].
  unfold classify, read_some. rewrite slice_app_r by rlia.
  assert (slice tail (len pre - len pre) (len pre + recordHeadLen - len pre) = tail) as ->.
  { unfold slice. rewrite Z.sub_diag, Z2Nat.inj_0, drop_0.
    rewrite take_ge; [done|]. unfold len, recordHeadLen in *. lia. }
  destruct (Z.ltb_spec (len tail) recordHeadLen); [done|lia].
Qed.

(** A record cut inside its length field or its frame header reads as torn. *)
Lemma classify_cut pre fb n : wf_frame fb ->
  Z.of_nat n < recordHeadLen + HeaderSize ->
  classify (pre ++ take n (record fb)) (len pre) = match n with O => RcEnd | _ => RcTorn end.
Proof.
  intros Hwf Hn. destruct (wf_frame_header fb Hwf) as (h & _ & _ & Hb & _ & _ & Hf).
  assert (len (take n (record fb)) = Z.of_nat n) as Ln by rlia.
  rewrite classify_tail, Ln.
  destruct (Z.ltb_spec (Z.of_nat n) recordHeadLen) as [H4|H4].
  { destruct n; [done|]. by destruct (Z.ltb_spec 0 (Z.of_nat (S n))); [|lia]. }
  destruct n as [|n']; [rlia|]. set (n := S n') in *.
  unfold classify, read_some.
  assert (take n (record fb) = be_put 4 (len fb) ++ take (n - 4) fb) as Ht.
  { unfold record. rewrite take_app, length_be_put, (take_ge (be_put 4 (len fb))); [done|].
    rewrite length_be_put. unfold recordHeadLen in H4. lia. }
  rewrite (slice_eq _ pre (be_put 4 (len fb)) (take (n - 4) fb))
    by first [by rewrite Ht | done | rlia].
  destruct (Z.ltb_spec (len (be_put 4 (len fb))) recordHeadLen); [rlia|].
  rewrite be_get_put, Z.mod_small by (change (256 ^ Z.of_nat 4) with (2 ^ 32); plia).
  destruct (Z.leb_spec (len fb) 0); [lia|].
  destruct (Z.ltb_spec MaxFrameLen (len fb)); [lia|]. cbn [orb].
  unfold pread. rewrite len_app, Ln.
  destruct (Z.leb_spec (len pre + recordHeadLen + HeaderSize) (len pre + Z.of_nat n)); [lia|done].
Qed.

(** Near the end of the file there is no room for another record. *)
Lemma skipCorrupt_end f skip bad :
  len f < bad + (recordHeadLen + HeaderSize) + 1 -> skip <= bad ->
  skipCorrupt f (len f) skip bad = inr (VTorn bad).
Proof.
  intros Hl Hs. unfold skipCorrupt, resyncRecord, resync_limit. cbn zeta.
  replace (Z.to_nat _) with O; [cbn|].
  - destruct (Z.ltb_spec bad skip); [lia|done].
  - destruct (Z.ltb_spec (len f) (bad + (MaxFrameLen + recordHeadLen))); lia.
Qed.

Lemma layout_length fbs : Forall wf_frame fbs -> (length fbs <= length (layout fbs))%nat.
Proof.
  induction 1 as [|fb fbs Hf _ IH]; [done|]. rewrite layout_cons, length_app. cbn [length].
  pose proof (len_record fb). unfold len in *. lia.
Qed.

Lemma scan_fuel_split a tail : Forall wf_frame a ->
  exists k, scan_fuel (layout a ++ tail) = (length a + S k)%nat /\
            (length tail <= k)%nat.
Proof.
  intros Ha. apply layout_length in Ha as HL. unfold scan_fuel. rewrite length_app.
  exists (S (length (layout a) + length tail) - length a)%nat. lia.
Qed.

(** Scanning a prefix of whole records from the start of the file. *)
Lemma scan_prefix idx a tail skip : Forall wf_frame a ->
  exists k, (length tail <= k)%nat /\
  scan_segment idx (layout a ++ tail) skip =
  index_loop (S k) idx (layout a ++ tail) skip (len (layout a))
    (unacked skip (entries idx 0 a)).
Proof.
  intros Ha. destruct (scan_fuel_split a tail Ha) as (k & Hk & Hl). exists k. split; [done|].
  unfold scan_segment. rewrite Hk.
  apply (index_loop_records a (S k) idx [] tail skip [] Ha).
Qed.

Lemma classify_end f : classify f (len f) = RcEnd.
Proof. pose proof (classify_tail f []) as H. rewrite app_nil_r in H. exact H. Qed.

(** The scan's test and the resynchronisation's test agree on a record that
    fits in the file. *)
Lemma classify_probe f p l h :
  classify f p = RcGood l h -> p + recordHeadLen + l <= len f ->
  probe_at f (len f) p = PFound.
Proof.
  unfold classify, probe_at, read_some. intros Hc Hl.
  destruct (Z.ltb_spec (len (slice f p (p + recordHeadLen))) recordHeadLen); [by case_match|].
  destruct (Z.leb_spec (be_get (slice f p (p + recordHeadLen))) 0) as [|Hpos]; [done|].
  destruct (Z.ltb_spec MaxFrameLen (be_get (slice f p (p + recordHeadLen)))) as [|Hmax]; [done|].
  unfold pread in *. cbn [orb] in Hc.
  destruct (Z.leb_spec (p + recordHeadLen + HeaderSize) (len f)) as [Hh|]; [|done].
  destruct (Z.leb_spec (p + recordHeadLen) (len f)); [|rlia].
  destruct (Z.leb_spec (be_get (slice f p (p + recordHeadLen))) 0); [lia|].
  destruct (Z.ltb_spec MaxFrameLen (be_get (slice f p (p + recordHeadLen)))); [lia|]. cbn [orb].
  destruct (ParseHeader _) as [hd| |]; [|done..].
  destruct (Z.eqb_spec (be_get (slice f p (p + recordHeadLen))) (HeaderSize + h_Length hd)); [|done].
  injection Hc as E _. rewrite E.
  destruct (Z.ltb_spec (len f) (p + recordHeadLen + l)); [lia|done].
Qed.

(** ** Properties *)

(** The scan of any file ends: every iteration advances, whatever the
    bytes, so the fuel chosen from the file's size is never exhausted. *)
Theorem scan_terminates idx f skip : snd (scan_segment idx f skip) <> VFuel.
Proof.
  unfold scan_segment, scan_fuel. apply index_loop_fuel; [lia| |lia]. unfold len. lia.
Qed.

(** Recovery. A segment holding the records of the acknowledged frames [a]
    and of the pending frames [b], followed by a record cut before the end of
    its frame header (or by nothing), is indexed as exactly the frames [b], and
    the file is truncated exactly where the torn record starts. *)
Theorem scan_recovers idx a b fb n :
  Forall wf_frame a -> Forall wf_frame b -> wf_frame fb ->
  Z.of_nat n < recordHeadLen + HeaderSize ->
  scan_segment idx (layout (a ++ b) ++ take n (record fb)) (len (layout a)) =
  (entries idx (len (layout a)) b,
   match n with O => VEof | _ => VTorn (len (layout (a ++ b))) end).
Proof.
  intros Ha Hb Hf Hn. set (tail := take n (record fb)).
  destruct (scan_prefix idx (a ++ b) tail (len (layout a))) as (k & _ & ->).
  { by apply Forall_app. }
  cbn [index_loop]. unfold tail. rewrite classify_cut by done.
  rewrite unacked_entries. destruct n as [|n]; [done|].
  rewrite skipCorrupt_end; [done| |].
  - rewrite layout_app. rlia.
  - rewrite layout_app. rlia.
Qed.

(** A bad record in the middle of a segment costs that record only: when
    its bytes hide no record start and the next record is within the
    resynchronisation limit, every frame before and after it is indexed. *)
Theorem scan_skips_bad_record idx a bad fb b :
  Forall wf_frame a -> wf_frame fb -> Forall wf_frame b ->
  let f := layout a ++ bad ++ layout (fb :: b) in
  classify f (len (layout a)) = RcBad ->
  (forall q, 0 < q < len bad -> probe_at f (len f) (len (layout a) + q) = PNext) ->
  0 < len bad -> len bad + HeaderSize <= MaxFrameLen ->
  scan_segment idx f 0 =
  (entries idx 0 a ++ entries idx (len (layout a) + len bad) (fb :: b), VEof).
Proof.
  intros Ha Hf Hb f Hbad Hq H0 Hlim.
  set (p := len (layout a) + len bad).
  assert (Hff : f = (layout a ++ bad) ++ layout (fb :: b) ++ []) by
    (unfold f; by rewrite app_nil_r, <- app_assoc).
  assert (Hp : p = len (layout a ++ bad)) by (unfold p; rlia).
  destruct (wf_frame_header fb Hf) as (h & Hh & Hl & Hlb & _ & _ & Hmin).
  assert (Hsize : len f = p + recordHeadLen + len fb + len (layout b)) by
    (unfold f, p; rewrite layout_cons; rlia).
  assert (Hfound : probe_at f (len f) p = PFound).
  { destruct (classify_record (layout a ++ bad) fb (layout b) Hf) as (h' & Hc & _ & _).
    rewrite Hp, Hff, layout_cons, app_nil_r. eapply classify_probe; [exact Hc|].
    rlia. }
  assert (Hres : resyncRecord f (len f) (len (layout a)) = p).
  { unfold resyncRecord. apply resync_loop_found; [|done|].
    - unfold resync_limit. destruct (Z.ltb_spec (len f) (len (layout a) + (MaxFrameLen + recordHeadLen)));
        unfold p in *; rlia.
    - intros q Hq'. replace q with (len (layout a) + (q - len (layout a))) by lia.
      apply Hq. unfold p in Hq'. lia. }
  destruct (scan_prefix idx a (bad ++ layout (fb :: b)) 0 Ha) as (k & Hk & Hscan).
  change (layout a ++ bad ++ layout (fb :: b)) with f in Hscan. rewrite Hscan.
  cbn [index_loop]. rewrite Hbad.
  unfold skipCorrupt. rewrite Hres. destruct (Z.leb_spec 0 p); [|unfold p in *; rlia].
  rewrite (unacked_all 0 (entries idx 0 a)).
  2: { eapply Forall_impl; [apply entries_bounds|]. cbn. rlia. }
  assert (Hfb : Forall wf_frame (fb :: b)) by by constructor.
  apply layout_length in Hfb as HL.
  replace k with (length (fb :: b) + S (k - S (length (fb :: b))))%nat.
  2: { rewrite length_app in Hk. cbn [length] in *. unfold len in H0. lia. }
  rewrite Hff, Hp, index_loop_records by done. cbn [index_loop].
  rewrite <- Hp, <- Hff. rewrite (unacked_all 0 (entries idx p _)).
  2: { eapply Forall_impl; [apply entries_bounds|]. cbn. unfold p. rlia. }
  assert (Hend : p + len (layout (fb :: b)) = len f) by (unfold f, p; rlia).
  by rewrite Hend, classify_end.
Qed.

(** The scan looks at the first 24 bytes of a record only. *)
Lemma classify_head pre fb more : wf_frame fb ->
  exists h, classify (pre ++ be_put 4 (len fb) ++ slice fb 0 HeaderSize ++ more) (len pre)
    = RcGood (len fb) h /\ h_Seq h = frame_seq fb /\ h_Type h = frame_typ fb.
Proof.
  intros Hwf. destruct (wf_frame_header fb Hwf) as (h0 & _ & _ & _ & _ & _ & Hf).
  destruct (classify_record pre fb [] Hwf) as (h & Hc & Hh). exists h. split; [|done].
  revert Hc. set (hd := be_put 4 (len fb) ++ slice fb 0 HeaderSize).
  assert (Lh : len hd = recordHeadLen + HeaderSize)
    by (unfold hd; rewrite len_app, len_slice; rlia).
  assert (Hrec : record fb ++ [] = hd ++ drop 20 fb).
  { unfold hd, record, slice, HeaderSize. by rewrite app_nil_r, <- app_assoc, drop_0, take_drop. }
  rewrite (app_assoc (be_put 4 _)). change (be_put 4 (len fb) ++ slice fb 0 HeaderSize) with hd.
  rewrite Hrec. generalize (drop 20 fb) as m. intros m. unfold classify, read_some, pread.
  rewrite !(slice_app_r pre) by rlia. rewrite !(slice_app_l hd) by rlia.
  destruct (_ <? recordHeadLen); [done|]. destruct (_ || _); [done|].
  destruct (Z.leb_spec (len pre + recordHeadLen + HeaderSize) (len (pre ++ hd ++ m))); [|rlia].
  destruct (Z.leb_spec (len pre + recordHeadLen + HeaderSize) (len (pre ++ hd ++ more))); [|rlia].
  done.
Qed.

Lemma classify_past f off : 0 <= off -> len f <= off -> classify f off = RcEnd.
Proof.
  intros H0 H. unfold classify, read_some, slice.
  rewrite drop_ge by (unfold len in H; lia). by rewrite take_nil.
Qed.

(** C35: a defect. A record whose length field and frame header reached the disk
    but whose payload did not is not recognised as torn: it is indexed as a
    pending frame and the file is not truncated, although reading the frame
    back fails. *)
Theorem scan_indexes_torn_payload idx a fb n :
  Forall wf_frame a -> wf_frame fb ->
  recordHeadLen + HeaderSize <= Z.of_nat n < len (record fb) ->
  let f := layout a ++ take n (record fb) in
  scan_segment idx f 0 = (entries idx 0 (a ++ [fb]), VEof) /\
  pread f (len (layout a) + recordHeadLen) (len fb) = None.
Proof.
  intros Ha Hf Hn f.
  assert (Ht : take n (record fb) =
    be_put 4 (len fb) ++ slice fb 0 HeaderSize ++ take (n - 24) (drop 20 fb)).
  { unfold record, slice, HeaderSize. rewrite drop_0, take_app, length_be_put.
    rewrite (take_ge (be_put 4 _)) by (rewrite length_be_put; rlia). f_equal.
    rewrite take_take_drop. f_equal. rlia. }
  assert (Lf : len f = len (layout a) + Z.of_nat n) by (unfold f; rlia).
  split.
  - destruct (scan_prefix idx a (take n (record fb)) 0 Ha) as (k & Hk & Hs).
    change (layout a ++ take n (record fb)) with f in Hs. rewrite Hs.
    cbn [index_loop]. unfold f at 1. rewrite Ht.
    destruct (classify_head (layout a) fb (take (n - 24) (drop 20 fb)) Hf) as (h & -> & Hsq & Hty).
    assert (Lt : len (take n (record fb)) = Z.of_nat n) by rlia. unfold len in Lt.
    destruct k as [|k]; [rlia|]. cbn [index_loop].
    rewrite classify_past by rlia.
    destruct (Z.leb_spec (len (layout a) + recordHeadLen + len fb) 0); [rlia|].
    rewrite entries_app, unacked_all, Z.add_0_l, Hsq, Hty; [done|].
    eapply Forall_impl; [apply entries_bounds|]. cbn. rlia.
  - unfold pread. destruct (Z.leb_spec (len (layout a) + recordHeadLen + len fb) (len f)); [rlia|done].
Qed.

(** ** Frames built by the encoder are well formed *)

Lemma wf_encodeRaw typ seq c crc :
  is_byte typ -> is_u64 seq -> HeaderSize + len c <= MaxFrameLen -> is_crc crc ->
  wf_frame (encodeRaw typ seq c crc) /\
  frame_seq (encodeRaw typ seq c crc) = seq /\ frame_typ (encodeRaw typ seq c crc) = typ.
Proof.
  intros Ht Hs Hl Hc. pose proof (ParseHeader_encodeRaw typ seq c crc Ht Hs Hl Hc) as Hp.
  split.
  - eexists. split; [exact Hp|]. cbn [h_Length]. rewrite len_encodeRaw. split; [done|apply len_nonneg].
  - unfold ParseHeader in Hp. repeat (case_match; [done|]). injection Hp. intros. unfold frame_seq, frame_typ. split; assumption.
Qed.

(** A defect. The resynchronisation limit is 24 bytes short: after a bad
    record whose frame is within 24 bytes of the 1 MB maximum, the scan stops
    before the next record's header would fit under the limit, so it truncates
    the file there and every later frame of the segment is lost. *)
Theorem scan_drops_frames_after_large_bad_record idx a bad fb b :
  Forall wf_frame a ->
  let f := layout a ++ bad ++ layout (fb :: b) in
  classify f (len (layout a)) = RcBad ->
  (forall q, 0 < q < len bad -> probe_at f (len f) (len (layout a) + q) = PNext) ->
  MaxFrameLen < len bad + HeaderSize ->
  scan_segment idx f 0 = (entries idx 0 a, VTorn (len (layout a))).
Proof.
  intros Ha f Hbad Hq Hlim.
  assert (Hres : resyncRecord f (len f) (len (layout a)) = -1).
  { unfold resyncRecord, resync_limit.
    set (lim := if _ <? _ then _ else _).
    assert (lim <= len (layout a) + (MaxFrameLen + recordHeadLen)).
    { unfold lim. destruct (Z.ltb_spec (len f) (len (layout a) + (MaxFrameLen + recordHeadLen))); lia. }
    destruct (resync_loop_spec (Z.to_nat (lim - (recordHeadLen + HeaderSize) - len (layout a)))
      f (len f) (len (layout a) + 1)) as [->|(Hr & Hf & _)]; [done|].
    set (r := resync_loop _ _ _ _) in *.
    replace r with (len (layout a) + (r - len (layout a))) in Hf by lia.
    rewrite Hq in Hf by rlia. done. }
  destruct (scan_prefix idx a (bad ++ layout (fb :: b)) 0 Ha) as (k & Hk & Hscan).
  change (layout a ++ bad ++ layout (fb :: b)) with f in Hscan. rewrite Hscan.
  cbn [index_loop]. rewrite Hbad. unfold skipCorrupt. rewrite Hres. cbn [Z.leb Z.compare].
  destruct (Z.ltb_spec (len (layout a)) 0); [zlia|].
  rewrite unacked_all; [done|].
  eapply Forall_impl; [apply entries_bounds|]. cbn. rlia.
Qed.

(** ** Witnesses *)

Definition frame1 : bytes := encodeRaw TypeData 1 [7] (ChecksumIEEE [7]).
Definition frame2 : bytes := encodeRaw TypeDataZstd 2 [8; 9] (ChecksumIEEE [8; 9]).

Lemma frame1_wf : wf_frame frame1.
Proof. apply wf_encodeRaw; by vm_compute. Qed.
Lemma frame2_wf : wf_frame frame2.
Proof. apply wf_encodeRaw; by vm_compute. Qed.

Lemma scan_recovers_witness :
  scan_segment 3 (layout ([frame1] ++ [frame2]) ++ take 20 (record frame1)) (len (layout [frame1]))
  = (entries 3 25 [frame2], VTorn 51).
Proof.
  apply (scan_recovers 3 [frame1] [frame2] frame1 20).
  - repeat constructor. apply frame1_wf.
  - repeat constructor. apply frame2_wf.
  - apply frame1_wf.
  - reflexivity.
Defined.

Lemma scan_skips_bad_record_witness :
  scan_segment 0 (layout [frame1] ++ replicate 6 0 ++ layout [frame2]) 0
  = (entries 0 0 [frame1] ++ entries 0 31 [frame2], VEof).
Proof.
  apply (scan_skips_bad_record 0 [frame1] (replicate 6 0) frame2 []).
  - repeat constructor. apply frame1_wf.
  - apply frame2_wf.
  - constructor.
  - vm_compute. reflexivity.
  - intros q Hq. change (len (replicate 6 0)) with 6 in Hq.
    assert (q = 1 \/ q = 2 \/ q = 3 \/ q = 4 \/ q = 5) as Hc by lia.
    destruct Hc as [->|[->|[->|[->| ->]]]]; vm_compute; reflexivity.
  - reflexivity.
  - vm_compute. discriminate.
Defined.

Lemma scan_indexes_torn_payload_witness :
  let f := layout [frame1] ++ take 24 (record frame2) in
  scan_segment 0 f 0 = (entries 0 0 [frame1; frame2], VEof) /\
  pread f 29 22 = None.
Proof.
  apply (scan_indexes_torn_payload 0 [frame1] frame2 24).
  - repeat constructor. apply frame1_wf.
  - apply frame2_wf.
  - vm_compute. split; [discriminate|reflexivity].
Defined.

(** A run of zero bytes holds no record. *)
Lemma slice_replicate {A} n (x : A) rest i j :
  0 <= i <= j -> j <= Z.of_nat n ->
  slice (replicate n x ++ rest) i j = replicate (Z.to_nat (j - i)) x.
Proof.
  intros. rewrite slice_app_l by (rewrite ?len_replicate; lia). unfold slice.
  rewrite drop_replicate, take_replicate. f_equal. lia.
Qed.

Lemma zeros_probe n rest q :
  0 <= q -> q + recordHeadLen <= Z.of_nat n ->
  probe_at (replicate n 0 ++ rest) (len (replicate n 0 ++ rest)) q = PNext /\
  classify (replicate n 0 ++ rest) q = RcBad.
Proof.
  intros Hq Hn. unfold probe_at, classify, pread, read_some, recordHeadLen in *.
  destruct (Z.leb_spec (q + 4) (len (replicate n 0 ++ rest))); [|zlia].
  rewrite slice_replicate by lia. replace (Z.to_nat (q + 4 - q)) with 4%nat by lia. done.
Qed.

Lemma scan_drops_frames_after_large_bad_record_witness :
  exists n, Z.of_nat n = 1048560 /\
    scan_segment 0 (layout [] ++ replicate n 0 ++ layout [frame1]) 0 = (entries 0 0 [], VTorn 0).
Proof.
  assert (Hn : exists n, Z.of_nat n = 1048560) by (exists (Z.to_nat 1048560); lia).
  destruct Hn as [n Hn]. exists n. split; [exact Hn|].
  assert (Hz : layout [] ++ replicate n 0 ++ layout [frame1] =
    replicate (n + 3) 0 ++ drop 3 (layout [frame1])).
  { rewrite replicate_add, <- app_assoc. reflexivity. }
  apply (scan_drops_frames_after_large_bad_record 0 [] (replicate n 0) frame1 []).
  - constructor.
  - rewrite Hz. change (len (layout [])) with 0.
    apply zeros_probe; unfold recordHeadLen; lia.
  - rewrite len_replicate. intros q Hq. change (len (layout [])) with 0.
    rewrite Hz, Z.add_0_l. apply zeros_probe; unfold recordHeadLen; lia.
  - rewrite len_replicate. unfold HeaderSize. rewrite MaxFrameLen_val. lia.
Defined.
