(* ===== verification/Wal.v ===== *)
(** * The operations of the write-ahead log ([internal/wal/wal.go]).

    Each method that holds [w.mu] is one definition in the state-and-outcome
    monad of [WalDisk]; [now] is the clock reading of the call (one reading
    per critical section).  The modelled directory holds exactly the files the
    package itself names. *)
From S2P Require Import Prelude Protocol WalDisk WalScan.
Local Open Scope Z_scope.
Local Open Scope go_scope.

(** ** Segment files *)

Definition notifyAppend : W unit := modify (set_wal (with_notify true)).

(** [rotate] opens or creates the file of [curSeg]. *)
Definition rotate : W unit :=
  w <- gets wal ;;
  size <- open_append (w_curSeg w) (ErrOpenSegment (w_curSeg w)) (ErrStatSegment (w_curSeg w)) ;;
  modify (set_wal (fun w => with_cur (w_curSeg w) HOpen size w)).

Definition ensureSpace (need : Z) : W unit :=
  w <- gets wal ;;
  match w_curFile w with
  | HNil => rotate
  | _ =>
      if w_curOffset w + need <=? w_segSize w then ret tt
      else
        close_cur (ErrCloseSegment (w_curSeg w)) ;;;
        modify (set_wal (fun w => with_cur (w_curSeg w + 1) (w_curFile w) (w_curOffset w) w)) ;;;
        rotate
  end.

(** The index entry, the offset and the sequence number advance together once
    a record is written. *)
Definition push_index (typ seq n : Z) (w : WAL) : WAL :=
  with_cp (cp_NextSeq (u64 (seq + 1)) (w_cp w))
    (with_cur (w_curSeg w) (w_curFile w) (w_curOffset w + (recordHeadLen + n))
      (with_index (w_index w ++ [mkFI (w_curSeg w) (w_curOffset w) n seq typ]) (w_acked w) w)).

(** ** Appending *)

Definition appendEncodedLocked (typ seq : Z) (frameBytes : bytes) : W unit :=
  w <- gets wal ;;
  if negb (seq =? NextSeq (w_cp w)) then fail (ErrOutOfOrder seq (NextSeq (w_cp w)))
  else
    ensureSpace (len frameBytes + recordHeadLen) ;;;
    write_cur (be_put 4 (u32 (len frameBytes))) ErrWriteHead ;;;
    write_cur frameBytes ErrWriteFrame ;;;
    sync_cur ErrFsync ;;;
    modify (set_wal (push_index typ seq (len frameBytes))) ;;;
    notifyAppend.

Definition AppendEncoded (typ seq : Z) (frameBytes : bytes) : W unit :=
  appendEncodedLocked typ seq frameBytes.

(** [binary.BigEndian.PutUint64(fb[4:12], seq)]. *)
Definition put_seq (fb : bytes) (seq : Z) : bytes := take 4 fb ++ be_put 8 seq ++ drop 12 fb.

(** The body of [AppendBatch]'s loop for one frame. *)
Definition append_one (typ : Z) (fb : bytes) : W Z :=
  if len fb <? HeaderSize then fail (ErrFrameShort (len fb))
  else
    ensureSpace (len fb + recordHeadLen) ;;;
    w <- gets wal ;;
    let seq := NextSeq (w_cp w) in
    write_cur (be_put 4 (u32 (len fb))) ErrWriteHead ;;;
    write_cur (put_seq fb seq) ErrWriteFrame ;;;
    modify (set_wal (push_index typ seq (len fb))) ;;;
    ret seq.

Fixpoint append_loop (typ : Z) (frameBytes : list bytes) : W (list Z) :=
  match frameBytes with
  | [] => ret []
  | fb :: rest =>
      seq <- append_one typ fb ;;
      seqs <- append_loop typ rest ;;
      ret (seq :: seqs)
  end.

Definition AppendBatch (typ : Z) (frameBytes : list bytes) : W (list Z) :=
  match frameBytes with
  | [] => ret []
  | _ =>
      seqs <- append_loop typ frameBytes ;;
      sync_cur ErrFsync ;;;
      notifyAppend ;;;
      ret seqs
  end.

Definition Append {C : Codec} (typ : Z) (payload : bytes) : W Z :=
  w <- gets wal ;;
  let seq := NextSeq (w_cp w) in
  match Encode typ seq payload with
  | Err e => fail (ErrEncode e)
  | Panic => panic
  | Ok frameBytes => appendEncodedLocked typ seq frameBytes ;;; ret seq
  end.

(** ** Reading pending frames *)

Definition pending (w : WAL) : list frameIndex := drop (Z.to_nat (w_acked w)) (w_index w).

(** One frame of [PeekBatch]: through the current handle, or by path. *)
Definition read_entry (fi : frameIndex) : W FrameData :=
  w <- gets wal ;;
  m <- gets segs ;;
  let e := ErrReadFrame (fi_seq fi) in
  let use_cur := (fi_seg fi =? w_curSeg w) &&
                 match w_curFile w with HNil => false | _ => true end in
  (if use_cur then match w_curFile w with HOpen => sys e | _ => fail e end
   else sys e ;;; sys e) ;;;
  match m !! fi_seg fi with
  | None => fail e
  | Some c => match pread c (fi_offset fi + recordHeadLen) (fi_length fi) with
              | None => fail e
              | Some buf => ret (mkFD (fi_seq fi) buf)
              end
  end.

Fixpoint read_entries (l : list frameIndex) : W (list FrameData) :=
  match l with
  | [] => ret []
  | fi :: rest => fd <- read_entry fi ;; fds <- read_entries rest ;; ret (fd :: fds)
  end.

Definition PeekBatch (n : Z) : W (list FrameData) :=
  w <- gets wal ;;
  if len (w_index w) <=? w_acked w then fail ErrEmpty
  else
    let cnt0 := len (w_index w) - w_acked w in
    let cnt := if (0 <? n) && (n <? cnt0) then n else cnt0 in
    read_entries (take (Z.to_nat cnt) (pending w)).

Definition Peek : W (Z * bytes) :=
  fds <- PeekBatch 1 ;;
  match fds with
  | fd :: _ => ret (fd_Seq fd, fd_Bytes fd)
  | [] => panic
  end.

(** ** Persisting *)

Definition persistLocked (now : Z) : W unit :=
  w <- gets wal ;;
  saveCheckpoint (w_cp w) ;;;
  modify (set_wal (with_lastCp (Some now))).

Definition persistLockedThrottled (now : Z) : W unit :=
  w <- gets wal ;;
  match w_lastCp w with
  | Some t => if now - t <? checkpointInterval then ret tt else persistLocked now
  | None => persistLocked now
  end.

(** ** Committing *)

(** One turn of the loop of [commitLocked]: the oldest segment is removed. *)
Definition drop_segment : W unit :=
  w <- gets wal ;;
  let removed := SegStart (w_cp w) in
  remove_seg removed (ErrRemoveSegment removed) ;;;
  modify (set_wal (fun w =>
    with_cp (cp_Ack (SegStart (w_cp w) + 1) 0 (w_cp w)) (with_index (pending w) 0 w))) ;;;
  if negb (removed =? w_curSeg w) then ret tt
  else
    match w_curFile w with
    | HNil => ret tt
    | _ => close_cur (ErrCloseSegment removed)
    end ;;;
    modify (set_wal (fun w => with_cur (w_curSeg w + 1) HNil 0 w)).

Definition segDone (w : WAL) : bool :=
  match pending w with
  | [] => true
  | fi :: _ => negb (fi_seg fi =? SegStart (w_cp w))
  end.

Fixpoint commit_loop (fuel : nat) (segRemoved : bool) : W bool :=
  match fuel with
  | O => fail ErrFuel
  | S fuel' =>
      w <- gets wal ;;
      if negb (segDone w) then ret segRemoved
      else
        drop_segment ;;;
        w' <- gets wal ;;
        match w_index w' with
        | [] => ret true
        | _ => commit_loop fuel' true
        end
  end.

(** Enough turns to bring [SegStart] to the segment of the next frame. *)
Definition commit_fuel (w : WAL) : nat :=
  match pending w with
  | [] => 2
  | fi :: _ => S (S (Z.to_nat (fi_seg fi - SegStart (w_cp w))))
  end.

Definition commitLocked (now seq : Z) : W unit :=
  w <- gets wal ;;
  match pending w with
  | [] => panic     (** the error message itself indexes [w.index[w.acked]] *)
  | cur :: _ =>
      if negb (fi_seq cur =? seq) then fail (ErrCommitOrder seq (fi_seq cur))
      else
        modify (set_wal (fun w =>
          with_cp (cp_Ack (SegStart (w_cp w)) (fi_offset cur + (recordHeadLen + fi_length cur)) (w_cp w))
            (with_index (w_index w) (w_acked w + 1) w))) ;;;
        w1 <- gets wal ;;
        segRemoved <- commit_loop (commit_fuel w1) false ;;
        if segRemoved then persistLocked now else persistLockedThrottled now
  end.

Definition Commit (now seq : Z) : W unit := commitLocked now seq.

(** ** Cursor and backfill policy *)

Definition SetCursor (now ts : Z) : W unit :=
  w <- gets wal ;;
  if ts <? CursorNs (w_cp w) then fail (ErrCursorRegress (CursorNs (w_cp w)) ts)
  else
    modify (set_wal (fun w => with_cp (cp_Cursor ts (w_cp w)) w)) ;;;
    persistLocked now.

Definition ApplyBackfillPolicy (now policyNs boundaryNs : Z) : W bool :=
  w <- gets wal ;;
  if w_legacyCheckpoint w then
    modify (set_wal (fun w =>
      with_legacy false (with_cp (cp_Backfill policyNs (w_cp w)) w))) ;;;
    persistLocked now ;;; ret false
  else if BackfillNs (w_cp w) =? policyNs then ret false
  else
    let rewound := negb (policyNs =? BackfillNoneNs) && (0 <? boundaryNs)
                   && (boundaryNs <? CursorNs (w_cp w)) in
    (if rewound then modify (set_wal (fun w => with_cp (cp_Cursor boundaryNs (w_cp w)) w))
     else ret tt) ;;;
    modify (set_wal (fun w => with_cp (cp_Backfill policyNs (w_cp w)) w)) ;;;
    persistLocked now ;;; ret rewound.

(** ** Observers *)

Definition Cursor (s : World) : Z := CursorNs (w_cp (wal s)).
Definition BackfillPolicyNs (s : World) : Z := BackfillNs (w_cp (wal s)).
Definition NextSeq_ (s : World) : Z := NextSeq (w_cp (wal s)).
Definition PendingCount (s : World) : Z := len (w_index (wal s)) - w_acked (wal s).
Definition PendingBytes (s : World) : Z :=
  foldr (fun fi n => recordHeadLen + fi_length fi + n) 0 (pending (wal s)).

(** ** Dead letters *)

Definition MoveToDLQ (now seq : Z) (meta : bytes) : W unit :=
  w <- gets wal ;;
  match pending w with
  | [] => fail (ErrDLQUnknown seq)
  | fi :: _ =>
      if negb (fi_seq fi =? seq) then fail (ErrDLQUnknown seq)
      else
        sys ErrDLQOpen ;;;
        m <- gets segs ;;
        match m !! fi_seg fi with
        | None => fail ErrDLQOpen
        | Some c =>
            sys ErrDLQRead ;;;
            match pread c (fi_offset fi + recordHeadLen) (fi_length fi) with
            | None => fail ErrDLQRead
            | Some frameBytes =>
                used <- gets dlqSize ;;
                if w_dlqMax w <? used then fail ErrDLQCapacity
                else
                  sys ErrDLQMkdir ;;;
                  writeDLQ seq frameBytes meta ;;;
                  commitLocked now seq
            end
        end
  end.

(** ** Closing *)

Definition Close (now : Z) : W unit :=
  w <- gets wal ;;
  err <- attempt (match w_curFile w with
                  | HNil => ret tt
                  | _ => close_cur (ErrCloseSegment (w_curSeg w))
                  end) ;;
  modify (set_wal (fun w => with_cur (w_curSeg w) HNil (w_curOffset w) w)) ;;;
  perr <- attempt (persistLocked now) ;;
  modify (fun s => if w_lockFile (wal s)
                   then set_flocked false (set_wal (with_lockFile false) s) else s) ;;;
  match err, perr with
  | Err e, _ => fail e
  | _, Err e => fail e
  | _, _ => ret tt
  end.
