(* ===== verification/WalQueue.v ===== *)
(** * The log as a queue: the abstract specification of [Wal] and the proof that
    the operations implement it, under every sequence of system-call failures. *)
From S2P Require Import Prelude Protocol WalDisk WalScan Wal.
Local Open Scope Z_scope.
Local Open Scope go_scope.

(** ** Specification *)

(** A queue of numbered frames and the number of the next one. *)
Record queue := mkQueue { q_frames : list (Z * bytes); q_next : Z }.

(** Frames are numbered consecutively from [n]; the number is written into
    the frame's header. *)
Fixpoint number (n : Z) (fbs : list bytes) : list (Z * bytes) :=
  match fbs with
  | [] => []
  | fb :: rest => (n, put_seq fb n) :: number (n + 1) rest
  end.

Definition q_append (fbs : list bytes) (q : queue) : queue :=
  mkQueue (q_frames q ++ number (q_next q) fbs) (q_next q + len fbs).

Definition q_peek (n : Z) (q : queue) : list (Z * bytes) :=
  if 0 <? n then take (Z.to_nat n) (q_frames q) else q_frames q.

Definition q_commit (q : queue) : queue := mkQueue (tail (q_frames q)) (q_next q).

(** ** The abstraction relation and the invariant *)

(** The bytes an index entry designates. *)
Definition entry_bytes (m : gmap Z bytes) (fi : frameIndex) : option bytes :=
  match m !! fi_seg fi with
  | Some c => pread c (fi_offset fi + recordHeadLen) (fi_length fi)
  | None => None
  end.

Definition holds (m : gmap Z bytes) (fi : frameIndex) (p : Z * bytes) : Prop :=
  fi_seq fi = p.1 /\ entry_bytes m fi = Some p.2.

Definition represents (m : gmap Z bytes) (w : WAL) (q : queue) : Prop :=
  Forall2 (holds m) (pending w) (q_frames q) /\ NextSeq (w_cp w) = q_next q.

Definition fi_ok (lo hi next : Z) (fi : frameIndex) : Prop :=
  lo <= fi_seg fi <= hi /\ 0 <= fi_offset fi /\ 0 <= fi_length fi /\ fi_seq fi < next.

Definition fi_before (a b : frameIndex) : Prop :=
  fi_seg a <= fi_seg b /\ fi_seq a < fi_seq b.

(** The part of the invariant that survives a torn write. *)
Record index_inv (w : WAL) : Prop := {
  inv_acked : 0 <= w_acked w <= len (w_index w);
  inv_segs : SegStart (w_cp w) <= w_curSeg w;
  inv_next : is_u64 (NextSeq (w_cp w));
  inv_pending : Forall (fi_ok (SegStart (w_cp w)) (w_curSeg w) (NextSeq (w_cp w))) (pending w);
  inv_sorted : StronglySorted fi_before (pending w) }.

(** The write position is the end of the open segment. *)
Definition handle_inv (m : gmap Z bytes) (w : WAL) : Prop :=
  w_curFile w = HOpen -> exists c, m !! w_curSeg w = Some c /\ w_curOffset w = len c.

Definition wal_inv (m : gmap Z bytes) (w : WAL) : Prop := index_inv w /\ handle_inv m w.

(** ** Growing files *)

(** Appending to files and creating them keeps what was there. *)
Definition ext (m m' : gmap Z bytes) : Prop :=
  forall i c, m !! i = Some c -> exists x, m' !! i = Some (c ++ x).

#[export] Instance ext_refl : Reflexive ext.
Proof. intros m i c H. exists []. by rewrite app_nil_r. Qed.
#[export] Instance ext_trans : Transitive ext.
Proof.
  intros m1 m2 m3 H12 H23 i c H. destruct (H12 i c H) as [x Hx].
  destruct (H23 i _ Hx) as [y Hy]. exists (x ++ y). by rewrite app_assoc.
Qed.

Lemma ext_alter m i (f : bytes -> bytes) :
  (forall c, exists x, f c = c ++ x) -> ext m (alter f i m).
Proof.
  intros Hf j c H. rewrite lookup_alter. case_decide as E.
  - subst j. rewrite H. destruct (Hf c) as [x Hx]. exists x. cbn. by rewrite Hx.
  - exists []. by rewrite app_nil_r.
Qed.

Lemma ext_create (m : gmap Z bytes) i :
  ext m (match m !! i with Some _ => m | None => <[i := []]> m end).
Proof.
  intros j c H. exists []. rewrite app_nil_r. destruct (m !! i) eqn:E; [done|].
  rewrite lookup_insert_ne; [done|]. congruence.
Qed.

Lemma pread_app c x off n b :
  0 <= off -> 0 <= n -> pread c off n = Some b -> pread (c ++ x) off n = Some b.
Proof.
  unfold pread. intros Ho Hn. destruct (Z.leb_spec (off + n) (len c)); [|done].
  intros [= <-]. destruct (Z.leb_spec (off + n) (len (c ++ x))); [|zlia].
  by rewrite slice_app_l by lia.
Qed.

Lemma entry_bytes_ext m m' lo hi next fi b :
  ext m m' -> fi_ok lo hi next fi -> entry_bytes m fi = Some b -> entry_bytes m' fi = Some b.
Proof.
  unfold entry_bytes, fi_ok. intros He (_ & Ho & Hl & _).
  destruct (m !! fi_seg fi) as [c|] eqn:E; [|done]. destruct (He _ _ E) as [x ->].
  apply pread_app; unfold recordHeadLen; lia.
Qed.

Lemma holds_ext m m' lo hi next l q :
  ext m m' -> Forall (fi_ok lo hi next) l -> Forall2 (holds m) l q -> Forall2 (holds m') l q.
Proof.
  intros He Hok Hh. induction Hh as [|fi p l q [H1 H2] _ IH]; [constructor|].
  apply Forall_cons in Hok as [Hfi Hok]. constructor; [|auto].
  split; [done|]. by eapply entry_bytes_ext.
Qed.

Lemma represents_ext m m' w q :
  ext m m' -> index_inv w -> represents m w q -> represents m' w q.
Proof. intros He Hi [Hh Hn]. split; [|done]. eapply holds_ext; eauto. apply Hi. Qed.

(** ** Symbolic execution of the system calls *)

Lemma set_faults_id s : set_faults (faults s) s = s.
Proof. by destruct s. Qed.

Lemma wp_sys_tail e Q s :
  Q (Ok tt) (set_faults (tail (faults s)) s) ->
  (faults s <> [] -> Q (Err e) (set_faults (tail (faults s)) s)) -> wp (sys e) Q s.
Proof.
  intros Hok Herr. unfold sys, next_io, wp, bind.
  destruct (faults s) as [|[|n] rest] eqn:E; cbn in *; [|done|by apply Herr].
  rewrite <- (set_faults_id s), E. exact Hok.
Qed.

Lemma wp_sys e Q s :
  (forall l, Q (Ok tt) (set_faults l s)) ->
  (forall l, faults s <> [] -> Q (Err e) (set_faults l s)) -> wp (sys e) Q s.
Proof. intros Hok Herr. apply wp_sys_tail; auto. Qed.

Lemma wp_write_cur b e Q s :
  w_curFile (wal s) = HOpen ->
  (forall l, Q (Ok tt) (set_segs (alter (fun c => c ++ b) (w_curSeg (wal s))) (set_faults l s))) ->
  (forall l n, faults s <> [] ->
    Q (Err e) (set_segs (alter (fun c => c ++ take n b) (w_curSeg (wal s))) (set_faults l s))) ->
  wp (write_cur b e) Q s.
Proof.
  intros Ho Hok Herr. unfold write_cur, wp, bind, gets, next_io, modify. rewrite Ho.
  destruct (faults s) as [|[|n] rest] eqn:E; cbn.
  - rewrite <- (set_faults_id s). apply Hok.
  - apply Hok.
  - by apply Herr.
Qed.

Lemma wp_write_not_open b e Q s :
  w_curFile (wal s) <> HOpen -> Q (Err e) s -> wp (write_cur b e) Q s.
Proof. intros Ho HQ. unfold write_cur, wp, bind, gets. destruct (w_curFile (wal s)); done. Qed.

Lemma wp_sync_cur e Q s :
  (forall l, w_curFile (wal s) = HOpen -> Q (Ok tt) (set_faults l s)) ->
  (forall l, w_curFile (wal s) <> HOpen \/ faults s <> [] -> Q (Err e) (set_faults l s)) ->
  wp (sync_cur e) Q s.
Proof.
  intros Hok Herr. unfold sync_cur. wp_steps. destruct (w_curFile (wal s)) eqn:E.
  - apply wp_fail. rewrite <- (set_faults_id s). apply Herr. by left.
  - apply wp_sys; auto.
  - apply wp_fail. rewrite <- (set_faults_id s). apply Herr. by left.
Qed.

(** ** Making room *)

(** What [rotate] and [ensureSpace] leave alone. *)
Definition same_index (w w' : WAL) : Prop :=
  w_cp w' = w_cp w /\ w_index w' = w_index w /\ w_acked w' = w_acked w /\
  w_curSeg w <= w_curSeg w'.

Lemma same_index_pending w w' : same_index w w' -> pending w' = pending w.
Proof. intros (_ & Hi & Ha & _). unfold pending. by rewrite Hi, Ha. Qed.

Lemma fi_ok_mono lo hi next lo' hi' next' fi :
  lo' <= lo -> hi <= hi' -> next <= next' -> fi_ok lo hi next fi -> fi_ok lo' hi' next' fi.
Proof. unfold fi_ok. lia. Qed.

Lemma same_index_inv w w' : same_index w w' -> index_inv w -> index_inv w'.
Proof.
  intros Hs Hi. pose proof (same_index_pending _ _ Hs) as Hp.
  destruct Hs as (Hc & Hx & Ha & Hseg), Hi. split; rewrite ?Hp, ?Hc, ?Hx, ?Ha; try done.
  - lia.
  - eapply Forall_impl; [done|]. intros fi. apply fi_ok_mono; lia.
Qed.

Lemma same_index_represents m w w' q :
  same_index w w' -> represents m w q -> represents m w' q.
Proof.
  intros Hs [Hh Hn]. pose proof (same_index_pending _ _ Hs) as Hp.
  destruct Hs as (Hc & _). split; [by rewrite Hp|by rewrite Hc].
Qed.

(** [s'] differs from [s] by growth of files and moves of the write position. *)
Definition grown (s s' : World) : Prop :=
  ext (segs s) (segs s') /\ same_index (wal s) (wal s').

(** The files of the directory that are not segments. *)
Definition same_files (s s' : World) : Prop :=
  ckpt s' = ckpt s /\ dlq_frames s' = dlq_frames s /\ dlq_metas s' = dlq_metas s.

#[export] Instance same_files_trans : Transitive same_files.
Proof. unfold same_files. intros a b c (? & ? & ?) (? & ? & ?). repeat split; congruence. Qed.

Lemma wp_open_append seg eo es Q s :
  let m' := match segs s !! seg with Some _ => segs s | None => <[seg := []]> (segs s) end in
  (forall l c, m' !! seg = Some c ->
     Q (Ok (len c)) (set_segs (fun _ => m') (set_faults l s))) ->
  (forall l e, Q (Err e) (set_faults l s)) ->
  (forall l e, Q (Err e) (set_segs (fun _ => m') (set_faults l s))) ->
  wp (open_append seg eo es) Q s.
Proof.
  intros m' Hok He1 He2. unfold open_append. wp_step.
  apply wp_sys; [|intros l _; apply He1]. intros l. wp_steps.
  apply wp_sys; [|intros l' _; apply (He2 l')]. intros l'. wp_steps.
  assert (exists c, m' !! seg = Some c) as [c Hc].
  { unfold m'. destruct (segs s !! seg) eqn:E; rewrite ?E, ?lookup_insert_eq; eauto. }
  specialize (Hok l' c Hc).
  change (Q (Ok (match m' !! seg with Some c => len c | None => 0 end))
    (set_segs (fun _ => m') (set_faults l' s))).
  by rewrite Hc.
Qed.

Lemma same_index_refl w : same_index w w.
Proof. unfold same_index. repeat split; lia. Qed.

Lemma rotate_spec s :
  wp rotate (fun o s' => grown s s' /\ same_files s s' /\
    (forall l, o = Ok l -> w_curFile (wal s') = HOpen /\ handle_inv (segs s') (wal s')) /\
    (is_ok o = false -> w_curFile (wal s') = w_curFile (wal s)) /\ o <> Panic) s.
Proof.
  unfold rotate. wp_steps. apply wp_open_append; cbn.
  - intros l c Hc. wp_steps. cbn. repeat split; cbn; try done; try lia.
    + apply ext_create.
    + intros _. by exists c.
  - intros l e. repeat split; cbn; try done; reflexivity || lia.
  - intros l e. repeat split; cbn; try done; try lia. apply ext_create.
Qed.

Lemma ensureSpace_spec need s :
  handle_inv (segs s) (wal s) ->
  wp (ensureSpace need) (fun o s' => grown s s' /\ same_files s s' /\
    handle_inv (segs s') (wal s') /\ o <> Panic) s.
Proof.
  intros Hh. unfold ensureSpace. wp_steps. destruct (w_curFile (wal s)) eqn:E.
  - eapply wp_conseq; [apply rotate_spec|]. cbn. intros o s' (Hg & Hc & Hok & Herr & Hp).
    split; [done|]. split; [done|]. split; [|done].
    destruct o as [[]|e|]; [by apply (Hok tt)| |done].
    intros Hopen. rewrite Herr in Hopen by done. congruence.
  - destruct (_ <=? _).
    { wp_steps. repeat split; try done; reflexivity || lia. }
    unfold close_cur. wp_steps. rewrite E. wp_steps.
    apply wp_sys; intros l; [|intros _; repeat split; try done; cbn; lia].
    wp_steps. eapply wp_conseq; [apply rotate_spec|]. cbn.
    intros o s' ((Hx & Hs1 & Hs2 & Hs3 & Hs4) & Hc & Hok & Herr & Hp). cbn in *.
    split; [repeat split; try done; cbn; lia|]. split; [done|]. split; [|done].
    destruct o as [[]|e|]; [by apply (Hok tt)| |done].
    intros Hopen. by rewrite Herr in Hopen.
  - destruct (_ <=? _).
    { wp_steps. repeat split; try done; reflexivity || lia. }
    unfold close_cur. wp_steps. rewrite E. wp_steps. repeat split; try done; reflexivity || lia.
Qed.

(** ** Appending *)

Lemma len_put_seq fb seq : HeaderSize <= len fb -> len (put_seq fb seq) = len fb.
Proof. intros H. unfold put_seq, HeaderSize in *. zlia. Qed.

Lemma put_seq_slices fb n : HeaderSize <= len fb ->
  slice (put_seq fb n) 0 2 = slice fb 0 2 /\ slice (put_seq fb n) 2 3 = slice fb 2 3 /\
  slice (put_seq fb n) 3 4 = slice fb 3 4 /\ slice (put_seq fb n) 12 16 = slice fb 12 16 /\
  slice (put_seq fb n) 16 20 = slice fb 16 20.
Proof.
  intros Hl. unfold HeaderSize in Hl. unfold put_seq.
  assert (Hlt : len (take 4 fb) = 4) by zlia.
  assert (Hlow : forall i j, 0 <= i <= j -> j <= 4 ->
    slice (take 4 fb ++ be_put 8 n ++ drop 12 fb) i j = slice fb i j).
  { intros i j Hi Hj. rewrite slice_app_l by lia. rewrite <- (take_drop 4 fb) at 2.
    rewrite slice_app_l; [done|done|lia]. }
  assert (Hhigh : forall i j, 12 <= i <= j ->
    slice (take 4 fb ++ be_put 8 n ++ drop 12 fb) i j = slice fb i j).
  { intros i j Hi. rewrite app_assoc. rewrite <- (take_drop 12 fb) at 3.
    rewrite (slice_app_r (take 12 fb)) by zlia. rewrite slice_app_r by zlia.
    f_equal; zlia. }
  split_and!; first [apply Hlow; lia | apply Hhigh; lia].
Qed.

Lemma wf_frame_put_seq fb n : wf_frame fb -> wf_frame (put_seq fb n).
Proof.
  intros Hwf. destruct (wf_frame_header fb Hwf) as (_ & _ & _ & _ & _ & _ & Hmin).
  destruct Hwf as (h & Hp & Hl & H0).
  exists (mkHeader (h_Magic h) (h_Version h) (h_Type h) (be_get (slice (put_seq fb n) 4 12))
    (h_Length h) (h_CRC h)).
  rewrite len_put_seq by done. split; [|done]. revert Hp. unfold ParseHeader.
  rewrite len_put_seq by done. destruct (put_seq_slices fb n Hmin) as (-> & -> & -> & -> & ->).
  destruct (Z.ltb_spec (len fb) HeaderSize); [lia|]. cbn [h_Magic h_Version h_Length].
  repeat (case_match; [done|]). by intros [= <-].
Qed.

Lemma number_valid n fbs : Forall wf_frame fbs -> Forall (fun p => wf_frame p.2) (number n fbs).
Proof.
  intros H. revert n. induction H as [|fb fbs Hfb _ IH]; intros n; cbn; constructor; [|done].
  by apply wf_frame_put_seq.
Qed.

Lemma frame_seq_put_seq fb n : HeaderSize <= len fb -> is_u64 n -> frame_seq (put_seq fb n) = n.
Proof.
  intros Hl Hn. unfold HeaderSize in Hl. unfold frame_seq, put_seq.
  rewrite (slice_eq _ (take 4 fb) (be_put 8 n) (drop 12 fb)) by (done || zlia).
  rewrite be_get_put. by apply Z.mod_small.
Qed.

Lemma pending_push typ seq n w : 0 <= w_acked w <= len (w_index w) ->
  pending (push_index typ seq n w) =
  pending w ++ [mkFI (w_curSeg w) (w_curOffset w) n seq typ].
Proof.
  intros Ha. unfold pending, push_index. cbn. rewrite drop_app_le; [done|].
  unfold len in Ha. lia.
Qed.

Lemma StronglySorted_snoc {A} (R : relation A) l x :
  StronglySorted R l -> Forall (fun y => R y x) l -> StronglySorted R (l ++ [x]).
Proof.
  induction 1 as [|y l Hl IH Hy]; intros Hx; cbn; [by repeat constructor|].
  apply Forall_cons in Hx as [Hyx Hx]. constructor; [by apply IH|].
  apply Forall_app. by repeat constructor.
Qed.

Lemma pread_tail c h frame :
  len h = recordHeadLen ->
  pread (c ++ h ++ frame) (len c + recordHeadLen) (len frame) = Some frame.
Proof.
  intros Hl. unfold pread. destruct (Z.leb_spec (len c + recordHeadLen + len frame)
    (len (c ++ h ++ frame))); [|zlia].
  f_equal. apply (slice_eq _ (c ++ h) frame []);
    [by rewrite app_nil_r, <- app_assoc|zlia|zlia].
Qed.

(** Recording one written frame in the index. *)
Lemma push_index_spec m w q typ frame c :
  index_inv w -> represents m w q -> q_next q + 1 < 2 ^ 64 ->
  m !! w_curSeg w = Some c -> w_curOffset w = len c ->
  let m' := <[w_curSeg w := c ++ be_put 4 (u32 (len frame)) ++ frame]> m in
  let w' := push_index typ (q_next q) (len frame) w in
  wal_inv m' w' /\
  represents m' w' (mkQueue (q_frames q ++ [(q_next q, frame)]) (q_next q + 1)).
Proof.
  intros Hi [Hh Hn] Hb Hc Ho m' w'.
  assert (Hx : ext m m').
  { intros j d Hj. unfold m'. destruct (decide (j = w_curSeg w)) as [->|].
    - rewrite lookup_insert_eq. replace d with c by congruence. eauto.
    - rewrite lookup_insert_ne by done. exists []. by rewrite app_nil_r. }
  pose proof (holds_ext _ _ _ _ _ _ _ Hx (inv_pending _ Hi) Hh) as Hh'.
  pose proof (inv_next _ Hi) as Hu. rewrite Hn in Hu.
  assert (Hu' : u64 (q_next q + 1) = q_next q + 1) by (apply u64_small; unfold is_u64 in *; lia).
  assert (Hp : pending w' = pending w ++ [mkFI (w_curSeg w) (w_curOffset w) (len frame) (q_next q) typ])
    by (apply pending_push, (inv_acked _ Hi)).
  assert (Hold : Forall (fi_ok (SegStart (w_cp w)) (w_curSeg w) (q_next q + 1)) (pending w)).
  { eapply Forall_impl; [apply (inv_pending _ Hi)|]. intros fi. apply fi_ok_mono; lia. }
  assert (Hnew : fi_ok (SegStart (w_cp w)) (w_curSeg w) (q_next q + 1)
    (mkFI (w_curSeg w) (w_curOffset w) (len frame) (q_next q) typ)).
  { pose proof (inv_segs _ Hi). unfold fi_ok; cbn. zlia. }
  split; [split; [split|]|split].
  - pose proof (inv_acked _ Hi). unfold w', push_index; cbn. zlia.
  - apply (inv_segs _ Hi).
  - unfold w', push_index; cbn. rewrite Hu'. unfold is_u64 in *. lia.
  - rewrite Hp. unfold w', push_index; cbn. rewrite Hu'. by apply Forall_app; split; [|apply Forall_singleton].
  - rewrite Hp. apply StronglySorted_snoc; [apply (inv_sorted _ Hi)|].
    eapply Forall_impl; [apply (inv_pending _ Hi)|]. unfold fi_ok, fi_before; cbn. lia.
  - intros _. unfold m', w', push_index; cbn. eexists. rewrite lookup_insert_eq. split; [done|]. rlia.
  - rewrite Hp. cbn [q_frames]. apply Forall2_app; [done|]. constructor; [|constructor].
    split; [done|]. unfold entry_bytes, m'. cbn [fi_seg fi_offset fi_length snd].
    rewrite lookup_insert_eq, Ho. by apply pread_tail.
  - unfold w', push_index; cbn. by rewrite Hu'.
Qed.

(** The two writes of a record, then the index: the rest of an append once
    there is room. *)
Definition write_record (typ seq : Z) (frame : bytes) : W unit :=
  write_cur (be_put 4 (u32 (len frame))) ErrWriteHead ;;;
  write_cur frame ErrWriteFrame ;;;
  modify (set_wal (push_index typ seq (len frame))).

Lemma alter_alter_append (m : gmap Z bytes) i c a b :
  m !! i = Some c ->
  alter (fun x => x ++ b) i (alter (fun x => x ++ a) i m) = <[i := c ++ a ++ b]> m.
Proof.
  intros H. apply map_eq. intros j. destruct (decide (i = j)) as [->|].
  - rewrite !lookup_alter_eq, lookup_insert_eq, H. cbn. by rewrite app_assoc.
  - by rewrite !lookup_alter_ne, lookup_insert_ne.
Qed.

Lemma ext_append m i b : ext m (alter (fun c => c ++ b) i m).
Proof. apply ext_alter. eauto. Qed.

(** What an append leaves alone whatever it does. *)
Definition same_cursor (s s' : World) : Prop :=
  same_files s s' /\ CursorNs (w_cp (wal s')) = CursorNs (w_cp (wal s)).

#[export] Instance same_cursor_trans : Transitive same_cursor.
Proof. intros a b c [? ?] [? ?]. split; [by etrans|congruence]. Qed.

(** What a failed append leaves: a queue, but not the write position. *)
Definition kept (q : queue) (s s' : World) : Prop :=
  index_inv (wal s') /\ represents (segs s') (wal s') q /\ same_cursor s s'.

Lemma kept_from q s0 s s' : same_cursor s0 s -> kept q s s' -> kept q s0 s'.
Proof. intros Hc (Hi & Hr & Hc'). split; [done|]. split; [done|]. by etrans. Qed.

Lemma kept_ext q s s' :
  ext (segs s) (segs s') -> wal s' = wal s -> same_files s s' ->
  index_inv (wal s) -> represents (segs s) (wal s) q -> kept q s s'.
Proof.
  intros Hx Hw Hc Hi Hr. unfold kept, same_cursor. rewrite Hw. eauto using represents_ext.
Qed.

Lemma write_record_spec typ q frame s :
  wal_inv (segs s) (wal s) -> represents (segs s) (wal s) q -> q_next q + 1 < 2 ^ 64 ->
  wp (write_record typ (q_next q) frame) (fun o s' =>
    match o with
    | Ok _ => wal_inv (segs s') (wal s') /\ w_curFile (wal s') = HOpen /\
        represents (segs s') (wal s')
          (mkQueue (q_frames q ++ [(q_next q, frame)]) (q_next q + 1)) /\
        same_cursor s s'
    | Err _ => kept q s s'
    | Panic => False
    end) s.
Proof.
  intros [Hi Hhd] Hr Hb. unfold write_record. wp_step.
  destruct (decide (w_curFile (wal s) = HOpen)) as [Ho|Ho].
  2: { apply wp_write_not_open; [done|]. by apply kept_ext. }
  apply wp_write_cur; [done| |].
  2: { intros l n _. apply kept_ext; try done. apply ext_append. }
  intros l. wp_steps. apply wp_write_cur; [done| |].
  2: { intros l' n _. apply kept_ext; try done. cbn. etrans; apply ext_append. }
  intros l'. wp_steps. cbn. destruct (Hhd Ho) as (c & Hc & Hoff).
  rewrite (alter_alter_append _ _ c) by done.
  pose proof (push_index_spec (segs s) (wal s) q typ frame c Hi Hr Hb Hc Hoff) as [Hinv Hrep].
  done.
Qed.


Lemma grown_same_cursor s s' : grown s s' -> same_files s s' -> same_cursor s s'.
Proof. intros [_ (Hc & _)] Hk. split; [done|by rewrite Hc]. Qed.

Lemma grown_keeps q s s' :
  grown s s' -> index_inv (wal s) -> represents (segs s) (wal s) q ->
  index_inv (wal s') /\ represents (segs s') (wal s') q.
Proof.
  intros [Hx Hs] Hi Hr. split; [by eapply same_index_inv|].
  eapply same_index_represents; [done|]. by eapply represents_ext.
Qed.

Lemma append_one_spec typ fb q s :
  wal_inv (segs s) (wal s) -> represents (segs s) (wal s) q -> q_next q + 1 < 2 ^ 64 ->
  wp (append_one typ fb) (fun o s' =>
    match o with
    | Ok seq => seq = q_next q /\ wal_inv (segs s') (wal s') /\
        represents (segs s') (wal s') (q_append [fb] q) /\ same_cursor s s'
    | Err _ => kept q s s'
    | Panic => False
    end) s.
Proof.
  intros [Hi Hhd] Hr Hb. unfold append_one.
  destruct (Z.ltb_spec (len fb) HeaderSize) as [Hl|Hl].
  { apply wp_fail. by apply kept_ext. }
  wp_step. eapply wp_conseq; [by apply ensureSpace_spec|].
  intros o s1 (Hg & Hck & Hhd1 & Hnp). pose proof (grown_same_cursor _ _ Hg Hck) as Hsc.
  destruct (grown_keeps q _ _ Hg Hi Hr) as [Hi1 Hr1].
  destruct o as [[]|e|]; [|exact (conj Hi1 (conj Hr1 Hsc))|done].
  do 4 wp_step. cbv beta zeta. pose proof (proj2 Hr1) as Hn. rewrite Hn.
  eapply (wp_eq _ (bind (write_record typ (q_next q) (put_seq fb (q_next q))) (fun _ => ret (q_next q)))).
  { unfold write_record. rewrite len_put_seq by done. rewrite bind_assoc.
    unfold bind at 1 4. destruct (write_cur _ _ s1) as [[|?|] ?]; [|done|done].
    by rewrite bind_assoc. }
  wp_step. eapply wp_conseq; [by apply write_record_spec|].
  intros [[]|e|] s2; cbn; [|by apply kept_from|done].
  intros (Hinv & _ & Hrep & Hsc2). split; [done|]. split; [done|]. split; [done|]. by etrans.
Qed.

Lemma number_app n l k : number n (l ++ k) = number n l ++ number (n + len l) k.
Proof.
  revert n. induction l as [|x l IH]; intros n; cbn [number app].
  - by rewrite len_nil, Z.add_0_r.
  - rewrite IH, len_cons. do 3 f_equal. lia.
Qed.

Lemma q_append_app l k q : q_append (l ++ k) q = q_append k (q_append l q).
Proof.
  unfold q_append. cbn. rewrite number_app, app_assoc, len_app. f_equal. lia.
Qed.

Lemma q_append_nil q : q_append [] q = q.
Proof. destruct q. unfold q_append. cbn. by rewrite app_nil_r, Z.add_0_r. Qed.

(** Some prefix of the batch was appended before the failure. *)
Definition kept_prefix (fbs : list bytes) (q : queue) (s s' : World) : Prop :=
  exists k, kept (q_append (take k fbs) q) s s'.

Lemma append_loop_spec typ fbs q s :
  wal_inv (segs s) (wal s) -> represents (segs s) (wal s) q -> q_next q + len fbs < 2 ^ 64 ->
  wp (append_loop typ fbs) (fun o s' =>
    match o with
    | Ok seqs => seqs = map fst (number (q_next q) fbs) /\ wal_inv (segs s') (wal s') /\
        represents (segs s') (wal s') (q_append fbs q) /\ same_cursor s s'
    | Err _ => kept_prefix fbs q s s'
    | Panic => False
    end) s.
Proof.
  revert q s. induction fbs as [|fb fbs IH]; intros q s Hinv Hr Hb.
  { cbn. rewrite q_append_nil. done. }
  rewrite len_cons in Hb. cbn [append_loop]. wp_step.
  eapply wp_conseq; [apply append_one_spec; [done|done|zlia]|].
  intros [seq|e|] s1; cbn [bind_post]; [|by exists 0%nat; rewrite q_append_nil|done].
  intros (-> & Hinv1 & Hr1 & Hsc1). wp_step.
  eapply wp_conseq; [apply IH; [done|done|cbn; zlia]|].
  intros [seqs|e|] s2; cbn [bind_post]; [|intros [k Hk]; exists (S k)|done].
  - intros (-> & Hinv2 & Hr2 & Hsc2). apply wp_ret. rewrite (q_append_app [fb] fbs).
    split; [done|]. split; [done|]. split; [done|]. by etrans.
  - cbn [take]. rewrite (q_append_app [fb] (take k fbs)). by eapply kept_from.
Qed.

(** Nothing stands in the way of the log's calls. *)
Definition calm (s : World) : Prop := faults s = [] /\ w_curFile (wal s) <> HClosed.

Lemma sys_calm e s : faults s = [] -> sys e s = (Ok tt, s).
Proof. intros H. unfold sys, next_io, bind. by rewrite H. Qed.

Lemma rotate_calm s : faults s = [] ->
  exists s', rotate s = (Ok tt, s') /\ faults s' = [] /\ w_curFile (wal s') = HOpen.
Proof.
  intros H. unfold rotate, open_append. unfold bind, gets, modify, ret.
  rewrite sys_calm by done. cbn. rewrite sys_calm by done. by eexists.
Qed.

Lemma ensureSpace_calm need s : calm s ->
  exists s', ensureSpace need s = (Ok tt, s') /\ faults s' = [] /\ w_curFile (wal s') = HOpen.
Proof.
  intros [Hf Hc]. unfold ensureSpace, bind at 1, gets. destruct (w_curFile (wal s)) eqn:E.
  - by apply rotate_calm.
  - destruct (_ <=? _); [by exists s|].
    unfold close_cur, bind, gets, modify. rewrite E. cbn. rewrite sys_calm by done. cbn.
    by apply rotate_calm.
  - done.
Qed.

Lemma write_cur_calm b e s : faults s = [] -> w_curFile (wal s) = HOpen ->
  write_cur b e s = (Ok tt, set_segs (alter (fun c => c ++ b) (w_curSeg (wal s))) s).
Proof. intros Hf Ho. unfold write_cur, next_io, bind, gets. by rewrite Ho, Hf. Qed.

Lemma append_one_calm typ fb s : HeaderSize <= len fb -> calm s ->
  exists seq s', append_one typ fb s = (Ok seq, s') /\ calm s' /\ w_curFile (wal s') = HOpen.
Proof.
  intros Hl Hc. unfold append_one. destruct (Z.ltb_spec (len fb) HeaderSize); [lia|].
  destruct (ensureSpace_calm (len fb + recordHeadLen) s Hc) as (s1 & E1 & Hf1 & Ho1).
  unfold bind at 1. rewrite E1. unfold bind, gets.
  rewrite write_cur_calm by done. cbv beta iota. rewrite write_cur_calm by done.
  do 2 eexists. split; [done|]. split; [|done]. split; [done|]. cbn. congruence.
Qed.

Lemma append_loop_calm typ fbs s :
  Forall (fun fb => HeaderSize <= len fb) fbs -> calm s ->
  exists seqs s', append_loop typ fbs s = (Ok seqs, s') /\ calm s' /\
    (fbs <> [] -> w_curFile (wal s') = HOpen).
Proof.
  intros Hl. revert s. induction Hl as [|fb fbs Hfb _ IH]; intros s Hc; [by exists [], s|].
  cbn [append_loop]. unfold bind at 1. destruct (append_one_calm typ fb s Hfb Hc)
    as (seq & s1 & E1 & Hc1 & Ho1). rewrite E1.
  destruct (IH s1 Hc1) as (seqs & s2 & E2 & Hc2 & Ho2). unfold bind. rewrite E2.
  do 2 eexists. split; [done|]. split; [done|]. intros _.
  destruct fbs; [by injection E2 as <- <-|by apply Ho2].
Qed.

Lemma wal_inv_notify m w b : wal_inv m w -> wal_inv m (with_notify b w).
Proof. intros [[] H2]. split; [constructor|]; done. Qed.
Lemma wal_inv_lastCp m w t : wal_inv m w -> wal_inv m (with_lastCp t w).
Proof. intros [[] H2]. split; [constructor|]; done. Qed.

Lemma kept_full fbs q s s' : kept (q_append fbs q) s s' -> kept_prefix fbs q s s'.
Proof. intros H. exists (length fbs). by rewrite firstn_all. Qed.

Lemma AppendBatch_queue typ fbs q s :
  wal_inv (segs s) (wal s) -> represents (segs s) (wal s) q -> q_next q + len fbs < 2 ^ 64 ->
  wp (AppendBatch typ fbs) (fun o s' =>
    match o with
    | Ok seqs => seqs = map fst (number (q_next q) fbs) /\ wal_inv (segs s') (wal s') /\
        represents (segs s') (wal s') (q_append fbs q) /\ same_cursor s s'
    | Err _ => kept_prefix fbs q s s'
    | Panic => False
    end) s.
Proof.
  intros Hinv Hr Hb. unfold AppendBatch. destruct fbs as [|fb fbs].
  { apply wp_ret. by rewrite q_append_nil. }
  wp_step. eapply wp_conseq; [by apply append_loop_spec|].
  intros [seqs|e|] s1; cbn [bind_post]; [|done|done].
  intros (-> & Hinv1 & Hr1 & Hsc). wp_step. apply wp_sync_cur; intros l Hl.
  - cbn [bind_post]. wp_steps. cbn. split; [done|].
    split; [by apply wal_inv_notify|]. by split.
  - cbn [bind_post]. apply kept_full. split; [apply Hinv1|]. by split.
Qed.

(** C12: whatever calls fail, [AppendBatch] implements [q_append]: on success it
    returns the numbers given to the frames and the log represents the queue
    with exactly those frames, renumbered, at its end, as long as numbers stay below 2^64; on failure it
    represents
    the queue with a prefix of the batch.  The cursor and the checkpoint file
    do not move, and the call never panics. *)
Theorem AppendBatch_refines typ fbs q s :
  wal_inv (segs s) (wal s) -> represents (segs s) (wal s) q -> q_next q + len fbs < 2 ^ 64 ->
  wp (AppendBatch typ fbs) (fun o s' =>
    match o with
    | Ok seqs => seqs = map fst (number (q_next q) fbs) /\ wal_inv (segs s') (wal s') /\
        represents (segs s') (wal s') (q_append fbs q) /\ same_cursor s s'
    | Err _ => kept_prefix fbs q s s'
    | Panic => False
    end) s.
Proof. exact (AppendBatch_queue typ fbs q s). Qed.

Lemma AppendBatch_calm typ fbs s :
  Forall (fun fb => HeaderSize <= len fb) fbs -> calm s ->
  exists seqs s', AppendBatch typ fbs s = (Ok seqs, s') /\ calm s'.
Proof.
  intros Hl Hc. destruct (append_loop_calm typ fbs s Hl Hc) as (seqs & s1 & E & Hc1 & Ho).
  unfold AppendBatch. destruct fbs as [|fb fbs]; [by exists [], s|].
  unfold bind at 1. rewrite E. unfold sync_cur, bind, gets. rewrite Ho by done.
  rewrite sys_calm by apply Hc1. by do 2 eexists.
Qed.

(** When no call fails and the handle has not been closed, every batch of
    frames that have a header is appended. *)
Theorem AppendBatch_available typ fbs s :
  Forall (fun fb => HeaderSize <= len fb) fbs -> calm s ->
  exists seqs s', AppendBatch typ fbs s = (Ok seqs, s') /\ calm s'.
Proof. exact (AppendBatch_calm typ fbs s). Qed.

(** ** Reading *)

(** Reading changes nothing but how much of the oracle is left. *)
Definition unchanged (s s' : World) : Prop := exists n, s' = set_faults (drop n (faults s)) s.

#[export] Instance unchanged_refl : Reflexive unchanged.
Proof. intros s. exists 0%nat. symmetry. apply set_faults_id. Qed.
#[export] Instance unchanged_trans : Transitive unchanged.
Proof. intros s s1 s2 [n ->] [n' ->]. exists (n + n')%nat. cbn. by rewrite drop_drop. Qed.
Lemma unchanged_tail s : unchanged s (set_faults (tail (faults s)) s).
Proof. exists 1%nat. by destruct (faults s). Qed.

(** Why a read may fail. *)
Definition troubled (s : World) : Prop := faults s <> [] \/ w_curFile (wal s) = HClosed.

Lemma troubled_unchanged s s' : unchanged s s' -> troubled s' -> troubled s.
Proof.
  intros [n ->] [H|H]; [|by right]. left. cbn in *. intros E. rewrite E, drop_nil in H. done.
Qed.

Definition as_pair (fd : FrameData) : Z * bytes := (fd_Seq fd, fd_Bytes fd).

(** What reading entries that hold [ps] may do. *)
Definition read_post {A} (good : A -> Prop) (bad : werr -> Prop) (s : World)
    (o : outcome werr A) (s' : World) : Prop :=
  unchanged s s' /\
  match o with
  | Ok a => good a
  | Err e => bad e /\ troubled s
  | Panic => False
  end.

Lemma read_post_from {A} (good : A -> Prop) bad s s1 o s' :
  unchanged s s1 -> read_post good bad s1 o s' -> read_post good bad s o s'.
Proof.
  intros Hu [Hu' H]. split; [by etrans|]. destruct o; [done| |done].
  split; [apply H|]. eapply troubled_unchanged; [done|apply H].
Qed.

Lemma read_entry_spec s fi p :
  holds (segs s) fi p ->
  wp (read_entry fi)
    (read_post (fun fd => as_pair fd = p) (fun e => e = ErrReadFrame (fi_seq fi)) s) s.
Proof.
  intros [Hs Hb]. unfold read_entry. wp_steps.
  set (e := ErrReadFrame (fi_seq fi)). set (Q := read_post _ _ s).
  assert (Hfin : forall s', unchanged s s' -> wp
    match segs s !! fi_seg fi with
    | None => fail e
    | Some c => match pread c (fi_offset fi + recordHeadLen) (fi_length fi) with
                | None => fail e
                | Some buf => ret (mkFD (fi_seq fi) buf)
                end
    end Q s').
  { intros s' Hu. unfold entry_bytes in Hb. destruct (segs s !! fi_seg fi); [|done].
    rewrite Hb. apply wp_ret. split; [done|]. unfold as_pair; cbn. destruct p; cbn in *; congruence. }
  destruct (_ && _) eqn:Ec.
  - destruct (w_curFile (wal s)) eqn:Eh.
    + by rewrite andb_false_r in Ec.
    + apply wp_sys_tail; [|intros Hl]; [apply Hfin, unchanged_tail|].
      split; [apply unchanged_tail|]. split; [done|by left].
    + apply wp_fail. split; [done|]. split; [done|by right].
  - wp_steps. apply wp_sys_tail; [|intros Hl]; wp_steps.
    + apply wp_sys_tail; [apply Hfin|cbn; intros Hl].
      * etrans; apply unchanged_tail.
      * split; [etrans; apply unchanged_tail|]. split; [done|]. left. by destruct (faults s).
    + split; [apply unchanged_tail|]. split; [done|by left].
Qed.

Lemma read_entries_spec s fis ps :
  Forall2 (holds (segs s)) fis ps ->
  wp (read_entries fis)
    (read_post (fun fds => map as_pair fds = ps) (fun e => exists n, e = ErrReadFrame n) s) s.
Proof.
  intros Hh. remember (segs s) as m eqn:Em. revert s Em.
  induction Hh as [|fi p fis ps Hfi _ IH]; intros s ->; cbn [read_entries].
  { apply wp_ret. by split. }
  wp_step. eapply wp_conseq; [by apply read_entry_spec|].
  intros [fd|e|] s1 [Hu H]; [|split; [done|]; split; [|apply H]; destruct H as [-> _]; eauto|done].
  cbn [bind_post]. wp_step. eapply wp_conseq; [apply IH; by destruct Hu as [n ->]|].
  intros o s2 H2. apply (read_post_from _ _ _ _ _ _ Hu) in H2.
  destruct o as [fds|e|]; cbn [bind_post]; [|done|by destruct H2].
  apply wp_ret. destruct H2 as [Hu2 H2]. split; [done|]. cbn. by rewrite H, H2.
Qed.

Lemma PeekBatch_queue n q s :
  index_inv (wal s) -> represents (segs s) (wal s) q ->
  wp (PeekBatch n) (fun o s' => unchanged s s' /\
    match o with
    | Ok fds => q_frames q <> [] /\ map as_pair fds = q_peek n q
    | Err e => (e = ErrEmpty /\ q_frames q = []) \/
        (q_frames q <> [] /\ (exists k, e = ErrReadFrame k) /\ troubled s)
    | Panic => False
    end) s.
Proof.
  intros Hi [Hh Hn]. unfold PeekBatch. wp_steps. pose proof (inv_acked _ Hi) as Ha.
  assert (Hlp : len (pending (wal s)) = len (w_index (wal s)) - w_acked (wal s))
    by (unfold pending; zlia).
  assert (Hlq : len (q_frames q) = len (pending (wal s)))
    by (unfold len; by rewrite (Forall2_length _ _ _ Hh)).
  destruct (Z.leb_spec (len (w_index (wal s))) (w_acked (wal s))).
  { apply wp_fail. split; [done|]. left. split; [done|]. apply len_zero_nil. zlia. }
  assert (Hne : q_frames q <> []) by (intros E; rewrite E, len_nil in Hlq; lia).
  set (cnt := Z.to_nat _).
  assert (Hq : take cnt (q_frames q) = q_peek n q).
  { unfold cnt, q_peek. repeat case_bool; cbn [andb]; try done; try lia;
      rewrite ?take_ge; unfold len in *; done || lia. }
  rewrite <- Hq. eapply wp_conseq; [by apply read_entries_spec, Forall2_take|].
  intros [fds|e|] s' [Hu HQ]; split; try done.
  by right.
Qed.

(** C15: [PeekBatch n] implements [q_peek n]: it returns the first [n] frames
    (all of them for [n <= 0]) with their numbers, byte for byte; it reports
    [ErrEmpty] exactly when the queue is empty; any other error is a read that
    the system refused; and it changes neither the files nor the log. *)
Theorem PeekBatch_refines n q s :
  index_inv (wal s) -> represents (segs s) (wal s) q ->
  wp (PeekBatch n) (fun o s' => unchanged s s' /\
    match o with
    | Ok fds => q_frames q <> [] /\ map as_pair fds = q_peek n q
    | Err e => (e = ErrEmpty /\ q_frames q = []) \/
        (q_frames q <> [] /\ (exists k, e = ErrReadFrame k) /\ troubled s)
    | Panic => False
    end) s.
Proof. exact (PeekBatch_queue n q s). Qed.

(** ** Sample states and witnesses *)

(** A log just opened on an empty directory. *)
Definition fresh : World :=
  mkWorld {[0 := []]} CkMissing ∅ ∅ true []
    (mkWAL DefaultSegmentSize DefaultDLQMaxSize (mkCP 0 1 0 0 0) [] 0 0 HOpen 0 true None false false).

(** The same log after two frames, and the queue it represents. *)
Definition two : World := snd (AppendBatch TypeDataZstd [frame1; frame2] fresh).
Definition two_queue : queue := mkQueue [(1, put_seq frame1 1); (2, put_seq frame2 2)] 3.

Lemma fresh_ok : wal_inv (segs fresh) (wal fresh) /\ represents (segs fresh) (wal fresh) (mkQueue [] 1).
Proof.
  split; [split; [split|]|split]; try (by vm_compute); try constructor.
  intros _. exists []. by vm_compute.
Qed.

Lemma two_ok : wal_inv (segs two) (wal two) /\ represents (segs two) (wal two) two_queue.
Proof.
  split; [split; [split|]|split]; try (by vm_compute).
  - by repeat constructor.
  - by repeat constructor.
  - intros _. by eexists.
  - by repeat constructor.
Qed.

Lemma AppendBatch_refines_witness :
  fst (AppendBatch TypeDataZstd [frame1; frame2] fresh) = Ok [1; 2] /\
  represents (segs two) (wal two) two_queue.
Proof.
  split; [by vm_compute|]. destruct fresh_ok as [Hi Hr].
  pose proof (AppendBatch_refines TypeDataZstd [frame1; frame2] (mkQueue [] 1) fresh Hi Hr
    ltac:(by vm_compute)) as H.
  unfold wp in H. replace (fst _) with (@Ok werr (list Z) [1; 2]) in H by (by vm_compute).
  apply H.
Defined.

Lemma AppendBatch_available_witness :
  exists seqs s', AppendBatch TypeDataZstd [frame1; frame2] fresh = (Ok seqs, s') /\ calm s'.
Proof.
  apply AppendBatch_available; [by repeat constructor|]. split; [reflexivity|discriminate].
Defined.

Lemma PeekBatch_refines_witness :
  wp (PeekBatch 1) (fun o s' => unchanged two s' /\
    match o with
    | Ok fds => q_frames two_queue <> [] /\ map as_pair fds = [(1, put_seq frame1 1)]
    | Err e => (e = ErrEmpty /\ q_frames two_queue = []) \/
        (q_frames two_queue <> [] /\ (exists k, e = ErrReadFrame k) /\ troubled two)
    | Panic => False
    end) two /\ is_ok (fst (PeekBatch 1 two)) = true.
Proof.
  split; [|by vm_compute]. destruct two_ok as [[Hi _] Hr].
  exact (PeekBatch_refines 1 two_queue two Hi Hr).
Defined.
