(* ===== verification/WalCommit.v ===== *)
(** * Committing, moving the cursor and dead-lettering ([internal/wal/wal.go]):
    the operations that shorten the queue or move the checkpoint implement the
    queue's specification under every sequence of system-call failures. *)
From S2P Require Import Prelude Protocol WalDisk WalScan Wal WalQueue.
Local Open Scope Z_scope.
Local Open Scope go_scope.

(** ** Dropping acknowledged segments *)

Lemma holds_delete m i l q :
  Forall (fun fi => fi_seg fi <> i) l -> Forall2 (holds m) l q ->
  Forall2 (holds (delete i m)) l q.
Proof.
  intros Hne Hh. induction Hh as [|fi p l q [H1 H2] _ IH]; [constructor|].
  apply Forall_cons in Hne as [Hfi Hne]. constructor; [|auto]. split; [done|].
  unfold entry_bytes. by rewrite lookup_delete_ne by congruence.
Qed.

(** When the oldest segment is done, every pending frame is in a later one. *)
Lemma segDone_later w :
  index_inv w -> segDone w = true ->
  Forall (fun fi => SegStart (w_cp w) + 1 <= fi_seg fi) (pending w).
Proof.
  intros Hi. unfold segDone. destruct (pending w) as [|fi l] eqn:E; [by constructor|].
  intros Hd. pose proof (inv_pending _ Hi) as Hp. pose proof (inv_sorted _ Hi) as Hs.
  rewrite E in Hp, Hs. apply Forall_cons in Hp as [Hfi _].
  apply StronglySorted_inv in Hs as [_ Hs]. unfold fi_ok in Hfi.
  apply negb_true_iff, Z.eqb_neq in Hd. constructor; [lia|].
  eapply Forall_impl; [exact Hs|]. unfold fi_before. lia.
Qed.

(** Renumbering the index after the oldest segment is gone. *)
Definition dropped (w : WAL) : WAL :=
  with_cp (cp_Ack (SegStart (w_cp w) + 1) 0 (w_cp w)) (with_index (pending w) 0 w).

Lemma dropped_pending w : pending (dropped w) = pending w.
Proof. done. Qed.

Lemma dropped_inv w hi :
  index_inv w -> segDone w = true -> SegStart (w_cp w) + 1 <= hi -> w_curSeg w <= hi ->
  forall h off, index_inv (with_cur hi h off (dropped w)).
Proof.
  intros Hi Hd Hs Hc h off. pose proof (segDone_later w Hi Hd) as Hl. split.
  - cbn. zlia.
  - exact Hs.
  - apply (inv_next _ Hi).
  - apply Forall_forall. intros fi Hin.
    pose proof (proj1 (Forall_forall _ _) Hl fi Hin).
    pose proof (proj1 (Forall_forall _ _) (inv_pending _ Hi) fi Hin) as Hok.
    unfold fi_ok in *; cbn. lia.
  - apply (inv_sorted _ Hi).
Qed.

Lemma dropped_represents m w q :
  index_inv w -> segDone w = true -> represents m w q ->
  forall hi h off, represents (delete (SegStart (w_cp w)) m) (with_cur hi h off (dropped w)) q.
Proof.
  intros Hi Hd [Hh Hn] hi h off. split; [|done]. apply holds_delete; [|exact Hh].
  apply (Forall_impl _ _ _ (segDone_later w Hi Hd)). lia.
Qed.

Lemma with_cur_id w : with_cur (w_curSeg w) (w_curFile w) (w_curOffset w) w = w.
Proof. by destruct w. Qed.

(** What the end of an operation that only shortens the queue guarantees: on an
    error in the middle the log may be left without a usable handle, but then
    nothing is pending. *)
Definition shortened {A} (q : queue) (s : World) (good : WAL -> Prop)
    (o : outcome werr A) (s' : World) : Prop :=
  represents (segs s') (wal s') q /\ handle_inv (segs s') (wal s') /\ same_cursor s s' /\
  match o with
  | Ok _ => index_inv (wal s') /\ good (wal s')
  | Err e => e <> ErrFuel /\ (index_inv (wal s') \/ q_frames q = [])
  | Panic => False
  end.

Lemma represents_nil m w q : represents m w q -> pending w = [] -> q_frames q = [].
Proof. intros [Hh _] E. rewrite E in Hh. by inversion Hh. Qed.

(** [if w.curFile != nil { w.curFile.Close() }]. *)
Lemma wp_close_if e Q s :
  (forall l h, h <> HOpen ->
    Q (Ok tt) (set_wal (with_cur (w_curSeg (wal s)) h (w_curOffset (wal s))) (set_faults l s))) ->
  (forall l h, h <> HOpen ->
    Q (Err e) (set_wal (with_cur (w_curSeg (wal s)) h (w_curOffset (wal s))) (set_faults l s))) ->
  wp (match w_curFile (wal s) with HNil => ret tt | _ => close_cur e end) Q s.
Proof.
  intros Hok Herr. destruct (w_curFile (wal s)) eqn:E.
  - apply wp_ret. specialize (Hok (faults s) HNil ltac:(done)). rewrite set_faults_id in Hok.
    unfold set_wal in Hok. rewrite <- E, with_cur_id in Hok. by destruct s.
  - unfold close_cur. wp_steps. rewrite E. wp_steps. apply wp_sys; intros l; [|intros _].
    + by apply Hok.
    + by apply Herr.
  - unfold close_cur. wp_steps. rewrite E. wp_steps.
    specialize (Herr (faults s) HClosed ltac:(done)). rewrite set_faults_id in Herr.
    unfold set_wal in Herr. rewrite <- E, with_cur_id in Herr. by destruct s.
Qed.

Lemma drop_segment_spec q s :
  wal_inv (segs s) (wal s) -> represents (segs s) (wal s) q -> segDone (wal s) = true ->
  wp drop_segment (shortened q s (fun w' =>
    SegStart (w_cp w') = SegStart (w_cp (wal s)) + 1 /\ pending w' = pending (wal s) /\
    w_index w' = pending (wal s))) s.
Proof.
  intros [Hi Hh] Hr Hd. pose proof (inv_segs _ Hi) as Hsg.
  unfold drop_segment, remove_seg. wp_steps. apply wp_sys; intros l.
  2: { intros _. split; [done|]. split; [done|]. split; [done|]. split; [done|by left]. }
  wp_steps. change (set_wal _ _) with
    (set_segs (delete (SegStart (w_cp (wal s)))) (set_wal dropped (set_faults l s))).
  destruct (Z.eqb_spec (SegStart (w_cp (wal s))) (w_curSeg (wal s))) as [E|E]; cbn [negb].
  - assert (Hp : pending (wal s) = []).
    { pose proof (segDone_later _ Hi Hd) as Hl. pose proof (inv_pending _ Hi) as Hp.
      destruct (pending (wal s)); [done|]. apply Forall_cons in Hl as [Hl _].
      apply Forall_cons in Hp as [(Hp & _) _]. lia. }
    wp_step. change (w_curFile (wal s)) with
      (w_curFile (wal (set_segs (delete (SegStart (w_cp (wal s)))) (set_wal dropped (set_faults l s))))).
    apply wp_close_if; intros l' h Hh'; cbn [bind_post]; wp_steps.
    + split; [by apply (dropped_represents (segs s) (wal s))|].
      split; [done|]. split; [done|]. split; [|done].
      apply (dropped_inv (wal s) (w_curSeg (wal s) + 1)); done || lia.
    + split; [by apply (dropped_represents (segs s) (wal s))|].
      split; [by intros ?|]. split; [done|]. split; [done|]. right. by eapply represents_nil.
  - wp_steps. split; [|split; [|split; [done|split; [|done]]]].
    + pose proof (dropped_represents _ _ _ Hi Hd Hr (w_curSeg (wal s)) (w_curFile (wal s)) (w_curOffset (wal s))).
      done.
    + intros Ho. destruct (Hh Ho) as (c & Hc & Hoff). exists c. cbn. by rewrite lookup_delete_ne.
    + pose proof (dropped_inv (wal s) (w_curSeg (wal s)) Hi Hd) as Hx.
      specialize (Hx ltac:(lia) ltac:(lia) (w_curFile (wal s)) (w_curOffset (wal s))).
      done.
Qed.

(** Turns of the loop that remain. *)
Definition turns (w : WAL) : nat :=
  match pending w with
  | [] => 2
  | fi :: _ => S (Z.to_nat (fi_seg fi - SegStart (w_cp w)))
  end.

Definition head_at_start (w : WAL) : Prop :=
  match pending w with [] => True | fi :: _ => fi_seg fi = SegStart (w_cp w) end.

Lemma shortened_from {A} q s s1 good (o : outcome werr A) s' :
  same_cursor s s1 -> shortened q s1 good o s' -> shortened q s good o s'.
Proof.
  intros Hc (Hr & Hh & Hc' & Ho). split; [done|]. split; [done|]. split; [by etrans|done].
Qed.

Lemma commit_loop_spec fuel b q s :
  wal_inv (segs s) (wal s) -> represents (segs s) (wal s) q -> (turns (wal s) <= fuel)%nat ->
  wp (commit_loop fuel b) (shortened q s head_at_start) s.
Proof.
  revert b s. induction fuel as [|fuel IH]; intros b s [Hi Hh] Hr Hf.
  { unfold turns in Hf. destruct (pending (wal s)); lia. }
  cbn [commit_loop]. wp_steps. destruct (segDone (wal s)) eqn:Hd; cbn [negb].
  2: { apply wp_ret. split; [done|]. split; [done|]. split; [done|]. split; [done|].
       unfold segDone, head_at_start in *. destruct (pending (wal s)); [done|].
       by apply negb_false_iff, Z.eqb_eq in Hd. }
  wp_step. eapply wp_conseq; [by apply drop_segment_spec|].
  intros [[]|e|] s1 (Hr1 & Hh1 & Hc1 & Ho1); cbn [bind_post]; [|done|done].
  destruct Ho1 as (Hi1 & Hs1 & Hp1 & Hx1). wp_steps. rewrite Hx1.
  destruct (pending (wal s)) as [|fi l] eqn:Ep.
  { apply wp_ret. split; [done|]. split; [done|]. split; [done|]. split; [done|].
    unfold head_at_start. by rewrite Hp1. }
  eapply wp_conseq; [apply IH; [done|done|]|].
  - unfold turns in *. rewrite Ep in Hf. rewrite Hp1, Hs1.
    pose proof (segDone_later _ Hi Hd) as Hl. rewrite Ep in Hl.
    apply Forall_cons in Hl as [Hl _]. lia.
  - intros o s2. by apply shortened_from.
Qed.

(** ** Persisting *)

(** What the checkpoint file holds afterwards: what it held, or the record the
    log had in memory. *)
Definition ckpt_step (s s' : World) : Prop :=
  ckpt s' = ckpt s \/ ckpt s' = CkFile (w_cp (wal s')) false.

Definition same_dlq (s s' : World) : Prop :=
  dlq_frames s' = dlq_frames s /\ dlq_metas s' = dlq_metas s.

Definition persist_post (s : World) (o : outcome werr unit) (s' : World) : Prop :=
  segs s' = segs s /\ (exists t, wal s' = with_lastCp t (wal s)) /\ ckpt_step s s' /\
  same_dlq s s' /\
  match o with
  | Ok _ => True
  | Err e => e = ErrSaveCheckpoint
  | Panic => False
  end.

Lemma with_lastCp_id w : with_lastCp (w_lastCp w) w = w.
Proof. by destruct w. Qed.

Lemma persistLocked_spec now s :
  wp (persistLocked now) (fun o s' => persist_post s o s' /\
    (is_ok o = true -> ckpt s' = CkFile (w_cp (wal s')) false)) s.
Proof.
  assert (Hw : exists t, wal s = with_lastCp t (wal s)).
  { eexists. symmetry. apply with_lastCp_id. }
  unfold persistLocked, saveCheckpoint, syncDir.
  repeat first [wp_step; cbv beta zeta | apply wp_sys; intros ?; [|intros _] ].
  all: split; [|done || by cbn].
  all: split; [done|]; split; [by eauto || exact Hw|]; split; [|done].
  all: by (left + right).
Qed.

Lemma persistLockedThrottled_spec now s :
  wp (persistLockedThrottled now) (persist_post s) s.
Proof.
  unfold persistLockedThrottled. wp_steps.
  assert (Hp : wp (persistLocked now) (persist_post s) s).
  { eapply wp_conseq; [apply persistLocked_spec|]. by intros o s' []. }
  assert (Hskip : persist_post s (Ok tt) s).
  { split; [done|]. split; [|split; [by left|done]]. eexists. symmetry. apply with_lastCp_id. }
  destruct (w_lastCp (wal s)); [|done]. by destruct (_ <? _).
Qed.

(** ** Committing *)

(** The log after acknowledging the frame [cur] at the head of the index. *)
Definition acked (cur : frameIndex) (w : WAL) : WAL :=
  with_cp (cp_Ack (SegStart (w_cp w)) (fi_offset cur + (recordHeadLen + fi_length cur)) (w_cp w))
    (with_index (w_index w) (w_acked w + 1) w).

Lemma drop_S_tail {A} n (l : list A) x r : drop n l = x :: r -> drop (S n) l = r.
Proof.
  intros H. replace (S n) with (n + 1)%nat by lia. rewrite <- drop_drop, H. done.
Qed.

Lemma acked_pending cur l w :
  0 <= w_acked w -> pending w = cur :: l -> pending (acked cur w) = l.
Proof.
  intros Ha Hp. unfold pending in *. cbn.
  replace (Z.to_nat (w_acked w + 1)) with (S (Z.to_nat (w_acked w))) by lia.
  by eapply drop_S_tail.
Qed.

Lemma acked_spec m w q cur l :
  wal_inv m w -> represents m w q -> pending w = cur :: l ->
  wal_inv m (acked cur w) /\ represents m (acked cur w) (q_commit q).
Proof.
  intros [Hi Hh] [Hr Hn] Hp. pose proof (inv_acked _ Hi) as Ha.
  pose proof (acked_pending cur l w (proj1 Ha) Hp) as Hp'.
  assert (Hlen : len (pending w) = len (w_index w) - w_acked w) by (unfold pending; zlia).
  rewrite Hp, len_cons in Hlen.
  split; [split; [split|done]|split; [|done]]; rewrite ?Hp'.
  - cbn [w_acked w_index acked with_cp with_index]. zlia.
  - apply (inv_segs _ Hi).
  - apply (inv_next _ Hi).
  - pose proof (inv_pending _ Hi) as H. rewrite Hp in H. by apply Forall_cons in H as [_ H].
  - pose proof (inv_sorted _ Hi) as H. rewrite Hp in H. by apply StronglySorted_inv in H as [H _].
  - rewrite Hp in Hr. unfold q_commit; cbn [q_frames]. by inversion Hr.
Qed.

Lemma commit_fuel_turns w : (turns w <= commit_fuel w)%nat.
Proof. unfold turns, commit_fuel. destruct (pending w); lia. Qed.

(** What committing the head of the queue leaves. *)
Definition committed (q : queue) (s : World) (o : outcome werr unit) (s' : World) : Prop :=
  represents (segs s') (wal s') (q_commit q) /\ handle_inv (segs s') (wal s') /\
  CursorNs (w_cp (wal s')) = CursorNs (w_cp (wal s)) /\ ckpt_step s s' /\ same_dlq s s' /\
  match o with
  | Ok _ => index_inv (wal s') /\ head_at_start (wal s')
  | Err e => e <> ErrFuel /\ (index_inv (wal s') \/ q_frames (q_commit q) = [])
  | Panic => False
  end.

Definition commit_post (seq : Z) (q : queue) (s : World) (o : outcome werr unit) (s' : World) : Prop :=
  match q_frames q with
  | [] => o = Panic /\ s' = s
  | (h, _) :: _ =>
      if h =? seq then committed q s o s'
      else o = Err (ErrCommitOrder seq h) /\ s' = s
  end.

Lemma committed_persist q s s1 o s' :
  shortened (q_commit q) s head_at_start (Ok false) s1 ->
  persist_post s1 o s' -> committed q s o s'.
Proof.
  intros (Hr & Hh & [(Hc1 & Hf & Hm) Hc2] & Hi & Hhead) (Hsg & [t Ht] & Hck & [Hf' Hm'] & Ho).
  pose proof (wal_inv_lastCp _ _ t (conj Hi Hh)) as [Hi' Hh'].
  split; [by rewrite Hsg, Ht|]. split; [by rewrite Hsg, Ht|].
  split; [by rewrite Ht|]. split.
  { destruct Hck as [Hck|Hck]; [left; congruence|by right]. }
  split; [split; congruence|].
  destruct o as [|e|]; [|subst e|done]; rewrite ?Ht; auto.
Qed.

Lemma commitLocked_spec now seq q s :
  wal_inv (segs s) (wal s) -> represents (segs s) (wal s) q ->
  wp (commitLocked now seq) (commit_post seq q s) s.
Proof.
  intros Hinv Hr. unfold commitLocked, commit_post. wp_steps. pose proof (proj1 Hr) as Hh.
  destruct (pending (wal s)) as [|cur l] eqn:Ep; inversion Hh as [|? [h b] ? qs [Hseq _] Hrest Heq]; subst.
  { by cbn. }
  cbn in Hseq. subst h. destruct (Z.eqb_spec (fi_seq cur) seq) as [->|Hne]; cbn [negb]; [|by apply wp_fail].
  destruct (acked_spec _ _ q cur l Hinv Hr Ep) as [Hinv1 Hr1]. wp_steps.
  change (set_wal _ s) with (set_wal (acked cur) s).
  eapply wp_conseq.
  { apply (commit_loop_spec _ _ (q_commit q)); [done|done|apply commit_fuel_turns]. }
  intros [b'|e|] s1 Hsh; cbn [bind_post].
  - destruct b'; (eapply wp_conseq; [apply persistLocked_spec || apply persistLockedThrottled_spec|]).
    + intros o s' [Hp _]. eapply committed_persist; [|done]. exact Hsh.
    + intros o s' Hp. eapply committed_persist; [|done]. exact Hsh.
  - destruct Hsh as (? & ? & [(? & ?) ?] & ?). split; [done|]. split; [done|]. split; [done|].
    split; [by left|]. by split.
  - by destruct Hsh as (? & ? & ? & ?).
Qed.

(** C13: [Commit seq] implements [q_commit] whatever calls fail: the head of the
    queue is removed when [seq] is its number, even if removing a drained
    segment or saving the checkpoint then fails; any other number is refused
    and changes nothing; on an empty queue the call panics.  The segment loop
    always ends, the cursor does not move, and after a success the checkpoint
    record designates the segment of the next frame. *)
Theorem Commit_refines now seq q s :
  wal_inv (segs s) (wal s) -> represents (segs s) (wal s) q ->
  wp (Commit now seq) (commit_post seq q s) s.
Proof. exact (commitLocked_spec now seq q s). Qed.

(** ** The cursor and the backfill policy *)

(** The queue does not depend on the cursor or the policy. *)
Definition same_queue (w w' : WAL) : Prop :=
  w_index w' = w_index w /\ w_acked w' = w_acked w /\ w_curSeg w' = w_curSeg w /\
  w_curFile w' = w_curFile w /\ w_curOffset w' = w_curOffset w /\
  NextSeq (w_cp w') = NextSeq (w_cp w) /\ SegStart (w_cp w') = SegStart (w_cp w).

Lemma same_queue_inv m w w' q :
  same_queue w w' -> wal_inv m w /\ represents m w q -> wal_inv m w' /\ represents m w' q.
Proof.
  intros (Hx & Ha & Hs & Hf & Ho & Hn & Hst) [[[] Hh] [Hr Hq]].
  assert (Hp : pending w' = pending w) by (unfold pending; by rewrite Hx, Ha).
  split; [split; [split|]|split]; rewrite ?Hp, ?Hx, ?Ha, ?Hs, ?Hn, ?Hst; try done.
  unfold handle_inv. by rewrite Hf, Hs, Ho.
Qed.

(** A call that stores [c'] as the cursor and [b'] as the policy and then
    persists the record. *)
Definition moved (q : queue) (c' b' : Z) (s : World) (o : outcome werr unit) (s' : World) : Prop :=
  wal_inv (segs s') (wal s') /\ represents (segs s') (wal s') q /\ same_dlq s s' /\
  CursorNs (w_cp (wal s')) = c' /\ BackfillNs (w_cp (wal s')) = b' /\
  match o with
  | Ok _ => ckpt s' = CkFile (w_cp (wal s')) false
  | Err e => e = ErrSaveCheckpoint
  | Panic => False
  end.

Lemma moved_persist now q f s :
  wal_inv (segs s) (wal s) -> represents (segs s) (wal s) q -> same_queue (wal s) (f (wal s)) ->
  wp (persistLocked now)
    (moved q (CursorNs (w_cp (f (wal s)))) (BackfillNs (w_cp (f (wal s)))) s) (set_wal f s).
Proof.
  intros Hinv Hr Hq. destruct (same_queue_inv _ _ _ q Hq (conj Hinv Hr)) as [Hi' Hr'].
  eapply wp_conseq; [apply persistLocked_spec|].
  intros o s' [(Hsg & [t Ht] & _ & Hd & Ho) Hok]. cbn in Hsg, Ht.
  unfold moved. rewrite Hsg, Ht in *. split; [by apply wal_inv_lastCp|]. split; [done|].
  split; [done|]. split; [done|]. split; [done|]. destruct o; auto.
Qed.

Lemma SetCursor_moved now ts q s :
  wal_inv (segs s) (wal s) -> represents (segs s) (wal s) q ->
  wp (SetCursor now ts) (fun o s' =>
    if ts <? Cursor s then o = Err (ErrCursorRegress (Cursor s) ts) /\ s' = s
    else moved q ts (BackfillPolicyNs s) s o s') s.
Proof.
  intros Hinv Hr. unfold SetCursor. wp_step. wp_step. wp_step. cbv beta zeta.
  change (CursorNs (w_cp (wal s))) with (Cursor s).
  destruct (ts <? Cursor s); [by apply wp_fail|]. wp_step. wp_step. wp_step.
  apply (moved_persist now q (fun w => with_cp (cp_Cursor ts (w_cp w)) w)); done.
Qed.

(** [SetCursor] never moves the cursor back: a smaller timestamp is refused
    and changes nothing.  Otherwise the cursor takes the new value, the queue
    and the policy stay, a success means that the new record is in the
    checkpoint file, and the only error is that it could not be saved, in which
    case the cursor in memory has moved all the same. *)
Theorem SetCursor_spec now ts q s :
  wal_inv (segs s) (wal s) -> represents (segs s) (wal s) q ->
  wp (SetCursor now ts) (fun o s' =>
    if ts <? Cursor s then o = Err (ErrCursorRegress (Cursor s) ts) /\ s' = s
    else moved q ts (BackfillPolicyNs s) s o s') s.
Proof. exact (SetCursor_moved now ts q s). Qed.

(** The cursor a policy asks for: it is moved back to the boundary the policy
    gives, and only back. *)
Definition backfill_cursor (policyNs boundaryNs cursor : Z) : Z :=
  if negb (policyNs =? BackfillNoneNs) && (0 <? boundaryNs) && (boundaryNs <? cursor)
  then boundaryNs else cursor.

Definition backfill_post (q : queue) (policyNs boundaryNs : Z) (s : World)
    (o : outcome werr bool) (s' : World) : Prop :=
  let unit_of := match o with Ok _ => Ok tt | Err e => Err e | Panic => Panic end in
  if w_legacyCheckpoint (wal s) then
    moved q (Cursor s) policyNs s unit_of s' /\ w_legacyCheckpoint (wal s') = false /\
    (is_ok o = true -> o = Ok false)
  else if BackfillPolicyNs s =? policyNs then o = Ok false /\ s' = s
  else
    let c' := backfill_cursor policyNs boundaryNs (Cursor s) in
    moved q c' policyNs s unit_of s' /\ w_legacyCheckpoint (wal s') = false /\
    (is_ok o = true -> o = Ok (c' <? Cursor s)).

Lemma moved_persist_ret now q f s (b : bool) (Q : outcome werr bool -> World -> Prop) :
  wal_inv (segs s) (wal s) -> represents (segs s) (wal s) q -> same_queue (wal s) (f (wal s)) ->
  (forall o s',
    moved q (CursorNs (w_cp (f (wal s)))) (BackfillNs (w_cp (f (wal s)))) s
      (match o with Ok _ => Ok tt | Err e => Err e | Panic => Panic end) s' ->
    (exists t, wal s' = with_lastCp t (f (wal s))) ->
    (is_ok o = true -> o = Ok b) -> Q o s') ->
  wp (persistLocked now ;;; ret b) Q (set_wal f s).
Proof.
  intros Hinv Hr Hq HQ. wp_step.
  pose proof (moved_persist now q f s Hinv Hr Hq) as H1.
  pose proof (persistLocked_spec now (set_wal f s)) as H2. unfold wp in *.
  destruct (persistLocked now (set_wal f s)) as [o s']. cbn in *.
  destruct H2 as [(_ & Ht & _) _]. destruct o as [[]|e|]; cbn [bind_post].
  - by apply (HQ (Ok b)).
  - by apply (HQ (Err e)).
  - by destruct H1 as (_ & _ & _ & _ & _ & []).
Qed.

(** [ApplyBackfillPolicy] records the policy and moves the cursor at most
    back, to the boundary the policy gives: not at all for a checkpoint written
    before policies existed, for the policy already recorded, or for the policy
    that wants no history; the queue is untouched.  The value returned says
    whether the cursor moved. *)
Theorem ApplyBackfillPolicy_spec now policyNs boundaryNs q s :
  wal_inv (segs s) (wal s) -> represents (segs s) (wal s) q ->
  wp (ApplyBackfillPolicy now policyNs boundaryNs) (backfill_post q policyNs boundaryNs s) s.
Proof.
  intros Hinv Hr. unfold ApplyBackfillPolicy, backfill_post. wp_step. wp_step. wp_step. cbv beta zeta.
  destruct (w_legacyCheckpoint (wal s)) eqn:El.
  { wp_step. wp_step. wp_step.
    apply (moved_persist_ret now q
      (fun w => with_legacy false (with_cp (cp_Backfill policyNs (w_cp w)) w))); try done.
    intros o s' Hm [t Ht] Hb. by rewrite Ht. }
  change (BackfillNs (w_cp (wal s))) with (BackfillPolicyNs s).
  destruct (BackfillPolicyNs s =? policyNs); [by apply wp_ret|].
  unfold backfill_cursor. change (CursorNs (w_cp (wal s))) with (Cursor s).
  destruct (negb (policyNs =? BackfillNoneNs) && (0 <? boundaryNs) && (boundaryNs <? Cursor s)) eqn:Eb.
  - do 6 (wp_step; cbv beta zeta).
    change (set_wal ?f (set_wal ?g s)) with (set_wal (fun w => f (g w)) s).
    apply (moved_persist_ret now q (fun w => with_cp (cp_Backfill policyNs
      (w_cp (with_cp (cp_Cursor boundaryNs (w_cp w)) w))) (with_cp (cp_Cursor boundaryNs (w_cp w)) w)));
      try done.
    intros o s' Hm [t Ht] Hb. rewrite Ht. split; [done|]. split; [done|]. intros Ho.
    rewrite (Hb Ho). apply andb_prop in Eb as [_ ->]. done.
  - do 6 (wp_step; cbv beta zeta).
    apply (moved_persist_ret now q (fun w => with_cp (cp_Backfill policyNs (w_cp w)) w)); try done.
    intros o s' Hm [t Ht] Hb. rewrite Ht. split; [done|]. split; [done|]. intros Ho.
    rewrite (Hb Ho). by rewrite Z.ltb_irrefl.
Qed.

(** ** Dead letters *)

(** The log and the files are as they were, the dead-letter directory apart. *)
Definition only_dlq (s s' : World) : Prop :=
  segs s' = segs s /\ ckpt s' = ckpt s /\ wal s' = wal s.

(** [P] holds of the state of a write at every point: before it, while the file
    is short, and when it is complete. *)
Lemma write_file_spec put b e (P : World -> Prop) s :
  (forall c s', P s' -> P (put c s')) -> (forall l s', P s' -> P (set_faults l s')) -> P s ->
  wp (write_file put b e) (fun o s' => P s' /\
    match o with
    | Ok _ => exists s0 l, P s0 /\ s' = set_faults l (put b s0)
    | Err e' => e' = e
    | Panic => False
    end) s.
Proof.
  intros Hput Hl Hs. unfold write_file. wp_step. apply wp_sys; intros l; [|intros _; split; auto]. wp_steps.
  unfold next_io, wp at 1. cbn [fst snd]. destruct (faults _) as [|[|n] rest]; cbn [fst snd bind_post].
  - wp_steps. apply wp_sys; intros l'; [|intros _; split; auto 6].
    split; [by auto 6|]. exists (put [] (set_faults l s)), l'. by auto.
  - wp_steps. apply wp_sys; intros l'; [|intros _; split; auto 6].
    split; [by auto 7|]. exists (set_faults rest (put [] (set_faults l s))), l'. by auto.
  - wp_steps. split; auto 7.
Qed.

Lemma writeDLQ_spec seq b meta s :
  wp (writeDLQ seq b meta) (fun o s' => only_dlq s s' /\
    match o with
    | Ok _ => dlq_frames s' = <[seq := b]> (dlq_frames s) /\
              dlq_metas s' = <[seq := meta]> (dlq_metas s)
    | Err e => e = ErrDLQWrite
    | Panic => False
    end) s.
Proof.
  unfold writeDLQ. wp_step.
  eapply wp_conseq; [apply (write_file_spec _ _ _ (fun s' => only_dlq s s' /\
    dlq_metas s' = dlq_metas s /\ exists c, dlq_frames s' = c /\ <[seq := b]> c = <[seq := b]> (dlq_frames s)))|].
  - intros c s' (Ho & Hm & d & <- & Hd). split; [done|]. split; [done|]. eexists. split; [done|].
    cbn. by rewrite insert_insert_eq.
  - intros l s' H. exact H.
  - by repeat (split; [done|]); eexists.
  - intros o s1 [(Ho1 & _) Ho]. destruct o as [[]|e|]; [|by split|done]. cbn [bind_post].
    destruct Ho as (s0 & l & (Ho0 & Hm0 & d & <- & Hd) & ->).
    eapply wp_conseq; [apply (write_file_spec _ _ _ (fun s' => only_dlq s s' /\
      dlq_frames s' = <[seq := b]> (dlq_frames s) /\
      <[seq := meta]> (dlq_metas s') = <[seq := meta]> (dlq_metas s)))|].
    + intros c s' (Ho & Hf & Hm). split; [done|]. split; [done|]. cbn. by rewrite insert_insert_eq.
    + intros l' s' H. exact H.
    + cbn. by rewrite Hd, Hm0.
    + intros o s' [(Ho' & _) Hpost]. split; [done|]. destruct o as [[]|e|]; [|done|done].
      destruct Hpost as (s2 & l2 & (Ho2 & Hf2 & Hm2) & ->). done.
Qed.

Definition dead_lettered (seq : Z) (b meta : bytes) (q : queue) (s : World)
    (o : outcome werr unit) (s' : World) : Prop :=
  dlq_frames s' = <[seq := b]> (dlq_frames s) /\ dlq_metas s' = <[seq := meta]> (dlq_metas s) /\
  represents (segs s') (wal s') (q_commit q) /\ o <> Panic /\
  CursorNs (w_cp (wal s')) = CursorNs (w_cp (wal s)).

(** C31: a frame leaves the queue through [MoveToDLQ] only after its bytes are
    in the dead-letter directory: the call either fails leaving the log, the
    segments and the checkpoint as they were, or it has written exactly the
    frame at the head of the queue, and its description, under the frame's
    number and then removed that frame from the queue.  A success is always of
    the second kind. *)
Theorem MoveToDLQ_keeps_frame now seq meta q s :
  wal_inv (segs s) (wal s) -> represents (segs s) (wal s) q ->
  wp (MoveToDLQ now seq meta) (fun o s' =>
    ((exists e, o = Err e) /\ only_dlq s s') \/
    (exists b, head (q_frames q) = Some (seq, b) /\ dead_lettered seq b meta q s o s')) s.
Proof.
  intros Hinv Hr. unfold MoveToDLQ. wp_steps. pose proof (proj1 Hr) as Hh.
  destruct (pending (wal s)) as [|fi l] eqn:Ep; inversion Hh as [|? [h b] ? qs [Hseq Hb] Hrest Heq Hqs].
  { apply wp_fail. left. split; [by eexists|done]. }
  cbn in Hseq, Hb. subst h. destruct (Z.eqb_spec (fi_seq fi) seq) as [Hs|Hne]; cbn [negb].
  2: { apply wp_fail. left. split; [by eexists|done]. }
  assert (Hno : forall e s', only_dlq s s' ->
    ((exists e', @Err werr unit e = Err e') /\ only_dlq s s') \/
    (exists b', Some (seq, b) = Some (seq, b') /\ dead_lettered seq b' meta q s (Err e) s')) by eauto.
  rewrite Hs. cbn [head]. wp_step. apply wp_sys; intros l1; [|intros _; by apply Hno]. wp_steps.
  unfold entry_bytes in Hb. cbn. destruct (segs s !! fi_seg fi) as [c|] eqn:Ec; [|done].
  wp_step. apply wp_sys; intros l2; [|intros _; by apply Hno]. wp_steps. rewrite Hb.
  wp_steps. destruct (_ <? _); [apply wp_fail; by apply Hno|].
  wp_step. apply wp_sys; intros l3; [|intros _; by apply Hno]. wp_steps.
  eapply wp_conseq; [apply writeDLQ_spec|]. cbn [set_faults segs wal ckpt dlq_frames dlq_metas].
  intros o s1 ((Hsg & Hck & Hw) & Ho). destruct o as [[]|e|]; cbn [bind_post].
  2: { apply Hno. unfold only_dlq. by rewrite Hsg, Hck, Hw. }
  2: done.
  destruct Ho as [Hf Hm]. eapply wp_conseq.
  { apply (commitLocked_spec now seq q); by rewrite Hsg, Hw. }
  intros o s2. unfold commit_post. rewrite <- Hqs, Hs, Z.eqb_refl.
  intros (Hr2 & _ & Hcur & _ & [Hf2 Hm2] & Ho). right. exists b. split; [done|].
  unfold dead_lettered. cbn in Hf, Hm. rewrite Hf2, Hm2, Hf, Hm, Hcur, Hw. by destruct o.
Qed.

(** ** Witnesses *)

Lemma Commit_refines_witness :
  wp (Commit 0 1) (commit_post 1 two_queue two) two /\ fst (Commit 0 1 two) = Ok tt.
Proof.
  split; [|by vm_compute]. destruct two_ok as [Hi Hr]. exact (Commit_refines 0 1 two_queue two Hi Hr).
Defined.

Lemma SetCursor_spec_witness :
  wp (SetCursor 0 500) (moved two_queue 500 0 two) two /\ fst (SetCursor 0 500 two) = Ok tt.
Proof.
  split; [|by vm_compute]. destruct two_ok as [Hi Hr]. exact (SetCursor_spec 0 500 two_queue two Hi Hr).
Defined.

(** A log whose cursor is at 500 under the policy that wants no history. *)
Definition at_500 : World := set_wal (fun w => with_cp (cp_Cursor 500 (w_cp w)) w) two.

Lemma ApplyBackfillPolicy_spec_witness :
  wp (ApplyBackfillPolicy 0 BackfillAllNs 200) (backfill_post two_queue BackfillAllNs 200 at_500) at_500 /\
  fst (ApplyBackfillPolicy 0 BackfillAllNs 200 at_500) = Ok true /\
  Cursor (snd (ApplyBackfillPolicy 0 BackfillAllNs 200 at_500)) = 200.
Proof.
  split; [|by vm_compute]. destruct two_ok as [Hi Hr].
  destruct (same_queue_inv _ (wal two) (wal at_500) two_queue ltac:(done) (conj Hi Hr)) as [Hi' Hr'].
  exact (ApplyBackfillPolicy_spec 0 BackfillAllNs 200 two_queue at_500 Hi' Hr').
Defined.

Lemma MoveToDLQ_keeps_frame_witness :
  wp (MoveToDLQ 0 1 [65]) (fun o s' =>
    ((exists e, o = Err e) /\ only_dlq two s') \/
    (exists b, head (q_frames two_queue) = Some (1, b) /\ dead_lettered 1 b [65] two_queue two o s')) two /\
  fst (MoveToDLQ 0 1 [65] two) = Ok tt.
Proof.
  split; [|by vm_compute]. destruct two_ok as [Hi Hr].
  exact (MoveToDLQ_keeps_frame 0 1 [65] two_queue two Hi Hr).
Defined.

(** ** Defects of the failure paths *)

(** The first two bytes of a record reach the file before the write fails; the
    next append succeeds, but its index entry designates bytes two before the
    frame. *)
Definition torn_write : World :=
  snd (AppendBatch TypeDataZstd [frame2] (snd (AppendBatch TypeDataZstd [frame1]
    (set_faults [IoFail 2] fresh)))).

Example torn_write_misplaces_next_frame :
  fst (AppendBatch TypeDataZstd [frame1] (set_faults [IoFail 2] fresh)) = Err ErrWriteHead /\
  fst (AppendBatch TypeDataZstd [frame2] (snd (AppendBatch TypeDataZstd [frame1]
    (set_faults [IoFail 2] fresh)))) = Ok [1] /\
  fst (Peek torn_write) = Ok (1, [0; 22] ++ take 20 (put_seq frame2 1)) /\
  Decode ([0; 22] ++ take 20 (put_seq frame2 1)) = Err (ErrBadMagic 22).
Proof. by vm_compute. Qed.

(** After a rotation whose [Close] succeeded and whose [OpenFile] failed, every
    append fails although no call fails any more. *)
Definition failed_rotation : World :=
  snd (AppendBatch TypeDataZstd [frame2]
    (set_faults [IoOk; IoFail 0]
      (set_wal (fun w => mkWAL 40 (w_dlqMax w) (w_cp w) (w_index w) (w_acked w) (w_curSeg w)
        (w_curFile w) (w_curOffset w) true None false false)
        (snd (AppendBatch TypeDataZstd [frame1] fresh))))).

Example failed_rotation_is_permanent :
  faults failed_rotation = [] /\
  fst (AppendBatch TypeDataZstd [frame2] failed_rotation) = Err (ErrCloseSegment 1) /\
  snd (AppendBatch TypeDataZstd [frame2] failed_rotation) = failed_rotation.
Proof. by vm_compute. Qed.
