(* ===== verification/WalCalm.v ===== *)
(** * The log while the file system answers

    When no call fails, every operation of the log is total and implements the
    queue exactly; these are the facts the other components use. *)
From S2P Require Import Prelude Protocol WalDisk WalScan Wal WalQueue WalCommit.
Local Open Scope Z_scope.
Local Open Scope go_scope.

(** The log represents [q] and nothing stands in its way. *)
Record log_ok (w : World) (q : queue) : Prop := {
  lo_inv : wal_inv (segs w) (wal w);
  lo_rep : represents (segs w) (wal w) q;
  lo_calm : calm w }.

(** ** Persisting *)

Lemma persistLocked_calm now s : faults s = [] ->
  persistLocked now s =
    (Ok tt, set_wal (with_lastCp (Some now)) (set_ckpt (CkFile (w_cp (wal s)) false) s)).
Proof.
  intros Hf. unfold persistLocked, saveCheckpoint, syncDir, bind, gets, modify.
  repeat (rewrite sys_calm by done; cbv beta iota). done.
Qed.

Lemma calm_persistLocked now s : calm s ->
  exists s', persistLocked now s = (Ok tt, s') /\ calm s' /\ w_curFile (wal s') = w_curFile (wal s).
Proof.
  intros [Hf Hh]. rewrite persistLocked_calm by done. eexists. split; [done|]. by split.
Qed.

Lemma calm_throttled now s : calm s ->
  exists s', persistLockedThrottled now s = (Ok tt, s') /\ calm s'.
Proof.
  intros Hc. unfold persistLockedThrottled, bind, gets.
  destruct (calm_persistLocked now s Hc) as (s' & E & Hc' & _).
  destruct (w_lastCp (wal s)); [destruct (_ <? _)|]; by eexists.
Qed.

(** ** The operations *)

Lemma SetCursor_ok now ts w q : log_ok w q ->
  exists o w', SetCursor now ts w = (o, w') /\ log_ok w' q /\ o <> Panic /\
    Cursor w' = (if ts <? Cursor w then Cursor w else ts).
Proof.
  intros [Hi Hr Hc]. pose proof (SetCursor_moved now ts q w Hi Hr) as H.
  assert (Hcalm : calm (snd (SetCursor now ts w))).
  { unfold SetCursor, bind, gets, modify. destruct (_ <? _); [done|].
    set (w1 := set_wal _ w). assert (calm w1) as Hc1 by done.
    by destruct (calm_persistLocked now w1 Hc1) as (s' & -> & ? & _). }
  unfold wp in H. destruct (SetCursor now ts w) as [o w']. cbn in *. exists o, w'.
  destruct (ts <? Cursor w).
  - destruct H as [-> ->]. split; [done|]. by split; [constructor|].
  - destruct H as (Hi' & Hr' & _ & Hcur & _ & Ho). split; [done|]. split; [by split|].
    split; [by destruct o|done].
Qed.

Lemma AppendBatch_ok typ fbs w q : log_ok w q -> q_next q + len fbs < 2 ^ 64 ->
  Forall (fun fb => HeaderSize <= len fb) fbs ->
  exists w', AppendBatch typ fbs w = (Ok (map fst (number (q_next q) fbs)), w') /\
    log_ok w' (q_append fbs q) /\ Cursor w' = Cursor w.
Proof.
  intros [Hi Hr Hc] Hb Hl. destruct (AppendBatch_calm typ fbs w Hl Hc) as (seqs & w' & E & Hc').
  pose proof (AppendBatch_queue typ fbs q w Hi Hr Hb) as H. unfold wp in H. rewrite E in H. cbn in H.
  destruct H as (-> & Hi' & Hr' & Hcur). exists w'. split; [done|]. split; [done|]. apply Hcur.
Qed.

Lemma drop_segment_calm s : calm s ->
  exists s', drop_segment s = (Ok tt, s') /\ calm s'.
Proof.
  intros [Hf Hh]. unfold drop_segment, remove_seg, bind, gets, modify. rewrite sys_calm by done.
  cbv beta iota. destruct (negb _); [by eexists|].
  unfold close_cur, bind, gets, modify. cbn. destruct (w_curFile (wal s)) eqn:E; [by eexists| |done].
  cbn. rewrite E. cbv beta. rewrite sys_calm by done. by eexists.
Qed.

Lemma commit_loop_calm fuel : forall b s, calm s ->
  exists o s', commit_loop fuel b s = (o, s') /\ calm s' /\ (forall e, o = Err e -> e = ErrFuel).
Proof.
  induction fuel as [|fuel IH]; intros b s Hc.
  { do 2 eexists. split; [done|]. split; [done|]. by intros e [= <-]. }
  cbn [commit_loop]. unfold bind at 1, gets. destruct (negb _).
  { do 2 eexists. split; [done|]. by split. }
  destruct (drop_segment_calm s Hc) as (s1 & E1 & Hc1). unfold bind at 1. rewrite E1.
  unfold bind. destruct (w_index (wal s1)); [|by apply IH].
  do 2 eexists. split; [done|]. by split.
Qed.

Lemma commitLocked_calm now seq cur l s : calm s -> pending (wal s) = cur :: l -> fi_seq cur = seq ->
  exists o s', commitLocked now seq s = (o, s') /\ calm s' /\ (forall e, o = Err e -> e = ErrFuel).
Proof.
  intros Hc Hp Hs. unfold commitLocked, bind at 1, gets. rewrite Hp, Hs, Z.eqb_refl. cbn [negb].
  unfold bind, modify. set (s1 := set_wal _ s). assert (calm s1) as Hc1 by done.
  destruct (commit_loop_calm (commit_fuel (wal s1)) false s1 Hc1) as (o & s2 & -> & Hc2 & He).
  destruct o as [b|e|].
  - destruct b.
    + destruct (calm_persistLocked now s2 Hc2) as (s3 & -> & Hc3 & _).
      do 2 eexists. split; [done|]. by split.
    + destruct (calm_throttled now s2 Hc2) as (s3 & -> & Hc3).
      do 2 eexists. split; [done|]. by split.
  - do 2 eexists. split; [done|]. split; [done|]. intros e' [= <-]. by apply He.
  - do 2 eexists. split; [done|]. by split.
Qed.

Lemma Commit_ok now w q seq b rest : log_ok w q -> q_frames q = (seq, b) :: rest ->
  exists w', Commit now seq w = (Ok tt, w') /\ log_ok w' (q_commit q) /\ Cursor w' = Cursor w.
Proof.
  intros [Hi Hr Hc] Hq. unfold Commit. pose proof (commitLocked_spec now seq q w Hi Hr) as H.
  pose proof (proj1 Hr) as Hh. rewrite Hq in Hh.
  destruct (pending (wal w)) as [|cur l] eqn:Ep; inversion Hh as [|? ? ? ? [Hseq _] _]; subst.
  destruct (commitLocked_calm now (fi_seq cur) cur l w Hc Ep eq_refl) as (o & w' & E & Hc' & He).
  cbn in Hseq. rewrite Hseq in *. unfold wp in H. rewrite E in H. cbn [fst snd] in H.
  unfold commit_post in H. rewrite Hq, Z.eqb_refl in H. destruct H as (Hr' & Hh' & Hcur & _ & _ & Ho).
  destruct o as [[]|e|]; [|destruct Ho as [Hne _]; by specialize (He e eq_refl)|done].
  exists w'. split; [done|]. split; [|done]. split; [split|done|done]; [by destruct Ho|done].
Qed.

(** Committing another number is refused. *)
Lemma Commit_wrong now w q seq h b rest : log_ok w q -> q_frames q = (h, b) :: rest -> h <> seq ->
  Commit now seq w = (Err (ErrCommitOrder seq h), w).
Proof.
  intros [Hi Hr _] Hq Hne. unfold Commit. pose proof (commitLocked_spec now seq q w Hi Hr) as H.
  unfold wp, commit_post in H. rewrite Hq in H. destruct (Z.eqb_spec h seq); [done|].
  destruct (commitLocked now seq w) as [o w']. cbn in H. by destruct H as [-> ->].
Qed.

Lemma unchanged_calm w w' : faults w = [] -> unchanged w w' -> w' = w.
Proof. intros Hf [n ->]. rewrite Hf, drop_nil, <- Hf. apply set_faults_id. Qed.

Lemma PeekBatch_ok n w q : log_ok w q ->
  (q_frames q = [] /\ PeekBatch n w = (Err ErrEmpty, w)) \/
  (q_frames q <> [] /\ exists fds, PeekBatch n w = (Ok fds, w) /\ map as_pair fds = q_peek n q).
Proof.
  intros [[Hi _] Hr [Hf Hc]]. pose proof (PeekBatch_queue n q w Hi Hr) as H. unfold wp in H.
  destruct (PeekBatch n w) as [o w']. cbn [fst snd] in H. destruct H as [Hu H].
  apply unchanged_calm in Hu as ->; [|done]. destruct o as [fds|e|]; [right|left|done].
  - destruct H as [Hne Hm]. eauto.
  - destruct H as [[-> He]|(_ & _ & Ht)]; [done|]. by destruct Ht.
Qed.

Lemma Peek_ok w q : log_ok w q ->
  (q_frames q = [] /\ Peek w = (Err ErrEmpty, w)) \/
  (exists seq b rest, q_frames q = (seq, b) :: rest /\ Peek w = (Ok (seq, b), w)).
Proof.
  intros Hl. unfold Peek, bind. destruct (PeekBatch_ok 1 w q Hl) as [[Hq ->]|(Hne & fds & -> & Hm)].
  { by left. }
  right. unfold q_peek in Hm. cbn in Hm. destruct (q_frames q) as [|[seq b] rest]; [done|].
  cbn in Hm. destruct fds as [|fd fds]; [done|]. injection Hm as Hs Hb _.
  exists seq, b, rest. split; [done|]. by rewrite Hs, Hb.
Qed.

(** ** The numbers of a queue *)

(** The numbers increase and are below the next one. *)
Lemma queue_sorted w q : log_ok w q ->
  StronglySorted (fun a b : Z * bytes => a.1 < b.1) (q_frames q) /\
  Forall (fun p : Z * bytes => p.1 < q_next q) (q_frames q).
Proof.
  intros [[Hi _] [Hh Hn] _]. pose proof (inv_sorted _ Hi) as Hs. pose proof (inv_pending _ Hi) as Hok.
  rewrite Hn in Hok. induction Hh as [|fi p l ps [Hseq _] Hh IH]; [by repeat constructor|].
  apply Forall_cons in Hok as [(_ & _ & _ & Hfi) Hok].
  apply StronglySorted_inv in Hs as [Hs Hall]. destruct (IH Hs Hok) as [IH1 IH2].
  split; constructor; try done; [|lia]. rewrite Forall_forall. intros p' Hin.
  apply list_elem_of_lookup in Hin as [j Hj].
  destruct (Forall2_lookup_r _ _ _ _ _ Hh Hj) as (fi' & Hfi' & [Hs' _]).
  rewrite Forall_forall in Hall. specialize (Hall fi' ltac:(by eapply list_elem_of_lookup_2)).
  unfold fi_before in Hall. lia.
Qed.

(** ** What the log promises to the sender *)

(** The frames that have been acknowledged, and the queue. *)
Record ledger := mkLedger { lg_done : list (Z * bytes); lg_queue :> queue }.

Definition lg_append (fbs : list bytes) (g : ledger) : ledger := mkLedger (lg_done g) (q_append fbs g).
Definition lg_commit (h : Z * bytes) (g : ledger) : ledger := mkLedger (lg_done g ++ [h]) (q_commit g).

(** What the poller does to the log between two calls of the sender. *)
Inductive rival : Type :=
| RivalAppend (typ : Z) (frameBytes : list bytes)
| RivalCursor (now ts : Z).

Definition rival_run (w : World) (a : rival) : World :=
  match a with
  | RivalAppend typ fbs => snd (AppendBatch typ fbs w)
  | RivalCursor now ts => snd (SetCursor now ts w)
  end.

(** The poller appends valid frames. *)
Definition rival_ok (a : rival) : Prop :=
  match a with RivalAppend _ fbs => Forall wf_frame fbs | RivalCursor _ _ => True end.
Definition rival_size (a : rival) : Z :=
  match a with RivalAppend _ fbs => len fbs | RivalCursor _ _ => 0 end.
Definition group_size (g : list rival) : Z := foldr (fun a n => rival_size a + n) 0 g.
Definition lg_rival (a : rival) (g : ledger) : ledger :=
  match a with RivalAppend _ fbs => lg_append fbs g | RivalCursor _ _ => g end.

Lemma group_size_nonneg g : 0 <= group_size g.
Proof. unfold group_size. induction g as [|[typ fbs|? ?] g IH]; cbn [foldr rival_size]; zlia. Qed.

Lemma group_size_app a b : group_size (a ++ b) = group_size a + group_size b.
Proof. unfold group_size. induction a as [|x a IH]; cbn [app foldr]; lia. Qed.

(** An invariant of the log that keeps a ledger, and may look ahead at what the
    poller is still going to do. The sender is proved against this interface;
    [plain_log] keeps the queue, [WalCrash.durable_log] keeps what a crash does
    not lose, and [Sync.synced_log] the intervals that have been exported. *)
Class LogPromise := {
  promised : World -> ledger -> list rival -> Prop;
  promised_log w g todo : promised w g todo -> log_ok w g;
  promised_rival a todo w g :
    promised w g (a :: todo) -> rival_ok a -> q_next g + rival_size a < 2 ^ 64 ->
    promised (rival_run w a) (lg_rival a g) todo;
  promised_commit now h rest todo w g :
    promised w g todo -> q_frames g = h :: rest -> promised (snd (Commit now h.1 w)) (lg_commit h g) todo;
  promised_notify b todo w g : promised w g todo -> promised (set_wal (with_notify b) w) g todo }.

Lemma wf_frames_long fbs : Forall wf_frame fbs -> Forall (fun fb => HeaderSize <= len fb) fbs.
Proof.
  intros H. eapply Forall_impl; [exact H|]. intros fb Hf.
  destruct (wf_frame_header fb Hf) as (? & ? & ? & ? & ? & ? & ?). done.
Qed.

Lemma log_ok_notify b w q : log_ok w q -> log_ok (set_wal (with_notify b) w) q.
Proof. intros [Hi Hr Hc]. split; [by apply wal_inv_notify|done|done]. Qed.

(** What the poller's operations do while the file system answers. *)
Lemma rival_run_log a w (g : ledger) : log_ok w g -> rival_ok a -> q_next g + rival_size a < 2 ^ 64 ->
  log_ok (rival_run w a) (lg_rival a g).
Proof.
  intros Hl Ha Hb. destruct a as [typ fbs|now ts]; cbn [rival_run lg_rival rival_ok rival_size] in *.
  - by destruct (AppendBatch_ok typ fbs w g Hl Hb (wf_frames_long fbs Ha)) as (w' & -> & ? & _).
  - by destruct (SetCursor_ok now ts w g Hl) as (o & w' & -> & ? & _).
Qed.

Definition plain_log : LogPromise.
Proof.
  refine {| promised w g _ := log_ok w g |}.
  - done.
  - intros a _ w g. apply rival_run_log.
  - intros now [seq b] rest _ w g Hl Hq. cbn [fst]. by destruct (Commit_ok now w g seq b rest Hl Hq) as (w' & -> & ? & _).
  - intros b _ w g. apply log_ok_notify.
Defined.
