(* ===== verification/WalOpen.v ===== *)
(** * Opening the log: the directory lock, the checkpoint, the recovery of the
    index from the segment files ([Open], [scanSegments], [lastSegmentIdx] of
    [internal/wal/wal.go]).

    Reads of a local file are modelled as returning what the file holds; the
    calls the code checks (open, stat, truncate, remove, read of the directory
    and of the checkpoint) may fail. *)
From S2P Require Import Prelude Protocol WalDisk WalScan Wal WalQueue WalCommit.
Local Open Scope Z_scope.
Local Open Scope go_scope.

(** ** Definitions *)

(** The indices [parseSegIdx] finds in the directory, in increasing order
    ([sort.Ints]). *)
Definition idxList (m : gmap Z bytes) : list Z := merge_sort Z.le (elements (dom m)).

(** Removing the segments before [SegStart]. *)
Fixpoint remove_stale (start : Z) (l : list Z) : W unit :=
  match l with
  | [] => ret tt
  | idx :: rest =>
      (if idx <? start then remove_seg idx (ErrRemoveSegment idx) else ret tt) ;;;
      remove_stale start rest
  end.

(** [firstAlive], -1 when there is none. *)
Definition firstAlive (start : Z) (l : list Z) : Z :=
  match filter (fun idx => start <= idx) l with [] => -1 | idx :: _ => idx end.

Definition indexSegment (idx skip : Z) : W unit :=
  sys (ErrOpenSegment idx) ;;;
  sys (ErrStatSegment idx) ;;;
  m <- gets segs ;;
  let f := match m !! idx with Some c => c | None => [] end in
  let '(fis, v) := scan_segment idx f skip in
  modify (set_wal (fun w => with_index (w_index w ++ fis) (w_acked w) w)) ;;;
  match v with
  | VEof => ret tt
  | VTorn off => sys (ErrTruncate idx off) ;;; modify (set_segs (<[idx := take (Z.to_nat off) f]>))
  | VRefuse off => fail (ErrCorruptAcked idx off)
  | VFuel => fail ErrFuel
  end.

Fixpoint index_segments (start acked : Z) (l : list Z) : W unit :=
  match l with
  | [] => ret tt
  | idx :: rest =>
      (if idx <? start then ret tt
       else indexSegment idx (if idx =? start then acked else 0)) ;;;
      index_segments start acked rest
  end.

Definition scanSegments : W unit :=
  sys ErrReadDir ;;;
  m <- gets segs ;;
  let l := idxList m in
  w <- gets wal ;;
  let start := SegStart (w_cp w) in
  remove_stale start l ;;;
  let first := firstAlive start l in
  if first <? 0 then
    modify (set_wal (fun w => with_cp (cp_Ack (Z.max 0 start) 0 (w_cp w)) w))
  else
    (if start <? first then modify (set_wal (fun w => with_cp (cp_Ack first 0 (w_cp w)) w))
     else ret tt) ;;;
    w <- gets wal ;;
    index_segments (SegStart (w_cp w)) (AckedBytes (w_cp w)) l ;;;
    modify (set_wal (fun w => with_index (w_index w) 0 w)).

Definition lastSegmentIdx (start : Z) : W Z :=
  sys ErrReadDir ;;;
  m <- gets segs ;;
  ret (Z.max 0 (match idxList m with
                | [] => start
                | i :: l => foldl Z.max i l
                end)).

Definition maxSeq (l : list frameIndex) : Z := foldl (fun n fi => Z.max n (fi_seq fi)) 0 l.

(** [syscall.Flock(LOCK_EX|LOCK_NB)] on the lock file. *)
Definition flock : W unit :=
  b <- gets flocked ;;
  if b : bool then fail ErrLocked else modify (set_flocked true).

Definition Open (segSize : Z) : W unit :=
  sys ErrMkdir ;;;
  sys ErrOpenLock ;;;
  flock ;;;
  let segSize := if segSize <=? 0 then DefaultSegmentSize else segSize in
  modify (set_wal (fun _ => mkWAL segSize DefaultDLQMaxSize zero_checkpoint [] 0 0 HNil 0 true None false false)) ;;;
  cl <- loadCheckpoint ;;
  modify (set_wal (fun w => with_legacy (snd cl) (with_cp (fst cl) w))) ;;;
  scanSegments ;;;
  modify (set_wal (fun w =>
    let next := u64 (maxSeq (w_index w) + 1) in
    if NextSeq (w_cp w) <? next then with_cp (cp_NextSeq next (w_cp w)) w else w)) ;;;
  w <- gets wal ;;
  curIdx <- lastSegmentIdx (SegStart (w_cp w)) ;;
  size <- open_append curIdx (ErrOpenSegment curIdx) (ErrStatSegment curIdx) ;;
  modify (set_wal (with_cur curIdx HOpen size)).

(** ** The segments a directory holds *)

Lemma elem_of_idxList m i : i ∈ idxList m <-> is_Some (m !! i).
Proof. unfold idxList. rewrite merge_sort_Permutation, elem_of_elements. by rewrite elem_of_dom. Qed.

Lemma idxList_sorted m : StronglySorted Z.le (idxList m).
Proof. apply StronglySorted_merge_sort; typeclasses eauto. Qed.

Lemma idxList_NoDup m : NoDup (idxList m).
Proof. unfold idxList. rewrite merge_sort_Permutation. apply NoDup_elements. Qed.

Lemma seqZ_sorted lo n : StronglySorted Z.le (seqZ lo n).
Proof.
  assert (Hn : forall k lo, StronglySorted Z.le (seqZ lo (Z.of_nat k))).
  { induction k as [|k IH]; intros lo'; [constructor|].
    rewrite Nat2Z.inj_succ, <- Z.add_1_r, seqZ_cons by lia.
    replace (Z.pred (Z.of_nat k + 1)) with (Z.of_nat k) by lia. constructor; [apply IH|].
    apply Forall_forall. intros x Hx. apply elem_of_seqZ in Hx. lia. }
  destruct (Z_lt_le_dec n 0); [rewrite seqZ_nil by lia; constructor|].
  rewrite <- (Z2Nat.id n) by lia. apply Hn.
Qed.

(** The segments from [start] on are the run [lo, lo+n). *)
Lemma idxList_filter m start lo n :
  (forall i, start <= i -> is_Some (m !! i) <-> lo <= i < lo + n) -> start <= lo ->
  filter (fun idx => start <= idx) (idxList m) = seqZ lo n.
Proof.
  intros Hm Hs. apply (StronglySorted_unique Z.le).
  - pose proof (idxList_sorted m) as H. induction H as [|x l Hl IH Hx]; [constructor|].
    rewrite filter_cons. case_decide; [|done]. constructor; [done|].
    apply Forall_forall. intros y [_ Hy]%list_elem_of_filter. rewrite Forall_forall in Hx. auto.
  - apply seqZ_sorted.
  - apply NoDup_Permutation.
    + apply NoDup_filter, idxList_NoDup.
    + apply NoDup_seqZ.
    + intros i. rewrite list_elem_of_filter, elem_of_idxList, elem_of_seqZ. split.
      * intros [Hi H]. by apply Hm.
      * intros H. split; [lia|]. apply Hm; lia.
Qed.

Lemma foldl_max_spec l : forall i,
  (foldl Z.max i l = i \/ foldl Z.max i l ∈ l) /\ i <= foldl Z.max i l /\
  Forall (fun x => x <= foldl Z.max i l) l.
Proof.
  induction l as [|x l IH]; intros i; cbn [foldl]; [split; [by left|split; [lia|constructor]]|].
  destruct (IH (Z.max i x)) as (H1 & H2 & H3). split; [|split; [lia|constructor; [lia|done]]].
  rewrite elem_of_cons. destruct H1 as [H1|H1]; [|by auto]. rewrite H1. lia.
Qed.

Lemma last_index m lo n : 0 <= lo -> 0 < n ->
  (forall i, is_Some (m !! i) <-> lo <= i < lo + n) ->
  Z.max 0 (match idxList m with [] => lo | i :: l => foldl Z.max i l end) = lo + n - 1.
Proof.
  intros Hlo Hn Hm.
  assert (Hin : forall i, i ∈ idxList m <-> lo <= i < lo + n)
    by (intros i; rewrite elem_of_idxList; apply Hm).
  destruct (idxList m) as [|i l].
  { specialize (proj2 (Hin lo) ltac:(lia)). by rewrite elem_of_nil. }
  destruct (foldl_max_spec l i) as (H1 & H2 & H3).
  assert (lo <= foldl Z.max i l < lo + n).
  { apply Hin. rewrite elem_of_cons. destruct H1; auto. }
  assert (lo + n - 1 <= foldl Z.max i l); [|lia].
  specialize (proj2 (Hin (lo + n - 1)) ltac:(lia)). rewrite elem_of_cons.
  intros [->|Hl]; [done|]. rewrite Forall_forall in H3. by apply H3.
Qed.

(** ** The calls of [Open] when none fails *)

Lemma remove_stale_calm start l : forall s, faults s = [] ->
  remove_stale start l s =
  (Ok tt, set_segs (fun m => foldl (fun m i => if i <? start then delete i m else m) m l) s).
Proof.
  induction l as [|i l IH]; intros s Hf; cbn [remove_stale foldl]; [by destruct s|].
  unfold bind at 1. destruct (i <? start).
  - unfold remove_seg, bind, modify. rewrite sys_calm by done. rewrite IH by done. done.
  - unfold ret. by rewrite IH.
Qed.

Lemma stale_kept start l (m : gmap Z bytes) j : start <= j ->
  foldl (fun m i => if i <? start then delete i m else m) m l !! j = m !! j.
Proof.
  intros Hj. revert m. induction l as [|i l IH]; intros m; cbn [foldl]; [done|].
  rewrite IH. destruct (Z.ltb_spec i start); [|done]. by rewrite lookup_delete_ne by lia.
Qed.

Lemma stale_gone start l (m : gmap Z bytes) j : j < start -> j ∈ l \/ m !! j = None ->
  foldl (fun m i => if i <? start then delete i m else m) m l !! j = None.
Proof.
  intros Hj. revert m. induction l as [|i l IH]; intros m; cbn [foldl].
  { intros [H|H]; [by apply elem_of_nil in H|done]. }
  rewrite elem_of_cons. intros H. apply IH.
  destruct (decide (i = j)) as [->|Hne].
  - right. destruct (Z.ltb_spec j start); [|lia]. apply lookup_delete_eq.
  - destruct H as [[->|H]|H]; [done|by left|]. right.
    destruct (i <? start); [|done]. by rewrite lookup_delete_ne.
Qed.

(** A record of a segment, whole or cut. *)
Lemma indexSegment_calm idx a b fb n s :
  faults s = [] -> Forall wf_frame (a ++ b) -> wf_frame fb ->
  Z.of_nat n < recordHeadLen + HeaderSize ->
  segs s !! idx = Some (layout (a ++ b) ++ take n (record fb)) ->
  indexSegment idx (len (layout a)) s =
  (Ok tt, set_wal (fun w => with_index (w_index w ++ entries idx (len (layout a)) b) (w_acked w) w)
    (set_segs (<[idx := layout (a ++ b)]>) s)).
Proof.
  intros Hf Hab Hfb Hn Hs. unfold indexSegment, bind, gets, modify.
  rewrite !sys_calm by done. rewrite Hs. apply Forall_app in Hab as [Ha Hb].
  rewrite (scan_recovers idx a b fb n) by done. destruct n as [|n].
  - cbn [take] in *. rewrite app_nil_r in Hs. unfold set_segs. rewrite insert_id by done. by destruct s.
  - rewrite sys_calm by done. unfold set_segs, set_wal; cbn. do 3 f_equal.
    f_equal. unfold len. rewrite Nat2Z.id. by rewrite take_app_length.
Qed.

(** ** Consecutive segments *)

(** The contents of the segments that hold [fss], the last with a torn tail. *)
Fixpoint seg_contents (fss : list (list bytes)) (torn : bytes) : list bytes :=
  match fss with
  | [] => []
  | [fs] => [layout fs ++ torn]
  | fs :: rest => layout fs :: seg_contents rest torn
  end.

Fixpoint seg_entries (lo : Z) (fss : list (list bytes)) : list frameIndex :=
  match fss with
  | [] => []
  | fs :: rest => entries lo 0 fs ++ seg_entries (lo + 1) rest
  end.

(** The segments from [lo] on hold [fss]. *)
Definition run_at (m : gmap Z bytes) (lo : Z) (cs : list bytes) : Prop :=
  forall k c, cs !! k = Some c -> m !! (lo + Z.of_nat k) = Some c.

Lemma run_at_cons m lo c cs :
  run_at m lo (c :: cs) <-> m !! lo = Some c /\ run_at m (lo + 1) cs.
Proof.
  unfold run_at. split.
  - intros H. split.
    { specialize (H 0%nat c eq_refl). by rewrite Z.add_0_r in H. }
    intros k c' Hk. specialize (H (S k) c' Hk). by replace (lo + 1 + Z.of_nat k) with (lo + Z.of_nat (S k)) by lia.
  - intros [H0 H] [|k] c' Hk; cbn in Hk.
    + injection Hk as <-. by rewrite Z.add_0_r.
    + replace (lo + Z.of_nat (S k)) with (lo + 1 + Z.of_nat k) by lia. auto.
Qed.

Lemma index_segments_skip start acked l s :
  index_segments start acked l s =
  index_segments start acked (filter (fun i => start <= i) l) s.
Proof.
  revert s. induction l as [|i l IH]; intros s; [done|].
  rewrite filter_cons. cbn [index_segments]. unfold bind at 1.
  destruct (Z.ltb_spec i start); case_decide; try lia; [apply IH|].
  cbn [index_segments]. destruct (Z.ltb_spec i start); [lia|].
  unfold bind. destruct (indexSegment _ _ s) as [[[]| |] s1]; [apply IH|done|done].
Qed.

(** The state after indexing: the index has grown and torn tails are gone. *)
Definition indexed (fis : list frameIndex) (m' : gmap Z bytes) (s : World) : World :=
  set_wal (fun w => with_index (w_index w ++ fis) (w_acked w) w) (set_segs (fun _ => m') s).

Definition outside (m m' : gmap Z bytes) (lo n : Z) : Prop :=
  forall i, i < lo \/ lo + n <= i -> m' !! i = m !! i.

Section scan_run.
Context (torn : bytes) (start acked : Z).
Hypothesis Htorn : exists fb n, wf_frame fb /\ Z.of_nat n < recordHeadLen + HeaderSize /\
  torn = take n (record fb).

Lemma seqZ_len_cons {A} lo (x : A) l : seqZ lo (len (x :: l)) = lo :: seqZ (lo + 1) (len l).
Proof. rewrite len_cons, seqZ_cons by zlia. f_equal. f_equal; lia. Qed.

(** One segment, whole or last. *)
Lemma index_one a b idx c s :
  faults s = [] -> start <= idx -> (if idx =? start then acked else 0) = len (layout a) ->
  Forall wf_frame (a ++ b) -> segs s !! idx = Some c ->
  c = layout (a ++ b) \/ c = layout (a ++ b) ++ torn ->
  indexSegment idx (if idx =? start then acked else 0) s =
  (Ok tt, indexed (entries idx (len (layout a)) b) (<[idx := layout (a ++ b)]> (segs s)) s).
Proof.
  intros Hf Hs Hskip Hwf Hc Ht. rewrite Hskip. destruct Htorn as (fb & n & Hfb & Hn & E).
  destruct Ht as [->| ->].
  - apply (indexSegment_calm idx a b fb 0); try done. rewrite Hc. cbn. by rewrite app_nil_r.
  - rewrite E in Hc. by apply (indexSegment_calm idx a b fb n).
Qed.

Lemma seg_contents_shape fs fss :
  exists c, seg_contents (fs :: fss) torn = c :: seg_contents fss torn /\
    (c = layout fs \/ c = layout fs ++ torn).
Proof. cbn. destruct fss; eexists; split; auto. Qed.

Lemma index_run fss : forall lo s,
  faults s = [] -> start < lo -> Forall wf_frame (concat fss) ->
  run_at (segs s) lo (seg_contents fss torn) ->
  exists m', index_segments start acked (seqZ lo (len fss)) s =
    (Ok tt, indexed (seg_entries lo fss) m' s) /\
    run_at m' lo (map layout fss) /\ outside (segs s) m' lo (len fss).
Proof.
  induction fss as [|fs fss IH]; intros lo s Hf Hlo Hwf Hrun.
  { exists (segs s). split; [|split; [by intros ? ?|by intros ? ?]].
    unfold indexed, set_wal, set_segs. cbn. rewrite app_nil_r. destruct s as [? ? ? ? ? ? []]. done. }
  destruct (seg_contents_shape fs fss) as (c & E & Hc). rewrite E in Hrun.
  apply run_at_cons in Hrun as [H0 Hrun]. cbn [concat] in Hwf. apply Forall_app in Hwf as [Hfs Hwf].
  rewrite seqZ_len_cons. cbn [index_segments]. destruct (Z.ltb_spec lo start); [lia|].
  unfold bind at 1. rewrite (index_one [] fs lo c s); try done; try lia.
  2: { destruct (Z.eqb_spec lo start); [lia|done]. }
  match goal with |- context [index_segments _ _ _ ?s0] => set (s1 := s0) end.
  destruct (IH (lo + 1) s1) as (m' & E' & Hrun' & Hout); [done|lia|done| |].
  { intros k c' Hk. unfold s1; cbn. rewrite lookup_insert_ne by lia. auto. }
  exists m'. rewrite E'. split; [|split].
  - unfold indexed, set_wal, set_segs, with_index; cbn. by rewrite <- app_assoc.
  - cbn [map]. apply run_at_cons. split; [|done].
    rewrite (Hout lo) by lia. apply lookup_insert_eq.
  - intros i Hi. rewrite len_cons in Hi. rewrite (Hout i) by lia. cbn.
    rewrite lookup_insert_ne; [done|]. pose proof (len_nonneg fss). lia.
Qed.

Lemma index_all a b rest lo s :
  faults s = [] -> start <= lo -> (if lo =? start then acked else 0) = len (layout a) ->
  Forall wf_frame (concat ((a ++ b) :: rest)) ->
  run_at (segs s) lo (seg_contents ((a ++ b) :: rest) torn) ->
  exists m', index_segments start acked (seqZ lo (len ((a ++ b) :: rest))) s =
    (Ok tt, indexed (entries lo (len (layout a)) b ++ seg_entries (lo + 1) rest) m' s) /\
    run_at m' lo (map layout ((a ++ b) :: rest)) /\
    outside (segs s) m' lo (len ((a ++ b) :: rest)).
Proof.
  intros Hf Hlo Hskip Hwf Hrun.
  destruct (seg_contents_shape (a ++ b) rest) as (c & E & Hc). rewrite E in Hrun.
  apply run_at_cons in Hrun as [H0 Hrun]. cbn [concat] in Hwf. apply Forall_app in Hwf as [Hfs Hwf].
  rewrite seqZ_len_cons. cbn [index_segments]. destruct (Z.ltb_spec lo start); [lia|].
  unfold bind at 1. rewrite (index_one a b lo c s) by done.
  match goal with |- context [index_segments _ _ _ ?s0] => set (s1 := s0) end.
  destruct (index_run rest (lo + 1) s1) as (m' & E' & Hrun' & Hout); [done|lia|done| |].
  { intros k c' Hk. unfold s1; cbn. rewrite lookup_insert_ne by lia. auto. }
  exists m'. rewrite E'. split; [|split].
  - unfold indexed, set_wal, set_segs, with_index; cbn. by rewrite <- app_assoc.
  - cbn [map]. apply run_at_cons. split; [|done].
    rewrite (Hout lo) by lia. apply lookup_insert_eq.
  - intros i Hi. rewrite len_cons in Hi. rewrite (Hout i) by lia. cbn.
    rewrite lookup_insert_ne; [done|]. pose proof (len_nonneg rest). lia.
Qed.
End scan_run.

(** ** The recovered index represents the pending frames *)

Definition frame_pair (fb : bytes) : Z * bytes := (frame_seq fb, fb).

Lemma entries_hold m idx fbs : forall pre tail,
  m !! idx = Some (pre ++ layout fbs ++ tail) ->
  Forall2 (holds m) (entries idx (len pre) fbs) (map frame_pair fbs).
Proof.
  induction fbs as [|fb fbs IH]; intros pre tail Hm; cbn [entries map]; constructor.
  - split; [done|]. unfold entry_bytes. cbn [fi_seg fi_offset fi_length]. rewrite Hm.
    rewrite layout_cons, <- app_assoc. unfold record. rewrite <- app_assoc. unfold pread.
    destruct (Z.leb_spec (len pre + recordHeadLen + len fb)
      (len (pre ++ be_put 4 (len fb) ++ fb ++ layout fbs ++ tail))); [|rlia].
    f_equal. apply (slice_eq _ (pre ++ be_put 4 (len fb)) fb (layout fbs ++ tail));
      [by rewrite <- !app_assoc|rlia|rlia].
  - rewrite layout_cons, <- app_assoc in Hm.
    specialize (IH (pre ++ record fb) tail). rewrite <- app_assoc in IH.
    replace (len (pre ++ record fb)) with (len pre + (recordHeadLen + len fb)) in IH by rlia.
    by apply IH.
Qed.

Lemma seg_entries_hold m fss : forall lo,
  run_at m lo (map layout fss) ->
  Forall2 (holds m) (seg_entries lo fss) (map frame_pair (concat fss)).
Proof.
  induction fss as [|fs fss IH]; intros lo Hr; cbn [seg_entries concat]; [constructor|].
  cbn [map] in Hr. apply run_at_cons in Hr as [H0 Hr]. rewrite map_app.
  apply Forall2_app; [|by apply IH].
  apply (entries_hold m lo fs [] []). by rewrite app_nil_r.
Qed.

(** What every recovered entry satisfies. *)
Definition entry_in (lo hi : Z) (fi : frameIndex) : Prop :=
  lo <= fi_seg fi < hi /\ 0 <= fi_offset fi /\ 0 <= fi_length fi.

Lemma entries_in idx fbs : forall off, 0 <= off ->
  Forall (entry_in idx (idx + 1)) (entries idx off fbs).
Proof.
  unfold entry_in. induction fbs as [|fb fbs IH]; intros off H; cbn [entries]; constructor; cbn; [rlia|].
  apply IH. rlia.
Qed.

Lemma entry_in_mono lo hi lo' hi' l :
  lo' <= lo -> hi <= hi' -> Forall (entry_in lo hi) l -> Forall (entry_in lo' hi') l.
Proof. intros ? ? H. eapply Forall_impl; [exact H|]. unfold entry_in. lia. Qed.

Lemma seg_entries_in fss : forall lo, Forall (entry_in lo (lo + len fss)) (seg_entries lo fss).
Proof.
  induction fss as [|fs fss IH]; intros lo; cbn [seg_entries]; [constructor|].
  rewrite len_cons. apply Forall_app. split.
  - eapply entry_in_mono; [..|by apply entries_in]; zlia.
  - eapply entry_in_mono; [..|apply IH]; lia.
Qed.

Lemma entries_seqs idx fbs : forall off, map fi_seq (entries idx off fbs) = map frame_seq fbs.
Proof. induction fbs as [|fb fbs IH]; intros off; cbn; [done|]. by rewrite IH. Qed.

Lemma seg_entries_seqs fss : forall lo,
  map fi_seq (seg_entries lo fss) = map frame_seq (concat fss).
Proof.
  induction fss as [|fs fss IH]; intros lo; cbn [seg_entries concat]; [done|].
  by rewrite !map_app, entries_seqs, IH.
Qed.

Definition seg_le (a b : frameIndex) : Prop := fi_seg a <= fi_seg b.

Lemma StronglySorted_app_in lo mid hi l k :
  Forall (entry_in lo mid) l -> Forall (entry_in mid hi) k ->
  StronglySorted seg_le l -> StronglySorted seg_le k -> StronglySorted seg_le (l ++ k).
Proof.
  intros Hl Hk Hsl Hsk. induction Hsl as [|x l Hs IH Hx]; [done|].
  apply Forall_cons in Hl as [Hx' Hl]. cbn. constructor; [by apply IH|].
  apply Forall_app. split; [done|]. eapply Forall_impl; [exact Hk|].
  unfold entry_in, seg_le in *. lia.
Qed.

Lemma entries_segs_sorted idx fbs off : StronglySorted seg_le (entries idx off fbs).
Proof.
  revert off. induction fbs as [|fb fbs IH]; intros off; cbn [entries]; constructor; [apply IH|].
  generalize (off + (recordHeadLen + len fb)). clear. induction fbs as [|fb' fbs IH]; intros z;
    cbn [entries]; constructor; [unfold seg_le; cbn; lia|apply IH].
Qed.

Lemma seg_entries_segs_sorted fss : forall lo, StronglySorted seg_le (seg_entries lo fss).
Proof.
  induction fss as [|fs fss IH]; intros lo; cbn [seg_entries]; [constructor|].
  eapply (StronglySorted_app_in lo (lo + 1)); [|apply seg_entries_in|apply entries_segs_sorted|apply IH].
  by apply entries_in.
Qed.

Lemma sorted_before l :
  StronglySorted seg_le l -> StronglySorted Z.lt (map fi_seq l) -> StronglySorted fi_before l.
Proof.
  induction 1 as [|x l Hs IH Hx]; cbn [map]; [constructor|].
  intros [Hs' Hx']%StronglySorted_inv. constructor; [by apply IH|].
  rewrite Forall_map in Hx'. apply Forall_forall. intros y Hy.
  rewrite Forall_forall in Hx, Hx'. split; [by apply Hx|by apply Hx'].
Qed.

Lemma maxSeq_spec l : 0 <= maxSeq l /\ Forall (fun fi => fi_seq fi <= maxSeq l) l /\
  (maxSeq l = 0 \/ maxSeq l ∈ map fi_seq l).
Proof.
  assert (Hm : maxSeq l = foldl Z.max 0 (map fi_seq l)).
  { unfold maxSeq. generalize 0. induction l as [|x l IH]; intros z; [done|]. cbn. apply IH. }
  rewrite Hm. destruct (foldl_max_spec (map fi_seq l) 0) as (H1 & H2 & H3).
  split; [done|]. split; [|tauto]. by rewrite Forall_map in H3.
Qed.

(** The pending frames of the segments [(a ++ b) :: rest]. *)
Definition recovered_index (lo : Z) (a b : list bytes) (rest : list (list bytes)) : list frameIndex :=
  entries lo (len (layout a)) b ++ seg_entries (lo + 1) rest.

Lemma recovered_hold m lo a b rest :
  run_at m lo (map layout ((a ++ b) :: rest)) ->
  Forall2 (holds m) (recovered_index lo a b rest) (map frame_pair (b ++ concat rest)).
Proof.
  cbn [map]. intros [H0 Hr]%run_at_cons. rewrite map_app. apply Forall2_app.
  - apply (entries_hold m lo b (layout a) []). by rewrite app_nil_r, <- layout_app.
  - by apply seg_entries_hold.
Qed.

Lemma recovered_seqs lo a b rest :
  map fi_seq (recovered_index lo a b rest) = map frame_seq (b ++ concat rest).
Proof. unfold recovered_index. by rewrite !map_app, entries_seqs, seg_entries_seqs. Qed.

Lemma recovered_in lo a b rest :
  Forall (entry_in lo (lo + 1 + len rest)) (recovered_index lo a b rest).
Proof.
  unfold recovered_index. apply Forall_app. split.
  - eapply entry_in_mono; [..|apply (entries_in lo b (len (layout a)))]; try zlia; apply len_nonneg.
  - eapply entry_in_mono; [..|apply seg_entries_in]; lia.
Qed.

Lemma recovered_inv lo a b rest w :
  w_index w = recovered_index lo a b rest -> w_acked w = 0 -> SegStart (w_cp w) = lo ->
  w_curSeg w = lo + len rest -> is_u64 (NextSeq (w_cp w)) ->
  Forall (fun fi => fi_seq fi < NextSeq (w_cp w)) (w_index w) ->
  StronglySorted Z.lt (map frame_seq (b ++ concat rest)) -> index_inv w.
Proof.
  intros Hx Ha Hs Hc Hn Hlt Hsort.
  assert (Hp : pending w = w_index w) by (unfold pending; by rewrite Ha).
  split; rewrite ?Hp; try done.
  - rewrite Ha. zlia.
  - zlia.
  - apply Forall_forall. intros fi Hfi. rewrite Forall_forall in Hlt. specialize (Hlt fi Hfi).
    rewrite Hx in Hfi. pose proof (recovered_in lo a b rest) as Hin.
    rewrite Forall_forall in Hin. specialize (Hin fi Hfi). unfold entry_in, fi_ok in *. lia.
  - rewrite Hx. apply sorted_before; [|by rewrite recovered_seqs].
    unfold recovered_index. eapply (StronglySorted_app_in lo (lo + 1));
      [|apply seg_entries_in|apply entries_segs_sorted|apply seg_entries_segs_sorted].
    apply entries_in, len_nonneg.
Qed.

(** [scanSegments] over a run of segments that starts at or after [SegStart]. *)
Lemma scanSegments_calm torn a b rest lo s :
  (exists fb n, wf_frame fb /\ Z.of_nat n < recordHeadLen + HeaderSize /\ torn = take n (record fb)) ->
  faults s = [] -> w_index (wal s) = [] -> 0 <= SegStart (w_cp (wal s)) <= lo ->
  (if SegStart (w_cp (wal s)) =? lo then AckedBytes (w_cp (wal s)) = len (layout a) else a = []) ->
  Forall wf_frame (concat ((a ++ b) :: rest)) ->
  run_at (segs s) lo (seg_contents ((a ++ b) :: rest) torn) ->
  (forall i, SegStart (w_cp (wal s)) <= i -> is_Some (segs s !! i) <-> lo <= i < lo + 1 + len rest) ->
  exists m', scanSegments s =
    (Ok tt, set_wal (fun w => with_index (recovered_index lo a b rest) 0
      (with_cp (cp_Ack lo (len (layout a)) (w_cp w)) w)) (set_segs (fun _ => m') s)) /\
    run_at m' lo (map layout ((a ++ b) :: rest)) /\
    (forall i, is_Some (m' !! i) <-> lo <= i < lo + 1 + len rest).
Proof.
  intros Htorn Hf Hix Hst Hack Hwf Hrun Hdom. set (start := SegStart (w_cp (wal s))) in *.
  unfold scanSegments, bind at 1. rewrite sys_calm by done. unfold bind at 1, gets at 1.
  unfold bind at 1, gets at 1. fold start. unfold bind at 1. rewrite remove_stale_calm by done.
  
  set (m1 := foldl (fun m i => if i <? start then delete i m else m) (segs s) (idxList (segs s))).
  change (set_segs (fun m => foldl (fun m i => if i <? start then delete i m else m) m
    (idxList (segs s))) s) with (set_segs (fun _ => m1) s).
  pose proof (len_nonneg rest) as Hlr.
  assert (Hfil : filter (fun i => start <= i) (idxList (segs s)) = seqZ lo (len ((a ++ b) :: rest))).
  { apply idxList_filter; [|lia]. intros i Hi. rewrite len_cons. rewrite Hdom by done. lia. }
  unfold firstAlive. rewrite Hfil, seqZ_len_cons. cbn [head]. destruct (Z.ltb_spec lo 0); [lia|].
  set (s1 := set_segs (fun _ => m1) s).
  assert (H1 : run_at m1 lo (seg_contents ((a ++ b) :: rest) torn)).
  { intros k c Hk. unfold m1. rewrite stale_kept by lia. auto. }
  assert (Hout1 : forall i, start <= i -> m1 !! i = segs s !! i) by (intros; by apply stale_kept).
  assert (Hgone : forall i, i < start -> m1 !! i = None).
  { intros i Hi. apply stale_gone; [done|]. rewrite elem_of_idxList.
    destruct (segs s !! i) eqn:E; [left; eauto|by right]. }
  set (acked := if start =? lo then AckedBytes (w_cp (wal s)) else 0).
  assert (Hacked : acked = len (layout a)).
  { unfold acked. destruct (start =? lo); [done|]. by rewrite Hack. }
  set (s2 := set_wal (fun w => with_cp (cp_Ack lo acked (w_cp w)) w) s1).
  destruct (index_all torn lo acked Htorn a b rest lo s2) as (m' & E & Hr' & Ho');
    try done; [rewrite Z.eqb_refl; done|].
  exists m'. split; [|split; [done|]].
  - assert (Hs2 : (if start <? lo then modify (set_wal (fun w => with_cp (cp_Ack lo 0 (w_cp w)) w)) else ret tt) s1
      = (@Ok werr unit tt, s2)).
    { unfold s2, acked. destruct (Z.ltb_spec start lo), (Z.eqb_spec start lo); try lia; [done|].
      unfold s1, set_wal, set_segs. cbn. subst lo. unfold start. destruct s as [? ? ? ? ? ? [? ? [] ? ? ? ? ? ? ? ? ?]]. done. }
    unfold bind at 1. rewrite Hs2. unfold bind at 1, gets.
    change (SegStart (w_cp (wal s2))) with lo. change (AckedBytes (w_cp (wal s2))) with acked.
    unfold bind. rewrite index_segments_skip.
    assert (Hfil2 : filter (fun i => lo <= i) (idxList (segs s)) = seqZ lo (len ((a ++ b) :: rest))).
    { apply idxList_filter; [|lia]. intros i Hi. rewrite len_cons. rewrite Hdom by lia. lia. }
    rewrite Hfil2, E, <- Hacked. unfold modify, indexed, set_wal, set_segs, with_index; cbn. rewrite Hix.
    unfold recovered_index. by rewrite <- Hacked.
  - intros i. rewrite len_cons in Ho'. destruct (decide (lo <= i < lo + 1 + len rest)) as [Hi|Hi].
    + split; [done|]. intros _. unfold run_at in Hr'.
      destruct (lookup_lt_is_Some_2 (map layout ((a ++ b) :: rest)) (Z.to_nat (i - lo))) as [c Hc].
      { rewrite length_map. cbn [length]. unfold len in Hi. lia. }
      specialize (Hr' _ _ Hc). replace (lo + Z.of_nat (Z.to_nat (i - lo))) with i in Hr' by lia. eauto.
    + rewrite (Ho' i) by lia. split; [|done]. cbn. destruct (Z_lt_le_dec i start).
      * rewrite Hgone by done. by intros [? ?].
      * rewrite Hout1 by done. rewrite Hdom by done. done.
Qed.

(** What [loadCheckpoint] makes of the checkpoint file. *)
Definition read_ckpt (c : ckpt_file) : option (checkpoint * bool) :=
  match c with
  | CkMissing => Some (zero_checkpoint, false)
  | CkUnparsable => None
  | CkFile cp legacy => Some (cp, legacy)
  end.

Lemma loadCheckpoint_calm cp legacy s : faults s = [] -> read_ckpt (ckpt s) = Some (cp, legacy) ->
  loadCheckpoint s = (Ok (cp, legacy), s).
Proof.
  intros Hf Hc. unfold loadCheckpoint, bind. rewrite sys_calm by done. unfold gets.
  destruct (ckpt s); by inversion Hc.
Qed.

(** What a crash or a clean shutdown leaves on the disk: a checkpoint, if one was
    ever saved, and the segments from [lo] on holding the frames of [(a ++ b) :: rest], the last one
    ending with the first [n] bytes of a record; [a] is what the checkpoint says
    has been acknowledged. *)
Record on_disk (s : World) (cp : checkpoint) (legacy : bool) (lo : Z)
    (a b : list bytes) (rest : list (list bytes)) : Prop := {
  od_ckpt : read_ckpt (ckpt s) = Some (cp, legacy);
  od_start : 0 <= SegStart cp <= lo;
  od_acked : if SegStart cp =? lo then AckedBytes cp = len (layout a) else a = [];
  od_next : is_u64 (NextSeq cp);
  od_frames : Forall (fun fb => wf_frame fb /\ 0 <= frame_seq fb < 2 ^ 64 - 1)
                (concat ((a ++ b) :: rest));
  od_sorted : StronglySorted Z.lt (map frame_seq (b ++ concat rest));
  od_segs : exists fb n, wf_frame fb /\ Z.of_nat n < recordHeadLen + HeaderSize /\
    run_at (segs s) lo (seg_contents ((a ++ b) :: rest) (take n (record fb)));
  od_dom : forall i, SegStart cp <= i -> is_Some (segs s !! i) <-> lo <= i < lo + 1 + len rest }.

Lemma run_at_last m lo fs rest :
  run_at m lo (map layout (fs :: rest)) -> exists c, m !! (lo + len rest) = Some c.
Proof.
  intros Hr. destruct (lookup_lt_is_Some_2 (map layout (fs :: rest)) (length rest)) as [c Hc].
  { rewrite length_map. cbn. lia. }
  exists c. by apply Hr.
Qed.

Lemma with_index_seqs lo a b rest : Forall (fun fb => 0 <= frame_seq fb < 2 ^ 64 - 1) (b ++ concat rest) ->
  maxSeq (recovered_index lo a b rest) < 2 ^ 64 - 1.
Proof.
  intros H. destruct (maxSeq_spec (recovered_index lo a b rest)) as (H0 & _ & [->|Hin]); [lia|].
  rewrite recovered_seqs in Hin. apply list_elem_of_fmap in Hin as (fb & -> & Hfb).
  rewrite Forall_forall in H. by apply H.
Qed.

Lemma open_append_calm seg eo es c s :
  faults s = [] -> segs s !! seg = Some c -> open_append seg eo es s = (Ok (len c), s).
Proof.
  intros Hf Hs. destruct s as [sg ck df dm fl ft w]. cbn in Hf, Hs. subst ft.
  unfold open_append, sys, next_io, bind, gets, modify, ret, set_segs. cbn. by rewrite !Hs.
Qed.

(** The state a successful [Open] ends in. *)
Definition opened (segSize : Z) (cp : checkpoint) (legacy : bool) (lo acked next : Z)
    (fis : list frameIndex) (cur off : Z) : WAL :=
  mkWAL (if segSize <=? 0 then DefaultSegmentSize else segSize) DefaultDLQMaxSize
    (mkCP (CursorNs cp) next lo acked (BackfillNs cp)) fis 0 cur HOpen off true None false legacy.

(** [Open] up to the scan of the segments. *)
Lemma Open_prefix segSize s cp legacy :
  faults s = [] -> flocked s = false -> read_ckpt (ckpt s) = Some (cp, legacy) ->
  Open segSize s =
  (scanSegments ;;;
   modify (set_wal (fun w =>
     let next := u64 (maxSeq (w_index w) + 1) in
     if NextSeq (w_cp w) <? next then with_cp (cp_NextSeq next (w_cp w)) w else w)) ;;;
   w <- gets wal ;;
   curIdx <- lastSegmentIdx (SegStart (w_cp w)) ;;
   size <- open_append curIdx (ErrOpenSegment curIdx) (ErrStatSegment curIdx) ;;
   modify (set_wal (with_cur curIdx HOpen size)))
  (set_wal (fun _ => mkWAL (if segSize <=? 0 then DefaultSegmentSize else segSize) DefaultDLQMaxSize cp
     [] 0 0 HNil 0 true None false legacy) (set_flocked true s)).
Proof.
  intros Hf Hl Hc. unfold Open. unfold bind at 1. rewrite sys_calm by done. unfold bind at 1. rewrite sys_calm by done.
  unfold bind at 1, flock at 1, bind at 1, gets at 1. rewrite Hl. unfold modify at 1. unfold bind at 1.
  unfold modify at 1. unfold bind at 1. rewrite (loadCheckpoint_calm cp legacy) by done. done.
Qed.

(** Raising the next number over the recovered ones. *)
Lemma raise_next cp lo acked fis w : w_cp w = mkCP (CursorNs cp) (NextSeq cp) lo acked (BackfillNs cp) ->
  w_index w = fis -> maxSeq fis < 2 ^ 64 - 1 ->
  (let next := u64 (maxSeq (w_index w) + 1) in
   if NextSeq (w_cp w) <? next then with_cp (cp_NextSeq next (w_cp w)) w else w) =
  with_cp (mkCP (CursorNs cp) (Z.max (NextSeq cp) (maxSeq fis + 1)) lo acked (BackfillNs cp)) w.
Proof.
  intros Hw Hx Hm. destruct (maxSeq_spec fis) as (H0 & _). cbv zeta. rewrite Hx, Hw. cbn [NextSeq].
  rewrite u64_small by (unfold is_u64; lia). destruct (Z.ltb_spec (NextSeq cp) (maxSeq fis + 1)).
  - rewrite Z.max_r by lia. done.
  - rewrite Z.max_l by lia. rewrite <- Hw. by destruct w.
Qed.

Lemma on_disk_max s cp legacy lo a b rest : on_disk s cp legacy lo a b rest ->
  maxSeq (recovered_index lo a b rest) < 2 ^ 64 - 1.
Proof.
  intros [_ _ _ _ Hfr _ _ _]. apply with_index_seqs. cbn [concat] in Hfr. rewrite <- app_assoc in Hfr.
  apply Forall_app in Hfr as [_ Hfr]. eapply Forall_impl; [exact Hfr|]. by intros ? [].
Qed.

(** [Open] over what a crash left: the final state. *)
Lemma Open_state segSize s cp legacy lo a b rest :
  faults s = [] -> flocked s = false -> on_disk s cp legacy lo a b rest ->
  exists m' c, Open segSize s = (Ok tt,
      set_wal (fun _ => opened segSize cp legacy lo (len (layout a))
        (Z.max (NextSeq cp) (maxSeq (recovered_index lo a b rest) + 1))
        (recovered_index lo a b rest) (lo + len rest) (len c))
      (set_flocked true (set_segs (fun _ => m') s))) /\
    run_at m' lo (map layout ((a ++ b) :: rest)) /\ m' !! (lo + len rest) = Some c /\
    (forall i, is_Some (m' !! i) <-> lo <= i < lo + 1 + len rest).
Proof.
  intros Hf Hl Hod. pose proof (on_disk_max _ _ _ _ _ _ _ Hod) as Hmax.
  destruct Hod as [Hck Hst Hack Hnx Hfr Hsort (fb & n & Hfb & Hn & Hrun) Hdom].
  assert (Hwf : Forall wf_frame (concat ((a ++ b) :: rest)))
    by (eapply Forall_impl; [exact Hfr|]; by intros ? []).
  rewrite (Open_prefix segSize s cp legacy) by done.
  match goal with |- context [bind scanSegments _ ?s0] => set (s1 := s0) end.
  destruct (scanSegments_calm (take n (record fb)) a b rest lo s1) as (m' & E & Hr' & Hd');
    try done; [by eauto|].
  destruct (run_at_last _ _ _ _ Hr') as [c Hc]. exists m', c. split; [|by split].
  unfold bind at 1. rewrite E.
  set (s2 := set_wal (fun w => with_index (recovered_index lo a b rest) 0
    (with_cp (cp_Ack lo (len (layout a)) (w_cp w)) w)) (set_segs (fun _ => m') s1)).
  set (cp' := mkCP (CursorNs cp) (Z.max (NextSeq cp) (maxSeq (recovered_index lo a b rest) + 1)) lo
    (len (layout a)) (BackfillNs cp)).
  assert (E2 : set_wal (fun w => let next := u64 (maxSeq (w_index w) + 1) in
      if NextSeq (w_cp w) <? next then with_cp (cp_NextSeq next (w_cp w)) w else w) s2 =
    set_wal (with_cp cp') s2).
  { unfold set_wal. f_equal. by apply (raise_next cp). }
  unfold bind at 1, modify at 1. cbv beta zeta in E2 |- *. rewrite E2. unfold bind at 1, gets at 1. unfold bind at 1, lastSegmentIdx. unfold bind at 1.
  rewrite sys_calm by done. unfold bind at 1, gets at 1, ret at 1.
  change (SegStart (w_cp (wal (set_wal (with_cp cp') s2)))) with lo. change (segs (set_wal (with_cp cp') s2)) with m'.
  rewrite (last_index m' lo (1 + len rest)) by first [ lia | (pose proof (len_nonneg rest); lia) | (intros i; rewrite Hd'; lia) ].
  replace (lo + (1 + len rest) - 1) with (lo + len rest) by lia.
  unfold bind. rewrite (open_append_calm _ _ _ c) by done. done.
Qed.

(** C14: opening a log recovers what was pending: whatever the segment
    boundaries, with stale segments still present and with the last record torn
    before the end of its frame header, the log opens and represents exactly the
    frames not acknowledged by the checkpoint, in order; the next number is
    above every recovered one and never below the recorded one; the cursor is
    the recorded one, and the directory is locked. *)
Theorem Open_recovers segSize s cp legacy lo a b rest :
  faults s = [] -> flocked s = false -> on_disk s cp legacy lo a b rest ->
  exists s', Open segSize s = (Ok tt, s') /\ wal_inv (segs s') (wal s') /\
    represents (segs s') (wal s')
      (mkQueue (map frame_pair (b ++ concat rest))
        (Z.max (NextSeq cp) (maxSeq (recovered_index lo a b rest) + 1))) /\
    Cursor s' = CursorNs cp /\ flocked s' = true /\ calm s'.
Proof.
  intros Hf Hl Hod. destruct (Open_state segSize s cp legacy lo a b rest Hf Hl Hod) as (m' & c & E & Hr' & Hc & _).
  pose proof (on_disk_max _ _ _ _ _ _ _ Hod) as Hmax. destruct Hod as [_ _ _ Hnx _ Hsort _ _].
  destruct (maxSeq_spec (recovered_index lo a b rest)) as (H0 & Hle & _).
  eexists. split; [exact E|]. split; [split|split; [split|]].
  - apply (recovered_inv lo a b rest); try done.
    + unfold is_u64 in *. cbn -[Z.max recovered_index maxSeq]. lia.
    + eapply Forall_impl; [exact Hle|]. intros fi Hfi. cbn -[Z.max recovered_index maxSeq] in *. lia.
  - intros _. by exists c.
  - by apply recovered_hold.
  - done.
  - done.
Qed.

(** ** Witness *)

(** A directory whose checkpoint acknowledges the first of two frames in
    segment 0, with the record of a third cut after ten bytes. *)
Definition crashed : World :=
  mkWorld {[0 := layout [frame1; frame2] ++ take 10 (record frame1)]}
    (CkFile (mkCP 700 3 0 25 0) false) ∅ ∅ false [] (wal fresh).

Lemma crashed_on_disk : on_disk crashed (mkCP 700 3 0 25 0) false 0 [frame1] [frame2] [].
Proof.
  assert (H1 : 0 <= frame_seq frame1 < 2 ^ 64 - 1) by (by vm_compute).
  assert (H2 : 0 <= frame_seq frame2 < 2 ^ 64 - 1) by (by vm_compute).
  split.
  - reflexivity.
  - by vm_compute.
  - by vm_compute.
  - by vm_compute.
  - cbn [concat app]. repeat constructor; apply frame1_wf || apply frame2_wf || apply H1 || apply H2.
  - by repeat constructor.
  - exists frame1, 10%nat. split; [apply frame1_wf|]. split; [done|]. intros [|k] c Hk; by inversion Hk.
  - intros i _. cbn [segs crashed]. rewrite lookup_singleton_is_Some. change (len []) with 0. lia.
Qed.

Lemma Open_recovers_witness :
  exists s', Open 0 crashed = (Ok tt, s') /\ wal_inv (segs s') (wal s') /\
    represents (segs s') (wal s') (mkQueue [(2, frame2)] 3) /\
    Cursor s' = 700 /\ flocked s' = true /\ calm s'.
Proof.
  assert (E : mkQueue [(2, frame2)] 3 = mkQueue (map frame_pair ([frame2] ++ concat []))
    (Z.max (NextSeq (mkCP 700 3 0 25 0)) (maxSeq (recovered_index 0 [frame1] [frame2] []) + 1)))
    by (vm_compute; reflexivity).
  rewrite E. apply (Open_recovers 0 crashed (mkCP 700 3 0 25 0) false 0 [frame1] [frame2] []).
  - reflexivity.
  - reflexivity.
  - apply crashed_on_disk.
Defined.
