(* ===== verification/WalFiles.v ===== *)
(** * The names of the files of the log

    The rest of the development sees the segments of the directory as a map from
    their numbers ([segs]) and the dead letters as maps from theirs.  This file
    justifies it: the names the code prints can be read back, the loops of
    [scanSegments] and [lastSegmentIdx] over the entries of the directory find
    the numbers of that map, and a write to the file of one segment changes that
    segment only ([segPath], [parseSegIdx] of [internal/wal/wal.go], the file
    names of [writeDLQ] of [internal/wal/dlq.go]). *)
From S2P Require Import Prelude GoBytes WalDisk WalOpen.
Local Open Scope Z_scope.

(** ** Names *)

(** [fmt.Sprintf("%0wd", n)]: zeros after the sign. *)
Definition Sprintf_0d (w : nat) (n : Z) : bytes :=
  let ds := dec_digits 20 (Z.abs n) [] in
  if n <? 0 then 45 :: replicate (w - 1 - length ds) 48 ++ ds else replicate (w - length ds) 48 ++ ds.

(** The last element of [segPath]. *)
Definition segName (idx : Z) : bytes := lit "seg-" ++ Sprintf_0d 6 idx ++ lit ".log".

Definition TrimPrefix (l p : bytes) : bytes := if has_prefix p l then drop (length p) l else l.
Definition TrimSuffix (l p : bytes) : bytes := if has_suffix p l then take (length l - length p) l else l.

Definition parseSegIdx (name : bytes) : option Z :=
  if negb (has_prefix (lit "seg-") name) || negb (has_suffix (lit ".log") name) then None
  else ParseInt (TrimSuffix (TrimPrefix name (lit "seg-")) (lit ".log")).

(** The two files of a dead letter. *)
Definition dlq_frame_name (seq : Z) : bytes := lit "seq-" ++ Sprintf_0d 20 seq ++ lit ".frame".
Definition dlq_meta_name (seq : Z) : bytes := lit "seq-" ++ Sprintf_0d 20 seq ++ lit ".txt".

(** ** The loops over the directory *)

(** An entry of [os.ReadDir]: its name and [IsDir]. *)
Record dirent := mkEntry { de_name : bytes; de_dir : bool }.

(** [segs] of [scanSegments]: the number of each segment and the file. *)
Definition scan_names (es : list dirent) : gmap Z bytes :=
  foldl (fun m e => if de_dir e then m else
    match parseSegIdx (de_name e) with Some idx => <[idx := de_name e]> m | None => m end) ∅ es.

(** [last] and [found] of [lastSegmentIdx]; directories are not passed over. *)
Definition last_entry (start : Z) (es : list dirent) : Z * bool :=
  foldl (fun lf e => match parseSegIdx (de_name e) with
    | Some idx => if negb (snd lf) || (fst lf <? idx) then (idx, true) else lf
    | None => lf
    end) (start, false) es.

Definition last_number (start : Z) (es : list dirent) : Z :=
  let lf := last_entry start es in
  Z.max 0 (if snd lf then fst lf else start).

(** [DiskUsage] over the sizes of the regular files. *)
Definition DiskUsage (d : gmap bytes bytes) : Z := map_fold (fun _ c n => n + len c) 0 d.

(** ** Reading a name back *)

Lemma padded_digits w n : 0 <= n < 2 ^ 64 ->
  Sprintf_0d w n <> [] /\ forallb is_digit (Sprintf_0d w n) = true /\ digits_value 0 (Sprintf_0d w n) = n.
Proof.
  intros Hn. unfold Sprintf_0d. destruct (Z.ltb_spec n 0); [lia|]. rewrite Z.abs_eq by lia.
  set (ds := dec_digits 20 n []). set (k := (w - length ds)%nat).
  assert (Hv : digits_value 0 ds = n).
  { apply dec_digits_value; [|lia]. change (10 ^ Z.of_nat 20) with 100000000000000000000. lia. }
  assert (Hd : forallb is_digit ds = true) by by apply dec_digits_digits.
  assert (He : ds <> []) by (apply dec_digits_nonempty; right; lia). clearbody ds k. split; [|split].
  - by destruct k, ds.
  - rewrite forallb_app, Hd, andb_true_r. by induction k.
  - rewrite <- Hv. induction k as [|k IH]; [done|]. exact IH.
Qed.

Lemma ParseInt_digits ds : ds <> [] -> forallb is_digit ds = true -> ParseInt ds = in_i64 (digits_value 0 ds).
Proof.
  intros He Hd. destruct ds as [|b ds]; [done|]. unfold ParseInt.
  rewrite sign_split_digit by by cbn in Hd; apply andb_prop in Hd as [-> _]. by rewrite Hd, Z.mul_1_l.
Qed.

Lemma TrimPrefix_app p l : TrimPrefix (p ++ l) p = l.
Proof. unfold TrimPrefix. by rewrite has_prefix_app, drop_app_length. Qed.

Lemma TrimSuffix_app l p : TrimSuffix (l ++ p) p = l.
Proof.
  unfold TrimSuffix. rewrite has_suffix_app, length_app.
  replace (length l + length p - length p)%nat with (length l) by lia. apply take_app_length.
Qed.

Definition is_number (i : Z) : Prop := 0 <= i < 2 ^ 63.

Lemma parse_segName i : is_number i -> parseSegIdx (segName i) = Some i.
Proof.
  intros Hi. destruct (padded_digits 6 i) as (He & Hd & Hv); [unfold is_number in Hi; lia|].
  unfold parseSegIdx, segName. rewrite has_prefix_app, app_assoc, has_suffix_app. cbn [negb orb].
  rewrite <- app_assoc, TrimPrefix_app, TrimSuffix_app, ParseInt_digits, Hv by done.
  apply in_i64_some. unfold is_number, is_i64 in *. lia.
Qed.

Lemma segName_inj i j : is_number i -> is_number j -> segName i = segName j -> i = j.
Proof. intros Hi Hj E. apply parse_segName in Hi, Hj. rewrite E in Hi. congruence. Qed.

Lemma dlq_names_inj i j : is_u64 i -> is_u64 j ->
  (dlq_frame_name i = dlq_frame_name j -> i = j) /\ (dlq_meta_name i = dlq_meta_name j -> i = j) /\
  dlq_frame_name i <> dlq_meta_name j.
Proof.
  intros Hi Hj. unfold dlq_frame_name, dlq_meta_name.
  destruct (padded_digits 20 i) as (_ & _ & Hvi); [done|]. destruct (padded_digits 20 j) as (_ & _ & Hvj); [done|].
  split; [|split].
  - intros E%(app_inv_head (lit "seq-"))%app_inv_tail. congruence.
  - intros E%(app_inv_head (lit "seq-"))%app_inv_tail. congruence.
  - intros E%(f_equal (fun l => List.hd 0 (rev l))). rewrite !rev_app_distr in E. done.
Qed.

(** ** The directory and its segments *)

(** The entries list the files [d], whose segments are [m]: every file that
    [parseSegIdx] takes for a segment has the name the code gives it. The
    directories among the entries are not constrained. *)
Record mirrors (es : list dirent) (d : gmap bytes bytes) (m : gmap Z bytes) : Prop := {
  mi_files : forall n, mkEntry n false ∈ es <-> is_Some (d !! n);
  mi_named : forall n i, is_Some (d !! n) -> parseSegIdx n = Some i -> 0 <= i /\ n = segName i;
  mi_segs : forall i, is_number i -> d !! segName i = m !! i;
  mi_range : forall i, is_Some (m !! i) -> is_number i }.

Lemma parse_range n i : parseSegIdx n = Some i -> is_i64 i.
Proof.
  unfold parseSegIdx. destruct (negb _ || _); [done|]. unfold ParseInt. destruct (sign_split _) as [sg ds].
  destruct ds as [|b ds]; [done|]. destruct (forallb _ _); [|done]. generalize (sg * digits_value 0 (b :: ds)). intros x.
  unfold in_i64, is_i64. destruct (Z.leb_spec (- 2 ^ 63) x), (Z.ltb_spec x (2 ^ 63)); cbn [andb]; [|done..].
  intros [= <-]. lia.
Qed.

(** The entries that are segments. *)
Lemma mirrors_segments es d m : mirrors es d m -> forall i,
  is_Some (m !! i) <-> exists e, e ∈ es /\ de_dir e = false /\ parseSegIdx (de_name e) = Some i.
Proof.
  intros [H1 H3 H4 H5] i. split.
  - intros Hi. pose proof (H5 i Hi) as Hr. rewrite <- H4 in Hi by done. exists (mkEntry (segName i) false).
    split; [by apply H1|]. split; [done|]. by apply parse_segName.
  - intros ([n b] & He & Hb & Hp). cbn in Hb, Hp. subst b. apply H1 in He. destruct (H3 n i He Hp) as [H0 ->].
    rewrite <- H4; [done|]. apply parse_range in Hp. unfold is_number, is_i64 in *. lia.
Qed.

(** No directory has a name that passes for a segment. *)
Definition no_segment_dirs (es : list dirent) : Prop := forall n, mkEntry n true ∈ es -> parseSegIdx n = None.

(** *** What the scan finds *)

Lemma scan_names_snoc es e : scan_names (es ++ [e]) =
  if de_dir e then scan_names es else
  match parseSegIdx (de_name e) with Some idx => <[idx := de_name e]> (scan_names es) | None => scan_names es end.
Proof. unfold scan_names. by rewrite foldl_app. Qed.

Lemma elem_of_snoc {A} (x y : A) l : x ∈ l ++ [y] <-> x ∈ l \/ x = y.
Proof. by rewrite elem_of_app, list_elem_of_singleton. Qed.

Lemma scan_names_elem es i n : scan_names es !! i = Some n -> mkEntry n false ∈ es /\ parseSegIdx n = Some i.
Proof.
  induction es as [|e es IH] using rev_ind; [done|]. rewrite scan_names_snoc, elem_of_snoc.
  assert (Hold : scan_names es !! i = Some n -> (mkEntry n false ∈ es \/ mkEntry n false = e) /\ parseSegIdx n = Some i)
    by (intros H%IH; destruct H; auto).
  destruct e as [n' []]; cbn [de_dir de_name]; [done|]. destruct (parseSegIdx n') as [j|] eqn:Ej; [|done].
  destruct (decide (i = j)) as [->|Hne]; [|by rewrite lookup_insert_ne].
  rewrite lookup_insert_eq. intros [= ->]. by split; [right|].
Qed.

Lemma scan_names_found es i : is_Some (scan_names es !! i) <->
  exists e, e ∈ es /\ de_dir e = false /\ parseSegIdx (de_name e) = Some i.
Proof.
  split; [intros [n [Hn Hp]%scan_names_elem]; by exists (mkEntry n false)|].
  intros (e & He & Hd & Hp). induction es as [|e' es IH] using rev_ind; [by apply elem_of_nil in He|].
  rewrite scan_names_snoc. apply elem_of_snoc in He as [He| ->].
  - specialize (IH He). destruct (de_dir e'); [done|]. destruct (parseSegIdx (de_name e')) as [j|]; [|done].
    rewrite lookup_insert_is_Some. destruct (decide (j = i)); auto.
  - rewrite Hd, Hp. by rewrite lookup_insert_eq.
Qed.

Lemma idxList_same_keys (m m' : gmap Z bytes) : (forall i, is_Some (m !! i) <-> is_Some (m' !! i)) -> idxList m = idxList m'.
Proof.
  intros H. unfold idxList. assert (dom m = dom m') as ->; [|done].
  apply set_eq. intros i. rewrite !elem_of_dom. apply H.
Qed.

Lemma last_entry_snoc start es e : last_entry start (es ++ [e]) =
  match parseSegIdx (de_name e) with
  | Some idx => if negb (snd (last_entry start es)) || (fst (last_entry start es) <? idx) then (idx, true) else last_entry start es
  | None => last_entry start es
  end.
Proof. unfold last_entry. by rewrite foldl_app. Qed.

(** The number found is the greatest one. *)
Lemma last_entry_max start es : let (last, found) := last_entry start es in
  (if found then exists e, e ∈ es /\ parseSegIdx (de_name e) = Some last else last = start) /\
  forall e i, e ∈ es -> parseSegIdx (de_name e) = Some i -> found = true /\ i <= last.
Proof.
  induction es as [|e es IH] using rev_ind; [cbn; split; [done|]; intros e i He; by apply elem_of_nil in He|].
  rewrite last_entry_snoc. destruct (last_entry start es) as [last found]. destruct IH as [IH1 IH2]. cbn [fst snd].
  assert (Hone : forall e', e' ∈ es ++ [e] <-> e' ∈ es \/ e' = e) by (intros e'; apply elem_of_snoc).
  destruct (parseSegIdx (de_name e)) as [idx|] eqn:Ei.
  - destruct (negb found || (last <? idx)) eqn:Eb.
    + split; [exists e; rewrite Hone; auto|]. intros e' i Hin Hi. split; [done|].
      apply Hone in Hin as [He'| ->]; [|by simplify_eq]. destruct (IH2 e' i He' Hi) as [-> Hle]. cbn in Eb.
      apply Z.ltb_lt in Eb. lia.
    + apply orb_false_iff in Eb as [->%negb_false_iff Hlt%Z.ltb_ge].
      split; [destruct IH1 as (e' & He' & Hi); exists e'; rewrite Hone; auto|].
      intros e' i Hin Hi. split; [done|]. apply Hone in Hin as [He'| ->]; [by eapply IH2|by simplify_eq].
  - split; [destruct found; [destruct IH1 as (e' & He' & Hi); exists e'; rewrite Hone; auto|done]|].
    intros e' i Hin Hi. apply Hone in Hin as [He'| ->]; [by apply (IH2 e')|congruence].
Qed.

Lemma last_number_max es d m start : mirrors es d m -> no_segment_dirs es ->
  last_number start es = Z.max 0 (match idxList m with [] => start | i :: l => foldl Z.max i l end).
Proof.
  intros Hm Hno. unfold last_number. pose proof (last_entry_max start es) as H. destruct (last_entry start es) as [last found].
  destruct H as [H1 H2]. cbn [fst snd]. f_equal.
  assert (Hin : forall i, i ∈ idxList m <-> exists e, e ∈ es /\ de_dir e = false /\ parseSegIdx (de_name e) = Some i)
    by (intros i; rewrite elem_of_idxList; by apply (mirrors_segments es d m)).
  assert (Hdir : forall e i, e ∈ es -> parseSegIdx (de_name e) = Some i -> i ∈ idxList m).
  { intros e i He Hp. apply Hin. exists e. split; [done|]. split; [|done]. destruct e as [n [|]]; [|done].
    cbn in Hp. by rewrite (Hno n He) in Hp. }
  destruct found.
  - destruct H1 as (e & He & Hp). pose proof (Hdir e last He Hp) as Hl.
    destruct (idxList m) as [|i l]; [by apply elem_of_nil in Hl|]. destruct (foldl_max_spec l i) as (Hf & Hi & Hle).
    apply Z.le_antisymm.
    + apply elem_of_cons in Hl as [->|Hl]; [done|]. rewrite Forall_forall in Hle. by apply Hle.
    + assert (Hmax : foldl Z.max i l ∈ i :: l) by (apply elem_of_cons; destruct Hf; auto).
      apply Hin in Hmax as (e' & He' & _ & Hp'). by apply (H2 e').
  - destruct (idxList m) as [|i l]; [done|]. destruct (proj1 (Hin i)) as (e & He & _ & Hp); [apply elem_of_cons; by left|].
    by destruct (H2 e i He Hp).
Qed.

(** Whatever the directories are, the number found is not below a segment's. *)
Lemma last_number_above es d m start i : mirrors es d m -> is_Some (m !! i) -> i <= last_number start es.
Proof.
  intros Hm Hi. apply (mirrors_segments es d m Hm) in Hi as (e & He & _ & Hp). unfold last_number.
  pose proof (last_entry_max start es) as H. destruct (last_entry start es) as [last found]. destruct H as [_ H].
  destruct (H e i He Hp) as [-> Hle]. cbn [fst snd]. etransitivity; [exact Hle|apply Z.le_max_r].
Qed.

(** *** What a write changes *)

(** [es'] lists the files [d']. *)
Definition relisted (es' : list dirent) (d' : gmap bytes bytes) : Prop := forall n, mkEntry n false ∈ es' <-> is_Some (d' !! n).

(** Another kind of file, such as the checkpoint, is not a segment. *)
Lemma mirrors_other es es' d m n o : mirrors es d m -> parseSegIdx n = None ->
  relisted es' (partial_alter (fun _ => o) n d) -> mirrors es' (partial_alter (fun _ => o) n d) m.
Proof.
  intros [H1 H3 H4 H5] Hn Hf. split; [done| | |done].
  - intros n' i Hn' Hp. destruct (decide (n = n')) as [<-|]; [congruence|]. rewrite lookup_partial_alter_ne in Hn' by done. by apply H3.
  - intros i Hi. rewrite <- H4 by done. apply lookup_partial_alter_ne. intros ->. by rewrite parse_segName in Hn.
Qed.

(** Creating, writing, truncating or removing the file of one segment does
    that to its entry in the map of the segments, and to no other. *)
Lemma mirrors_write es es' d m i o : mirrors es d m -> is_number i ->
  relisted es' (partial_alter (fun _ => o) (segName i) d) ->
  mirrors es' (partial_alter (fun _ => o) (segName i) d) (partial_alter (fun _ => o) i m).
Proof.
  intros [H1 H3 H4 H5] Hi Hf. split; [done| | |].
  - intros n j Hn Hp. destruct (decide (segName i = n)) as [<-|Hne].
    + rewrite parse_segName in Hp by done. injection Hp as <-. split; [apply Hi|done].
    + rewrite lookup_partial_alter_ne in Hn by done. by apply H3.
  - intros j Hj. destruct (decide (i = j)) as [<-|Hne]; [by rewrite !lookup_partial_alter_eq|].
    rewrite !lookup_partial_alter_ne; [by apply H4|done|]. intros E. by apply segName_inj in E.
  - intros j Hj. destruct (decide (i = j)) as [<-|Hne]; [done|]. rewrite lookup_partial_alter_ne in Hj by done. by apply H5.
Qed.

(** The entries of a directory, in any order. *)
Definition entries_of (dirs : list bytes) (d : gmap bytes bytes) : list dirent :=
  map (fun n => mkEntry n true) dirs ++ map (fun p : bytes * bytes => mkEntry p.1 false) (map_to_list d).

Lemma entries_of_file dirs d n : mkEntry n false ∈ entries_of dirs d <-> is_Some (d !! n).
Proof.
  unfold entries_of. rewrite elem_of_app. split.
  - intros [H|H]; apply list_elem_of_fmap in H; [by destruct H as (? & [=] & _)|].
    destruct H as ([n' c] & [= ->] & H). apply elem_of_map_to_list in H. by exists c.
  - intros [c H]. right. apply list_elem_of_fmap. exists (n, c). by rewrite elem_of_map_to_list.
Qed.

Lemma entries_of_dir dirs d n : mkEntry n true ∈ entries_of dirs d <-> n ∈ dirs.
Proof.
  unfold entries_of. rewrite elem_of_app. split.
  - intros [H|H]; apply list_elem_of_fmap in H; [by destruct H as (? & [= <-] & ?)|by destruct H as (? & [=] & _)].
  - intros H. left. by apply (list_elem_of_fmap_2 (fun n => mkEntry n true)).
Qed.

Lemma entries_relisted dirs d : relisted (entries_of dirs d) d.
Proof. intros n. apply entries_of_file. Qed.

Lemma mirrors_empty dirs : mirrors (entries_of dirs ∅) ∅ ∅.
Proof. split; [intros n; apply entries_of_file|by intros ? ? [? ?]|done|by intros ? [? ?]]. Qed.

Lemma DiskUsage_file (d : gmap bytes bytes) n c : d !! n = None -> DiskUsage (<[n := c]> d) = DiskUsage d + len c.
Proof. intros H. unfold DiskUsage. rewrite map_fold_insert_L; [done|intros; lia|done]. Qed.

(** The usage of the disk follows the file that is written. *)
Lemma DiskUsage_write (d : gmap bytes bytes) n c c' : d !! n = Some c ->
  DiskUsage (<[n := c']> d) = DiskUsage d + (len c' - len c).
Proof.
  intros H. rewrite <- (insert_delete_id d n c) at 2 by done. rewrite <- insert_delete_eq.
  rewrite !DiskUsage_file by apply lookup_delete_eq. lia.
Qed.

(** C37: the log may see its directory as a map from numbers to segments. When
    every file that passes for a segment has the name the code gives to a number,
    the
    loop of [scanSegments] finds the numbers of the segments, each with its own
    file and in order, whatever directories stand among the files, even ones
    named like a segment. The number [lastSegmentIdx] finds is then never below
    a segment's; it is the greatest, as the model of [Open] takes it to be, when
    no directory has a name that passes for a segment ([lastSegmentIdx] has no
    [IsDir] guard, so one that does counts). *)
Theorem scan_finds_segments es d m start : mirrors es d m ->
  idxList (scan_names es) = idxList m /\
  (forall i n, scan_names es !! i = Some n -> n = segName i /\ d !! n = m !! i) /\
  (forall i, is_Some (m !! i) -> i <= last_number start es) /\
  (no_segment_dirs es -> last_number start es = Z.max 0 (match idxList m with [] => start | i :: l => foldl Z.max i l end)).
Proof.
  intros Hm. split; [|split; [|split; [intros i; by eapply last_number_above|by eapply last_number_max]]].
  - apply idxList_same_keys. intros i. by rewrite scan_names_found, (mirrors_segments es d m).
  - intros i n [Hn Hp]%scan_names_elem. apply (mi_files _ _ _ Hm) in Hn as Hd.
    destruct (mi_named _ _ _ Hm n i Hd Hp) as [H0 ->]. split; [done|]. apply (mi_segs _ _ _ Hm).
    apply parse_range in Hp. unfold is_number, is_i64 in *. lia.
Qed.

(** ** Witness *)

(** The directory of a log: two segments, the checkpoint, the lock; the
    directory of the file system, or one named like a segment. *)
Definition some_segs : gmap Z bytes := <[4 := [7]]> (<[3 := [1; 2]]> ∅).
Definition some_files : gmap bytes bytes :=
  <[lit ".lock" := []]> (<[lit "checkpoint" := [5]]> (<[segName 4 := [7]]> (<[segName 3 := [1; 2]]> ∅))).
Definition some_entries : list dirent := entries_of [lit "lost+found"] some_files.
Definition odd_entries : list dirent := entries_of [segName 9] some_files.

Lemma some_mirrors dirs : mirrors (entries_of dirs some_files) some_files some_segs.
Proof.
  unfold some_files, some_segs.
  eapply (mirrors_other (entries_of dirs _)); [|vm_compute; reflexivity|apply entries_relisted].
  eapply (mirrors_other (entries_of dirs _)); [|vm_compute; reflexivity|apply entries_relisted].
  eapply (mirrors_write (entries_of dirs _)); [|done|apply entries_relisted].
  eapply (mirrors_write (entries_of dirs _)); [|done|apply entries_relisted].
  apply mirrors_empty.
Qed.

Lemma some_entries_dirs : no_segment_dirs some_entries.
Proof. intros n Hn. apply entries_of_dir, list_elem_of_singleton in Hn as ->. vm_compute. reflexivity. Qed.

Lemma scan_finds_segments_witness :
  idxList (scan_names some_entries) = [3; 4] /\ last_number 0 some_entries = 4 /\
  idxList (scan_names odd_entries) = [3; 4] /\ 4 <= last_number 0 odd_entries /\
  (forall i n, scan_names odd_entries !! i = Some n -> n = segName i /\ some_files !! n = some_segs !! i).
Proof.
  destruct (scan_finds_segments some_entries some_files some_segs 0 (some_mirrors _)) as (H1 & _ & _ & H4).
  destruct (scan_finds_segments odd_entries some_files some_segs 0 (some_mirrors _)) as (H1' & H2' & H3' & _).
  rewrite H1, H1', (H4 some_entries_dirs). split; [vm_compute; reflexivity|]. split; [vm_compute; reflexivity|].
  split; [vm_compute; reflexivity|]. split; [|exact H2']. apply H3'. eexists. vm_compute. reflexivity.
Defined.

Example segName_text : segName 3 = lit "seg-000003.log" /\ segName 1234567 = lit "seg-1234567.log".
Proof. vm_compute. split; reflexivity. Qed.

(** A stray file under another spelling of a number takes the place of the
    segment: the scan indexes the frames of the stray file, which the reads and
    the writes, by [segPath], then look for in the segment. *)
Example stray_name_hides_segment :
  scan_names [mkEntry (segName 7) false; mkEntry (lit "seg-7.log") false] !! 7 = Some (lit "seg-7.log") /\
  parseSegIdx (lit "seg-+7.log") = Some 7 /\ parseSegIdx (lit "seg-7.log.bak") = None.
Proof. vm_compute. repeat split; reflexivity. Qed.

(** A directory whose name passes for a segment is not one for [scanSegments]
    and is one for [lastSegmentIdx]. *)
Example directory_counts_as_last :
  let es := [mkEntry (segName 1) false; mkEntry (segName 9) true] in
  idxList (scan_names es) = [1] /\ last_number 0 es = 9.
Proof. vm_compute. split; reflexivity. Qed.
