(* ===== verification/WalDurable.v ===== *)
(** * What the operations of the log leave on the disk

    Any operation may be cut short by the death of the process, at any of its
    system calls; what is on the disk then is what the operation leaves when
    that call fails.  The invariant of an open log ([stands]) describes the
    segments, the checkpoint and the write position together; every operation
    either preserves it or leaves a directory that still holds the queue
    ([survives]). *)
From S2P Require Import Prelude Protocol WalDisk WalScan Wal WalQueue WalCommit WalCalm WalOpen.
Local Open Scope Z_scope.
Local Open Scope go_scope.

(** ** What the disk holds *)

Definition first (fss : list (list bytes)) : list bytes := List.hd [] fss.

(** Less than a record's head and a frame's header. *)
Definition torn_tail (torn : bytes) : Prop :=
  exists fb n, wf_frame fb /\ Z.of_nat n < recordHeadLen + HeaderSize /\ torn = take n (record fb).

Definition frame_ok (fb : bytes) : Prop := wf_frame fb /\ 0 <= frame_seq fb < 2 ^ 64 - 1.

(** The segments from [lo] on hold the frames [fss], the last one followed by [torn]. *)
Record disk (lo : Z) (fss : list (list bytes)) (torn : bytes) (s : World) : Prop := {
  dk_lo : 0 <= lo;
  dk_torn : torn_tail torn;
  dk_run : run_at (segs s) lo (seg_contents fss torn);
  dk_dom : forall i, is_Some (segs s !! i) <-> lo <= i < lo + len fss;
  dk_frames : Forall frame_ok (concat fss);
  dk_sorted : StronglySorted Z.lt (map frame_seq (concat fss)) }.

(** A checkpoint that acknowledges the first [j] frames of the run. *)
Record acks (cp : checkpoint) (lo : Z) (fss : list (list bytes)) (j : nat) : Prop := {
  ak_start : 0 <= SegStart cp <= lo;
  ak_next : is_u64 (NextSeq cp);
  ak_len : (j <= length (first fss))%nat;
  ak_bytes : if SegStart cp =? lo then AckedBytes cp = len (layout (take j (first fss))) else j = 0%nat;
  ak_below : Forall (fun fb => frame_seq fb < NextSeq cp) (take j (first fss)) }.

(** The checkpoint file acknowledges no more than the first [k] frames. *)
Definition ckpt_ok (lo : Z) (fss : list (list bytes)) (k : nat) (s : World) : Prop :=
  exists cp legacy j, read_ckpt (ckpt s) = Some (cp, legacy) /\ acks cp lo fss j /\ (j <= k)%nat.

(** ** What the process holds *)

(** An index entry without its frame type, which recovery reads from the frame. *)
Definition untyped (fi : frameIndex) : frameIndex :=
  mkFI (fi_seg fi) (fi_offset fi) (fi_length fi) (fi_seq fi) 0.

(** The write position: no file while there is no segment, else the end of the last one. *)
Definition at_end (lo : Z) (fss : list (list bytes)) (w : WAL) : Prop :=
  (fss = [] /\ w_curFile w = HNil /\ w_curSeg w = lo) \/
  (exists fss0 fs, fss = fss0 ++ [fs] /\ w_curFile w = HOpen /\ w_curSeg w = lo + len fss0 /\
     w_curOffset w = len (layout fs)).

(** The first [k] frames on the disk have been acknowledged, the others are the queue. *)
Record live (lo : Z) (fss : list (list bytes)) (k : nat) (q : queue) (w : WAL) : Prop := {
  lv_index : 0 <= w_acked w <= len (w_index w);
  lv_k : (k <= length (concat fss))%nat;
  lv_entries : map untyped (pending w) = map untyped (drop k (seg_entries lo fss));
  lv_queue : q_frames q = map frame_pair (drop k (concat fss));
  lv_next : NextSeq (w_cp w) = q_next q;
  lv_u64 : is_u64 (q_next q);
  lv_below : Forall (fun fb => frame_seq fb < q_next q) (concat fss);
  lv_start : SegStart (w_cp w) = lo;
  lv_end : at_end lo fss w }.

Definition durable (lo : Z) (fss : list (list bytes)) (k : nat) (q : queue) (s : World) : Prop :=
  disk lo fss [] s /\ live lo fss k q (wal s).

(** The checkpoint in memory acknowledges no more than the first [k] frames. *)
Definition mem_acks (lo : Z) (fss : list (list bytes)) (k : nat) (w : WAL) : Prop :=
  exists j, acks (w_cp w) lo fss j /\ (j <= k)%nat.

(** Since the log was opened no checkpoint has been saved, and the one on the
    disk contradicts the one in memory about a segment that was created anew
    under an old number. *)
Definition hazard (s : World) : bool :=
  match w_lastCp (wal s), read_ckpt (ckpt s) with
  | None, Some (cp, _) =>
      (SegStart cp =? SegStart (w_cp (wal s))) && negb (AckedBytes cp =? AckedBytes (w_cp (wal s)))
  | _, _ => false
  end.

(** ** The two summaries *)

(** If the process dies now, the frames [fs] are recovered, and before them
    only frames that end the history [d] of acknowledged ones. *)
Definition survives (d fs : list (Z * bytes)) (s : World) : Prop :=
  exists lo fss k torn, disk lo fss torn s /\ ckpt_ok lo fss k s /\
    map frame_pair (drop k (concat fss)) = fs /\
    map frame_pair (take k (concat fss)) `suffix_of` d.

(** The log is open, its queue is [q], and it has acknowledged [d]. *)
Record stands_at (d : list (Z * bytes)) (q : queue) (lo : Z) (fss : list (list bytes)) (k : nat)
    (s : World) : Prop := {
  st_disk : disk lo fss [] s;
  st_live : live lo fss k q (wal s);
  st_mem : mem_acks lo fss k (wal s);
  st_ckpt : hazard s = false -> ckpt_ok lo fss k s;
  st_done : map frame_pair (take k (concat fss)) `suffix_of` d }.

Definition stands (d : list (Z * bytes)) (q : queue) (s : World) : Prop :=
  exists lo fss k, stands_at d q lo fss k s.

(** ** Runs of segments *)

Lemma torn_nil : torn_tail [].
Proof. exists frame1, 0%nat. split; [apply frame1_wf|]. by split. Qed.

Lemma seg_contents_snoc fss fs torn :
  seg_contents (fss ++ [fs]) torn = map layout fss ++ [layout fs ++ torn].
Proof.
  induction fss as [|f fss IH]; [done|]. cbn [app map]. rewrite <- IH.
  destruct (fss ++ [fs]) as [|g l] eqn:E; [by destruct fss|done].
Qed.

Lemma seg_contents_whole fss : seg_contents fss [] = map layout fss.
Proof.
  destruct fss as [|fs fss _] using rev_ind; [done|]. by rewrite seg_contents_snoc, map_app, app_nil_r.
Qed.

Lemma run_at_snoc m lo cs c :
  run_at m lo (cs ++ [c]) <-> run_at m lo cs /\ m !! (lo + len cs) = Some c.
Proof.
  unfold run_at. split.
  - intros H. split.
    + intros k c' Hk. apply H. by apply lookup_app_l_Some.
    + apply (H (length cs)). by rewrite list_lookup_middle.
  - intros [H Hc] k c'. rewrite lookup_app_Some. intros [Hk|[Hge Hk]]; [by apply H|].
    apply list_lookup_singleton_Some in Hk as [Hk <-]. replace k with (length cs) by lia. exact Hc.
Qed.

Lemma run_at_ext m m' lo cs :
  (forall i, lo <= i < lo + len cs -> m' !! i = m !! i) -> run_at m lo cs -> run_at m' lo cs.
Proof.
  intros Hm H k c Hk. rewrite Hm; [by apply H|]. apply lookup_lt_Some in Hk. unfold len. lia.
Qed.

Lemma concat_snoc {A} (l : list (list A)) x : concat (l ++ [x]) = concat l ++ x.
Proof. rewrite concat_app. cbn. by rewrite app_nil_r. Qed.

Lemma length_entries idx fbs : forall off, length (entries idx off fbs) = length fbs.
Proof. induction fbs as [|fb fbs IH]; intros off; cbn; [done|]. by rewrite IH. Qed.

Lemma length_seg_entries fss : forall lo, length (seg_entries lo fss) = length (concat fss).
Proof.
  induction fss as [|fs fss IH]; intros lo; cbn [seg_entries concat]; [done|].
  by rewrite !length_app, length_entries, IH.
Qed.

Lemma seg_entries_app a : forall lo b, seg_entries lo (a ++ b) = seg_entries lo a ++ seg_entries (lo + len a) b.
Proof.
  induction a as [|fs a IH]; intros lo b; cbn [app seg_entries]; [by rewrite Z.add_0_r|].
  rewrite IH, <- app_assoc, len_cons. do 3 f_equal. lia.
Qed.

(** The entry of a frame added to the last segment. *)
Lemma seg_entries_push lo fss fs fb :
  seg_entries lo (fss ++ [fs ++ [fb]]) = seg_entries lo (fss ++ [fs]) ++
    [mkFI (lo + len fss) (len (layout fs)) (len fb) (frame_seq fb) (frame_typ fb)].
Proof.
  rewrite !seg_entries_app. cbn [seg_entries]. rewrite !app_nil_r, entries_app, <- app_assoc. cbn [entries].
  by rewrite Z.add_0_l.
Qed.

(** The end of the record of an entry is a boundary of its segment. *)
Lemma entries_lookup idx fs : forall off k fi, entries idx off fs !! k = Some fi ->
  fi_seg fi = idx /\ fi_offset fi + (recordHeadLen + fi_length fi) = off + len (layout (take (S k) fs)).
Proof.
  induction fs as [|fb fs IH]; intros off k fi; [done|]. destruct k as [|k]; cbn [entries lookup list_lookup].
  - intros [= <-]. split; [done|]. cbn [fi_offset fi_length]. cbn [take]. rewrite layout_cons. cbn [layout map concat].
    change (take 0 fs) with (@nil bytes). cbn. rewrite app_nil_r. rlia.
  - intros H. destruct (IH _ _ _ H) as [H1 H2]. split; [done|]. rewrite H2.
    change (take (S (S k)) (fb :: fs)) with (fb :: take (S k) fs). rewrite layout_cons. rlia.
Qed.

(** ** Writing to the last segment *)

Lemma disk_put lo fss fs torn s :
  0 <= lo -> run_at (segs s) lo (map layout fss) ->
  (forall i, i <> lo + len fss -> is_Some (segs s !! i) <-> lo <= i < lo + len fss) ->
  torn_tail torn -> Forall frame_ok (concat (fss ++ [fs])) ->
  StronglySorted Z.lt (map frame_seq (concat (fss ++ [fs]))) ->
  disk lo (fss ++ [fs]) torn (set_segs (<[lo + len fss := layout fs ++ torn]>) s).
Proof.
  intros Hlo Hrun Hdom Ht Hf Hs. split; try done; cbn [segs set_segs].
  - rewrite seg_contents_snoc. apply run_at_snoc. unfold len at 2. rewrite length_map. split.
    + apply (run_at_ext (segs s)); [|done]. intros i Hi. unfold len in Hi. rewrite length_map in Hi.
      rewrite lookup_insert_ne; [done|]. unfold len. lia.
    + apply lookup_insert_eq.
  - intros i. rewrite len_app, len_cons, len_nil. destruct (decide (i = lo + len fss)) as [->|Hne].
    + rewrite lookup_insert_eq. split; [intros _; zlia|by eexists].
    + rewrite lookup_insert_ne by done. rewrite Hdom by done. zlia.
Qed.

(** The last segment gets new contents. *)
Lemma disk_rewrite lo fss fs fs' torn s : disk lo (fss ++ [fs]) [] s -> torn_tail torn ->
  Forall frame_ok (concat (fss ++ [fs'])) -> StronglySorted Z.lt (map frame_seq (concat (fss ++ [fs']))) ->
  disk lo (fss ++ [fs']) torn (set_segs (<[lo + len fss := layout fs' ++ torn]>) s).
Proof.
  intros [Hlo _ Hrun Hdom _ _] Ht Hf Hs. rewrite seg_contents_whole, map_app in Hrun.
  apply run_at_snoc in Hrun as [Hrun _]. apply disk_put; try done.
  intros i Hi. rewrite Hdom, len_app, len_cons, len_nil. lia.
Qed.

(** A new, empty, last segment. *)
Lemma disk_grow lo fss s : disk lo fss [] s ->
  disk lo (fss ++ [[]]) [] (set_segs (<[lo + len fss := []]>) s).
Proof.
  intros [Hlo Ht Hrun Hdom Hf Hs]. rewrite seg_contents_whole in Hrun.
  apply (disk_put lo fss [] []); try done; by rewrite concat_snoc, app_nil_r.
Qed.

Lemma disk_next lo fss s : disk lo fss [] s -> segs s !! (lo + len fss) = None.
Proof.
  intros [_ _ _ Hdom _ _]. apply eq_None_not_Some. rewrite Hdom. lia.
Qed.

Lemma disk_last lo fss fs s : disk lo (fss ++ [fs]) [] s -> segs s !! (lo + len fss) = Some (layout fs).
Proof.
  intros [_ _ Hrun _ _ _]. rewrite seg_contents_whole, map_app in Hrun.
  apply run_at_snoc in Hrun as [_ H]. unfold len in H. rewrite length_map in H. exact H.
Qed.

(** Only the segments matter. *)
Lemma disk_same lo fss torn s s' : segs s' = segs s -> disk lo fss torn s -> disk lo fss torn s'.
Proof. intros E []. split; rewrite ?E; done. Qed.

Lemma ckpt_ok_same lo fss k s s' : ckpt s' = ckpt s -> ckpt_ok lo fss k s -> ckpt_ok lo fss k s'.
Proof. unfold ckpt_ok. by intros ->. Qed.

(** ** Acknowledged prefixes under growth *)

Lemma acks_grow cp lo fss fss' j : first fss `prefix_of` first fss' -> acks cp lo fss j -> acks cp lo fss' j.
Proof.
  intros [l E] [H1 H2 H3 H4 H5]. assert (Et : take j (first fss') = take j (first fss)).
  { rewrite E. by rewrite take_app_le. }
  split; rewrite ?Et; try done. rewrite E, length_app. lia.
Qed.

Lemma ckpt_ok_grow lo fss fss' k s : first fss `prefix_of` first fss' -> ckpt_ok lo fss k s -> ckpt_ok lo fss' k s.
Proof. intros Hp (cp & lg & j & Hc & Ha & Hj). exists cp, lg, j. eauto using acks_grow. Qed.

Lemma mem_acks_grow lo fss fss' k w : first fss `prefix_of` first fss' -> mem_acks lo fss k w -> mem_acks lo fss' k w.
Proof. intros Hp (j & Ha & Hj). exists j. eauto using acks_grow. Qed.

Lemma first_grow fss fs fs' : fs `prefix_of` fs' -> first (fss ++ [fs]) `prefix_of` first (fss ++ [fs']).
Proof. intros H. by destruct fss. Qed.

Lemma first_new fss : first fss `prefix_of` first (fss ++ [[]]).
Proof. by destruct fss. Qed.

(** When the first segment is gone, only a checkpoint that speaks of an earlier
    one is left, which acknowledges nothing. *)
Lemma acks_shift cp lo f0 fss j : acks cp lo (f0 :: fss) j -> acks cp (lo + 1) fss 0.
Proof.
  intros [H1 H2 H3 H4 H5]. split; [lia|done|lia| |by constructor].
  destruct (Z.eqb_spec (SegStart cp) (lo + 1)); [lia|done].
Qed.

Lemma ckpt_ok_shift lo f0 fss k k' s : ckpt_ok lo (f0 :: fss) k s -> ckpt_ok (lo + 1) fss k' s.
Proof. intros (cp & lg & j & Hc & Ha & _). exists cp, lg, 0%nat. split; [done|]. split; [by eapply acks_shift|lia]. Qed.

Lemma disk_shift lo f0 fss s : disk lo (f0 :: fss) [] s -> disk (lo + 1) fss [] (set_segs (delete lo) s).
Proof.
  intros [Hlo Ht Hrun Hdom Hf Hs]. rewrite seg_contents_whole in Hrun. cbn [map concat] in *.
  apply run_at_cons in Hrun as [_ Hrun]. rewrite map_app in Hs. apply Forall_app in Hf as [_ Hf].
  split; try done; cbn [segs set_segs]; [lia|..].
  - rewrite seg_contents_whole. apply (run_at_ext (segs s)); [|done]. intros i Hi. by rewrite lookup_delete_ne by lia.
  - intros i. destruct (decide (i = lo)) as [->|Hne]; [rewrite lookup_delete_eq|rewrite lookup_delete_ne by done].
    + split; [by intros []|lia].
    + rewrite Hdom, len_cons. lia.
  - clear -Hs. induction (map frame_seq f0) as [|x l IH]; [done|]. cbn in Hs. apply StronglySorted_inv in Hs as [Hs _]. auto.
Qed.

(** ** System calls while the process may die *)

(** A write cut short leaves less than a frame's header: what is cut inside a
    payload is indexed by the recovery scan ([WalScan.scan_indexes_torn_payload]). *)
Definition tear_ok (r : io) : Prop :=
  match r with IoOk => True | IoFail n => Z.of_nat n < HeaderSize end.
Abbreviation tears s := (Forall tear_ok (faults s)).

Lemma tears_tail l : Forall tear_ok l -> Forall tear_ok (tail l).
Proof. intros []; [constructor|done]. Qed.

Lemma wp_sys_t e Q s : tears s ->
  (forall l, Forall tear_ok l -> Q (Ok tt) (set_faults l s)) ->
  (forall l, Forall tear_ok l -> Q (Err e) (set_faults l s)) -> wp (sys e) Q s.
Proof. intros Ht Hok Herr. apply tears_tail in Ht. apply wp_sys_tail; auto. Qed.

Lemma wp_write_t b e Q s : tears s -> w_curFile (wal s) = HOpen ->
  (forall l, Forall tear_ok l ->
    Q (Ok tt) (set_segs (alter (fun c => c ++ b) (w_curSeg (wal s))) (set_faults l s))) ->
  (forall l n, Z.of_nat n < HeaderSize ->
    Q (Err e) (set_segs (alter (fun c => c ++ take n b) (w_curSeg (wal s))) (set_faults l s))) ->
  wp (write_cur b e) Q s.
Proof.
  intros Ht Ho Hok Herr. unfold write_cur, wp, bind, gets, next_io, modify. rewrite Ho.
  destruct (faults s) as [|[|n] rest] eqn:E; cbn.
  - specialize (Hok [] ltac:(constructor)). rewrite <- E, set_faults_id in Hok. exact Hok.
  - apply Forall_cons in Ht as [_ Ht]. by apply Hok.
  - apply Forall_cons in Ht as [Hn _]. by apply Herr.
Qed.

Lemma wp_open_append_t seg eo es Q s : tears s ->
  let m' := match segs s !! seg with Some _ => segs s | None => <[seg := []]> (segs s) end in
  (forall l c, Forall tear_ok l -> m' !! seg = Some c ->
     Q (Ok (len c)) (set_segs (fun _ => m') (set_faults l s))) ->
  (forall l e, Q (Err e) (set_faults l s)) ->
  (forall l e, Q (Err e) (set_segs (fun _ => m') (set_faults l s))) ->
  wp (open_append seg eo es) Q s.
Proof.
  intros Ht m' Hok He1 He2. unfold open_append. wp_step.
  apply wp_sys_t; [done| |intros l _; apply He1]. intros l Hl. wp_steps.
  apply wp_sys_t; [done| |intros l' _; apply (He2 l')]. intros l' Hl'. wp_steps.
  assert (exists c, m' !! seg = Some c) as [c Hc].
  { unfold m'. destruct (segs s !! seg) eqn:E; rewrite ?E, ?lookup_insert_eq; eauto. }
  specialize (Hok l' c Hl' Hc).
  change (Q (Ok (match m' !! seg with Some c => len c | None => 0 end))
    (set_segs (fun _ => m') (set_faults l' s))).
  by rewrite Hc.
Qed.

(** ** Room for a record *)

(** The same frames in the same places, perhaps with an empty segment more. *)
Definition roomier (fss fss' : list (list bytes)) : Prop := fss' = fss \/ fss' = fss ++ [[]].

Lemma roomier_concat fss fss' : roomier fss fss' -> concat fss' = concat fss.
Proof. intros [->| ->]; [done|]. by rewrite concat_snoc, app_nil_r. Qed.

Lemma roomier_first fss fss' : roomier fss fss' -> first fss `prefix_of` first fss'.
Proof. intros [->| ->]; [done|apply first_new]. Qed.

Lemma roomier_entries fss fss' lo : roomier fss fss' -> seg_entries lo fss' = seg_entries lo fss.
Proof. intros [->| ->]; [done|]. rewrite seg_entries_app. cbn. by rewrite app_nil_r. Qed.

(** The write position moves to a new segment. *)
Lemma live_grow lo fss k q w : live lo fss k q w ->
  live lo (fss ++ [[]]) k q (with_cur (lo + len fss) HOpen 0 w).
Proof.
  intros [H1 H2 H3 H4 H5 H6 H7 H8 H9]. assert (Hr : roomier fss (fss ++ [[]])) by by right.
  split; rewrite ?(roomier_concat _ _ Hr), ?(roomier_entries _ _ _ Hr); try done.
  right. by exists fss, [].
Qed.

Definition no_position (w : WAL) : WAL := with_cur 0 HNil 0 w.

Lemma rotate_crash lo fss k q s w : tears s -> disk lo fss [] s ->
  live lo fss k q w -> no_position (wal s) = no_position w -> w_curSeg (wal s) = lo + len fss ->
  wp rotate (fun o s' => ckpt s' = ckpt s /\ w_cp (wal s') = w_cp (wal s) /\ w_lastCp (wal s') = w_lastCp (wal s) /\
    match o with
    | Ok _ => durable lo (fss ++ [[]]) k q s' /\ w_curFile (wal s') = HOpen /\ tears s'
    | Err _ => exists fss', roomier fss fss' /\ disk lo fss' [] s'
    | Panic => False
    end) s.
Proof.
  intros Ht Hd Hl Hw Hc. unfold rotate. wp_steps. rewrite Hc.
  apply wp_open_append_t; [done|..]; cbv zeta; rewrite ?(disk_next lo fss s Hd).
  - intros l c Hfl Hm. rewrite lookup_insert_eq in Hm. injection Hm as <-. wp_steps.
    split; [done|]. split; [done|]. split; [done|]. split; [|done]. split; [by eapply disk_same; [|by apply disk_grow]|].
    apply live_grow in Hl.
    change (live lo (fss ++ [[]]) k q (with_cur (w_curSeg (wal s)) HOpen 0 (no_position (wal s)))).
    rewrite Hc, Hw. exact Hl.
  - intros l e. split; [done|]. split; [done|]. split; [done|]. exists fss. split; [by left|]. by eapply disk_same; [|exact Hd].
  - intros l e. split; [done|]. split; [done|]. split; [done|]. exists (fss ++ [[]]). split; [by right|]. by eapply disk_same; [|by apply disk_grow].
Qed.

Lemma ensureSpace_crash need lo fss k q s : tears s -> durable lo fss k q s ->
  wp (ensureSpace need) (fun o s' => ckpt s' = ckpt s /\ w_cp (wal s') = w_cp (wal s) /\
    w_lastCp (wal s') = w_lastCp (wal s) /\ exists fss', roomier fss fss' /\
    match o with
    | Ok _ => durable lo fss' k q s' /\ w_curFile (wal s') = HOpen /\ tears s'
    | Err _ => disk lo fss' [] s'
    | Panic => False
    end) s.
Proof.
  intros Ht [Hd Hl]. pose proof (lv_end _ _ _ _ _ Hl) as He. unfold ensureSpace. wp_steps.
  destruct He as [(-> & Ho & Hc)|(fss0 & fs & -> & Ho & Hc & Hoff)]; rewrite Ho.
  - eapply wp_conseq; [apply (rotate_crash lo [] k q s (wal s)); [done|done|done|done|by rewrite Hc, len_nil, Z.add_0_r]|].
    intros [[]|e|] s' (E1 & E2 & E3 & H); [|destruct H as (fss' & Hr & H)|done];
      (split; [done|]; split; [done|]; split; [done|]); [exists [[]]|exists fss']; (split; [|done]); [by right|done].
  - destruct (_ <=? _).
    { apply wp_ret. split; [done|]. split; [done|]. split; [done|]. exists (fss0 ++ [fs]). split; [by left|]. by split. }
    unfold close_cur. wp_steps. rewrite Ho. wp_steps. apply wp_sys_t; [done|..]; intros l Hfl.
    2: { cbn [bind_post]. split; [done|]. split; [done|]. split; [done|]. exists (fss0 ++ [fs]). split; [by left|]. by eapply disk_same; [|exact Hd]. }
    wp_steps. eapply wp_conseq; [apply (rotate_crash lo (fss0 ++ [fs]) k q _ (wal s)); try done|].
    + by eapply disk_same; [|exact Hd].
    + cbn. rewrite Hc, len_app, len_cons, len_nil. lia.
    + intros [[]|e|] s' (E1 & E2 & E3 & H); [|destruct H as (fss' & Hr & H)|done];
        (split; [done|]; split; [done|]; split; [done|]); [exists ((fss0 ++ [fs]) ++ [[]])|exists fss']; (split; [|done]); [by right|done].
Qed.

(** ** Writing a record *)

Lemma concat_push (fss : list (list bytes)) fs fb : concat (fss ++ [fs ++ [fb]]) = concat (fss ++ [fs]) ++ [fb].
Proof. by rewrite !concat_snoc, app_assoc. Qed.

Lemma layout_push fs fb : layout (fs ++ [fb]) = layout fs ++ record fb.
Proof. rewrite layout_app. unfold layout at 2. cbn. by rewrite app_nil_r. Qed.

(** A frame with the next number keeps the segments in order. *)
Lemma grow_frames lo fss fs k q w fb :
  Forall frame_ok (concat (fss ++ [fs])) -> StronglySorted Z.lt (map frame_seq (concat (fss ++ [fs]))) ->
  live lo (fss ++ [fs]) k q w -> frame_ok fb -> frame_seq fb = q_next q ->
  Forall frame_ok (concat (fss ++ [fs ++ [fb]])) /\
  StronglySorted Z.lt (map frame_seq (concat (fss ++ [fs ++ [fb]]))).
Proof.
  intros Hf Hs Hl Hfb Hn. rewrite concat_push, map_app. split; [by apply Forall_app; split; [|apply Forall_singleton]|].
  apply StronglySorted_snoc; [done|]. rewrite Forall_map. rewrite Hn. apply (lv_below _ _ _ _ _ Hl).
Qed.

Lemma alter_append (m : gmap Z bytes) i c a : m !! i = Some c -> alter (fun x => x ++ a) i m = <[i := c ++ a]> m.
Proof.
  intros H. apply map_eq. intros j. destruct (decide (i = j)) as [->|].
  - by rewrite lookup_alter_eq, lookup_insert_eq, H.
  - by rewrite lookup_alter_ne, lookup_insert_ne.
Qed.

(** Some bytes of a record reach the end of the last segment. *)
Lemma disk_tear lo fss fs n fb s s' : disk lo (fss ++ [fs]) [] s -> wf_frame fb ->
  Z.of_nat n < recordHeadLen + HeaderSize ->
  segs s' = <[lo + len fss := layout fs ++ take n (record fb)]> (segs s) ->
  disk lo (fss ++ [fs]) (take n (record fb)) s'.
Proof.
  intros Hd Hwf Hn Hs'.
  apply (disk_same _ _ _ (set_segs (<[lo + len fss := layout fs ++ take n (record fb)]>) s)); [exact Hs'|].
  apply (disk_rewrite lo fss fs fs); [done|by exists fb, n|apply Hd|apply Hd].
Qed.

Lemma write_both_crash e1 e2 lo fss fs k q s fb :
  tears s -> durable lo (fss ++ [fs]) k q s -> w_curFile (wal s) = HOpen ->
  frame_ok fb -> frame_seq fb = q_next q ->
  wp (write_cur (be_put 4 (u32 (len fb))) e1 ;;; write_cur fb e2) (fun o s' =>
    wal s' = wal s /\ ckpt s' = ckpt s /\
    match o with
    | Ok _ => disk lo (fss ++ [fs ++ [fb]]) [] s' /\ tears s'
    | Err _ => exists torn, disk lo (fss ++ [fs]) torn s'
    | Panic => False
    end) s.
Proof.
  intros Ht [Hd Hl] Ho Hfb Hn. pose proof (proj1 Hfb) as Hwf.
  assert (Hu : u32 (len fb) = len fb).
  { destruct (wf_frame_header fb Hwf) as (_ & _ & _ & Hb & _). apply Z.mod_small.
    assert (MaxFrameLen < 2 ^ 32) by (by vm_compute). lia. }
  assert (Hc : w_curSeg (wal s) = lo + len fss).
  { destruct (lv_end _ _ _ _ _ Hl) as [(E & _)|(fss0 & fs0 & E & _ & Hc & _)]; [by destruct fss|].
    apply app_inj_tail in E as [-> _]. done. }
  pose proof (disk_last lo fss fs s Hd) as Hlast. rewrite Hu. wp_step.
  apply wp_write_t; [done|done|..]; rewrite Hc.
  - intros l Hfl. cbn [bind_post]. apply wp_write_t; [done|done|..]; cbn [wal set_segs set_faults segs]; rewrite Hc.
    + intros l' Hfl'. split; [done|]. split; [done|]. split; [|done].
      destruct (grow_frames lo fss fs k q (wal s) fb) as [Hf Hs]; [apply Hd|apply Hd|done|done|done|].
      eapply disk_same; [|apply (disk_rewrite lo fss fs (fs ++ [fb]) [] s Hd torn_nil Hf Hs)].
      cbn. rewrite (alter_alter_append _ _ (layout fs)) by done. by rewrite app_nil_r, layout_push.
    + intros l' n Hn'. split; [done|]. split; [done|]. exists (take (4 + n) (record fb)).
      apply (disk_tear lo fss fs _ fb s); [done|done|unfold recordHeadLen; lia|]. cbn [segs set_segs set_faults].
      rewrite (alter_alter_append _ _ (layout fs)) by done. unfold record.
      rewrite take_app, length_be_put, (take_ge (be_put 4 _)) by (rewrite length_be_put; lia).
      by replace (4 + n - 4)%nat with n by lia.
  - intros l n Hn'. split; [done|]. split; [done|]. exists (take (n `min` 4) (record fb)).
    apply (disk_tear lo fss fs _ fb s); [done|done|unfold recordHeadLen, HeaderSize; lia|]. cbn [segs set_segs set_faults].
    rewrite (alter_append _ _ (layout fs)) by done. unfold record.
    rewrite take_app_le by (rewrite length_be_put; lia). f_equal. f_equal.
    destruct (Nat.le_ge_cases n 4); [by rewrite Nat.min_l by lia|].
    rewrite Nat.min_r by lia. rewrite !take_ge by (rewrite ?length_be_put; lia). done.
Qed.

(** The frame enters the index. *)
Lemma live_push lo fss fs k q w typ fb :
  live lo (fss ++ [fs]) k q w -> frame_seq fb = q_next q -> q_next q + 1 < 2 ^ 64 ->
  live lo (fss ++ [fs ++ [fb]]) k (mkQueue (q_frames q ++ [(q_next q, fb)]) (q_next q + 1))
    (push_index typ (q_next q) (len fb) w).
Proof.
  intros [H1 H2 H3 H4 H5 H6 H7 H8 H9] Hn Hb.
  destruct H9 as [(E & _)|(fss0 & fs0 & E & Ho & Hc & Hoff)]; [by destruct fss|].
  apply app_inj_tail in E as [<- <-]. unfold is_u64 in H6.
  assert (Hu : u64 (q_next q + 1) = q_next q + 1) by (apply u64_small; unfold is_u64; lia).
  split; cbn [w_acked w_index w_cp NextSeq SegStart q_next q_frames push_index with_cp with_cur with_index cp_NextSeq].
  - rewrite len_app, len_cons. zlia.
  - rewrite concat_push, length_app. lia.
  - rewrite pending_push, seg_entries_push, drop_app_le by (done || (rewrite length_seg_entries; lia)).
    rewrite !map_app, H3. cbn. unfold untyped. cbn. by rewrite Hc, Hoff, Hn.
  - rewrite concat_push, drop_app_le, map_app, H4 by done. cbn. unfold frame_pair. by rewrite Hn.
  - done.
  - unfold is_u64. lia.
  - rewrite concat_push. apply Forall_app. split; [|apply Forall_singleton; lia].
    eapply Forall_impl; [exact H7|]. cbn. intros. lia.
  - done.
  - right. exists fss, (fs ++ [fb]). split; [done|]. split; [done|]. split; [done|].
    cbn. rewrite Hoff, layout_push. rlia.
Qed.

(** ** Appending *)

(** The parts of the state the hazard depends on. *)
Definition same_ckpts (s s' : World) : Prop :=
  ckpt s' = ckpt s /\ w_lastCp (wal s') = w_lastCp (wal s) /\
  SegStart (w_cp (wal s')) = SegStart (w_cp (wal s)) /\ AckedBytes (w_cp (wal s')) = AckedBytes (w_cp (wal s)) /\
  NextSeq (w_cp (wal s)) <= NextSeq (w_cp (wal s')).

#[local] Instance same_ckpts_refl : Reflexive same_ckpts.
Proof. intros s. unfold same_ckpts. split_and!; done || lia. Qed.
#[local] Instance same_ckpts_trans : Transitive same_ckpts.
Proof. unfold same_ckpts. intros a b c (?&?&?&?&?) (?&?&?&?&?). split_and!; first [congruence|lia]. Qed.

Lemma hazard_same s s' : same_ckpts s s' -> hazard s' = hazard s.
Proof. unfold hazard. by intros (-> & -> & -> & -> & _). Qed.

Lemma acks_mono cp cp' lo fss j : SegStart cp' = SegStart cp -> AckedBytes cp' = AckedBytes cp ->
  NextSeq cp <= NextSeq cp' -> is_u64 (NextSeq cp') -> acks cp lo fss j -> acks cp' lo fss j.
Proof.
  intros E1 E2 Hn Hu [H1 H2 H3 H4 H5]. split; rewrite ?E1, ?E2; try done.
  eapply Forall_impl; [exact H5|]. cbn. intros. lia.
Qed.

(** A log that stands survives. *)
Lemma stands_survives d q s : stands d q s -> hazard s = false -> survives d (q_frames q) s.
Proof.
  intros (lo & fss & k & [Hd Hl _ Hc Hs]) Hz. exists lo, fss, k, []. split; [done|]. split; [by apply Hc|].
  split; [|done]. by rewrite (lv_queue _ _ _ _ _ Hl).
Qed.

(** The segments of a log that stands, with a tail that is not a frame. *)
Lemma torn_survives d q lo fss k s fss' torn s' : stands_at d q lo fss k s ->
  disk lo fss' torn s' -> concat fss' = concat fss -> first fss `prefix_of` first fss' -> same_ckpts s s' ->
  hazard s = false -> survives d (q_frames q) s'.
Proof.
  intros [_ Hl _ Hc Hs] Hd Hcat Hf Hck Hz. exists lo, fss', k, torn. split; [done|]. rewrite Hcat. split; [|split; [|done]].
  - apply (ckpt_ok_same _ _ _ s); [apply Hck|]. eapply ckpt_ok_grow; [done|by apply Hc].
  - by rewrite (lv_queue _ _ _ _ _ Hl).
Qed.

(** The same log over segments with more room. *)
Lemma stands_grow d q lo fss k s fss' s' : stands_at d q lo fss k s ->
  durable lo fss' k q s' -> concat fss' = concat fss -> first fss `prefix_of` first fss' -> same_ckpts s s' ->
  stands_at d q lo fss' k s'.
Proof.
  intros [_ Hl (j & Ha & Hj) Hc Hs] [Hd' Hl'] Hcat Hf Hck. split; [done|done|..]; rewrite ?Hcat; [|intros Hz|done].
  - exists j. split; [|done]. apply acks_grow with (fss := fss); [done|].
    destruct Hck as (_ & _ & H1 & H2 & H3). apply (acks_mono (w_cp (wal s))); try done.
    rewrite (lv_next _ _ _ _ _ Hl'). apply (lv_u64 _ _ _ _ _ Hl').
  - rewrite (hazard_same s s') in Hz by done. apply (ckpt_ok_same _ _ _ s); [apply Hck|].
    eapply ckpt_ok_grow; [done|by apply Hc].
Qed.

Lemma stands_space need d q s : tears s -> stands d q s ->
  wp (ensureSpace need) (fun o s' => same_ckpts s s' /\ NextSeq (w_cp (wal s')) = q_next q /\
    match o with
    | Ok _ => (exists lo fss fs k, stands_at d q lo (fss ++ [fs]) k s') /\ w_curFile (wal s') = HOpen /\ tears s'
    | Err _ => hazard s = false -> survives d (q_frames q) s'
    | Panic => False
    end) s.
Proof.
  intros Ht (lo & fss & k & Hst). eapply wp_conseq.
  { apply (ensureSpace_crash need lo fss k q s); [done|split; apply Hst]. }
  intros o s' (E1 & E2 & E3 & fss' & Hr & H).
  assert (Hck : same_ckpts s s') by (unfold same_ckpts; rewrite E1, E2, E3; split_and!; done || lia).
  split; [done|]. split; [rewrite E2; apply (lv_next _ _ _ _ _ (st_live _ _ _ _ _ _ Hst))|].
  pose proof (roomier_concat _ _ Hr) as Hcat. pose proof (roomier_first _ _ Hr) as Hf.
  destruct o as [[]|e|]; [|by eapply torn_survives|done].
  destruct H as (Hd & Ho & Ht'). split; [|done].
  destruct (lv_end _ _ _ _ _ (proj2 Hd)) as [(_ & E & _)|(fss0 & fs & -> & _)]; [congruence|].
  exists lo, fss0, fs, k. by eapply stands_grow.
Qed.

(** After the two writes the frame is on the disk and not in the index. *)
Definition wrote_frame (d : list (Z * bytes)) (q : queue) (fb : bytes) (s : World) : Prop :=
  exists lo fss fs k s0, stands_at d q lo (fss ++ [fs]) k s0 /\ wal s = wal s0 /\ ckpt s = ckpt s0 /\
    disk lo (fss ++ [fs ++ [fb]]) [] s.

Lemma stands_write e1 e2 d q lo fss fs k s fb :
  tears s -> stands_at d q lo (fss ++ [fs]) k s -> w_curFile (wal s) = HOpen ->
  frame_ok fb -> frame_seq fb = q_next q ->
  wp (write_cur (be_put 4 (u32 (len fb))) e1 ;;; write_cur fb e2) (fun o s' => wal s' = wal s /\ ckpt s' = ckpt s /\
    match o with
    | Ok _ => wrote_frame d q fb s' /\ tears s'
    | Err _ => hazard s = false -> survives d (q_frames q) s'
    | Panic => False
    end) s.
Proof.
  intros Ht Hst Ho Hfb Hn. eapply wp_conseq.
  { apply (write_both_crash e1 e2 lo fss fs k q); try done. split; apply Hst. }
  intros o s' (Ew & Ec & H). split; [done|]. split; [done|].
  destruct o as [[]|e|]; [|destruct H as [torn H]|done].
  - destruct H as [Hd Ht']. split; [|done]. by exists lo, fss, fs, k, s.
  - eapply torn_survives; [done|done|done|done|]. unfold same_ckpts. rewrite Ew, Ec. split_and!; done || lia.
Qed.

Definition q_push (fb : bytes) (q : queue) : queue := mkQueue (q_frames q ++ [(q_next q, fb)]) (q_next q + 1).

Lemma wrote_survives d q fb s : wrote_frame d q fb s -> frame_seq fb = q_next q -> hazard s = false ->
  survives d (q_frames (q_push fb q)) s.
Proof.
  intros (lo & fss & fs & k & s0 & [_ Hl _ Hc Hs] & Ew & Ec & Hd) Hn Hz.
  assert (Hz0 : hazard s0 = false) by (unfold hazard in *; by rewrite Ew, Ec in Hz).
  exists lo, (fss ++ [fs ++ [fb]]), k, []. split; [done|]. rewrite concat_push. pose proof (lv_k _ _ _ _ _ Hl). split; [|split].
  - apply (ckpt_ok_same _ _ _ s0); [done|]. eapply ckpt_ok_grow; [|by apply Hc]. apply first_grow. by eexists.
  - rewrite drop_app_le, map_app by done. cbn. rewrite (lv_queue _ _ _ _ _ Hl). unfold frame_pair. by rewrite Hn.
  - by rewrite take_app_le by done.
Qed.

Lemma wrote_frame_push typ d q fb s : wrote_frame d q fb s -> frame_seq fb = q_next q -> q_next q + 1 < 2 ^ 64 ->
  stands d (q_push fb q) (set_wal (push_index typ (q_next q) (len fb)) s) /\
  same_ckpts s (set_wal (push_index typ (q_next q) (len fb)) s).
Proof.
  intros (lo & fss & fs & k & s0 & [_ Hl Hm Hc Hs] & Ew & Ec & Hd) Hn Hb.
  pose proof (live_push lo fss fs k q (wal s) typ fb ltac:(by rewrite Ew) Hn Hb) as Hl'.
  pose proof (lv_u64 _ _ _ _ _ Hl') as Hu. cbn [q_next] in Hu. pose proof (lv_next _ _ _ _ _ Hl) as En.
  assert (Hck : same_ckpts s (set_wal (push_index typ (q_next q) (len fb)) s)).
  { unfold same_ckpts. split_and!; try done. rewrite Ew. cbn. rewrite En, u64_small by done. lia. }
  assert (Hf : first (fss ++ [fs]) `prefix_of` first (fss ++ [fs ++ [fb]])) by (apply first_grow; by eexists).
  split; [|done]. exists lo, (fss ++ [fs ++ [fb]]), k. pose proof (lv_k _ _ _ _ _ Hl). split; [|exact Hl'|..].
  - by eapply disk_same; [|exact Hd].
  - destruct Hm as (j & Ha & Hj). exists j. split; [|done]. apply acks_grow with (fss := fss ++ [fs]); [done|].
    destruct Hck as (_ & _ & H1 & H2 & H3). rewrite <- Ew in Ha. apply (acks_mono (w_cp (wal s))); try done.
    pose proof (lv_next _ _ _ _ _ Hl') as E. cbn [q_next] in E. rewrite <- E in Hu. exact Hu.
  - intros Hz. rewrite (hazard_same _ _ Hck) in Hz. apply (ckpt_ok_same _ _ _ s0); [done|].
    eapply ckpt_ok_grow; [done|]. apply Hc. unfold hazard in *. by rewrite Ew, Ec in Hz.
  - by rewrite concat_push, take_app_le by done.
Qed.

Lemma stands_notify d q b s : stands d q s ->
  stands d q (set_wal (with_notify b) s) /\ same_ckpts s (set_wal (with_notify b) s).
Proof.
  intros (lo & fss & k & [Hd [] Hm Hc Hs]). split; [|unfold same_ckpts; split_and!; done || cbn; lia].
  exists lo, fss, k. split; [by eapply disk_same; [|exact Hd]|by split|done..].
Qed.

Lemma frame_ok_number fb n : wf_frame fb -> 0 <= n < 2 ^ 64 - 1 ->
  frame_ok (put_seq fb n) /\ frame_seq (put_seq fb n) = n.
Proof.
  intros Hwf Hn. destruct (wf_frame_header fb Hwf) as (_ & _ & _ & _ & _ & _ & Hmin).
  assert (E : frame_seq (put_seq fb n) = n) by (apply frame_seq_put_seq; [done|unfold is_u64; lia]).
  split; [|done]. split; [by apply wf_frame_put_seq|lia].
Qed.

Lemma stands_u64 d q s : stands d q s -> is_u64 (q_next q).
Proof. intros (lo & fss & k & Hst). apply (lv_u64 _ _ _ _ _ (st_live _ _ _ _ _ _ Hst)). Qed.

Lemma append_one_crash typ fb d q s :
  tears s -> stands d q s -> wf_frame fb -> q_next q + 1 < 2 ^ 64 ->
  wp (append_one typ fb) (fun o s' => match o with
    | Ok _ => stands d (q_append [fb] q) s' /\ tears s' /\ same_ckpts s s'
    | Err _ => hazard s = false -> survives d (q_frames q) s'
    | Panic => False
    end) s.
Proof.
  intros Ht Hst Hwf Hb. pose proof (stands_u64 _ _ _ Hst) as Hu. unfold is_u64 in Hu.
  destruct (frame_ok_number fb (q_next q) Hwf ltac:(lia)) as [Hok Hseq].
  destruct (wf_frame_header fb Hwf) as (_ & _ & _ & _ & _ & _ & Hmin). unfold append_one.
  destruct (Z.ltb_spec (len fb) HeaderSize); [lia|]. wp_step.
  eapply wp_conseq; [by apply (stands_space _ d q s)|].
  intros [[]|e|] s1 (Hck & Hn & H1); cbn [bind_post]; [|done|done].
  destruct H1 as ((lo & fss & fs & k & Hst1) & Ho & Ht1). do 3 wp_step. cbv beta zeta. rewrite Hn.
  eapply (wp_eq _ (bind (write_cur (be_put 4 (u32 (len (put_seq fb (q_next q))))) ErrWriteHead ;;;
      write_cur (put_seq fb (q_next q)) ErrWriteFrame)
    (fun _ => modify (set_wal (push_index typ (q_next q) (len (put_seq fb (q_next q))))) ;;; ret (q_next q)))).
  { rewrite len_put_seq, bind_assoc by done. done. }
  wp_step. eapply wp_conseq; [by apply (stands_write _ _ d q lo fss fs k)|].
  intros [[]|e|] s2 (Ew & Ec & H2); cbn [bind_post].
  - destruct H2 as [H2 Ht2]. wp_steps. destruct (wrote_frame_push typ d q _ s2 H2 Hseq Hb) as [Hp Hck2].
    split; [exact Hp|]. split; [done|]. etrans; [exact Hck|]. etrans; [|exact Hck2].
    unfold same_ckpts. rewrite Ew, Ec. split_and!; done || lia.
  - intros Hz. apply H2. by rewrite (hazard_same s s1).
  - done.
Qed.

Lemma append_loop_crash typ fbs d : forall q s,
  tears s -> stands d q s -> Forall wf_frame fbs -> q_next q + len fbs < 2 ^ 64 ->
  wp (append_loop typ fbs) (fun o s' => match o with
    | Ok _ => stands d (q_append fbs q) s' /\ tears s' /\ same_ckpts s s'
    | Err _ => hazard s = false -> exists i, survives d (q_frames (q_append (take i fbs) q)) s'
    | Panic => False
    end) s.
Proof.
  induction fbs as [|fb fbs IH]; intros q s Ht Hst Hwf Hb.
  { apply wp_ret. by rewrite q_append_nil. }
  rewrite len_cons in Hb. pose proof (len_nonneg fbs). apply Forall_cons in Hwf as [Hfb Hwf]. cbn [append_loop]. wp_step.
  eapply wp_conseq; [apply (append_one_crash typ fb d q s); try done; lia|].
  intros [n|e|] s1; cbn [bind_post]; [|by exists 0%nat; rewrite q_append_nil; auto|done].
  intros (Hst1 & Ht1 & Hck1). wp_step.
  eapply wp_conseq; [apply (IH (q_append [fb] q) s1); try done; cbn; zlia|].
  intros [ns|e|] s2; cbn [bind_post].
  - intros (Hst2 & Ht2 & Hck2). apply wp_ret. rewrite (q_append_app [fb] fbs).
    split; [done|]. split; [done|]. by etrans.
  - intros H2 Hz. destruct H2 as [i Hi]; [by rewrite (hazard_same s s1)|]. exists (S i).
    cbn [take]. by rewrite (q_append_app [fb] (take i fbs)).
  - done.
Qed.

Lemma AppendBatch_crash typ fbs d q s :
  tears s -> stands d q s -> Forall wf_frame fbs -> q_next q + len fbs < 2 ^ 64 ->
  wp (AppendBatch typ fbs) (fun o s' => match o with
    | Ok _ => stands d (q_append fbs q) s' /\ same_ckpts s s'
    | Err _ => hazard s = false -> exists i, survives d (q_frames (q_append (take i fbs) q)) s'
    | Panic => False
    end) s.
Proof.
  intros Ht Hst Hwf Hb. unfold AppendBatch. destruct fbs as [|fb fbs]; [apply wp_ret; by rewrite q_append_nil|].
  wp_step. eapply wp_conseq; [by apply (append_loop_crash typ (fb :: fbs) d q s)|].
  intros [ns|e|] s1; cbn [bind_post]; [|done|done]. intros (Hst1 & Ht1 & Hck1).
  assert (Hs1 : forall l, stands d (q_append (fb :: fbs) q) (set_faults l s1)).
  { intros l. destruct Hst1 as (lo & fss & k & [Hd [] Hm Hc Hs]). exists lo, fss, k. split; [|split|..]; try done.
    by eapply disk_same; [|exact Hd]. }
  wp_step. apply wp_sync_cur; intros l Hl; cbn [bind_post].
  - wp_steps. destruct (stands_notify d _ true _ (Hs1 l)) as [H1 H2]. split; [exact H1|]. by etrans; [exact Hck1|].
  - intros Hz. exists (length (fb :: fbs)). rewrite firstn_all. apply (stands_survives d _ _ (Hs1 l)).
    rewrite <- Hz. by apply (hazard_same s (set_faults l s1)).
Qed.

Lemma AppendEncoded_crash typ seq fb d q s :
  tears s -> stands d q s -> frame_ok fb -> frame_seq fb = seq -> q_next q + 1 < 2 ^ 64 ->
  wp (AppendEncoded typ seq fb) (fun o s' => match o with
    | Ok _ => seq = q_next q /\ stands d (q_push fb q) s' /\ same_ckpts s s'
    | Err _ => hazard s = false -> survives d (q_frames q) s' \/ survives d (q_frames (q_push fb q)) s'
    | Panic => False
    end) s.
Proof.
  intros Ht Hst Hok Hseq Hb. unfold AppendEncoded, appendEncodedLocked. wp_steps.
  assert (En : NextSeq (w_cp (wal s)) = q_next q) by (destruct Hst as (lo & fss & k & [_ [] _ _ _]); done).
  rewrite En. destruct (Z.eqb_spec seq (q_next q)) as [->|Hne]; cbn [negb].
  2: { apply wp_fail. intros Hz. left. by apply stands_survives. }
  wp_step. eapply wp_conseq; [by apply (stands_space _ d q s)|].
  intros [[]|e|] s1 (Hck & Hn & H1); cbn [bind_post]; [|by left; auto|done].
  destruct H1 as ((lo & fss & fs & k & Hst1) & Ho & Ht1).
  eapply (wp_eq _ (bind (write_cur (be_put 4 (u32 (len fb))) ErrWriteHead ;;; write_cur fb ErrWriteFrame)
    (fun _ => sync_cur ErrFsync ;;; modify (set_wal (push_index typ (q_next q) (len fb))) ;;; notifyAppend))).
  { by rewrite bind_assoc. }
  wp_step. eapply wp_conseq; [by apply (stands_write _ _ d q lo fss fs k)|].
  intros [[]|e|] s2 (Ew & Ec & H2); cbn [bind_post].
  - destruct H2 as [(lo' & fss' & fs' & k' & s0 & Hst0 & Ew0 & Ec0 & Hd) Ht2].
    assert (Hw : forall l, wrote_frame d q fb (set_faults l s2)).
    { intros l. exists lo', fss', fs', k', s0. split; [done|]. split; [done|]. split; [done|]. by eapply disk_same; [|exact Hd]. }
    assert (Hck2 : forall l, same_ckpts s (set_faults l s2)).
    { intros l. etrans; [exact Hck|]. unfold same_ckpts. cbn. rewrite Ew, Ec. split_and!; done || lia. }
    wp_step. apply wp_sync_cur; intros l Hl; cbn [bind_post].
    + wp_steps. destruct (wrote_frame_push typ d q fb _ (Hw l) ltac:(done) Hb) as [Hp Hckp].
      destruct (stands_notify d _ true _ Hp) as [H1 H2]. split; [done|]. split; [exact H1|].
      etrans; [apply (Hck2 l)|]. etrans; [exact Hckp|done].
    + intros Hz. right. apply wrote_survives; [done|done|]. by rewrite (hazard_same s).
  - intros Hz. left. apply H2. by rewrite (hazard_same s s1).
  - done.
Qed.

(** ** Committing *)

(** The log in the middle of an operation that began with the hazard [z]; while
    the oldest segment is done, the checkpoint in memory need not make sense. *)
Record settling (z : bool) (d : list (Z * bytes)) (q : queue) (lo : Z) (fss : list (list bytes)) (k : nat)
    (s : World) : Prop := {
  sg_disk : disk lo fss [] s;
  sg_live : live lo fss k q (wal s);
  sg_mem : segDone (wal s) = false -> mem_acks lo fss k (wal s);
  sg_ckpt : z = false -> ckpt_ok lo fss k s;
  sg_done : map frame_pair (take k (concat fss)) `suffix_of` d }.

Definition settled (z : bool) (d : list (Z * bytes)) (q : queue) (s : World) : Prop :=
  exists lo fss k, settling z d q lo fss k s /\ mem_acks lo fss k (wal s).

Lemma settling_survives z d q lo fss k s : settling z d q lo fss k s -> z = false -> survives d (q_frames q) s.
Proof.
  intros [Hd Hl _ Hc Hs] Hz. exists lo, fss, k, []. split; [done|]. split; [by apply Hc|].
  split; [|done]. by rewrite (lv_queue _ _ _ _ _ Hl).
Qed.

Lemma settling_same z d q lo fss k s s' : segs s' = segs s -> wal s' = wal s -> ckpt s' = ckpt s ->
  settling z d q lo fss k s -> settling z d q lo fss k s'.
Proof.
  intros E1 E2 E3 [Hd Hl Hm Hc Hs]. split; rewrite ?E2; try done; [by eapply disk_same|].
  intros Hz. apply (ckpt_ok_same _ _ _ s); auto.
Qed.

Lemma drop_cons_nth {A} k (l : list A) x r : drop k l = x :: r -> l !! k = Some x /\ drop (S k) l = r.
Proof.
  intros H. split; [|by eapply drop_S_tail]. rewrite <- (Nat.add_0_r k), <- lookup_drop, H. done.
Qed.

Lemma tail_map_drop {A B} (f : A -> B) l : forall k, tail (map f (drop k l)) = map f (drop (S k) l).
Proof. induction l as [|x l IH]; intros [|k]; try done. apply (IH k). Qed.

(** The entry at the head of the queue. *)
Lemma live_head lo fss k q w cur l : live lo fss k q w -> pending w = cur :: l ->
  exists fi, seg_entries lo fss !! k = Some fi /\ untyped cur = untyped fi /\
    map untyped l = map untyped (drop (S k) (seg_entries lo fss)).
Proof.
  intros Hl Hp. pose proof (lv_entries _ _ _ _ _ Hl) as He. rewrite Hp in He. cbn [map] in He.
  destruct (drop k (seg_entries lo fss)) as [|fi r] eqn:Ed; [done|]. injection He as H1 H2.
  apply drop_cons_nth in Ed as [Hk Hr]. exists fi. split; [done|]. split; [|by rewrite Hr]. unfold untyped. congruence.
Qed.

Lemma live_acked lo fss k q w cur l : live lo fss k q w -> pending w = cur :: l ->
  live lo fss (S k) (q_commit q) (acked cur w) /\ (S k <= length (concat fss))%nat.
Proof.
  intros Hl Hp. destruct (live_head _ _ _ _ _ _ _ Hl Hp) as (fi & Hk & _ & Hr).
  assert (Hlen : (S k <= length (concat fss))%nat).
  { rewrite <- (length_seg_entries fss lo). apply lookup_lt_Some in Hk. lia. }
  destruct Hl as [H1 H2 H3 H4 H5 H6 H7 H8 H9]. split; [|done].
  assert (Hpl : len (pending w) = len (w_index w) - w_acked w) by (unfold pending; zlia).
  rewrite Hp, len_cons in Hpl.
  split; try done.
  - cbn. zlia.
  - rewrite (acked_pending cur l w) by (done || lia). exact Hr.
  - cbn [q_commit q_frames]. rewrite H4. apply tail_map_drop.
Qed.

(** The first entry of a later segment. *)
Lemma seg_entries_cons_lookup lo f0 fss k fi : seg_entries lo (f0 :: fss) !! k = Some fi ->
  ((k < length f0)%nat /\ entries lo 0 f0 !! k = Some fi) \/
  ((length f0 <= k)%nat /\ lo + 1 <= fi_seg fi).
Proof.
  cbn [seg_entries]. rewrite lookup_app_Some. intros [H|[Hge H]].
  - left. split; [|done]. apply lookup_lt_Some in H. by rewrite length_entries in H.
  - right. rewrite length_entries in Hge, H. split; [done|].
    pose proof (seg_entries_in fss (lo + 1)) as Hin. rewrite Forall_forall in Hin.
    destruct (Hin fi) as [Hs _]; [by eapply list_elem_of_lookup_2|lia].
Qed.

(** Whether the oldest segment is done says where the queue begins. *)
Lemma live_segDone lo f0 fss k q w : live lo (f0 :: fss) k q w ->
  (segDone w = true -> (length f0 <= k)%nat) /\ (segDone w = false -> (k < length f0)%nat).
Proof.
  intros Hl. unfold segDone. rewrite (lv_start _ _ _ _ _ Hl). destruct (pending w) as [|cur l] eqn:Ep.
  - split; [intros _|done]. pose proof (lv_entries _ _ _ _ _ Hl) as He. rewrite Ep in He. cbn [map] in He.
    symmetry in He. apply map_eq_nil in He. apply (f_equal length) in He.
    rewrite length_drop, length_seg_entries in He. cbn [concat length] in He. rewrite length_app in He. lia.
  - destruct (live_head _ _ _ _ _ _ _ Hl Ep) as (fi & Hk & Hu & _).
    assert (Hs : fi_seg cur = fi_seg fi) by (unfold untyped in Hu; congruence). rewrite Hs.
    apply seg_entries_cons_lookup in Hk as [[Hlt Hk]|[Hge Hlo]].
    + apply entries_lookup in Hk as [-> _]. rewrite Z.eqb_refl. by split.
    + destruct (Z.eqb_spec (fi_seg fi) lo); [lia|]. by split.
Qed.

(** Until the oldest segment is done, the acknowledged bytes end one of its records. *)
Lemma acked_mem lo fss k q w cur l : 0 <= lo -> live lo fss k q w -> pending w = cur :: l ->
  segDone (acked cur w) = false -> mem_acks lo fss (S k) (acked cur w).
Proof.
  intros Hlo Hl Hp Hd. destruct (live_acked _ _ _ _ _ _ _ Hl Hp) as [Hl' Hlen].
  destruct fss as [|f0 fss]; [cbn in Hlen; lia|]. destruct (live_segDone _ _ _ _ _ _ Hl') as [_ Hlt].
  specialize (Hlt Hd). destruct (live_head _ _ _ _ _ _ _ Hl Hp) as (fi & Hk & Hu & _).
  apply seg_entries_cons_lookup in Hk as [[_ Hk]|[Hge _]]; [|lia].
  apply entries_lookup in Hk as [_ Hoff]. pose proof (lv_start _ _ _ _ _ Hl) as Hst.
  exists (S k). split; [|done]. split; cbn [first List.hd acked w_cp with_cp with_index cp_Ack SegStart AckedBytes NextSeq].
  - lia.
  - rewrite (lv_next _ _ _ _ _ Hl). apply (lv_u64 _ _ _ _ _ Hl).
  - lia.
  - rewrite Hst, Z.eqb_refl. unfold untyped in Hu. injection Hu as _ -> -> _. lia.
  - rewrite (lv_next _ _ _ _ _ Hl). apply Forall_take. pose proof (lv_below _ _ _ _ _ Hl) as Hb.
    cbn [concat] in Hb. by apply Forall_app in Hb as [Hb _].
Qed.

(** The oldest segment is removed. *)
Lemma live_dropped lo f0 fss k q w : 0 <= lo -> live lo (f0 :: fss) k q w -> segDone w = true ->
  let w' := if decide (fss = []) then with_cur (lo + 1) HNil 0 (dropped w) else dropped w in
  live (lo + 1) fss (k - length f0) q w' /\
  take k (concat (f0 :: fss)) = f0 ++ take (k - length f0) (concat fss) /\
  mem_acks (lo + 1) fss (k - length f0) w'.
Proof.
  intros Hlo Hl Hd w'.
  destruct (live_segDone _ _ _ _ _ _ Hl) as [Hk _]. specialize (Hk Hd).
  destruct Hl as [H1 H2 H3 H4 H5 H6 H7 H8 H9]. cbn [concat] in *. apply Forall_app in H7 as [_ H7].
  rewrite length_app in H2.
  assert (Hdrop : drop k (f0 ++ concat fss) = drop (k - length f0) (concat fss)) by (by rewrite drop_app_ge by done).
  assert (Hent : drop k (seg_entries lo (f0 :: fss)) = drop (k - length f0) (seg_entries (lo + 1) fss)).
  { cbn [seg_entries]. rewrite drop_app_ge by (by rewrite length_entries). by rewrite length_entries. }
  assert (Ep : pending w' = pending w) by (unfold w'; by case_decide).
  assert (Ecp : w_cp w' = cp_Ack (lo + 1) 0 (w_cp w)) by (unfold w'; case_decide; cbn; by rewrite H8).
  split; [|split].
  - split; rewrite ?Ep, ?Ecp; try done; [|lia|by rewrite H3, Hent|by rewrite H4, Hdrop|].
    + assert (w_acked w' = 0 /\ w_index w' = pending w) as [-> ->] by (unfold w'; by case_decide). zlia.
    + destruct H9 as [(E & _)|(fss0 & fs & E & Ho & Hc & Hoff)]; [done|]. unfold w'. case_decide as Hf.
      * subst fss. by left.
      * destruct fss0 as [|f1 fss1]; [by injection E as _ ->|]. injection E as -> ->.
        right. exists fss1, fs. split; [done|]. split; [done|]. cbn [w_curSeg w_curOffset dropped with_cp with_index].
        rewrite Hc, len_cons. split; [lia|done].
  - by rewrite take_app_ge.
  - exists 0%nat. split; [|lia]. rewrite Ecp. split; cbn [SegStart NextSeq AckedBytes cp_Ack].
    + lia.
    + by rewrite H5.
    + lia.
    + by rewrite Z.eqb_refl.
    + constructor.
Qed.

Lemma drop_segment_crash z d q lo f0 fss k s :
  settling z d q lo (f0 :: fss) k s -> segDone (wal s) = true ->
  wp drop_segment (fun o s' => w_lastCp (wal s') = w_lastCp (wal s) /\ match o with
    | Ok _ => settled z d q s' /\ pending (wal s') = pending (wal s) /\ w_index (wal s') = pending (wal s)
    | Err _ => z = false -> survives d (q_frames q) s'
    | Panic => False
    end) s.
Proof.
  intros Hst Hd. pose proof Hst as [Hdk Hl _ Hc Hs].
  destruct (live_dropped lo f0 fss k q (wal s)) as (Hl' & Htake & Hm); [apply Hdk|done|done|].
  assert (Hdk' : forall s', segs s' = delete lo (segs s) -> disk (lo + 1) fss [] s').
  { intros s' E. apply (disk_same _ _ _ (set_segs (delete lo) s)); [done|]. by apply (disk_shift lo f0). }
  assert (Hck' : forall s', ckpt s' = ckpt s -> z = false -> ckpt_ok (lo + 1) fss (k - length f0) s').
  { intros s' E Hz. apply (ckpt_ok_same _ _ _ s); [done|]. eapply ckpt_ok_shift. by apply Hc. }
  assert (Hs' : map frame_pair (take (k - length f0) (concat fss)) `suffix_of` d).
  { etrans; [|exact Hs]. rewrite Htake, map_app. by exists (map frame_pair f0). }
  pose proof (lv_start _ _ _ _ _ Hl) as Hlo. unfold drop_segment, remove_seg. wp_steps. rewrite Hlo.
  apply wp_sys; intros l.
  2: { intros _. split; [done|]. apply (settling_survives _ _ _ lo (f0 :: fss) k). by apply (settling_same _ _ _ _ _ _ s). }
  wp_steps. change (set_wal _ _) with (set_segs (delete lo) (set_wal dropped (set_faults l s))).
  destruct (decide (fss = [])) as [->|Hne].
  - destruct (lv_end _ _ _ _ _ Hl) as [(E & _)|(fss0 & fs & E & Ho & Hcur & _)]; [done|].
    assert (fss0 = []) as -> by (destruct fss0 as [|? []]; done). rewrite len_nil, Z.add_0_r in Hcur.
    change (w_curSeg (wal (set_segs _ _))) with (w_curSeg (wal s)). rewrite Hcur, Z.eqb_refl. cbn [negb]. wp_step.
    change (w_curFile (wal s)) with (w_curFile (wal (set_segs (delete lo) (set_wal dropped (set_faults l s))))).
    apply wp_close_if; intros l' h _; cbn [bind_post]; wp_steps.
    + split; [done|]. split; [|done]. exists (lo + 1), [], (k - length f0)%nat.
      assert (Ew : wal (set_wal (fun w => with_cur (w_curSeg w + 1) HNil 0 w)
        (set_wal (with_cur (w_curSeg (wal s)) h (w_curOffset (wal s)))
           (set_faults l' (set_segs (delete lo) (set_wal dropped (set_faults l s)))))) =
        with_cur (lo + 1) HNil 0 (dropped (wal s))) by (cbn; by rewrite Hcur).
      split; [|by setoid_rewrite Ew]. split; [by apply Hdk'|by setoid_rewrite Ew|by setoid_rewrite Ew|by apply Hck'|done].
    + split; [done|]. intros Hz. exists (lo + 1), [], (k - length f0)%nat, []. split; [by apply Hdk'|].
      split; [by apply Hck'|]. split; [|done]. by rewrite (lv_queue _ _ _ _ _ Hl').
  - assert (Hcur : w_curSeg (wal s) <> lo).
    { destruct (lv_end _ _ _ _ _ Hl) as [(E & _)|(fss0 & fs & E & Ho & Hcur & _)]; [done|].
      destruct fss0 as [|f1 fss1]; [by injection E as _ ->|]. rewrite Hcur, len_cons. pose proof (len_nonneg fss1). lia. }
    change (w_curSeg (wal (set_segs _ _))) with (w_curSeg (wal s)).
    destruct (Z.eqb_spec lo (w_curSeg (wal s))); [congruence|]. cbn [negb]. wp_steps.
    split; [done|]. split; [|done]. exists (lo + 1), fss, (k - length f0)%nat.
    split; [|done]. split; [by apply Hdk'|done|done|by apply Hck'|done].
Qed.

Lemma live_nonempty lo fss k q w : live lo fss k q w -> pending w <> [] -> fss <> [].
Proof.
  intros Hl Hp ->. apply Hp. pose proof (lv_entries _ _ _ _ _ Hl) as He. cbn [seg_entries] in He.
  rewrite drop_nil in He. by apply map_eq_nil in He.
Qed.

Lemma commit_loop_crash z d q fuel : forall b lo fss k s, settling z d q lo fss k s -> fss <> [] ->
  wp (commit_loop fuel b) (fun o s' => w_lastCp (wal s') = w_lastCp (wal s) /\ match o with
    | Ok _ => settled z d q s'
    | Err _ => z = false -> survives d (q_frames q) s'
    | Panic => False
    end) s.
Proof.
  induction fuel as [|fuel IH]; intros b lo fss k s Hst Hne.
  { apply wp_fail. split; [done|]. by apply (settling_survives _ _ _ lo fss k). }
  cbn [commit_loop]. wp_steps. destruct (segDone (wal s)) eqn:Hd; cbn [negb].
  2: { apply wp_ret. split; [done|]. exists lo, fss, k. split; [done|]. by apply (sg_mem _ _ _ _ _ _ _ Hst). }
  destruct fss as [|f0 fss]; [done|]. wp_step. eapply wp_conseq; [by apply (drop_segment_crash z d q lo f0 fss k)|].
  intros [[]|e|] s1 (El & H); cbn [bind_post]; [|done|done]. destruct H as (Hs & Hp & Hx). wp_steps. rewrite Hx.
  destruct (pending (wal s)) as [|fi l] eqn:Ep; [by apply wp_ret|].
  destruct Hs as (lo1 & fss1 & k1 & Hst1 & Hm1). eapply wp_conseq.
  { apply (IH true lo1 fss1 k1); [done|]. apply (live_nonempty lo1 fss1 k1 q (wal s1)); [apply Hst1|by rewrite Hp]. }
  intros o s2 [El2 H2]. split; [congruence|done].
Qed.

(** ** Saving the checkpoint *)

Lemma live_lastCp lo fss k q w t : live lo fss k q w -> live lo fss k q (with_lastCp t w).
Proof. intros []. by split. Qed.

(** What an operation that ends in saving the checkpoint guarantees. *)
Definition saved (z : bool) (d : list (Z * bytes)) (q : queue) {A} (o : outcome werr A) (s' : World) : Prop :=
  match o with
  | Ok _ => stands d q s' /\ (z = false -> hazard s' = false)
  | Err _ => z = false -> survives d (q_frames q) s'
  | Panic => False
  end.

Lemma persist_crash now z d q s : settled z d q s ->
  wp (persistLocked now) (fun o s' => saved z d q o s' /\ (is_ok o = true -> hazard s' = false)) s.
Proof.
  intros (lo & fss & k & [Hd Hl _ Hc Hs] & Hm). eapply wp_conseq; [apply persistLocked_spec|].
  intros o s' [(Es & [t Ew] & Hck & _ & Ho) Hok].
  assert (Hl' : live lo fss k q (wal s')) by (rewrite Ew; by apply live_lastCp).
  assert (Hm' : mem_acks lo fss k (wal s')) by (by rewrite Ew).
  assert (Hd' : disk lo fss [] s') by (by eapply disk_same).
  assert (Hmem : forall b, ckpt s' = CkFile (w_cp (wal s')) b -> ckpt_ok lo fss k s').
  { intros b E. destruct Hm' as (j & Ha & Hj). exists (w_cp (wal s')), b, j. by rewrite E. }
  destruct o as [[]|e|]; [|split; [|done]|done].
  - specialize (Hok eq_refl).
    assert (Hz : hazard s' = false).
    { unfold hazard. rewrite Hok. cbn [read_ckpt]. rewrite !Z.eqb_refl. by destruct (w_lastCp _). }
    split; [|done]. split; [|done]. exists lo, fss, k. split; try done. intros _. by eapply Hmem.
  - intros Hz. exists lo, fss, k, []. split; [done|]. split; [|split; [by rewrite (lv_queue _ _ _ _ _ Hl)|done]].
    destruct Hck as [E|E]; [apply (ckpt_ok_same _ _ _ s); auto|by eapply Hmem].
Qed.

Lemma throttled_crash now z d q s : settled z d q s -> (w_lastCp (wal s) <> None -> z = false) ->
  wp (persistLockedThrottled now) (saved z d q) s.
Proof.
  intros Hs Hz. unfold persistLockedThrottled. wp_steps.
  assert (Hp : wp (persistLocked now) (saved z d q) s).
  { eapply wp_conseq; [by apply (persist_crash now z d q)|]. by intros o s' []. }
  destruct (w_lastCp (wal s)) as [t|] eqn:El; [|exact Hp]. destruct (_ <? _); [|exact Hp].
  apply wp_ret. specialize (Hz ltac:(done)). destruct Hs as (lo & fss & k & [Hd Hl _ Hc Hs] & Hm). split.
  - exists lo, fss, k. split; try done. intros _. by apply Hc.
  - intros _. unfold hazard. by rewrite El.
Qed.

Lemma Commit_crash now seq d q s h rest : stands d q s -> q_frames q = h :: rest ->
  wp (Commit now seq) (fun o s' => match o with
    | Ok _ => stands (d ++ [h]) (q_commit q) s' /\ (hazard s = false -> hazard s' = false)
    | Err _ => hazard s = false -> survives d (q_frames q) s' \/ survives (d ++ [h]) rest s'
    | Panic => False
    end) s.
Proof.
  intros Hst0 Hq. pose proof (stands_survives d q s Hst0) as Hsv.
  destruct Hst0 as (lo & fss & k & [Hd Hl Hm Hc Hs]). unfold Commit, commitLocked. wp_steps.
  destruct (pending (wal s)) as [|cur l] eqn:Ep.
  { pose proof (lv_entries _ _ _ _ _ Hl) as He. rewrite Ep in He. symmetry in He. apply map_eq_nil in He.
    apply (f_equal length) in He. rewrite length_drop, length_seg_entries in He. cbn in He.
    rewrite (lv_queue _ _ _ _ _ Hl), drop_ge in Hq by lia. done. }
  destruct (negb _); [apply wp_fail; by left; auto|]. wp_steps. change (set_wal _ s) with (set_wal (acked cur) s).
  destruct (live_acked _ _ _ _ _ _ _ Hl Ep) as [Hl' Hlen].
  assert (Hq' : q_frames (q_commit q) = rest) by (cbn; by rewrite Hq).
  assert (Hst : settling (hazard s) (d ++ [h]) (q_commit q) lo fss (S k) (set_wal (acked cur) s)).
  { split; [by eapply disk_same; [|exact Hd]|done| |intros Hz|].
    - apply (acked_mem lo fss k q (wal s) cur l); [apply Hd|done|done].
    - destruct (Hc Hz) as (cp & lg & j & E & Ha & Hj). exists cp, lg, j. split; [done|]. split; [done|lia].
    - rewrite (lv_queue _ _ _ _ _ Hl) in Hq. destruct (drop k (concat fss)) as [|fb r] eqn:Ed; [done|].
      apply drop_cons_nth in Ed as [Hk _]. cbn [map] in Hq. injection Hq as Hh _.
      rewrite (take_S_r _ _ _ Hk), map_app. cbn [map]. rewrite Hh. by apply suffix_app. }
  eapply wp_conseq.
  { apply (commit_loop_crash (hazard s) (d ++ [h]) (q_commit q) _ false lo fss (S k) _ Hst).
    apply (live_nonempty lo fss k q (wal s)); [done|by rewrite Ep]. }
  assert (Hfin : forall A (o : outcome werr A) s', saved (hazard s) (d ++ [h]) (q_commit q) o s' -> match o with
      | Ok _ => stands (d ++ [h]) (q_commit q) s' /\ (hazard s = false -> hazard s' = false)
      | Err _ => hazard s = false -> survives d (q_frames q) s' \/ survives (d ++ [h]) rest s'
      | Panic => False
      end).
  { intros A [] s' H; [done| |done]. intros Hz. right. rewrite <- Hq'. by apply H. }
  intros [b|e|] s1 [El H]; cbn [bind_post]; [|intros Hz; right; rewrite <- Hq'; by apply H|done].
  destruct b.
  - eapply wp_conseq; [by apply (persist_crash now)|]. intros o s2 [Hsv' _]. by apply Hfin.
  - eapply wp_conseq; [apply (throttled_crash now (hazard s) (d ++ [h]) (q_commit q)); [done|]|intros o s2; apply Hfin].
    rewrite El. cbn. intros Hne. unfold hazard. by destruct (w_lastCp (wal s)).
Qed.

Lemma settled_queue z d q lo fss k s f : stands_at d q lo fss k s -> z = hazard s -> same_queue (wal s) (f (wal s)) ->
  AckedBytes (w_cp (f (wal s))) = AckedBytes (w_cp (wal s)) -> settled z d q (set_wal f s).
Proof.
  intros [Hd Hl (j & Ha & Hj) Hc Hs] -> (E1 & E2 & E3 & E4 & E5 & E6 & E7) E8.
  assert (Hm : mem_acks lo fss k (f (wal s))).
  { exists j. split; [|done]. apply (acks_mono (w_cp (wal s))); try done; [lia|].
    rewrite E6, (lv_next _ _ _ _ _ Hl). apply (lv_u64 _ _ _ _ _ Hl). }
  exists lo, fss, k. split; [|done]. split; try done; [by eapply disk_same; [|exact Hd]|].
  destruct Hl as [H1 H2 H3 H4 H5 H6 H7 H8 H9].
  split; cbn [wal set_wal]; unfold pending, at_end; rewrite ?E1, ?E2, ?E3, ?E4, ?E5, ?E6, ?E7; done.
Qed.

Lemma SetCursor_crash now ts d q s : stands d q s -> wp (SetCursor now ts) (saved (hazard s) d q) s.
Proof.
  intros Hst. unfold SetCursor. wp_steps. destruct (_ <? _).
  { apply wp_fail. intros Hz. by apply stands_survives. }
  wp_steps. destruct Hst as (lo & fss & k & Hst). eapply wp_conseq.
  - apply (persist_crash now (hazard s) d q). by apply (settled_queue _ _ _ lo fss k).
  - by intros o s' [].
Qed.

Lemma ApplyBackfillPolicy_crash now policyNs boundaryNs d q s :
  stands d q s -> wp (ApplyBackfillPolicy now policyNs boundaryNs) (saved (hazard s) d q) s.
Proof.
  intros Hst. assert (Hp : forall f (b : bool), same_queue (wal s) (f (wal s)) ->
    AckedBytes (w_cp (f (wal s))) = AckedBytes (w_cp (wal s)) ->
    wp (persistLocked now) (bind_post (fun _ => ret b) (saved (hazard s) d q)) (set_wal f s)).
  { intros f b Hf Ha. destruct Hst as (lo & fss & k & Hst). eapply wp_conseq.
    - apply (persist_crash now (hazard s) d q). by apply (settled_queue _ _ _ lo fss k).
    - intros [[]|e|] s' [H _]; cbn [bind_post]; [by apply wp_ret|done|done]. }
  unfold ApplyBackfillPolicy. wp_steps. destruct (w_legacyCheckpoint (wal s)).
  { wp_steps. by apply Hp. }
  destruct (_ =? policyNs); [by apply wp_ret|]. wp_step. destruct (negb _ && _ && _); wp_steps.
  - change (set_wal ?f (set_wal ?g s)) with (set_wal (fun w => f (g w)) s). by apply Hp.
  - by apply Hp.
Qed.
