(* ===== verification/WalCrash.v ===== *)
(** * The log survives crashes

    Opening the log after a crash gives back every frame that was pending,
    preceded perhaps by some that had been acknowledged, and followed by the
    frames of an interrupted append that reached the disk.  Runs of operations
    and crashes refine a history and a queue. *)
From S2P Require Import Prelude Protocol WalDisk WalScan Wal WalQueue WalCommit WalCalm WalOpen WalDurable.
Local Open Scope Z_scope.
Local Open Scope go_scope.

(** ** Opening again *)

Lemma maxSeq_nil : maxSeq [] = 0.
Proof. done. Qed.

Lemma open_append_new seg eo es s : faults s = [] -> segs s !! seg = None ->
  open_append seg eo es s = (Ok 0, set_segs (<[seg := []]>) s).
Proof.
  intros Hf Hs. destruct s as [sg ck df dm fl ft w]. cbn in Hf, Hs. subst ft.
  unfold open_append, sys, next_io, bind, gets, modify, ret, set_segs. cbn. by rewrite Hs, lookup_insert_eq.
Qed.

(** [Open] of a directory without segments. *)
Lemma Open_empty segSize s cp legacy :
  faults s = [] -> flocked s = false -> read_ckpt (ckpt s) = Some (cp, legacy) -> 0 <= SegStart cp ->
  segs s = ∅ ->
  Open segSize s = (Ok tt, set_wal (fun _ => opened segSize cp legacy (SegStart cp) 0 (Z.max (NextSeq cp) 1) []
      (SegStart cp) 0) (set_flocked true (set_segs (fun _ => {[SegStart cp := []]}) s))).
Proof.
  intros Hf Hl Hc H0 Hs. rewrite (Open_prefix segSize s cp legacy) by done.
  match goal with |- context [bind scanSegments _ ?s0] => set (s1 := s0) end.
  assert (Hix : idxList (segs s1) = []) by (cbn; rewrite Hs; done).
  assert (E : scanSegments s1 = (Ok tt, set_wal (fun w => with_cp (cp_Ack (SegStart cp) 0 (w_cp w)) w) s1)).
  { unfold scanSegments, bind at 1. rewrite sys_calm by done. unfold bind, gets, modify. rewrite Hix. cbn.
    by rewrite Z.max_r by done. }
  unfold bind at 1. rewrite E. set (s2 := set_wal _ s1).
  set (cp' := mkCP (CursorNs cp) (Z.max (NextSeq cp) (maxSeq [] + 1)) (SegStart cp) 0 (BackfillNs cp)).
  assert (E2 : set_wal (fun w => let next := u64 (maxSeq (w_index w) + 1) in
      if NextSeq (w_cp w) <? next then with_cp (cp_NextSeq next (w_cp w)) w else w) s2 =
    set_wal (with_cp cp') s2).
  { unfold set_wal. f_equal. by apply (raise_next cp). }
  unfold bind at 1, modify at 1. cbv beta zeta in E2 |- *. rewrite E2. unfold bind at 1, gets at 1.
  unfold bind at 1, lastSegmentIdx. unfold bind at 1. rewrite sys_calm by done. unfold bind at 1, gets at 1, ret at 1.
  change (segs (set_wal (with_cp cp') s2)) with (segs s1). rewrite Hix.
  change (SegStart (w_cp (wal (set_wal (with_cp cp') s2)))) with (SegStart cp). rewrite Z.max_r by done.
  unfold bind. rewrite open_append_new by (done || (cbn; by rewrite Hs, lookup_empty)). unfold modify.
  unfold s2, s1, cp', set_wal, set_segs, set_flocked; cbn. by rewrite Hs, insert_empty.
Qed.

Lemma StronglySorted_app_r {A} (R : relation A) l k : StronglySorted R (l ++ k) -> StronglySorted R k.
Proof. induction l as [|x l IH]; [done|]. cbn. intros [H _]%StronglySorted_inv. auto. Qed.

(** The entries after the first [j] frames, when they are in the first segment. *)
Lemma drop_seg_entries lo f0 rest j : (j <= length f0)%nat ->
  drop j (seg_entries lo (f0 :: rest)) = recovered_index lo (take j f0) (drop j f0) rest.
Proof.
  intros Hj. cbn [seg_entries]. rewrite <- (take_drop j f0) at 1. rewrite entries_app, <- app_assoc, Z.add_0_l.
  rewrite drop_app_ge by (rewrite length_entries, length_take; lia).
  by rewrite length_entries, length_take, Nat.min_l, Nat.sub_diag by done.
Qed.

Lemma drop_concat f0 (rest : list (list bytes)) j : (j <= length f0)%nat ->
  drop j (concat (f0 :: rest)) = drop j f0 ++ concat rest /\ take j (concat (f0 :: rest)) = take j f0.
Proof. intros Hj. cbn [concat]. by rewrite drop_app_le, take_app_le by done. Qed.

Lemma survives_on_disk lo f0 rest torn cp legacy j s :
  disk lo (f0 :: rest) torn s -> read_ckpt (ckpt s) = Some (cp, legacy) -> acks cp lo (f0 :: rest) j ->
  on_disk s cp legacy lo (take j f0) (drop j f0) rest.
Proof.
  intros [Hlo (fb & n & Hfb & Hn & Et) Hrun Hdom Hf Hs] Hck [H1 H2 H3 H4 H5]. cbn [first List.hd] in *.
  split; rewrite ?take_drop; try done.
  - destruct (_ =? lo); [done|]. by rewrite H4.
  - cbn [concat] in Hs. rewrite <- (take_drop j f0), <- app_assoc, map_app in Hs. by eapply StronglySorted_app_r.
  - exists fb, n. split; [done|]. split; [done|]. by rewrite <- Et.
  - intros i _. rewrite Hdom, len_cons. lia.
Qed.

(** The reopened log over the frames on the disk, from the [j]-th. *)
Lemma opened_live segSize cp legacy lo f0 rest j c m' :
  Forall frame_ok (concat (f0 :: rest)) -> acks cp lo (f0 :: rest) j ->
  run_at m' lo (map layout (f0 :: rest)) -> m' !! (lo + len rest) = Some c ->
  maxSeq (recovered_index lo (take j f0) (drop j f0) rest) < 2 ^ 64 - 1 ->
  let next := Z.max (NextSeq cp) (maxSeq (recovered_index lo (take j f0) (drop j f0) rest) + 1) in
  let w := opened segSize cp legacy lo (len (layout (take j f0))) next
    (recovered_index lo (take j f0) (drop j f0) rest) (lo + len rest) (len c) in
  live lo (f0 :: rest) j (mkQueue (map frame_pair (drop j (concat (f0 :: rest)))) next) w /\
  acks (w_cp w) lo (f0 :: rest) j.
Proof.
  intros Hf [H1 H2 H3 H4 H5] Hrun Hc Hmax next w. cbn [first List.hd] in H3, H5.
  destruct (drop_concat f0 rest j H3) as [Ed Et].
  destruct (maxSeq_spec (recovered_index lo (take j f0) (drop j f0) rest)) as (H0 & Hle & _).
  assert (Hb : Forall (fun fb => frame_seq fb < next) (concat (f0 :: rest))).
  { rewrite <- (take_drop j (concat (f0 :: rest))), Ed, Et. apply Forall_app. split.
    - eapply Forall_impl; [exact H5|]. cbn. unfold next. lia.
    - apply Forall_forall. intros fb Hfb.
      assert (Hin : frame_seq fb ∈ map fi_seq (recovered_index lo (take j f0) (drop j f0) rest))
        by (rewrite recovered_seqs; by apply list_elem_of_fmap_2).
      apply list_elem_of_fmap in Hin as (fi & -> & Hfi). rewrite Forall_forall in Hle. specialize (Hle fi Hfi).
      cbv beta in Hle. unfold next. lia. }
  split.
  2: { split; cbn [first List.hd w_cp w opened SegStart AckedBytes NextSeq]; [lia|unfold is_u64, next in *; lia|done
         |by rewrite Z.eqb_refl|rewrite <- Et; by apply Forall_take]. }
  split; try done.
  - cbn. zlia.
  - cbn [concat]. rewrite length_app. lia.
  - by rewrite (drop_seg_entries lo f0 rest j H3).
  - cbn [q_next]. unfold is_u64, next in *. lia.
  - right. destruct rest as [|f1 rest' _] using rev_ind.
    + exists [], f0. split; [done|]. split; [done|]. split; [done|]. cbn [w_curOffset w opened].
      cbn [map] in Hrun. apply run_at_cons in Hrun as [Hrun _]. rewrite len_nil, Z.add_0_r in Hc. congruence.
    + exists (f0 :: rest'), f1. split; [done|]. split; [done|]. cbn [w_curSeg w_curOffset w opened].
      rewrite len_app, !len_cons, len_nil in *. split; [lia|].
      rewrite app_comm_cons, map_app in Hrun. apply run_at_snoc in Hrun as [_ Hrun].
      unfold len in Hrun at 1. rewrite length_map in Hrun. fold (len (f0 :: rest')) in Hrun. rewrite len_cons in Hrun.
      replace (lo + (1 + len rest')) with (lo + (len rest' + (1 + 0))) in Hrun by lia. congruence.
Qed.

(** The disk of a process that died, seen by the next one. *)
Lemma recover d fs s segSize : survives d fs s -> faults s = [] -> flocked s = false ->
  exists s' d' back q', Open segSize s = (Ok tt, s') /\ faults s' = [] /\ stands d' q' s' /\
    d = d' ++ back /\ q_frames q' = back ++ fs.
Proof.
  intros (lo & fss & k & torn & Hd & (cp & legacy & j & Hck & Ha & Hj) & Hfs & Hdone) Hf Hl.
  destruct fss as [|f0 rest].
  - assert (Es : segs s = ∅).
    { apply map_empty. intros i. apply eq_None_not_Some. rewrite (dk_dom _ _ _ _ Hd), len_nil. lia. }
    pose proof (ak_start _ _ _ _ Ha) as [H0 _]. pose proof (ak_next _ _ _ _ Ha) as Hn. unfold is_u64 in Hn.
    cbn [concat] in Hfs. rewrite drop_nil in Hfs. cbn in Hfs. subst fs. eexists _, d, [], (mkQueue [] (Z.max (NextSeq cp) 1)).
    split; [by apply (Open_empty segSize s cp legacy)|]. split; [done|]. split; [|by rewrite app_nil_r].
    exists (SegStart cp), [[]], 0%nat. split.
    + split; cbn [segs set_wal set_flocked set_segs]; [lia|apply torn_nil| | |constructor|constructor].
      * rewrite seg_contents_whole. cbn [map]. apply run_at_cons. split; [apply lookup_singleton_eq|]. by intros ? ?.
      * intros i. rewrite lookup_singleton_is_Some, len_cons, len_nil. lia.
    + split; try done.
      * cbn [q_next]. unfold is_u64. lia.
      * right. exists [], []. split; [done|]. split; [done|]. split; [symmetry; apply Z.add_0_r|done].
    + exists 0%nat. split; [|done]. split; cbn; [lia|unfold is_u64; lia|lia|by rewrite Z.eqb_refl|constructor].
    + unfold hazard. cbn [wal set_wal w_lastCp opened ckpt set_flocked set_segs w_cp SegStart AckedBytes].
      rewrite Hck, Z.eqb_refl. cbn [andb]. intros Hz%negb_false_iff%Z.eqb_eq. exists cp, legacy, 0%nat.
      split; [done|]. split; [|done]. split; [lia|done|lia| |constructor]. by rewrite Z.eqb_refl.
    + cbn. apply suffix_nil.
  - pose proof (survives_on_disk _ _ _ _ _ _ _ _ Hd Hck Ha) as Hod.
    destruct (Open_state segSize s cp legacy lo (take j f0) (drop j f0) rest Hf Hl Hod) as (m' & c & E & Hrun & Hc & Hdom).
    pose proof (on_disk_max _ _ _ _ _ _ _ Hod) as Hmax. rewrite take_drop in Hrun.
    destruct (opened_live segSize cp legacy lo f0 rest j c m') as [Hlive Hacks]; try done; [apply Hd|].
    destruct Hdone as [d0 Hd0]. set (fps := map frame_pair (concat (f0 :: rest))).
    assert (Htd : forall n, take n fps = map frame_pair (take n (concat (f0 :: rest))) /\
        drop n fps = map frame_pair (drop n (concat (f0 :: rest)))).
    { intros n. unfold fps. by rewrite firstn_map, skipn_map. }
    eexists _, (d0 ++ take j fps), (drop j (take k fps)), _. split; [exact E|]. split; [done|]. split; [|split].
    + exists lo, (f0 :: rest), j. split; [|exact Hlive|by exists j| |].
      * split; cbn [segs set_wal set_flocked set_segs]; try apply Hd; [apply torn_nil|by rewrite seg_contents_whole|].
        intros i. rewrite Hdom, len_cons. lia.
      * intros _. by exists cp, legacy, j.
      * rewrite <- (proj1 (Htd j)). by eexists.
    + rewrite <- app_assoc, Hd0, <- (proj1 (Htd k)). f_equal.
      rewrite <- (take_drop j (take k fps)) at 1. by rewrite take_take, Nat.min_l by done.
    + cbn [q_frames]. rewrite <- (proj2 (Htd j)), <- Hfs, <- (proj2 (Htd k)).
      rewrite <- (take_drop k fps) at 1. pose proof (ak_len _ _ _ _ Ha) as Hjl. cbn [first List.hd] in Hjl.
      rewrite drop_app_le; [done|]. rewrite length_take. unfold fps. rewrite length_map. cbn [concat].
      rewrite length_app. lia.
Qed.

(** ** A log that stands is a queue *)

Lemma Forall_untyped (P : frameIndex -> Prop) l k : (forall fi, P fi <-> P (untyped fi)) ->
  map untyped l = map untyped k -> Forall P k -> Forall P l.
Proof.
  intros HP E H. assert (Hm : forall l, Forall P l <-> Forall P (map untyped l)).
  { intros l'. rewrite Forall_map. split; intros Hf; (eapply Forall_impl; [exact Hf|]); intros fi; apply HP. }
  apply (proj2 (Hm _)). rewrite E. by apply (proj1 (Hm _)).
Qed.

Lemma sorted_untyped l k : map untyped l = map untyped k -> StronglySorted fi_before k -> StronglySorted fi_before l.
Proof.
  assert (Hm : forall l, StronglySorted fi_before l <-> StronglySorted fi_before (map untyped l)).
  { induction l0 as [|x l0 IH]; cbn; [done|]. split; intros [Hs Hx]%StronglySorted_inv.
    - constructor; [by apply IH|]. by rewrite Forall_map.
    - constructor; [by apply IH|]. by rewrite Forall_map in Hx. }
  intros E H. apply (proj2 (Hm _)). rewrite E. by apply (proj1 (Hm _)).
Qed.

Lemma holds_untyped m l k q : map untyped l = map untyped k -> Forall2 (holds m) k q -> Forall2 (holds m) l q.
Proof.
  assert (Hm : forall l, Forall2 (holds m) l q <-> Forall2 (holds m) (map untyped l) q).
  { intros l0. by rewrite Forall2_fmap_l. }
  intros E H. apply (proj2 (Hm _)). rewrite E. by apply (proj1 (Hm _)).
Qed.

Lemma at_end_last lo fss w : at_end lo fss w -> lo <= w_curSeg w /\ lo + len fss <= w_curSeg w + 1 /\ w_curFile w <> HClosed.
Proof.
  intros [(-> & Ho & Hc)|(fss0 & fs & -> & Ho & Hc & _)]; rewrite Ho, Hc; [rewrite len_nil; by split_and!; [lia|lia|]|].
  rewrite len_app, len_cons, len_nil. pose proof (len_nonneg fss0). by split_and!; [lia|lia|].
Qed.

Lemma StronglySorted_drop {A} (R : relation A) n l : StronglySorted R l -> StronglySorted R (drop n l).
Proof. intros H. apply (StronglySorted_app_r R (take n l)). by rewrite take_drop. Qed.

Lemma stands_represents d q s : stands d q s ->
  wal_inv (segs s) (wal s) /\ represents (segs s) (wal s) q /\ w_curFile (wal s) <> HClosed.
Proof.
  intros (lo & fss & k & [Hd Hl _ _ _]). pose proof (at_end_last _ _ _ (lv_end _ _ _ _ _ Hl)) as (Hc1 & Hc2 & Hc3).
  pose proof (dk_run _ _ _ _ Hd) as Hrun. rewrite seg_contents_whole in Hrun.
  pose proof Hl as [H1 H2 H3 H4 H5 H6 H7 H8 H9]. split; [split; [split|]|split; [split|done]].
  - done.
  - by rewrite H8.
  - by rewrite H5.
  - eapply Forall_untyped; [|exact H3|]; [done|]. apply Forall_drop, Forall_forall. intros fi Hfi.
    pose proof (seg_entries_in fss lo) as Hin. rewrite Forall_forall in Hin. destruct (Hin fi Hfi) as (Hs & Ho & Hlen).
    assert (Hlt : fi_seq fi < q_next q); [|unfold fi_ok; rewrite H8, H5; lia].
    apply (list_elem_of_fmap_2 fi_seq) in Hfi. change (fi_seq <$> seg_entries lo fss) with (map fi_seq (seg_entries lo fss)) in Hfi.
    rewrite seg_entries_seqs in Hfi.
    apply list_elem_of_fmap in Hfi as (fb & -> & Hfb). rewrite Forall_forall in H7. by apply H7.
  - eapply sorted_untyped; [exact H3|]. apply StronglySorted_drop, sorted_before; [apply seg_entries_segs_sorted|].
    rewrite seg_entries_seqs. apply Hd.
  - intros Ho. destruct H9 as [(_ & E & _)|(fss0 & fs & -> & _ & Hc & Hoff)]; [congruence|].
    exists (layout fs). rewrite Hc. split; [by apply disk_last|done].
  - rewrite H4. eapply holds_untyped; [exact H3|].
    assert (Ed : map frame_pair (drop k (concat fss)) = drop k (map frame_pair (concat fss))) by by rewrite skipn_map.
    rewrite Ed. by apply Forall2_drop, seg_entries_hold.
  - done.
Qed.

Lemma stands_log_ok d q s : stands d q s -> faults s = [] -> log_ok s q.
Proof. intros (Hi & Hr & Hc)%stands_represents Hf. by split; [..|split]. Qed.

(** ** Operations that run, and operations cut short *)

Inductive lop : Type :=
| LAppend (typ : Z) (frames : list bytes)
| LAppendEncoded (typ seq : Z) (frame : bytes)
| LCommit (now seq : Z)
| LCursor (now ts : Z)
| LPolicy (now policyNs boundaryNs : Z).

Definition lop_run (x : lop) : W unit :=
  match x with
  | LAppend typ frames => AppendBatch typ frames ;;; ret tt
  | LAppendEncoded typ seq frame => AppendEncoded typ seq frame
  | LCommit now seq => Commit now seq
  | LCursor now ts => SetCursor now ts
  | LPolicy now policyNs boundaryNs => ApplyBackfillPolicy now policyNs boundaryNs ;;; ret tt
  end.

(** What the callers respect: frames are well formed, numbers are not exhausted,
    and nothing is committed on an empty log, which panics. *)
Definition lop_ok (x : lop) (q : queue) : Prop :=
  match x with
  | LAppend _ frames => Forall wf_frame frames /\ q_next q + len frames < 2 ^ 64
  | LAppendEncoded _ seq frame => frame_ok frame /\ frame_seq frame = seq /\ q_next q + 1 < 2 ^ 64
  | LCommit _ _ => q_frames q <> []
  | _ => True
  end.

(** What an operation that returns nil has done to the history and the queue. *)
Inductive performed (d : list (Z * bytes)) (q : queue) : lop -> list (Z * bytes) -> queue -> Prop :=
| did_append typ fbs : performed d q (LAppend typ fbs) d (q_append fbs q)
| did_push typ fb : performed d q (LAppendEncoded typ (q_next q) fb) d (q_push fb q)
| did_commit now h rest : q_frames q = h :: rest -> performed d q (LCommit now h.1) (d ++ [h]) (q_commit q)
| did_cursor now ts : performed d q (LCursor now ts) d q
| did_policy now p b : performed d q (LPolicy now p b) d q.

(** What an operation that was cut short may have done: the history and the
    pending frames. *)
Inductive interrupted (d : list (Z * bytes)) (q : queue) : lop -> list (Z * bytes) -> list (Z * bytes) -> Prop :=
| cut_before x : interrupted d q x d (q_frames q)
| cut_append typ fbs i : interrupted d q (LAppend typ fbs) d (q_frames (q_append (take i fbs) q))
| cut_push typ seq fb : interrupted d q (LAppendEncoded typ seq fb) d (q_frames (q_push fb q))
| cut_commit now seq h rest : q_frames q = h :: rest -> interrupted d q (LCommit now seq) (d ++ [h]) rest.

Lemma performed_interrupted d q x d' q' : performed d q x d' q' -> interrupted d q x d' (q_frames q').
Proof.
  intros []; try apply cut_before; [|apply cut_push|].
  - rewrite <- (firstn_all fbs) at 2. apply cut_append.
  - cbn. rewrite H. cbn. by apply cut_commit.
Qed.

Lemma wp_and {A} (m : W A) Q1 Q2 s : wp m Q1 s -> wp m Q2 s -> wp m (fun o s' => Q1 o s' /\ Q2 o s') s.
Proof. unfold wp. by split. Qed.

(** The outcome of any operation, whatever its system calls answer. *)
Lemma lop_crash x d q s : stands d q s -> tears s -> lop_ok x q ->
  wp (lop_run x) (fun o s' => match o with
    | Ok _ => exists d' q', performed d q x d' q' /\ stands d' q' s' /\ (hazard s = false -> hazard s' = false)
    | Err _ => hazard s = false -> exists d1 fs, interrupted d q x d1 fs /\ survives d1 fs s'
    | Panic => False
    end) s.
Proof.
  intros Hst Ht Hok. destruct x as [typ fbs|typ seq fb|now seq|now ts|now p b]; cbn [lop_run].
  - destruct Hok as [Hwf Hb]. wp_step. eapply wp_conseq; [by apply (AppendBatch_crash typ fbs d q s)|].
    intros [ns|e|] s'; cbn [bind_post]; [|intros H Hz; destruct (H Hz) as [i Hi]|done].
    + intros [H1 H2]. apply wp_ret. exists d, (q_append fbs q). split; [constructor|]. split; [done|].
      by rewrite (hazard_same s s').
    + eauto using interrupted.
  - destruct Hok as (Hfb & Hseq & Hb). eapply wp_conseq; [by apply (AppendEncoded_crash typ seq fb d q s)|].
    intros [[]|e|] s'; [|intros H Hz; destruct (H Hz); eauto using interrupted|done].
    intros (-> & H1 & H2). exists d, (q_push fb q). split; [constructor|]. split; [done|]. by rewrite (hazard_same s s').
  - cbn in Hok. destruct (q_frames q) as [|h rest] eqn:Eq; [done|].
    pose proof (stands_represents _ _ _ Hst) as (Hi & Hr & _).
    eapply wp_conseq; [apply wp_and; [by apply (Commit_crash now seq d q s h rest)|by apply (commitLocked_spec now seq q)]|].
    intros [[]|e|] s' [H1 H2]; [|intros Hz; destruct (H1 Hz); eauto using interrupted|done].
    destruct H1 as [H1 Hz]. exists (d ++ [h]), (q_commit q). split; [|done].
    unfold commit_post in H2. rewrite Eq in H2. destruct h as [n b]. destruct (Z.eqb_spec n seq) as [<-|]; [|by destruct H2].
    by apply (did_commit d q now (n, b) rest).
  - eapply wp_conseq; [by apply (SetCursor_crash now ts d q)|].
    intros [[]|e|] s' H; [|eauto using interrupted|done]. destruct H. exists d, q. split; [constructor|done].
  - wp_step. eapply wp_conseq; [by apply (ApplyBackfillPolicy_crash now p b d q)|].
    intros [c|e|] s' H; cbn [bind_post]; [|eauto using interrupted|done]. destruct H. apply wp_ret. exists d, q.
    split; [constructor|done].
Qed.

(** The next process: the lock is free and the system calls answer. *)
Definition restart (s : World) : World := set_flocked false (set_faults [] s).

Lemma survives_restart d fs s : survives d fs s -> survives d fs (restart s).
Proof.
  intros (lo & fss & k & torn & Hd & Hc & H). exists lo, fss, k, torn. split; [by eapply disk_same; [|exact Hd]|]. by split.
Qed.

Lemma stands_faults d q l s : stands d q s -> stands d q (set_faults l s).
Proof.
  intros (lo & fss & k & [Hd Hl Hm Hc Hs]). exists lo, fss, k. split; [by eapply disk_same; [|exact Hd]|done..].
Qed.

Lemma crash_survives x d q s l o s1 : stands d q s -> lop_ok x q -> hazard s = false -> Forall tear_ok l ->
  lop_run x (set_faults l s) = (o, s1) -> exists d1 fs, interrupted d q x d1 fs /\ survives d1 fs s1.
Proof.
  intros Hst Hok Hz Hl Hrun. pose proof (lop_crash x d q (set_faults l s) (stands_faults d q l s Hst) Hl Hok) as H.
  unfold wp in H. rewrite Hrun in H. cbn [fst snd] in H. destruct o as [[]|e|]; [|by apply H|done].
  destruct H as (d' & q' & Hp & Hst' & Hz'). exists d', (q_frames q').
  split; [by apply performed_interrupted|]. apply stands_survives; auto.
Qed.

(** Once the system calls answer they go on answering. *)
Create HintDb quiet.

Definition quiet_calls {A} (m : W A) : Prop := forall s, faults s = [] -> faults (snd (m s)) = [].

Lemma quiet_bind {A B} (m : W A) (k : A -> W B) :
  quiet_calls m -> (forall a, quiet_calls (k a)) -> quiet_calls (bind m k).
Proof.
  intros Hm Hk s Hs. unfold bind. specialize (Hm s Hs). destruct (m s) as [[a|e|] s']; [by apply Hk|done|done].
Qed.
Lemma quiet_ret {A} (a : A) : quiet_calls (ret a).
Proof. by intros s. Qed.
Lemma quiet_fail {A} e : quiet_calls (@fail World werr A e).
Proof. by intros s. Qed.
Lemma quiet_panic {A} : quiet_calls (@panic World werr A).
Proof. by intros s. Qed.
Lemma quiet_gets {A} (f : World -> A) : quiet_calls (gets f).
Proof. by intros s. Qed.
Lemma quiet_modify f : (forall s, faults (f s) = faults s) -> quiet_calls (modify f).
Proof. intros H s Hs. cbn. by rewrite H. Qed.
Lemma quiet_next_io : quiet_calls next_io.
Proof. intros s Hs. unfold next_io. by rewrite Hs. Qed.
#[local] Hint Resolve quiet_bind quiet_ret quiet_fail quiet_panic quiet_gets quiet_next_io : quiet.

Ltac quiet :=
  repeat first
    [ progress intros
    | solve [eauto 1 with quiet]
    | apply quiet_bind
    | apply quiet_modify; done
    | progress cbv zeta
    | match goal with |- quiet_calls (match ?x with _ => _ end) => destruct x end ].

Lemma quiet_sys e : quiet_calls (sys e).
Proof. unfold sys. quiet. Qed.
Lemma quiet_write_cur b e : quiet_calls (write_cur b e).
Proof. unfold write_cur. quiet. Qed.
#[local] Hint Resolve quiet_sys quiet_write_cur : quiet.
Lemma quiet_sync_cur e : quiet_calls (sync_cur e).
Proof. unfold sync_cur. quiet. Qed.
Lemma quiet_close_cur e : quiet_calls (close_cur e).
Proof. unfold close_cur. quiet. Qed.
Lemma quiet_open_append seg eo es : quiet_calls (open_append seg eo es).
Proof. unfold open_append. quiet. Qed.
#[local] Hint Resolve quiet_sync_cur quiet_close_cur quiet_open_append : quiet.
Lemma quiet_ensureSpace n : quiet_calls (ensureSpace n).
Proof. unfold ensureSpace, rotate. quiet. Qed.
#[local] Hint Resolve quiet_ensureSpace : quiet.
Lemma quiet_append_loop typ fbs : quiet_calls (append_loop typ fbs).
Proof. induction fbs as [|fb fbs IH]; cbn [append_loop]; unfold append_one; quiet. Qed.
Lemma quiet_persistLocked now : quiet_calls (persistLocked now).
Proof. unfold persistLocked, saveCheckpoint, syncDir. quiet. Qed.
#[local] Hint Resolve quiet_append_loop quiet_persistLocked : quiet.
Lemma quiet_drop_segment : quiet_calls drop_segment.
Proof. unfold drop_segment, remove_seg. quiet. Qed.
#[local] Hint Resolve quiet_drop_segment : quiet.
Lemma quiet_commit_loop fuel : forall b, quiet_calls (commit_loop fuel b).
Proof. induction fuel as [|fuel IH]; intros b; cbn [commit_loop]; quiet. Qed.
#[local] Hint Resolve quiet_commit_loop : quiet.

Lemma quiet_lop x : quiet_calls (lop_run x).
Proof.
  destruct x; cbn [lop_run]; unfold AppendBatch, AppendEncoded, appendEncodedLocked, notifyAppend, Commit, commitLocked,
    persistLockedThrottled, SetCursor, ApplyBackfillPolicy; quiet.
Qed.

(** ** The promise kept across crashes *)

(** An operation that returns nil. *)
Lemma stands_lop x d q s s' : stands d q s -> faults s = [] -> lop_ok x q -> lop_run x s = (Ok tt, s') ->
  exists d' q', performed d q x d' q' /\ stands d' q' s' /\ faults s' = [].
Proof.
  intros Hst Hf Hok E. pose proof (quiet_lop x s Hf) as Hf'. rewrite E in Hf'.
  pose proof (lop_crash x d q s Hst ltac:(by rewrite Hf) Hok) as H. unfold wp in H. rewrite E in H.
  destruct H as (d' & q' & Hp & Hst' & _). by exists d', q'.
Qed.

Lemma SetCursor_calm now ts s : faults s = [] ->
  (exists e, SetCursor now ts s = (Err e, s)) \/ exists s', SetCursor now ts s = (Ok tt, s').
Proof.
  intros Hf. unfold SetCursor, bind, gets, modify. destruct (_ <? _); [left; by eexists|right].
  rewrite persistLocked_calm by done. by eexists.
Qed.

(** What the poller does keeps what survives a crash. *)
Lemma stands_rival a w (g : ledger) : stands (lg_done g) g w -> faults w = [] -> rival_ok a ->
  q_next g + rival_size a < 2 ^ 64 ->
  stands (lg_done g) (lg_rival a g) (rival_run w a) /\ faults (rival_run w a) = [].
Proof.
  intros Hs Hf Ha Hb. pose proof (stands_log_ok _ _ _ Hs Hf) as Hl.
  destruct a as [typ fbs|now ts]; cbn [rival_run lg_rival rival_ok rival_size] in *.
  - destruct (AppendBatch_ok typ fbs w g Hl Hb (wf_frames_long fbs Ha)) as (w' & E & _).
    destruct (stands_lop (LAppend typ fbs) _ _ w w' Hs Hf) as (d' & q' & Hp & H); [by split|by cbn; unfold bind; rewrite E|].
    rewrite E. by inversion Hp; subst.
  - destruct (SetCursor_calm now ts w Hf) as [[e E]|[w' E]]; rewrite E; [done|].
    destruct (stands_lop (LCursor now ts) _ _ w w' Hs Hf) as (d' & q' & Hp & H); [done..|]. by inversion Hp; subst.
Qed.

Lemma stands_commit now h rest w (g : ledger) : stands (lg_done g) g w -> faults w = [] -> q_frames g = h :: rest ->
  exists w', Commit now h.1 w = (Ok tt, w') /\ stands (lg_done (lg_commit h g)) (lg_commit h g) w' /\ faults w' = [].
Proof.
  intros Hs Hf Hq. pose proof (stands_log_ok _ _ _ Hs Hf) as Hl. destruct h as [seq b].
  destruct (Commit_ok now w g seq b rest Hl Hq) as (w' & E & _). cbn [fst]. exists w'. split; [done|].
  destruct (stands_lop (LCommit now seq) _ _ w w' Hs Hf) as (d' & q' & Hp & H); [by cbn; rewrite Hq|done|].
  inversion Hp; subst. unfold lg_commit; cbn. congruence.
Qed.

Definition durable_log : LogPromise.
Proof.
  refine {| promised w g _ := stands (lg_done g) (lg_queue g) w /\ faults w = [] |}.
  - intros w g _ [Hs Hf]. by eapply stands_log_ok.
  - intros a _ w g [Hs Hf] Ha Hb. destruct (stands_rival a w g Hs Hf Ha Hb). by destruct a.
  - intros now h rest _ w g [Hs Hf] Hq. by destruct (stands_commit now h rest w g Hs Hf Hq) as (w' & -> & ?).
  - intros b _ w g [Hs Hf]. split; [by apply (stands_notify _ _ b _ Hs)|done].
Defined.

(** ** Crash and recovery *)

(** A crash loses no frame. Let an operation of an open log on which no [hazard]
    is, be cut short at any of its system calls (a cut write leaves fewer bytes
    than a frame header), and let the next process open the directory. It opens;
    and the frames it finds pending are, in order, the last few of those already
    acknowledged, all those that were pending, and the frames of the interrupted
    append that reached the disk. What was written stays written. *)
Theorem crash_recovers x d q s l o s1 segSize :
  stands d q s -> hazard s = false -> lop_ok x q -> Forall tear_ok l ->
  lop_run x (set_faults l s) = (o, s1) ->
  exists s2 d1 fs d2 back q2, interrupted d q x d1 fs /\ Open segSize (restart s1) = (Ok tt, s2) /\
    d1 = d2 ++ back /\ q_frames q2 = back ++ fs /\ log_ok s2 q2 /\ stands d2 q2 s2.
Proof.
  intros Hst Hz Hok Hl Hrun. destruct (crash_survives x d q s l o s1 Hst Hok Hz Hl Hrun) as (d1 & fs & Hi & Hs).
  destruct (recover d1 fs (restart s1) segSize) as (s2 & d2 & back & q2 & E & Hf & Hst2 & Hd & Hq);
    [by apply survives_restart|done|done|].
  exists s2, d1, fs, d2, back, q2. split; [done|]. split; [done|]. split; [done|]. split; [done|].
  split; [|done]. by eapply stands_log_ok.
Qed.

(** *** Runs with crashes *)

(** [lop_ok] on the state of the log. *)
Definition allowed (x : lop) (s : World) : Prop :=
  match x with
  | LAppend _ frames => Forall wf_frame frames /\ NextSeq_ s + len frames < 2 ^ 64
  | LAppendEncoded _ seq frame => frame_ok frame /\ frame_seq frame = seq /\ NextSeq_ s + 1 < 2 ^ 64
  | LCommit _ _ => pending (wal s) <> []
  | _ => True
  end.

Inductive log_step : relation World :=
| log_op x s s' : allowed x s -> faults s = [] -> lop_run x s = (Ok tt, s') -> log_step s s'
| log_crash x l o s s1 s2 segSize :
    allowed x s -> faults s = [] -> hazard s = false -> Forall tear_ok l ->
    lop_run x (set_faults l s) = (o, s1) -> Open segSize (restart s1) = (Ok tt, s2) -> log_step s s2.

(** The specification: a history of acknowledged frames and a queue. A crash may
    move the end of the history back to the queue. *)
Inductive spec_step : relation (list (Z * bytes) * queue) :=
| spec_op x d q d' q' : performed d q x d' q' -> spec_step (d, q) (d', q')
| spec_crash x d q d1 fs d2 back q2 :
    interrupted d q x d1 fs -> d1 = d2 ++ back -> q_frames q2 = back ++ fs -> spec_step (d, q) (d2, q2).

Definition all_frames (a : list (Z * bytes) * queue) : list (Z * bytes) := a.1 ++ q_frames a.2.

Lemma interrupted_all d q x d1 fs : interrupted d q x d1 fs -> d ++ q_frames q `prefix_of` d1 ++ fs.
Proof.
  intros []; [done|..].
  - cbn. rewrite app_assoc. by eexists.
  - cbn. rewrite app_assoc. by eexists.
  - rewrite H, <- app_assoc. done.
Qed.

(** No step of the specification forgets a frame. *)
Lemma spec_step_all a b : spec_step a b -> all_frames a `prefix_of` all_frames b.
Proof.
  intros [x d q d' q' Hp|x d q d1 fs d2 back q2 Hi -> Hq]; unfold all_frames; cbn [fst snd].
  - by apply (interrupted_all d q x), performed_interrupted.
  - apply interrupted_all in Hi. by rewrite Hq, app_assoc.
Qed.

Lemma allowed_ok x d q s : stands d q s -> allowed x s -> lop_ok x q.
Proof.
  intros (_ & [Hh Hn] & _)%stands_represents. destruct x; cbn; unfold NextSeq_; rewrite ?Hn; try done.
  intros Hp E. rewrite E in Hh. by inversion Hh.
Qed.

Lemma log_step_refines s s' d q : log_step s s' -> stands d q s ->
  exists d' q', spec_step (d, q) (d', q') /\ stands d' q' s' /\ faults s' = [].
Proof.
  intros Hs Hst. destruct Hs as [x s s' Hok Hf Hrun|x l o s s1 s2 segSize Hok Hf Hz Hl Hrun Ho].
  - destruct (stands_lop x d q s s' Hst Hf ltac:(by eapply allowed_ok) Hrun) as (d' & q' & Hp & H).
    exists d', q'. split; [by eapply spec_op|done].
  - destruct (crash_survives x d q s l o s1) as (d1 & fs & Hi & Hsv); try done; [by eapply allowed_ok|].
    destruct (recover d1 fs (restart s1) segSize) as (s3 & d2 & back & q2 & E & Hf3 & Hst2 & Hd & Hq);
      [by apply survives_restart|done|done|]. rewrite E in Ho. injection Ho as <-.
    exists d2, q2. split; [by eapply spec_crash|done].
Qed.

(** C4: the log with crashes refines a history and a queue. A run is made of
    operations that succeed ([log_step]: the disk answers) and of deaths inside an
    operation, each followed by the [Open] of the next process. A death falls at
    any system call of any operation, except while [hazard] holds (from an [Open]
    that found the last segment removed to the first checkpoint saved after it,
    where a second death can lose a frame: [reused_segment_loses_frame], finding
    wal.go:193); a write it cuts leaves fewer bytes than a frame's header
    ([tear_ok], finding wal.go:287), and what was written before stays, since the
    process dies and not the machine. Every such run is a run of the
    specification; in particular the acknowledged frames followed by the pending
    ones only ever grow at the end: a frame once appended is pending until it is
    acknowledged, and crashes can only make it pending again. *)
Theorem crash_runs_refine d q s s' :
  stands d q s -> faults s = [] -> rtc log_step s s' ->
  exists d' q', rtc spec_step (d, q) (d', q') /\ log_ok s' q' /\ d ++ q_frames q `prefix_of` d' ++ q_frames q'.
Proof.
  intros Hst Hf Hr.
  assert (H : exists d' q', rtc spec_step (d, q) (d', q') /\ stands d' q' s' /\ faults s' = []).
  { apply (rtc_invariant log_step (fun t => exists d' q', rtc spec_step (d, q) (d', q') /\ stands d' q' t /\ faults t = []))
      with s; [|by exists d, q; split; [apply rtc_refl|]|done].
    intros a b (da & qa & Hra & Hsa & _) Hs. destruct (log_step_refines a b da qa Hs Hsa) as (db & qb & Hsp & Hsb & Hfb).
    exists db, qb. split; [by eapply rtc_r|done]. }
  destruct H as (d' & q' & Hsp & Hst' & Hf'). exists d', q'. split; [done|]. split; [by eapply stands_log_ok|].
  clear -Hsp. change (all_frames (d, q) `prefix_of` all_frames (d', q')).
  remember (d, q) as a. remember (d', q') as b. clear -Hsp.
  induction Hsp as [|a0 b0 c0 Hs _ IH]; [done|]. transitivity (all_frames b0); [by apply spec_step_all|done].
Qed.

(** ** Witnesses *)

Lemma fresh_stands : stands [] (mkQueue [] 1) fresh.
Proof.
  exists 0, [[]], 0%nat. split.
  - split; [done|apply torn_nil| | |constructor|constructor].
    + rewrite seg_contents_whole. cbn [map]. apply run_at_cons. split; [done|]. by intros ? ?.
    + intros i. cbn [segs fresh]. rewrite lookup_singleton_is_Some. change (len [[]]) with 1. lia.
  - split; try done. right. by exists [], [].
  - exists 0%nat. split; [|done]. by split; [| |cbn; lia| |constructor].
  - intros _. exists zero_checkpoint, false, 0%nat. split; [done|]. split; [|done]. by split; [| |cbn; lia| |constructor].
  - done.
Qed.

Lemma two_stands : stands [] two_queue two.
Proof.
  pose proof (AppendBatch_crash TypeDataZstd [frame1; frame2] [] (mkQueue [] 1) fresh) as H.
  specialize (H ltac:(constructor) fresh_stands ltac:(repeat constructor; apply frame1_wf || apply frame2_wf) ltac:(by cbn)).
  unfold wp in H. assert (E : fst (AppendBatch TypeDataZstd [frame1; frame2] fresh) = Ok [1; 2]) by (vm_compute; reflexivity).
  rewrite E in H. assert (Eq : q_append [frame1; frame2] (mkQueue [] 1) = two_queue) by (vm_compute; reflexivity).
  rewrite Eq in H. apply H.
Qed.

(** Two frames are pending; a batch of two is cut inside the header of its
    second frame. *)
Definition cut_calls : list io := [IoOk; IoOk; IoOk; IoFail 7].
Definition cut_run := lop_run (LAppend TypeData [frame1; frame2]) (set_faults cut_calls two).

Lemma cut_ok : lop_ok (LAppend TypeData [frame1; frame2]) two_queue.
Proof. split; [repeat constructor; apply frame1_wf || apply frame2_wf|by vm_compute]. Qed.
Lemma cut_tears : Forall tear_ok cut_calls.
Proof. by repeat constructor. Qed.

Lemma crash_recovers_witness : exists s2 d1 fs d2 back q2,
  interrupted [] two_queue (LAppend TypeData [frame1; frame2]) d1 fs /\ Open 0 (restart (snd cut_run)) = (Ok tt, s2) /\
  d1 = d2 ++ back /\ q_frames q2 = back ++ fs /\ log_ok s2 q2 /\ stands d2 q2 s2.
Proof.
  apply (crash_recovers (LAppend TypeData [frame1; frame2]) [] two_queue two cut_calls (fst cut_run)).
  - apply two_stands.
  - vm_compute. reflexivity.
  - apply cut_ok.
  - apply cut_tears.
  - unfold cut_run. destruct (lop_run _ _). reflexivity.
Defined.

(** The reopened log holds the two frames and the first of the batch. *)
Example cut_batch_recovered :
  let s2 := snd (Open 0 (restart (snd cut_run))) in
  is_ok (fst cut_run) = false /\
  fst (PeekBatch 0 s2) = Ok [mkFD 1 (put_seq frame1 1); mkFD 2 (put_seq frame2 2); mkFD 3 (put_seq frame1 3)].
Proof. vm_compute. split; reflexivity. Qed.

(** The frame at the head is committed; the process dies as it appends. *)
Lemma crash_runs_refine_witness :
  let s1 := snd (Commit 5 1 two) in
  let s2 := snd (Open 0 (restart (snd (lop_run (LAppend TypeData [frame1; frame2]) (set_faults cut_calls s1))))) in
  exists d' q', rtc spec_step ([], two_queue) (d', q') /\ log_ok s2 q' /\
    q_frames two_queue `prefix_of` d' ++ q_frames q'.
Proof.
  intros s1 s2. apply (crash_runs_refine [] two_queue two s2 two_stands); [reflexivity|].
  apply rtc_l with s1; [|apply rtc_once].
  - apply (log_op (LCommit 5 1) two s1); [vm_compute; discriminate|reflexivity|].
    unfold s1. assert (E : fst (Commit 5 1 two) = Ok tt) by (vm_compute; reflexivity).
    cbn [lop_run]. destruct (Commit 5 1 two). cbn in E. by subst.
  - apply (log_crash (LAppend TypeData [frame1; frame2]) cut_calls (fst (lop_run (LAppend TypeData [frame1; frame2]) (set_faults cut_calls s1)))
      s1 (snd (lop_run (LAppend TypeData [frame1; frame2]) (set_faults cut_calls s1))) s2 0).
    + split; [repeat constructor; apply frame1_wf || apply frame2_wf|vm_compute; reflexivity].
    + vm_compute. reflexivity.
    + vm_compute. reflexivity.
    + apply cut_tears.
    + by destruct (lop_run _ _).
    + unfold s2. set (t := restart _). assert (E : fst (Open 0 t) = Ok tt) by (vm_compute; reflexivity).
      destruct (Open 0 t). cbn in E. by subst.
Defined.

(** Why a run may not crash while the hazard lasts. The last segment is removed
    and the process dies before the checkpoint is saved. The next process creates
    the segment anew under its old number, and until it saves a checkpoint the one
    on the disk, which speaks of the old segment, stands: a frame that is appended
    and synchronised now is taken for acknowledged after another crash, and
    lost. *)
Example reused_segment_loses_frame :
  let s1 := snd (Commit 1 1 two) in
  let s2 := snd (Commit 2 2 (set_faults [IoOk; IoOk; IoFail 0] s1)) in
  let s3 := snd (Open 0 (restart s2)) in
  let s4 := snd (AppendBatch TypeData [frame1] s3) in
  let s5 := snd (Open 0 (restart s4)) in
  hazard s3 = true /\ fst (AppendBatch TypeData [frame1] s3) = Ok [3] /\ PendingCount s4 = 1 /\
  fst (Open 0 (restart s4)) = Ok tt /\ PendingCount s5 = 0.
Proof. vm_compute. repeat split. Qed.
