(* ===== verification/WalReopen.v ===== *)
(** * Opening interrupted

    The process that recovers the log may die as well, at any system call of
    [Open]: what it leaves can be recovered again, to the same frames. *)
From S2P Require Import Prelude Protocol WalDisk WalScan Wal WalQueue WalCommit WalCalm WalOpen WalDurable WalCrash.
Local Open Scope Z_scope.
Local Open Scope go_scope.

(** The log holds [fss] from [lo] on, perhaps with a torn end. *)
Definition holds_run (lo : Z) (fss : list (list bytes)) (s : World) : Prop := exists torn, disk lo fss torn s.

(** ** Cutting a torn end *)

Lemma disk_trim lo fss fs torn s : disk lo (fss ++ [fs]) torn s ->
  disk lo (fss ++ [fs]) [] (set_segs (<[lo + len fss := layout fs]>) s).
Proof.
  intros [Hlo _ Hrun Hdom Hf Hs]. rewrite seg_contents_snoc in Hrun. apply run_at_snoc in Hrun as [Hrun _].
  pose proof (disk_put lo fss fs [] s) as H. rewrite app_nil_r in H. apply H; try done; [|apply torn_nil].
  intros i Hi. rewrite Hdom, len_app, len_cons, len_nil. lia.
Qed.

(** The segment [lo + i]. *)
Lemma disk_segment lo fss torn s i fs : disk lo fss torn s -> fss !! i = Some fs ->
  segs s !! (lo + Z.of_nat i) = Some (layout fs) \/
  (exists fss0, fss = fss0 ++ [fs] /\ i = length fss0 /\ segs s !! (lo + Z.of_nat i) = Some (layout fs ++ torn)).
Proof.
  intros [_ _ Hrun _ _ _] Hi. destruct fss as [|fs' fss0 _] using rev_ind; [done|].
  rewrite seg_contents_snoc in Hrun. apply run_at_snoc in Hrun as [Hrun Hlast].
  apply lookup_app_Some in Hi as [Hi|[Hge Hi]].
  - left. apply Hrun. by rewrite list_lookup_fmap, Hi.
  - apply list_lookup_singleton_Some in Hi as [Hi <-]. right. exists fss0.
    assert (i = length fss0) as -> by lia. split; [done|]. split; [done|].
    unfold len in Hlast. by rewrite length_map in Hlast.
Qed.

(** The segment as the scan finds it: whole records and a torn end. *)
Lemma disk_contents lo fss torn s i fs : disk lo fss torn s -> fss !! i = Some fs ->
  Forall wf_frame fs /\ exists fb n, wf_frame fb /\ Z.of_nat n < recordHeadLen + HeaderSize /\
    segs s !! (lo + Z.of_nat i) = Some (layout fs ++ take n (record fb)) /\
    ((n = 0)%nat \/ exists fss0, fss = fss0 ++ [fs] /\ i = length fss0).
Proof.
  intros Hd Hi. pose proof (dk_torn _ _ _ _ Hd) as (fb & n & Hfb & Hn & Et). split.
  - pose proof (dk_frames _ _ _ _ Hd) as Hf. rewrite <- (take_drop_middle fss i fs Hi) in Hf.
    rewrite concat_app, Forall_app in Hf. destruct Hf as [_ Hf]. cbn [concat] in Hf. apply Forall_app in Hf as [Hf _].
    eapply Forall_impl; [exact Hf|]. by intros ? [].
  - destruct (disk_segment _ _ _ _ _ _ Hd Hi) as [Hs|(fss0 & -> & -> & Hs)].
    + exists fb, 0%nat. split; [done|]. split; [done|]. rewrite Hs, app_nil_r. auto.
    + exists fb, n. split; [done|]. split; [done|]. rewrite Hs, <- Et. split; [done|]. right. by exists fss0.
Qed.

(** The frames and the checkpoint are what they were. *)
Definition keeps (lo : Z) (fss : list (list bytes)) (s s' : World) : Prop :=
  holds_run lo fss s' /\ ckpt s' = ckpt s.

Lemma keeps_same lo fss s s1 s' : keeps lo fss s s1 -> segs s' = segs s1 -> ckpt s' = ckpt s1 -> keeps lo fss s s'.
Proof.
  intros [[torn Hd] Hc] E1 E2. split; [|congruence]. exists torn. by eapply disk_same; [|exact Hd].
Qed.

Definition still {A} (lo : Z) (fss : list (list bytes)) (s : World) (o : outcome werr A) (s' : World) : Prop :=
  o <> Panic /\ keeps lo fss s s'.

Lemma indexSegment_cut lo fss s0 s i fs j : keeps lo fss s0 s -> fss !! i = Some fs ->
  wp (indexSegment (lo + Z.of_nat i) (len (layout (take j fs)))) (still lo fss s0) s.
Proof.
  intros Hk Hi. pose proof Hk as [[torn Hd] Hc].
  destruct (disk_contents lo fss torn s i fs Hd Hi) as (Hwf & fb & n & Hfb & Hn & Hs & Hlast).
  rewrite <- (take_drop j fs) in Hwf, Hs. apply Forall_app in Hwf as [Ha Hb].
  unfold indexSegment. wp_step. apply wp_sys; intros l; cbn [bind_post]; [|split; [done|by eapply keeps_same]].
  wp_step. apply wp_sys; intros l'; cbn [bind_post]; [|split; [done|by eapply keeps_same]].
  wp_step. apply wp_gets. cbn [bind_post]. cbn [segs set_faults]. rewrite Hs.
  rewrite (scan_recovers _ (take j fs) (drop j fs) fb n) by done. wp_step. apply wp_modify. cbn [bind_post].
  destruct n as [|n]; [apply wp_ret; split; [done|by eapply keeps_same]|].
  destruct Hlast as [?|(fss0 & -> & ->)]; [done|]. rewrite take_drop.
  wp_step. apply wp_sys; intros l2; cbn [bind_post]; [|split; [done|by eapply keeps_same]].
  apply wp_modify. split; [done|]. split; [|exact Hc]. exists [].
  unfold len at 1. rewrite Nat2Z.id, take_app_length.
  eapply disk_same; [|exact (disk_trim _ _ _ _ _ Hd)]. done.
Qed.

(** ** The scan *)

Lemma index_segments_cut lo f0 rest j acked s0 : (if lo =? lo then acked else 0) = len (layout (take j f0)) ->
  forall l s, keeps lo (f0 :: rest) s0 s -> Forall (fun i => lo <= i < lo + len (f0 :: rest)) l ->
  wp (index_segments lo acked l) (still lo (f0 :: rest) s0) s.
Proof.
  intros Hack. rewrite Z.eqb_refl in Hack.
  induction l as [|i l IH]; intros s Hk Hl; cbn [index_segments]; [by apply wp_ret|].
  apply Forall_cons in Hl as [Hi Hl]. destruct (Z.ltb_spec i lo); [lia|]. wp_step.
  destruct (lookup_lt_is_Some_2 (f0 :: rest) (Z.to_nat (i - lo))) as [fs Hfs]; [unfold len in Hi; lia|].
  assert (Hskip : exists n, (if i =? lo then acked else 0) = len (layout (take n fs))).
  { destruct (Z.eqb_spec i lo) as [->|Hne].
    - rewrite Z.sub_diag in Hfs. injection Hfs as <-. by exists j.
    - exists 0%nat. by rewrite take_0. }
  destruct Hskip as [n ->]. replace i with (lo + Z.of_nat (Z.to_nat (i - lo))) by lia.
  eapply wp_conseq; [by apply (indexSegment_cut lo (f0 :: rest) s0 s)|].
  intros [[]|e|] s1 [Ho Hk1]; cbn [bind_post]; [by apply IH|by split|done].
Qed.

Lemma remove_stale_none start l s : Forall (fun i => start <= i) l -> remove_stale start l s = (Ok tt, s).
Proof.
  induction 1 as [|i l Hi _ IH]; cbn [remove_stale]; [done|]. destruct (Z.ltb_spec i start); [lia|].
  unfold bind at 1, ret. exact IH.
Qed.

Lemma disk_indices lo fss torn s : disk lo fss torn s -> Forall (fun i => lo <= i < lo + len fss) (idxList (segs s)).
Proof. intros Hd. apply Forall_forall. intros i Hi%elem_of_idxList. by apply (dk_dom _ _ _ _ Hd). Qed.

Lemma scanSegments_cut lo f0 rest j s0 s : keeps lo (f0 :: rest) s0 s -> acks (w_cp (wal s)) lo (f0 :: rest) j ->
  wp scanSegments (still lo (f0 :: rest) s0) s.
Proof.
  intros Hk [Hst _ _ Hack _]. cbn [first List.hd] in Hack. pose proof Hk as [[torn Hd] Hc].
  pose proof (disk_indices _ _ _ _ Hd) as Hidx. unfold scanSegments.
  wp_step. apply wp_sys; intros l; cbn [bind_post]; [|split; [done|by eapply keeps_same]].
  wp_step. apply wp_gets. cbn [bind_post]. wp_step. apply wp_gets. cbn [bind_post]. cbn [segs wal set_faults].
  set (start := SegStart (w_cp (wal s))) in *. wp_step.
  unfold wp at 1. rewrite remove_stale_none by (eapply Forall_impl; [exact Hidx|]; cbn; lia). cbn [fst snd bind_post].
  assert (Hfil : filter (fun i => start <= i) (idxList (segs s)) = seqZ lo (len (f0 :: rest))).
  { apply idxList_filter; [|lia]. intros i _. apply (dk_dom _ _ _ _ Hd). }
  unfold firstAlive. rewrite Hfil, seqZ_len_cons. pose proof (dk_lo _ _ _ _ Hd). destruct (Z.ltb_spec lo 0); [lia|].
  wp_step. set (acked := if start =? lo then AckedBytes (w_cp (wal s)) else 0).
  assert (Hgo : forall s1, segs s1 = segs s -> ckpt s1 = ckpt s -> SegStart (w_cp (wal s1)) = lo ->
    AckedBytes (w_cp (wal s1)) = acked ->
    wp (w <- gets wal ;; index_segments (SegStart (w_cp w)) (AckedBytes (w_cp w)) (idxList (segs s)) ;;;
        modify (set_wal (fun w => with_index (w_index w) 0 w))) (still lo (f0 :: rest) s0) s1).
  { intros s1 E1 E2 E3 E4. wp_step. apply wp_gets. cbn [bind_post]. rewrite E3, E4. wp_step.
    eapply wp_conseq; [apply (index_segments_cut lo f0 rest j acked s0); [|by eapply keeps_same|done]|].
    - rewrite Z.eqb_refl. unfold acked. destruct (Z.eqb_spec start lo); [done|]. by rewrite Hack.
    - intros [[]|e|] s2 [Ho Hk2]; cbn [bind_post]; [|by split|done]. apply wp_modify. split; [done|by eapply keeps_same]. }
  destruct (Z.ltb_spec start lo).
  - apply wp_modify. cbn [bind_post]. apply Hgo; try done. unfold acked. cbn. destruct (Z.eqb_spec start lo); [lia|done].
  - apply wp_ret. cbn [bind_post]. apply Hgo; try done; unfold acked; cbn; fold start; [lia|].
    by destruct (Z.eqb_spec start lo); [|lia].
Qed.

(** ** Opening *)

Lemma last_segment lo f0 rest torn s start : disk lo (f0 :: rest) torn s ->
  is_Some (segs s !! Z.max 0 (match idxList (segs s) with [] => start | i :: l => foldl Z.max i l end)).
Proof.
  intros Hd. pose proof (dk_dom _ _ _ _ Hd) as Hdom. pose proof (dk_lo _ _ _ _ Hd) as Hlo.
  pose proof (last_index (segs s) lo (len (f0 :: rest)) Hlo ltac:(zlia) Hdom) as H.
  assert (Hne : idxList (segs s) <> []).
  { intros E. assert (Hin : lo ∈ idxList (segs s)) by (apply elem_of_idxList, Hdom; zlia).
    rewrite E in Hin. by apply elem_of_nil in Hin. }
  destruct (idxList (segs s)); [done|]. rewrite H. apply Hdom. zlia.
Qed.

(** What [Open] does once it has the checkpoint. *)
Definition open_rest : W unit :=
  scanSegments ;;;
  modify (set_wal (fun w =>
    let next := u64 (maxSeq (w_index w) + 1) in
    if NextSeq (w_cp w) <? next then with_cp (cp_NextSeq next (w_cp w)) w else w)) ;;;
  w <- gets wal ;;
  curIdx <- lastSegmentIdx (SegStart (w_cp w)) ;;
  size <- open_append curIdx (ErrOpenSegment curIdx) (ErrStatSegment curIdx) ;;
  modify (set_wal (with_cur curIdx HOpen size)).

Lemma Open_begun segSize Q s cp legacy : read_ckpt (ckpt s) = Some (cp, legacy) ->
  (forall e s', segs s' = segs s -> ckpt s' = ckpt s -> Q (Err e) s') ->
  (forall s', segs s' = segs s -> ckpt s' = ckpt s -> w_cp (wal s') = cp -> wp open_rest Q s') ->
  wp (Open segSize) Q s.
Proof.
  intros Hck He Hok. unfold Open. wp_step. apply wp_sys; intros l; cbn [bind_post]; [|intros _; by apply He].
  wp_step. apply wp_sys; intros l'; cbn [bind_post]; [|intros _; by apply He].
  wp_step. unfold flock. wp_step. apply wp_gets. cbn [bind_post].
  destruct (flocked _); [apply wp_fail; by apply He|]. apply wp_modify. cbn [bind_post].
  wp_step. apply wp_modify. cbn [bind_post]. unfold loadCheckpoint. wp_step. wp_step.
  apply wp_sys; intros l2; cbn [bind_post]; [|intros _; by apply He].
  wp_step. apply wp_gets. cbn [bind_post].
  match goal with |- wp _ _ ?s0 => set (s1 := s0) end.
  eapply (wp_conseq _ (fun o s' => o = Ok (cp, legacy) /\ s' = s1)).
  { change (ckpt s1) with (ckpt s). destruct (ckpt s); cbn [read_ckpt] in Hck; [|done|]; injection Hck as <- <-; by apply wp_ret. }
  intros o s2 [-> ->]. cbn [bind_post]. wp_step. apply wp_modify. cbn [bind_post fst snd]. by apply Hok.
Qed.

Lemma Open_cut segSize lo f0 rest torn j cp legacy s :
  disk lo (f0 :: rest) torn s -> read_ckpt (ckpt s) = Some (cp, legacy) -> acks cp lo (f0 :: rest) j ->
  wp (Open segSize) (still lo (f0 :: rest) s) s.
Proof.
  intros Hd Hck Ha. assert (Hk : keeps lo (f0 :: rest) s s) by (split; [by exists torn|done]).
  apply (Open_begun _ _ _ cp legacy); [done|by split; [|by eapply keeps_same]|]. intros s1 E1 E2 E3. unfold open_rest.
  wp_step. eapply wp_conseq; [apply (scanSegments_cut lo f0 rest j s); [by eapply keeps_same|by rewrite E3]|].
  intros [[]|e|] s2 [Ho Hk2]; cbn [bind_post]; [|by split|done].
  wp_step. apply wp_modify. cbn [bind_post]. wp_step. apply wp_gets. cbn [bind_post]. unfold lastSegmentIdx.
  wp_step. wp_step. apply wp_sys; intros l3; cbn [bind_post]; [|split; [done|by eapply keeps_same]].
  wp_step. apply wp_gets. cbn [bind_post]. apply wp_ret. cbn [bind_post].
  pose proof Hk2 as [[torn2 Hd2] Hc2].
  match goal with |- context [open_append ?i _ _] => assert (Hcur : is_Some (segs s2 !! i))
    by exact (last_segment lo f0 rest torn2 s2 _ Hd2); set (cur := i) in * end.
  destruct Hcur as [c Hcur]. wp_step. apply wp_open_append; cbv zeta;
    repeat match goal with |- context [segs (set_faults ?a ?b)] => change (segs (set_faults a b)) with (segs s2) end;
    rewrite ?Hcur.
  - intros l4 c' _. cbn [bind_post]. apply wp_modify. split; [done|]. by eapply (keeps_same _ _ _ s2).
  - intros l4 e. cbn [bind_post]. split; [done|]. by eapply (keeps_same _ _ _ s2).
  - intros l4 e. cbn [bind_post]. split; [done|]. by eapply (keeps_same _ _ _ s2).
Qed.

Lemma Open_cut_empty segSize cp legacy s :
  segs s = ∅ -> read_ckpt (ckpt s) = Some (cp, legacy) -> 0 <= SegStart cp ->
  wp (Open segSize) (fun _ s' => ckpt s' = ckpt s /\ (segs s' = ∅ \/ segs s' = {[SegStart cp := []]})) s.
Proof.
  intros Hs Hck H0. apply (Open_begun _ _ _ cp legacy); [done|intros; split; [done|left; congruence]|].
  intros s1 E1 E2 E3. unfold open_rest, scanSegments. wp_step. wp_step.
  apply wp_sys; intros l; cbn [bind_post]; [|intros _; split; [done|left; cbn; congruence]].
  wp_step. apply wp_gets. cbn [bind_post]. wp_step. apply wp_gets. cbn [bind_post]. cbn [segs wal set_faults].
  rewrite E1, Hs, E3. change (idxList ∅) with (@nil Z). cbn [remove_stale firstAlive]. wp_step. apply wp_ret. cbn [bind_post].
  apply wp_modify. cbn [bind_post]. wp_step. apply wp_modify. cbn [bind_post]. wp_step. apply wp_gets. cbn [bind_post].
  match goal with |- wp _ _ (set_wal ?f (set_wal ?g (set_faults _ _))) => set (f1 := f); set (f2 := g) end.
  assert (Est : SegStart (w_cp (f1 (f2 (wal s1)))) = SegStart cp).
  { unfold f1, f2. cbn. rewrite E3. destruct (_ <? _); cbn; lia. }
  cbn [wal set_wal set_faults]. rewrite Est. unfold lastSegmentIdx. wp_step. wp_step.
  apply wp_sys; intros l3; cbn [bind_post]; [|intros _; split; [done|left; cbn; congruence]].
  wp_step. apply wp_gets. cbn [bind_post]. apply wp_ret. cbn [bind_post]. cbn [segs set_wal set_faults].
  rewrite E1, Hs. change (idxList ∅) with (@nil Z). cbv iota. rewrite Z.max_r by done.
  wp_step. apply wp_open_append; cbv zeta; cbn [segs set_wal set_faults]; rewrite ?E1, ?Hs, ?lookup_empty, ?insert_empty.
  - intros l4 c' _. cbn [bind_post]. apply wp_modify. split; [done|by right].
  - intros l4 e. cbn [bind_post]. split; [done|left; cbn; congruence].
  - intros l4 e. cbn [bind_post]. split; [done|by right].
Qed.

(** The directory has a segment, or its checkpoint does not acknowledge bytes of
    one that is gone: otherwise [Open] creates that segment anew. *)
Definition reopenable (s : World) : bool :=
  negb (bool_decide (segs s = ∅)) ||
  match read_ckpt (ckpt s) with Some (cp, _) => AckedBytes cp =? 0 | None => false end.

Lemma Open_survives d fs s l segSize o s1 :
  survives d fs s -> reopenable s = true -> Open segSize (set_faults l s) = (o, s1) -> survives d fs s1.
Proof.
  intros (lo & fss & k & torn & Hd & (cp & legacy & j & Hck & Ha & Hj) & Hfs & Hdone) Hre E.
  assert (Hd' : disk lo fss torn (set_faults l s)) by by eapply disk_same; [|exact Hd].
  destruct fss as [|f0 rest].
  - assert (Es : segs s = ∅).
    { apply map_empty. intros i. apply eq_None_not_Some. rewrite (dk_dom _ _ _ _ Hd), len_nil. lia. }
    pose proof (ak_start _ _ _ _ Ha) as [H0 _].
    pose proof (Open_cut_empty segSize cp legacy (set_faults l s) Es Hck H0) as H. unfold wp in H. rewrite E in H.
    destruct H as [Ec [E1|E1]]; cbn [fst snd] in Ec, E1.
    + exists lo, [], k, torn. split; [eapply disk_same; [|exact Hd]; cbn; congruence|].
      split; [exists cp, legacy, j; by rewrite Ec|done].
    + unfold reopenable in Hre. rewrite Es, Hck, bool_decide_true in Hre by done. apply Z.eqb_eq in Hre.
      exists (SegStart cp), [[]], 0%nat, []. cbn [concat] in Hfs. rewrite drop_nil in Hfs. split; [|split; [|split]].
      * split; [done|apply torn_nil| | |constructor|constructor]; rewrite E1.
        -- rewrite seg_contents_whole. cbn [map]. apply run_at_cons. split; [apply lookup_singleton_eq|]. by intros ? ?.
        -- intros i. rewrite lookup_singleton_is_Some, len_cons, len_nil. lia.
      * exists cp, legacy, 0%nat. rewrite Ec. split; [done|]. split; [|done].
        split; [lia|by eapply ak_next|cbn; lia| |constructor]. by rewrite Z.eqb_refl.
      * done.
      * apply suffix_nil.
  - pose proof (Open_cut segSize lo f0 rest torn j cp legacy (set_faults l s) Hd' Hck Ha) as H.
    unfold wp in H. rewrite E in H. destruct H as [_ [[torn' Hd1] Ec]]. cbn [fst snd] in Hd1, Ec.
    exists lo, (f0 :: rest), k, torn'. split; [done|]. split; [exists cp, legacy, j; by rewrite Ec|done].
Qed.

(** A process opens the log and dies, at one of the system calls of [Open] or
    after it. *)
Inductive reopening : relation World :=
| reopening_of s l segSize o s' :
    reopenable s = true -> Open segSize (set_faults l (restart s)) = (o, s') -> reopening s s'.

Lemma reopenings_survive d fs s s' : rtc reopening s s' -> survives d fs s -> survives d fs s'.
Proof.
  induction 1 as [|s s1 s2 Hr _ IH]; [done|]. intros Hs. apply IH. destruct Hr as [s l segSize o s' Hre Ho].
  by eapply (Open_survives d fs (restart s)); [apply survives_restart| |].
Qed.

(** Recovery may itself be interrupted. What a process leaves on its disk is
    opened by one process after another, each of which dies at some system call
    of [Open], or has one fail. The next opening to be left alone succeeds, and
    finds the frames that the first one would have found. *)
Theorem Open_interrupted d fs s s1 segSize : survives d fs s -> rtc reopening s s1 ->
  exists s2 d2 back q2, Open segSize (restart s1) = (Ok tt, s2) /\
    d = d2 ++ back /\ q_frames q2 = back ++ fs /\ log_ok s2 q2 /\ stands d2 q2 s2.
Proof.
  intros Hs Hr. pose proof (reopenings_survive _ _ _ _ Hr Hs) as Hs1.
  destruct (recover d fs (restart s1) segSize) as (s2 & d2 & back & q2 & E & Hf & Hst & Hd & Hq);
    [by apply survives_restart|done|done|].
  exists s2, d2, back, q2. split; [done|]. split; [done|]. split; [done|]. split; [|done]. by eapply stands_log_ok.
Qed.

(** ** Witness *)

(** The batch of [cut_run] leaves a torn record. The first process to open the
    log dies at the truncation of that record, the second one after it. *)
Definition reopened_once : World := snd (Open 0 (set_faults (replicate 6 IoOk ++ [IoFail 0]) (restart (snd cut_run)))).
Definition reopened_twice : World := snd (Open 0 (set_faults (replicate 7 IoOk ++ [IoFail 0]) (restart reopened_once))).

Example truncated_at_last :
  bool_decide (segs reopened_once = segs (snd cut_run)) = true /\
  bool_decide (segs reopened_twice = segs reopened_once) = false.
Proof. vm_compute. split; reflexivity. Qed.

Lemma Open_interrupted_witness : exists d1 fs, survives d1 fs (snd cut_run) /\
  exists s2 d2 back q2, Open 0 (restart reopened_twice) = (Ok tt, s2) /\
    d1 = d2 ++ back /\ q_frames q2 = back ++ fs /\ log_ok s2 q2 /\ stands d2 q2 s2.
Proof.
  destruct (crash_survives (LAppend TypeData [frame1; frame2]) [] two_queue two cut_calls (fst cut_run) (snd cut_run))
    as (d1 & fs & _ & Hs);
    [apply two_stands|apply cut_ok|vm_compute; reflexivity|apply cut_tears|unfold cut_run; by destruct (lop_run _ _)|].
  exists d1, fs. split; [exact Hs|]. apply (Open_interrupted d1 fs (snd cut_run)); [exact Hs|].
  apply rtc_l with reopened_once; [|apply rtc_once].
  - eapply (reopening_of _ _ 0); [vm_compute; reflexivity|unfold reopened_once]. apply surjective_pairing.
  - eapply (reopening_of _ _ 0); [vm_compute; reflexivity|unfold reopened_twice]. apply surjective_pairing.
Defined.
