(* ===== verification/WalCursor.v ===== *)
(** * The cursor, in memory and on the disk

    The log keeps the poller's cursor beside the frames. Only two operations
    move it: [SetCursor] to where the poller asks, and [ApplyBackfillPolicy] back
    to a positive boundary. The checkpoint on the disk holds one of the cursors
    there have been, and the next process starts from that one. Nothing else
    moves either, whatever the system calls answer. *)
From S2P Require Import Prelude Protocol WalDisk WalScan Wal WalQueue WalCommit WalCalm WalOpen WalDurable WalCrash WalReopen.
Local Open Scope Z_scope.
Local Open Scope go_scope.

(** The cursor that the next process finds. *)
Definition disk_cursor (s : World) : Z :=
  match read_ckpt (ckpt s) with Some (cp, _) => CursorNs cp | None => 0 end.

(** ** What leaves the cursor alone *)

Create HintDb cursors.

(** Neither the cursor in memory nor the checkpoint on the disk changes. *)
Definition frozen {A} (m : W A) : Prop :=
  forall s, Cursor (snd (m s)) = Cursor s /\ ckpt (snd (m s)) = ckpt s.

Lemma frozen_bind {A B} (m : W A) (k : A -> W B) : frozen m -> (forall a, frozen (k a)) -> frozen (bind m k).
Proof.
  intros Hm Hk s. unfold bind. specialize (Hm s). destruct (m s) as [[a|e|] s']; [|done|done].
  destruct (Hk a s') as [-> ->]. exact Hm.
Qed.
Lemma frozen_ret {A} (a : A) : frozen (ret a).
Proof. by intros s. Qed.
Lemma frozen_fail {A} e : frozen (@fail World werr A e).
Proof. by intros s. Qed.
Lemma frozen_panic {A} : frozen (@panic World werr A).
Proof. by intros s. Qed.
Lemma frozen_gets {A} (f : World -> A) : frozen (gets f).
Proof. by intros s. Qed.
Lemma frozen_modify f : (forall s, Cursor (f s) = Cursor s /\ ckpt (f s) = ckpt s) -> frozen (modify f).
Proof. intros H s. apply H. Qed.
Lemma frozen_next_io : frozen next_io.
Proof. intros s. unfold next_io. by destruct (faults s). Qed.
#[local] Hint Resolve frozen_ret frozen_fail frozen_panic frozen_gets frozen_next_io : cursors.

Ltac frozen :=
  repeat first
    [ progress intros
    | solve [eauto 1 with cursors]
    | apply frozen_bind
    | apply frozen_modify; intros; split; [unfold Cursor; cbn [wal set_wal set_segs set_ckpt set_flocked]; repeat case_match; reflexivity|reflexivity]
    | progress cbv zeta
    | match goal with |- frozen (match ?x with _ => _ end) => destruct x end ].

Lemma frozen_sys e : frozen (sys e).
Proof. unfold sys. frozen. Qed.
Lemma frozen_write_cur b e : frozen (write_cur b e).
Proof. unfold write_cur. frozen. Qed.
#[local] Hint Resolve frozen_sys frozen_write_cur : cursors.
Lemma frozen_sync_cur e : frozen (sync_cur e).
Proof. unfold sync_cur. frozen. Qed.
Lemma frozen_close_cur e : frozen (close_cur e).
Proof. unfold close_cur. frozen. Qed.
Lemma frozen_open_append seg eo es : frozen (open_append seg eo es).
Proof. unfold open_append. frozen. Qed.
#[local] Hint Resolve frozen_sync_cur frozen_close_cur frozen_open_append : cursors.
Lemma frozen_ensureSpace n : frozen (ensureSpace n).
Proof. unfold ensureSpace, rotate. frozen. Qed.
#[local] Hint Resolve frozen_ensureSpace : cursors.
Lemma frozen_append_loop typ fbs : frozen (append_loop typ fbs).
Proof. induction fbs as [|fb fbs IH]; cbn [append_loop]; unfold append_one; frozen. Qed.
#[local] Hint Resolve frozen_append_loop : cursors.
Lemma frozen_AppendBatch typ fbs : frozen (AppendBatch typ fbs).
Proof. unfold AppendBatch, notifyAppend. frozen. Qed.
Lemma frozen_AppendEncoded typ seq fb : frozen (AppendEncoded typ seq fb).
Proof. unfold AppendEncoded, appendEncodedLocked, notifyAppend. frozen. Qed.
Lemma frozen_drop_segment : frozen drop_segment.
Proof. unfold drop_segment, remove_seg. frozen. Qed.
#[local] Hint Resolve frozen_drop_segment : cursors.
Lemma frozen_commit_loop fuel : forall b, frozen (commit_loop fuel b).
Proof. induction fuel as [|fuel IH]; intros b; cbn [commit_loop]; frozen. Qed.

(** *** Opening *)

Lemma frozen_remove_stale start l : frozen (remove_stale start l).
Proof. induction l as [|i l IH]; cbn [remove_stale]; unfold remove_seg; frozen. Qed.
Lemma frozen_index_segments start acked l : frozen (index_segments start acked l).
Proof. induction l as [|i l IH]; cbn [index_segments]; unfold indexSegment; frozen. Qed.
#[local] Hint Resolve frozen_remove_stale frozen_index_segments : cursors.
Lemma frozen_open_rest : frozen open_rest.
Proof. unfold open_rest, scanSegments, lastSegmentIdx. frozen. Qed.

(** [Open] reads the checkpoint and leaves it: the process starts at the cursor
    that was on the disk. *)
Lemma Open_cursor segSize s o s' : is_Some (read_ckpt (ckpt s)) -> Open segSize s = (o, s') ->
  ckpt s' = ckpt s /\ (o = Ok tt -> Cursor s' = disk_cursor s).
Proof.
  intros [[cp legacy] Hck] E. change (ckpt s') with (ckpt (snd (o, s'))).
  assert (H : wp (Open segSize) (fun o s' => ckpt s' = ckpt s /\ (o = Ok tt -> Cursor s' = disk_cursor s)) s).
  { apply (Open_begun _ _ _ cp legacy); [done|done|]. intros s1 _ E1 E2. unfold wp.
    destruct (frozen_open_rest s1) as [Hc Hd]. split; [congruence|]. intros _. rewrite Hc.
    unfold Cursor, disk_cursor. by rewrite E2, Hck. }
  unfold wp in H. by rewrite E in H.
Qed.

Lemma reopenings_cursor s s' : rtc reopening s s' -> is_Some (read_ckpt (ckpt s)) -> ckpt s' = ckpt s.
Proof.
  induction 1 as [|s s1 s2 Hr _ IH]; [done|]. intros Hck. destruct Hr as [s l segSize o s' Hre Ho].
  destruct (Open_cursor segSize (set_faults l (restart s)) o s' Hck Ho) as [E _].
  cbn in E. rewrite <- E. apply IH. by rewrite E.
Qed.

(** ** What moves it *)

(** Both cursors satisfy [P]. *)
Definition within (P : Z -> Prop) (s : World) : Prop := P (Cursor s) /\ P (disk_cursor s).
Definition confined {A} (P : Z -> Prop) (m : W A) : Prop := forall s, within P s -> within P (snd (m s)).

Lemma within_frozen P s s' : Cursor s' = Cursor s -> ckpt s' = ckpt s -> within P s -> within P s'.
Proof. unfold within, disk_cursor. by intros -> ->. Qed.

Lemma confined_bind {A B} P (m : W A) (k : A -> W B) :
  confined P m -> (forall a, confined P (k a)) -> confined P (bind m k).
Proof.
  intros Hm Hk s Hs. unfold bind. specialize (Hm s Hs). destruct (m s) as [[a|e|] s']; [by apply Hk|done|done].
Qed.
Lemma confined_frozen {A} P (m : W A) : frozen m -> confined P m.
Proof. intros Hm s. destruct (Hm s). by apply within_frozen. Qed.
#[local] Hint Resolve confined_frozen : cursors.

Lemma confined_persistLocked P now : confined P (persistLocked now).
Proof.
  intros s Hs. change (wp (persistLocked now) (fun _ s' => within P s') s).
  unfold persistLocked, saveCheckpoint, syncDir.
  repeat first [wp_step; cbn [bind_post] | apply wp_sys; intros ?; [|intros _]; cbn [bind_post]
    | apply wp_gets; cbn [bind_post] | apply wp_modify; cbn [bind_post]].
  all: first [exact Hs | split; apply Hs].
Qed.

Lemma confined_throttled P now : confined P (persistLockedThrottled now).
Proof.
  unfold persistLockedThrottled. apply confined_bind; [apply confined_frozen; frozen|]. intros w.
  repeat case_match; try apply confined_persistLocked. apply confined_frozen; frozen.
Qed.

Lemma confined_Commit P now seq : confined P (Commit now seq).
Proof.
  unfold Commit, commitLocked. apply confined_bind; [apply confined_frozen; frozen|]. intros w.
  destruct (pending w) as [|cur l]; [apply confined_frozen; frozen|].
  destruct (negb _); [apply confined_frozen; frozen|].
  apply confined_bind; [apply confined_frozen; frozen|]. intros _.
  apply confined_bind; [apply confined_frozen; frozen|]. intros w1.
  apply confined_bind; [apply confined_frozen, frozen_commit_loop|]. intros [];
    [apply confined_persistLocked|apply confined_throttled].
Qed.

Lemma confined_SetCursor (P : Z -> Prop) now ts : P ts -> confined P (SetCursor now ts).
Proof.
  intros Hts s Hs. unfold SetCursor, bind at 1, gets. destruct (_ <? _); [exact Hs|].
  unfold bind, modify. apply confined_persistLocked. split; [exact Hts|apply Hs].
Qed.

(** The policy moves the cursor back, to a positive boundary. *)
Definition downward (P : Z -> Prop) : Prop := forall b c, 0 < b -> b < c -> P c -> P b.

Lemma confined_ApplyBackfillPolicy P now policyNs boundaryNs : downward P ->
  confined P (ApplyBackfillPolicy now policyNs boundaryNs).
Proof.
  intros Hd s Hs. change (wp (ApplyBackfillPolicy now policyNs boundaryNs) (fun _ s' => within P s') s).
  assert (Hsave : forall (b : bool) s1, within P s1 -> wp (persistLocked now ;;; ret b) (fun _ s' => within P s') s1).
  { intros b s1 H1. exact (confined_bind P _ (fun _ => ret b) (confined_persistLocked P now)
      (fun _ => confined_frozen P (ret b) (frozen_ret b)) s1 H1). }
  unfold ApplyBackfillPolicy. wp_step. apply wp_gets. cbn [bind_post].
  destruct (w_legacyCheckpoint (wal s)); [wp_step; apply wp_modify; cbn [bind_post]; by apply Hsave|].
  destruct (_ =? _); [by apply wp_ret|]. cbv zeta. wp_step.
  destruct (negb _ && _ && _) eqn:E; [|apply wp_ret]; cbn [bind_post].
  - apply andb_true_iff in E as [[_ E1%Z.ltb_lt]%andb_true_iff E2%Z.ltb_lt]. apply wp_modify. cbn [bind_post].
    wp_step. apply wp_modify. cbn [bind_post]. apply Hsave. destruct Hs as [Hc Hk]. split; [by apply (Hd _ (Cursor s))|exact Hk].
  - wp_step. apply wp_modify. cbn [bind_post]. by apply Hsave.
Qed.

(** The cursors that an operation may set. *)
Definition aims (P : Z -> Prop) (x : lop) : Prop := match x with LCursor _ ts => P ts | _ => True end.

(** No operation, completed or cut short, moves a cursor out of [P]. *)
Lemma lop_confined P x : downward P -> aims P x -> confined P (lop_run x).
Proof.
  intros Hd Hx. destruct x as [typ fbs|typ seq fb|now seq|now ts|now p b]; cbn [lop_run].
  - apply confined_frozen, frozen_bind; [apply frozen_AppendBatch|]. frozen.
  - apply confined_frozen, frozen_AppendEncoded.
  - apply confined_Commit.
  - by apply confined_SetCursor.
  - apply confined_bind; [by apply confined_ApplyBackfillPolicy|]. intros. apply confined_frozen. frozen.
Qed.
