(* ===== verification/WalClose.v ===== *)
(** * Closing the log

    A process that stops in order closes the log: the checkpoint is saved without
    the throttle, and the lock is released whatever the calls answer. The next
    process finds the checkpoint that was in memory. *)
From S2P Require Import Prelude Protocol WalDisk WalScan Wal WalQueue WalCommit WalCalm WalOpen WalDurable WalCrash WalReopen WalCursor.
Local Open Scope Z_scope.
Local Open Scope go_scope.

(** ** What [Close] does *)

(** The files and the checkpoint in memory stay; the checkpoint on the disk is the
    one in memory when [Close] returns nil, and perhaps the older one otherwise. *)
Record closed (s : World) (o : outcome werr unit) (s' : World) : Prop := {
  cl_panic : o <> Panic;
  cl_segs : segs s' = segs s;
  cl_cp : w_cp (wal s') = w_cp (wal s);
  cl_ckpt : ckpt s' = ckpt s \/ ckpt s' = CkFile (w_cp (wal s)) false;
  cl_saved : o = Ok tt -> ckpt s' = CkFile (w_cp (wal s)) false;
  cl_lock : w_lockFile (wal s) = true -> flocked s' = false;
  cl_calm : faults s = [] -> faults s' = [] /\ (w_curFile (wal s) <> HClosed -> o = Ok tt) }.

(** The file is closed, or the error is kept. *)
Lemma close_file_spec s :
  wp (attempt (match w_curFile (wal s) with HNil => ret tt | _ => close_cur (ErrCloseSegment (w_curSeg (wal s))) end))
    (fun o s' => segs s' = segs s /\ w_cp (wal s') = w_cp (wal s) /\ ckpt s' = ckpt s /\
       w_lockFile (wal s') = w_lockFile (wal s) /\
       exists r, o = Ok r /\ r <> Panic /\
         (faults s = [] -> faults s' = [] /\ (w_curFile (wal s) <> HClosed -> r = Ok tt))) s.
Proof.
  apply wp_attempt. destruct (w_curFile (wal s)) eqn:E.
  - apply wp_ret. split_and!; try done. by exists (Ok tt).
  - unfold close_cur. wp_steps. rewrite E. wp_steps. apply wp_sys_tail; cbv beta iota.
    + split_and!; try done. eexists. split; [done|]. split; [done|]. cbn. by intros ->.
    + intros Hf. split_and!; try done. eexists. split; [done|]. split; [done|]. by intros Hf'.
  - unfold close_cur. wp_steps. rewrite E. apply wp_fail. split_and!; try done. eexists. split; [done|]. by split.
Qed.

Lemma Close_spec now s : wp (Close now) (closed s) s.
Proof.
  unfold Close. wp_step. apply wp_gets. cbn [bind_post]. wp_step.
  eapply wp_conseq; [apply close_file_spec|]. intros o s1 (E1 & E2 & E3 & E4 & r & -> & Hr & Hcalm). cbn [bind_post].
  wp_step. apply wp_modify. cbn [bind_post]. wp_step. apply wp_attempt.
  set (s2 := set_wal _ s1).
  assert (Hq : faults s2 = [] -> faults (snd (persistLocked now s2)) = []) by apply (quiet_persistLocked now s2).
  assert (Hok : faults s2 = [] -> fst (persistLocked now s2) = Ok tt) by (intros Hf; by rewrite persistLocked_calm).
  eapply (wp_conseq _ (fun o s' => (persist_post s2 o s' /\ (is_ok o = true -> ckpt s' = CkFile (w_cp (wal s')) false)) /\
    (faults s2 = [] -> faults s' = [] /\ o = Ok tt))).
  { apply wp_and; [apply persistLocked_spec|]. unfold wp. auto. }
  intros o s3 [[(Es & [t Ew] & Hck & _ & Ho) Hsaved] Hf3].
  assert (Ecp : w_cp (wal s3) = w_cp (wal s)) by (by rewrite Ew).
  assert (Hlock : w_lockFile (wal s3) = w_lockFile (wal s)) by (by rewrite Ew).
  assert (Hstep : ckpt s3 = ckpt s \/ ckpt s3 = CkFile (w_cp (wal s)) false).
  { destruct Hck as [Hck|Hck]; [left; rewrite Hck; exact E3|right; by rewrite Hck, Ecp]. }
  assert (Hend : forall o', o' <> Panic -> (o' = Ok tt -> o = Ok tt) -> (o = Ok tt -> r = Ok tt -> o' = Ok tt) ->
    closed s o' (if w_lockFile (wal s3) then set_flocked false (set_wal (with_lockFile false) s3) else s3)).
  { intros o' H1 H2 H3. rewrite Hlock.
    assert (Hf : faults s = [] -> faults s3 = [] /\ (w_curFile (wal s) <> HClosed -> o' = Ok tt)).
    { intros Hf. destruct (Hcalm Hf) as [Hf1 Hr1]. destruct (Hf3 Hf1) as [Hf2 Ho2]. split; [done|]. auto. }
    assert (Hsv : o' = Ok tt -> ckpt s3 = CkFile (w_cp (wal s)) false).
    { intros ->. rewrite <- Ecp. apply Hsaved. by rewrite (H2 eq_refl). }
    destruct (w_lockFile (wal s)) eqn:El; split; cbn; try done; first [exact (eq_trans Es E1)|congruence]. }
  destruct o as [[]|e|]; [| |done]; cbn [bind_post]; wp_step; apply wp_modify; cbn [bind_post];
    (destruct r as [[]|e'|]; [| |done]); first [apply wp_ret|apply wp_fail]; by apply Hend.
Qed.

Lemma confined_Close P now : confined P (Close now).
Proof.
  intros s Hs. pose proof (Close_spec now s) as H. unfold wp in H. destruct (Close now s) as [o s']. cbn [fst snd] in *.
  destruct H as [_ _ Hc Hk _ _ _]. destruct Hs as [H1 H2].
  assert (Hcur : Cursor s' = Cursor s) by (unfold Cursor; by rewrite Hc). split; [by rewrite Hcur|].
  unfold disk_cursor in *. by destruct Hk as [->| ->].
Qed.

(** ** Dying in it *)

(** What [Close] leaves can be recovered. When it returns nil this needs no care
    about a segment created anew: the checkpoint has been saved. *)
Lemma Close_survives now d q s o s' : stands d q s -> Close now s = (o, s') -> o = Ok tt \/ hazard s = false ->
  survives d (q_frames q) s'.
Proof.
  intros (lo & fss & k & [Hd Hl (j & Ha & Hj) Hc Hs]) E Hz. pose proof (Close_spec now s) as H. unfold wp in H.
  rewrite E in H. destruct H as [_ Es _ Hk Hsv _ _]. cbn [fst snd] in *.
  exists lo, fss, k, []. split; [by eapply disk_same|]. split; [|split; [by rewrite (lv_queue _ _ _ _ _ Hl)|done]].
  assert (Hmem : ckpt s' = CkFile (w_cp (wal s)) false -> ckpt_ok lo fss k s').
  { intros Ek. exists (w_cp (wal s)), false, j. by rewrite Ek. }
  destruct Hk as [Hk|Hk]; [|by apply Hmem]. destruct Hz as [->|Hz]; [by apply Hmem, Hsv|].
  apply (ckpt_ok_same _ _ _ s); [done|by apply Hc].
Qed.

(** ** Opening again *)

(** The log as the checkpoint describes it. *)
Lemma Open_checkpointed segSize lo fss torn cp legacy j s :
  disk lo fss torn s -> faults s = [] -> flocked s = false -> read_ckpt (ckpt s) = Some (cp, legacy) -> acks cp lo fss j ->
  Forall (fun fb => frame_seq fb < NextSeq cp) (concat fss) ->
  exists s', Open segSize s = (Ok tt, s') /\ Cursor s' = CursorNs cp /\ BackfillPolicyNs s' = BackfillNs cp /\
    NextSeq_ s' = Z.max 1 (NextSeq cp) /\ length (pending (wal s')) = (length (concat fss) - j)%nat.
Proof.
  intros Hd Hf Hl Hck Ha Hb. destruct fss as [|f0 rest].
  - assert (Es : segs s = ∅).
    { apply map_empty. intros i. apply eq_None_not_Some. rewrite (dk_dom _ _ _ _ Hd), len_nil. lia. }
    pose proof (ak_start _ _ _ _ Ha) as [H0 _]. eexists. split; [by apply (Open_empty segSize s cp legacy)|].
    split_and!; try done. unfold NextSeq_. cbn. lia.
  - pose proof (survives_on_disk _ _ _ _ _ _ _ _ Hd Hck Ha) as Hod.
    destruct (Open_state segSize s cp legacy lo (take j f0) (drop j f0) rest Hf Hl Hod) as (m' & c & E & _ & _ & _).
    eexists. split; [exact E|]. split; [done|]. split; [done|]. pose proof (ak_len _ _ _ _ Ha) as Hj. cbn [first List.hd] in Hj.
    destruct (maxSeq_spec (recovered_index lo (take j f0) (drop j f0) rest)) as (H0 & _ & Hmax).
    split.
    + unfold NextSeq_. cbn. destruct Hmax as [Hmax|Hmax]; [lia|].
      assert (Hin : maxSeq (recovered_index lo (take j f0) (drop j f0) rest) ∈ map frame_seq (drop j f0 ++ concat rest)).
      { rewrite <- (recovered_seqs lo (take j f0)). apply list_elem_of_fmap in Hmax as (fi & -> & Hfi). by apply list_elem_of_fmap_2. }
      apply list_elem_of_fmap in Hin as (fb & Efb & Hfb). rewrite Forall_forall in Hb. specialize (Hb fb).
      cbn [concat] in Hb. rewrite <- (take_drop j f0), <- app_assoc in Hb.
      rewrite Efb in *. specialize (Hb ltac:(apply elem_of_app; by right)). lia.
    + cbn. unfold pending. cbn. rewrite drop_0. rewrite <- (drop_seg_entries lo f0 rest j Hj), length_drop, length_seg_entries. done.
Qed.

(** Where the frame at the head of the queue is; the end of the log when it is
    empty. *)
Definition head_position (w : WAL) : Z * Z :=
  match pending w with fi :: _ => (fi_seg fi, fi_offset fi) | [] => (w_curSeg w, w_curOffset w) end.

(** The checkpoint in memory records every acknowledgement. It lags behind one only
    when a frame has been acknowledged in a segment while an older one was still
    there. *)
Definition up_to_date (w : WAL) : bool :=
  (SegStart (w_cp w) =? (head_position w).1) && (AckedBytes (w_cp w) =? (head_position w).2).

Lemma entries_at idx fbs : forall off k fi, entries idx off fbs !! k = Some fi ->
  fi_seg fi = idx /\ fi_offset fi = off + len (layout (take k fbs)).
Proof.
  induction fbs as [|fb fbs IH]; intros off [|k] fi; try done.
  - intros [= <-]. cbn. zlia.
  - cbn [entries lookup list_lookup take]. intros [-> ->]%IH. split; [done|]. rewrite layout_cons, len_app, len_record.
    unfold recordHeadLen. lia.
Qed.

Lemma layout_take_inj (f0 : list bytes) j k : (j <= k)%nat -> (k <= length f0)%nat ->
  len (layout (take j f0)) = len (layout (take k f0)) -> j = k.
Proof.
  intros Hjk Hk E. rewrite <- (take_drop j (take k f0)), take_take, Nat.min_l, layout_app, len_app in E by done.
  destruct (drop j (take k f0)) as [|fb l] eqn:Ed.
  - apply (f_equal length) in Ed. rewrite length_drop, length_take in Ed. cbn in Ed. lia.
  - rewrite layout_cons, len_app, len_record in E. pose proof (len_nonneg fb). pose proof (len_nonneg (layout l)). lia.
Qed.

(** The acknowledgement in the checkpoint is then exact. *)
Lemma up_to_date_exact lo fss k q w j : live lo fss k q w -> acks (w_cp w) lo fss j -> (j <= k)%nat ->
  up_to_date w = true -> j = k.
Proof.
  intros Hl Ha Hj [Hs%Z.eqb_eq Ho%Z.eqb_eq]%andb_true_iff.
  pose proof (lv_start _ _ _ _ _ Hl) as Hst. pose proof (ak_bytes _ _ _ _ Ha) as Hb. rewrite Hst, Z.eqb_refl in Hb.
  rewrite Hst in Hs. rewrite Hb in Ho. pose proof (lv_k _ _ _ _ _ Hl) as Hk.
  pose proof (lv_entries _ _ _ _ _ Hl) as He. unfold head_position in *.
  destruct fss as [|f0 rest]; [cbn in Hk; lia|]. cbn [first List.hd] in *.
  destruct (pending w) as [|fi l] eqn:Ep; cbn [fst snd] in *.
  - symmetry in He. apply map_eq_nil in He. apply (f_equal length) in He.
    rewrite length_drop, length_seg_entries in He. cbn in He.
    destruct (lv_end _ _ _ _ _ Hl) as [[? _]|(fss0 & fs & Efs & _ & Hseg & Hoff)]; [done|].
    assert (fss0 = []) as -> by (apply len_zero_nil; lia). injection Efs as -> ->. cbn [concat] in *. rewrite app_nil_r in *.
    apply (layout_take_inj fs); [done..|]. rewrite Ho, Hoff, take_ge; [done|lia].
  - destruct (drop k (seg_entries lo (f0 :: rest))) as [|fi' l'] eqn:Ed; [done|]. injection He as Hseg Hoff _ _ _.
    assert (Hat : seg_entries lo (f0 :: rest) !! k = Some fi') by (rewrite <- (Nat.add_0_r k), <- lookup_drop, Ed; done).
    cbn [seg_entries] in Hat. apply lookup_app_Some in Hat as [Hat|[_ Hat]].
    + pose proof (lookup_lt_Some _ _ _ Hat) as Hlt. rewrite length_entries in Hlt.
      apply entries_at in Hat as [_ Hof]. apply (layout_take_inj f0); [done|lia|]. lia.
    + apply list_elem_of_lookup_2 in Hat. pose proof (seg_entries_in rest (lo + 1)) as Hin.
      rewrite Forall_forall in Hin. destruct (Hin fi' Hat) as [Hr _]. lia.
Qed.

(** C18: an orderly stop loses nothing and, once the checkpoint is up to date,
    repeats nothing. On a log that stands, [Close] returns nil, saves the
    checkpoint and releases the lock, and the next [Open] succeeds: it finds the
    cursor, the policy and the next sequence number as they were, and the pending
    frames, preceded by those acknowledged frames that the checkpoint had not
    recorded; there are none when the checkpoint points at the head of the queue. *)
Theorem Close_Open now segSize d q s :
  stands d q s -> faults s = [] -> w_lockFile (wal s) = true ->
  exists s1 s2 d2 back q2, Close now s = (Ok tt, s1) /\ flocked s1 = false /\ Open segSize s1 = (Ok tt, s2) /\
    Cursor s2 = Cursor s /\ BackfillPolicyNs s2 = BackfillPolicyNs s /\ q_next q2 = Z.max 1 (q_next q) /\
    stands d2 q2 s2 /\ log_ok s2 q2 /\ d = d2 ++ back /\ q_frames q2 = back ++ q_frames q /\
    (up_to_date (wal s) = true -> back = []).
Proof.
  intros Hst Hf Hlock. pose proof (stands_represents _ _ _ Hst) as (_ & _ & Hh).
  pose proof (Close_spec now s) as H. unfold wp in H. destruct (Close now s) as [o s1] eqn:Ec. cbn [fst snd] in H.
  destruct H as [_ Es Ecp _ Hsv Hfl Hcalm]. destruct (Hcalm Hf) as [Hf1 Ho]. specialize (Ho Hh). subst o.
  specialize (Hsv eq_refl). specialize (Hfl Hlock).
  pose proof (Close_survives now d q s (Ok tt) s1 Hst Ec (or_introl eq_refl)) as Hsurv.
  destruct (recover d (q_frames q) s1 segSize Hsurv Hf1 Hfl) as (s2 & d2 & back & q2 & Eo & Hf2 & Hst2 & Hd & Hq).
  destruct Hst as (lo & fss & k & [Hdisk Hl (j & Ha & Hj) _ _]).
  destruct (Open_checkpointed segSize lo fss [] (w_cp (wal s)) false j s1) as (s2' & Eo' & H1 & H2 & H3 & H4);
    [by eapply disk_same|done|done|by rewrite Hsv|done|by rewrite (lv_next _ _ _ _ _ Hl); apply (lv_below _ _ _ _ _ Hl)|].
  assert (s2' = s2) as -> by congruence. pose proof (stands_represents _ _ _ Hst2) as (_ & [Hh2 Hn2] & _).
  exists s1, s2, d2, back, q2. do 5 (split; [done|]). split; [|split; [done|split; [by eapply stands_log_ok|split; [done|split; [done|]]]]].
  - rewrite <- Hn2. change (NextSeq (w_cp (wal s2))) with (NextSeq_ s2). by rewrite H3, (lv_next _ _ _ _ _ Hl).
  - intros Hup. apply length_zero_iff_nil. apply Forall2_length in Hh2.
    rewrite Hq, length_app, H4, (lv_queue _ _ _ _ _ Hl), length_map, length_drop in Hh2.
    pose proof (up_to_date_exact lo fss k q (wal s) j Hl Ha Hj Hup). lia.
Qed.

(** ** Witness *)

(** The first of two frames has been acknowledged. *)
Definition one_acked : World := snd (Commit 5 1 two).

Lemma one_acked_stands : exists d q, stands d q one_acked /\ d = [(1, put_seq frame1 1)] /\ q = mkQueue [(2, put_seq frame2 2)] 3.
Proof.
  destruct (stands_lop (LCommit 5 1) [] two_queue two one_acked) as (d & q & Hp & Hst & _);
    [apply two_stands|reflexivity|discriminate|vm_compute; reflexivity|].
  exists d, q. split; [exact Hst|]. inversion Hp as [| |? h rest Hq| |]; subst. by injection Hq as <- <-.
Qed.

Lemma Close_Open_witness : exists s1 s2 q2, Close 6 one_acked = (Ok tt, s1) /\ Open 0 s1 = (Ok tt, s2) /\
  log_ok s2 q2 /\ q_frames q2 = [(2, put_seq frame2 2)] /\ q_next q2 = 3.
Proof.
  destruct one_acked_stands as (d & q & Hst & -> & ->).
  destruct (Close_Open 6 0 [(1, put_seq frame1 1)] (mkQueue [(2, put_seq frame2 2)] 3) one_acked Hst) as
    (s1 & s2 & d2 & back & q2 & E1 & _ & E2 & _ & _ & Hn & _ & Hl & _ & Hq & Hback);
    [vm_compute; reflexivity|vm_compute; reflexivity|].
  exists s1, s2, q2. split; [exact E1|]. split; [exact E2|]. split; [exact Hl|].
  rewrite Hq, Hback by (vm_compute; reflexivity). split; [done|]. rewrite Hn. reflexivity.
Defined.
