(* ===== verification/SeqTracker.v ===== *)
(** * The in-order sequence tracker of the receiver ([seqTracker] in
    [internal/receiver/receiver.go]): frames complete in any order and the
    tracker reports the end of the contiguous run. *)
From S2P Require Import Prelude.
Local Open Scope Z_scope.

(** ** Definitions *)

Definition seqJumpLimit : Z := 100000.
Definition seqPendingLimit : Z := 65536.

Record seqTracker := mkST { st_last : Z; st_pending : gset Z }.

Definition newSeqTracker : seqTracker := mkST 0 ∅.

Definition init (v : Z) : seqTracker := mkST v ∅.

Definition closeGap (upTo : Z) (t : seqTracker) : seqTracker :=
  let last := if st_last t <? upTo then upTo else st_last t in
  mkST last (filter (fun s => ~ s <= last) (st_pending t)).

(** The loop of [done]: consume [last + 1] while it is pending. *)
Fixpoint advance (fuel : nat) (t : seqTracker) (advanced : bool) : seqTracker * bool :=
  match fuel with
  | O => (t, advanced)
  | S fuel' =>
      let next := u64 (st_last t + 1) in
      if decide (next ∈ st_pending t)
      then advance fuel' (mkST next (st_pending t ∖ {[next]})) true
      else (t, advanced)
  end.

(** One turn per pending number, and the one that finds none. *)
Definition advance_fuel (t : seqTracker) : nat := S (size (st_pending t)).

Definition done_seq (seq : Z) (t : seqTracker) : seqTracker * bool :=
  if seq <=? st_last t then (t, false)
  else if u64 (st_last t + seqJumpLimit) <? seq then (mkST seq ∅, true)
  else
    let t1 := mkST (st_last t) ({[seq]} ∪ st_pending t) in
    let '(t2, advanced) := advance (advance_fuel t1) t1 false in
    if seqPendingLimit <? Z.of_nat (size (st_pending t2))
    then (mkST (st_last t2) ∅, advanced)
    else (t2, advanced).

Definition load (t : seqTracker) : Z := st_last t.

(** The frames known to be complete. *)
Definition completed (t : seqTracker) (s : Z) : Prop := s <= st_last t \/ s ∈ st_pending t.

(** ** Invariant *)

Record st_inv (t : seqTracker) : Prop := {
  st_inv_last : is_u64 (st_last t);
  st_inv_pending : forall s, s ∈ st_pending t -> st_last t < s < 2 ^ 64;
  st_inv_size : Z.of_nat (size (st_pending t)) <= seqPendingLimit }.

Lemma st_next t : is_u64 (st_last t) -> (forall s, s ∈ st_pending t -> st_last t < s < 2 ^ 64) ->
  u64 (st_last t + 1) ∈ st_pending t -> u64 (st_last t + 1) = st_last t + 1.
Proof.
  intros Hu Hp Hin. specialize (Hp _ Hin). destruct (decide (st_last t + 1 = 2 ^ 64)) as [E|E].
  - rewrite E in Hp. change (u64 (2 ^ 64)) with 0 in Hp. unfold is_u64 in Hu. lia.
  - apply u64_small. unfold is_u64 in *. lia.
Qed.

(** The loop keeps the completed set, ends with [last + 1] not pending, and
    says whether [last] moved. *)
Lemma advance_spec fuel : forall t b,
  is_u64 (st_last t) -> (forall s, s ∈ st_pending t -> st_last t < s < 2 ^ 64) ->
  (size (st_pending t) < fuel)%nat ->
  let '(t', b') := advance fuel t b in
  is_u64 (st_last t') /\ st_last t <= st_last t' /\
  (forall s, s ∈ st_pending t' -> st_last t' + 1 < s < 2 ^ 64) /\
  (forall s, completed t' s <-> completed t s) /\
  (size (st_pending t') <= size (st_pending t))%nat /\
  b' = b || (st_last t <? st_last t').
Proof.
  induction fuel as [|fuel IH]; intros t b Hu Hp Hf; [lia|]. cbn [advance].
  destruct (decide (u64 (st_last t + 1) ∈ st_pending t)) as [Hin|Hout].
  - pose proof (st_next t Hu Hp Hin) as En. rewrite En in *. pose proof (Hp _ Hin) as Hr.
    set (t1 := mkST (st_last t + 1) (st_pending t ∖ {[st_last t + 1]})).
    assert (Hsz : (size (st_pending t1) < size (st_pending t))%nat).
    { apply subset_size. unfold t1; cbn. split; [intros s [Hs _]%elem_of_difference; done|].
      intros Hsub. specialize (Hsub _ Hin). by apply elem_of_difference in Hsub as [_ []%not_elem_of_singleton]. }
    specialize (IH t1 true). destruct (advance fuel t1 true) as [t' b'].
    destruct IH as (Hu' & Hl & Hp' & Hc & Hs & Hb).
    { unfold t1, is_u64 in *; cbn. lia. }
    { intros s Hs. unfold t1 in *; cbn in *. apply elem_of_difference in Hs as [Hs Hne].
      rewrite elem_of_singleton in Hne. specialize (Hp s Hs). lia. }
    { lia. }
    unfold t1 in Hl; cbn in Hl.
    split; [done|]. split; [lia|]. split; [done|]. split; [|split; [lia|]].
    + intros s. rewrite Hc. unfold completed, t1; cbn.
      rewrite elem_of_difference, elem_of_singleton.
      destruct (decide (s = st_last t + 1)) as [->|].
      { split; [by right|left; lia]. }
      assert (s <= st_last t + 1 <-> s <= st_last t) as -> by lia. tauto.
    + subst b'. destruct (Z.ltb_spec (st_last t) (st_last t')); [|lia]. by rewrite orb_true_r.
  - split; [done|]. split; [lia|]. split; [|split; [done|split; [lia|]]].
    + intros s Hs. pose proof (Hp s Hs). split; [|lia].
      destruct (decide (s = st_last t + 1)) as [->|]; [|lia].
      rewrite u64_small in Hout by (unfold is_u64 in *; lia). done.
    + by rewrite Z.ltb_irrefl, orb_false_r.
Qed.

Definition in_window (t : seqTracker) (seq : Z) : Prop := seq <= u64 (st_last t + seqJumpLimit).

(** What recording a frame inside the jump window does. *)
Lemma done_seq_spec seq t :
  st_inv t -> is_u64 seq -> st_last t < seq -> in_window t seq ->
  let '(t', b) := done_seq seq t in
  st_inv t' /\ st_last t <= st_last t' /\ b = (st_last t <? st_last t') /\
  (forall s, s <= st_last t' <-> forall x, x <= s -> completed t x \/ x = seq) /\
  ((forall s, completed t' s <-> completed t s \/ s = seq) \/
   st_pending t' = ∅ /\ seqPendingLimit <= Z.of_nat (size (st_pending t))).
Proof.
  intros [Hu Hp Hs] Hq Hl Hw. unfold done_seq, in_window in *.
  destruct (Z.leb_spec seq (st_last t)); [lia|].
  destruct (Z.ltb_spec (u64 (st_last t + seqJumpLimit)) seq); [lia|].
  set (t1 := mkST (st_last t) ({[seq]} ∪ st_pending t)).
  assert (Hp1 : forall s, s ∈ st_pending t1 -> st_last t1 < s < 2 ^ 64).
  { intros s. unfold t1; cbn. rewrite elem_of_union, elem_of_singleton. unfold is_u64 in *.
    intros [->|Hin]; [lia|]. specialize (Hp s Hin). lia. }
  assert (Hsz1 : (size (st_pending t1) <= S (size (st_pending t)))%nat).
  { unfold t1; cbn. rewrite size_union_alt, size_singleton.
    assert (size (st_pending t ∖ {[seq]}) <= size (st_pending t))%nat; [|lia].
    apply subseteq_size. by intros s [? _]%elem_of_difference. }
  pose proof (advance_spec (advance_fuel t1) t1 false Hu Hp1 ltac:(unfold advance_fuel; lia)) as HA.
  destruct (advance (advance_fuel t1) t1 false) as [t2 b].
  destruct HA as (Hu2 & Hl2 & Hp2 & Hc2 & Hsz2 & ->).
  assert (Hc2' : forall s, completed t2 s <-> completed t s \/ s = seq).
  { intros s. rewrite Hc2. unfold completed, t1; cbn.
    rewrite elem_of_union, elem_of_singleton. tauto. }
  assert (Hrun : forall s, s <= st_last t2 <-> forall x, x <= s -> completed t x \/ x = seq).
  { intros s. split.
    - intros Hle x Hx. apply Hc2'. left. lia.
    - intros Hall. destruct (Z_le_gt_dec s (st_last t2)) as [|Hgt]; [done|].
      assert (completed t2 (st_last t2 + 1)) as [?|Hin] by (apply Hc2', Hall; lia); [lia|].
      specialize (Hp2 _ Hin). lia. }
  destruct (Z.ltb_spec seqPendingLimit (Z.of_nat (size (st_pending t2)))).
  - split; [|split; [exact Hl2|split; [done|split; [done|]]]].
    + split; cbn; [done|by intros s ?%elem_of_empty|by rewrite size_empty].
    + right. split; [done|]. lia.
  - split; [split; [done| |lia]|]. { intros s Hin. specialize (Hp2 s Hin). lia. }
    split; [exact Hl2|]. split; [done|]. split; [done|]. by left.
Qed.

Lemma done_seq_old seq t : seq <= st_last t -> done_seq seq t = (t, false).
Proof. intros H. unfold done_seq. by destruct (Z.leb_spec seq (st_last t)); [|lia]. Qed.

Lemma done_seq_jump seq t : st_last t < seq -> ~ in_window t seq -> done_seq seq t = (mkST seq ∅, true).
Proof.
  intros H Hw. unfold done_seq, in_window in *. destruct (Z.leb_spec seq (st_last t)); [lia|].
  by destruct (Z.ltb_spec (u64 (st_last t + seqJumpLimit)) seq); [|lia].
Qed.

(** C22: the tracker never passes a frame that is not complete: whatever is
    pending, and even when the pending set overflows and is cleared, recording
    [seq] moves [last] only over numbers that were complete or are [seq]
    itself, unless [seq] is beyond the jump limit; the invariant is preserved
    and the result says whether [last] moved. *)
Theorem done_never_skips seq t :
  st_inv t -> is_u64 seq ->
  let '(t', advanced) := done_seq seq t in
  st_inv t' /\ st_last t <= st_last t' /\ advanced = (st_last t <? st_last t') /\
  (forall s, st_last t < s <= st_last t' ->
     completed t s \/ s = seq \/ u64 (st_last t + seqJumpLimit) < seq).
Proof.
  intros Hi Hq. destruct (Z_le_gt_dec seq (st_last t)) as [Ho|Hn].
  { rewrite done_seq_old by done. split; [done|]. split; [lia|]. rewrite Z.ltb_irrefl.
    split; [done|]. lia. }
  destruct (Z_le_gt_dec seq (u64 (st_last t + seqJumpLimit))) as [Hw|Hw].
  - pose proof (done_seq_spec seq t Hi Hq ltac:(lia) Hw) as H.
    destruct (done_seq seq t) as [t' b]. destruct H as (Hi' & Hl & -> & Hrun & _).
    split; [done|]. split; [done|]. split; [done|]. intros s Hs.
    destruct (proj1 (Hrun s) ltac:(lia) s); [lia|by left|by right; left].
  - rewrite done_seq_jump by (unfold in_window; lia). cbn.
    split; [split; cbn; [done|intros s Hs; by apply elem_of_empty in Hs|by rewrite size_empty]|].
    split; [lia|]. destruct (Z.ltb_spec (st_last t) seq); [|lia]. split; [done|]. intros. lia.
Qed.

Lemma size_list_to_set_le (l : list Z) : (size (list_to_set l : gset Z) <= length l)%nat.
Proof.
  induction l as [|x l IH]; cbn [list_to_set length]; [by rewrite size_empty|].
  rewrite size_union_alt, size_singleton.
  assert (size ((list_to_set l : gset Z) ∖ {[x]}) <= size (list_to_set l : gset Z))%nat; [|lia].
  apply subseteq_size. by intros s [? _]%elem_of_difference.
Qed.

Definition done_all (l : list Z) (t : seqTracker) : seqTracker :=
  foldl (fun t s => fst (done_seq s t)) t l.

Lemma done_all_completed v l :
  0 <= v -> v + 2 * seqJumpLimit < 2 ^ 64 -> Forall (fun s => 0 <= s <= v + seqJumpLimit) l ->
  len l <= seqPendingLimit ->
  let t := done_all l (init v) in
  st_inv t /\ v <= st_last t /\ (forall s, completed t s <-> s <= v \/ s ∈ l) /\
  (forall s, s <= st_last t <-> forall x, x <= s -> completed t x).
Proof.
  intros Hv Hb. induction l as [|q l IH] using rev_ind; intros Hl Hn.
  { cbn. split; [|split; [lia|split]].
    - split; cbn; [unfold is_u64, seqJumpLimit in *; lia|intros s Hs; by apply elem_of_empty in Hs|done].
    - intros s. unfold completed; cbn. by rewrite elem_of_empty, elem_of_nil.
    - intros s. unfold completed; cbn. split; [intros ? ? ?; left; lia|].
      intros H. destruct (H s ltac:(lia)) as [?|Hin]; [done|]. by apply elem_of_empty in Hin. }
  apply Forall_app in Hl as [Hl Hq]. apply Forall_cons in Hq as [Hq _].
  unfold done_all. rewrite foldl_app. cbn [foldl]. fold (done_all l (init v)).
  rewrite len_app in Hn. destruct (IH Hl ltac:(zlia)) as (Hi & Hv' & Hc & Hrun).
  set (t := done_all l (init v)) in *.
  assert (Hc1 : forall s, completed t s \/ s = q <-> s <= v \/ s ∈ l ++ [q]).
  { intros s. rewrite Hc, elem_of_app, list_elem_of_singleton. tauto. }
  destruct (Z_le_gt_dec q (st_last t)) as [Ho|Hnew].
  { rewrite done_seq_old by done. cbn [fst]. split; [done|]. split; [done|]. split; [|done].
    intros s. rewrite <- Hc1. split; [by left|]. intros [| ->]; [done|by left]. }
  assert (Hlast : st_last t <= v + seqJumpLimit).
  { assert (completed t (st_last t)) as [H|H]%Hc by (by left); [unfold seqJumpLimit; lia|].
    rewrite Forall_forall in Hl. apply Hl, H. }
  assert (Hw : in_window t q).
  { unfold in_window. rewrite u64_small; unfold is_u64, seqJumpLimit in *; lia. }
  assert (Hsz : Z.of_nat (size (st_pending t)) <= len l).
  { unfold len. apply inj_le. rewrite <- (size_list_to_set_le l).
    apply subseteq_size. intros s Hs. apply elem_of_list_to_set.
    assert (completed t s) as [H|H]%Hc by (by right); [|done].
    destruct Hi as [_ Hp _]. specialize (Hp s Hs). lia. }
  pose proof (done_seq_spec q t Hi ltac:(unfold is_u64, seqJumpLimit in *; lia) ltac:(lia) Hw) as H.
  destruct (done_seq q t) as [t' b]. cbn [fst].
  destruct H as (Hi' & Hl' & _ & Hrun' & [Hcomp|[_ Hover]]).
  - split; [done|]. split; [lia|]. split; [intros s; by rewrite Hcomp, Hc1|].
    intros s. rewrite Hrun'. setoid_rewrite Hcomp. done.
  - change (len [q]) with 1 in Hn. lia.
Qed.

(** The order of completion does not matter: starting from [v], after the
    frames of any list [l] within the jump window, [last] is the end of the
    longest run that starts after [v] and lies in [l] - each number up to it
    was at most [v] or is in [l], and no larger number has that property. *)
Theorem done_all_contiguous v l :
  0 <= v -> v + 2 * seqJumpLimit < 2 ^ 64 -> Forall (fun s => 0 <= s <= v + seqJumpLimit) l ->
  len l <= seqPendingLimit ->
  forall s, s <= st_last (done_all l (init v)) <-> (forall x, v < x <= s -> x ∈ l).
Proof.
  intros Hv Hb Hl Hn s. destruct (done_all_completed v l Hv Hb Hl Hn) as (_ & _ & Hc & ->).
  setoid_rewrite Hc. split.
  - intros H x Hx. destruct (H x ltac:(lia)); [lia|done].
  - intros H x Hx. destruct (Z_le_gt_dec x v); [by left|]. right. apply H. lia.
Qed.

(** ** Closing a gap *)

Lemma closeGap_spec upTo t : st_inv t -> is_u64 upTo ->
  let t' := closeGap upTo t in
  st_inv t' /\ st_last t' = Z.max (st_last t) upTo /\
  (forall s, completed t' s <-> completed t s \/ s <= upTo).
Proof.
  intros [Hu Hp Hs] Hq t'.
  assert (El : st_last t' = Z.max (st_last t) upTo).
  { unfold t', closeGap; cbn. destruct (Z.ltb_spec (st_last t) upTo); lia. }
  assert (Ep : forall s, s ∈ st_pending t' <-> st_last t' < s /\ s ∈ st_pending t).
  { intros s. unfold t', closeGap; cbn. rewrite elem_of_filter.
    destruct (st_last t <? upTo); (split; intros [? ?]; (split; [lia|done])). }
  split; [split|split; [done|]].
  - rewrite El. unfold is_u64 in *. lia.
  - intros s [H1 H2]%Ep. specialize (Hp s H2). lia.
  - assert (size (st_pending t') <= size (st_pending t))%nat; [|lia].
    apply subseteq_size. by intros s [_ ?]%Ep.
  - intros s. unfold completed. rewrite Ep, El.
    set (P := s ∈ st_pending t). clearbody P. split.
    + intros [H|[_ H]]; [|by left; right]. destruct (Z_le_gt_dec s upTo); [by right|left; left; lia].
    + intros [[H|H]|H]; [left; lia| |left; lia].
      destruct (Z_le_gt_dec s (Z.max (st_last t) upTo)); [by left|right; split; [lia|done]].
Qed.

(** ** Witnesses *)

Lemma done_never_skips_witness :
  let '(t', advanced) := done_seq 6 (mkST 4 {[5; 7]}) in
  st_last t' = 7 /\ advanced = true /\ st_inv t'.
Proof.
  assert (Hi : st_inv (mkST 4 {[5; 7]})).
  { split; [by vm_compute| |by vm_compute]. cbn. intros s. rewrite elem_of_union, !elem_of_singleton. lia. }
  pose proof (done_never_skips 6 (mkST 4 {[5; 7]}) Hi ltac:(by vm_compute)) as H.
  destruct (done_seq 6 (mkST 4 {[5; 7]})) as [t' b] eqn:E. vm_compute in E. injection E as <- <-.
  split; [reflexivity|]. split; [reflexivity|]. apply H.
Defined.

Lemma done_all_contiguous_witness :
  st_last (done_all [3; 1; 5; 2] (init 0)) = 3 /\
  (3 <= st_last (done_all [3; 1; 5; 2] (init 0)) <-> (forall x, 0 < x <= 3 -> x ∈ [3; 1; 5; 2])).
Proof.
  split; [by vm_compute|]. apply done_all_contiguous; try (by vm_compute).
  repeat constructor; by vm_compute.
Defined.
