(* ===== verification/VmClient.v ===== *)
(** * The VictoriaMetrics client ([internal/vm/client.go]): what each request
    makes of the server's answer, the search for the oldest sample, and the
    extraction of the newest timestamp of an export.

    The HTTP transport is a parameter: [http_result] is what [http.Client.Do]
    and the reads of the response body give to the code. *)
From S2P Require Import Prelude GoBytes.
Local Open Scope Z_scope.

(** ** Answers and errors *)

Inductive http_result : Type :=
| HBuild (msg : bytes)                (** [http.NewRequestWithContext] failed *)
| HErr (msg : bytes)                  (** [Do] failed *)
| HReply (status : Z) (body : bytes) (read_ok : bool).

Inductive vmerr : Type :=
| VmBuild | VmDo | VmRead | VmTooLarge | VmStatus (code : Z) (body : bytes).

(** [*ImportHTTPError], or any other error with its text. *)
Inductive import_error : Type :=
| ImportHTTPError (StatusCode : Z) (Body : bytes)
| ImportOther (msg : bytes).

Definition StatusOK : Z := 200.
Definition StatusNoContent : Z := 204.

Definition truncate (s : bytes) (n : Z) : bytes :=
  if len s <=? n then s else take (Z.to_nat n) s ++ lit "...".

(** [err.Error()]. *)
Definition import_error_text (e : import_error) : bytes :=
  match e with
  | ImportHTTPError code body =>
      lit "vm: import http " ++ Sprintf_d code ++ lit ": " ++ truncate body 512
  | ImportOther msg => msg
  end.

(** ** Requests *)

Definition maxExportRespBytes : Z := Z.shiftl 512 20.

(** [io.ReadAll(io.LimitReader(body, n))]. *)
Definition read_limited (body : bytes) (read_ok : bool) (n : Z) : option bytes :=
  if n <=? len body then Some (take (Z.to_nat n) body)
  else if read_ok then Some body else None.

Definition ExportRange (r : http_result) : outcome vmerr bytes :=
  match r with
  | HBuild _ => Err VmBuild
  | HErr _ => Err VmDo
  | HReply status body read_ok =>
      match read_limited body read_ok (maxExportRespBytes + 1) with
      | None => Err VmRead
      | Some b =>
          if maxExportRespBytes <? len b then Err VmTooLarge
          else if negb (status =? StatusOK) then Err (VmStatus status (truncate b 512))
          else Ok b
      end
  end.

Definition ExportHasData (r : http_result) : outcome vmerr bool :=
  match r with
  | HBuild _ => Err VmBuild
  | HErr _ => Err VmDo
  | HReply status body read_ok =>
      if negb (status =? StatusOK) then
        Err (VmStatus status (truncate (match read_limited body read_ok 4096 with
                                        | Some b => b | None => body end) 512))
      else match body with
           | _ :: _ => Ok true
           | [] => if read_ok then Ok false else Err VmRead
           end
  end.

Definition ImportWrite (r : http_result) (raw : bytes) : outcome import_error unit :=
  if len raw =? 0 then Ok tt
  else
    match r with
    | HBuild msg => Err (ImportOther (lit "vm: build import: " ++ msg))
    | HErr msg =>
        Err (ImportOther (lit "vm: import " ++ Sprintf_d (len raw) ++ lit " bytes: " ++ msg))
    | HReply status body read_ok =>
        if negb (status =? StatusNoContent) && negb (status =? StatusOK)
        then Err (ImportHTTPError status (match read_limited body read_ok 4096 with
                                          | Some b => b | None => body end))
        else Ok tt
    end.

Definition ForceFlush (r : http_result) : outcome vmerr unit :=
  match r with
  | HBuild _ => Err VmBuild
  | HErr _ => Err VmDo
  | HReply status _ _ => if negb (status =? StatusOK) then Err (VmStatus status []) else Ok tt
  end.

(** ** The oldest sample *)

Section probe.
(** [c.ExportHasData(ctx, 0, x)]: is there a sample before [x]? *)
Context (hasData : Z -> outcome vmerr bool).

(** The loop [for hi-lo > 1]. *)
Fixpoint probe_loop (fuel : nat) (lo hi : Z) : outcome vmerr Z :=
  if hi - lo <=? 1 then Ok lo
  else match fuel with
       | O => Panic
       | S fuel' =>
           let mid := lo + Z.quot (hi - lo) 2 in
           match hasData mid with
           | Err e => Err e
           | Panic => Panic
           | Ok true => probe_loop fuel' lo mid
           | Ok false => probe_loop fuel' mid hi
           end
       end.

(** Each turn halves the interval. *)
Definition probe_fuel (now : Z) : nat := S (Z.to_nat (Z.log2 now)).

Definition ProbeOldestData (now : Z) : outcome vmerr Z :=
  match hasData now with
  | Err e => Err e
  | Panic => Panic
  | Ok false => Ok 0
  | Ok true => probe_loop (probe_fuel now) 0 now
  end.
End probe.

(** ** The newest timestamp *)

Definition timestamps_key : bytes := 34 :: lit "timestamps" ++ [34; 58; 91].

Definition lastTsInLine (line : bytes) : Z :=
  let idx := LastIndex line timestamps_key in
  if idx <? 0 then 0
  else
    let rest := drop (Z.to_nat (idx + len timestamps_key)) line in
    let fin := IndexByte rest 93 in
    if fin <? 0 then 0
    else
      let rest := take (Z.to_nat fin) rest in
      let last := LastIndexByte rest 44 in
      let tok := if 0 <=? last then drop (Z.to_nat (last + 1)) rest else rest in
      match ParseInt (TrimSpace tok) with Some ts => ts | None => 0 end.

Definition LastSampleTimestamp (raw : bytes) : Z :=
  foldl (fun maxTs line =>
    if len line =? 0 then maxTs
    else let ts := lastTsInLine line in if maxTs <? ts then ts else maxTs)
    0 (SplitByte NL raw).

(** ** The search is right *)

Lemma quot_half n : 0 <= n -> 2 * Z.quot n 2 <= n < 2 * Z.quot n 2 + 2.
Proof.
  intros Hn. rewrite Z.quot_div_nonneg by lia.
  pose proof (Z.div_mod n 2 ltac:(lia)). pose proof (Z.mod_pos_bound n 2 ltac:(lia)). lia.
Qed.

(** Whatever the answers, the search ends before its fuel does. *)
Lemma probe_loop_total hasData fuel : (forall x, hasData x <> Panic) -> forall lo hi,
  hi - lo <= 2 ^ Z.of_nat fuel -> probe_loop hasData fuel lo hi <> Panic.
Proof.
  intros Hd. induction fuel as [|fuel IH]; intros lo hi Hf; cbn [probe_loop].
  - change (2 ^ Z.of_nat 0) with 1 in Hf. destruct (Z.leb_spec (hi - lo) 1); [done|lia].
  - destruct (Z.leb_spec (hi - lo) 1); [done|].
    rewrite Nat2Z.inj_succ, Z.pow_succ_r in Hf by lia.
    pose proof (quot_half (hi - lo) ltac:(lia)).
    destruct (hasData _) as [[]|e|] eqn:E; [apply IH; lia|apply IH; lia|done|].
    by apply Hd in E.
Qed.

Lemma probe_loop_spec hasData oldest fuel :
  (forall x, hasData x = Ok (oldest <? x)) -> forall lo hi,
  lo <= oldest < hi -> hi - lo <= 2 ^ Z.of_nat fuel ->
  probe_loop hasData fuel lo hi = Ok oldest.
Proof.
  intros Hd. induction fuel as [|fuel IH]; intros lo hi Hb Hf; cbn [probe_loop].
  - change (2 ^ Z.of_nat 0) with 1 in Hf. destruct (Z.leb_spec (hi - lo) 1); [f_equal; lia|lia].
  - destruct (Z.leb_spec (hi - lo) 1); [f_equal; lia|].
    rewrite Nat2Z.inj_succ, Z.pow_succ_r in Hf by lia.
    pose proof (quot_half (hi - lo) ltac:(lia)). rewrite Hd.
    destruct (Z.ltb_spec oldest (lo + Z.quot (hi - lo) 2)); apply IH; lia.
Qed.

Lemma probe_fuel_enough now : 0 <= now -> now - 0 <= 2 ^ Z.of_nat (probe_fuel now).
Proof.
  intros Hn. unfold probe_fuel. pose proof (Z.log2_nonneg now).
  rewrite Nat2Z.inj_succ, Z2Nat.id by done.
  destruct (Z.eq_dec now 0) as [->|]; [by vm_compute|].
  pose proof (Z.log2_spec now ltac:(lia)). lia.
Qed.

Lemma list_least (l : list Z) : l = [] \/ exists t, t ∈ l /\ Forall (fun t' => t <= t') l.
Proof.
  induction l as [|x l [->|(t & Ht & Hl)]]; [by left|right..].
  - exists x. split; [apply list_elem_of_here|]. constructor; [lia|constructor].
  - destruct (Z_le_gt_dec x t).
    + exists x. split; [apply list_elem_of_here|]. constructor; [lia|].
      eapply Forall_impl; [exact Hl|]. cbn. lia.
    + exists t. split; [by apply list_elem_of_further|]. constructor; [lia|done].
Qed.

(** A database that answers truthfully and does not change. *)
Definition truthful (samples : list Z) (x : Z) : outcome vmerr bool :=
  Ok (existsb (fun t => t <? x) samples).

Lemma truthful_least samples t x : t ∈ samples -> Forall (fun t' => t <= t') samples ->
  existsb (fun t => t <? x) samples = (t <? x).
Proof.
  intros Ht Hl. destruct (Z.ltb_spec t x).
  - apply existsb_exists. exists t. split; [by apply list_elem_of_In|by apply Z.ltb_lt].
  - apply not_true_iff_false. rewrite existsb_exists. intros (t' & Hin & Hlt%Z.ltb_lt).
    rewrite Forall_forall in Hl. specialize (Hl t' ltac:(by apply list_elem_of_In)). lia.
Qed.

(** When the database answers truthfully and does not change during the
    search, [ProbeOldestData] returns the timestamp of its oldest sample, or 0
    when it has none before [now]; the search ends within its fuel, one probe
    per bit of [now]. *)
Theorem ProbeOldestData_correct samples now :
  0 <= now -> Forall (fun t => 0 <= t) samples ->
  (ProbeOldestData (truthful samples) now = Ok 0 /\ Forall (fun t => now <= t) samples) \/
  (exists t, ProbeOldestData (truthful samples) now = Ok t /\ t ∈ samples /\ t < now /\
    Forall (fun t' => t <= t') samples).
Proof.
  intros Hn H0. destruct (list_least samples) as [->|(t & Ht & Hl)]; [left; by split|].
  assert (Hd : forall x, truthful samples x = Ok (t <? x))
    by (intros x; unfold truthful; by rewrite (truthful_least samples t x)).
  assert (0 <= t) by (rewrite Forall_forall in H0; auto).
  unfold ProbeOldestData. rewrite Hd. destruct (Z.ltb_spec t now); [right|left].
  - exists t. split; [|done]. apply probe_loop_spec; [done|lia|by apply probe_fuel_enough].
  - split; [done|]. eapply Forall_impl; [exact Hl|]. cbn. lia.
Qed.

(** A sample at timestamp 0 gives the answer of an empty database. *)
Example probe_cannot_tell_zero :
  ProbeOldestData (truthful [0; 5]) 1000 = ProbeOldestData (truthful []) 1000.
Proof. reflexivity. Qed.

(** ** Timestamps of an export *)

Definition render_ts (ts : list Z) : bytes := JoinByte 44 (map Sprintf_d ts).

(** A line of an export: anything, the array of timestamps, and a tail with no
    quotation mark in it. *)
Definition export_line (pre : bytes) (ts : list Z) (post : bytes) : bytes :=
  pre ++ timestamps_key ++ render_ts ts ++ 93 :: post.

Lemma Sprintf_d_no (b : Z) n : is_i64 n -> b <> 45 -> is_digit b = false -> b ∉ Sprintf_d n.
Proof.
  intros Hn Hb Hd. destruct (Sprintf_d_shape n [] Hn) as (ds & _ & _ & Hds & _ & ->).
  intros [H|H]%elem_of_app.
  - destruct (n <? 0); [by apply list_elem_of_singleton in H|by apply elem_of_nil in H].
  - rewrite forallb_forall in Hds. specialize (Hds b ltac:(by apply list_elem_of_In)). congruence.
Qed.

Lemma render_ts_no b ts : Forall is_i64 ts -> b <> 44 -> b <> 45 -> is_digit b = false ->
  b ∉ render_ts ts.
Proof.
  intros Hts Hc Hm Hd. unfold render_ts. induction Hts as [|t ts Ht _ IH]; [apply not_elem_of_nil|].
  cbn [map]. destruct ts as [|t' ts]; [by apply Sprintf_d_no|].
  rewrite JoinByte_cons by done. intros [H|[H|H]%elem_of_cons]%elem_of_app; [|done|done].
  by apply Sprintf_d_no in H.
Qed.

Lemma render_ts_snoc ts t : ts <> [] -> render_ts (ts ++ [t]) = render_ts ts ++ 44 :: Sprintf_d t.
Proof.
  unfold render_ts. induction ts as [|x ts IH]; intros H; [done|].
  destruct ts as [|y ts]; [done|]. cbn [app map]. rewrite !JoinByte_cons by done.
  specialize (IH ltac:(done)). cbn [app map] in IH. rewrite IH.
  rewrite (JoinByte_cons 44 (Sprintf_d x) (Sprintf_d y :: map Sprintf_d ts)) by done.
  by rewrite <- app_assoc.
Qed.

Lemma has_prefix_head_no x p l k : x ∉ l -> has_prefix (x :: p) (drop k l) = false.
Proof.
  intros Hx. destruct (drop k l) as [|b r] eqn:E; [done|]. cbn.
  destruct (Z.eqb_spec x b) as [->|]; [|done]. exfalso. apply Hx.
  rewrite <- (take_drop k l), E. apply elem_of_app. right. apply list_elem_of_here.
Qed.

(** The last element of the array is the one after the last comma. *)
Lemma last_token pre t : 44 ∉ Sprintf_d t ->
  LastIndexByte (pre ++ 44 :: Sprintf_d t) 44 = len pre.
Proof.
  intros Hno. unfold LastIndexByte. apply (LastIndex_app pre [44] (Sprintf_d t)).
  intros [|k] Hk; [lia|]. cbn [app drop]. by apply has_prefix_head_no.
Qed.

Lemma no_token s : 44 ∉ s -> LastIndexByte s 44 = -1.
Proof.
  intros Hno. unfold LastIndexByte, LastIndex. generalize 0.
  induction s as [|b s IH]; intros i; [done|]. apply not_elem_of_cons in Hno as [Hne Hno].
  cbn [last_index_from has_prefix]. rewrite IH by done. cbn.
  by destruct b as [|p|p]; try done; repeat (destruct p as [p|p|]; try done).
Qed.

(** A key that opens with a quotation mark occurs last where it is written, when
    no quotation mark follows. *)
Lemma last_key pre l : 34 ∉ l -> LastIndex (pre ++ timestamps_key ++ l) timestamps_key = len pre.
Proof.
  intros Hno. apply LastIndex_app. intros k Hk.
  destruct (decide (14 <= k)%nat) as [Hge|Hlt].
  - rewrite drop_app_ge by done. by apply has_prefix_head_no.
  - assert (Hk' : k ∈ [1; 2; 3; 4; 5; 6; 7; 8; 9; 10; 11; 12; 13]%nat).
    { apply list_elem_of_In. assert (In k (seq 1 13)) by (apply in_seq; lia). done. }
    repeat (apply elem_of_cons in Hk' as [->|Hk']; [reflexivity|]). by apply elem_of_nil in Hk'.
Qed.

(** The parser finds the last element of the [timestamps] array of an export
    line, whatever precedes the array and whatever follows it without a
    quotation mark. *)
Theorem lastTsInLine_export pre ts t post :
  Forall is_i64 ts -> is_i64 t -> 34 ∉ post ->
  lastTsInLine (export_line pre (ts ++ [t]) post) = t.
Proof.
  intros Hts Ht Hpost. unfold lastTsInLine, export_line.
  assert (Hall : Forall is_i64 (ts ++ [t])) by (apply Forall_app; split; [done|by apply Forall_singleton]).
  rewrite last_key.
  2: { intros [H|[H|H]%elem_of_cons]%elem_of_app; [|done|done].
       by apply (render_ts_no 34) in H. }
  destruct (Z.ltb_spec (len pre) 0); [zlia|].
  replace (drop _ _) with (render_ts (ts ++ [t]) ++ 93 :: post).
  2: { rewrite app_assoc, drop_app_length'; [done|]. rewrite length_app. unfold len. lia. }
  rewrite Index_app_byte by (by apply render_ts_no).
  destruct (Z.ltb_spec (len (render_ts (ts ++ [t]))) 0); [zlia|].
  assert (Etk : forall r : bytes, take (Z.to_nat (len r)) (r ++ 93 :: post) = r)
    by (intros r; unfold len; by rewrite Nat2Z.id, take_app_length).
  rewrite !Etk.
  destruct (Sprintf_d_graph t Ht) as [He Hg].
  assert (Hno : 44 ∉ Sprintf_d t) by (by apply Sprintf_d_no).
  destruct ts as [|x ts].
  - cbn [app]. change (render_ts [t]) with (Sprintf_d t). rewrite no_token by done. change (0 <=? -1) with false. cbv iota.
    by rewrite TrimSpace_graph, ParseInt_Sprintf.
  - rewrite render_ts_snoc, last_token by done. set (q := render_ts (x :: ts)).
    destruct (Z.leb_spec 0 (len q)); [|zlia].
    replace (drop _ _) with (Sprintf_d t).
    2: { change (q ++ 44 :: Sprintf_d t) with (q ++ [44] ++ Sprintf_d t).
         rewrite app_assoc, drop_app_length'; [done|]. rewrite length_app. unfold len. cbn. lia. }
    by rewrite TrimSpace_graph, ParseInt_Sprintf.
Qed.

(** ** Witnesses *)

Lemma ProbeOldestData_correct_witness :
  ProbeOldestData (truthful [900; 250; 700]) 1000 = Ok 250 /\
  ((ProbeOldestData (truthful [900; 250; 700]) 1000 = Ok 0 /\
    Forall (fun t => 1000 <= t) [900; 250; 700]) \/
   (exists t, ProbeOldestData (truthful [900; 250; 700]) 1000 = Ok t /\ t ∈ [900; 250; 700] /\
     t < 1000 /\ Forall (fun t' => t <= t') [900; 250; 700])).
Proof.
  split; [reflexivity|]. apply ProbeOldestData_correct; [lia|]. repeat constructor; lia.
Defined.

Lemma lastTsInLine_export_witness :
  lastTsInLine (export_line (lit "{values") ([1700000000000] ++ [1700000015000]) (lit "}")) = 1700000015000.
Proof.
  apply lastTsInLine_export.
  - apply Forall_singleton. unfold is_i64. lia.
  - unfold is_i64. lia.
  - apply not_elem_of_cons. split; [discriminate|apply not_elem_of_nil].
Defined.
