(* ===== verification/VmRequest.v ===== *)
(** * The requests of the VictoriaMetrics client ([internal/vm/client.go]):
    the client's configuration, its time-out, and what is asked of the server.

    [VmClient] says what the code makes of the answers.  Here is what it sends:
    the interval of an export is a query of the URL, in seconds with six digits
    after the point, and the samples that come back are those of the interval
    the server reads there. *)
From S2P Require Import Prelude GoBytes GoTime GoFloat.
From Stdlib Require Import SpecFloat.
Local Open Scope Z_scope.

(** ** The client *)

Record Config := mkConfig { URL : bytes; Timeout : bytes; Match : list bytes; Token : bytes }.
Record Client := mkClient { c_cfg : Config; c_timeout : Z }.

Inductive new_error := ErrURLRequired | ErrBadTimeout (s : bytes).

(** Every series with a name: [{__name__=~".+"}]. *)
Definition every_series : bytes := lit "{__name__=~" ++ [34] ++ lit ".+" ++ [34] ++ lit "}".

Definition NewClient (cfg : Config) : outcome new_error Client :=
  if len (URL cfg) =? 0 then Err ErrURLRequired
  else
    match (if len (Timeout cfg) =? 0 then Some (10 * 1000000000) else ParseDuration (Timeout cfg)) with
    | None => Err (ErrBadTimeout (Timeout cfg))
    | Some d =>
        Ok (mkClient (if len (Match cfg) =? 0 then mkConfig (URL cfg) (Timeout cfg) [every_series] (Token cfg) else cfg) d)
    end.

(** The deadline of the context, if the caller has set one, and the current
    time. *)
Definition withTimeout (c : Client) (deadline : option Z) (now : Z) : Z :=
  match deadline with Some t => t | None => now + c_timeout c end.

(** Milliseconds as seconds with six digits. *)
Definition secFloat (ms : Z) : bytes := Sprintf_f 6 (f64_div (f64_of_Z ms) (f64_of_Z 1000)).

(** ** [net/url] *)

Definition Values : Type := list (bytes * list bytes).

Fixpoint Add (k v : bytes) (q : Values) : Values :=
  match q with
  | [] => [(k, [v])]
  | (k', vs) :: q' => if decide (k = k') then (k', vs ++ [v]) :: q' else (k', vs) :: Add k v q'
  end.

Fixpoint Set_ (k v : bytes) (q : Values) : Values :=
  match q with
  | [] => [(k, [v])]
  | (k', vs) :: q' => if decide (k = k') then (k', [v]) :: q' else (k', vs) :: Set_ k v q'
  end.

Definition in_range (a b c : Z) : bool := (a <=? c) && (c <=? b).

(** Letters, digits, [-], [_], [.] and [~] stand for themselves. *)
Definition unreserved (c : Z) : bool :=
  in_range 97 122 c || in_range 65 90 c || in_range 48 57 c || (c =? 45) || (c =? 95) || (c =? 46) || (c =? 126).

Definition hex_digit (d : Z) : Z := if d <? 10 then 48 + d else 55 + d.

Definition escape_byte (c : Z) : bytes :=
  if unreserved c then [c] else if c =? 32 then [43] else [37; hex_digit (c / 16); hex_digit (c mod 16)].

Definition QueryEscape (s : bytes) : bytes := concat (map escape_byte s).

(** The order of Go's strings. *)
Fixpoint bytes_leb (x y : bytes) : bool :=
  match x, y with
  | [], _ => true
  | _ :: _, [] => false
  | a :: x', b :: y' => if a =? b then bytes_leb x' y' else a <? b
  end.
Definition key_le (p p' : bytes * list bytes) : Prop := Is_true (bytes_leb p.1 p'.1).
#[local] Instance key_le_dec : RelDecision key_le := fun p p' => _.

(** The pairs in the order of the keys. *)
Definition sorted_pairs (q : Values) : list (bytes * bytes) :=
  concat (map (fun p : bytes * list bytes => map (fun v => (p.1, v)) p.2) (merge_sort key_le q)).

Definition encode_pair (p : bytes * bytes) : bytes := QueryEscape p.1 ++ 61 :: QueryEscape p.2.
Definition Encode (q : Values) : bytes := JoinByte 38 (map encode_pair (sorted_pairs q)).

(** ** Requests *)

Record request := mkRequest {
  rq_method : bytes; rq_url : bytes; rq_headers : list (bytes * bytes); rq_body : bytes; rq_deadline : Z }.

Definition setAuth (c : Client) : list (bytes * bytes) :=
  if len (Token (c_cfg c)) =? 0 then [] else [(lit "Authorization", lit "Bearer " ++ Token (c_cfg c))].

Definition export_query (c : Client) (start fin : Z) : Values :=
  Set_ (lit "end") (secFloat fin) (Set_ (lit "start") (secFloat start)
    (foldl (fun q m => Add (lit "match[]") m q) [] (Match (c_cfg c)))).

(** The request of [ExportRange] and of [ExportHasData]. *)
Definition export_request (c : Client) (deadline : option Z) (now start fin : Z) : request :=
  mkRequest (lit "GET") (URL (c_cfg c) ++ lit "/api/v1/export?" ++ Encode (export_query c start fin)) (setAuth c) []
    (withTimeout c deadline now).

(** The request of [ImportWrite]; none for an empty text. *)
Definition import_request (c : Client) (deadline : option Z) (now : Z) (raw : bytes) : option request :=
  if len raw =? 0 then None
  else Some (mkRequest (lit "POST") (URL (c_cfg c) ++ lit "/api/v1/import")
    ((lit "Content-Type", lit "application/stream+json") :: setAuth c) raw (withTimeout c deadline now)).

Definition flush_request (c : Client) (deadline : option Z) (now : Z) : request :=
  mkRequest (lit "POST") (URL (c_cfg c) ++ lit "/internal/force_flush") (setAuth c) [] (withTimeout c deadline now).

(** ** The text of an instant *)

(** Up to the year 2242 the float is near enough for its six digits to be the
    three of the milliseconds and three zeros. *)
Lemma secFloat_exact ms : 0 <= ms < 2 ^ 33 * 1000 ->
  secFloat ms = Sprintf_d (ms / 1000) ++ 46 :: pad 6 (Sprintf_d (ms mod 1000 * 1000)).
Proof.
  intros Hm. destruct (Z.eq_dec ms 0) as [->|Hne]; [vm_compute; reflexivity|]. unfold secFloat.
  rewrite (Sprintf_quotient ms 1000 20 6 (ms * 1000)) by lia. change (10 ^ 6) with (1000 * 1000).
  by rewrite Z.div_mul_cancel_r, Zmult_mod_distr_r by lia.
Qed.

(** ** Reading a query back *)

Definition unhex (d : Z) : option Z :=
  if in_range 48 57 d then Some (d - 48) else if in_range 65 70 d then Some (d - 55)
  else if in_range 97 102 d then Some (d - 87) else None.

(** [url.QueryUnescape], what a server does with a part of a query. *)
Fixpoint unescape (s : bytes) : option bytes :=
  match s with
  | [] => Some []
  | c :: s' =>
      if c =? 37 then
        match s' with
        | a :: b :: s'' =>
            match unhex a, unhex b, unescape s'' with
            | Some x, Some y, Some r => Some (x * 16 + y :: r)
            | _, _, _ => None
            end
        | _ => None
        end
      else match unescape s' with Some r => Some ((if c =? 43 then 32 else c) :: r) | None => None end
  end.

Fixpoint cut (sep : Z) (s : bytes) : bytes * bytes :=
  match s with
  | [] => ([], [])
  | c :: s' => if c =? sep then ([], s') else (c :: (cut sep s').1, (cut sep s').2)
  end.

Definition parse_pair (s : bytes) : option (bytes * bytes) :=
  match unescape (cut 61 s).1, unescape (cut 61 s).2 with Some k, Some v => Some (k, v) | _, _ => None end.

Definition parse_query (s : bytes) : option (list (bytes * bytes)) := mapM parse_pair (SplitByte 38 s).

Lemma hex_byte c : 0 <= c < 256 -> unhex (hex_digit (c / 16)) = Some (c / 16) /\ unhex (hex_digit (c mod 16)) = Some (c mod 16).
Proof.
  intros Hc. assert (H : forall d, 0 <= d < 16 -> unhex (hex_digit d) = Some d).
  { intros d Hd. unfold hex_digit, unhex, in_range. destruct (Z.ltb_spec d 10).
    - destruct (Z.leb_spec 48 (48 + d)), (Z.leb_spec (48 + d) 57); cbn [andb]; try lia. f_equal; lia.
    - destruct (Z.leb_spec (55 + d) 57); [lia|]. rewrite andb_false_r.
      destruct (Z.leb_spec 65 (55 + d)), (Z.leb_spec (55 + d) 70); cbn [andb]; try lia. f_equal; lia. }
  pose proof (Z.mod_pos_bound c 16 ltac:(lia)). split; apply H; [|lia].
  split; [apply Z.div_pos; lia|apply Z.div_lt_upper_bound; lia].
Qed.

Lemma unreserved_plain c : unreserved c = true -> c <> 37 /\ c <> 43 /\ c <> 38 /\ c <> 61.
Proof. intros H. split_and!; intros ->; done. Qed.

Lemma unescape_byte c rest : is_byte c -> unescape (escape_byte c ++ rest) =
  match unescape rest with Some r => Some (c :: r) | None => None end.
Proof.
  intros Hc. unfold escape_byte. destruct (unreserved c) eqn:Eu.
  - apply unreserved_plain in Eu as (H1 & H2 & _). cbn [app unescape].
    destruct (Z.eqb_spec c 37); [done|]. by destruct (Z.eqb_spec c 43).
  - destruct (Z.eqb_spec c 32) as [->|]; [done|]. cbn [app unescape]. change (37 =? 37) with true. cbv iota.
    destruct (hex_byte c Hc) as [-> ->]. destruct (unescape rest); [|done]. do 2 f_equal.
    rewrite Z.mul_comm. symmetry. apply Z.div_mod. lia.
Qed.

Lemma unescape_escape s : is_bytes s -> unescape (QueryEscape s) = Some s.
Proof.
  induction 1 as [|c s Hc _ IH]; [done|]. unfold QueryEscape in *. cbn [map concat]. by rewrite unescape_byte, IH.
Qed.

(** An escaped text has neither separator. *)
Lemma escape_byte_plain c : is_byte c -> (38 ∉ escape_byte c) /\ (61 ∉ escape_byte c).
Proof.
  intros Hc. unfold escape_byte. destruct (unreserved c) eqn:Eu.
  - apply unreserved_plain in Eu as (_ & _ & H1 & H2). rewrite !list_elem_of_singleton. auto.
  - destruct (c =? 32); [by rewrite !list_elem_of_singleton|].
    assert (H : forall d, 0 <= d < 16 -> hex_digit d <> 38 /\ hex_digit d <> 61)
      by (intros d Hd; unfold hex_digit; destruct (Z.ltb_spec d 10); lia).
    destruct (H (c / 16)) as [H1 H2]; [unfold is_byte in Hc; split; [apply Z.div_pos; lia|apply Z.div_lt_upper_bound; lia]|].
    destruct (H (c mod 16)) as [H3 H4]; [apply Z.mod_pos_bound; lia|].
    rewrite !not_elem_of_cons. split_and!; try done; try apply not_elem_of_nil; by apply not_eq_sym.
Qed.

Lemma escape_plain s : is_bytes s -> (38 ∉ QueryEscape s) /\ (61 ∉ QueryEscape s).
Proof.
  induction 1 as [|c s Hc _ [IH1 IH2]]; [by split; apply not_elem_of_nil|].
  unfold QueryEscape in *. cbn [map concat]. rewrite !not_elem_of_app. destruct (escape_byte_plain c Hc). auto.
Qed.

Lemma cut_app sep s rest : sep ∉ s -> cut sep (s ++ sep :: rest) = (s, rest).
Proof.
  induction s as [|c s IH]; intros H; cbn [app cut]; [by rewrite Z.eqb_refl|].
  apply not_elem_of_cons in H as [Hc H]. destruct (Z.eqb_spec c sep); [done|]. by rewrite IH.
Qed.

Definition pair_bytes (p : bytes * bytes) : Prop := is_bytes p.1 /\ is_bytes p.2.

Lemma parse_encode_pair p : pair_bytes p -> parse_pair (encode_pair p) = Some p /\ (38 ∉ encode_pair p).
Proof.
  intros [H1 H2]. destruct (escape_plain _ H1) as [A1 E1], (escape_plain _ H2) as [A2 E2]. unfold parse_pair, encode_pair. split.
  - rewrite cut_app by done. cbn [fst snd]. rewrite !unescape_escape by done. by destruct p.
  - rewrite not_elem_of_app, not_elem_of_cons. done.
Qed.

(** What is encoded is read back, in the order of the keys. *)
Lemma parse_Encode q : sorted_pairs q <> [] -> Forall pair_bytes (sorted_pairs q) ->
  parse_query (Encode q) = Some (sorted_pairs q).
Proof.
  intros Hne Hq. unfold parse_query, Encode. rewrite Split_Join.
  - clear Hne. induction Hq as [|p l Hp _ IH]; [done|]. cbn [map mapM]. rewrite (proj1 (parse_encode_pair p Hp)). cbn. by rewrite IH.
  - by destruct (sorted_pairs q).
  - rewrite Forall_map. eapply Forall_impl; [exact Hq|]. intros p Hp. apply (parse_encode_pair p Hp).
Qed.

(** ** The request of an export *)

(** Seconds, a point, the milliseconds and three zeros. *)
Definition instant (ms : Z) : bytes := Sprintf_d (ms / 1000) ++ 46 :: pad 6 (Sprintf_d (ms mod 1000 * 1000)).

Lemma digits_bytes n : is_i64 n -> is_bytes (Sprintf_d n).
Proof.
  intros Hn. destruct (Sprintf_d_graph n Hn) as [_ H]. eapply Forall_impl; [exact H|]. intros b. unfold is_graph, is_byte. lia.
Qed.

Lemma instant_bytes ms : 0 <= ms < 2 ^ 33 * 1000 -> is_bytes (instant ms).
Proof.
  intros Hm. pose proof (Z.mod_pos_bound ms 1000 ltac:(lia)). unfold instant, pad, is_bytes.
  rewrite Forall_app, Forall_cons, Forall_app. split_and!.
  - apply digits_bytes. unfold is_i64. pose proof (Z.div_pos ms 1000). pose proof (Z.div_lt_upper_bound ms 1000 (2 ^ 33)). lia.
  - unfold is_byte. lia.
  - apply Forall_replicate. unfold is_byte. lia.
  - apply digits_bytes. unfold is_i64. lia.
Qed.

Lemma NewClient_match cfg c : NewClient cfg = Ok c ->
  URL (c_cfg c) = URL cfg /\ Match (c_cfg c) = (if len (Match cfg) =? 0 then [every_series] else Match cfg) /\ Match (c_cfg c) <> [].
Proof.
  unfold NewClient. destruct (len (URL cfg) =? 0); [done|]. destruct (if len (Timeout cfg) =? 0 then _ else _); [|done].
  intros [= <-]. cbn [c_cfg]. destruct (Z.eqb_spec (len (Match cfg)) 0); [done|]. split; [done|]. split; [done|].
  by destruct (Match cfg).
Qed.

Lemma Add_all k vs : forall l, foldl (fun q v => Add k v q) [(k, l)] vs = [(k, l ++ vs)].
Proof.
  induction vs as [|v vs IH]; intros l; cbn [foldl]; [by rewrite app_nil_r|]. unfold Add.
  rewrite decide_True by done. by rewrite IH, <- app_assoc.
Qed.

Lemma export_pairs c start fin : Match (c_cfg c) <> [] ->
  sorted_pairs (export_query c start fin) =
  (lit "end", secFloat fin) :: map (fun m => (lit "match[]", m)) (Match (c_cfg c)) ++ [(lit "start", secFloat start)].
Proof.
  unfold export_query. destruct (Match (c_cfg c)) as [|m ms]; [done|]. intros _. cbn [foldl Add].
  rewrite Add_all. cbn [app]. generalize (m :: ms), (secFloat fin), (secFloat start). intros l t1 t0.
  cbn [Set_]. rewrite !decide_False by done. cbn [Set_]. rewrite !decide_False by done. cbn [Set_].
  unfold sorted_pairs. reflexivity.
Qed.

(** C36: an export asks for the interval it is meant to ask for. Whatever the
    selectors are, a server that reads the query of the URL finds each of them,
    and finds the two ends of the interval as seconds with exactly the three
    decimals of the milliseconds, from 1970 up to the year 2242. *)
Theorem export_names_window cfg c deadline now start fin :
  NewClient cfg = Ok c -> Forall is_bytes (Match cfg) -> 0 <= start < 2 ^ 33 * 1000 -> 0 <= fin < 2 ^ 33 * 1000 ->
  exists q, rq_url (export_request c deadline now start fin) = URL cfg ++ lit "/api/v1/export?" ++ q /\
    parse_query q = Some ((lit "end", instant fin) ::
      map (fun m => (lit "match[]", m)) (if len (Match cfg) =? 0 then [every_series] else Match cfg) ++
      [(lit "start", instant start)]).
Proof.
  intros Hc Hm Hs Hf. destruct (NewClient_match cfg c Hc) as (Eu & Em & Hne).
  exists (Encode (export_query c start fin)). split; [cbn; by rewrite Eu|].
  rewrite <- Em. unfold instant. rewrite <- !secFloat_exact by done. rewrite <- (export_pairs c start fin Hne). apply parse_Encode.
  - by rewrite (export_pairs c start fin Hne).
  - rewrite (export_pairs c start fin Hne), !secFloat_exact by done. constructor; [split; [by apply (bool_decide_unpack _)|by apply instant_bytes]|].
    apply Forall_app. split.
    + rewrite Forall_map, Em. assert (Hall : Forall is_bytes (if len (Match cfg) =? 0 then [every_series] else Match cfg)).
      { destruct (len (Match cfg) =? 0); [|done]. repeat constructor; done. }
      eapply Forall_impl; [exact Hall|]. intros m Hb. split; [|exact Hb]. cbn [fst]. repeat constructor; done.
    + constructor; [|constructor]. split; [cbn [fst]; repeat constructor; done|by apply instant_bytes].
Qed.

(** ** Witness *)

Definition some_config : Config := mkConfig (lit "http://src:8428") (lit "30s") [lit "up"; lit "a b&c"] (lit "secret").
Definition some_client : Client := mkClient some_config 30000000000.

Lemma export_names_window_witness :
  exists q, rq_url (export_request some_client None 5 1700000000000 1700000060123) =
      lit "http://src:8428" ++ lit "/api/v1/export?" ++ q /\
    parse_query q = Some [(lit "end", lit "1700000060.123000"); (lit "match[]", lit "up"); (lit "match[]", lit "a b&c");
      (lit "start", lit "1700000000.000000")].
Proof.
  destruct (export_names_window some_config some_client None 5 1700000000000 1700000060123) as (q & E1 & E2);
    [vm_compute; reflexivity|repeat constructor; done|lia|lia|].
  exists q. split; [exact E1|]. rewrite E2. vm_compute. reflexivity.
Defined.

Example export_url_text : rq_url (export_request some_client None 5 1700000000000 1700000060123) =
  lit "http://src:8428/api/v1/export?end=1700000060.123000&match%5B%5D=up&match%5B%5D=a+b%26c&start=1700000000.000000".
Proof. vm_compute. reflexivity. Qed.

(** The bound of [secFloat_exact] is close: a float has no six digits after the
    point for later instants. *)
Example secFloat_late : secFloat 253402300799999 = lit "253402300799.998993".
Proof. vm_compute. reflexivity. Qed.

(** A time-out that is not positive is accepted, and every request is past its
    deadline when it starts. *)
Example negative_timeout_accepted :
  match NewClient (mkConfig (lit "http://src:8428") (lit "-5s") [] []) with
  | Ok c => withTimeout c None 100 <? 100
  | _ => false
  end = true.
Proof. vm_compute. reflexivity. Qed.
