(* ===== verification/Receiver.v ===== *)
(** * The receiver ([internal/receiver/receiver.go], [internal/receiver/dlq.go]):
    one frame in, one acknowledgement byte out.

    The database, the file system and the relay's log are part of the state:
    the answers of the database and the results of file calls come from
    oracles, and the state records what the database accepted and what was
    written to the dead-letter directories.  [now] is the clock reading of the
    call.  Log messages are not modelled; metric updates are recorded in order. *)
From S2P Require Import Prelude GoBytes Protocol WalDisk WalScan Wal SeqTracker VmClient.
Local Open Scope Z_scope.
Local Open Scope go_scope.

(** ** Data *)

Definition dedupWindowCap : Z := 4096.
(** [5 * time.Minute] and [time.Second], in nanoseconds. *)
Definition gapWarnResetWindow : Z := 300 * 1000000000.
Definition persistInterval : Z := 1000000000.

Record RConfig := mkRC {
  cfg_LastSeqFile : bool;      (** a path is configured *)
  cfg_DLQDir : bool;
  cfg_RelayDLQDir : bool;
  cfg_LastWriteTs : bool }.    (** a callback is configured *)

Record DLQMeta := mkMeta {
  dm_SeqNum : Z;
  dm_RetryAttempts : Z;
  dm_Category : bytes;
  dm_HTTPStatus : Z;
  dm_ErrorMessage : import_error + werr;   (** the error whose text is stored *)
  dm_SourceZone : bytes;
  dm_Measurement : bytes;
  dm_PointCount : Z;
  dm_UncompressedBytes : Z }.

Inductive metric : Type :=
| MRecv | MDup | MInflight (d : Z) | MWriteOk | MWriteFail | MPoison | MDLQ | MRelayDLQ.

Inductive rerr : Type :=
| RReadLastSeq | RParseLastSeq | RSaveLastSeq | RDLQMkdir | RDLQWrite.

Record Receiver := mkR {
  r_cfg : RConfig;
  r_lastSeq : Z;                (** [atomic.Int64] *)
  r_seqOrd : seqTracker;
  r_inflight : gmap Z Z;
  r_gapWarned : Z;
  r_gapWarnedAt : Z;
  r_dedupSeq : list Z;
  r_dedupCRC : gmap Z Z;
  r_persistAt : option Z;       (** the zero [time.Time] is [None] *)
  r_relay : option World }.     (** the relay's log *)

Record RWorld := mkRW {
  rw_recv : Receiver;
  rw_replies : list http_result;         (** the database's next answers *)
  rw_faults : list io;                   (** the file system's *)
  rw_file : option bytes;                (** the [last_seq] file *)
  rw_imported : list bytes;              (** bodies the database accepted *)
  rw_dlq : list (DLQMeta * bytes);       (** dead letters: description, payload *)
  rw_relayDlq : list (DLQMeta * bytes);
  rw_metrics : list metric;
  rw_writeTs : list Z }.                 (** calls of [LastWriteTs] *)

Abbreviation R := (M RWorld rerr).

(** ** Field updates *)

Definition upd_recv (f : Receiver -> Receiver) (s : RWorld) : RWorld :=
  mkRW (f (rw_recv s)) (rw_replies s) (rw_faults s) (rw_file s) (rw_imported s) (rw_dlq s)
    (rw_relayDlq s) (rw_metrics s) (rw_writeTs s).
Definition upd_replies (l : list http_result) (s : RWorld) : RWorld :=
  mkRW (rw_recv s) l (rw_faults s) (rw_file s) (rw_imported s) (rw_dlq s)
    (rw_relayDlq s) (rw_metrics s) (rw_writeTs s).
Definition upd_faults (l : list io) (s : RWorld) : RWorld :=
  mkRW (rw_recv s) (rw_replies s) l (rw_file s) (rw_imported s) (rw_dlq s)
    (rw_relayDlq s) (rw_metrics s) (rw_writeTs s).
Definition upd_file (f : option bytes) (s : RWorld) : RWorld :=
  mkRW (rw_recv s) (rw_replies s) (rw_faults s) f (rw_imported s) (rw_dlq s)
    (rw_relayDlq s) (rw_metrics s) (rw_writeTs s).
Definition add_imported (raw : bytes) (s : RWorld) : RWorld :=
  mkRW (rw_recv s) (rw_replies s) (rw_faults s) (rw_file s) (rw_imported s ++ [raw]) (rw_dlq s)
    (rw_relayDlq s) (rw_metrics s) (rw_writeTs s).
Definition add_dlq (d : DLQMeta * bytes) (s : RWorld) : RWorld :=
  mkRW (rw_recv s) (rw_replies s) (rw_faults s) (rw_file s) (rw_imported s) (rw_dlq s ++ [d])
    (rw_relayDlq s) (rw_metrics s) (rw_writeTs s).
Definition add_relayDlq (d : DLQMeta * bytes) (s : RWorld) : RWorld :=
  mkRW (rw_recv s) (rw_replies s) (rw_faults s) (rw_file s) (rw_imported s) (rw_dlq s)
    (rw_relayDlq s ++ [d]) (rw_metrics s) (rw_writeTs s).
Definition add_metric (m : metric) (s : RWorld) : RWorld :=
  mkRW (rw_recv s) (rw_replies s) (rw_faults s) (rw_file s) (rw_imported s) (rw_dlq s)
    (rw_relayDlq s) (rw_metrics s ++ [m]) (rw_writeTs s).
Definition add_writeTs (ts : Z) (s : RWorld) : RWorld :=
  mkRW (rw_recv s) (rw_replies s) (rw_faults s) (rw_file s) (rw_imported s) (rw_dlq s)
    (rw_relayDlq s) (rw_metrics s) (rw_writeTs s ++ [ts]).

Definition with_lastSeq (v : Z) (r : Receiver) : Receiver :=
  mkR (r_cfg r) v (r_seqOrd r) (r_inflight r) (r_gapWarned r) (r_gapWarnedAt r) (r_dedupSeq r)
    (r_dedupCRC r) (r_persistAt r) (r_relay r).
Definition with_seqOrd (t : seqTracker) (r : Receiver) : Receiver :=
  mkR (r_cfg r) (r_lastSeq r) t (r_inflight r) (r_gapWarned r) (r_gapWarnedAt r) (r_dedupSeq r)
    (r_dedupCRC r) (r_persistAt r) (r_relay r).
Definition with_inflight (m : gmap Z Z) (r : Receiver) : Receiver :=
  mkR (r_cfg r) (r_lastSeq r) (r_seqOrd r) m (r_gapWarned r) (r_gapWarnedAt r) (r_dedupSeq r)
    (r_dedupCRC r) (r_persistAt r) (r_relay r).
Definition with_gapWarned (v t : Z) (r : Receiver) : Receiver :=
  mkR (r_cfg r) (r_lastSeq r) (r_seqOrd r) (r_inflight r) v t (r_dedupSeq r)
    (r_dedupCRC r) (r_persistAt r) (r_relay r).
Definition with_dedup (l : list Z) (m : gmap Z Z) (r : Receiver) : Receiver :=
  mkR (r_cfg r) (r_lastSeq r) (r_seqOrd r) (r_inflight r) (r_gapWarned r) (r_gapWarnedAt r) l m
    (r_persistAt r) (r_relay r).
Definition with_persistAt (t : option Z) (r : Receiver) : Receiver :=
  mkR (r_cfg r) (r_lastSeq r) (r_seqOrd r) (r_inflight r) (r_gapWarned r) (r_gapWarnedAt r)
    (r_dedupSeq r) (r_dedupCRC r) t (r_relay r).
Definition with_relay (w : option World) (r : Receiver) : Receiver :=
  mkR (r_cfg r) (r_lastSeq r) (r_seqOrd r) (r_inflight r) (r_gapWarned r) (r_gapWarnedAt r)
    (r_dedupSeq r) (r_dedupCRC r) (r_persistAt r) w.

Definition recv : R Receiver := gets rw_recv.
Definition set_recv (f : Receiver -> Receiver) : R unit := modify (upd_recv f).
Definition count (m : metric) : R unit := modify (add_metric m).

(** ** Environment calls *)

Definition rsys (e : rerr) : R unit := fun s =>
  match rw_faults s with
  | [] => (Ok tt, s)
  | IoOk :: rest => (Ok tt, upd_faults rest s)
  | IoFail _ :: rest => (Err e, upd_faults rest s)
  end.

(** [r.client.ImportWrite(ctx, raw)]: the database keeps what it accepts. *)
Definition import_write (raw : bytes) : R (outcome import_error unit) := fun s =>
  let '(reply, rest) := match rw_replies s with
                        | [] => (HErr (lit "no answer"), [])
                        | r :: rest => (r, rest)
                        end in
  let s1 := upd_replies rest s in
  let o := ImportWrite reply raw in
  (Ok o, match o with Ok _ => add_imported raw s1 | _ => s1 end).

(** ** The [last_seq] file *)

Definition saveLastSeq (seq : Z) : R unit :=
  rsys RSaveLastSeq ;;;    (* mkdir *)
  rsys RSaveLastSeq ;;;    (* open the temporary file *)
  rsys RSaveLastSeq ;;;    (* write *)
  rsys RSaveLastSeq ;;;    (* fsync *)
  rsys RSaveLastSeq ;;;    (* close *)
  rsys RSaveLastSeq ;;;    (* rename *)
  modify (upd_file (Some (Sprintf_d seq ++ [NL]))).

Definition loadLastSeq : R Z :=
  f <- gets rw_file ;;
  match f with
  | None => ret 0
  | Some data =>
      rsys RReadLastSeq ;;;
      match Sscanf_d (TrimSpace data) with
      | Some seq => ret seq
      | None => fail RParseLastSeq
      end
  end.

Definition New (cfg : RConfig) (relay : option World) : R unit :=
  set_recv (fun _ => mkR cfg 0 newSeqTracker ∅ 0 0 [] ∅ None relay) ;;;
  if cfg_LastSeqFile cfg then
    seq <- loadLastSeq ;;
    set_recv (fun r => with_seqOrd (init (u64 seq)) (with_lastSeq seq r))
  else ret tt.

(** ** The deduplication window *)

Definition dedupRecord (seq crc : Z) (r : Receiver) : Receiver :=
  match r_dedupCRC r !! seq with
  | Some _ => with_dedup (r_dedupSeq r) (<[seq := crc]> (r_dedupCRC r)) r
  | None =>
      let l := r_dedupSeq r ++ [seq] in
      if dedupWindowCap <? len l then
        match l with
        | oldest :: l' => with_dedup l' (<[seq := crc]> (delete oldest (r_dedupCRC r))) r
        | [] => r
        end
      else with_dedup l (<[seq := crc]> (r_dedupCRC r)) r
  end.

Definition dedupHit (seq crc : Z) (r : Receiver) : bool :=
  match r_dedupCRC r !! seq with Some c => c =? crc | None => false end.

(** ** Frames in flight *)

Definition addInflight (seq : Z) (r : Receiver) : Receiver :=
  with_inflight (<[seq := default 0 (r_inflight r !! seq) + 1]> (r_inflight r)) r.

Definition removeInflight (seq : Z) (r : Receiver) : Receiver :=
  let n := default 0 (r_inflight r !! seq) in
  with_inflight (if n <=? 1 then delete seq (r_inflight r) else <[seq := n - 1]> (r_inflight r)) r.

(** ** The sequence number *)

Definition advanceSeq (now seq : Z) : R unit :=
  set_recv (fun r => if i64 seq <=? r_lastSeq r then r else with_lastSeq (i64 seq) r) ;;;
  r <- recv ;;
  if negb (cfg_LastSeqFile (r_cfg r)) then ret tt
  else
    let throttled := match r_persistAt r with Some t => now <? t | None => false end in
    if throttled then ret tt
    else
      set_recv (with_persistAt (Some (now + persistInterval))) ;;;
      attempt (saveLastSeq (i64 seq)) ;;;    (* a failure is only logged *)
      ret tt.

Definition markDone (now seq : Z) : R unit :=
  r <- recv ;;
  let '(t, advanced) := done_seq seq (r_seqOrd r) in
  set_recv (with_seqOrd t) ;;;
  if advanced then
    r <- recv ;;
    advanceSeq now (load (r_seqOrd r))
  else ret tt.

(** No frame of the gap is in flight. *)
Definition gap_clear (last seq : Z) (r : Receiver) : bool :=
  forallb (fun s => match r_inflight r !! s with Some _ => false | None => true end)
    (seqZ (u64 (last + 1)) (seq - u64 (last + 1))).

Definition tryCloseGap (now seq : Z) : R bool :=
  r <- recv ;;
  let last := u64 (r_lastSeq r) in
  if seq <=? u64 (last + 1) then ret false
  else if negb (gap_clear last seq r) then ret false
  else
    set_recv (fun r => with_seqOrd (closeGap (u64 (seq - 1)) (r_seqOrd r)) r) ;;;
    r <- recv ;;
    advanceSeq now (load (r_seqOrd r)) ;;;
    ret true.

Definition gapWarnAllowed (now seq : Z) (r : Receiver) : bool :=
  let prev := r_gapWarned r in
  if prev =? 0 then true
  else if prev <=? u64 (r_lastSeq r) then true
  else gapWarnResetWindow <? now - r_gapWarnedAt r.

Definition markGapWarned (now seq : Z) : R unit := set_recv (with_gapWarned seq now).

(** A jump: the frame is accepted; the first frame of a connection may close
    the gap; warnings are throttled. *)
Definition handle_jump (now frameIdx seq : Z) : R unit :=
  r <- recv ;;
  let last := u64 (r_lastSeq r) in
  let warn := (r <- recv ;;
               if gapWarnAllowed now seq r then markGapWarned now seq else ret tt) in
  if negb (u64 (last + 1) <? seq) then ret tt
  else if u64 (last + seqJumpLimit) <? seq then warn
  else
    closed <- (if frameIdx =? 0 then tryCloseGap now seq else ret false) ;;
    if closed : bool then set_recv (fun r => with_gapWarned 0 (r_gapWarnedAt r) r)
    else warn.

(** ** Errors of the database *)

Definition is_4xx (code : Z) : bool := (400 <=? code) && (code <? 500).
Definition TRANSIENT : bytes := lit "TRANSIENT_ERROR".
Definition PERMANENT : bytes := lit "PERMANENT_ERROR".

(** [strings.TrimLeft] of blanks, as [Sscanf] does before [%d] on one line. *)
Fixpoint skip_blanks (l : bytes) : bytes :=
  match l with
  | 32 :: l' => skip_blanks l'
  | 9 :: l' => skip_blanks l'
  | _ => l
  end.

(** permanent, HTTP status, category. *)
Definition classifyWriteError (e : import_error) : bool * Z * bytes :=
  match e with
  | ImportHTTPError code _ =>
      if is_4xx code then (true, code, PERMANENT) else (false, code, TRANSIENT)
  | ImportOther msg =>
      let key := lit "write http " in
      let idx := Index msg key in
      if 0 <=? idx then
        match Sscanf_d (skip_blanks (drop (Z.to_nat (idx + len key)) msg)) with
        | Some code =>
            if is_4xx code then (true, code, PERMANENT)
            else if 500 <=? code then (false, code, TRANSIENT)
            else (false, 0, TRANSIENT)
        | None => (false, 0, TRANSIENT)
        end
      else (false, 0, TRANSIENT)
  end.

(** ** Dead letters *)

Definition splitLines (raw : bytes) : list bytes :=
  filter (fun l => l <> []) (map TrimSpace (SplitByte NL raw)).

(** The opening of the metric name in an export line. *)
Definition name_key : bytes := 123 :: 34 :: lit "__name__" ++ [34; 58; 34].

Definition metricOf (lines : list bytes) : bytes :=
  match lines with
  | [] => []
  | line :: _ =>
      let idx := Index line name_key in
      if idx <? 0 then lit "unknown"
      else
        let rest := drop (Z.to_nat (idx + len name_key)) line in
        let fin := IndexByte rest 34 in
        if 0 <=? fin then take (Z.to_nat fin) rest else lit "unknown"
  end.

(** [writeDLQJSON(dir, meta, payload)]; an empty [dir] cannot be created, and
    what an interrupted write leaves behind is not a dead letter. *)
Definition writeDLQJSON (configured : bool) (keep : DLQMeta * bytes -> RWorld -> RWorld)
    (meta : DLQMeta) (payload : bytes) : R unit :=
  if negb configured then fail RDLQMkdir
  else
    rsys RDLQMkdir ;;;
    rsys RDLQWrite ;;;
    modify (keep (meta, payload)).

(** ** One frame *)

(** The error path of the import: a permanent error isolates the frame. *)
Definition handle_write_error (now : Z) (f : Frame) (raw : bytes) (e : import_error) : R Z :=
  count MWriteFail ;;;
  let '(permanent, status, category) := classifyWriteError e in
  if permanent then
    count MPoison ;;;
    let lines := splitLines raw in
    let meta := mkMeta (f_Seq f) 1 category status (inl e) (lit "Zone_I")
                  (metricOf lines) (len lines) (len raw) in
    r <- recv ;;
    o <- attempt (writeDLQJSON (cfg_DLQDir (r_cfg r)) add_dlq meta (f_Payload f)) ;;
    match o with
    | Ok _ =>
        count MDLQ ;;;
        markDone now (f_Seq f) ;;;
        set_recv (dedupRecord (f_Seq f) (f_CRC f)) ;;;
        ret AckSuccess
    | _ => ret AckFail
    end
  else ret AckFail.

Section WithCodec.
Context {C : Codec}.

(** The copy of the frame for the next hop. *)
Definition relay_frame (f : Frame) (raw : bytes) : R unit :=
  r <- recv ;;
  match r_relay r with
  | None => ret tt
  | Some w =>
      let '(o, w') := Append (f_Type f) raw w in
      set_recv (with_relay (Some w')) ;;;
      match o with
      | Ok _ => ret tt
      | Panic => panic
      | Err e =>
          (if cfg_RelayDLQDir (r_cfg r) then
             let lines := splitLines raw in
             let meta := mkMeta (f_Seq f) 1 (lit "RELAY_FORWARD_FAILURE") 0 (inr e) (lit "Zone_II")
                           (metricOf lines) (len lines) (len raw) in
             attempt (writeDLQJSON true add_relayDlq meta (f_Payload f)) ;;; ret tt
           else ret tt) ;;;
          count MRelayDLQ
      end
  end.

(** From the registration of the frame to the acknowledgement. *)
Definition process_frame (now frameIdx : Z) (f : Frame) : R Z :=
  handle_jump now frameIdx (f_Seq f) ;;;
  match Decompress f with
  | Panic => panic
  | Err _ => ret AckFail
  | Ok raw =>
      if len (TrimSpace raw) =? 0 then ret AckFail
      else
        o <- import_write raw ;;
        match o with
        | Panic => panic
        | Err e => handle_write_error now f raw e
        | Ok _ =>
            count MWriteOk ;;;
            relay_frame f raw ;;;
            markDone now (f_Seq f) ;;;
            set_recv (dedupRecord (f_Seq f) (f_CRC f)) ;;;
            r <- recv ;;
            let ts := LastSampleTimestamp raw in
            (if cfg_LastWriteTs (r_cfg r) && (0 <? ts) then modify (add_writeTs ts) else ret tt) ;;;
            ret AckSuccess
        end
  end.

Definition HandleFrame (now frameIdx : Z) (frameBytes : bytes) : R Z :=
  count MRecv ;;;
  match Decode frameBytes with
  | Panic => panic
  | Err _ => ret AckFail
  | Ok f =>
      if IsHeartbeat f then ret AckSuccess
      else
        r <- recv ;;
        if (f_Seq f <=? u64 (r_lastSeq r)) && dedupHit (f_Seq f) (f_CRC f) r then
          count MDup ;;; ret AckSuccess
        else
          count (MInflight 1) ;;;
          set_recv (addInflight (f_Seq f)) ;;;
          ack <- process_frame now frameIdx f ;;
          set_recv (removeInflight (f_Seq f)) ;;;
          count (MInflight (-1)) ;;;
          ret ack
  end.

End WithCodec.

(** ** Operations that change only the sequence state *)

(** What the receiver has stored and remembers is as before; [last_seq] has not
    gone back. *)
Definition quiet (s s' : RWorld) : Prop :=
  rw_imported s' = rw_imported s /\ rw_dlq s' = rw_dlq s /\ rw_replies s' = rw_replies s /\
  (rw_faults s = [] -> rw_faults s' = []) /\
  r_dedupSeq (rw_recv s') = r_dedupSeq (rw_recv s) /\
  r_dedupCRC (rw_recv s') = r_dedupCRC (rw_recv s) /\
  r_inflight (rw_recv s') = r_inflight (rw_recv s) /\
  r_cfg (rw_recv s') = r_cfg (rw_recv s) /\
  r_lastSeq (rw_recv s) <= r_lastSeq (rw_recv s').

#[export] Instance quiet_refl : Reflexive quiet.
Proof. intros s. unfold quiet. repeat split; auto; lia. Qed.
#[export] Instance quiet_trans : Transitive quiet.
Proof. unfold quiet. intros s1 s2 s3 H1 H2. destruct_and!. repeat split; try congruence; auto; lia. Qed.

(** Runs that end without an error, and runs that may end with one. *)
Definition calmly {A} (m : R A) : Prop := forall s, wp m (fun o s' => quiet s s' /\ is_ok o = true) s.
Definition tidily {A} (m : R A) : Prop := forall s, wp m (fun o s' => quiet s s' /\ o <> Panic) s.

Lemma calmly_tidily {A} (m : R A) : calmly m -> tidily m.
Proof. intros H s. eapply wp_conseq; [apply H|]. intros o s' [Hq Ho]. by destruct o. Qed.

Lemma calmly_ret {A} (a : A) : calmly (ret a).
Proof. intros s. by apply wp_ret. Qed.
Lemma calmly_gets {A} (f : RWorld -> A) : calmly (gets f).
Proof. intros s. by apply wp_gets. Qed.
Lemma calmly_modify f : (forall s, quiet s (f s)) -> calmly (modify f).
Proof. intros H s. by apply wp_modify. Qed.
Lemma calmly_bind {A B} (m : R A) (k : A -> R B) :
  calmly m -> (forall a, calmly (k a)) -> calmly (bind m k).
Proof.
  intros Hm Hk s. apply wp_bind. eapply wp_conseq; [apply Hm|]. intros o s1 [Hq Ho].
  destruct o as [a|e|]; [|done|done]. cbn [bind_post].
  eapply wp_conseq; [apply Hk|]. intros o s2 [Hq2 Ho2]. split; [by etrans|done].
Qed.
Lemma calmly_attempt {A} (m : R A) : tidily m -> calmly (attempt m).
Proof.
  intros Hm s. apply wp_attempt. eapply wp_conseq; [apply Hm|]. intros o s1 [Hq Ho].
  by destruct o.
Qed.
Lemma tidily_bind {A B} (m : R A) (k : A -> R B) :
  tidily m -> (forall a, tidily (k a)) -> tidily (bind m k).
Proof.
  intros Hm Hk s. apply wp_bind. eapply wp_conseq; [apply Hm|]. intros o s1 [Hq Ho].
  destruct o as [a|e|]; [|done|done]. cbn [bind_post].
  eapply wp_conseq; [apply Hk|]. intros o s2 [Hq2 Ho2]. split; [by etrans|done].
Qed.
Lemma tidily_rsys e : tidily (rsys e).
Proof.
  intros s. unfold wp, rsys. destruct (rw_faults s) as [|[|n] l] eqn:E; cbn; (split; [|done]);
    [reflexivity|..]; unfold quiet; cbn; rewrite E; (repeat split; try done; lia).
Qed.

#[export] Hint Resolve calmly_ret calmly_gets calmly_bind calmly_attempt calmly_tidily tidily_bind
  tidily_rsys : vmsync.

(** Compose the rules above. *)
Ltac quietly :=
  repeat match goal with
  | |- calmly (bind _ _) => apply calmly_bind; [|intros ?]
  | |- calmly (ret _) => apply calmly_ret
  | |- calmly (gets _) => apply calmly_gets
  | |- calmly recv => apply calmly_gets
  | |- calmly (attempt _) => apply calmly_attempt
  | |- calmly (if ?b then _ else _) => destruct b
  | |- calmly (let '(_, _) := ?p in _) => destruct p
  | |- tidily (bind _ _) => apply tidily_bind; [|intros ?]
  | |- tidily (rsys _) => apply tidily_rsys
  | |- calmly (set_recv _) => apply calmly_modify; intros ?; unfold quiet; cbn; repeat split; try done; lia
  | |- calmly (modify _) => apply calmly_modify; intros ?; unfold quiet; cbn; repeat split; try done; lia
  | |- tidily (modify _) => apply calmly_tidily
  end.

Lemma calmly_count m : calmly (count m).
Proof. unfold count. quietly. Qed.

Lemma calmly_advanceSeq now seq : calmly (advanceSeq now seq).
Proof.
  unfold advanceSeq, saveLastSeq. apply calmly_bind; [|intros ?].
  - apply calmly_modify. intros s. unfold upd_recv, quiet; cbn.
    destruct (Z.leb_spec (i64 seq) (r_lastSeq (rw_recv s))); cbn; repeat split; auto; lia.
  - quietly.
Qed.

Lemma calmly_markDone now seq : calmly (markDone now seq).
Proof. unfold markDone. quietly. apply calmly_advanceSeq. Qed.

Lemma calmly_tryCloseGap now seq : calmly (tryCloseGap now seq).
Proof. unfold tryCloseGap. quietly. apply calmly_advanceSeq. Qed.

Lemma calmly_handle_jump now frameIdx seq : calmly (handle_jump now frameIdx seq).
Proof. unfold handle_jump, markGapWarned. quietly. apply calmly_tryCloseGap. Qed.

(** ** The deduplication window *)

(** The queue and the map hold the same numbers, within the capacity. *)
Record window_ok (r : Receiver) : Prop := {
  win_nodup : NoDup (r_dedupSeq r);
  win_dom : forall s, is_Some (r_dedupCRC r !! s) <-> s ∈ r_dedupSeq r;
  win_cap : len (r_dedupSeq r) <= dedupWindowCap }.

(** The numbers that leave the window when [seq] enters it. *)
Definition evicted (seq : Z) (r : Receiver) : option Z :=
  if decide (seq ∈ r_dedupSeq r) then None
  else if dedupWindowCap <=? len (r_dedupSeq r) then head (r_dedupSeq r) else None.

Lemma dedupRecord_shape seq crc r : window_ok r ->
  r_dedupCRC (dedupRecord seq crc r) =
    <[seq := crc]> (match evicted seq r with Some o => delete o (r_dedupCRC r) | None => r_dedupCRC r end) /\
  r_dedupSeq (dedupRecord seq crc r) =
    (if decide (seq ∈ r_dedupSeq r) then r_dedupSeq r
     else (match evicted seq r with Some _ => tail (r_dedupSeq r) | None => r_dedupSeq r end) ++ [seq]).
Proof.
  intros [Hnd Hdom Hcap]. unfold dedupRecord, evicted.
  destruct (r_dedupCRC r !! seq) as [c|] eqn:E.
  - assert (Hin : seq ∈ r_dedupSeq r) by (apply Hdom; by eexists).
    destruct (decide (seq ∈ r_dedupSeq r)); [done|by exfalso].
  - assert (Hout : seq ∉ r_dedupSeq r) by (intros H%Hdom; rewrite E in H; by destruct H).
    destruct (decide (seq ∈ r_dedupSeq r)) as [|_]; [by exfalso|].
    rewrite len_app. change (len [seq]) with 1.
    destruct (Z.leb_spec dedupWindowCap (len (r_dedupSeq r))) as [Hle|Hlt].
    + destruct (Z.ltb_spec dedupWindowCap (len (r_dedupSeq r) + 1)); [|lia].
      destruct (r_dedupSeq r) as [|o l]; [unfold dedupWindowCap in *; rewrite len_nil in *; lia|done].
    + destruct (Z.ltb_spec dedupWindowCap (len (r_dedupSeq r) + 1)); [lia|done].
Qed.

Lemma dedupRecord_ok seq crc r : window_ok r -> window_ok (dedupRecord seq crc r).
Proof.
  intros Hok. destruct (dedupRecord_shape seq crc r Hok) as [Em Es]. destruct Hok as [Hnd Hdom Hcap].
  unfold evicted in *. destruct (decide (seq ∈ r_dedupSeq r)) as [Hin|Hout].
  { split; rewrite ?Es, ?Em; try done. intros s. rewrite <- Hdom.
    destruct (decide (seq = s)) as [->|]; [|by rewrite lookup_insert_ne].
    rewrite lookup_insert_eq. split; [intros _; by apply Hdom|by eexists]. }
  destruct (Z.leb_spec dedupWindowCap (len (r_dedupSeq r))) as [Hle|Hlt].
  - destruct (r_dedupSeq r) as [|o l] eqn:El; [unfold dedupWindowCap in *; rewrite len_nil in *; lia|].
    cbn [head tail] in *. apply NoDup_cons in Hnd as [Ho Hnd].
    assert (Hos : o <> seq) by (intros ->; apply Hout, list_elem_of_here).
    split; rewrite ?Es, ?Em.
    + apply NoDup_app. split; [done|]. split; [|apply NoDup_singleton].
      intros x Hx Hs%list_elem_of_singleton. subst x. apply Hout. by right.
    + intros s. rewrite elem_of_app, list_elem_of_singleton.
      destruct (decide (seq = s)) as [->|Hne]; [rewrite lookup_insert_eq; split; [by right|by eexists]|].
      rewrite lookup_insert_ne by done. destruct (decide (o = s)) as [->|Hne'].
      * rewrite lookup_delete_eq. split; [by intros [? ?]|]. intros [H|H]; [done|congruence].
      * rewrite lookup_delete_ne, Hdom, elem_of_cons by done.
        split; [intros [?|?]; [congruence|by left]|intros [?|?]; [by right|congruence]].
    + unfold dedupWindowCap in *. rewrite len_cons in Hcap. zlia.
  - split; rewrite ?Es, ?Em.
    + apply NoDup_app. split; [done|]. split; [|apply NoDup_singleton].
      intros x Hx Hs%list_elem_of_singleton. by subst x.
    + intros s. rewrite elem_of_app, list_elem_of_singleton.
      destruct (decide (seq = s)) as [->|Hne]; [rewrite lookup_insert_eq; split; [by right|by eexists]|].
      rewrite lookup_insert_ne, Hdom by done. split; [by left|intros [?|?]; [done|congruence]].
    + zlia.
Qed.

(** The window remembers exactly what it should: after [(seq, crc)] is
    recorded it is a hit, any other number keeps its answer, except that the
    number that entered first is forgotten when a new one enters a full window. *)
Theorem dedup_window_spec seq crc r s c :
  window_ok r ->
  let r' := dedupRecord seq crc r in
  window_ok r' /\
  dedupHit s c r' =
    (if decide (s = seq) then crc =? c
     else if decide (evicted seq r = Some s) then false else dedupHit s c r).
Proof.
  intros Hok r'. split; [by apply dedupRecord_ok|].
  destruct (dedupRecord_shape seq crc r Hok) as [Em _]. unfold dedupHit, r'. rewrite Em.
  destruct (decide (s = seq)) as [->|Hne]; [by rewrite lookup_insert_eq|].
  rewrite lookup_insert_ne by done. destruct (evicted seq r) as [o|]; [|by case_decide].
  destruct (decide (Some o = Some s)) as [[= ->]|Ho]; [by rewrite lookup_delete_eq|].
  rewrite lookup_delete_ne; [done|]. intros ->. done.
Qed.

(** ** What an acknowledgement means *)

Section acks.
Context {C : Codec}.

(** The content of a frame has been imported, or isolated as a dead letter under
    its number. *)
Definition landed (s : RWorld) (f : Frame) : Prop :=
  (exists raw, Decompress f = Ok raw /\ raw ∈ rw_imported s) \/
  (exists meta, (meta, f_Payload f) ∈ rw_dlq s /\ dm_SeqNum meta = f_Seq f).

(** Everything the window remembers has landed. *)
Record window_inv (s : RWorld) : Prop := {
  winv_ok : window_ok (rw_recv s);
  winv_landed : forall seq crc, r_dedupCRC (rw_recv s) !! seq = Some crc ->
    exists g, f_Seq g = seq /\ f_CRC g = crc /\ ChecksumIEEE (f_Payload g) = crc /\ landed s g }.

(** Nothing stored is ever lost. *)
Definition store_mono (s s' : RWorld) : Prop :=
  rw_imported s `prefix_of` rw_imported s' /\ rw_dlq s `prefix_of` rw_dlq s'.

#[export] Instance store_mono_refl : Reflexive store_mono.
Proof. by intros s. Qed.
#[export] Instance store_mono_trans : Transitive store_mono.
Proof. intros s1 s2 s3 [? ?] [? ?]. split; by etrans. Qed.

Lemma elem_of_prefix {A} (x : A) l k : l `prefix_of` k -> x ∈ l -> x ∈ k.
Proof. intros [m ->] H. apply elem_of_app. by left. Qed.

Lemma landed_mono s s' f : store_mono s s' -> landed s f -> landed s' f.
Proof.
  intros [Hi Hd] [(raw & Hr & H)|(meta & H & Hs)]; [left|right].
  - exists raw. split; [done|by eapply elem_of_prefix].
  - exists meta. split; [by eapply elem_of_prefix|done].
Qed.

Lemma window_inv_mono s s' :
  store_mono s s' -> r_dedupSeq (rw_recv s') = r_dedupSeq (rw_recv s) ->
  r_dedupCRC (rw_recv s') = r_dedupCRC (rw_recv s) -> window_inv s -> window_inv s'.
Proof.
  intros Hm Hl Hc [[Hn Hd Hk] Hw]. split; [split; rewrite ?Hl, ?Hc; done|].
  rewrite Hc. intros seq crc H. destruct (Hw seq crc H) as (g & ? & ? & ? & ?).
  exists g. repeat split; try done. by eapply landed_mono.
Qed.

Lemma quiet_store s s' : quiet s s' -> store_mono s s'.
Proof. intros (Hi & Hd & _). unfold store_mono. by rewrite Hi, Hd. Qed.

Lemma window_inv_quiet s s' : quiet s s' -> window_inv s -> window_inv s'.
Proof.
  intros Hq. pose proof Hq as (_ & _ & _ & _ & Hl & Hc & _).
  apply window_inv_mono; [by apply quiet_store|done|done].
Qed.

(** Recording a frame that has landed keeps the invariant. *)
Lemma window_inv_record s f :
  ChecksumIEEE (f_Payload f) = f_CRC f -> landed s f -> window_inv s ->
  window_inv (upd_recv (dedupRecord (f_Seq f) (f_CRC f)) s).
Proof.
  intros Hcrc Hf [Hok Hw]. split; [by apply dedupRecord_ok|].
  cbn [rw_recv upd_recv]. destruct (dedupRecord_shape (f_Seq f) (f_CRC f) _ Hok) as [-> _].
  intros seq crc. destruct (decide (f_Seq f = seq)) as [<-|Hne].
  - rewrite lookup_insert_eq. intros [= <-]. exists f. done.
  - rewrite lookup_insert_ne by done. intros H. apply (Hw seq crc).
    destruct (evicted _ _) as [o|]; [|done]. by apply lookup_delete_Some in H as [_ H].
Qed.
End acks.

(** ** Processing one frame *)

Section frames.
Context {C : Codec}.

(** A decoded frame carries the checksum of its payload. *)
Definition sealed (f : Frame) : Prop := ChecksumIEEE (f_Payload f) = f_CRC f.

(** What processing a frame leaves, by the byte it returns. *)
Definition frame_post (f : Frame) (s : RWorld) (o : outcome rerr Z) (s' : RWorld) : Prop :=
  window_inv s' /\ store_mono s s' /\
  r_inflight (rw_recv s') = r_inflight (rw_recv s) /\
  r_lastSeq (rw_recv s) <= r_lastSeq (rw_recv s') /\
  match o with
  | Ok b =>
      (b = AckSuccess /\ landed s' f /\ dedupHit (f_Seq f) (f_CRC f) (rw_recv s') = true) \/
      (b = AckFail /\ rw_imported s' = rw_imported s /\ rw_dlq s' = rw_dlq s /\
       r_dedupCRC (rw_recv s') = r_dedupCRC (rw_recv s))
  | Err _ => False
  | Panic => True
  end.

(** The part of [frame_post] that composes. *)
Definition stored (s s' : RWorld) : Prop :=
  window_inv s' /\ store_mono s s' /\
  r_inflight (rw_recv s') = r_inflight (rw_recv s) /\
  r_lastSeq (rw_recv s) <= r_lastSeq (rw_recv s').

Lemma stored_quiet s s1 s2 : stored s s1 -> quiet s1 s2 -> stored s s2.
Proof.
  intros (Hw & Hm & Hi & Hl) Hq. split; [by eapply window_inv_quiet|].
  split; [etrans; [done|by apply quiet_store]|].
  unfold quiet in Hq. destruct_and!. split; [congruence|lia].
Qed.

Lemma stored_more s s1 s2 : stored s s1 -> store_mono s1 s2 -> rw_recv s2 = rw_recv s1 -> stored s s2.
Proof.
  intros (Hw & Hm & Hi & Hl) Hm2 E. split; [eapply (window_inv_mono s1); rewrite ?E; done|].
  split; [by etrans|]. by rewrite E.
Qed.

(** The success path ends, perhaps with a reading of the last sample's time. *)
Lemma frame_post_landed f s s1 s2 : stored s s1 -> landed s1 f -> dedupHit (f_Seq f) (f_CRC f) (rw_recv s1) = true ->
  rw_recv s2 = rw_recv s1 -> rw_imported s2 = rw_imported s1 -> rw_dlq s2 = rw_dlq s1 ->
  frame_post f s (Ok AckSuccess) s2.
Proof.
  intros Hs Hl Hh E1 E2 E3. assert (Hm : store_mono s1 s2) by (by split; rewrite ?E2, ?E3).
  destruct (stored_more _ _ _ Hs Hm E1) as (? & ? & ? & ?). repeat (split; [done|]). left.
  split; [done|]. split; [by apply (landed_mono s1)|by rewrite E1].
Qed.

Lemma stored_refl s : window_inv s -> stored s s.
Proof. intros H. split; [done|]. split; [done|]. split; [done|lia]. Qed.

(** The frame is stored; recording it ends the success path. *)
Definition finish (now : Z) (f : Frame) : R unit :=
  markDone now (f_Seq f) ;;; set_recv (dedupRecord (f_Seq f) (f_CRC f)).

Lemma dedupRecord_hit seq crc r : window_ok r -> dedupHit seq crc (dedupRecord seq crc r) = true.
Proof.
  intros Hok. destruct (dedupRecord_shape seq crc r Hok) as [Em _]. unfold dedupHit.
  rewrite Em, lookup_insert_eq. apply Z.eqb_refl.
Qed.

Lemma finish_spec now f s0 s :
  sealed f -> stored s0 s -> landed s f ->
  wp (finish now f) (fun o s' => stored s0 s' /\ landed s' f /\ is_ok o = true /\
    dedupHit (f_Seq f) (f_CRC f) (rw_recv s') = true) s.
Proof.
  intros Hf Hs Hl. unfold finish. wp_step. eapply wp_conseq; [apply calmly_markDone|].
  intros o s1 [Hq Ho]. destruct o as [[]|e|]; [|done|done]. cbn [bind_post]. unfold set_recv. apply wp_modify.
  pose proof (stored_quiet _ _ _ Hs Hq) as (Hw1 & Hm1 & Hi1 & Hl1).
  assert (Hl' : landed s1 f) by (eapply landed_mono; [by apply quiet_store|done]).
  split; [|split; [|split; [done|]]].
  - split; [by apply window_inv_record|]. cbn. unfold dedupRecord.
    repeat case_match; done.
  - exact Hl'.
  - cbn. apply dedupRecord_hit, (winv_ok _ Hw1).
Qed.

Lemma import_write_spec raw s :
  wp (import_write raw) (fun o s' =>
    rw_recv s' = rw_recv s /\ rw_dlq s' = rw_dlq s /\
    exists res, o = Ok res /\
      match res with
      | Ok _ => rw_imported s' = rw_imported s ++ [raw]
      | Err _ => rw_imported s' = rw_imported s
      | Panic => False
      end) s.
Proof.
  assert (Hnp : forall r, ImportWrite r raw <> Panic).
  { intros r. unfold ImportWrite. destruct (len raw =? 0); [done|]. destruct r; try done. by destruct (_ && _). }
  unfold wp, import_write. set (p := match rw_replies s with [] => _ | _ => _ end).
  destruct p as [r rest]. specialize (Hnp r).
  destruct (ImportWrite r raw) as [[]|e|]; cbn; [..|done]; (split; [done|]); (split; [done|]);
    (eexists; split; [done|]); done.
Qed.

Lemma calmly_relay_frame f raw s : 
  wp (relay_frame f raw) (fun o s' => quiet s s' /\ (o = Panic \/ is_ok o = true)) s.
Proof.
  unfold relay_frame, recv. wp_step. apply wp_gets. cbn [bind_post].
  destruct (r_relay (rw_recv s)) as [w|]; [|apply wp_ret; split; [done|by right]].
  destruct (Append (f_Type f) raw w) as [o w'].
  assert (Hset : calmly (set_recv (with_relay (Some w')))) by quietly.
  assert (Hend : calmly (match o with
    | Ok _ => ret tt
    | Panic => ret tt
    | Err e =>
        (if cfg_RelayDLQDir (r_cfg (rw_recv s)) then
           attempt (writeDLQJSON true add_relayDlq (mkMeta (f_Seq f) 1 (lit "RELAY_FORWARD_FAILURE") 0 (inr e)
             (lit "Zone_II") (metricOf (splitLines raw)) (len (splitLines raw)) (len raw)) (f_Payload f)) ;;; ret tt
         else ret tt) ;;; count MRelayDLQ
    end)).
  { destruct o; [quietly| |quietly]. unfold writeDLQJSON, count. cbn [negb]. quietly. }
  wp_step. eapply wp_conseq; [apply Hset|]. intros o1 s1 [Hq Ho].
  destruct o1 as [[]|e1|]; [|done|done]. cbn [bind_post].
  destruct o as [a|e|]; [| |by split; [|left]].
  - apply wp_ret. split; [done|by right].
  - eapply wp_conseq; [apply Hend|]. intros o2 s2 [Hq2 Ho2]. split; [by etrans|by right].
Qed.

(** A permanent error isolates the frame, and it is acknowledged only once the
    dead letter is on the disk. *)
Lemma handle_write_error_spec now f raw e s0 s :
  sealed f -> stored s0 s -> rw_imported s = rw_imported s0 -> rw_dlq s = rw_dlq s0 ->
  r_dedupCRC (rw_recv s) = r_dedupCRC (rw_recv s0) ->
  wp (handle_write_error now f raw e) (frame_post f s0) s.
Proof.
  intros Hf Hs Hi0 Hd0 Hc0.
  assert (Hfail : forall s', quiet s s' -> frame_post f s0 (Ok AckFail) s').
  { intros s' Hq. destruct (stored_quiet _ _ _ Hs Hq) as (? & ? & ? & ?).
    unfold quiet in Hq. destruct_and!. repeat (split; [done|]). right. repeat split; congruence. }
  unfold handle_write_error. wp_step. eapply wp_conseq; [apply calmly_count|].
  intros o s1 [Hq1 Ho1]. destruct o as [[]|e1|]; [|done|done]. cbn [bind_post].
  destruct (classifyWriteError e) as [[permanent status] category].
  destruct permanent; [|apply wp_ret; by apply Hfail].
  wp_step. eapply wp_conseq; [apply calmly_count|].
  intros o s2 [Hq2 Ho2]. destruct o as [[]|e2|]; [|done|done]. cbn [bind_post].
  unfold recv at 1. wp_step. apply wp_gets. cbn [bind_post].
  set (meta := mkMeta _ _ _ _ _ _ _ _ _). wp_step. apply wp_attempt.
  assert (Hq12 : quiet s s2) by by etrans.
  unfold writeDLQJSON. destruct (cfg_DLQDir _); cbn [negb].
  2: { apply wp_fail. cbn [bind_post]. apply wp_ret. by apply Hfail. }
  wp_step. eapply wp_conseq; [apply tidily_rsys|]. intros o s3 [Hq3 Ho3].
  destruct o as [[]|e3|]; cbn [bind_post]; [|apply wp_ret, Hfail; by etrans|done].
  wp_step. eapply wp_conseq; [apply tidily_rsys|]. intros o s4 [Hq4 Ho4].
  assert (Hq14 : quiet s s4) by (do 2 (etrans; [done|]); done).
  destruct o as [[]|e4|]; cbn [bind_post]; [|apply wp_ret, Hfail; done|done].
  apply wp_modify. cbn [bind_post].
  set (s5 := add_dlq (meta, f_Payload f) s4).
  pose proof (stored_quiet _ _ _ Hs Hq14) as (Hw4 & [Hm4 Hm4'] & Hi4 & Hl4).
  assert (Hm5 : store_mono s4 s5) by (split; [done|by eexists]).
  assert (Hs5 : stored s0 s5).
  { split; [by eapply (window_inv_mono s4)|]. split; [etrans; [|exact Hm5]; by split|]. by split. }
  assert (Hl5 : landed s5 f).
  { right. exists meta. split; [|done]. cbn. apply elem_of_app. right. apply list_elem_of_here. }
  wp_step. eapply wp_conseq; [apply calmly_count|]. intros o s6 [Hq6 Ho6].
  destruct o as [[]|e6|]; [|done|done]. cbn [bind_post].
  pose proof (stored_quiet _ _ _ Hs5 Hq6) as Hs6.
  assert (Hl6 : landed s6 f) by (eapply landed_mono; [by apply quiet_store|done]).
  eapply (wp_eq _ (bind (finish now f) (fun _ => ret AckSuccess))).
  { unfold finish. by rewrite bind_assoc. }
  wp_step. eapply wp_conseq; [by apply finish_spec|].
  intros o s7 ((? & ? & ? & ?) & Hl7 & Ho7 & Hhit). destruct o as [[]|e7|]; [|done|done].
  cbn [bind_post]. apply wp_ret. repeat (split; [done|]). by left.
Qed.

Lemma process_frame_spec now frameIdx f s :
  sealed f -> window_inv s -> wp (process_frame now frameIdx f) (frame_post f s) s.
Proof.
  intros Hf Hw. unfold process_frame. wp_step. eapply wp_conseq; [apply calmly_handle_jump|].
  intros o s1 [Hq1 Ho1]. destruct o as [[]|e1|]; [|done|done]. cbn [bind_post].
  pose proof (stored_quiet _ _ _ (stored_refl _ Hw) Hq1) as Hs1.
  assert (Hfail : frame_post f s (Ok AckFail) s1).
  { destruct Hs1 as (? & ? & ? & ?). unfold quiet in Hq1. destruct_and!.
    repeat (split; [done|]). by right. }
  destruct (Decompress f) as [raw|e|] eqn:Er; [|by apply wp_ret|].
  2: { destruct Hs1 as (? & ? & ? & ?). by repeat (split; [done|]). }
  destruct (_ =? 0); [by apply wp_ret|].
  wp_step. eapply wp_conseq; [apply import_write_spec|].
  intros o s2 (Hrv & Hd & res & -> & Hres). cbn [bind_post].
  assert (Hs2 : stored s s2).
  { apply (stored_more s s1); [done| |done]. split; [|by rewrite Hd].
    destruct res as [[]|e|]; rewrite ?Hres; [by eexists|done|done]. }
  unfold quiet in Hq1. destruct_and!.
  destruct res as [[]|e|]; [|apply handle_write_error_spec; congruence || done|done].
  assert (Hl2 : landed s2 f).
  { left. exists raw. split; [done|]. rewrite Hres. apply elem_of_app. right. apply list_elem_of_here. }
  wp_step. eapply wp_conseq; [apply calmly_count|].
  intros o s3 [Hq3 Ho3]. destruct o as [[]|e3|]; [|done|done]. cbn [bind_post].
  pose proof (stored_quiet _ _ _ Hs2 Hq3) as Hs3.
  wp_step. eapply wp_conseq; [apply calmly_relay_frame|]. intros o s4 [Hq4 Ho4].
  pose proof (stored_quiet _ _ _ Hs3 Hq4) as Hs4.
  assert (Hl4 : landed s4 f).
  { eapply landed_mono; [apply quiet_store; etrans; [exact Hq3|exact Hq4]|done]. }
  destruct o as [[]|e4|]; cbn [bind_post]; [|by destruct Ho4|].
  2: { destruct Hs4 as (? & ? & ? & ?). by repeat (split; [done|]). }
  eapply (wp_eq _ (bind (finish now f) (fun _ => r <- recv ;;
    (if cfg_LastWriteTs (r_cfg r) && (0 <? LastSampleTimestamp raw)
     then modify (add_writeTs (LastSampleTimestamp raw)) else ret tt) ;;; ret AckSuccess))).
  { unfold finish. by rewrite bind_assoc. }
  wp_step. eapply wp_conseq; [by apply finish_spec|].
  intros o s5 (Hs5 & Hl5 & Ho5 & Hhit). destruct o as [[]|e5|]; [|done|done]. cbn [bind_post].
  assert (Htail : forall ts, frame_post f s (Ok AckSuccess) s5 /\ frame_post f s (Ok AckSuccess) (add_writeTs ts s5)).
  { intros ts. by split; apply (frame_post_landed f s s5). }
  unfold recv. wp_step. apply wp_gets. cbn [bind_post].
  destruct (_ && _); wp_steps; apply (Htail (LastSampleTimestamp raw)).
Qed.

Lemma Decode_sealed fb f : Decode fb = Ok f -> sealed f.
Proof.
  unfold Decode, sealed. repeat case_match; try done. intros [= <-]. cbn.
  match goal with H : negb (_ =? _) = false |- _ =>
    apply negb_false_iff, Z.eqb_eq in H; done end.
Qed.
End frames.

(** The frames in flight are counted from one. *)
Definition counts_ok (m : gmap Z Z) : Prop := forall s n, m !! s = Some n -> 1 <= n.

Lemma add_remove_inflight seq r : counts_ok (r_inflight r) ->
  r_inflight (removeInflight seq (addInflight seq r)) = r_inflight r.
Proof.
  intros Hc. unfold removeInflight, addInflight. cbn. rewrite lookup_insert_eq. cbn.
  destruct (r_inflight r !! seq) as [n|] eqn:E; cbn.
  - pose proof (Hc _ _ E). destruct (Z.leb_spec (n + 1) 1); [lia|].
    rewrite insert_insert_eq. replace (n + 1 - 1) with n by lia. by apply insert_id.
  - by rewrite delete_insert_id.
Qed.

(** C6: an acknowledgement means that the data has landed. Whatever the answers
    of the database and the file system, and whatever the frame: a byte 0xff is
    returned only for a heartbeat, for a frame whose content the database has
    accepted or that is in the dead-letter directory under its number, or for a
    frame that repeats the number and the checksum of one for which that is
    true; everything the deduplication window remembers has landed; nothing
    stored is lost; and [last_seq] does not go back. The call returns no other
    byte than 0xff and 0x00, and the count of frames in flight is restored. *)
Theorem HandleFrame_ack_means_landed {C : Codec} now frameIdx frameBytes s :
  window_inv s -> counts_ok (r_inflight (rw_recv s)) ->
  wp (HandleFrame now frameIdx frameBytes) (fun o s' =>
    window_inv s' /\ store_mono s s' /\
    r_lastSeq (rw_recv s) <= r_lastSeq (rw_recv s') /\
    match o with
    | Ok ack =>
        r_inflight (rw_recv s') = r_inflight (rw_recv s) /\
        (ack = AckFail \/
         ack = AckSuccess /\ exists f, Decode frameBytes = Ok f /\
           (IsHeartbeat f = true \/ landed s' f \/
            exists g, f_Seq g = f_Seq f /\ f_CRC g = f_CRC f /\
              ChecksumIEEE (f_Payload g) = ChecksumIEEE (f_Payload f) /\ landed s g))
    | Err _ => False
    | Panic => True
    end) s.
Proof.
  intros Hw Hc. unfold HandleFrame. wp_step. apply wp_modify. cbn [bind_post].
  set (s1 := add_metric MRecv s).
  assert (Hw1 : window_inv s1) by by eapply (window_inv_mono s).
  destruct (Decode frameBytes) as [f|e|] eqn:Ed.
  2: { apply wp_ret. do 2 (split; [done|]). split; [cbn; lia|]. split; [done|by left]. }
  2: { do 2 (split; [done|]). split; [cbn; lia|done]. }
  destruct (IsHeartbeat f) eqn:Eh.
  { apply wp_ret. do 2 (split; [done|]). split; [cbn; lia|]. split; [done|].
    right. split; [done|]. exists f. split; [done|by left]. }
  unfold recv. wp_step. apply wp_gets. cbn [bind_post].
  pose proof (Decode_sealed _ _ Ed) as Hf.
  destruct (_ && _) eqn:Edup.
  - wp_step. apply wp_modify. cbn [bind_post]. apply wp_ret.
    split; [by eapply (window_inv_mono s)|]. split; [done|]. split; [cbn; lia|]. split; [done|].
    right. split; [done|]. exists f. split; [done|]. right. right.
    apply andb_prop in Edup as [_ Hhit]. unfold dedupHit in Hhit.
    destruct (r_dedupCRC (rw_recv s1) !! f_Seq f) as [c|] eqn:Ec; [|done].
    apply Z.eqb_eq in Hhit as ->. destruct (winv_landed s Hw _ _ Ec) as (g & Hg1 & Hg2 & Hg3 & Hg4).
    exists g. repeat split; try done. by rewrite Hg3, Hf.
  - wp_step. apply wp_modify. cbn [bind_post]. wp_step. apply wp_modify. cbn [bind_post].
    wp_step. eapply wp_conseq.
    { apply process_frame_spec; [done|]. by eapply (window_inv_mono s). }
    intros o s2 (Hw2 & Hm2 & Hi2 & Hl2 & Ho2). destruct o as [ack|e|]; cbn [bind_post]; [|done|].
    2: { split; [done|]. split; [done|]. split; [exact Hl2|done]. }
    unfold set_recv, count. wp_steps. split; [by eapply (window_inv_mono s2)|]. split; [done|].
    split; [exact Hl2|]. split.
    + cbn. cbn in Hi2. unfold removeInflight; cbn. rewrite Hi2.
      exact (add_remove_inflight (f_Seq f) (rw_recv s) Hc).
    + destruct Ho2 as [(-> & Hl & _)|(-> & _)]; [right|by left].
      split; [done|]. exists f. split; [done|]. right. left. exact Hl.
Qed.

(** ** Errors of the database, repeats, gaps *)

Lemma wp_calmly {A B} (m : R A) (k : A -> R B) Q s :
  calmly m -> (forall a s1, quiet s s1 -> wp (k a) Q s1) -> wp (bind m k) Q s.
Proof.
  intros Hm Hk. wp_step. eapply wp_conseq; [apply Hm|]. intros o s1 [Hq Ho].
  destruct o as [a|e|]; [|done|done]. by apply Hk.
Qed.

Lemma wp_rsys_ok e Q s : rw_faults s = [] -> Q (Ok tt) s -> wp (rsys e) Q s.
Proof. intros H HQ. unfold wp, rsys. by rewrite H. Qed.

(** The receiver's answer to an import that failed. *)
Definition error_answer (f : Frame) (raw : bytes) (e : import_error) (s : RWorld)
    (o : outcome rerr Z) (s' : RWorld) : Prop :=
  let '(permanent, status, category) := classifyWriteError e in
  rw_imported s' = rw_imported s /\
  if permanent && cfg_DLQDir (r_cfg (rw_recv s)) then
    o = Ok AckSuccess /\
    rw_dlq s' = rw_dlq s ++
      [(mkMeta (f_Seq f) 1 category status (inl e) (lit "Zone_I") (metricOf (splitLines raw))
          (len (splitLines raw)) (len raw), f_Payload f)]
  else o = Ok AckFail /\ rw_dlq s' = rw_dlq s /\
       r_dedupCRC (rw_recv s') = r_dedupCRC (rw_recv s).

Lemma handle_write_error_answer now f raw e s :
  rw_faults s = [] -> wp (handle_write_error now f raw e) (error_answer f raw e s) s.
Proof.
  intros Hft. unfold handle_write_error, error_answer.
  destruct (classifyWriteError e) as [[permanent status] category].
  apply wp_calmly; [apply calmly_count|]. intros _ s1 Hq1.
  destruct permanent; cbn [andb].
  2: { apply wp_ret. unfold quiet in Hq1. destruct_and!. done. }
  apply wp_calmly; [apply calmly_count|]. intros _ s2 Hq2.
  assert (Hq : quiet s s2) by by etrans. clear s1 Hq1 Hq2.
  unfold recv at 1. wp_step. apply wp_gets. cbn [bind_post].
  assert (Hft2 : rw_faults s2 = []) by (unfold quiet in Hq; destruct_and!; auto).
  assert (Hcfg : r_cfg (rw_recv s2) = r_cfg (rw_recv s)) by (unfold quiet in Hq; by destruct_and!).
  unfold writeDLQJSON. rewrite Hcfg. wp_step. apply wp_attempt.
  destruct (cfg_DLQDir (r_cfg (rw_recv s))); cbn [negb].
  2: { apply wp_fail. cbn [bind_post]. apply wp_ret. unfold quiet in Hq. by destruct_and!. }
  wp_step. apply wp_rsys_ok; [done|]. cbn [bind_post]. wp_step. apply wp_rsys_ok; [done|]. cbn [bind_post].
  apply wp_modify. cbn [bind_post]. apply wp_calmly; [apply calmly_count|]. intros _ s3 Hq3.
  apply wp_calmly; [apply calmly_markDone|]. intros _ s4 Hq4.
  wp_step. apply wp_modify. cbn [bind_post]. apply wp_ret.
  assert (Hq34 : quiet _ s4) by (etrans; [exact Hq3|exact Hq4]).
  unfold quiet in Hq, Hq34. destruct_and!. cbn in *. split; [congruence|]. split; [done|]. congruence.
Qed.

(** What becomes of a frame whose import fails. A permanent error (HTTP 4xx)
    isolates it: its payload and its description are appended to the dead
    letters and it is acknowledged. Any other error, and a permanent one when
    no dead-letter directory is configured, is answered with 0x00: the frame is
    not remembered as done, so the sender's retry will be processed. *)
Theorem HandleFrame_import_error {C : Codec} now frameIdx fb f raw r rest e s :
  Decode fb = Ok f -> IsHeartbeat f = false ->
  (f_Seq f <=? u64 (r_lastSeq (rw_recv s))) && dedupHit (f_Seq f) (f_CRC f) (rw_recv s) = false ->
  Decompress f = Ok raw -> len (TrimSpace raw) <> 0 ->
  rw_replies s = r :: rest -> ImportWrite r raw = Err e -> rw_faults s = [] ->
  wp (HandleFrame now frameIdx fb) (error_answer f raw e s) s.
Proof.
  intros Hd Hh Hdup Hr Ht Hrep Himp Hft. unfold HandleFrame. wp_step. apply wp_modify. cbn [bind_post].
  rewrite Hd, Hh. unfold recv at 1. wp_step. apply wp_gets. cbn [bind_post].
  change (rw_recv (add_metric MRecv s)) with (rw_recv s). rewrite Hdup.
  wp_step. apply wp_modify. cbn [bind_post]. wp_step. apply wp_modify. cbn [bind_post].
  set (s1 := upd_recv _ _). wp_step. unfold process_frame.
  apply wp_calmly; [apply calmly_handle_jump|]. intros _ s2 Hq2. rewrite Hr.
  destruct (Z.eqb_spec (len (TrimSpace raw)) 0); [done|].
  destruct Hq2 as (Hqi & Hqd & Hqr & Hqf & _ & Hqc & _ & Hqg & _).
  assert (Hrep2 : rw_replies s2 = r :: rest) by (rewrite Hqr; exact Hrep).
  wp_step. unfold wp, import_write. rewrite Hrep2. cbv beta iota zeta. rewrite Himp. cbn [fst snd bind_post].
  eapply wp_conseq; [apply handle_write_error_answer; by apply Hqf|].
  intros o s3 Ha. unfold error_answer in *. destruct (classifyWriteError e) as [[permanent status] category].
  cbn [rw_recv upd_replies rw_imported rw_dlq] in Ha. rewrite Hqi, Hqd, Hqc, Hqg in Ha.
  cbn [rw_recv s1 upd_recv add_metric rw_imported rw_dlq] in Ha. destruct Ha as [Hi Ha].
  change (r_cfg (addInflight (f_Seq f) (rw_recv s))) with (r_cfg (rw_recv s)) in Ha.
  destruct (permanent && cfg_DLQDir (r_cfg (rw_recv s))).
  - destruct Ha as [-> Hdl]. cbn [bind_post]. unfold set_recv, count. by wp_steps.
  - destruct Ha as (-> & Hdl & Hcrc). cbn [bind_post]. unfold set_recv, count. by wp_steps.
Qed.

(** C32: a gap is closed only over frames that nobody is processing, and then
    [last_seq] covers it: when [tryCloseGap] answers true, no number between
    [last_seq] and [seq] was in flight, and the new [last_seq] is at least
    [seq - 1]; when it answers false the receiver is unchanged. Numbers are below
    2^63, since [last_seq] is an [int64]. *)
Theorem tryCloseGap_safe now seq s :
  0 <= r_lastSeq (rw_recv s) -> r_lastSeq (rw_recv s) + 1 < 2 ^ 63 -> 0 <= seq < 2 ^ 63 ->
  st_inv (r_seqOrd (rw_recv s)) -> st_last (r_seqOrd (rw_recv s)) < 2 ^ 63 ->
  wp (tryCloseGap now seq) (fun o s' =>
    (o = Ok false /\ s' = s) \/
    (o = Ok true /\ r_lastSeq (rw_recv s) + 1 < seq /\
     (forall x, r_lastSeq (rw_recv s) < x < seq -> r_inflight (rw_recv s) !! x = None) /\
     seq - 1 <= r_lastSeq (rw_recv s'))) s.
Proof.
  intros H0 H1 Hs Hi Hl. unfold tryCloseGap, recv. wp_step. apply wp_gets. cbn [bind_post]. cbv zeta.
  set (r := rw_recv s) in *. set (last := r_lastSeq r) in *.
  rewrite (u64_small last) by (unfold is_u64; lia). rewrite (u64_small (last + 1)) by (unfold is_u64; lia).
  destruct (Z.leb_spec seq (last + 1)); [apply wp_ret; by left|].
  destruct (gap_clear last seq r) eqn:Eg; cbn [negb]; [|apply wp_ret; by left].
  wp_step. apply wp_modify. cbn [bind_post]. wp_step. apply wp_gets. cbn [bind_post].
  rewrite (u64_small (seq - 1)) by (unfold is_u64; lia).
  destruct (closeGap_spec (seq - 1) (r_seqOrd r) Hi ltac:(unfold is_u64; lia)) as (_ & El & _).
  set (s1 := upd_recv _ s).
  assert (Hload : load (r_seqOrd (rw_recv s1)) = Z.max (st_last (r_seqOrd r)) (seq - 1)) by exact El.
  rewrite Hload. set (v := Z.max _ _). wp_step. unfold advanceSeq. wp_step. apply wp_modify. cbn [bind_post].
  set (s2 := upd_recv _ s1).
  assert (H2 : seq - 1 <= r_lastSeq (rw_recv s2)).
  { unfold s2; cbn. rewrite i64_small by (unfold is_i64, v; lia).
    destruct (Z.leb_spec v (r_lastSeq (rw_recv s))); cbn; unfold v in *; lia. }
  assert (Hrest : calmly (r0 <- recv ;; (if negb (cfg_LastSeqFile (r_cfg r0)) then ret tt
    else let throttled := match r_persistAt r0 with Some t => now <? t | None => false end in
      if throttled then ret tt
      else set_recv (with_persistAt (Some (now + persistInterval))) ;;;
           attempt (saveLastSeq (i64 v)) ;;; ret tt))).
  { unfold saveLastSeq. quietly. }
  eapply wp_conseq; [apply Hrest|]. intros o s3 [Hq Ho]. destruct o as [[]|e|]; [|done|done].
  cbn [bind_post]. apply wp_ret. right. split; [done|]. split; [lia|]. split.
  - intros x Hx. unfold gap_clear in Eg. rewrite u64_small in Eg by (unfold is_u64; lia).
    rewrite forallb_forall in Eg. specialize (Eg x).
    destruct (r_inflight r !! x) eqn:E; [|done]. 
    assert (false = true); [|done]. apply Eg, list_elem_of_In, elem_of_seqZ. lia.
  - unfold quiet in Hq. destruct_and!. lia.
Qed.

(** What [saveLastSeq] wrote, [loadLastSeq] reads back. *)
Theorem loadLastSeq_saveLastSeq seq s :
  is_i64 seq -> rw_faults s = [] ->
  wp (saveLastSeq seq ;;; loadLastSeq) (fun o s' =>
    o = Ok seq /\ rw_file s' = Some (Sprintf_d seq ++ [NL])) s.
Proof.
  intros Hn Hf. destruct (Sprintf_d_graph seq Hn) as [He Hg].
  assert (Hok : forall e s0, rw_faults s0 = [] -> rsys e s0 = (Ok tt, s0))
    by (intros e s0 H0; unfold rsys; by rewrite H0).
  unfold wp, saveLastSeq, bind, modify. rewrite !(Hok _ s) by done. cbv beta iota.
  unfold loadLastSeq, bind, gets. cbn [rw_file upd_file]. rewrite Hok by done. cbv beta iota.
  rewrite TrimSpace_graph_nl by done.
  pose proof (Sscanf_Sprintf seq [] Hn I) as Hsc. rewrite app_nil_r in Hsc. by rewrite Hsc.
Qed.

(** ** Witnesses, with the identity codec *)

#[local] Existing Instance id_codec.

(** A receiver that has handled nothing, with everything configured but a relay,
    in front of the given answers of the database. *)
Definition started (replies : list http_result) : RWorld :=
  mkRW (mkR (mkRC true true true true) 0 newSeqTracker ∅ 0 0 [] ∅ None None)
    replies [] None [] [] [] [] [].

Definition ok_reply : http_result := HReply 204 [] true.
Definition bad_reply : http_result := HReply 400 (lit "bad") true.

(** Frame number 1 with the payload [A]. *)
Definition frame_A : bytes := encodeRaw TypeDataZstd 1 [65] (ChecksumIEEE [65]).
Definition decoded_A : Frame := mkFrame Version TypeDataZstd 1 (ChecksumIEEE [65]) [65].

Lemma started_inv replies : window_inv (started replies).
Proof.
  split; [split; cbn|].
  - constructor.
  - intros s. rewrite lookup_empty, elem_of_nil. split; [by intros [? ?]|done].
  - by vm_compute.
  - intros seq crc. cbn. by rewrite lookup_empty.
Qed.

Lemma HandleFrame_ack_means_landed_witness :
  fst (HandleFrame 0 0 frame_A (started [ok_reply])) = Ok AckSuccess /\
  wp (HandleFrame 0 0 frame_A) (fun o s' =>
    window_inv s' /\ store_mono (started [ok_reply]) s' /\ 0 <= r_lastSeq (rw_recv s') /\
    match o with
    | Ok ack =>
        r_inflight (rw_recv s') = ∅ /\
        (ack = AckFail \/
         ack = AckSuccess /\ exists f, Decode frame_A = Ok f /\
           (IsHeartbeat f = true \/ landed s' f \/
            exists g, f_Seq g = f_Seq f /\ f_CRC g = f_CRC f /\
              ChecksumIEEE (f_Payload g) = ChecksumIEEE (f_Payload f) /\
              landed (started [ok_reply]) g))
    | Err _ => False
    | Panic => True
    end) (started [ok_reply]).
Proof.
  split; [vm_compute; reflexivity|].
  apply (HandleFrame_ack_means_landed 0 0 frame_A (started [ok_reply])); [apply started_inv|].
  intros x n. cbn. by rewrite lookup_empty.
Defined.

Lemma HandleFrame_import_error_witness :
  error_answer decoded_A [65] (ImportHTTPError 400 (lit "bad")) (started [bad_reply])
    (fst (HandleFrame 0 0 frame_A (started [bad_reply])))
    (snd (HandleFrame 0 0 frame_A (started [bad_reply]))) /\
  fst (HandleFrame 0 0 frame_A (started [bad_reply])) = Ok AckSuccess.
Proof.
  split; [|vm_compute; reflexivity].
  apply (HandleFrame_import_error 0 0 frame_A decoded_A [65] bad_reply [] _ (started [bad_reply]));
    vm_compute; reflexivity || discriminate.
Defined.

Lemma tryCloseGap_safe_witness :
  wp (tryCloseGap 0 8) (fun o s' =>
    (o = Ok false /\ s' = started []) \/
    (o = Ok true /\ 0 + 1 < 8 /\
     (forall x, 0 < x < 8 -> r_inflight (rw_recv (started [])) !! x = None) /\
     8 - 1 <= r_lastSeq (rw_recv s'))) (started []) /\
  fst (tryCloseGap 0 8 (started [])) = Ok true.
Proof.
  split; [|vm_compute; reflexivity].
  apply (tryCloseGap_safe 0 8 (started [])); try (vm_compute; split; reflexivity || discriminate);
    try (vm_compute; reflexivity || discriminate).
  split; [by vm_compute|intros s Hs; by apply elem_of_empty in Hs|by vm_compute].
Defined.

Lemma loadLastSeq_saveLastSeq_witness :
  wp (saveLastSeq 4711 ;;; loadLastSeq) (fun o s' =>
    o = Ok 4711 /\ rw_file s' = Some (lit "4711" ++ [NL])) (started []).
Proof. apply (loadLastSeq_saveLastSeq 4711 (started [])); [unfold is_i64; lia|reflexivity]. Defined.

Lemma dedup_window_spec_witness :
  let r := rw_recv (started []) in
  window_ok (dedupRecord 5 77 r) /\
  dedupHit 5 77 (dedupRecord 5 77 r) = (if decide (5 = 5) then 77 =? 77
     else if decide (evicted 5 r = Some 5) then false else dedupHit 5 77 r).
Proof. apply (dedup_window_spec 5 77 (rw_recv (started [])) 5 77). apply (winv_ok _ (started_inv [])). Defined.

(** A payload of blanks is refused for ever: whatever the database would answer,
    the byte is 0x00 and the receiver remembers nothing. *)
Example blank_payload_refused :
  fst (HandleFrame 0 0 (encodeRaw TypeDataZstd 1 [10] (ChecksumIEEE [10])) (started [ok_reply]))
  = Ok AckFail.
Proof. vm_compute. reflexivity. Qed.
