(* ===== verification/Repeats.v ===== *)
(** * Frames that come again

    The deduplication window of the receiver remembers the last 4096 numbers it has
    processed. A frame that was acknowledged is recognised until as many other
    numbers have come. *)
From S2P Require Import Prelude GoBytes Protocol WalDisk Wal VmClient SeqTracker Receiver.
Local Open Scope Z_scope.
Local Open Scope go_scope.

(** ** The place of a number in the window *)

(** How many numbers came after [seq]. *)
Fixpoint behind (seq : Z) (l : list Z) : Z :=
  match l with [] => 0 | x :: l' => if x =? seq then len l' else behind seq l' end.

Lemma behind_snoc seq l x : seq ∈ l -> behind seq (l ++ [x]) = behind seq l + 1.
Proof.
  induction l as [|y l IH]; [by intros ?%elem_of_nil|]. intros Hin. cbn [app behind].
  destruct (Z.eqb_spec y seq) as [->|Hne]; [zlia|]. apply elem_of_cons in Hin as [->|Hin]; [done|by apply IH].
Qed.

Lemma behind_last seq l : seq ∉ l -> behind seq (l ++ [seq]) = 0.
Proof.
  induction l as [|y l IH]; intros Hn; cbn [app behind]; [by rewrite Z.eqb_refl|].
  apply not_elem_of_cons in Hn as [Hne Hn]. destruct (Z.eqb_spec y seq); [done|by apply IH].
Qed.

Lemma behind_nonneg seq l : 0 <= behind seq l.
Proof. induction l as [|y l IH]; cbn [behind]; [lia|]. destruct (y =? seq); [zlia|done]. Qed.

(** The window remembers the frame, and [n] other numbers have come since. *)
Record remembers (seq crc n : Z) (r : Receiver) : Prop := {
  rem_ok : window_ok r;
  rem_hit : dedupHit seq crc r = true;
  rem_place : behind seq (r_dedupSeq r) <= n }.

Lemma hit_in seq crc r : window_ok r -> dedupHit seq crc r = true -> seq ∈ r_dedupSeq r.
Proof.
  intros Hok Hh. apply (win_dom _ Hok). unfold dedupHit in Hh. destruct (r_dedupCRC r !! seq); [by eexists|done].
Qed.

(** Another number pushes it one place further; the window holds 4096. *)
Lemma remembers_record seq crc n s c r :
  remembers seq crc n r -> (s = seq -> c = crc) -> n + 1 < 4096 -> remembers seq crc (n + 1) (dedupRecord s c r).
Proof.
  intros [Hok Hh Hp] Hc Hn. pose proof (hit_in _ _ _ Hok Hh) as Hin.
  destruct (dedup_window_spec s c r seq crc Hok) as [Hok' Hh']. destruct (dedupRecord_shape s c r Hok) as [_ Es].
  assert (Hout : evicted s r <> Some seq).
  { unfold evicted. destruct (decide (s ∈ r_dedupSeq r)); [done|].
    destruct (Z.leb_spec dedupWindowCap (len (r_dedupSeq r))) as [Hfull|]; [|done].
    unfold dedupWindowCap in Hfull. destruct (r_dedupSeq r) as [|x l]; [done|]. cbn [head]. intros [= ->].
    cbn [behind] in Hp. rewrite Z.eqb_refl in Hp. rewrite len_cons in Hfull. lia. }
  split; [done| |].
  - rewrite Hh'. destruct (decide (seq = s)) as [->|]; [rewrite (Hc eq_refl); apply Z.eqb_refl|].
    by destruct (decide (evicted s r = Some seq)).
  - rewrite Es. destruct (decide (s ∈ r_dedupSeq r)); [lia|].
    destruct (evicted s r) as [o|] eqn:Eo; [|rewrite behind_snoc by done; lia].
    unfold evicted in Eo. destruct (decide (s ∈ r_dedupSeq r)); [done|]. destruct (dedupWindowCap <=? _); [|done].
    destruct (r_dedupSeq r) as [|x l]; [done|]. injection Eo as ->. cbn [tail behind] in *.
    destruct (Z.eqb_spec o seq) as [->|]; [done|]. apply elem_of_cons in Hin as [->|Hin]; [done|].
    rewrite behind_snoc by done. lia.
Qed.

(** ** One call *)

(** The window after a call that processed the frame [f], if it was recorded. *)
Definition same_window (r r' : Receiver) : Prop := r_dedupSeq r' = r_dedupSeq r /\ r_dedupCRC r' = r_dedupCRC r.
Definition window_after (f : Frame) (r r' : Receiver) : Prop :=
  same_window r r' \/ exists r1, same_window r r1 /\ same_window (dedupRecord (f_Seq f) (f_CRC f) r1) r'.

Lemma quiet_window s s' : quiet s s' -> same_window (rw_recv s) (rw_recv s').
Proof. unfold quiet. intros H. destruct_and!. by split. Qed.
Lemma same_window_trans r1 r2 r3 : same_window r1 r2 -> same_window r2 r3 -> same_window r1 r3.
Proof. unfold same_window. intros [] []. split; congruence. Qed.

(** Calls that do not touch the window. *)
Definition still {A} (m : R A) : Prop := forall s, wp m (fun _ s' => same_window (rw_recv s) (rw_recv s')) s.

(** Only recording changes the window. *)
Definition keeps_window {A} (f : Frame) (r : Receiver) (m : R A) : Prop :=
  forall s, same_window r (rw_recv s) -> wp m (fun _ s' => window_after f r (rw_recv s')) s.

Lemma still_tidily {A} (m : R A) : tidily m -> still m.
Proof. intros H s. eapply wp_conseq; [apply H|]. intros o s' [Hq _]. by apply quiet_window. Qed.
Lemma still_calmly {A} (m : R A) : calmly m -> still m.
Proof. intros H. by apply still_tidily, calmly_tidily. Qed.
Lemma still_modify f : (forall s, rw_recv (f s) = rw_recv s) -> still (modify f).
Proof. intros H s. apply wp_modify. by rewrite H. Qed.
Lemma still_ret {A} (a : A) : still (ret a).
Proof. intros s. by apply wp_ret. Qed.
Lemma still_fail {A} e : still (@fail RWorld rerr A e).
Proof. intros s. by apply wp_fail. Qed.
Lemma still_attempt {A} (m : R A) : still m -> still (attempt m).
Proof. intros Hm s. apply wp_attempt. eapply wp_conseq; [apply Hm|]. by intros [] s'. Qed.
Lemma still_bind {A B} (m : R A) (k : A -> R B) : still m -> (forall a, still (k a)) -> still (bind m k).
Proof.
  intros Hm Hk s. apply wp_bind. eapply wp_conseq; [apply Hm|]. intros o s1 H1.
  destruct o as [a|e|]; cbn [bind_post]; [|done|done]. eapply wp_conseq; [apply Hk|].
  intros o s2 H2. by eapply same_window_trans.
Qed.

Lemma keeps_still {A B} f r (m : R A) (k : A -> R B) : still m -> (forall a, keeps_window f r (k a)) -> keeps_window f r (bind m k).
Proof.
  intros Hm Hk s Hs. apply wp_bind. eapply wp_conseq; [apply Hm|]. intros o s1 H.
  pose proof (same_window_trans _ _ _ Hs H) as H1.
  destruct o as [a|e|]; cbn [bind_post]; [by apply Hk|by left..].
Qed.

Lemma keeps_ret {A} f r (a : A) : keeps_window f r (ret a).
Proof. intros s Hs. apply wp_ret. by left. Qed.

(** Recording, then calls that do not touch the window. *)
Lemma keeps_record {B} f r (k : unit -> R B) : still (k tt) ->
  keeps_window f r (bind (set_recv (dedupRecord (f_Seq f) (f_CRC f))) k).
Proof.
  intros Hk s Hs. apply wp_bind, wp_modify. cbn [bind_post]. eapply wp_conseq; [apply Hk|]. intros o s1 H.
  right. by exists (rw_recv s).
Qed.

Lemma still_import raw : still (import_write raw).
Proof. intros s. eapply wp_conseq; [apply import_write_spec|]. intros o s' (E & _). by rewrite E. Qed.

Lemma still_gets {A} (g : RWorld -> A) : still (gets g).
Proof. apply still_calmly, calmly_gets. Qed.
Lemma still_count m : still (count m).
Proof. apply still_calmly, calmly_count. Qed.

Lemma still_dlq b keep meta payload : (forall x s, rw_recv (keep x s) = rw_recv s) -> still (writeDLQJSON b keep meta payload).
Proof.
  intros Hk. unfold writeDLQJSON. destruct (negb b); [apply still_fail|].
  do 2 (apply still_bind; [apply still_tidily, tidily_rsys|intros]). by apply still_modify.
Qed.

Lemma keeps_handle_write_error now f raw e r : keeps_window f r (handle_write_error now f raw e).
Proof.
  unfold handle_write_error. apply keeps_still; [apply still_count|intros _].
  destruct (classifyWriteError e) as [[[] status] category]; [|apply keeps_ret].
  apply keeps_still; [apply still_count|intros _]. cbv zeta. apply keeps_still; [apply still_gets|intros x].
  apply keeps_still; [by apply still_attempt, still_dlq|intros o]. destruct o; [|apply keeps_ret..].
  apply keeps_still; [apply still_count|intros _]. apply keeps_still; [apply still_calmly, calmly_markDone|intros _].
  apply keeps_record, still_ret.
Qed.

Section window.
Context {C : Codec}.

Lemma still_relay f raw : still (relay_frame f raw).
Proof. intros s. eapply wp_conseq; [apply calmly_relay_frame|]. intros o s' [Hq _]. by apply quiet_window. Qed.

Lemma keeps_process_frame now frameIdx f r : keeps_window f r (process_frame now frameIdx f).
Proof.
  unfold process_frame. apply keeps_still; [apply still_calmly, calmly_handle_jump|intros _].
  destruct (Decompress f) as [raw|e|]; [|apply keeps_ret|intros s Hs; by left].
  destruct (_ =? 0); [apply keeps_ret|]. apply keeps_still; [apply still_import|intros o].
  destruct o as [u|e|]; [|apply keeps_handle_write_error|intros s Hs; by left].
  apply keeps_still; [apply still_count|intros _]. apply keeps_still; [apply still_relay|intros _].
  apply keeps_still; [apply still_calmly, calmly_markDone|intros _]. apply keeps_record.
  apply still_bind; [apply still_gets|intros x]. cbv zeta. apply still_bind; [|intros; apply still_ret].
  destruct (_ && _); [by apply still_modify|apply still_ret].
Qed.

(** A call changes the window by recording its frame, or not at all. *)
Lemma HandleFrame_window now frameIdx fb s :
  let s' := (HandleFrame now frameIdx fb s).2 in
  same_window (rw_recv s) (rw_recv s') \/
  exists f, Decode fb = Ok f /\ window_after f (rw_recv s) (rw_recv s').
Proof.
  cbv zeta. destruct (Decode fb) as [f|e|] eqn:Ed; [|left; unfold HandleFrame; by rewrite Ed..].
  right. exists f. split; [done|]. assert (H : keeps_window f (rw_recv s) (HandleFrame now frameIdx fb)).
  2: { by apply H. }
  unfold HandleFrame. rewrite Ed. apply keeps_still; [apply still_count|intros _].
  destruct (IsHeartbeat f); [apply keeps_ret|]. apply keeps_still; [apply still_gets|intros x].
  destruct (_ && _); [apply keeps_still; [apply still_count|intros _; apply keeps_ret]|].
  apply keeps_still; [apply still_count|intros _].
  assert (Hset : forall g, (forall r, same_window r (g r)) -> still (set_recv g)).
  { intros g Hg s1. apply wp_modify. apply Hg. }
  apply keeps_still; [by apply Hset|intros _].
  intros s1 Hs1. apply wp_bind. eapply wp_conseq; [by apply (keeps_process_frame now frameIdx f (rw_recv s))|].
  intros o s2 H2. destruct o as [ack|e|]; [|done|done]. cbn [bind_post].
  eapply wp_conseq; [apply (still_bind (set_recv (removeInflight (f_Seq f))) (fun _ => count (MInflight (-1)) ;;; ret ack));
    [by apply Hset|intros _; apply still_bind; [apply still_count|intros _; apply still_ret]]|].
  intros o s3 H3. destruct H2 as [H2|(r1 & H1 & H2)]; [left; by eapply same_window_trans|].
  right. exists r1. split; [done|]. by eapply same_window_trans.
Qed.

(** ** Any number of calls *)

(** The receiver handles the frames, one call after the other, and goes on. *)
Inductive handled : list bytes -> RWorld -> RWorld -> Prop :=
| handled_nil s : handled [] s s
| handled_cons now frameIdx fb fbs ack s s1 s2 :
    HandleFrame now frameIdx fb s = (Ok ack, s1) -> handled fbs s1 s2 -> handled (fb :: fbs) s s2.

(** No frame of the list carries the number of [f] with another checksum. *)
Definition no_reuse (f : Frame) (fbs : list bytes) : Prop :=
  forall fb g, fb ∈ fbs -> Decode fb = Ok g -> f_Seq g = f_Seq f -> f_CRC g = f_CRC f.

Lemma remembers_same seq crc n r r' : same_window r r' -> remembers seq crc n r -> remembers seq crc n r'.
Proof.
  intros [E1 E2] [[Hnd Hdom Hcap] Hh Hp]. split; [split|unfold dedupHit|]; rewrite ?E1, ?E2; done.
Qed.

Lemma remembers_up seq crc n n' r : n <= n' -> remembers seq crc n r -> remembers seq crc n' r.
Proof. intros H []. split; [done|done|lia]. Qed.

Lemma remembers_call f n now frameIdx fb s :
  remembers (f_Seq f) (f_CRC f) n (rw_recv s) -> no_reuse f [fb] -> n + 1 < 4096 ->
  remembers (f_Seq f) (f_CRC f) (n + 1) (rw_recv (HandleFrame now frameIdx fb s).2).
Proof.
  intros Hr Hn Hb. destruct (HandleFrame_window now frameIdx fb s) as [H|(g & Eg & [H|(r1 & H1 & H2)])].
  1, 2: apply (remembers_up _ _ n); [lia|by eapply remembers_same].
  apply (remembers_same _ _ _ _ _ H2). apply remembers_record; [by eapply remembers_same| |done].
  intros E. apply (Hn fb g (list_elem_of_here _ _) Eg E).
Qed.

Lemma remembers_calls f fbs s s' : handled fbs s s' -> forall n,
  remembers (f_Seq f) (f_CRC f) n (rw_recv s) -> no_reuse f fbs -> n + len fbs < 4096 ->
  remembers (f_Seq f) (f_CRC f) (n + len fbs) (rw_recv s').
Proof.
  induction 1 as [s|now frameIdx fb fbs ack s s1 s2 E _ IH]; intros n Hr Hn Hb.
  { apply (remembers_up _ _ n); [zlia|done]. }
  rewrite len_cons in *. pose proof (len_nonneg fbs). pose proof (remembers_call f n now frameIdx fb s Hr) as H1. rewrite E in H1. cbn [snd] in H1.
  replace (n + (1 + len fbs)) with (n + 1 + len fbs) by lia. apply IH; [apply H1; [|lia]| |lia].
  - intros fb' g Hin. apply Hn. apply list_elem_of_singleton in Hin as ->. apply list_elem_of_here.
  - intros fb' g Hin. apply Hn. by apply list_elem_of_further.
Qed.

(** A frame that was acknowledged is in the window, and the newest there if its
    number was not. *)
Lemma acknowledged_remembered now frameIdx fb f s s1 :
  Decode fb = Ok f -> IsHeartbeat f = false -> window_inv s -> HandleFrame now frameIdx fb s = (Ok AckSuccess, s1) ->
  remembers (f_Seq f) (f_CRC f) (behind (f_Seq f) (r_dedupSeq (rw_recv s1))) (rw_recv s1) /\
  (f_Seq f ∉ r_dedupSeq (rw_recv s) -> behind (f_Seq f) (r_dedupSeq (rw_recv s1)) = 0).
Proof.
  intros Hd Hh Hw Hrun.
  assert (Hhit : window_ok (rw_recv s1) /\ dedupHit (f_Seq f) (f_CRC f) (rw_recv s1) = true).
  { revert Hrun. unfold HandleFrame. rewrite Hd, Hh. unfold set_recv, count, recv, bind, modify, gets, ret.
    destruct (_ && _) eqn:Edup.
    - intros [= <-]. apply andb_prop in Edup as [_ ?]. split; [apply (winv_ok _ Hw)|done].
    - set (s2 := upd_recv (addInflight (f_Seq f)) (add_metric (MInflight 1) (add_metric MRecv s))).
      pose proof (process_frame_spec now frameIdx f s2) as Hp. unfold wp in Hp.
      destruct (process_frame now frameIdx f s2) as [[ack|e|] s3]; try done.
      intros [= -> <-]. destruct Hp as (Hw3 & _ & _ & _ & Hp); [by eapply Decode_sealed|by eapply (window_inv_mono s)|].
      destruct Hp as [(_ & _ & Hh3)|(E & _)]; [|done]. destruct (winv_ok _ Hw3) as [H1 H2 H3]. split; [by split|exact Hh3]. }
  destruct Hhit as [Hok Hhit]. split; [by split|]. intros Hnew. pose proof (hit_in _ _ _ Hok Hhit) as Hin.
  pose proof (HandleFrame_window now frameIdx fb s) as Hwin. rewrite Hrun, Hd in Hwin. cbn [snd] in Hwin.
  destruct Hwin as [[E _]|(g & [= <-] & [[E _]|(r1 & [E1 E1'] & [E2 _])])]; [rewrite E in Hin; done..|].
  assert (Hok1 : window_ok r1).
  { destruct (winv_ok _ Hw) as [H1 H2 H3]. split; by rewrite ?E1, ?E1'. }
  destruct (dedupRecord_shape (f_Seq f) (f_CRC f) r1 Hok1) as [_ Es]. rewrite E2, Es, E1.
  destruct (decide (f_Seq f ∈ r_dedupSeq (rw_recv s))); [done|].
  destruct (evicted _ _); apply behind_last; [|done]. intros H. apply Hnew.
  destruct (r_dedupSeq (rw_recv s)); [done|by apply list_elem_of_further].
Qed.

(** C23: a frame that was acknowledged as processed is not processed again while the
    window remembers it. Let a frame be acknowledged, and let any other frames come
    after it, with any answers of the database, none of them under the same number with another checksum; fewer than 4096 of them, counting the numbers that were
    already behind it in the window, of which there are none when its number was
    new there. When the frame then comes again, at a receiver whose [last_seq] has
    reached its number, the answer is 0xff and nothing but two counters changes,
    whatever the database would answer. *)
Theorem HandleFrame_repeat_absorbed now frameIdx now' frameIdx' fb f more s s1 s2 :
  Decode fb = Ok f -> IsHeartbeat f = false -> window_inv s ->
  HandleFrame now frameIdx fb s = (Ok AckSuccess, s1) ->
  handled more s1 s2 -> no_reuse f more ->
  behind (f_Seq f) (r_dedupSeq (rw_recv s1)) + len more < 4096 ->
  f_Seq f <= u64 (r_lastSeq (rw_recv s2)) ->
  HandleFrame now' frameIdx' fb s2 = (Ok AckSuccess, add_metric MDup (add_metric MRecv s2)) /\
  (f_Seq f ∉ r_dedupSeq (rw_recv s) -> behind (f_Seq f) (r_dedupSeq (rw_recv s1)) = 0).
Proof.
  intros Hd Hh Hw Hrun Hmore Hre Hb Hseq.
  destruct (acknowledged_remembered _ _ _ _ _ _ Hd Hh Hw Hrun) as [Hr Hnew]. split; [|done].
  destruct (remembers_calls f more s1 s2 Hmore _ Hr Hre Hb) as [_ Hhit _].
  unfold HandleFrame. rewrite Hd, Hh. unfold bind, count, modify, recv, gets, ret.
  change (rw_recv (add_metric MRecv s2)) with (rw_recv s2). rewrite Hhit.
  destruct (Z.leb_spec (f_Seq f) (u64 (r_lastSeq (rw_recv s2)))); [done|lia].
Qed.

End window.

(** ** Witness *)

#[local] Existing Instance id_codec.

(** Frames number 2 and 3, the first of which the database refuses for now. *)
Definition frame_at (seq : Z) : bytes := encodeRaw TypeDataZstd seq [66] (ChecksumIEEE [66]).
Definition busy_reply : http_result := HReply 503 [] true.
Definition after_A : RWorld := snd (HandleFrame 0 0 frame_A (started [ok_reply; busy_reply; ok_reply])).
Definition after_more : RWorld := snd (HandleFrame 2 2 (frame_at 3) (snd (HandleFrame 1 1 (frame_at 2) after_A))).

Lemma HandleFrame_repeat_absorbed_witness :
  HandleFrame 9 3 frame_A after_more = (Ok AckSuccess, add_metric MDup (add_metric MRecv after_more)).
Proof.
  apply (HandleFrame_repeat_absorbed 0 0 9 3 frame_A decoded_A [frame_at 2; frame_at 3]
    (started [ok_reply; busy_reply; ok_reply]) after_A after_more).
  - vm_compute; reflexivity.
  - reflexivity.
  - apply started_inv.
  - vm_compute; reflexivity.
  - apply (handled_cons 1 1 _ _ AckFail _ (snd (HandleFrame 1 1 (frame_at 2) after_A))); [vm_compute; reflexivity|].
    apply (handled_cons 2 2 _ _ AckSuccess _ after_more); [vm_compute; reflexivity|apply handled_nil].
  - intros fb g [->|[->|[]%elem_of_nil]%elem_of_cons]%elem_of_cons; vm_compute; by intros [= <-].
  - vm_compute; reflexivity.
  - vm_compute; discriminate.
Defined.
