(* ===== verification/Poller.v ===== *)
(** * The poller ([internal/sender/poller.go]): export windows of the source
    database, cut them into frames, append them to the log, move the cursor.

    Durations are nanoseconds and timestamps milliseconds, as in the code.  The
    source database is a parameter: [export_at k start fin] is what the transport
    gives to the [k]-th export request, and [flush_at k] to the [k]-th flush.
    What the file system answers about its disk is an argument; metric updates and
    log messages are left out. *)
From S2P Require Import Prelude GoBytes GoTime Protocol WalDisk WalScan Wal WalQueue WalCommit VmClient.
From Stdlib Require Import SpecFloat.
Local Open Scope Z_scope.
Local Open Scope go_scope.

(** ** Configuration *)

Definition Second : Z := 1000000000.
Definition Millisecond : Z := 1000000.
Definition Hour : Z := 3600 * Second.
Definition DefaultExportVisibilityLag : Z := 15 * Second.
Definition emptySkipMaxWindow : Z := Hour.
Definition oversizeMinWindow : Z := Millisecond.

(** [time.Duration.Milliseconds]: division truncates. *)
Definition Milliseconds (d : Z) : Z := Z.quot d Millisecond.

Record PollerConfig := mkPC {
  pc_Interval : Z;
  pc_Window : Z;
  pc_Watermark : Z;
  pc_MaxWindow : Z;
  pc_FrameLines : Z;
  pc_FrameBytes : Z;
  pc_WindowTarget : Z;
  pc_ExportLag : Z;
  pc_Compression : Z }.

(** An export in flight: its bounds, the transport's answer, and when it was
    sent. *)
Record prefetchSlot := mkSlot {
  ps_cursor : Z; ps_end : Z; ps_result : http_result; ps_sent : Z }.

Record Poller := mkPoller {
  p_cfg : PollerConfig;
  p_underfillStreak : nat;
  p_streakAllEmpty : bool;
  p_oversizeStreak : nat;
  p_prefetch : option prefetchSlot;
  p_lastFlushWarn : option Z }.

Definition or_default (v d : Z) : Z := if v <=? 0 then d else v.

Definition NewPoller (c : PollerConfig) : Poller :=
  let watermark := or_default (pc_Watermark c) Second in
  let lag0 := if pc_ExportLag c <? DefaultExportVisibilityLag
              then DefaultExportVisibilityLag else pc_ExportLag c in
  let lag := if lag0 <? watermark then watermark else lag0 in
  let frameBytes := or_default (pc_FrameBytes c) (Z.shiftl 512 10) in
  mkPoller
    (mkPC (or_default (pc_Interval c) (500 * Millisecond)) (or_default (pc_Window c) (5 * Second))
       watermark (or_default (pc_MaxWindow c) (30 * Second)) (or_default (pc_FrameLines c) 5000)
       frameBytes (or_default (pc_WindowTarget c) (i64 (frameBytes * 4))) lag
       (if pc_Compression c =? 0 then TypeDataZstd else pc_Compression c))
    0 true 0 None None.

(** ** The window *)

(** [for i := 0; i < streak && w > min; i++ { w /= 2; ... }]. *)
Fixpoint shrink_window (streak : nat) (w : Z) : Z :=
  match streak with
  | O => w
  | S k =>
      if w <=? oversizeMinWindow then w
      else shrink_window k (let h := Z.quot w 2 in if h <? oversizeMinWindow then oversizeMinWindow else h)
  end.

(** [for i := 0; i < streak && w < cap; i++ { w *= 2 }]. *)
Fixpoint grow_window (streak : nat) (cap w : Z) : Z :=
  match streak with
  | O => w
  | S k => if cap <=? w then w else grow_window k cap (i64 (w * 2))
  end.

Definition windowSize (p : Poller) : Z :=
  match p_oversizeStreak p with
  | S _ => shrink_window (p_oversizeStreak p) (pc_Window (p_cfg p))
  | O =>
      let cap := if p_streakAllEmpty p then emptySkipMaxWindow else pc_MaxWindow (p_cfg p) in
      let w := grow_window (p_underfillStreak p) cap (pc_Window (p_cfg p)) in
      if cap <? w then cap else w
  end.

Definition windowEnd (cursor now : Z) (flushOK : bool) (p : Poller) : Z :=
  let fin0 := cursor + Milliseconds (windowSize p) in
  let max0 := now - Milliseconds (pc_Watermark (p_cfg p)) in
  let maxEnd := if flushOK then max0
                else let lagEnd := now - Milliseconds (pc_ExportLag (p_cfg p)) in
                     if lagEnd <? max0 then lagEnd else max0 in
  let fin := if maxEnd <? fin0 then maxEnd else fin0 in
  if Nat.eqb (p_underfillStreak p) 0 && (Milliseconds (pc_MaxWindow (p_cfg p)) <? fin - cursor)
  then cursor + Milliseconds (pc_MaxWindow (p_cfg p)) else fin.

(** ** Backpressure *)

Inductive bpState : Type := bpNormal | bpDegraded | bpPaused.
#[export] Instance bpState_eq_dec : EqDecision bpState.
Proof. solve_decision. Defined.

(** The constants are the doubles nearest to 0.60 and 0.80. *)
Definition bpYellowTrigger : float64 := f64_decimal false 60 (-2).
Definition bpRedTrigger : float64 := f64_decimal false 80 (-2).
Definition bpGreenResume : float64 := f64_decimal false 60 (-2).

Definition bp_step (state : bpState) (usage : float64) : bpState :=
  match state with
  | bpNormal =>
      if SFleb bpRedTrigger usage then bpPaused
      else if SFleb bpYellowTrigger usage then bpDegraded else bpNormal
  | bpDegraded =>
      if SFleb bpRedTrigger usage then bpPaused
      else if SFltb usage bpGreenResume then bpNormal else bpDegraded
  | bpPaused =>
      if SFltb usage bpGreenResume then bpNormal else bpPaused
  end.

(** What [statfs] says of the disk of the log, in blocks; no answer when the call
    fails. *)
Record Statfs_t := mkStatfs { sf_Blocks : Z; sf_Bsize : Z; sf_Bavail : Z }.

Definition WalDiskUsageRatio (answer : option Statfs_t) : float64 :=
  match answer with
  | None => f64_of_Z 0
  | Some st =>
      let total := u64 (sf_Blocks st * u64 (sf_Bsize st)) in
      let avail := u64 (sf_Bavail st * u64 (sf_Bsize st)) in
      if total =? 0 then f64_of_Z 0
      else f64_div (f64_of_Z (u64 (total - avail))) (f64_of_Z total)
  end.

(** ** Cutting an export into frames *)

(** The state of the loop: finished frames, the current frame, its line count. *)
Record splitter := mkSplit { sp_frames : list bytes; sp_cur : bytes; sp_lines : Z }.

Definition sp_flush (s : splitter) : splitter :=
  if 0 <? len (sp_cur s) then mkSplit (sp_frames s ++ [sp_cur s]) [] 0 else s.

Definition split_line (maxLines maxBytes : Z) (s : splitter) (line : bytes) : splitter :=
  if len line =? 0 then s
  else
    let s1 := if (0 <? sp_lines s) &&
                 ((maxLines <=? sp_lines s) || (maxBytes <? len (sp_cur s) + len line + 1))
              then sp_flush s else s in
    let cur := (if 0 <? sp_lines s1 then sp_cur s1 ++ [NL] else sp_cur s1) ++ line in
    let s2 := mkSplit (sp_frames s1) cur (sp_lines s1 + 1) in
    if maxBytes <? len cur then sp_flush s2 else s2.

Definition splitFrames (raw : bytes) (maxLines maxBytes : Z) : list bytes :=
  sp_frames (sp_flush (foldl (split_line maxLines maxBytes) (mkSplit [] [] 0) (SplitByte NL raw))).

(** ** One round *)

(** What the sender does to the log between two calls of the poller. *)
Inductive visit : Type :=
| VisitPeek (n : Z)
| VisitCommit (now seq : Z)
| VisitNotify (b : bool).

Definition visit_run (w : World) (v : visit) : World :=
  match v with
  | VisitPeek n => snd (PeekBatch n w)
  | VisitCommit now seq => snd (Commit now seq w)
  | VisitNotify b => set_wal (with_notify b) w
  end.

Record PWorld := mkPW {
  pw_poller : Poller;
  pw_wal : World;
  pw_visits : list (list visit);   (** one group before each call on the log *)
  pw_exports : nat;                (** requests sent so far *)
  pw_flushes : nat }.

Abbreviation P := (M PWorld werr).

Definition upd_poller (f : Poller -> Poller) (s : PWorld) : PWorld :=
  mkPW (f (pw_poller s)) (pw_wal s) (pw_visits s) (pw_exports s) (pw_flushes s).
Definition upd_pwal (w : World) (s : PWorld) : PWorld :=
  mkPW (pw_poller s) w (pw_visits s) (pw_exports s) (pw_flushes s).

Definition with_streak (n : nat) (e : bool) (p : Poller) : Poller :=
  mkPoller (p_cfg p) n e (p_oversizeStreak p) (p_prefetch p) (p_lastFlushWarn p).
Definition with_oversize (n : nat) (p : Poller) : Poller :=
  mkPoller (p_cfg p) (p_underfillStreak p) (p_streakAllEmpty p) n (p_prefetch p) (p_lastFlushWarn p).
Definition with_prefetch (o : option prefetchSlot) (p : Poller) : Poller :=
  mkPoller (p_cfg p) (p_underfillStreak p) (p_streakAllEmpty p) (p_oversizeStreak p) o (p_lastFlushWarn p).
Definition with_flushWarn (o : option Z) (p : Poller) : Poller :=
  mkPoller (p_cfg p) (p_underfillStreak p) (p_streakAllEmpty p) (p_oversizeStreak p) (p_prefetch p) o.

Definition poller : P Poller := gets pw_poller.
Definition set_poller (f : Poller -> Poller) : P unit := modify (upd_poller f).

(** The poller waits for the mutex of the log: the sender has its turn. *)
Definition arrive (s : PWorld) : PWorld :=
  mkPW (pw_poller s) (foldl visit_run (pw_wal s) (hd [] (pw_visits s))) (tl (pw_visits s)) (pw_exports s) (pw_flushes s).

(** A call of the log; its error comes back as a value. *)
Definition on_wal {A} (m : W A) : P (outcome werr A) := fun s =>
  let s1 := arrive s in
  let '(o, w) := m (pw_wal s1) in
  match o with
  | Panic => (Panic, upd_pwal w s1)
  | _ => (Ok o, upd_pwal w s1)
  end.

Definition read_cursor : P Z := fun s => let s1 := arrive s in (Ok (Cursor (pw_wal s1)), s1).

Section rounds.
Context {C : Codec}.
Context (export_at : nat -> Z -> Z -> http_result) (flush_at : nat -> http_result).

(** The next export request, answered. *)
Definition send_export (start fin : Z) : P http_result := fun s =>
  (Ok (export_at (pw_exports s) start fin),
   mkPW (pw_poller s) (pw_wal s) (pw_visits s) (S (pw_exports s)) (pw_flushes s)).

Definition flushSource (now : Z) : P bool := fun s =>
  let s1 := mkPW (pw_poller s) (pw_wal s) (pw_visits s) (pw_exports s) (S (pw_flushes s)) in
  match ForceFlush (flush_at (pw_flushes s)) with
  | Ok _ => (Ok true, s1)
  | _ =>
      let old := match p_lastFlushWarn (pw_poller s) with
                 | Some t => 60 * Second <? now * Millisecond - t
                 | None => true
                 end in
      (Ok false, if old then upd_poller (with_flushWarn (Some (now * Millisecond))) s1 else s1)
  end.

(** [now2] and [now3]: the two clock readings of [launchPrefetch]. *)
Definition launchPrefetch (now2 now3 cursor : Z) : P unit :=
  p <- poller ;;
  match p_prefetch p with
  | Some _ => ret tt
  | None =>
      let w := windowSize p in
      let nw := if Nat.eqb (p_underfillStreak p) 0 && (pc_MaxWindow (p_cfg p) <? w)
                then pc_MaxWindow (p_cfg p) else w in
      let ne0 := cursor + Milliseconds nw in
      let maxEnd := now2 - Milliseconds (pc_Watermark (p_cfg p)) in
      let ne := if maxEnd <? ne0 then maxEnd else ne0 in
      if now3 - ne <? Milliseconds (pc_ExportLag (p_cfg p)) then ret tt
      else if ne <=? cursor then ret tt
      else
        r <- send_export cursor ne ;;
        set_poller (with_prefetch (Some (mkSlot cursor ne r now3)))
  end.

(** The export of the round: its end and its answer; [None] when the context was
    cancelled while waiting for the prefetched answer. *)
Definition obtain_export (cancelled : bool) (cursor fin : Z) : P (option (Z * http_result)) :=
  p <- poller ;;
  match p_prefetch p with
  | Some slot =>
      set_poller (with_prefetch None) ;;;
      if ps_cursor slot =? cursor then
        ret (if cancelled then None else Some (ps_end slot, ps_result slot))
      else r <- send_export cursor fin ;; ret (Some (fin, r))
  | None => r <- send_export cursor fin ;; ret (Some (fin, r))
  end.

(** The streaks after a window with [n] frames in [bytes] bytes. *)
Definition update_streak (n bytes : Z) (p : Poller) : Poller :=
  if n =? 0 then with_streak (S (p_underfillStreak p)) (p_streakAllEmpty p) p
  else if bytes <? pc_WindowTarget (p_cfg p) then with_streak (S (p_underfillStreak p)) false p
  else with_streak 0 true p.

(** [protocol.Encode] of each frame, stopping at the first error. *)
Fixpoint encode_frames (typ : Z) (frames : list bytes) : outcome perr (list bytes) :=
  match frames with
  | [] => Ok []
  | f :: rest =>
      match Encode typ 0 f with
      | Ok fb => match encode_frames typ rest with Ok l => Ok (fb :: l) | o => o end
      | Err e => Err e
      | Panic => Panic
      end
  end.

(** The cursor moves last. *)
Definition finish_round (now fin : Z) : P unit :=
  o <- on_wal (SetCursor now fin) ;;
  match o with
  | Ok _ => set_poller (with_oversize 0)
  | _ => set_poller (with_prefetch None)
  end.

(** The first half of a round: the export of the next window from [cursor] on,
    its end and its content; [None] when the round ends there. [now] is the
    reading at the start, in milliseconds, [now2] and [now3] the ones of
    [launchPrefetch]. *)
Definition export_round (cancelled : bool) (now now2 now3 cursor : Z) : P (option (Z * bytes)) :=
  p <- poller ;;
  let rawEnd := cursor + Milliseconds (windowSize p) in
  flushOK <- (if now - Milliseconds (pc_ExportLag (p_cfg p)) <? rawEnd
              then flushSource now else ret true) ;;
  let fin0 := windowEnd cursor now flushOK p in
  if fin0 <=? cursor then ret None
  else
    got <- obtain_export cancelled cursor fin0 ;;
    match got with
    | None => ret None
    | Some (fin, reply) =>
        match ExportRange reply with
        | Ok raw =>
            let frames := splitFrames raw (pc_FrameLines (p_cfg p)) (pc_FrameBytes (p_cfg p)) in
            set_poller (update_streak (len frames) (len raw)) ;;;
            launchPrefetch now2 now3 fin ;;;
            ret (Some (fin, raw))
        | _ => set_poller (fun p => with_oversize 0 (with_streak 0 true p)) ;;; ret None
        end
    end.

(** The second half: the frames go into the log, then the cursor moves; [nowNs] is
    the log's clock. *)
Definition store_round (cfg : PollerConfig) (nowNs fin : Z) (raw : bytes) : P unit :=
  match splitFrames raw (pc_FrameLines cfg) (pc_FrameBytes cfg) with
  | [] => finish_round nowNs fin
  | frames =>
      match encode_frames (pc_Compression cfg) frames with
      | Panic => panic
      | Err e =>
          (if is_too_large e
           then set_poller (fun p => with_oversize (S (p_oversizeStreak p)) p)
           else ret tt) ;;;
          set_poller (with_prefetch None)
      | Ok enc =>
          o <- on_wal (AppendBatch (pc_Compression cfg) enc) ;;
          match o with
          | Ok _ => finish_round nowNs fin
          | _ => set_poller (with_prefetch None)
          end
      end
  end.

Definition pollOnce (cancelled : bool) (now now2 now3 nowNs : Z) : P unit :=
  cursor <- read_cursor ;;
  p <- poller ;;
  got <- export_round cancelled now now2 now3 cursor ;;
  match got with
  | None => ret tt
  | Some (fin, raw) => store_round (p_cfg p) nowNs fin raw
  end.

(** One tick of [Run]: the backpressure state after the reading of the disk, then
    a round unless it is paused.  The pause of a degraded tick only delays the
    round. *)
Definition run_tick (state : bpState) (disk : option Statfs_t) (cancelled : bool) (now now2 now3 nowNs : Z) : P bpState :=
  let usage := WalDiskUsageRatio disk in
  let state' := bp_step state usage in
  match state' with
  | bpPaused => ret state'
  | _ => pollOnce cancelled now now2 now3 nowNs ;;; ret state'
  end.

End rounds.

(** ** Frames keep the export *)

Definition good_line (l : bytes) : Prop := l <> [] /\ NL ∉ l.

Lemma Join_snoc ls l : ls <> [] -> JoinByte NL (ls ++ [l]) = JoinByte NL ls ++ NL :: l.
Proof.
  induction ls as [|x ls IH]; intros H; [done|]. destruct ls as [|y ls]; [done|].
  cbn [app]. rewrite !JoinByte_cons by done. specialize (IH ltac:(done)). cbn [app] in IH.
  rewrite IH. rewrite (JoinByte_cons NL x (y :: ls)) by done. by rewrite <- app_assoc.
Qed.

Lemma len_Join_pos ls : ls <> [] -> Forall good_line ls -> 0 < len (JoinByte NL ls).
Proof.
  intros He Hg. destruct Hg as [|l ls [Hl _] Hg]; [done|].
  assert (0 < len l) by (destruct l; [done|rewrite len_cons; zlia]).
  destruct ls; [done|]. rewrite JoinByte_cons by done. zlia.
Qed.

(** A frame's lines respect the two limits; only a single line may exceed the
    byte limit. *)
Definition frame_fits (maxLines maxBytes : Z) (ls : list bytes) : Prop :=
  ls <> [] /\ Forall good_line ls /\ len ls <= Z.max 1 maxLines /\
  (len (JoinByte NL ls) <= maxBytes \/ len ls = 1).

(** The loop's state: finished frames [fin], lines [cur] of the current one. *)
Record sp_rep (maxLines maxBytes : Z) (s : splitter) (fin : list (list bytes)) (cur : list bytes) : Prop := {
  rep_frames : sp_frames s = map (JoinByte NL) fin;
  rep_cur : sp_cur s = JoinByte NL cur;
  rep_lines : sp_lines s = len cur;
  rep_fin : Forall (frame_fits maxLines maxBytes) fin;
  rep_good : cur = [] \/ frame_fits maxLines maxBytes cur }.

Lemma sp_flush_rep ml mb s fin cur :
  sp_rep ml mb s fin cur ->
  sp_rep ml mb (sp_flush s) (if decide (cur = []) then fin else fin ++ [cur]) [].
Proof.
  intros [Hf Hc Hl Hfin Hg]. unfold sp_flush. rewrite Hc.
  destruct (decide (cur = [])) as [->|Hne].
  - cbn. by split; [| | | |left].
  - destruct Hg as [|Hg]; [done|]. pose proof Hg as (_ & Hgood & _).
    pose proof (len_Join_pos cur Hne Hgood). destruct (Z.ltb_spec 0 (len (JoinByte NL cur))); [|lia].
    split; cbn; [by rewrite Hf, map_app|done|done| |by left].
    apply Forall_app. split; [done|by apply Forall_singleton].
Qed.

Lemma split_line_rep ml mb s fin cur line :
  sp_rep ml mb s fin cur -> good_line line ->
  exists fin' cur', sp_rep ml mb (split_line ml mb s line) fin' cur' /\
    concat fin' ++ cur' = (concat fin ++ cur) ++ [line].
Proof.
  intros Hrep Hline. unfold split_line.
  assert (Hll : 0 < len line) by (destruct Hline as [Hl _]; destruct line; [done|rewrite len_cons; zlia]).
  destruct (Z.eqb_spec (len line) 0); [lia|].
  set (c1 := (0 <? sp_lines s) && _). set (s1 := if c1 then sp_flush s else s).
  assert (H1 : exists fin1 cur1, sp_rep ml mb s1 fin1 cur1 /\ concat fin1 ++ cur1 = concat fin ++ cur /\
    (cur1 = [] \/ len cur1 < ml /\ len (JoinByte NL cur1) + len line + 1 <= mb)).
  { unfold s1, c1. destruct (Z.ltb_spec 0 (sp_lines s)) as [Hpos|Hz]; cbn [andb].
    - destruct (Z.leb_spec ml (sp_lines s)); [|destruct (Z.ltb_spec mb (len (sp_cur s) + len line + 1))];
        cbn [orb].
      1, 2: exists (if decide (cur = []) then fin else fin ++ [cur]), []; split; [by apply sp_flush_rep|];
        split; [|by left]; destruct (decide (cur = [])) as [->|]; [done|];
        by rewrite concat_app; cbn; rewrite !app_nil_r.
      exists fin, cur. split; [done|]. split; [done|]. right. destruct Hrep as [_ Hc Hl _ _].
      rewrite <- Hc, <- Hl. lia.
    - exists fin, cur. split; [done|]. split; [done|]. left. destruct Hrep as [_ _ Hl _ _].
      apply len_zero_nil. rewrite Hl in Hz. zlia. }
  destruct H1 as (fin1 & cur1 & [Hf1 Hc1 Hl1 Hfin1 Hg1] & Hcat & Hroom).
  assert (Ecur : (if 0 <? sp_lines s1 then sp_cur s1 ++ [NL] else sp_cur s1) ++ line = JoinByte NL (cur1 ++ [line])).
  { rewrite Hl1, Hc1. destruct cur1 as [|x cur1]; [done|].
    destruct (Z.ltb_spec 0 (len (x :: cur1))); [|rewrite len_cons in *; zlia].
    rewrite Join_snoc by done. by rewrite <- app_assoc. }
  rewrite Ecur. set (cur2 := cur1 ++ [line]).
  assert (Hgood2 : Forall good_line cur2).
  { apply Forall_app. split; [|by apply Forall_singleton]. destruct Hg1 as [->|(_ & ? & _)]; [constructor|done]. }
  assert (Hlen2 : len (JoinByte NL cur2) =
    if decide (cur1 = []) then len line else len (JoinByte NL cur1) + len line + 1).
  { unfold cur2. destruct (decide (cur1 = [])) as [->|Hne]; [done|]. rewrite Join_snoc by done. zlia. }
  assert (Hfit : frame_fits ml mb cur2).
  { split; [by destruct cur1|]. split; [done|]. unfold cur2 at 1. rewrite len_app. change (len [line]) with 1.
    destruct Hroom as [->|[Hr1 Hr2]].
    - split; [rewrite len_nil; lia|]. right. done.
    - split; [lia|]. destruct (decide (cur1 = [])) as [->|]; [by right|]. left. lia. }
  assert (Hrep2 : sp_rep ml mb (mkSplit (sp_frames s1) (JoinByte NL cur2) (sp_lines s1 + 1)) fin1 cur2).
  { split; cbn; [done|done| |done|by right]. unfold cur2. rewrite Hl1, len_app. done. }
  assert (Hcat2 : concat fin1 ++ cur2 = (concat fin ++ cur) ++ [line]) by (unfold cur2; by rewrite app_assoc, Hcat).
  destruct (mb <? len (JoinByte NL cur2)); [|by exists fin1, cur2].
  apply sp_flush_rep in Hrep2. destruct (decide (cur2 = [])); [by destruct cur1|].
  exists (fin1 ++ [cur2]), []. split; [done|]. rewrite concat_app. cbn. by rewrite !app_nil_r.
Qed.

Lemma split_lines_rep ml mb lines : forall s fin cur,
  sp_rep ml mb s fin cur -> Forall (fun l => NL ∉ l) lines ->
  exists fin' cur', sp_rep ml mb (foldl (split_line ml mb) s lines) fin' cur' /\
    concat fin' ++ cur' = (concat fin ++ cur) ++ filter (fun l => l <> []) lines.
Proof.
  induction lines as [|l lines IH]; intros s fin cur Hrep Hl; cbn [foldl].
  { exists fin, cur. by rewrite filter_nil, app_nil_r. }
  apply Forall_cons in Hl as [Hl Hlines]. rewrite filter_cons.
  destruct (decide (l <> [])) as [Hne|He].
  - destruct (split_line_rep ml mb s fin cur l Hrep (conj Hne Hl)) as (fin1 & cur1 & Hr1 & Hc1).
    destruct (IH _ _ _ Hr1 Hlines) as (fin' & cur' & Hr' & Hc').
    exists fin', cur'. split; [done|]. by rewrite Hc', Hc1, <- app_assoc.
  - destruct l as [|b l]; [by apply IH|]. by exfalso; apply He.
Qed.

(** The lines of an export. *)
Definition lines_of (raw : bytes) : list bytes := filter (fun l => l <> []) (SplitByte NL raw).

Lemma splitFrames_runs raw maxLines maxBytes :
  exists runs, splitFrames raw maxLines maxBytes = map (JoinByte NL) runs /\
    concat runs = lines_of raw /\ Forall (frame_fits maxLines maxBytes) runs.
Proof.
  destruct (split_lines_rep maxLines maxBytes (SplitByte NL raw) (mkSplit [] [] 0) [] [])
    as (fin & cur & Hrep & Hcat).
  { split; try done. by left. }
  { apply SplitByte_no_sep. }
  cbn [app concat] in Hcat. apply sp_flush_rep in Hrep. destruct Hrep as [Hf _ _ Hfin _].
  exists (if decide (cur = []) then fin else fin ++ [cur]). split; [exact Hf|]. split; [|done].
  unfold lines_of. rewrite <- Hcat. destruct (decide (cur = [])) as [->|]; [by rewrite app_nil_r|].
  rewrite concat_app. cbn. by rewrite app_nil_r.
Qed.

Lemma Split_Join_lines ls : ls <> [] -> Forall good_line ls -> SplitByte NL (JoinByte NL ls) = ls.
Proof. intros He Hg. apply Split_Join; [done|]. eapply Forall_impl; [exact Hg|]. by intros ? []. Qed.

(** Reading the frames line by line gives back the lines of the export. *)
Lemma splitFrames_lines raw maxLines maxBytes :
  concat (map (SplitByte NL) (splitFrames raw maxLines maxBytes)) = lines_of raw.
Proof.
  destruct (splitFrames_runs raw maxLines maxBytes) as (runs & -> & <- & Hfit).
  induction Hfit as [|ls runs (He & Hg & _) _ IH]; [done|]. cbn. by rewrite IH, Split_Join_lines.
Qed.

(** C24: cutting loses nothing: the frames are runs of the non-empty lines of the
    export, whole, in order and without repetition, each joined by line feeds;
    a frame has at least one line and at most [maxLines] of them, and it is
    longer than [maxBytes] only if it is a single line. Reading the frames line by
    line gives back the export's lines. *)
Theorem splitFrames_spec raw maxLines maxBytes :
  (exists runs, splitFrames raw maxLines maxBytes = map (JoinByte NL) runs /\
    concat runs = lines_of raw /\ Forall (frame_fits maxLines maxBytes) runs) /\
  concat (map (SplitByte NL) (splitFrames raw maxLines maxBytes)) = lines_of raw.
Proof.
  split; [apply splitFrames_runs|apply splitFrames_lines].
Qed.

(** ** The window *)

Lemma grow_window_spec streak : forall cap w, 0 < w -> 0 < cap < 2 ^ 62 ->
  let g := grow_window streak cap w in w <= g /\ (w <= cap -> Z.min cap g = Z.min cap (w * 2 ^ Z.of_nat streak)) /\
  (cap <= w -> g = w).
Proof.
  induction streak as [|k IH]; intros cap w Hw Hc; cbn [grow_window].
  - rewrite Z.pow_0_r, Z.mul_1_r. lia.
  - assert (Hp : 0 < 2 ^ Z.of_nat k) by (apply Z.pow_pos_nonneg; lia).
    rewrite Nat2Z.inj_succ, Z.pow_succ_r by lia.
    destruct (Z.leb_spec cap w) as [Hle|Hgt].
    + split; [lia|]. split; [|lia]. intros Hw'. replace cap with w by lia. nia.
    + rewrite i64_small by (unfold is_i64; lia).
      destruct (IH cap (w * 2) ltac:(lia) Hc) as (H1 & H2 & H3). split; [lia|]. split; [|lia].
      intros _. destruct (Z_le_gt_dec (w * 2) cap) as [Hle2|Hgt2].
      * rewrite H2 by lia. f_equal. lia.
      * rewrite H3 by lia. nia.
Qed.

Lemma shrink_window_spec streak : forall w, 0 < w ->
  let g := shrink_window streak w in Z.min w oversizeMinWindow <= g <= w /\
  (w <= oversizeMinWindow * 2 ^ Z.of_nat streak -> g <= Z.max oversizeMinWindow (Z.min w oversizeMinWindow)).
Proof.
  induction streak as [|k IH]; intros w Hw; cbn [shrink_window].
  - rewrite Z.pow_0_r, Z.mul_1_r. lia.
  - destruct (Z.leb_spec w oversizeMinWindow) as [Hle|Hgt]; [lia|].
    rewrite Nat2Z.inj_succ, Z.pow_succ_r by lia.
    assert (Hp : 0 < 2 ^ Z.of_nat k) by (apply Z.pow_pos_nonneg; lia).
    pose proof (quot_half w ltac:(lia)) as Hq. unfold oversizeMinWindow, Millisecond in *.
    set (h := if Z.quot w 2 <? 1000000 then 1000000 else Z.quot w 2).
    assert (Hh : 1000000 <= h < w /\ (h <= w / 2 \/ h = 1000000)).
    { unfold h. destruct (Z.ltb_spec (Z.quot w 2) 1000000); [lia|].
      rewrite Z.quot_div_nonneg by lia. rewrite Z.quot_div_nonneg in * by lia. lia. }
    destruct (IH h ltac:(lia)) as [H1 H2]. split; [lia|]. intros Hb.
    assert (h <= 1000000 * 2 ^ Z.of_nat k); [|lia].
    destruct Hh as [_ [Hh| ->]]; [|nia]. 
    pose proof (Z.div_le_upper_bound w 2 (1000000 * 2 ^ Z.of_nat k) ltac:(lia) ltac:(lia)). lia.
Qed.

Lemma Milliseconds_mono a b : a <= b -> Milliseconds a <= Milliseconds b.
Proof. intros H. apply Z.quot_le_mono; [done|]. done. Qed.

(** A configuration as [NewPoller] leaves it. *)
Record config_ok (c : PollerConfig) : Prop := {
  ok_interval : 0 < pc_Interval c;
  ok_window : 0 < pc_Window c;
  ok_watermark : 0 < pc_Watermark c <= pc_ExportLag c;
  ok_lag : DefaultExportVisibilityLag <= pc_ExportLag c;
  ok_maxwindow : 0 < pc_MaxWindow c;
  ok_lines : 0 < pc_FrameLines c;
  ok_bytes : 0 < pc_FrameBytes c;
  ok_compression : pc_Compression c <> 0 }.

Lemma or_default_pos v d : 0 < d -> 0 < or_default v d.
Proof. intros Hd. unfold or_default. destruct (Z.leb_spec v 0); lia. Qed.

Lemma NewPoller_ok c : config_ok (p_cfg (NewPoller c)).
Proof.
  pose proof (or_default_pos (pc_Watermark c) Second ltac:(done)).
  split; cbn [p_cfg NewPoller pc_Interval pc_Window pc_Watermark pc_ExportLag pc_MaxWindow
    pc_FrameLines pc_FrameBytes pc_Compression].
  1, 2, 5, 6, 7: by apply or_default_pos.
  - set (w := or_default _ _) in *. destruct (pc_ExportLag c <? DefaultExportVisibilityLag);
      case_bool; lia.
  - destruct (Z.ltb_spec (pc_ExportLag c) DefaultExportVisibilityLag); case_bool; lia.
  - destruct (Z.eqb_spec (pc_Compression c) 0); [done|done].
Qed.

Lemma windowEnd_le p cursor now flushOK :
  let fin := windowEnd cursor now flushOK p in
  let cfg := p_cfg p in
  fin <= now - Milliseconds (pc_Watermark cfg) /\
  (flushOK = false -> fin <= now - Milliseconds (pc_ExportLag cfg)) /\
  fin - cursor <= Milliseconds (windowSize p) /\
  (p_underfillStreak p = 0%nat -> fin - cursor <= Milliseconds (pc_MaxWindow cfg)).
Proof.
  intros fin cfg. unfold fin, windowEnd. fold cfg. set (m := Milliseconds (windowSize p)).
  set (maxEnd := if flushOK then _ else _).
    assert (Hm1 : maxEnd <= now - Milliseconds (pc_Watermark cfg)).
    { unfold maxEnd. destruct flushOK; [lia|]. case_bool; lia. }
    assert (Hm2 : flushOK = false -> maxEnd <= now - Milliseconds (pc_ExportLag cfg)).
    { intros ->. unfold maxEnd. case_bool; lia. }
    set (e := if maxEnd <? cursor + m then maxEnd else cursor + m).
    assert (He : e <= maxEnd /\ e <= cursor + m) by (unfold e; case_bool; lia).
    destruct (Nat.eqb_spec (p_underfillStreak p) 0); cbn [andb]; [|split; [lia|split; [intros Hf; specialize (Hm2 Hf); lia|split; lia]]].
    destruct (Z.ltb_spec (Milliseconds (pc_MaxWindow cfg)) (e - cursor));
      (split; [lia|split; [intros Hf; specialize (Hm2 Hf); lia|split; lia]]).
Qed.

(** The bounds of a round. For every configuration that [NewPoller] builds,
    the window ends at least [Watermark] before now, and at least [ExportLag],
    itself no less than 15 s, before now when the source was not flushed; it is
    never longer than the window size, which is the base window doubled once
    per sparse window up to its cap, or halved once per oversize line down to
    1 ms; and after a dense window it is no longer than [MaxWindow]. *)
Theorem windowEnd_bounds c p cursor now flushOK :
  p_cfg p = p_cfg (NewPoller c) -> pc_MaxWindow (p_cfg p) < 2 ^ 62 ->
  let fin := windowEnd cursor now flushOK p in
  let cfg := p_cfg p in
  fin <= now - Milliseconds (pc_Watermark cfg) /\
  (flushOK = false -> fin <= now - Milliseconds (pc_ExportLag cfg)) /\
  fin - cursor <= Milliseconds (windowSize p) /\
  (p_underfillStreak p = 0%nat -> fin - cursor <= Milliseconds (pc_MaxWindow cfg)) /\
  DefaultExportVisibilityLag <= pc_ExportLag cfg /\
  (p_oversizeStreak p = 0%nat ->
     let cap := if p_streakAllEmpty p then emptySkipMaxWindow else pc_MaxWindow cfg in
     windowSize p = Z.min cap (pc_Window cfg * 2 ^ Z.of_nat (p_underfillStreak p))) /\
  (p_oversizeStreak p <> 0%nat ->
     Z.min (pc_Window cfg) oversizeMinWindow <= windowSize p <= pc_Window cfg).
Proof.
  intros Hcfg Hmax fin cfg. pose proof (NewPoller_ok c) as Hok. rewrite <- Hcfg in Hok.
  destruct Hok as [_ Hw Hwm Hlag Hmw _ _ _]. fold cfg in Hw, Hwm, Hlag, Hmw, Hmax.
  destruct (windowEnd_le p cursor now flushOK) as (H1 & H2 & H3 & H4).
  do 4 (split; [done|]). split; [done|]. split.
  - intros Ho. unfold windowSize. rewrite Ho. fold cfg. cbv zeta.
    set (cap := if p_streakAllEmpty p then emptySkipMaxWindow else pc_MaxWindow cfg).
    assert (Hcap : 0 < cap < 2 ^ 62) by (unfold cap; destruct (p_streakAllEmpty p); [done|lia]).
    destruct (grow_window_spec (p_underfillStreak p) cap (pc_Window cfg) Hw Hcap) as (G1 & G2 & G3).
    set (g := grow_window _ _ _) in *. destruct (Z_le_gt_dec (pc_Window cfg) cap) as [Hle|Hgt].
    + rewrite <- G2 by done. destruct (Z.ltb_spec cap g); lia.
    + rewrite G3 by lia. assert (0 < 2 ^ Z.of_nat (p_underfillStreak p)) by (apply Z.pow_pos_nonneg; lia).
      destruct (Z.ltb_spec cap (pc_Window cfg)); nia.
  - intros Ho. unfold windowSize. fold cfg. destruct (p_oversizeStreak p) as [|k]; [done|].
    apply (shrink_window_spec (S k) (pc_Window cfg) Hw).
Qed.

(** ** Backpressure *)

(** A reading at one number is not below a smaller one of the same binade. *)
Lemma SFleb_not_below a b e u : (b <= a)%positive ->
  SFleb (S754_finite false a e) u = true -> SFltb u (S754_finite false b e) = false.
Proof.
  intros Hba. unfold SFleb, SFltb. destruct u as [[]|[]| |[] m f]; cbn [SFcompare]; try done.
  rewrite (Z.compare_antisym e f). destruct (Z.compare_spec e f); cbn [CompOpp]; try done.
  change (Pos.compare_cont Eq a m) with (Pos.compare a m). change (Pos.compare_cont Eq m b) with (Pos.compare m b).
  destruct (Pos.compare_spec a m), (Pos.compare_spec m b); try done; lia.
Qed.

(** A reading at the red mark is not below the resume mark. *)
Lemma red_above_green u : SFleb bpRedTrigger u = true -> SFltb u bpGreenResume = false.
Proof.
  assert (R : bpRedTrigger = S754_finite false 7205759403792794 (-53)) by by vm_compute.
  assert (G : bpGreenResume = S754_finite false 5404319552844595 (-53)) by by vm_compute.
  rewrite R, G. apply SFleb_not_below. lia.
Qed.

Lemma bp_step_paused st u :
  bp_step st u = bpPaused <->
  SFleb bpRedTrigger u = true \/ (st = bpPaused /\ SFltb u bpGreenResume = false).
Proof.
  pose proof (red_above_green u) as Hrg.
  destruct st; cbn [bp_step]; destruct (SFleb bpRedTrigger u), (SFltb u bpGreenResume), (SFleb bpYellowTrigger u); intuition congruence.
Qed.

(** Hysteresis. Whatever the readings of the disk, polling is suspended after
    them exactly when some reading reached the red mark, 80 %, and no reading
    since was below the resume mark, 60 %. *)
Theorem backpressure_hysteresis us :
  foldl bp_step bpNormal us = bpPaused <->
  exists pre u post, us = pre ++ u :: post /\ SFleb bpRedTrigger u = true /\
    Forall (fun v => SFltb v bpGreenResume = false) post.
Proof.
  induction us as [|v us IH] using rev_ind.
  { split; [done|]. intros (pre & u & post & H & _). by destruct pre. }
  rewrite foldl_app. cbn [foldl]. rewrite bp_step_paused, IH. split.
  - intros [Hv|[(pre & u & post & -> & Hu & Hp) Hv]].
    + exists us, v, []. by repeat split.
    + exists pre, u, (post ++ [v]). rewrite <- app_assoc. split; [done|]. split; [done|].
      apply Forall_app. split; [done|by apply Forall_singleton].
  - intros (pre & u & post & H & Hu & Hp). destruct post as [|w post _] using rev_ind.
    + apply app_inj_tail in H as [-> ->]. by left.
    + rewrite app_comm_cons, app_assoc in H. apply app_inj_tail in H as [-> ->].
      apply Forall_app in Hp as [Hp Hw]. rewrite Forall_singleton in Hw. right. split; [|done].
      by exists pre, u, post.
Qed.

(** A disk that cannot be read, or has no blocks, never slows the poller down,
    and ends a pause. *)
Lemma unreadable_disk state blocks bsize avail :
  u64 (blocks * u64 bsize) = 0 ->
  bp_step state (WalDiskUsageRatio None) = bpNormal /\
  bp_step state (WalDiskUsageRatio (Some (mkStatfs blocks bsize avail))) = bpNormal.
Proof.
  intros H. unfold WalDiskUsageRatio. cbn [sf_Blocks sf_Bsize sf_Bavail]. rewrite H.
  by destruct state.
Qed.

(** Disks of ten blocks with five, four, two and no blocks left, and one whose
    system reports more available blocks than it has: the difference wraps. *)
Example disk_marks : map (fun avail => bp_step bpNormal (WalDiskUsageRatio (Some (mkStatfs 10 4096 avail)))) [5; 4; 2; 0; 11] =
  [bpNormal; bpDegraded; bpPaused; bpPaused; bpPaused].
Proof. vm_compute. reflexivity. Qed.

(** ** What a round does *)

Lemma put_seq_encodeRaw typ n m c crc : put_seq (encodeRaw typ n c crc) m = encodeRaw typ m c crc.
Proof. reflexivity. Qed.

Section round_specs.
Context {C : Codec}.
Context (export_at : nat -> Z -> Z -> http_result) (flush_at : nat -> http_result).

Lemma Encode_renumber typ n m p fb : Encode typ n p = Ok fb -> Encode typ m p = Ok (put_seq fb m).
Proof.
  unfold Encode. intros H. repeat case_match; try done; injection H as <-; by rewrite put_seq_encodeRaw.
Qed.

Lemma Encode_has_header typ n p fb : Encode typ n p = Ok fb -> HeaderSize <= len fb.
Proof. intros (c & _ & -> & _)%Encode_inv. rewrite len_encodeRaw. zlia. Qed.

(** The numbered frames of an export. *)
Definition carry (typ : Z) (frames : list bytes) (added : list (Z * bytes)) : Prop :=
  Forall2 (fun f p => Encode typ p.1 f = Ok p.2) frames added.

Lemma encode_frames_carry typ frames : forall enc n,
  encode_frames typ frames = Ok enc -> carry typ frames (number n enc) /\ len enc = len frames.
Proof.
  induction frames as [|f frames IH]; intros enc n; cbn [encode_frames].
  { intros [= <-]. by split; [constructor|]. }
  destruct (Encode typ 0 f) as [fb| |] eqn:E; try done.
  destruct (encode_frames typ frames) as [l| |] eqn:El; try done. intros [= <-].
  destruct (IH l (n + 1) eq_refl) as [H1 H2]. split; [|by rewrite !len_cons, H2].
  constructor; [|done]. cbn. by apply (Encode_renumber typ 0).
Qed.

(** The slot in flight was sent for its own interval, at a time when the
    interval was already visible. *)
Definition slot_ok (p : Poller) : Prop :=
  match p_prefetch p with
  | None => True
  | Some slot =>
      (exists k, ps_result slot = export_at k (ps_cursor slot) (ps_end slot)) /\
      ps_cursor slot < ps_end slot /\
      ps_end slot <= ps_sent slot - Milliseconds (pc_ExportLag (p_cfg p))
  end.

(** The export in flight was sent at [t] at the latest. *)
Definition sent_by (t : Z) (p : Poller) : Prop :=
  match p_prefetch p with None => True | Some slot => ps_sent slot <= t end.

(** Changes the poller's own state, keeping its configuration and the log, and
    sends nothing after [t]. *)
Record poller_only (t : Z) (s s' : PWorld) : Prop := {
  po_wal : pw_wal s' = pw_wal s;
  po_visits : pw_visits s' = pw_visits s;
  po_cfg : p_cfg (pw_poller s') = p_cfg (pw_poller s);
  po_slot : slot_ok (pw_poller s) -> slot_ok (pw_poller s');
  po_sent : sent_by t (pw_poller s) -> sent_by t (pw_poller s') }.

#[export] Instance poller_only_trans t : Transitive (poller_only t).
Proof. intros s1 s2 s3 [] []. split; try congruence; auto. Qed.

Lemma poller_only_refl t s : poller_only t s s.
Proof. by split. Qed.

Lemma launchPrefetch_spec t now2 now3 cursor s : now3 <= t ->
  wp (launchPrefetch export_at now2 now3 cursor) (fun o s' =>
    poller_only t s s' /\ pw_flushes s' = pw_flushes s /\ is_ok o = true) s.
Proof.
  intros Ht. unfold launchPrefetch, poller. wp_step. apply wp_gets. cbn [bind_post]. cbv zeta.
  destruct (p_prefetch (pw_poller s)) as [slot|] eqn:Ep; [by apply wp_ret|].
  match goal with |- context [now3 - ?e <? _] => set (ne := e) end.
  destruct (Z.ltb_spec (now3 - ne) (Milliseconds (pc_ExportLag (p_cfg (pw_poller s))))); [by apply wp_ret|].
  destruct (Z.leb_spec ne cursor); [by apply wp_ret|].
  wp_step. unfold wp, send_export. cbn. split; [|done]. split; try done.
  intros _. unfold slot_ok; cbn. split; [by eexists|]. fold ne. lia.
Qed.

(** The export of a round is that of its window, or the one in flight. *)
Lemma obtain_export_spec t cancelled cursor fin s :
  slot_ok (pw_poller s) ->
  wp (obtain_export export_at cancelled cursor fin) (fun o s' => poller_only t s s' /\ pw_flushes s' = pw_flushes s /\
    (o = Ok None \/ exists fin' reply k, o = Ok (Some (fin', reply)) /\
       reply = export_at k cursor fin' /\
       (fin' = fin \/ (cursor < fin' /\ forall now, sent_by now (pw_poller s) ->
          fin' <= now - Milliseconds (pc_ExportLag (p_cfg (pw_poller s))))))) s.
Proof.
  intros Hslot. unfold obtain_export, poller. wp_step. apply wp_gets. cbn [bind_post].
  unfold slot_ok in Hslot. unfold sent_by. destruct (p_prefetch (pw_poller s)) as [slot|] eqn:Ep.
  - destruct Hslot as ((k & Hk) & Hlt & Hlag). wp_step. apply wp_modify. cbn [bind_post].
    destruct (Z.eqb_spec (ps_cursor slot) cursor) as [<-|Hne].
    + apply wp_ret. split; [done|]. split; [done|]. destruct cancelled; [by left|right].
      exists (ps_end slot), (ps_result slot), k. split; [done|]. split; [done|]. right.
      split; [done|]. intros now Hnow. lia.
    + wp_step. unfold wp at 1, send_export. cbn. split; [done|]. split; [done|]. right. do 3 eexists.
      split; [done|]. split; [done|]. by left.
  - wp_step. unfold wp at 1, send_export. cbn. split; [|split; [done|]; right; do 3 eexists; split; [done|]; split; [done|]; by left].
    split; try done; unfold slot_ok, sent_by; cbn; by rewrite Ep.
Qed.

(** Nobody else uses the log. *)
Lemma arrive_alone s : pw_visits s = [] -> arrive s = s.
Proof. destruct s. cbn. by intros ->. Qed.

Lemma wp_on_wal {A} (m : W A) (Q : outcome werr (outcome werr A) -> PWorld -> Prop) s :
  pw_visits s = [] ->
  wp m (fun o w => Q (match o with Panic => Panic | _ => Ok o end) (upd_pwal w s)) (pw_wal s) ->
  wp (on_wal m) Q s.
Proof. intros Hv. unfold wp, on_wal. rewrite arrive_alone by done. destruct (m (pw_wal s)) as [[a|e|] w]; done. Qed.

(** What the second half of a round leaves as it was. *)
Record after_round (s s' : PWorld) : Prop := {
  ar_visits : pw_visits s' = pw_visits s;
  ar_flushes : pw_flushes s' = pw_flushes s;
  ar_cfg : p_cfg (pw_poller s') = p_cfg (pw_poller s);
  ar_slot : slot_ok (pw_poller s) -> slot_ok (pw_poller s');
  ar_sent t : sent_by t (pw_poller s) -> sent_by t (pw_poller s') }.

(** The cursor has reached [fin] and the queue is [q], or it was refused. *)
Lemma finish_round_spec nowNs fin q s :
  wal_inv (segs (pw_wal s)) (wal (pw_wal s)) -> represents (segs (pw_wal s)) (wal (pw_wal s)) q ->
  Cursor (pw_wal s) < fin -> pw_visits s = [] ->
  wp (finish_round nowNs fin) (fun o s' => is_ok o = true /\ after_round s s' /\
    wal_inv (segs (pw_wal s')) (wal (pw_wal s')) /\ represents (segs (pw_wal s')) (wal (pw_wal s')) q /\
    Cursor (pw_wal s') = fin) s.
Proof.
  intros Hinv Hr Hlt Hv. unfold finish_round. wp_step. apply wp_on_wal; [done|].
  eapply wp_conseq; [by apply SetCursor_moved|]. cbv beta. intros o w.
  destruct (Z.ltb_spec fin (Cursor (pw_wal s))); [lia|].
  intros (Hi' & Hr' & _ & Hc & _ & Ho).
  destruct o as [[]|e|]; cbn [bind_post]; [| |done]; apply wp_modify; (split; [done|]; split; [by split|done]).
Qed.

(** The round did not move the cursor; frames of a failed append may be in the
    queue. *)
Definition stayed (q : queue) (s s' : PWorld) : Prop :=
  Cursor (pw_wal s') = Cursor (pw_wal s) /\ index_inv (wal (pw_wal s')) /\
  exists added next, represents (segs (pw_wal s')) (wal (pw_wal s')) (mkQueue (q_frames q ++ added) next).

(** The interval up to [fin] was visible when the round read the clock: it ended
    [Watermark] before, and it ended [ExportLag] before or the source was flushed in
    this round. *)
Definition visible (now fin : Z) (s s' : PWorld) : Prop :=
  let cfg := p_cfg (pw_poller s) in
  fin <= now - Milliseconds (pc_Watermark cfg) /\
  (fin <= now - Milliseconds (pc_ExportLag cfg) \/
   (pw_flushes s' = S (pw_flushes s) /\ ForceFlush (flush_at (pw_flushes s)) = Ok tt)).

(** The round moved the cursor to [fin]: the export of exactly the interval from
    the old cursor to [fin] succeeded, every frame of it is at the end of the
    queue, and the interval was visible. *)
Definition advanced (now : Z) (q : queue) (s s' : PWorld) : Prop :=
  let cursor := Cursor (pw_wal s) in
  let cfg := p_cfg (pw_poller s) in
  exists fin k raw added,
    cursor < fin /\ Cursor (pw_wal s') = fin /\
    ExportRange (export_at k cursor fin) = Ok raw /\
    carry (pc_Compression cfg) (splitFrames raw (pc_FrameLines cfg) (pc_FrameBytes cfg)) added /\
    wal_inv (segs (pw_wal s')) (wal (pw_wal s')) /\
    represents (segs (pw_wal s')) (wal (pw_wal s')) (mkQueue (q_frames q ++ added) (q_next q + len added)) /\
    visible now fin s s'.

Lemma stayed_wal q s s' :
  index_inv (wal (pw_wal s)) -> represents (segs (pw_wal s)) (wal (pw_wal s)) q ->
  pw_wal s' = pw_wal s -> stayed q s s'.
Proof.
  intros Hi Hr E. unfold stayed. rewrite E. split; [done|]. split; [done|].
  exists [], (q_next q). rewrite app_nil_r. by destruct q.
Qed.

Lemma flushSource_spec now s :
  wp (flushSource flush_at now) (fun o s' => (forall t, poller_only t s s') /\
    exists b, o = Ok b /\
      (b = true -> pw_flushes s' = S (pw_flushes s) /\ ForceFlush (flush_at (pw_flushes s)) = Ok tt)) s.
Proof.
  unfold wp, flushSource. destruct (ForceFlush (flush_at (pw_flushes s))) as [[]|e|]; cbn.
  - split; [by split|]. by exists true.
  - split; [|by exists false]. intros t. by case_match.
  - split; [|by exists false]. intros t. by case_match.
Qed.

Lemma len_number n fbs : len (number n fbs) = len fbs.
Proof. revert n. induction fbs as [|b fbs IH]; intros n; cbn [number]; [done|]. by rewrite !len_cons, (IH (n + 1)). Qed.

(** The second half of a round. *)
Lemma store_round_spec now nowNs q s k fin raw s0 :
  wal_inv (segs (pw_wal s)) (wal (pw_wal s)) -> represents (segs (pw_wal s)) (wal (pw_wal s)) q ->
  pw_wal s = pw_wal s0 -> p_cfg (pw_poller s) = p_cfg (pw_poller s0) ->
  Cursor (pw_wal s0) < fin -> slot_ok (pw_poller s) ->
  ExportRange (export_at k (Cursor (pw_wal s0)) fin) = Ok raw ->
  visible now fin s0 s -> pw_visits s = [] ->
  let cfg := p_cfg (pw_poller s0) in
  q_next q + len (splitFrames raw (pc_FrameLines cfg) (pc_FrameBytes cfg)) < 2 ^ 64 ->
  wp (store_round cfg nowNs fin raw)
    (fun o s' => after_round s s' /\ (stayed q s0 s' \/ advanced now q s0 s')) s.
Proof.
  intros Hinv Hr Ew Ec Hlt Hslot Hexp Hvis Hv cfg Hb. fold cfg in Ec. unfold store_round.
  set (frames := splitFrames raw (pc_FrameLines cfg) (pc_FrameBytes cfg)) in *.
  assert (Hlt1 : Cursor (pw_wal s) < fin) by (by rewrite Ew).
  assert (Hstay : forall s', pw_wal s' = pw_wal s -> stayed q s0 s').
  { intros s' E. apply stayed_wal; [rewrite <- Ew; apply Hinv|by rewrite <- Ew|congruence]. }
  destruct frames as [|f frames'] eqn:Ef.
  - eapply wp_conseq; [by apply (finish_round_spec nowNs fin q)|].
    intros o s2 (Ho & Ha & Hi & Hrep & Hcur). split; [done|]. right.
    exists fin, k, raw, []. split; [done|]. split; [done|]. split; [done|]. fold cfg frames. rewrite Ef.
    split; [constructor|]. split; [done|]. rewrite app_nil_r, len_nil, Z.add_0_r.
    split; [by destruct q|]. unfold visible in *. by rewrite (ar_flushes _ _ Ha).
  - rewrite <- Ef in *. destruct (encode_frames (pc_Compression cfg) frames) as [enc|e|] eqn:Ee.
    + destruct (encode_frames_carry _ _ _ (q_next q) Ee) as [Hcarry Hlen].
      wp_step. apply wp_on_wal; [done|]. eapply wp_conseq.
      { apply (AppendBatch_queue (pc_Compression cfg) enc q); [done|done|lia]. }
      cbv beta. intros o w Hw. destruct o as [seqs|e|]; cbn [bind_post]; [| |done].
      * destruct Hw as (_ & Hi2 & Hr2 & _ & Hc2).
        eapply wp_conseq; [apply (finish_round_spec nowNs fin (q_append enc q)); [done|done| |done]|].
        { change (CursorNs (w_cp (wal w)) < fin). rewrite Hc2, Ew. exact Hlt. }
        intros o s2 (Ho & Ha & Hi & Hrep & Hcur). split; [by destruct Ha|]. right.
        exists fin, k, raw, (number (q_next q) enc). split; [done|]. split; [done|]. split; [done|].
        split; [done|]. split; [done|]. split; [unfold q_append in Hrep; by rewrite len_number|].
        unfold visible in *. by rewrite (ar_flushes _ _ Ha).
      * apply wp_modify. split; [by split|]. left.
        destruct Hw as [j (Hi2 & Hr2 & _ & Hc2)]. split; [|split; [done|]].
        -- change (CursorNs (w_cp (wal w)) = Cursor (pw_wal s0)). rewrite Hc2, Ew. done.
        -- eexists _, _. exact Hr2.
    + destruct (is_too_large e); wp_steps; (split; [by split|]; left; by apply Hstay).
    + split; [by split|]. left. by apply Hstay.
Qed.

Lemma length_SplitByte raw : (length (SplitByte NL raw) <= S (length raw))%nat.
Proof.
  induction raw as [|b raw IH]; cbn [SplitByte]; [done|]. cbn [length].
  destruct (b =? NL); cbn [length]; [lia|]. destruct (SplitByte NL raw); cbn [length] in *; lia.
Qed.

Lemma splitFrames_count raw ml mb : len (splitFrames raw ml mb) <= len raw + 1.
Proof.
  destruct (splitFrames_runs raw ml mb) as (runs & -> & Hcat & Hfit).
  assert (H1 : (length runs <= length (concat runs))%nat).
  { clear Hcat. induction Hfit as [|ls runs (He & _) _ IH]; [done|]. cbn [concat length].
    rewrite length_app. destruct ls; [done|cbn; lia]. }
  assert (H2 : (length (lines_of raw) <= length (SplitByte NL raw))%nat) by apply length_filter.
  pose proof (length_SplitByte raw). unfold len. rewrite length_map. rewrite Hcat in H1. lia.
Qed.

Lemma ExportRange_size r raw : ExportRange r = Ok raw -> len raw <= maxExportRespBytes.
Proof.
  unfold ExportRange. destruct r as [| |st body ok]; [done|done|].
  destruct (read_limited _ _ _) as [b|]; [|done].
  destruct (Z.ltb_spec maxExportRespBytes (len b)); [done|]. destruct (negb _); [done|]. by intros [= <-].
Qed.

(** Flushing the source, when the window reaches into what it has not made visible. *)
Lemma round_flush_spec now cursor s :
  let p := pw_poller s in
  let lag := Milliseconds (pc_ExportLag (p_cfg p)) in
  wp (if now - lag <? cursor + Milliseconds (windowSize p) then flushSource flush_at now else ret true)
    (fun o s' => (forall t, poller_only t s s') /\ exists b, o = Ok b /\
       (b = true -> (pw_flushes s' = S (pw_flushes s) /\ ForceFlush (flush_at (pw_flushes s)) = Ok tt) \/
                    cursor + Milliseconds (windowSize p) <= now - lag)) s.
Proof.
  cbv zeta. destruct (Z.ltb_spec (now - Milliseconds (pc_ExportLag (p_cfg (pw_poller s))))
    (cursor + Milliseconds (windowSize (pw_poller s)))).
  - eapply wp_conseq; [apply flushSource_spec|]. cbv beta. intros o s' (Hp & b & -> & Hf).
    split; [done|]. exists b. split; [done|]. intros Hbt. left. auto.
  - apply wp_ret. split; [done|]. exists true. split; [done|]. by right.
Qed.

Lemma update_streak_same n b p :
  p_cfg (update_streak n b p) = p_cfg p /\ p_prefetch (update_streak n b p) = p_prefetch p.
Proof. unfold update_streak. destruct (n =? 0); [done|]. by destruct (b <? _). Qed.

(** The first half of a round: the export succeeded, of a window that ends after
    the cursor and was visible, if the export in flight was sent before the round. *)
Definition exported (now : Z) (s s' : PWorld) (cursor fin : Z) (raw : bytes) : Prop :=
  cursor < fin /\ (exists k, ExportRange (export_at k cursor fin) = Ok raw) /\
  (config_ok (p_cfg (pw_poller s)) -> sent_by now (pw_poller s) -> visible now fin s s').

Lemma export_round_spec cancelled now now2 now3 cursor s :
  slot_ok (pw_poller s) ->
  wp (export_round export_at flush_at cancelled now now2 now3 cursor) (fun o s' =>
    poller_only now3 s s' /\ exists got, o = Ok got /\
      match got with None => True | Some (fin, raw) => exported now s s' cursor fin raw end) s.
Proof.
  intros Hslot. unfold export_round, poller. wp_step. apply wp_gets. cbn [bind_post]. cbv zeta.
  set (p := pw_poller s) in *. set (lag := Milliseconds (pc_ExportLag (p_cfg p))).
  wp_step.
  eapply wp_conseq; [apply (round_flush_spec now cursor s)|]. cbv beta. intros o s1 (Hp1 & flushOK & -> & Hvis). cbn [bind_post].
  change (pw_poller s) with p in Hvis. fold lag in Hvis.
  destruct (windowEnd_le p cursor now flushOK) as (Hmark & Hlag & Hwin & _). fold lag in Hlag.
  set (fin0 := windowEnd cursor now flushOK p) in *.
  destruct (Z.leb_spec fin0 cursor) as [|Hgt]; [apply wp_ret; split; [done|by exists None]|].
  assert (Hvis0 : fin0 <= now - lag \/
    (pw_flushes s1 = S (pw_flushes s) /\ ForceFlush (flush_at (pw_flushes s)) = Ok tt)).
  { destruct flushOK; [|left; by apply Hlag]. destruct (Hvis eq_refl) as [Hf|Hf]; [by right|left; lia]. }
  wp_step. eapply wp_conseq; [apply (obtain_export_spec now3); by apply (Hp1 now3)|]. cbv beta.
  intros o s2 (Hp2 & Hf2 & Ho2). assert (Hp : poller_only now3 s s2) by (etrans; [apply Hp1|done]).
  destruct Ho2 as [->|(fin & reply & k & -> & -> & Hfin)]; cbn [bind_post]; [apply wp_ret; split; [done|by exists None]|].
  assert (Hfin' : cursor < fin /\ (config_ok (p_cfg p) -> sent_by now p -> visible now fin s s2)).
  { unfold visible. rewrite Hf2. destruct Hfin as [->|(Hlt & Ht)]; [done|]. split; [done|]. intros Hok Hsent.
    specialize (Ht now (po_sent _ _ _ (Hp1 now) Hsent)). rewrite (po_cfg _ _ _ (Hp1 now)) in Ht. fold p lag in Ht. pose proof (Milliseconds_mono _ _ (proj2 (ok_watermark _ Hok))). fold lag in H. cbv zeta. fold p lag. split; [lia|by left]. }
  destruct (ExportRange (export_at k cursor fin)) as [raw|e|] eqn:Eexp.
  2, 3: wp_steps; split; [by destruct Hp|by exists None].
  wp_step. apply wp_modify. cbn [bind_post]. wp_step.
  eapply wp_conseq; [by apply (launchPrefetch_spec now3)|]. intros o3 s3 (Hp3 & Hf3 & Ho3).
  destruct o3 as [[]|e|]; [|done|done]. cbn [bind_post]. apply wp_ret.
  split; [|eexists; split; [done|]; split; [apply Hfin'|]; split; [by exists k|]].
  2: { unfold visible in *. rewrite Hf3. apply Hfin'. }
  etrans; [exact Hp|]. etrans; [|exact Hp3].
  destruct (update_streak_same (len (splitFrames raw (pc_FrameLines (p_cfg p)) (pc_FrameBytes (p_cfg p)))) (len raw) (pw_poller s2)) as [E1 E2].
  split; [done|done|exact E1|unfold slot_ok|unfold sent_by]; cbn [pw_poller upd_poller]; by rewrite ?E1, E2.
Qed.

(** C10: the cursor never passes data that is not in the queue. Whatever the
    answers of the source, the failures of the file system and the state of the
    prefetch, a round during which nobody else calls the log either leaves the
    cursor where it was, or moves it to [fin] after the export of exactly the
    interval between the two succeeded and every frame of that export, in order,
    is at the end of the queue, each encoded with its own number. The interval was
    visible: when the round read the clock, [now], its end was [Watermark] in the
    past, and it was [ExportLag] in the past or this round flushed the source and
    the flush succeeded. An export in flight must have been sent by [now]; the one
    that the round leaves was sent by [now3], its own last reading. *)
Theorem pollOnce_cursor_safe cancelled now now2 now3 nowNs q s :
  wal_inv (segs (pw_wal s)) (wal (pw_wal s)) -> represents (segs (pw_wal s)) (wal (pw_wal s)) q ->
  q_next q + maxExportRespBytes + 1 < 2 ^ 64 -> pw_visits s = [] -> config_ok (p_cfg (pw_poller s)) ->
  slot_ok (pw_poller s) -> sent_by now (pw_poller s) -> now <= now3 ->
  wp (pollOnce export_at flush_at cancelled now now2 now3 nowNs) (fun o s' =>
    slot_ok (pw_poller s') /\ sent_by now3 (pw_poller s') /\ p_cfg (pw_poller s') = p_cfg (pw_poller s) /\
    (stayed q s s' \/ advanced now q s s')) s.
Proof.
  intros Hinv Hr Hb Hv Hcf Hslot Hsent Hclock. unfold pollOnce, poller. wp_step. unfold wp at 1, read_cursor.
  rewrite arrive_alone by done. cbn [fst snd bind_post]. wp_step. apply wp_gets. cbn [bind_post]. wp_step.
  assert (Hsent3 : sent_by now3 (pw_poller s)) by (unfold sent_by in *; case_match; [lia|done]).
  eapply wp_conseq; [by apply export_round_spec|]. cbv beta.
  intros o s1 ([Hw1 Hv1 Hc1 Hs1 Ht1] & got & -> & Hgot). cbn [bind_post].
  destruct got as [[fin raw]|].
  2: { apply wp_ret. split; [by apply Hs1|]. split; [by apply Ht1|]. split; [done|].
       left. apply stayed_wal; [apply Hinv|done|done]. }
  destruct Hgot as (Hlt & [k Hexp] & Hvis).
  pose proof (splitFrames_count raw (pc_FrameLines (p_cfg (pw_poller s))) (pc_FrameBytes (p_cfg (pw_poller s)))).
  pose proof (ExportRange_size _ _ Hexp).
  eapply wp_conseq; [apply (store_round_spec now nowNs q s1 k fin raw s)|]; rewrite ?Hw1, ?Hv1; auto.
  { cbv zeta. lia. }
  cbv beta. intros o s2 [[Hv2 Hf2 Hc2 Hs2 Ht2] Hres]. split; [auto|]. split; [auto|]. by split; [congruence|].
Qed.

End round_specs.

(** ** Witnesses *)

#[local] Existing Instance id_codec.

Definition default_config : PollerConfig := mkPC 0 0 0 0 0 0 0 0 0.

(** A source that answers every export with the lines [a] and [b]. *)
Definition two_lines (k : nat) (start fin : Z) : http_result := HReply 200 [97; 10; 98; 10] true.
Definition no_flush (k : nat) : http_result := HErr [].

Definition poller_start : PWorld := mkPW (NewPoller default_config) fresh [] 0 0.

Lemma pollOnce_cursor_safe_witness :
  Cursor (pw_wal (snd (pollOnce two_lines no_flush false 100000 100000 100000 0 poller_start))) = 5000 /\
  wp (pollOnce two_lines no_flush false 100000 100000 100000 0) (fun o s' =>
    slot_ok two_lines (pw_poller s') /\ sent_by 100000 (pw_poller s') /\
    p_cfg (pw_poller s') = p_cfg (pw_poller poller_start) /\
    (stayed (mkQueue [] 1) poller_start s' \/
     advanced two_lines no_flush 100000 (mkQueue [] 1) poller_start s')) poller_start.
Proof.
  split; [vm_compute; reflexivity|]. destruct fresh_ok as [Hi Hr].
  apply (pollOnce_cursor_safe two_lines no_flush false 100000 100000 100000 0 (mkQueue [] 1) poller_start Hi Hr).
  - vm_compute. reflexivity.
  - reflexivity.
  - apply NewPoller_ok.
  - exact I.
  - exact I.
  - reflexivity.
Defined.

Lemma windowEnd_bounds_witness :
  let p := NewPoller default_config in
  windowEnd 0 100000 false p = 5000 /\
  windowEnd 0 100000 false p <= 100000 - Milliseconds (pc_ExportLag (p_cfg p)).
Proof.
  split; [reflexivity|].
  destruct (windowEnd_bounds default_config (NewPoller default_config) 0 100000 false
    eq_refl eq_refl) as (_ & H & _).
  exact (H eq_refl).
Defined.

(** A window shorter than a millisecond never ends after the cursor: no round
    ever exports anything. *)
Example submillisecond_window_stalls :
  windowEnd 0 100000 true (NewPoller (mkPC 0 500000 0 0 0 0 0 0 0)) = 0.
Proof. reflexivity. Qed.
