(* ===== verification/PollTrace.v ===== *)
(** * What the poller does to the log

    The poller and the sender share the log, but all the poller reads of it is
    its own cursor, which the sender never moves. So the operations that the
    rounds of the poller perform are a function of the cursor and of what the
    source answers: its trace, whatever the sender does in between. Run on the
    log, the loop of [Run] performs that trace; and a trace moves the cursor only
    over windows whose export succeeded and whose frames it has appended. *)
From S2P Require Import Prelude GoBytes GoTime Protocol WalDisk WalScan Wal WalQueue WalCommit WalCalm VmClient Poller.
Local Open Scope Z_scope.
Local Open Scope go_scope.

(** ** The loop of [Run] *)

(** What one turn of the loop observes: what [statfs] says of the disk, whether the
    context has been cancelled, and the readings of the clock. *)
Record tick := mkTick {
  t_disk : option Statfs_t; t_cancelled : bool; t_now : Z; t_now2 : Z; t_now3 : Z; t_nowNs : Z }.

Definition t_usage (t : tick) : float64 := WalDiskUsageRatio (t_disk t).

Section trace.
Context {C : Codec}.
Context (export_at : nat -> Z -> Z -> http_result) (flush_at : nat -> http_result).

Fixpoint run_loop (state : bpState) (ticks : list tick) : P bpState :=
  match ticks with
  | [] => ret state
  | t :: rest =>
      state' <- run_tick export_at flush_at state (t_disk t) (t_cancelled t) (t_now t) (t_now2 t) (t_now3 t) (t_nowNs t) ;;
      run_loop state' rest
  end.

(** ** The trace *)

(** The operations of the second half of a round. *)
Definition round_ops (cfg : PollerConfig) (nowNs fin : Z) (raw : bytes) : list rival :=
  match splitFrames raw (pc_FrameLines cfg) (pc_FrameBytes cfg) with
  | [] => [RivalCursor nowNs fin]
  | frames =>
      match encode_frames (pc_Compression cfg) frames with
      | Ok enc => [RivalAppend (pc_Compression cfg) enc; RivalCursor nowNs fin]
      | _ => []
      end
  end.

(** The poller after it, when no call on the log fails. *)
Definition round_after (cfg : PollerConfig) (raw : bytes) (p : Poller) : Poller :=
  match splitFrames raw (pc_FrameLines cfg) (pc_FrameBytes cfg) with
  | [] => with_oversize 0 p
  | frames =>
      match encode_frames (pc_Compression cfg) frames with
      | Ok _ => with_oversize 0 p
      | Err e => with_prefetch None (if is_too_large e then with_oversize (S (p_oversizeStreak p)) p else p)
      | Panic => p
      end
  end.

(** Where the cursor is after an operation. *)
Definition op_cursor (c : Z) (a : rival) : Z :=
  match a with RivalAppend _ _ => c | RivalCursor _ ts => ts end.

(** The operations of a turn of the loop, and the poller after it. *)
Definition tick_trace (state' : bpState) (t : tick) (cursor : Z) (s : PWorld) : list rival * PWorld :=
  match state' with
  | bpPaused => ([], s)
  | _ =>
      match export_round export_at flush_at (t_cancelled t) (t_now t) (t_now2 t) (t_now3 t) cursor s with
      | (Ok (Some (fin, raw)), s1) =>
          let cfg := p_cfg (pw_poller s) in
          (round_ops cfg (t_nowNs t) fin raw, upd_poller (round_after cfg raw) s1)
      | (_, s1) => ([], s1)
      end
  end.

(** The operations of the loop that starts at [cursor]. *)
Fixpoint poll_trace (state : bpState) (ticks : list tick) (cursor : Z) (s : PWorld) : list rival :=
  match ticks with
  | [] => []
  | t :: rest =>
      let state' := bp_step state (t_usage t) in
      let '(ops, s1) := tick_trace state' t cursor s in
      ops ++ poll_trace state' rest (foldl op_cursor cursor ops) s1
  end.

(** ** The log does not matter *)

(** Another log, with other calls of the sender to come. *)
Definition put_log (w : World) (v : list (list visit)) (s : PWorld) : PWorld :=
  mkPW (pw_poller s) w v (pw_exports s) (pw_flushes s).

(** [m] does the same whatever log the poller has, and leaves it. *)
Definition blind {A} (m : P A) : Prop :=
  forall w v s, m (put_log w v s) = ((m s).1, put_log w v (m s).2) /\
    pw_wal (m s).2 = pw_wal s /\ pw_visits (m s).2 = pw_visits s.

Lemma blind_bind {A B} (m : P A) (k : A -> P B) : blind m -> (forall a, blind (k a)) -> blind (bind m k).
Proof.
  intros Hm Hk w v s. unfold bind. destruct (Hm w v s) as (E1 & E2 & E3). rewrite E1.
  destruct (m s) as [[a|e|] s1]; cbn [fst snd] in *; [|done|done].
  destruct (Hk a w v s1) as (E4 & E5 & E6). by rewrite E4, E5, E6.
Qed.
Lemma blind_ret {A} (a : A) : blind (ret a).
Proof. by intros w v s. Qed.
Lemma blind_poller : blind poller.
Proof. by intros w v s. Qed.
Lemma blind_set f : blind (set_poller f).
Proof. by intros w v s. Qed.
Lemma blind_send start fin : blind (send_export export_at start fin).
Proof. by intros w v s. Qed.
Lemma blind_flush now : blind (flushSource flush_at now).
Proof.
  intros w v s. unfold flushSource. cbn. by repeat case_match.
Qed.

Create HintDb blind.
#[local] Hint Resolve blind_ret blind_poller blind_set blind_send blind_flush : blind.

Ltac blind :=
  repeat first
    [ progress intros
    | solve [eauto 1 with blind]
    | apply blind_bind
    | progress cbv zeta
    | match goal with |- blind (match ?x with _ => _ end) => destruct x end ].

Lemma blind_launch now2 now3 cursor : blind (launchPrefetch export_at now2 now3 cursor).
Proof. unfold launchPrefetch. blind. Qed.
Lemma blind_obtain cancelled cursor fin : blind (obtain_export export_at cancelled cursor fin).
Proof. unfold obtain_export. blind. Qed.
#[local] Hint Resolve blind_launch blind_obtain : blind.
Lemma blind_export_round cancelled now now2 now3 cursor :
  blind (export_round export_at flush_at cancelled now now2 now3 cursor).
Proof. unfold export_round. blind. Qed.

Lemma tick_trace_blind state' t cursor w v s :
  tick_trace state' t cursor (put_log w v s) =
    ((tick_trace state' t cursor s).1, put_log w v (tick_trace state' t cursor s).2) /\
  pw_wal (tick_trace state' t cursor s).2 = pw_wal s /\ pw_visits (tick_trace state' t cursor s).2 = pw_visits s.
Proof.
  unfold tick_trace.
  destruct (blind_export_round (t_cancelled t) (t_now t) (t_now2 t) (t_now3 t) cursor w v s) as [-> E].
  destruct (export_round _ _ _ _ _ _ _ s) as [o s1]. cbn [fst snd] in *. by destruct state', o as [[[fin raw]|]|e|].
Qed.

Lemma poll_trace_blind ticks : forall state cursor w v s,
  poll_trace state ticks cursor (put_log w v s) = poll_trace state ticks cursor s.
Proof.
  induction ticks as [|t ticks IH]; intros state cursor w v s; cbn [poll_trace]; [done|].
  destruct (tick_trace_blind (bp_step state (t_usage t)) t cursor w v s) as [-> _].
  destruct (tick_trace _ _ _ s) as [ops s1]. cbn [fst snd]. f_equal. apply IH.
Qed.

(** ** The poller and the sender on the log *)

(** A call on the log, by one of the two. *)
Inductive event : Type := ByPoller (a : rival) | BySender (v : visit).

Definition event_run (w : World) (e : event) : World :=
  match e with ByPoller a => rival_run w a | BySender v => visit_run w v end.
Definition by_poller (e : event) : option rival := match e with ByPoller a => Some a | _ => None end.
Definition by_sender (e : event) : option visit := match e with BySender v => Some v | _ => None end.

(** No call of the sender moves the cursor or takes a number. *)
Lemma visit_run_log w (g : ledger) v : log_ok w g ->
  exists g' : ledger, log_ok (visit_run w v) g' /\ q_next g' = q_next g /\ Cursor (visit_run w v) = Cursor w.
Proof.
  intros Hl. destruct v as [n|now seq|b]; cbn [visit_run].
  - exists g. by destruct (PeekBatch_ok n w g Hl) as [[_ ->]|(_ & fds & -> & _)].
  - destruct (q_frames g) as [|[h fb] rest] eqn:Eq.
    + exists g. destruct Hl as [[Hi Hh] Hr Hc]. pose proof (commitLocked_spec now seq g w (conj Hi Hh) Hr) as H.
      unfold Commit. unfold wp, commit_post in H. rewrite Eq in H.
      destruct (commitLocked now seq w) as [o w']. cbn [fst snd] in *. by destruct H as [_ ->].
    + destruct (decide (h = seq)) as [->|Hne].
      * destruct (Commit_ok now w g seq fb rest Hl Eq) as (w' & -> & Hl' & Hc).
        exists (mkLedger (lg_done g) (q_commit g)). split; [exact Hl'|]. by split.
      * exists g. by rewrite (Commit_wrong now w g seq h fb rest Hl Eq Hne).
  - exists g. split; [by apply log_ok_notify|]. by split.
Qed.

Lemma visits_run_log l : forall w (g : ledger), log_ok w g ->
  exists g' : ledger, log_ok (foldl visit_run w l) g' /\ q_next g' = q_next g /\ Cursor (foldl visit_run w l) = Cursor w.
Proof.
  induction l as [|v l IH]; intros w g Hl; cbn [foldl]; [by exists g|].
  destruct (visit_run_log w g v Hl) as (g1 & Hl1 & Hn1 & Hc1).
  destruct (IH _ g1 Hl1) as (g2 & Hl2 & Hn2 & Hc2). exists g2. by rewrite Hn2, Hc2.
Qed.

(** From [s] to [s'] the poller has performed [ops] on a log that works and whose
    next number was [n], and the sender some of the calls it had to make, in their
    order, in between. *)
Record went (n : Z) (ops : list rival) (s s' : PWorld) : Prop := {
  wn_events : exists evs, pw_wal s' = foldl event_run (pw_wal s) evs /\ omap by_poller evs = ops /\
    concat (pw_visits s) = omap by_sender evs ++ concat (pw_visits s');
  wn_log : exists g' : ledger, log_ok (pw_wal s') g' /\ q_next g' = n + group_size ops;
  wn_cursor : Cursor (pw_wal s') = foldl op_cursor (Cursor (pw_wal s)) ops }.

Lemma went_nothing (g : ledger) s s' : log_ok (pw_wal s) g -> pw_wal s' = pw_wal s -> pw_visits s' = pw_visits s ->
  went (q_next g) [] s s'.
Proof.
  intros Hl Ew Ev. split; rewrite ?Ew, ?Ev; [by exists []|exists g|done]. split; [done|]. cbn. lia.
Qed.

Lemma went_trans n a b s1 s2 s3 : went n a s1 s2 -> went (n + group_size a) b s2 s3 -> went n (a ++ b) s1 s3.
Proof.
  intros [(evs & Ew & Ea & Ev) _ Hc] [(evs' & Ew' & Ea' & Ev') (g'' & Hl' & Hn') Hc']. split.
  - exists (evs ++ evs'). rewrite foldl_app, !omap_app, <- Ew, Ea, Ea', Ev, Ev', app_assoc. done.
  - exists g''. split; [done|]. rewrite group_size_app. lia.
  - by rewrite foldl_app, <- Hc.
Qed.

Lemma omap_senders l : omap by_poller (map BySender l) = [] /\ omap by_sender (map BySender l) = l.
Proof. induction l as [|v l [IH1 IH2]]; cbn; [done|]. split; [exact IH1|]. by f_equal. Qed.

(** The sender has its turn. *)
Lemma went_arrive (g : ledger) s : log_ok (pw_wal s) g -> went (q_next g) [] s (arrive s).
Proof.
  intros Hl. destruct (visits_run_log (hd [] (pw_visits s)) (pw_wal s) g Hl) as (g' & Hl' & Hn & Hc).
  split; cbn [arrive pw_wal pw_visits].
  - exists (map BySender (hd [] (pw_visits s))). destruct (omap_senders (hd [] (pw_visits s))) as [-> ->].
    split; [|split; [done|by destruct (pw_visits s)]]. generalize (pw_wal s). clear.
    induction (hd [] (pw_visits s)) as [|v l IH]; intros w; [done|]. cbn. apply IH.
  - exists g'. split; [done|]. cbn. lia.
  - exact Hc.
Qed.

(** The poller calls the log, once the sender has had its turn. *)
Lemma went_call (g : ledger) a s s' :
  log_ok (pw_wal s) g -> rival_ok a -> q_next g + rival_size a < 2 ^ 64 ->
  (forall now ts, a = RivalCursor now ts -> Cursor (pw_wal s) < ts) ->
  pw_wal s' = rival_run (pw_wal (arrive s)) a -> pw_visits s' = pw_visits (arrive s) ->
  went (q_next g) [a] s s'.
Proof.
  intros Hl Ha Hb Hc Ew Ev. pose proof (went_arrive g s Hl) as Harr. pose proof (wn_cursor _ _ _ _ Harr) as Ec.
  destruct (wn_log _ _ _ _ Harr) as (g' & Hl' & Hn). cbn [group_size foldr foldl] in Hn, Ec. rewrite Z.add_0_r in Hn.
  apply (went_trans _ [] [a] s (arrive s)); [done|]. cbn [group_size foldr]. rewrite Z.add_0_r, <- Hn.
  split; rewrite Ew; [by exists [ByPoller a]; rewrite Ev| |].
  - exists (lg_rival a g'). split; [apply rival_run_log; [done|done|lia]|].
    destruct a; cbn [lg_rival lg_append lg_queue q_append q_next group_size foldr rival_size]; lia.
  - destruct a as [typ fbs|now ts]; cbn [foldl op_cursor rival_run].
    + cbn [rival_ok rival_size] in *.
      destruct (AppendBatch_ok typ fbs (pw_wal (arrive s)) g' Hl' ltac:(lia) (wf_frames_long fbs Ha)) as (w1 & E & _ & Hc1).
      rewrite E. exact Hc1.
    + destruct (SetCursor_ok now ts (pw_wal (arrive s)) g' Hl') as (o & w1 & E & _ & _ & Hc1). specialize (Hc now ts eq_refl).
      rewrite E. cbn [snd]. rewrite Hc1, Ec. by destruct (Z.ltb_spec ts (Cursor (pw_wal s))); [lia|].
Qed.

(** ** The trace is what the loop does *)

Lemma encode_frames_cases typ frames :
  (exists e, encode_frames typ frames = Err e) \/
  exists enc, encode_frames typ frames = Ok enc /\ Forall2 (fun f fb => Encode typ 0 f = Ok fb) frames enc.
Proof.
  induction frames as [|f frames IH]; cbn [encode_frames]; [right; by exists []|].
  destruct (Encode typ 0 f) as [fb|e|] eqn:E; [|left; by exists e|exfalso].
  - destruct IH as [[e ->]|(enc & -> & H)]; [left; by exists e|right]. exists (fb :: enc). split; [done|by constructor].
  - revert E. unfold Encode, gzipCompress. repeat case_match; done.
Qed.

Lemma Encode_wf typ p fb : Encode typ 0 p = Ok fb -> wf_frame fb.
Proof.
  intros (c & Hc & -> & Hl & _)%Encode_inv. apply carries_byte in Hc.
  assert (Hlen : u32 (len c) = len c) by (apply Z.mod_small; plia).
  set (crc := ChecksumIEEE c). exists (mkHeader Magic Version typ 0 (len c) (crc mod 2 ^ 32)).
  assert (E : encodeRaw typ 0 c crc = putHeader (replicate 20 0) (mkHeader Magic Version typ 0 (len c) (crc mod 2 ^ 32)) ++ c).
  { unfold encodeRaw. rewrite Hlen. unfold putHeader. cbn [h_Magic h_Version h_Type h_Seq h_Length h_CRC].
    replace (be_put 4 (crc mod 2 ^ 32)) with (be_put 4 crc); [done|].
    change (2 ^ 32) with (256 ^ Z.of_nat 4). rewrite <- be_get_put.
    rewrite <- (be_put_get (be_put 4 crc)) at 1 by apply be_put_bytes. done. }
  rewrite E. split; [|split; [|cbn; plia]].
  - apply ParseHeader_put; [|done]. pose proof (Z.mod_pos_bound crc (2 ^ 32) ltac:(lia)).
    unfold header_ok, is_u64. cbn [h_Magic h_Version h_Type h_Seq h_Length h_CRC]. split_and!; try done; plia.
  - rewrite len_app, len_putHeader by done. done.
Qed.

Lemma round_ops_ok cfg nowNs fin raw : Forall rival_ok (round_ops cfg nowNs fin raw).
Proof.
  unfold round_ops. destruct (splitFrames _ _ _) as [|f frames]; [by repeat constructor|].
  destruct (encode_frames_cases (pc_Compression cfg) (f :: frames)) as [[e ->]|(enc & -> & H)]; [constructor|].
  constructor; [|by repeat constructor]. cbn. eapply Forall2_Forall_r; [exact H|]. apply Forall_forall.
  intros x _ y. apply Encode_wf.
Qed.

Lemma finish_round_calm nowNs fin (g : ledger) s :
  log_ok (pw_wal s) g -> Cursor (pw_wal s) < fin ->
  let s1 := arrive s in
  finish_round nowNs fin s =
    (Ok tt, upd_poller (with_oversize 0) (upd_pwal (rival_run (pw_wal s1) (RivalCursor nowNs fin)) s1)).
Proof.
  intros Hl Hlt. cbv zeta. destruct (went_arrive g s Hl) as [_ (g' & [Hi Hr [Hf Hh]] & _) Hc]. cbn [foldl] in Hc.
  unfold finish_round, bind, on_wal. cbv zeta. set (s1 := arrive s) in *. cbn [rival_run].
  unfold SetCursor, bind, gets, modify. change (CursorNs (w_cp (wal (pw_wal s1)))) with (Cursor (pw_wal s1)).
  rewrite Hc. destruct (Z.ltb_spec fin (Cursor (pw_wal s))); [lia|]. by rewrite persistLocked_calm.
Qed.

(** The second half of a round performs its operations. *)
Lemma store_round_calm cfg nowNs fin raw (g : ledger) s :
  log_ok (pw_wal s) g -> Cursor (pw_wal s) < fin ->
  q_next g + group_size (round_ops cfg nowNs fin raw) < 2 ^ 64 ->
  exists s', store_round cfg nowNs fin raw s = (Ok tt, s') /\ went (q_next g) (round_ops cfg nowNs fin raw) s s' /\
    s' = put_log (pw_wal s') (pw_visits s') (upd_poller (round_after cfg raw) s).
Proof.
  intros Hl Hlt. pose proof (round_ops_ok cfg nowNs fin raw) as Hok. unfold store_round, round_ops, round_after in *.
  destruct (splitFrames _ _ _) as [|f frames].
  { intros Hb. rewrite (finish_round_calm nowNs fin g s Hl Hlt). eexists. split; [reflexivity|]. split; [|done].
    apply went_call; try done. by intros ? ? [= <- <-]. }
  destruct (encode_frames_cases (pc_Compression cfg) (f :: frames)) as [[e Ee]|(enc & Ee & H)]; rewrite Ee in *; intros Hb.
  - unfold bind. destruct (is_too_large e); eexists; (split; [reflexivity|]; split; [by apply went_nothing|done]).
  - apply Forall_cons in Hok as [Hok _]. cbn [group_size foldr rival_size] in Hb.
    set (s1 := arrive s). assert (Hcall : went (q_next g) [RivalAppend (pc_Compression cfg) enc] s
      (upd_pwal (rival_run (pw_wal s1) (RivalAppend (pc_Compression cfg) enc)) s1)).
    { apply went_call; try done. cbn [rival_size]. lia. }
    destruct (went_arrive g s Hl) as [_ (g1 & Hl1 & Hn1) _]. cbn [group_size foldr rival_ok] in *.
    destruct (AppendBatch_ok (pc_Compression cfg) enc (pw_wal s1) g1 Hl1 ltac:(lia) (wf_frames_long enc Hok)) as (w1 & E & _ & _).
    unfold bind, on_wal. cbv zeta. fold s1. rewrite E. cbn [rival_run] in Hcall. rewrite E in Hcall. cbn [snd] in Hcall.
    pose proof Hcall as [_ (g2 & Hl2 & Hn2) Hc2]. cbn [foldl op_cursor] in Hc2.
    rewrite (finish_round_calm nowNs fin g2) by (done || lia). eexists. split; [reflexivity|]. split; [|done].
    apply (went_trans _ [RivalAppend (pc_Compression cfg) enc] [RivalCursor nowNs fin] _ _ _ Hcall).
    cbn [group_size foldr rival_size] in *. rewrite <- Hn2. apply went_call; try done; [cbn [rival_size]; lia|].
    intros ? ? [= <- <-]. lia.
Qed.

Lemma round_after_slot cfg raw p : slot_ok export_at p -> slot_ok export_at (round_after cfg raw p).
Proof.
  unfold round_after. intros Hs. repeat case_match; try exact Hs; exact I.
Qed.

(** One turn of the loop performs its operations, if the numbers last. *)
Definition performs (g : ledger) (s : PWorld) (ops : list rival) (m : P bpState) (state : bpState) (s1 : PWorld) : Prop :=
  q_next g + group_size ops < 2 ^ 64 ->
  exists s', m s = (Ok state, s') /\ went (q_next g) ops s s' /\ s' = put_log (pw_wal s') (pw_visits s') s1.

Lemma run_tick_trace state t (g : ledger) s :
  log_ok (pw_wal s) g -> slot_ok export_at (pw_poller s) ->
  let state' := bp_step state (t_usage t) in
  exists ops s1, tick_trace state' t (Cursor (pw_wal s)) s = (ops, s1) /\ slot_ok export_at (pw_poller s1) /\
    performs g s ops (run_tick export_at flush_at state (t_disk t) (t_cancelled t) (t_now t) (t_now2 t) (t_now3 t) (t_nowNs t)) state' s1.
Proof.
  intros Hl Hs. unfold run_tick, tick_trace. cbv zeta. change (WalDiskUsageRatio (t_disk t)) with (t_usage t).
  set (state' := bp_step state (t_usage t)).
  destruct (decide (state' = bpPaused)) as [->|Hne].
  { exists [], s. split; [done|]. split; [done|]. intros _. exists s. split; [done|].
    split; [by apply went_nothing|by destruct s]. }
  pose proof (export_round_spec export_at flush_at (t_cancelled t) (t_now t) (t_now2 t) (t_now3 t) (Cursor (pw_wal s)) s Hs) as Hx.
  unfold wp in Hx. destruct (export_round _ _ _ _ _ _ _ s) as [o s1] eqn:E. cbn [fst snd] in Hx.
  destruct Hx as ([Hw1 Hv1 _ Hs1 _] & got & -> & Hgot). specialize (Hs1 Hs).
  destruct (blind_export_round (t_cancelled t) (t_now t) (t_now2 t) (t_now3 t) (Cursor (pw_wal s)) (pw_wal (arrive s))
    (pw_visits (arrive s)) s) as [Eb _]. rewrite E in Eb. cbn [fst snd] in Eb.
  pose proof (went_arrive g s Hl) as Harr. pose proof (wn_cursor _ _ _ _ Harr) as Hcur. cbn [foldl] in Hcur.
  assert (Hgo : forall ops s2, slot_ok export_at (pw_poller s2) ->
    performs g s ops (pollOnce export_at flush_at (t_cancelled t) (t_now t) (t_now2 t) (t_now3 t) (t_nowNs t) ;;; ret state') state' s2 ->
    exists ops' s', match state' with bpPaused => ([], s) | _ => (ops, s2) end = (ops', s') /\ slot_ok export_at (pw_poller s') /\
      performs g s ops' (match state' with bpPaused => ret state' | _ => pollOnce export_at flush_at (t_cancelled t) (t_now t) (t_now2 t) (t_now3 t) (t_nowNs t) ;;; ret state' end) state' s').
  { intros ops s2 H1 H2. exists ops, s2. by destruct state'. }
  assert (Er : forall k, pollOnce export_at flush_at (t_cancelled t) (t_now t) (t_now2 t) (t_now3 t) (t_nowNs t) s = k ->
    match Ok (E := werr) (got : option (Z * bytes)) with
    | Ok (Some (fin, raw)) => store_round (p_cfg (pw_poller s)) (t_nowNs t) fin raw (put_log (pw_wal (arrive s)) (pw_visits (arrive s)) s1)
    | _ => (Ok tt, put_log (pw_wal (arrive s)) (pw_visits (arrive s)) s1)
    end = k).
  { intros k <-. unfold pollOnce, poller, bind, read_cursor, gets. cbv zeta. rewrite Hcur.
    change (arrive s) with (put_log (pw_wal (arrive s)) (pw_visits (arrive s)) s) at 5. rewrite Eb. cbn [pw_poller put_log].
    by destruct got as [[fin raw]|]. }
  destruct got as [[fin raw]|].
  - destruct Hgot as (Hlt & _). apply Hgo; [by apply round_after_slot|]. intros Hb.
    destruct Harr as [_ (g1 & Hl1 & Hn1) _]. cbn [group_size foldr] in Hn1.
    destruct (store_round_calm (p_cfg (pw_poller s)) (t_nowNs t) fin raw g1 (put_log (pw_wal (arrive s)) (pw_visits (arrive s)) s1))
      as (s' & E' & Hwent & Es'); [done|cbn [pw_wal put_log]; lia|lia|].
    exists s'. unfold bind. rewrite (eq_sym (Er _ eq_refl)), E'. split; [done|]. split; [|done].
    apply (went_trans _ [] _ s (arrive s)); [by apply went_arrive|]. cbn [group_size foldr]. rewrite <- Hn1. by destruct Hwent.
  - apply Hgo; [done|]. intros _. eexists. unfold bind. rewrite (eq_sym (Er _ eq_refl)). split; [reflexivity|].
    split; [by destruct Harr|done].
Qed.

(** The loop performs its trace, and nothing else, on any log that works, whatever
    the sender does between its calls. *)
Lemma run_loop_trace ticks : forall state (g : ledger) s,
  log_ok (pw_wal s) g -> slot_ok export_at (pw_poller s) ->
  let ops := poll_trace state ticks (Cursor (pw_wal s)) s in
  q_next g + group_size ops < 2 ^ 64 ->
  exists s', run_loop state ticks s = (Ok (foldl bp_step state (map t_usage ticks)), s') /\ went (q_next g) ops s s'.
Proof.
  induction ticks as [|t ticks IH]; intros state g s Hl Hs; cbv zeta.
  { intros _. exists s. split; [done|]. by apply went_nothing. }
  cbn [poll_trace run_loop map foldl].
  destruct (run_tick_trace state t g s Hl Hs) as (ops & s1 & -> & Hs1 & Hrun). rewrite group_size_app.
  set (state' := bp_step state (t_usage t)) in *. set (more := poll_trace _ _ _ _). intros Hb.
  pose proof (group_size_nonneg more). destruct Hrun as (s2 & E & Hwent & Es2); [lia|].
  destruct (wn_log _ _ _ _ Hwent) as (g' & Hl' & Hn').
  assert (Hmore : poll_trace state' ticks (Cursor (pw_wal s2)) s2 = more).
  { rewrite (wn_cursor _ _ _ _ Hwent), Es2. apply poll_trace_blind. }
  assert (Hs2 : slot_ok export_at (pw_poller s2)) by by rewrite Es2.
  destruct (IH state' g' s2 Hl' Hs2) as (s' & E' & Hwent'); [rewrite Hmore; lia|]. exists s'. unfold bind. rewrite E.
  split; [done|]. apply (went_trans _ _ _ _ _ _ Hwent). rewrite <- Hn', <- Hmore. exact Hwent'.
Qed.

Lemma poll_trace_ok ticks : forall state cursor s, Forall rival_ok (poll_trace state ticks cursor s).
Proof.
  induction ticks as [|t ticks IH]; intros state cursor s; cbn [poll_trace]; [constructor|].
  destruct (tick_trace _ _ _ s) as [ops s1] eqn:E. apply Forall_app. split; [|apply IH].
  revert E. unfold tick_trace. repeat case_match; intros [= <- <-]; first [apply round_ops_ok|constructor].
Qed.

(** C11: the poller is its trace, whatever the sender does. Let the loop run from
    [NewPoller] on, on a log whose file system answers, and let the sender make any
    calls of its own ([visits]: reading, acknowledging, waiting for frames) before
    each call of the poller on the log. The loop ends in the state of its
    backpressure, and the log is that of the calls of both, in the order in which
    they were made ([evs]): those of the poller are exactly the operations [ops], in
    order, which are computed from the configuration, the answers of the source and
    the cursor at the start, for every [visits] the same; and those of the sender
    are the ones it had to make, in its order. *)
Theorem poller_is_its_trace c ticks w (g : ledger) visits exports flushes :
  let start v := mkPW (NewPoller c) w v exports flushes in
  let ops := poll_trace bpNormal ticks (Cursor w) (start []) in
  log_ok w g -> q_next g + group_size ops < 2 ^ 64 ->
  exists s' evs, run_loop bpNormal ticks (start visits) = (Ok (foldl bp_step bpNormal (map t_usage ticks)), s') /\
    pw_wal s' = foldl event_run w evs /\ omap by_poller evs = ops /\
    concat visits = omap by_sender evs ++ concat (pw_visits s').
Proof.
  cbv zeta. intros Hl Hb.
  pose proof (poll_trace_blind ticks bpNormal (Cursor w) w visits (mkPW (NewPoller c) w [] exports flushes)) as Et.
  destruct (run_loop_trace ticks bpNormal g (mkPW (NewPoller c) w visits exports flushes)) as (s' & E & Hwent).
  - done.
  - exact I.
  - cbn [pw_wal]. unfold put_log in Et. cbn [pw_poller pw_exports pw_flushes] in Et. by rewrite Et.
  - destruct (wn_events _ _ _ _ Hwent) as (evs & Ew & Ea & Ev). exists s', evs. split; [done|]. split; [done|].
    split; [|done]. rewrite Ea. exact Et.
Qed.

End trace.

(** ** What a trace promises *)

Section plan.
Context {C : Codec}.

(** [answers start fin reply]: the source may give [reply] to the request for the
    export of [start, fin). *)
Context (answers : Z -> Z -> http_result -> Prop).

(** The line [l] is in a frame of [seen]; the number is not set yet. *)
Definition framed (seen : list bytes) (l : bytes) : Prop :=
  exists typ payload fb, fb ∈ seen /\ Encode typ 0 payload = Ok fb /\ l ∈ SplitByte NL payload.

(** The source was asked for [start, fin), and every line of its answer
    satisfies [stored]. *)
Definition window_held (stored : bytes -> Prop) (start fin : Z) : Prop :=
  exists reply raw, answers start fin reply /\ ExportRange reply = Ok raw /\ Forall stored (lines_of raw).

(** The operations to come, when the frames of [seen] have been appended and the
    cursor is at [c]: the cursor only moves over windows that are held. *)
Inductive plan : list bytes -> Z -> list rival -> Prop :=
| plan_done seen c : plan seen c []
| plan_append seen c typ fbs todo : plan (seen ++ fbs) c todo -> plan seen c (RivalAppend typ fbs :: todo)
| plan_cursor seen c now fin todo :
    c < fin -> window_held (framed seen) c fin -> plan seen fin todo -> plan seen c (RivalCursor now fin :: todo).

Lemma plan_round (export_at : nat -> Z -> Z -> http_result) seen cursor cfg nowNs k fin raw todo :
  (forall k start fin, answers start fin (export_at k start fin)) ->
  cursor < fin -> ExportRange (export_at k cursor fin) = Ok raw ->
  let ops := round_ops cfg nowNs fin raw in
  (forall seen, plan seen (foldl op_cursor cursor ops) todo) -> plan seen cursor (ops ++ todo).
Proof.
  intros Ha Hlt Hexp. cbv zeta. unfold round_ops.
  pose proof (splitFrames_lines raw (pc_FrameLines cfg) (pc_FrameBytes cfg)) as Hlines.
  set (frames := splitFrames raw _ _) in *.
  assert (Hheld : forall seen, (forall l, l ∈ concat (map (SplitByte NL) frames) -> framed seen l) -> window_held (framed seen) cursor fin).
  { intros seen' H. exists (export_at k cursor fin), raw. split; [apply Ha|]. split; [done|].
    rewrite <- Hlines. by apply Forall_forall. }
  destruct frames as [|f frames'] eqn:Ef; [|rewrite <- Ef in *].
  { intros Ht. cbn in *. constructor; [done|apply Hheld|done]. intros l Hl. by apply elem_of_nil in Hl. }
  destruct (encode_frames_cases (pc_Compression cfg) frames) as [[e ->]|(enc & -> & H)]; [by intros Ht|].
  intros Ht. cbn in *. constructor. constructor; [done|apply Hheld|done].
  intros l Hl. apply list_elem_of_In, in_concat in Hl as (ls & Hls & Hl%list_elem_of_In).
  apply in_map_iff in Hls as (p & <- & Hp%list_elem_of_In).
  apply list_elem_of_lookup in Hp as [j Hj].
  destruct (Forall2_lookup_l _ _ _ _ _ H Hj) as (fb & Hfb & He).
  exists (pc_Compression cfg), p, fb. split; [|done]. apply elem_of_app. right. by eapply list_elem_of_lookup_2.
Qed.

(** The trace of a poller on such a source is a plan. *)
Lemma poll_trace_plan export_at flush_at ticks :
  (forall k start fin, answers start fin (export_at k start fin)) ->
  forall state seen cursor s, slot_ok export_at (pw_poller s) ->
  plan seen cursor (poll_trace export_at flush_at state ticks cursor s).
Proof.
  intros Ha. induction ticks as [|t ticks IH]; intros state seen cursor s Hs; cbn [poll_trace]; [constructor|].
  unfold tick_trace. set (state' := bp_step state (t_usage t)).
  destruct (decide (state' = bpPaused)) as [->|Hne]; [by apply IH|].
  pose proof (export_round_spec export_at flush_at (t_cancelled t) (t_now t) (t_now2 t) (t_now3 t) cursor s Hs) as Hx.
  unfold wp in Hx. destruct (export_round _ _ _ _ _ _ _ s) as [o s1]. cbn [fst snd] in Hx.
  destruct Hx as ([_ _ _ Hs1 _] & got & -> & Hgot). specialize (Hs1 Hs).
  destruct got as [[fin raw]|]; [|destruct state'; try done; by apply IH].
  destruct Hgot as (Hlt & [k Hexp] & _).
  assert (Hgo : plan seen cursor (round_ops (p_cfg (pw_poller s)) (t_nowNs t) fin raw ++
    poll_trace export_at flush_at state' ticks (foldl op_cursor cursor (round_ops (p_cfg (pw_poller s)) (t_nowNs t) fin raw))
      (upd_poller (round_after (p_cfg (pw_poller s)) raw) s1))).
  { apply (plan_round export_at _ _ _ _ k); [done..|]. intros seen'. apply IH. by apply round_after_slot. }
  by destruct state'.
Qed.

(** What a process of the poller does, from [NewPoller] on, when it finds the
    cursor at [c]. *)
Definition polls (c : Z) (todo : list rival) : Prop :=
  exists cfg export_at flush_at ticks exports flushes w,
    (forall k start fin, answers start fin (export_at k start fin)) /\
    todo = poll_trace export_at flush_at bpNormal ticks c (mkPW (NewPoller cfg) w [] exports flushes).

Lemma polls_plan c todo : polls c todo -> plan [] c todo /\ Forall rival_ok todo.
Proof.
  intros (cfg & export_at & flush_at & ticks & exports & flushes & w & Ha & ->). split; [|apply poll_trace_ok].
  by apply poll_trace_plan.
Qed.

End plan.

(** ** Witness *)

#[local] Existing Instance id_codec.

(** A round, a turn at which the disk is too full, and a round when it has been
    relieved. *)
Definition disk (avail : Z) : option Statfs_t := Some (mkStatfs 100 4096 avail).

Definition three_ticks : list tick :=
  [mkTick (disk 100) false 100000 100000 100000 6; mkTick (disk 10) false 101000 101000 101000 7;
   mkTick (disk 50) false 102000 102000 102000 8].

Definition two_rounds : list rival := poll_trace two_lines no_flush bpNormal three_ticks 0 poller_start.

Example two_rounds_ops : map (fun a => match a with RivalAppend _ fbs => inl (length fbs) | RivalCursor _ ts => inr ts end) two_rounds =
  [inl 1%nat; inr 5000; inl 1%nat; inr 15000].
Proof. vm_compute. reflexivity. Qed.

(** The sender reads the log before the first call of the poller, acknowledges the
    first frame before the third, and reads again. *)
Definition three_visits : list (list visit) := [[VisitPeek 1]; []; [VisitCommit 7 1; VisitPeek 2]].

Lemma poller_is_its_trace_witness :
  exists s' evs, run_loop two_lines no_flush bpNormal three_ticks (mkPW (NewPoller default_config) fresh three_visits 0 0) =
      (Ok bpNormal, s') /\
    pw_wal s' = foldl event_run fresh evs /\ omap by_poller evs = two_rounds /\
    concat three_visits = omap by_sender evs ++ concat (pw_visits s').
Proof.
  destruct fresh_ok as [Hi Hr].
  apply (poller_is_its_trace two_lines no_flush default_config three_ticks fresh (mkLedger [] (mkQueue [] 1)) three_visits 0 0).
  - by split.
  - vm_compute. reflexivity.
Defined.
