(* ===== verification/TcpClient.v ===== *)
(** * The sender's TCP client ([internal/transport/tcp_client.go]).

    The network is modelled by what each call of the connection returns
    (a parameter of the state, so that every failure is a path of the model)
    and by what it leaves on the wire: per connection, the bytes written and
    the acknowledgement bytes read. *)
From S2P Require Import Prelude.
Local Open Scope Z_scope.
Local Open Scope go_scope.

(** ** Data *)

Record ClientConfig := mkCC { cc_Addr : bytes; cc_Timeout : Z; cc_DialTimeout : Z }.

(** Connections are numbered in the order they are dialled; [conn] is nil or
    the number of the open one. *)
Record Client := mkClient { c_cfg : ClientConfig; c_conn : option nat }.

Inductive terr : Type := ErrDial | ErrNotConnected | ErrWrite | ErrReadAck | ErrWriteFuel.

(** One [conn.Write(b)]: at most [n + 1] bytes of [b] and no error (a writer
    that reports no progress without an error breaks the contract of
    [io.Writer]), or an error after at most [n] bytes. *)
Inductive wr : Type := WrOk (n : nat) | WrErr (n : nat).

Record Net := mkNet {
  n_client : Client;
  n_dials : list bool;               (** results of [net.DialTimeout] *)
  n_writes : list wr;                (** results of [conn.Write] *)
  n_reads : list (option Z);         (** [io.ReadFull] of one byte *)
  n_count : nat;                     (** connections dialled so far *)
  n_sent : nat -> bytes;             (** bytes written, per connection *)
  n_acks : nat -> list Z }.          (** bytes read, per connection *)

Abbreviation T := (M Net terr).

Definition set_conn (o : option nat) (s : Net) : Net :=
  mkNet (mkClient (c_cfg (n_client s)) o) (n_dials s) (n_writes s) (n_reads s)
    (n_count s) (n_sent s) (n_acks s).
Definition at_conn {A} (c : nat) (f : A -> A) (m : nat -> A) : nat -> A :=
  fun d => if decide (d = c) then f (m d) else m d.
Definition push_sent (c : nat) (b : bytes) (s : Net) : Net :=
  mkNet (n_client s) (n_dials s) (n_writes s) (n_reads s) (n_count s)
    (at_conn c (fun l => l ++ b) (n_sent s)) (n_acks s).
Definition push_ack (c : nat) (b : Z) (s : Net) : Net :=
  mkNet (n_client s) (n_dials s) (n_writes s) (n_reads s) (n_count s)
    (n_sent s) (at_conn c (fun l => l ++ [b]) (n_acks s)).

(** [net.DialTimeout]; when the list is exhausted the peer accepts. *)
Definition next_dial : T bool := fun s =>
  match n_dials s with
  | [] => (Ok true, s)
  | b :: l => (Ok b, mkNet (n_client s) l (n_writes s) (n_reads s) (n_count s) (n_sent s) (n_acks s))
  end.
(** [conn.Write(b)]; when the list is exhausted everything is written. *)
Definition next_write (b : bytes) : T wr := fun s =>
  match n_writes s with
  | [] => (Ok (WrOk (length b)), s)
  | w :: l => (Ok w, mkNet (n_client s) (n_dials s) l (n_reads s) (n_count s) (n_sent s) (n_acks s))
  end.
(** [io.ReadFull(conn, buf)] with one byte of buffer: the byte, or an error; when
    the list is exhausted the read times out. *)
Definition next_read : T (option Z) := fun s =>
  match n_reads s with
  | [] => (Ok None, s)
  | r :: l => (Ok r, mkNet (n_client s) (n_dials s) (n_writes s) l (n_count s) (n_sent s) (n_acks s))
  end.
Definition new_conn (s : Net) : Net :=
  mkNet (mkClient (c_cfg (n_client s)) (Some (n_count s))) (n_dials s) (n_writes s) (n_reads s)
    (S (n_count s)) (n_sent s) (n_acks s).

(** ** Operations *)

Definition NewClient (cfg : ClientConfig) : Client :=
  let timeout := if cc_Timeout cfg <=? 0 then 10 * 1000000000 else cc_Timeout cfg in
  let dial := if cc_DialTimeout cfg <=? 0 then timeout else cc_DialTimeout cfg in
  mkClient (mkCC (cc_Addr cfg) timeout dial) None.

Definition conn : T (option nat) := gets (fun s => c_conn (n_client s)).

Definition closeLocked : T unit := modify (set_conn None).

Definition EnsureConnected : T unit :=
  o <- conn ;;
  match o with
  | Some _ => ret tt
  | None => ok <- next_dial ;; if ok : bool then modify new_conn else fail ErrDial
  end.

(** The loop of [SendFrame]; every turn writes at least one byte. *)
Fixpoint write_loop (fuel : nat) (c : nat) (rest : bytes) : T unit :=
  match rest with
  | [] => ret tt
  | _ =>
      match fuel with
      | O => fail ErrWriteFuel
      | S fuel' =>
          w <- next_write rest ;;
          match w with
          | WrErr n => modify (push_sent c (take n rest)) ;;; closeLocked ;;; fail ErrWrite
          | WrOk n =>
              modify (push_sent c (take (S n) rest)) ;;;
              write_loop fuel' c (drop (S n) rest)
          end
      end
  end.

Definition SendFrame (frameBytes : bytes) : T unit :=
  o <- conn ;;
  match o with
  | None => fail ErrNotConnected
  | Some c => write_loop (length frameBytes) c frameBytes
  end.

Definition WaitAck : T Z :=
  o <- conn ;;
  match o with
  | None => fail ErrNotConnected
  | Some c =>
      r <- next_read ;;
      match r with
      | None => closeLocked ;;; fail ErrReadAck
      | Some b => modify (push_ack c b) ;;; ret b
      end
  end.

Definition Close : T unit := closeLocked.

(** ** What stays on the wire *)

(** Nothing written or read is forgotten, and only connection [c] may change. *)
Definition wire_ext (s s' : Net) : Prop :=
  (n_count s <= n_count s')%nat /\
  forall d, (exists b, n_sent s' d = n_sent s d ++ b) /\ (exists l, n_acks s' d = n_acks s d ++ l).
#[export] Instance wire_ext_refl : Reflexive wire_ext.
Proof. intros s. split; [done|]. intros d. split; exists []; by rewrite app_nil_r. Qed.
#[export] Instance wire_ext_trans : Transitive wire_ext.
Proof.
  intros s1 s2 s3 [H1 Hd1] [H2 Hd2]. split; [lia|]. intros d.
  destruct (Hd1 d) as [[b1 E1] [l1 F1]], (Hd2 d) as [[b2 E2] [l2 F2]].
  split; [exists (b1 ++ b2)|exists (l1 ++ l2)]; by rewrite ?E2, ?F2, ?E1, ?F1, app_assoc.
Qed.

(** Numbers not dialled yet have carried nothing, and the open one is dialled. *)
Record net_ok (s : Net) : Prop := {
  no_fresh : forall d, (n_count s <= d)%nat -> n_sent s d = [] /\ n_acks s d = [];
  no_conn : forall c, c_conn (n_client s) = Some c -> (c < n_count s)%nat }.

(** Connection [d] has carried the same as before. *)
Definition same_wire (s s' : Net) : Prop :=
  forall d, n_sent s' d = n_sent s d /\ n_acks s' d = n_acks s d.

(** The wire after [b] more bytes were written on the connection [c]. *)
Definition wrote (c : nat) (b : bytes) (s s' : Net) : Prop :=
  n_sent s' c = n_sent s c ++ b /\ (forall d, d <> c -> n_sent s' d = n_sent s d) /\
  (forall d, n_acks s' d = n_acks s d) /\ n_count s' = n_count s.

Lemma at_conn_eq {A} c (f : A -> A) m : at_conn c f m c = f (m c).
Proof. unfold at_conn. by rewrite decide_True. Qed.
Lemma at_conn_ne {A} c d (f : A -> A) m : d <> c -> at_conn c f m d = m d.
Proof. intros. unfold at_conn. by rewrite decide_False. Qed.

Lemma wrote_push c b0 b s s' :
  wrote c b (push_sent c b0 s) s' -> wrote c (b0 ++ b) s s'.
Proof.
  intros (H1 & H2 & H3 & H4). unfold wrote in *. cbn in *. rewrite at_conn_eq in H1.
  rewrite app_assoc. split_and!; auto. intros d Hd. rewrite H2 by done. by apply at_conn_ne.
Qed.

Lemma wrote_refl c s : wrote c [] s s.
Proof. unfold wrote. by rewrite app_nil_r. Qed.

Lemma wp_next_write b Q s :
  (forall l w, Q (Ok w) (mkNet (n_client s) (n_dials s) l (n_reads s) (n_count s) (n_sent s) (n_acks s))) ->
  wp (next_write b) Q s.
Proof.
  intros H. unfold next_write, wp. destruct s as [cl d [|w l] r n se ac]; cbn in *; apply H.
Qed.

(** What [SendFrame] and its loop guarantee of the frame [fb]. *)
Definition sent_post (c : nat) (fb : bytes) (s : Net) (o : outcome terr unit) (s' : Net) : Prop :=
  n_reads s' = n_reads s /\
  match o with
  | Ok _ => c_conn (n_client s') = Some c /\ wrote c fb s s'
  | Err e => e = ErrWrite /\ c_conn (n_client s') = None /\
             exists b, b `prefix_of` fb /\ wrote c b s s'
  | Panic => False
  end.

Lemma write_loop_spec c fuel : forall rest s,
  (length rest <= fuel)%nat -> c_conn (n_client s) = Some c ->
  wp (write_loop fuel c rest) (sent_post c rest s) s.
Proof.
  induction fuel as [|fuel IH]; intros [|x rest] s Hf Hc; cbn in Hf; try lia.
  1,2: split; [done|]; split; [done|apply wrote_refl].
  cbn [write_loop]. wp_step. apply wp_next_write. intros l w. cbn [bind_post].
  destruct w as [n|n].
  - wp_steps. eapply wp_conseq.
    { apply IH; [rewrite length_drop; cbn; lia|done]. }
    intros o s' [Hr Ho]. split; [exact Hr|].
    apply (f_equal Some) in Hc. pose proof (take_drop (S n) (x :: rest)) as Hsp.
    destruct o as [[]|e|]; [| |done].
    + destruct Ho as [Ho Hw]. split; [done|]. apply wrote_push in Hw. by rewrite Hsp in Hw.
    + destruct Ho as (-> & Ho & b & Hb & Hw). split_and!; [done|done|].
      exists (take (S n) (x :: rest) ++ b). split; [|by apply wrote_push in Hw].
      rewrite <- Hsp at 2. by apply prefix_app.
  - unfold closeLocked. wp_steps. split; [done|]. split_and!; [done|done|].
    exists (take n (x :: rest)). split; [apply prefix_take|].
    unfold wrote. cbn -[take]. rewrite at_conn_eq. split_and!; try done.
    intros d Hd. by apply at_conn_ne.
Qed.

Lemma SendFrame_wire fb s :
  net_ok s -> wp (SendFrame fb) (fun o s' => net_ok s' /\
    match c_conn (n_client s) with
    | None => o = Err ErrNotConnected /\ s' = s
    | Some c => sent_post c fb s o s'
    end) s.
Proof.
  intros Hok. unfold SendFrame, conn. wp_steps. destruct (c_conn (n_client s)) as [c|] eqn:E; [|done].
  eapply wp_conseq; [by apply write_loop_spec|]. intros o s' [Hr Ho]. split; [|by split].
  pose proof (no_conn s Hok c E) as Hc.
  assert (Hext : exists b, wrote c b s s' /\ (c_conn (n_client s') = Some c \/ c_conn (n_client s') = None)).
  { destruct o as [[]|e|]; [destruct Ho|destruct Ho as (_ & ? & b & _ & ?)|done]; eauto. }
  destruct Hext as (b & (H1 & H2 & H3 & H4) & Hconn). destruct Hok as [Hfr _]. constructor.
  - intros d Hd. rewrite H4 in Hd. rewrite H2, H3 by lia. by apply Hfr.
  - intros d Hd. rewrite H4. destruct Hconn; congruence.
Qed.

(** Opening a connection leaves the wire alone; a new one has carried nothing. *)
Lemma EnsureConnected_wire s :
  net_ok s -> wp EnsureConnected (fun o s' => net_ok s' /\ same_wire s s' /\ wire_ext s s' /\
    match o with
    | Ok _ => exists c, c_conn (n_client s') = Some c /\
        (c_conn (n_client s) = Some c \/ (c_conn (n_client s) = None /\ n_sent s' c = [] /\ n_acks s' c = []))
    | Err e => e = ErrDial /\ c_conn (n_client s') = None
    | Panic => False
    end) s.
Proof.
  intros Hok. unfold EnsureConnected, conn. wp_steps.
  destruct (c_conn (n_client s)) as [c|] eqn:E; wp_steps.
  { split; [done|]. split; [done|]. split; [done|]. exists c. by auto. }
  assert (Hw : forall cl d w r n, (n_count s <= n)%nat -> wire_ext s (mkNet cl d w r n (n_sent s) (n_acks s))).
  { intros. split; [done|]. intros d'. split; exists []; cbn; by rewrite app_nil_r. }
  destruct Hok as [Hfr Hcn].
  assert (Hd : forall l (b : bool),
    wp (E := terr) (if b then modify new_conn else fail ErrDial) (fun o s' => net_ok s' /\ same_wire s s' /\
      wire_ext s s' /\
      match o with
      | Ok _ => exists c, c_conn (n_client s') = Some c /\
        (None = Some c \/ (@None nat = None /\ n_sent s' c = [] /\ n_acks s' c = []))
      | Err e => e = ErrDial /\ c_conn (n_client s') = None
      | Panic => False
      end) (mkNet (n_client s) l (n_writes s) (n_reads s) (n_count s) (n_sent s) (n_acks s))).
  { intros l []; wp_steps.
    - split; [constructor; cbn|]. { intros d Hd. apply Hfr. lia. } { intros c [= <-]. lia. }
      split; [done|]. split; [apply Hw; cbn; lia|]. exists (n_count s). split; [done|]. right.
      split; [done|]. by apply Hfr.
    - split; [by constructor|]. split; [done|]. split; [by apply Hw|]. done. }
  unfold next_dial, wp. destruct (n_dials s) as [|b l] eqn:El; cbn [fst snd bind_post].
  - specialize (Hd [] true). destruct s. cbn in *. by subst.
  - apply (Hd l b).
Qed.

Lemma WaitAck_wire s :
  net_ok s -> wp WaitAck (fun o s' => net_ok s' /\ wire_ext s s' /\
    match c_conn (n_client s) with
    | None => o = Err ErrNotConnected /\ s' = s
    | Some c => (forall d, n_sent s' d = n_sent s d) /\ (forall d, d <> c -> n_acks s' d = n_acks s d) /\
        match o with
        | Ok b => c_conn (n_client s') = Some c /\ n_acks s' c = n_acks s c ++ [b]
        | Err e => e = ErrReadAck /\ c_conn (n_client s') = None /\ n_acks s' c = n_acks s c
        | Panic => False
        end
    end) s.
Proof.
  intros Hok. unfold WaitAck, conn. wp_steps. destruct (c_conn (n_client s)) as [c|] eqn:E; [|done].
  pose proof (no_conn s Hok c E) as Hc. destruct Hok as [Hfr Hcn].
  assert (Hr : forall l o, wp (match o with
      | Some b => modify (push_ack c b);;; ret b
      | None => closeLocked;;; fail ErrReadAck end) (fun o s' => net_ok s' /\ wire_ext s s' /\
        (forall d, n_sent s' d = n_sent s d) /\ (forall d, d <> c -> n_acks s' d = n_acks s d) /\
        match o with
        | Ok b => c_conn (n_client s') = Some c /\ n_acks s' c = n_acks s c ++ [b]
        | Err e => e = ErrReadAck /\ c_conn (n_client s') = None /\ n_acks s' c = n_acks s c
        | Panic => False
        end) (mkNet (n_client s) (n_dials s) (n_writes s) l (n_count s) (n_sent s) (n_acks s))).
  { intros l [b|]; unfold closeLocked; wp_steps.
    - split; [constructor; cbn; [|done]|].
      { intros d Hd. rewrite at_conn_ne by lia. by apply Hfr. }
      split; [split; [done|]; intros d; split; [exists []; by rewrite app_nil_r|]|].
      { cbn. destruct (decide (d = c)) as [-> |]; [rewrite at_conn_eq; by eexists|].
        rewrite at_conn_ne by done. exists []. by rewrite app_nil_r. }
      split; [done|]. split; [intros d Hd; cbn; by rewrite at_conn_ne|]. split; [done|]. cbn. by rewrite at_conn_eq.
    - split; [by constructor|]. split; [|done]. split; [done|]. intros d. split; exists []; by rewrite app_nil_r. }
  wp_step. unfold next_read, wp at 1. destruct (n_reads s) as [|r l] eqn:El; cbn [fst snd bind_post].
  - specialize (Hr [] None). destruct s. cbn in *. by subst.
  - apply (Hr l r).
Qed.

(** [SendFrame] transmits a frame whole or gives the connection up. Whatever
    pieces the system accepts, the loop ends; on success exactly the bytes of the
    frame were added to the connection, which stays open; on failure a prefix of
    them was, and the connection is closed, so that no later frame can follow a
    torn one. No other connection is touched. *)
Theorem SendFrame_spec fb c s :
  c_conn (n_client s) = Some c -> wp (SendFrame fb) (sent_post c fb s) s.
Proof.
  intros Hc. unfold SendFrame, conn. wp_steps. rewrite Hc. by apply write_loop_spec.
Qed.

(** A client whose second connection is open, on a link that takes two bytes,
    then one, then fails. *)
Definition slow_net : Net :=
  mkNet (mkClient (mkCC [] 1 1) (Some 1%nat)) [] [WrOk 1; WrOk 0; WrErr 1] [] 2 (fun _ => []) (fun _ => []).

Lemma SendFrame_spec_witness :
  wp (SendFrame [1; 2; 3; 4; 5]) (sent_post 1 [1; 2; 3; 4; 5] slow_net) slow_net /\
  n_sent (snd (SendFrame [1; 2; 3; 4; 5] slow_net)) 1%nat = [1; 2; 3; 4] /\
  fst (SendFrame [1; 2; 3] slow_net) = Ok tt.
Proof. split; [by apply (SendFrame_spec [1; 2; 3; 4; 5] 1 slow_net)|]. by vm_compute. Defined.
