(* ===== verification/TcpServer.v ===== *)
(** * The receiver's TCP server ([internal/transport/tcp_server.go]).

    [handleConn] runs a reader, a writer of acknowledgements and one goroutine
    per frame; a connection is a transition system whose steps are the critical
    sections of these goroutines, in any interleaving.  A step that is a call of
    the frame handler carries it as its label. *)
From S2P Require Import Prelude Protocol WalDisk WalScan.
Local Open Scope Z_scope.

(** ** Configuration *)

Record ServerConfig := mkSC {
  sc_Listen : bytes; sc_ReadTimeout : Z; sc_MaxInflight : Z; sc_MaxConns : Z }.

Definition NewServer (cfg : ServerConfig) : ServerConfig :=
  mkSC (sc_Listen cfg)
    (if sc_ReadTimeout cfg <=? 0 then 60 * 1000000000 else sc_ReadTimeout cfg)
    (if sc_MaxInflight cfg <=? 0 then 8 else sc_MaxInflight cfg)
    (sc_MaxConns cfg).

(** ** The in-order writer *)

Record connPipeline := mkPipe { cp_next : Z; cp_results : gmap Z Z; cp_closed : bool }.

Definition newConnPipeline : connPipeline := mkPipe 0 ∅ false.

Definition setResult (idx ack : Z) (p : connPipeline) : connPipeline :=
  mkPipe (cp_next p) (<[idx := ack]> (cp_results p)) (cp_closed p).

(** [None] while the call waits; otherwise the acknowledgement, or the end. *)
Definition nextResult (idx : Z) (p : connPipeline) : option (option Z * connPipeline) :=
  match cp_results p !! idx with
  | Some ack => Some (Some ack, mkPipe (cp_next p) (delete idx (cp_results p)) (cp_closed p))
  | None => if cp_closed p then Some (None, p) else None
  end.

Definition close (p : connPipeline) : connPipeline := mkPipe (cp_next p) (cp_results p) true.

Definition advance (p : connPipeline) : connPipeline :=
  mkPipe (cp_next p + 1) (cp_results p) (cp_closed p).

(** [None] while the call waits. *)
Definition awaitInflight (idx max : Z) (p : connPipeline) : option bool :=
  if idx - cp_next p <? max then Some true
  else if cp_closed p then Some false else None.

(** ** Reading frames *)

Inductive read_result : Type :=
| RdShort                                  (** the stream ends inside a frame *)
| RdBad (e : perr)
| RdFrame (h : Header) (fb rest : bytes).

Definition read_frame (s : bytes) : read_result :=
  if len s <? HeaderSize then RdShort
  else
    match ParseHeader (slice s 0 HeaderSize) with
    | Ok h =>
        let n := HeaderSize + h_Length h in
        if len s <? n then RdShort
        else RdFrame h (take (Z.to_nat n) s) (drop (Z.to_nat n) s)
    | Err e => RdBad e
    | Panic => RdShort
    end.

(** The index of a frame among the data frames of its connection, and the next. *)
Definition frame_index (h : Header) (dataIdx : Z) : Z * Z :=
  if (h_Type h =? TypeData) || (h_Type h =? TypeDataZstd)
  then (dataIdx, u64 (dataIdx + 1)) else (0, dataIdx).

(** ** One connection *)

Inductive reader : Type := Reading | Waiting (fidx : Z) (fb : bytes) | BadHead | ReaderDone.
Inductive writer : Type := Awaiting | Holding (ack : Z) | Written | WriterDone.

Record ConnState := mkConn {
  k_pipe : connPipeline;
  k_input : bytes;                 (** what the peer has sent and is not read yet *)
  k_reader : reader;
  k_idx : Z;
  k_dataIdx : Z;
  k_running : gmap Z (Z * bytes);  (** the handler goroutines *)
  k_writer : writer;
  k_widx : Z;                      (** [idx] of the writer goroutine *)
  k_out : list Z;                  (** the acknowledgements written *)
  k_frames : list (Z * bytes);     (** history: the frames given to handlers *)
  k_done : gmap Z Z }.             (** history: what the handlers answered *)

Definition conn_start (input : bytes) : ConnState :=
  mkConn newConnPipeline input Reading 0 0 ∅ Awaiting 0 [] [] ∅.

(** A call of the frame handler. *)
Record call := mkCall { call_fidx : Z; call_fb : bytes; call_ack : Z }.

Inductive conn_step (max : Z) : ConnState -> option call -> ConnState -> Prop :=
(** the reader takes a frame off the stream *)
| step_read p i idx d run w wi out fs dn h fb rest fidx d' :
    read_frame i = RdFrame h fb rest -> frame_index h d = (fidx, d') ->
    conn_step max (mkConn p i Reading idx d run w wi out fs dn) None
      (mkConn p rest (Waiting fidx fb) idx d' run w wi out fs dn)
(** a bad header *)
| step_bad p i idx d run w wi out fs dn e :
    read_frame i = RdBad e ->
    conn_step max (mkConn p i Reading idx d run w wi out fs dn) None
      (mkConn p i BadHead idx d run w wi out fs dn)
(** ... is answered at once, whether or not the write succeeds, and the reader returns *)
| step_nack p i idx d run w wi out fs dn (ok : bool) :
    conn_step max (mkConn p i BadHead idx d run w wi out fs dn) None
      (mkConn (close p) i ReaderDone idx d run w wi (if ok then out ++ [AckFail] else out) fs dn)
(** the stream ends, a read times out, or the server stops *)
| step_stop p i idx d run w wi out fs dn :
    conn_step max (mkConn p i Reading idx d run w wi out fs dn) None
      (mkConn (close p) i ReaderDone idx d run w wi out fs dn)
(** a place in the window: a handler goroutine starts *)
| step_spawn p i idx d run w wi out fs dn fidx fb :
    awaitInflight idx max p = Some true ->
    conn_step max (mkConn p i (Waiting fidx fb) idx d run w wi out fs dn) None
      (mkConn p i Reading (idx + 1) d (<[idx := (fidx, fb)]> run) w wi out (fs ++ [(fidx, fb)]) dn)
| step_refuse p i idx d run w wi out fs dn fidx fb :
    awaitInflight idx max p = Some false ->
    conn_step max (mkConn p i (Waiting fidx fb) idx d run w wi out fs dn) None
      (mkConn (close p) i ReaderDone idx d run w wi out fs dn)
(** a handler answers *)
| step_handle p i r idx d run w wi out fs dn j fidx fb ack :
    run !! j = Some (fidx, fb) ->
    conn_step max (mkConn p i r idx d run w wi out fs dn) (Some (mkCall fidx fb ack))
      (mkConn (setResult j ack p) i r idx d (delete j run) w wi out fs (<[j := ack]> dn))
(** the writer obtains the next result, or learns that there will be none *)
| step_next p i r idx d run wi out fs dn ack p' :
    nextResult wi p = Some (Some ack, p') ->
    conn_step max (mkConn p i r idx d run Awaiting wi out fs dn) None
      (mkConn p' i r idx d run (Holding ack) wi out fs dn)
| step_end p i r idx d run wi out fs dn p' :
    nextResult wi p = Some (None, p') ->
    conn_step max (mkConn p i r idx d run Awaiting wi out fs dn) None
      (mkConn p' i r idx d run WriterDone wi out fs dn)
| step_write p i r idx d run wi out fs dn ack :
    conn_step max (mkConn p i r idx d run (Holding ack) wi out fs dn) None
      (mkConn p i r idx d run Written wi (out ++ [ack]) fs dn)
| step_write_fail p i r idx d run wi out fs dn ack :
    conn_step max (mkConn p i r idx d run (Holding ack) wi out fs dn) None
      (mkConn (close p) i r idx d run WriterDone wi out fs dn)
| step_advance p i r idx d run wi out fs dn :
    conn_step max (mkConn p i r idx d run Written wi out fs dn) None
      (mkConn (advance p) i r idx d run Awaiting (wi + 1) out fs dn).

(** Any number of steps, in which every answer of the handler satisfies [ok]. *)
Definition conn_run (max : Z) (ok : call -> Prop) : relation ConnState :=
  rtc (fun s s' => exists l, conn_step max s l s' /\ forall c, l = Some c -> ok c).

(** ** Framing *)

(** The indexes the frames of a stream get. *)
Fixpoint tag (d : Z) (fbs : list bytes) : list (Z * bytes) :=
  match fbs with
  | [] => []
  | fb :: rest =>
      if (frame_typ fb =? TypeData) || (frame_typ fb =? TypeDataZstd)
      then (d, fb) :: tag (u64 (d + 1)) rest else (0, fb) :: tag d rest
  end.

Lemma tag_frames fbs : forall d, map snd (tag d fbs) = fbs.
Proof. induction fbs as [|fb fbs IH]; intros d; cbn; [done|]. destruct (_ || _); cbn; by rewrite IH. Qed.

Lemma read_frame_app fb rest : wf_frame fb ->
  exists h, read_frame (fb ++ rest) = RdFrame h fb rest /\ h_Type h = frame_typ fb.
Proof.
  intros Hwf. destruct (wf_frame_header fb Hwf) as (h & Hp & Hl & Hb & _ & Ht & Hf).
  exists h. split; [|done]. unfold read_frame. rewrite len_app.
  rewrite slice_app_l by (unfold HeaderSize in *; lia). rewrite Hp, <- Hl.
  destruct (Z.ltb_spec (len fb + len rest) HeaderSize); [zlia|].
  destruct (Z.ltb_spec (len fb + len rest) (len fb)); [zlia|].
  unfold len. by rewrite Nat2Z.id, take_app_length, drop_app_length.
Qed.

Lemma read_frame_torn fb torn : wf_frame fb -> torn `prefix_of` fb -> torn <> fb ->
  read_frame torn = RdShort.
Proof.
  intros Hwf [rest ->] Hne. destruct (wf_frame_header _ Hwf) as (h & Hp & Hl & Hb & _ & Ht & Hf).
  unfold read_frame. destruct (Z.ltb_spec (len torn) HeaderSize); [done|].
  rewrite slice_app_l in Hp by (unfold HeaderSize in *; lia). rewrite Hp, <- Hl, len_app.
  destruct (Z.ltb_spec (len torn) (len torn + len rest)); [done|].
  exfalso. apply Hne. rewrite (len_zero_nil rest); [by rewrite app_nil_r|]. zlia.
Qed.


(** ** The invariant of a connection *)

(** Results the writer has taken, and acknowledgements it has written. *)
Definition taken (st : ConnState) : Z :=
  k_widx st + match k_writer st with Holding _ | Written => 1 | _ => 0 end.
Definition written (st : ConnState) : Z :=
  k_widx st + match k_writer st with Written => 1 | _ => 0 end.

(** The bytes on the wire: the answers in order, into which the reader may have
    inserted the one that refuses a bad header. *)
Definition out_shape (st : ConnState) (good : list Z) : Prop :=
  k_out st = good \/
  (k_reader st = ReaderDone /\
   exists l1 l2, good = l1 ++ l2 /\ k_out st = l1 ++ AckFail :: l2).

Record conn_inv (max : Z) (st : ConnState) : Prop := {
  ci_idx : k_idx st = len (k_frames st);
  ci_widx : cp_next (k_pipe st) = k_widx st /\ 0 <= k_widx st /\ taken st <= k_idx st;
  ci_window : k_idx st - k_widx st <= max;
  ci_running : forall j x, k_running st !! j = Some x ->
    taken st <= j < k_idx st /\ k_frames st !! Z.to_nat j = Some x /\ k_done st !! j = None;
  ci_results : forall j a, cp_results (k_pipe st) !! j = Some a ->
    taken st <= j < k_idx st /\ k_done st !! j = Some a;
  ci_done : forall j a, k_done st !! j = Some a -> 0 <= j < k_idx st;
  ci_all : k_writer st <> WriterDone -> forall j, taken st <= j < k_idx st ->
    is_Some (k_running st !! j) \/ is_Some (cp_results (k_pipe st) !! j);
  ci_holding : forall a, k_writer st = Holding a -> k_done st !! k_widx st = Some a;
  ci_out : exists good, out_shape st good /\ len good = written st /\
    forall j a, good !! j = Some a -> k_done st !! Z.of_nat j = Some a }.

Lemma conn_start_inv max input : 0 <= max -> conn_inv max (conn_start input).
Proof.
  intros Hm. constructor; cbn; unfold taken, written; cbn; try (intros; simplify_map_eq; lia).
  - done.
  - exists []. split; [by left|]. split; [done|]. intros j a. by rewrite lookup_nil.
Qed.

Lemma awaitInflight_true idx max p : awaitInflight idx max p = Some true -> idx - cp_next p < max.
Proof. unfold awaitInflight. destruct (Z.ltb_spec (idx - cp_next p) max); [done|]. by destruct (cp_closed p). Qed.

(** The steps of the reader and the closing of the pipeline do not concern the
    invariant. *)
Lemma conn_inv_reader max p p' i i' r r' idx d d' run w wi out fs dn :
  r <> ReaderDone -> cp_next p' = cp_next p -> cp_results p' = cp_results p ->
  conn_inv max (mkConn p i r idx d run w wi out fs dn) ->
  conn_inv max (mkConn p' i' r' idx d' run w wi out fs dn).
Proof.
  intros Hr Hn Hp [H1 H2 H3 H4 H5 H6 H7 H8 (good & Ho & Hg)].
  constructor; cbn in *; rewrite ?Hn, ?Hp; try done. exists good. split; [|done].
  destruct Ho as [Ho|[Ho _]]; [by left|done].
Qed.

Lemma conn_inv_handle max p i r idx d run w wi out fs dn j fidx fb ack :
  run !! j = Some (fidx, fb) ->
  conn_inv max (mkConn p i r idx d run w wi out fs dn) ->
  conn_inv max (mkConn (setResult j ack p) i r idx d (delete j run) w wi out fs (<[j := ack]> dn)).
Proof.
  intros Hj [H1 H2 H3 H4 H5 H6 H7 H8 (good & Ho & Hl & Hg)]. unfold taken, written in *. cbn in *.
  destruct (H4 j _ Hj) as (Hr & _ & Hd).
  assert (Hk : forall k a, dn !! k = Some a -> <[j := ack]> dn !! k = Some a).
  { intros k a Hk. rewrite lookup_insert_ne; [done|]. intros <-. congruence. }
  constructor; unfold taken, written; cbn; try done.
  - intros k x [Hne Hk']%lookup_delete_Some. destruct (H4 k x Hk') as (? & ? & ?).
    by rewrite lookup_insert_ne.
  - intros k a [[<- <-]|[Hne Hk']]%lookup_insert_Some; [by rewrite lookup_insert_eq|].
    destruct (H5 k a Hk'). auto.
  - intros k a [[<- <-]|[Hne Hk']]%lookup_insert_Some; [destruct w; lia|eauto].
  - intros Hw k Hk'. destruct (decide (k = j)) as [-> |Hne].
    + right. rewrite lookup_insert_eq. eauto.
    + rewrite lookup_delete_ne, lookup_insert_ne by done. by apply H7.
  - intros a Ha. auto.
  - exists good. auto.
Qed.

Lemma conn_inv_next max p i r idx d run wi out fs dn ack p' :
  nextResult wi p = Some (Some ack, p') ->
  conn_inv max (mkConn p i r idx d run Awaiting wi out fs dn) ->
  conn_inv max (mkConn p' i r idx d run (Holding ack) wi out fs dn).
Proof.
  intros Hn [H1 H2 H3 H4 H5 H6 H7 H8 (good & Ho & Hl & Hg)]. unfold taken, written in *. cbn in *.
  unfold nextResult in Hn. destruct (cp_results p !! wi) as [a0|] eqn:E; [|by destruct (cp_closed p)].
  injection Hn as <- <-. destruct (H5 _ _ E) as [Hr Hd].
  constructor; unfold taken, written; cbn; try done.
  - split; [tauto|]. lia.
  - intros j x Hj. destruct (H4 j x Hj) as (? & ? & Hnone).
    assert (j <> wi) by congruence. split; [lia|done].
  - intros j a [Hne Hj]%lookup_delete_Some. destruct (H5 j a Hj). split; [lia|done].
  - intros _ j Hj. rewrite lookup_delete_ne by lia. apply H7; [done|lia].
  - by intros a [= <-].
  - exists good. auto.
Qed.

Lemma conn_inv_write max p i r idx d run wi out fs dn ack :
  conn_inv max (mkConn p i r idx d run (Holding ack) wi out fs dn) ->
  conn_inv max (mkConn p i r idx d run Written wi (out ++ [ack]) fs dn).
Proof.
  intros [H1 H2 H3 H4 H5 H6 H7 H8 (good & Ho & Hl & Hg)]. unfold taken, written in *. cbn in *.
  constructor; unfold taken, written; cbn; try done.
  { intros _. by apply H7. }
  exists (good ++ [ack]). split; [|split].
  - destruct Ho as [Ho|(Hrd & l1 & l2 & Hgd & Ho)]; cbn in *; [left|right]; cbn; [by rewrite Ho|].
    split; [done|]. exists l1, (l2 ++ [ack]). by rewrite Hgd, Ho, <- !app_assoc.
  - zlia.
  - intros j a [Hj|[Hge Hj]]%lookup_app_Some; [auto|].
    apply list_lookup_singleton_Some in Hj as [Hz <-].
    replace (Z.of_nat j) with wi by (unfold len in Hl; lia). auto.
Qed.

(** A handler is started in its place of the window. *)
Lemma conn_inv_spawn max p i idx d run w wi out fs dn fidx fb :
  awaitInflight idx max p = Some true ->
  conn_inv max (mkConn p i (Waiting fidx fb) idx d run w wi out fs dn) ->
  conn_inv max (mkConn p i Reading (idx + 1) d (<[idx := (fidx, fb)]> run) w wi out (fs ++ [(fidx, fb)]) dn).
Proof.
  intros H%awaitInflight_true Hi.
  destruct Hi as [H1 H2 H3 H4 H5 H6 H7 H8 (good & Ho & Hg)].
  unfold taken, written in *. constructor; cbn in *; unfold taken, written; cbn.
  - rewrite len_app, H1. done.
  - lia.
  - lia.
  - intros j x [[<- <-]|[Hne Hj]]%lookup_insert_Some.
    + split; [lia|]. split; [|destruct (dn !! idx) eqn:E; [apply H6 in E; lia|done]].
      rewrite H1. unfold len. by rewrite Nat2Z.id, lookup_app_r, Nat.sub_diag by lia.
    + destruct (H4 j x Hj) as (Hr & Hf & Hd). split; [lia|]. split; [|done].
      by apply lookup_app_l_Some.
  - intros j a Hj. destruct (H5 j a Hj). split; [lia|done].
  - intros j a Hj. specialize (H6 j a Hj). lia.
  - intros Hw j Hj. destruct (decide (j = idx)) as [-> |Hne].
    { left. by rewrite lookup_insert_eq. }
    rewrite lookup_insert_ne by done. apply H7; [done|lia].
  - done.
  - exists good. split; [|done]. destruct Ho as [Ho|[Ho _]]; [by left|done].
Qed.

Lemma conn_step_inv max st l st' : conn_step max st l st' -> conn_inv max st -> conn_inv max st'.
Proof.
  intros Hs Hi. destruct Hs.
  - eapply conn_inv_reader, Hi; done.
  - eapply conn_inv_reader, Hi; done.
  - destruct ok; [|eapply conn_inv_reader, Hi; done].
    destruct Hi as [H1 H2 H3 H4 H5 H6 H7 H8 (good & Ho & Hg)].
    constructor; cbn in *; try done. exists good. split; [|done].
    destruct Ho as [Ho|[Ho _]]; [right|done]. cbn in *. split; [done|].
    exists good, []. by rewrite app_nil_r, Ho.
  - eapply conn_inv_reader, Hi; done.
  - by apply conn_inv_spawn.
  - eapply conn_inv_reader, Hi; done.
  - by apply conn_inv_handle with (fidx := fidx) (fb := fb).
  - by apply conn_inv_next with (p := p).
  - destruct Hi as [H1 H2 H3 H4 H5 H6 H7 H8 Ho]. unfold nextResult in H.
    destruct (cp_results p !! wi); [done|]. destruct (cp_closed p); [|done]. injection H as <-.
    constructor; try done; by unfold taken, written in *.
  - by apply conn_inv_write.
  - destruct Hi as [H1 H2 H3 H4 H5 H6 H7 H8 Ho]. unfold taken, written in *. cbn in *.
    constructor; unfold taken, written; cbn; try done; try lia.
    + intros j x Hj. destruct (H4 j x Hj). split; [lia|done].
    + intros j a Hj. destruct (H5 j a Hj). split; [lia|done].
  - destruct Hi as [H1 H2 H3 H4 H5 H6 H7 H8 Ho]. unfold taken, written in *. cbn in *.
    constructor; unfold taken, written; cbn; try done; try lia.
    + intros j x Hj. destruct (H4 j x Hj). split; [lia|done].
    + intros j a Hj. destruct (H5 j a Hj). split; [lia|done].
    + intros _ j Hj. apply H7; [done|lia].
    + destruct Ho as (good & Ho & Hl & Hg). exists good. unfold out_shape in *. cbn in *.
      split; [done|]. split; [lia|done].
Qed.

Lemma conn_run_inv max ok input st :
  0 <= max -> conn_run max ok (conn_start input) st -> conn_inv max st.
Proof.
  intros Hm Hr. eapply (rtc_invariant _ (conn_inv max)); [|by apply conn_start_inv|exact Hr].
  intros a b Ha (l & Hs & _). by eapply conn_step_inv.
Qed.

(** As many handlers as there are numbers from [lo] to [hi]. *)
Lemma size_between {A} (m : gmap Z A) lo hi :
  lo <= hi -> (forall j x, m !! j = Some x -> lo <= j < hi) -> Z.of_nat (size m) <= hi - lo.
Proof.
  intros Hle Hm. rewrite <- size_dom.
  assert (dom m ⊆ list_to_set (C := gset Z) (seqZ lo (hi - lo))) as Hs.
  { intros j [x Hj]%elem_of_dom. apply elem_of_list_to_set, elem_of_seqZ.
    specialize (Hm j x Hj). lia. }
  apply subseteq_size in Hs. rewrite size_list_to_set in Hs by apply NoDup_seqZ.
  rewrite length_seqZ in Hs. lia.
Qed.

(** ** Properties *)

(** C19: the acknowledgements come in the order of the frames, whatever the order
    in which the handlers finish. For every stream and every interleaving, at
    most [max] handlers run; as long as the reader is active the j-th byte
    written is the answer to the j-th frame read; and even when the refusal of a
    bad header has been written among them, a run of 0xff from the beginning
    answers the frames it seems to answer. *)
Theorem acks_in_order max ok input st :
  0 <= max -> conn_run max ok (conn_start input) st ->
  Z.of_nat (size (k_running st)) <= max /\
  (k_reader st <> ReaderDone -> forall j a, k_out st !! j = Some a ->
    k_done st !! Z.of_nat j = Some a /\ (j < length (k_frames st))%nat) /\
  (forall j, (forall i, (i <= j)%nat -> k_out st !! i = Some AckSuccess) ->
    k_done st !! Z.of_nat j = Some AckSuccess /\ (j < length (k_frames st))%nat).
Proof.
  intros Hm Hr. apply conn_run_inv in Hr as [H1 (_ & H2 & H2') H3 H4 _ H6 _ _ (good & Ho & _ & Hg)]; [|done].
  assert (Hd : forall j a, good !! j = Some a ->
    k_done st !! Z.of_nat j = Some a /\ (j < length (k_frames st))%nat).
  { intros j a Hj. specialize (Hg j a Hj). split; [done|]. specialize (H6 _ _ Hg).
    rewrite H1 in H6. unfold len in H6. lia. }
  split_and!.
  - etrans; [|exact H3]. apply (size_between _ (k_widx st)).
    + unfold taken in H2'. destruct (k_writer st); lia.
    + intros j x Hj. destruct (H4 j x Hj) as [Hj' _]. unfold taken in Hj'. destruct (k_writer st); lia.
  - intros Hrd j a Hj. destruct Ho as [Ho|[Ho _]]; [|done]. apply Hd. by rewrite <- Ho.
  - intros j Hj. destruct Ho as [Ho|(_ & l1 & l2 & -> & Ho)].
    + apply Hd. rewrite <- Ho. by apply Hj.
    + apply Hd. specialize (Hj j) as Hjj. rewrite Ho in Hjj, Hj. specialize (Hjj (le_n j)).
      destruct (decide (j < length l1)%nat) as [Hl|Hl].
      * rewrite lookup_app_l in Hjj |- * by done. done.
      * specialize (Hj (length l1)). rewrite list_lookup_middle in Hj by done.
        by specialize (Hj ltac:(lia)).
Qed.

(** The work the writer has left. *)
Definition to_write (st : ConnState) : Z :=
  3 * (k_idx st - k_widx st) -
  match k_writer st with Holding _ => 1 | Written => 2 | _ => 0 end.

Lemma conn_one max ok s l s' : conn_step max s l s' -> (forall c, l = Some c -> ok c) -> conn_run max ok s s'.
Proof. intros. apply rtc_once. eauto. Qed.

Lemma drain max (ans : Z -> bytes -> Z) n : forall st,
  conn_inv max st -> k_writer st <> WriterDone -> to_write st <= Z.of_nat n ->
  exists st', conn_run max (fun c => call_ack c = ans (call_fidx c) (call_fb c)) st st' /\
    k_frames st' = k_frames st /\ k_reader st' = k_reader st /\ k_input st' = k_input st /\
    k_writer st' = Awaiting /\ k_widx st' = k_idx st' /\ k_idx st' = k_idx st.
Proof.
  induction n as [|n IH]; intros st Hi Hw Hn.
  - exists st. split; [apply rtc_refl|]. pose proof (ci_widx _ _ Hi) as (_ & H0 & Ht).
    unfold to_write, taken in *. destruct (k_writer st); try done; try lia.
    do 4 (split; [done|]). split; [lia|done].
  - destruct (decide (to_write st <= Z.of_nat n)) as [Hle|Hgt]; [by apply IH|].
    assert (Hgo : forall st1, conn_run max (fun c => call_ack c = ans (call_fidx c) (call_fb c)) st st1 ->
      conn_inv max st1 -> k_writer st1 <> WriterDone -> to_write st1 < to_write st ->
      k_frames st1 = k_frames st -> k_reader st1 = k_reader st -> k_input st1 = k_input st ->
      k_idx st1 = k_idx st -> exists st', conn_run max (fun c => call_ack c = ans (call_fidx c) (call_fb c)) st st' /\
        k_frames st' = k_frames st /\ k_reader st' = k_reader st /\ k_input st' = k_input st /\
        k_writer st' = Awaiting /\ k_widx st' = k_idx st' /\ k_idx st' = k_idx st).
    { intros st1 Hr Hi1 Hw1 Hlt E1 E2 E3 E4. destruct (IH st1 Hi1 Hw1 ltac:(lia)) as (st' & Hr' & Hrest).
      exists st'. rewrite <- E1, <- E2, <- E3, <- E4. split; [by etrans|done]. }
    destruct st as [p i r idx d run w wi out fs dn]. pose proof (ci_widx _ _ Hi) as (_ & H0 & Ht).
    unfold to_write, taken in *. cbn in *. destruct w as [|a| |]; [| | |done].
    + destruct (ci_all _ _ Hi Hw wi) as [[[fidx fb] Hj]|[a Hj]]; cbn in *; [unfold taken; cbn; lia| |].
      * pose proof (step_handle max p i r idx d run Awaiting wi out fs dn wi fidx fb (ans fidx fb) Hj) as Hs1.
        assert (Hn' : nextResult wi (setResult wi (ans fidx fb) p) =
          Some (Some (ans fidx fb), mkPipe (cp_next p) (delete wi (<[wi := ans fidx fb]> (cp_results p))) (cp_closed p))).
        { unfold nextResult, setResult. cbn. by rewrite lookup_insert_eq. }
        pose proof (step_next max _ i r idx d (delete wi run) wi out fs (<[wi := ans fidx fb]> dn) _ _ Hn') as Hs2.
        eapply Hgo; [etrans; [eapply conn_one; [exact Hs1|by intros c [= <-]]|
                              eapply conn_one; [exact Hs2|done]]| |done|cbn; lia|done|done|done|done].
        eapply conn_step_inv; [exact Hs2|]. by eapply conn_step_inv.
      * assert (Hn' : nextResult wi p = Some (Some a, mkPipe (cp_next p) (delete wi (cp_results p)) (cp_closed p))).
        { unfold nextResult. by rewrite Hj. }
        pose proof (step_next max _ i r idx d run wi out fs dn _ _ Hn') as Hs2.
        eapply Hgo; [eapply conn_one; [exact Hs2|done]| |done|cbn; lia|done|done|done|done].
        by eapply conn_step_inv.
    + pose proof (step_write max p i r idx d run wi out fs dn a) as Hs.
      eapply Hgo; [eapply conn_one; [exact Hs|done]| |done|cbn; lia|done|done|done|done].
      by eapply conn_step_inv.
    + pose proof (step_advance max p i r idx d run wi out fs dn) as Hs.
      eapply Hgo; [eapply conn_one; [exact Hs|done]| |done|cbn; lia|done|done|done|done].
      by eapply conn_step_inv.
Qed.

(** C30: a connection does not get stuck. From every reachable state in which the
    writer is alive, whatever the handlers answer as long as they return, the
    connection can go on until every frame that was read has its
    acknowledgement on the wire, and then a frame that waits for a place in the
    window gets one. *)
Theorem connection_drains max ok input st ans :
  1 <= max -> conn_run max ok (conn_start input) st -> k_writer st <> WriterDone ->
  exists st', conn_run max (fun c => call_ack c = ans (call_fidx c) (call_fb c)) st st' /\
    k_frames st' = k_frames st /\ k_reader st' = k_reader st /\
    len (k_frames st) <= len (k_out st') /\
    awaitInflight (k_idx st') max (k_pipe st') = Some true.
Proof.
  intros Hm Hr Hw. apply conn_run_inv in Hr; [|lia].
  destruct (drain max ans (Z.to_nat (to_write st)) st Hr Hw ltac:(lia))
    as (st' & Hrun & Hf & Hrd & _ & Haw & Hidx & Hidx').
  exists st'. split_and!; try done.
  - assert (conn_inv max st') as Hi.
    { eapply (rtc_invariant _ (conn_inv max)); [|exact Hr|exact Hrun].
      intros a b Ha (l & Hs & _). by eapply conn_step_inv. }
    destruct (ci_out _ _ Hi) as (good & Ho & Hl & _). unfold written in Hl. rewrite Haw in Hl.
    rewrite <- (ci_idx _ _ Hr), <- Hidx'. rewrite <- Hidx. replace (k_widx st') with (len good) by lia.
    destruct Ho as [Ho|(_ & l1 & l2 & -> & Ho)]; rewrite Ho; zlia.
  - assert (conn_inv max st') as Hi.
    { eapply (rtc_invariant _ (conn_inv max)); [|exact Hr|exact Hrun].
      intros a b Ha (l & Hs & _). by eapply conn_step_inv. }
    unfold awaitInflight. pose proof (ci_widx _ _ Hi) as (-> & _). rewrite Hidx.
    destruct (Z.ltb_spec (k_idx st' - k_idx st') max); [done|lia].
Qed.

(** What is left of a stream of valid frames. *)
Definition stream_inv (fbs : list bytes) (torn : bytes) (st : ConnState) : Prop :=
  match k_reader st with
  | BadHead => False
  | ReaderDone => True
  | _ => exists rest, k_input st = concat rest ++ torn /\ Forall wf_frame rest /\
      tag 0 fbs = k_frames st ++
        match k_reader st with Waiting fidx fb => [(fidx, fb)] | _ => [] end ++ tag (k_dataIdx st) rest
  end /\ k_frames st `prefix_of` tag 0 fbs /\
  len (k_out st) = written st.

Lemma frame_index_tag h d fb rest fidx d' :
  h_Type h = frame_typ fb -> frame_index h d = (fidx, d') -> tag d (fb :: rest) = (fidx, fb) :: tag d' rest.
Proof. unfold frame_index. cbn. intros <-. by destruct (_ || _); intros [= <- <-]. Qed.

Lemma stream_inv_step max fbs torn st l st' :
  read_frame torn = RdShort -> conn_step max st l st' -> stream_inv fbs torn st -> stream_inv fbs torn st'.
Proof.
  intros Ht Hs (Hin & Hp & Ho). unfold stream_inv, written in *.
  destruct Hs; cbn in *; try done; try (split; [done|split; [done|zlia]]).
  - destruct Hin as (fs' & -> & Hwf & Htag). destruct fs' as [|fb' fs'].
    { cbn in H. by rewrite Ht in H. }
    inversion Hwf as [|? ? Hfb Hwf']; subst. cbn [concat] in H. rewrite <- app_assoc in H.
    destruct (read_frame_app fb' (concat fs' ++ torn) Hfb) as (h' & Hrd & Hty).
    rewrite Hrd in H. injection H as <- <- <-. split; [|done].
    exists fs'. split; [done|]. split; [done|]. cbn [app] in Htag.
    by rewrite (frame_index_tag h' d fb' fs' fidx d') in Htag.
  - destruct Hin as (fs' & -> & Hwf & _). exfalso. destruct fs' as [|fb' fs'].
    { cbn in H. by rewrite Ht in H. }
    inversion Hwf as [|? ? Hfb Hwf']; subst. cbn [concat] in H. rewrite <- app_assoc in H.
    destruct (read_frame_app fb' (concat fs' ++ torn) Hfb) as (h' & Hrd & _). congruence.
  - destruct Hin as (fs' & -> & Hwf & Htag). split; [|split; [|done]].
    + exists fs'. split; [done|]. split; [done|]. by rewrite <- app_assoc.
    + rewrite Htag. eexists. by rewrite <- app_assoc.
Qed.

Lemma conn_start_stream fbs torn : Forall wf_frame fbs -> stream_inv fbs torn (conn_start (concat fbs ++ torn)).
Proof.
  intros Hwf. split; [|split; [apply prefix_nil|done]]. cbn. by exists fbs.
Qed.

(** An exact output is the sequence of the answers. *)
Lemma exact_answers max st : conn_inv max st -> len (k_out st) = written st ->
  forall j a, k_out st !! j = Some a -> k_done st !! Z.of_nat j = Some a /\ (j < length (k_frames st))%nat.
Proof.
  intros Hi Hl j a Hj. destruct (ci_out _ _ Hi) as (good & Ho & Hgl & Hg).
  assert (k_out st = good) as Hgood.
  { destruct Ho as [Ho|(_ & l1 & l2 & -> & Ho)]; [done|]. rewrite Ho in Hl. zlia. }
  subst good. specialize (Hg j a Hj). split; [done|].
  pose proof (ci_done _ _ Hi _ _ Hg) as Hd. rewrite (ci_idx _ _ Hi) in Hd. unfold len in Hd. lia.
Qed.

Lemma conn_run_stream max ok fbs torn st :
  0 <= max -> Forall wf_frame fbs -> read_frame torn = RdShort ->
  conn_run max ok (conn_start (concat fbs ++ torn)) st -> conn_inv max st /\ stream_inv fbs torn st.
Proof.
  intros Hm Hwf Ht Hr. split; [by eapply conn_run_inv|].
  eapply (rtc_invariant _ (stream_inv fbs torn)); [|by apply conn_start_stream|exact Hr].
  intros a b Ha (l & Hs & _). by eapply stream_inv_step.
Qed.

(** The server reads what the client wrote. On a stream of valid frames, cut
    anywhere, the handlers are called on exactly the frames that were sent, in
    their order, with their numbers among the data frames, no header is ever
    found bad, and the j-th byte written back is always the answer to the j-th
    frame. *)
Theorem frames_in_order max ok fbs fb torn st :
  0 <= max -> Forall wf_frame fbs -> wf_frame fb -> torn `prefix_of` fb -> torn <> fb ->
  conn_run max ok (conn_start (concat fbs ++ torn)) st ->
  k_frames st `prefix_of` tag 0 fbs /\ k_reader st <> BadHead /\
  (forall j a, k_out st !! j = Some a ->
     k_done st !! Z.of_nat j = Some a /\ (j < length (k_frames st))%nat).
Proof.
  intros Hm Hwf Hfb Hpre Hne Hr.
  destruct (conn_run_stream max ok fbs torn st Hm Hwf (read_frame_torn fb torn Hfb Hpre Hne) Hr)
    as [Hi (Hin & Hp & Ho)].
  split_and!; [done| |by eapply exact_answers]. intros E. by rewrite E in Hin.
Qed.

(** ** Witnesses *)

(** One frame and the start of another; the frame has been answered. *)
Definition sample_input : bytes := concat [frame1] ++ take 3 frame1.
Definition sample_answered : ConnState :=
  mkConn (mkPipe 0 ∅ false) (take 3 frame1) Reading 1 1 ∅ Written 0 [AckSuccess]
    [(0, frame1)] {[0 := AckSuccess]}.
Definition answers_success : call -> Prop := fun c => call_ack c = AckSuccess.

Lemma sample_run : conn_run 1 answers_success (conn_start sample_input) sample_answered.
Proof.
  eapply rtc_l; [exists None; split; [eapply step_read; [vm_compute; reflexivity|reflexivity]|done]|].
  eapply rtc_l; [exists None; split; [by apply step_spawn|done]|].
  eapply rtc_l.
  { eexists. split; [apply step_handle with (j := 0) (fidx := 0) (fb := frame1) (ack := AckSuccess)|].
    - vm_compute. reflexivity.
    - by intros c [= <-]. }
  eapply rtc_l; [exists None; split; [by eapply step_next|done]|].
  eapply rtc_l; [exists None; split; [by apply step_write|done]|].
  vm_compute. apply rtc_refl.
Qed.

Lemma acks_in_order_witness :
  k_done sample_answered !! 0 = Some AckSuccess /\ Z.of_nat (size (k_running sample_answered)) <= 1.
Proof.
  destruct (acks_in_order 1 answers_success sample_input sample_answered) as (H1 & H2 & _);
    [lia|apply sample_run|].
  split; [|exact H1]. apply (H2 ltac:(done) 0%nat AckSuccess). done.
Defined.

Lemma connection_drains_witness :
  exists st', k_frames st' = [(0, frame1)] /\ 1 <= len (k_out st').
Proof.
  destruct (connection_drains 1 answers_success sample_input sample_answered (fun _ _ => AckFail))
    as (st' & _ & Hf & _ & Hl & _); [lia|apply sample_run|done|]. by exists st'.
Defined.

Lemma frames_in_order_witness : k_frames sample_answered `prefix_of` tag 0 [frame1].
Proof.
  apply (frames_in_order 1 answers_success [frame1] frame1 (take 3 frame1) sample_answered).
  - lia.
  - repeat constructor. apply frame1_wf.
  - apply frame1_wf.
  - apply prefix_take.
  - vm_compute. done.
  - apply sample_run.
Defined.
