(* ===== verification/Serving.v ===== *)
(** * The receiver's TCP server as a whole ([internal/transport/tcp_server.go]).

    [Serve] accepts connections and starts one [handleConn] for each, [Close] is
    called by another goroutine once the context has been cancelled, and a
    [handleConn] that returns takes its connection out of the map [conns].  The
    server is a transition system whose steps are the actions of these goroutines
    on what they share, in any interleaving; a connection makes the steps of
    [TcpServer.conn_step]. *)
From S2P Require Import Prelude Protocol WalDisk WalScan TcpServer.
Local Open Scope Z_scope.

(** ** State *)

(** What [Serve] is doing: in [Accept], in [conns.Range], before [connSeq.Add],
    before [conns.Store], before [go s.handleConn], after an error of [Accept].
    [input] is what the peer of the accepted connection is going to send. *)
Inductive accepting : Type :=
| Accepting
| Counting (input : bytes) (start seen : gset Z)
| Naming (input : bytes)
| Storing (input : bytes) (id : Z)
| Spawning (input : bytes) (id : Z)
| AcceptFailed
| AcceptDone.

(** What [Close] is doing. *)
Inductive closing : Type := NotClosing | ListenerClosed | ClosingConns (start seen : gset Z) | Closed.

(** One [handleConn]: the connection, whether the reader has found the context
    alive at the top of its loop and is now reading, and, as history, what the peer
    was going to send at the start. *)
Record serving := mkServing { h_conn : ConnState; h_polled : bool; h_input : bytes }.

(** [sv_conns]: the keys of [conns]; [sv_shut]: the connections whose [net.Conn]
    has been closed on this side; [sv_named]: how often [connSeq] was raised. *)
Record Server := mkServer {
  sv_connSeq : Z; sv_conns : gset Z; sv_shut : gset Z; sv_serving : gmap Z serving;
  sv_accept : accepting; sv_cancelled : bool; sv_closing : closing; sv_named : Z }.

Definition server_start : Server := mkServer 0 ∅ ∅ ∅ Accepting false NotClosing 0.

(** [sync.Map.Range] visits each key at most once; of a key that is stored or
    deleted meanwhile it may or may not take notice. *)
Definition range_visits (start conns seen : gset Z) (k : Z) : Prop := k ∈ start ∪ conns /\ k ∉ seen.
Definition range_ends (start conns seen : gset Z) : Prop := start ∩ conns ⊆ seen.

(** What a step of a connection may do on the network: a read needs a reader that
    was at it and a connection that is open, and so does a write. *)
Definition io_allowed (polled cancelled shut : bool) (k k' : ConnState) : Prop :=
  (k_reader k = Reading -> k_reader k' = Reading \/ (k_reader k' = ReaderDone /\ (polled || cancelled = true)) \/
     (polled = true /\ shut = false)) /\
  (shut = true -> k_out k' = k_out k).

(** The reader is still in the read it was in. *)
Definition still_polled (polled : bool) (k k' : ConnState) : bool :=
  match k_reader k, k_reader k' with Reading, Reading => polled | _, _ => false end.

Section server.
Context (cfg : ServerConfig).

(** ** The accept loop *)

Definition accepted (input : bytes) (conns : gset Z) : accepting :=
  if 0 <? sc_MaxConns cfg then Counting input conns ∅ else Naming input.

(** [cur < s.cfg.MaxConns+1] *)
Definition counts_on (seen : gset Z) : bool := Z.of_nat (size seen) <? sc_MaxConns cfg + 1.

Definition counted (input : bytes) (seen : gset Z) : accepting :=
  if sc_MaxConns cfg <=? Z.of_nat (size seen) then Accepting else Naming input.

Inductive accept_step : Server -> Server -> Prop :=
| acc_conn n cs sh hs cc named input :
    accept_step (mkServer n cs sh hs Accepting cc NotClosing named)
      (mkServer n cs sh hs (accepted input cs) cc NotClosing named)
| acc_error n cs sh hs cc cl named :
    accept_step (mkServer n cs sh hs Accepting cc cl named) (mkServer n cs sh hs AcceptFailed cc cl named)
| acc_stop n cs sh hs cl named :
    accept_step (mkServer n cs sh hs AcceptFailed true cl named) (mkServer n cs sh hs AcceptDone true cl named)
| acc_retry n cs sh hs cl named :
    accept_step (mkServer n cs sh hs AcceptFailed false cl named) (mkServer n cs sh hs Accepting false cl named)
| acc_visit n cs sh hs cc cl named input start seen k :
    counts_on seen = true -> range_visits start cs seen k ->
    accept_step (mkServer n cs sh hs (Counting input start seen) cc cl named)
      (mkServer n cs sh hs (Counting input start ({[k]} ∪ seen)) cc cl named)
| acc_counted n cs sh hs cc cl named input start seen :
    counts_on seen = false \/ range_ends start cs seen ->
    accept_step (mkServer n cs sh hs (Counting input start seen) cc cl named)
      (mkServer n cs sh hs (counted input seen) cc cl named)
| acc_name n cs sh hs cc cl named input :
    accept_step (mkServer n cs sh hs (Naming input) cc cl named)
      (mkServer (u64 (n + 1)) cs sh hs (Storing input (u64 (n + 1))) cc cl (named + 1))
| acc_store n cs sh hs cc cl named input id :
    accept_step (mkServer n cs sh hs (Storing input id) cc cl named)
      (mkServer n ({[id]} ∪ cs) sh hs (Spawning input id) cc cl named)
| acc_spawn n cs sh hs cc cl named input id :
    accept_step (mkServer n cs sh hs (Spawning input id) cc cl named)
      (mkServer n cs sh (<[id := mkServing (conn_start input) false input]> hs) Accepting cc cl named).

(** ** The connections *)

Inductive serve_step : Server -> option call -> Server -> Prop :=
(** the reader finds the context alive *)
| srv_poll n cs sh hs ac cl named id k i0 :
    hs !! id = Some (mkServing k false i0) -> k_reader k = Reading ->
    serve_step (mkServer n cs sh hs ac false cl named) None
      (mkServer n cs sh (<[id := mkServing k true i0]> hs) ac false cl named)
(** a step of the connection *)
| srv_conn n cs sh hs ac cc cl named id k polled i0 l k' :
    hs !! id = Some (mkServing k polled i0) -> conn_step (sc_MaxInflight cfg) k l k' ->
    io_allowed polled cc (bool_decide (id ∈ sh)) k k' ->
    serve_step (mkServer n cs sh hs ac cc cl named) l
      (mkServer n cs sh (<[id := mkServing k' (still_polled polled k k') i0]> hs) ac cc cl named)
(** the deferred [conn.Close()] *)
| srv_hangup n cs sh hs ac cc cl named id k polled i0 :
    hs !! id = Some (mkServing k polled i0) -> k_reader k = ReaderDone -> id ∉ sh ->
    serve_step (mkServer n cs sh hs ac cc cl named) None
      (mkServer n cs ({[id]} ∪ sh) hs ac cc cl named)
(** the deferred [s.conns.Delete(id)] *)
| srv_unregister n cs sh hs ac cc cl named id k polled i0 :
    hs !! id = Some (mkServing k polled i0) -> k_reader k = ReaderDone -> id ∈ sh -> id ∈ cs ->
    serve_step (mkServer n cs sh hs ac cc cl named) None
      (mkServer n (cs ∖ {[id]}) sh hs ac cc cl named).

(** ** Cancelling and closing *)

Inductive close_step : Server -> Server -> Prop :=
| cls_cancel n cs sh hs ac cl named :
    close_step (mkServer n cs sh hs ac false cl named) (mkServer n cs sh hs ac true cl named)
(** [Close] is called after the context was cancelled *)
| cls_listener n cs sh hs ac named :
    close_step (mkServer n cs sh hs ac true NotClosing named) (mkServer n cs sh hs ac true ListenerClosed named)
| cls_range n cs sh hs ac cc named :
    close_step (mkServer n cs sh hs ac cc ListenerClosed named)
      (mkServer n cs sh hs ac cc (ClosingConns cs ∅) named)
| cls_visit n cs sh hs ac cc named start seen k :
    range_visits start cs seen k ->
    close_step (mkServer n cs sh hs ac cc (ClosingConns start seen) named)
      (mkServer n cs ({[k]} ∪ sh) hs ac cc (ClosingConns start ({[k]} ∪ seen)) named)
| cls_done n cs sh hs ac cc named start seen :
    range_ends start cs seen ->
    close_step (mkServer n cs sh hs ac cc (ClosingConns start seen) named)
      (mkServer n cs sh hs ac cc Closed named).

Definition srv_step (s : Server) (l : option call) (s' : Server) : Prop :=
  serve_step s l s' \/ (l = None /\ (accept_step s s' \/ close_step s s')).

Definition srv_run (ok : call -> Prop) : relation Server :=
  rtc (fun s s' => exists l, srv_step s l s' /\ forall c, l = Some c -> ok c).

End server.

(** ** Single connections *)

(** A connection on which nothing has been read or written. *)
Definition fresh (h : serving) : Prop :=
  let k := h_conn h in
  h_polled h = false /\ (k_reader k = Reading \/ k_reader k = ReaderDone) /\ k_running k = ∅ /\
  cp_results (k_pipe k) = ∅ /\ (k_writer k = Awaiting \/ k_writer k = WriterDone) /\ k_out k = [] /\ k_frames k = [].

Lemma start_fresh input : fresh (mkServing (conn_start input) false input).
Proof. repeat split; by left. Qed.

Ltac io_cases :=
  repeat match goal with
  | H : _ \/ _ |- _ => destruct H
  | H : _ /\ _ |- _ => destruct H
  | H : ?P -> _ |- _ => match type of P with Prop => specialize (H ltac:(done)) end
  end; simplify_eq/=; try done.

(** Without a reader at work on an open connection nothing is read. *)
Lemma io_no_input max k l k' polled cc sh :
  conn_step max k l k' -> io_allowed polled cc sh k k' -> sh = true \/ polled = false ->
  k_input k' = k_input k.
Proof. intros Hs [Hr _] Hn. destruct Hs; cbn in *; io_cases. Qed.

Lemma fresh_step max k l k' cc sh i0 :
  conn_step max k l k' -> io_allowed false cc sh k k' -> fresh (mkServing k false i0) ->
  fresh (mkServing k' (still_polled false k k') i0) /\ k_input k' = k_input k.
Proof.
  intros Hs Hio Hf. split; [|eapply io_no_input; eauto].
  destruct Hio as [Hr _], Hf as (_ & Hrd & Hrun & Hres & Hw & Ho & Hfr).
  assert (Hn : forall wi, nextResult wi (k_pipe k) = if cp_closed (k_pipe k) then Some (None, k_pipe k) else None).
  { intros wi. unfold nextResult. cbn in Hres. by rewrite Hres, lookup_empty. }
  destruct Hs; cbn in *; io_cases; rewrite ?Hn, ?lookup_empty in *; repeat case_match; io_cases;
    repeat split; cbn; auto.
Qed.

(** ** The limit of connections *)

Definition limit_inv (cfg : ServerConfig) (s : Server) : Prop :=
  Z.of_nat (size (sv_conns s)) <= sc_MaxConns cfg /\
  match sv_accept s with
  | Counting _ start _ => sv_conns s ⊆ start
  | Naming _ | Storing _ _ => Z.of_nat (size (sv_conns s)) < sc_MaxConns cfg
  | _ => True
  end.

Lemma limit_start cfg : 0 < sc_MaxConns cfg -> limit_inv cfg server_start.
Proof. intros H. split; [cbn [server_start sv_conns]; rewrite size_empty; lia|done]. Qed.

Lemma limit_counted cfg input start seen cs :
  counts_on cfg seen = false \/ range_ends start cs seen -> cs ⊆ start ->
  counted cfg input seen = Accepting \/
  (counted cfg input seen = Naming input /\ Z.of_nat (size cs) < sc_MaxConns cfg).
Proof.
  intros Hc Hsub. unfold counted, counts_on, range_ends in *.
  destruct (Z.leb_spec (sc_MaxConns cfg) (Z.of_nat (size seen))) as [Hle|Hlt]; [by left|right].
  split; [done|]. destruct Hc as [Hc|Hc]; [destruct (Z.ltb_spec (Z.of_nat (size seen)) (sc_MaxConns cfg + 1)); [done|lia]|].
  assert (cs ⊆ seen) as Hs%subseteq_size by set_solver. lia.
Qed.

Lemma limit_step cfg s l s' : 0 < sc_MaxConns cfg -> srv_step cfg s l s' -> limit_inv cfg s -> limit_inv cfg s'.
Proof.
  intros Hm Hs [Hl Ha]. destruct Hs as [Hs|[_ [Hs|Hs]]]; destruct Hs; cbn in *; try by split.
  - assert (cs ∖ {[id]} ⊆ cs) as Hsub by set_solver. pose proof (subseteq_size _ _ Hsub).
    split; cbn; [lia|]. destruct ac; try done; set_solver + Ha || lia.
  - split; [done|]. cbn. unfold accepted. by destruct (Z.ltb_spec 0 (sc_MaxConns cfg)); [|lia].
  - split; [done|]. cbn. by destruct (limit_counted cfg input start seen cs H Ha) as [->|[-> ?]].
  - split; [|done]. cbn. pose proof (size_union_alt ({[id]} : gset Z) cs) as Hu. rewrite size_singleton in Hu.
    assert (cs ∖ {[id]} ⊆ cs) as Hsub by set_solver. pose proof (subseteq_size _ _ Hsub). lia.
Qed.

(** ** What closing leaves *)

Record srv_inv (s : Server) : Prop := {
  si_seq : sv_connSeq s = sv_named s /\ 0 <= sv_named s;
  si_conns : forall id, id ∈ sv_conns s -> id <= sv_named s;
  si_serving : forall id h, sv_serving s !! id = Some h -> id <= sv_named s;
  si_registered : forall id h, sv_serving s !! id = Some h -> id ∈ sv_conns s \/ id ∈ sv_shut s;
  si_accept : match sv_accept s with
    | Storing _ id => id = sv_named s /\ sv_serving s !! id = None
    | Spawning _ id => id = sv_named s /\ sv_serving s !! id = None /\ id ∈ sv_conns s
    | _ => True
    end;
  si_cancelled : sv_cancelled s = false -> sv_closing s = NotClosing;
  si_closing : match sv_closing s with
    | ClosingConns start seen => seen ⊆ sv_shut s /\ forall id h, sv_serving s !! id = Some h ->
        id ∈ start \/ id ∈ sv_shut s \/ fresh h
    | Closed => forall id h, sv_serving s !! id = Some h -> id ∈ sv_shut s \/ fresh h
    | _ => True
    end }.

Lemma start_srv_inv : srv_inv server_start.
Proof.
  constructor; try done; cbn [server_start sv_connSeq sv_named sv_conns sv_serving]; lia.
Qed.

Lemma accept_step_inv cfg s s' : accept_step cfg s s' -> sv_named s' < 2 ^ 64 -> srv_inv s -> srv_inv s'.
Proof.
  intros Hs Hn [[I1 I1'] I2 I3 I4 I5 I6 I7]. destruct Hs; cbn in *.
  1: unfold accepted; destruct (_ <? _); constructor; cbn; try done.
  1,2,3,4: constructor; cbn; try done.
  - unfold counted. destruct (_ <=? _); constructor; cbn; try done.
  - assert (u64 (n + 1) = named + 1) as -> by (unfold u64; rewrite Z.mod_small; lia).
    constructor; cbn; try done; try lia; try (intros; etrans; [eauto|lia]).
    split; [done|]. destruct (hs !! (named + 1)) eqn:E; [|done]. apply I3 in E. lia.
  - destruct I5 as [-> I5]. constructor; cbn; try done.
    + set_solver.
    + intros id h Hh. destruct (I4 id h Hh); [left; set_solver|by right].
    + split_and!; [done|done|set_solver].
  - destruct I5 as (-> & I5 & I5'). constructor; cbn; try done.
    + intros id h [[<- _]|[_ Hh]]%lookup_insert_Some; [lia|eauto].
    + intros id h [[<- _]|[_ Hh]]%lookup_insert_Some; [by left|eauto].
    + pose proof (start_fresh input) as Hfr. destruct cl as [| |start seen|]; try done.
      * destruct I7 as [I7 I8]. split; [done|].
        intros id h [[_ <-]|[_ Hh]]%lookup_insert_Some; [auto|eauto].
      * intros id h [[_ <-]|[_ Hh]]%lookup_insert_Some; [auto|eauto].
Qed.

Lemma serve_step_inv cfg s l s' : serve_step cfg s l s' -> srv_inv s -> srv_inv s'.
Proof.
  intros Hs [[I1 I1'] I2 I3 I4 I5 I6 I7]. destruct Hs; cbn in *.
  - specialize (I6 eq_refl). subst cl. constructor; cbn; try done.
    + intros id' h [[<- _]|[_ Hh]]%lookup_insert_Some; eauto.
    + intros id' h [[<- _]|[_ Hh]]%lookup_insert_Some; eauto.
    + assert (Hn : forall j x, hs !! j = None -> <[id := x]> hs !! j = None).
      { intros j x Hj. rewrite lookup_insert_ne; congruence. }
      destruct ac; try done; naive_solver.
  - assert (Hfr : fresh (mkServing k polled i0) -> fresh (mkServing k' (still_polled polled k k') i0)).
    { intros Hf. pose proof Hf as [Hp _]. cbn in Hp. subst polled. by eapply fresh_step. }
    constructor; cbn; try done.
    + intros id' h [[<- _]|[_ Hh]]%lookup_insert_Some; eauto.
    + intros id' h [[<- _]|[_ Hh]]%lookup_insert_Some; eauto.
    + assert (Hn : forall j x, hs !! j = None -> <[id := x]> hs !! j = None).
      { intros j x Hj. rewrite lookup_insert_ne; congruence. }
      destruct ac; try done; naive_solver.
    + destruct cl as [| |start seen|]; try done.
      * destruct I7 as [I7 I8]. split; [done|].
        intros id' h [[<- <-]|[_ Hh]]%lookup_insert_Some; [|eauto].
        destruct (I8 _ _ H) as [?|[?|?]]; auto.
      * intros id' h [[<- <-]|[_ Hh]]%lookup_insert_Some; [|eauto].
        destruct (I7 _ _ H) as [?|?]; auto.
  - constructor; cbn; try done.
    + intros id' h Hh. destruct (I4 _ _ Hh); [by left|right; set_solver].
    + destruct cl as [| |start seen|]; try done.
      * destruct I7 as [I7 I8]. split; [set_solver|]. intros id' h Hh.
        destruct (I8 _ _ Hh) as [?|[?|?]]; auto. right; left. set_solver.
      * intros id' h Hh. destruct (I7 _ _ Hh); [left; set_solver|by right].
  - constructor; cbn; try done.
    + set_solver.
    + intros id' h Hh. destruct (decide (id' = id)) as [-> |Hne]; [by right|].
      destruct (I4 _ _ Hh); [left; set_solver|by right].
    + destruct ac; try done. destruct I5 as (? & I5 & ?). split_and!; try done.
      assert (id0 <> id) by (intros ->; congruence). set_solver.
Qed.

Lemma close_step_inv s s' : close_step s s' -> srv_inv s -> srv_inv s'.
Proof.
  intros Hs [[I1 I1'] I2 I3 I4 I5 I6 I7]. destruct Hs; cbn in *.
  - constructor; cbn; try done. 
  - constructor; cbn; try done.
  - constructor; cbn; try done; [by intros E; specialize (I6 E)|].
    split; [set_solver|]. intros id h Hh. destruct (I4 _ _ Hh); auto.
  - destruct I7 as [I7 I8]. constructor; cbn; try done.
    + intros id h Hh. destruct (I4 _ _ Hh); [by left|right; set_solver].
    + by intros E; specialize (I6 E).
    + split; [set_solver|]. intros id h Hh. destruct (I8 _ _ Hh) as [?|[?|?]]; auto. right; left; set_solver.
  - destruct I7 as [I7 I8]. constructor; cbn; try done.
    + by intros E; specialize (I6 E).
    + intros id h Hh. unfold range_ends in H. destruct (I8 _ _ Hh) as [?|[?|?]]; auto.
      destruct (I4 _ _ Hh); [left; set_solver|by left].
Qed.

(** The number of names given only grows. *)
Lemma srv_step_named cfg s l s' : srv_step cfg s l s' -> sv_named s <= sv_named s'.
Proof. intros [Hs|[_ [Hs|Hs]]]; destruct Hs; cbn; lia. Qed.

Lemma srv_run_named cfg ok s s' : srv_run cfg ok s s' -> sv_named s <= sv_named s'.
Proof. induction 1 as [|x y z (l & Hs & _) _ IH]; [done|]. etrans; [by eapply srv_step_named|done]. Qed.

Lemma srv_step_inv cfg s l s' : srv_step cfg s l s' -> sv_named s' < 2 ^ 64 -> srv_inv s -> srv_inv s'.
Proof.
  intros [Hs|[_ [Hs|Hs]]]; intros;
    [by eapply serve_step_inv|by eapply accept_step_inv|by eapply close_step_inv].
Qed.

Lemma srv_run_inv cfg ok s s' : srv_run cfg ok s s' -> sv_named s' < 2 ^ 64 -> srv_inv s -> srv_inv s'.
Proof.
  induction 1 as [|x y z (l & Hs & _) Hr IH]; [done|]. intros Hn Hi. apply IH; [done|].
  eapply srv_step_inv; [exact Hs| |done]. pose proof (srv_run_named _ _ _ _ Hr). lia.
Qed.

(** Every connection is served as if it were alone. *)
Definition alone (cfg : ServerConfig) (ok : call -> Prop) (s : Server) : Prop :=
  forall id h, sv_serving s !! id = Some h ->
    conn_run (sc_MaxInflight cfg) ok (conn_start (h_input h)) (h_conn h).

Lemma alone_step cfg (ok : call -> Prop) s l s' :
  srv_step cfg s l s' -> (forall c, l = Some c -> ok c) -> alone cfg ok s -> alone cfg ok s'.
Proof.
  intros Hs Hok Ha. destruct Hs as [Hs|[_ [Hs|Hs]]]; destruct Hs; unfold alone in *; cbn in *; try done.
  - intros id' h [[<- <-]|[_ Hh]]%lookup_insert_Some; [|eauto]. by apply (Ha id _ H).
  - intros id' h [[<- <-]|[_ Hh]]%lookup_insert_Some; [|eauto].
    eapply rtc_r; [exact (Ha _ _ H)|]. cbn. eauto.
  - intros id' h [[<- <-]|[_ Hh]]%lookup_insert_Some; [|eauto]. apply rtc_refl.
Qed.

Lemma srv_run_alone cfg ok s : srv_run cfg ok server_start s -> alone cfg ok s.
Proof.
  intros Hr. eapply (rtc_invariant _ (alone cfg ok)); [| |exact Hr].
  - intros a b Ha (l & Hs & Hok). by eapply alone_step.
  - intros id h. cbn. by rewrite lookup_empty.
Qed.

(** ** After [Close] *)

(** What a later state [s'] has of the state [s] in which [Close] has returned. *)
Definition kept_still (s : Server) (id : Z) (h' : serving) : Prop :=
  match sv_serving s !! id with
  | Some h => k_input (h_conn h') = k_input (h_conn h) /\ k_out (h_conn h') = k_out (h_conn h) /\
      (id ∈ sv_shut s \/ fresh h')
  | None => fresh h'
  end.

Record final (s s' : Server) : Prop := {
  fi_closed : sv_closing s' = Closed;
  fi_dom : dom (sv_serving s) ⊆ dom (sv_serving s');
  fi_shut : sv_shut s ⊆ sv_shut s';
  fi_still : forall id h', sv_serving s' !! id = Some h' -> kept_still s id h' }.

Lemma final_refl s : srv_inv s -> sv_closing s = Closed -> final s s.
Proof.
  intros Hi Hc. constructor; [done..|]. intros id h Hh. unfold kept_still. rewrite Hh.
  pose proof (si_closing _ Hi) as Hs. rewrite Hc in Hs. eauto.
Qed.

Lemma still_step max k l k' polled cc s id sh i0 :
  conn_step max k l k' -> io_allowed polled cc (bool_decide (id ∈ sh)) k k' -> sv_shut s ⊆ sh ->
  kept_still s id (mkServing k polled i0) -> kept_still s id (mkServing k' (still_polled polled k k') i0).
Proof.
  intros Hs Hio Hsub Hk.
  assert (Hf : fresh (mkServing k polled i0) -> fresh (mkServing k' (still_polled polled k k') i0) /\
    k_input k' = k_input k /\ k_out k' = k_out k).
  { intros Hf. pose proof Hf as (Hp & _ & _ & _ & _ & Ho & _). cbn in Hp, Ho. subst polled.
    destruct (fresh_step _ _ _ _ _ _ _ Hs Hio Hf) as [Hf' Hin]. split; [done|]. split; [done|].
    destruct Hf' as (_ & _ & _ & _ & _ & Ho' & _). cbn in Ho'. by rewrite Ho, Ho'. }
  unfold kept_still in *. cbn in *. destruct (sv_serving s !! id); [|by apply Hf].
  destruct Hk as (Hin & Ho & [Hsh|Hfr]).
  - rewrite bool_decide_eq_true_2 in Hio by set_solver.
    rewrite (io_no_input _ _ _ _ _ _ _ Hs Hio (or_introl eq_refl)).
    destruct Hio as [_ ->]; [|done]. auto.
  - destruct (Hf Hfr) as (Hf' & -> & ->). auto.
Qed.

Lemma final_step cfg s s1 l s2 : srv_step cfg s1 l s2 -> srv_inv s1 -> final s s1 -> final s s2.
Proof.
  intros Hs Hi [Hc Hd Hsh Hf].
  destruct Hs as [Hs|[_ [Hs|Hs]]]; destruct Hs; cbn in *; simplify_eq; try by constructor.
  - by pose proof (si_cancelled _ Hi eq_refl).
  - constructor; cbn; [done|set_solver|done|].
    intros id' h' [[<- <-]|[_ Hh]]%lookup_insert_Some; [|eauto]. eapply still_step; eauto.
  - constructor; cbn; [done|done|set_solver|done].
  - constructor; cbn; [done|set_solver|done|].
    intros id' h' [[<- <-]|[_ Hh]]%lookup_insert_Some; [|eauto].
    pose proof (si_accept _ Hi) as (_ & Hn & _). cbn in Hn. unfold kept_still.
    destruct (sv_serving s !! id) eqn:E; [|apply start_fresh].
    assert (id ∈ dom hs) as [? ?]%elem_of_dom by (apply Hd, elem_of_dom; eauto). congruence.
Qed.

Lemma final_run cfg ok s s1 s' : srv_run cfg ok s1 s' -> sv_named s' < 2 ^ 64 ->
  srv_inv s1 -> final s s1 -> final s s'.
Proof.
  induction 1 as [|x y z (l & Hs & _) Hr IH]; [done|]. intros Hn Hi Hf.
  pose proof (srv_run_named _ _ _ _ Hr). apply IH; [done| |by eapply final_step].
  eapply srv_step_inv; [exact Hs|lia|done].
Qed.

(** ** Properties *)

(** C27: the limit of connections, when there is one (0 means none), holds under
    every interleaving, until 2^64 connections have been numbered. While the server
    counts, registers and forgets connections in any order, and whatever the peers
    do, there are never more than [MaxConns] entries in [conns], and never more
    than [MaxConns] connections that are served and not closed. *)
Theorem connections_limited cfg ok s :
  0 < sc_MaxConns cfg -> srv_run cfg ok server_start s -> sv_named s < 2 ^ 64 ->
  Z.of_nat (size (sv_conns s)) <= sc_MaxConns cfg /\
  Z.of_nat (size (dom (sv_serving s) ∖ sv_shut s)) <= sc_MaxConns cfg.
Proof.
  intros Hm Hr Hn. assert (limit_inv cfg s) as [Hl _].
  { eapply (rtc_invariant _ (limit_inv cfg)); [|by apply limit_start|exact Hr].
    intros a b Ha (l & Hs & _). by eapply limit_step. }
  split; [done|]. etrans; [|exact Hl]. apply inj_le, subseteq_size.
  intros id [[h Hh]%elem_of_dom Hs]%elem_of_difference.
  destruct (si_registered s (srv_run_inv _ _ _ _ Hr Hn start_srv_inv) id h Hh); done.
Qed.

(** C25: closing is final. Once [Close] has returned (the context having been
    cancelled before it was called, and fewer than 2^64 connections numbered),
    nothing more is read from any connection and
    nothing more is written to any, whatever the goroutines that are still running
    do; and on a connection that had been accepted but was not yet registered when
    [Close] went through the map, nothing is ever read or answered. *)
Theorem Close_is_final cfg ok ok' s s' id h' :
  srv_run cfg ok server_start s -> sv_closing s = Closed -> srv_run cfg ok' s s' ->
  sv_named s' < 2 ^ 64 -> sv_serving s' !! id = Some h' ->
  match sv_serving s !! id with
  | Some h => k_input (h_conn h') = k_input (h_conn h) /\ k_out (h_conn h') = k_out (h_conn h)
  | None => k_frames (h_conn h') = [] /\ k_out (h_conn h') = []
  end.
Proof.
  intros Hr Hc Hr' Hn Hh. pose proof (srv_run_named _ _ _ _ Hr').
  assert (srv_inv s) as Hi by (eapply srv_run_inv; [exact Hr|lia|apply start_srv_inv]).
  pose proof (fi_still _ _ (final_run _ _ s s s' Hr' Hn Hi (final_refl s Hi Hc)) id h' Hh) as Hk.
  unfold kept_still in Hk. destruct (sv_serving s !! id); [tauto|].
  destruct Hk as (_ & _ & _ & _ & _ & Ho & Hf). done.
Qed.

(** ** The end of the server *)

(** A sum over the connections. *)
Definition total (f : serving -> Z) (m : gmap Z serving) : Z := map_fold (fun _ h a => f h + a) 0 m.

Lemma total_delete f m id h : m !! id = Some h -> total f m = f h + total f (delete id m).
Proof. intros H. unfold total. rewrite (map_fold_delete_L _ _ id h); [done| |done]. intros; lia. Qed.

Lemma total_insert f m id h : total f (<[id := h]> m) = f h + total f (delete id m).
Proof. rewrite (total_delete f _ id h), delete_insert_eq; [done|by rewrite lookup_insert_eq]. Qed.

Lemma total_nonneg f m : (forall h, 0 <= f h) -> 0 <= total f m.
Proof.
  intros Hf. induction m as [|id h m Hm IH] using map_ind; [done|].
  rewrite total_insert, delete_id by done. specialize (Hf h). lia.
Qed.

(** The steps a connection can make without reading. *)
Definition conn_left (k : ConnState) : Z :=
  match k_reader k with Reading => 1 | Waiting _ _ => 6 | BadHead => 1 | ReaderDone => 0 end +
  match k_writer k with Awaiting => 1 | Holding _ => 3 | Written => 2 | WriterDone => 0 end +
  4 * Z.of_nat (size (k_running k)) + 3 * Z.of_nat (size (cp_results (k_pipe k))).

Definition work (h : serving) : Z := conn_left (h_conn h).

Lemma work_nonneg h : 0 <= work h.
Proof. unfold work, conn_left. destruct (k_reader _), (k_writer _); lia. Qed.

Lemma size_insert_le {A} (m : gmap Z A) i x : Z.of_nat (size (<[i := x]> m)) <= Z.of_nat (size m) + 1.
Proof. rewrite map_size_insert. destruct (m !! i); unfold id; lia. Qed.

Lemma size_delete_lt {A} (m : gmap Z A) i x : m !! i = Some x -> Z.of_nat (size (delete i m)) + 1 = Z.of_nat (size m).
Proof.
  intros H. rewrite map_size_delete, H.
  assert (0 < size m)%nat; [|lia]. destruct (decide (m = ∅)) as [-> |Hne]; [by rewrite lookup_empty in H|].
  apply map_size_non_empty_iff in Hne. lia.
Qed.

Lemma conn_left_step max k l k' : conn_step max k l k' ->
  (k_reader k = Reading -> k_reader k' = Reading \/ k_reader k' = ReaderDone) ->
  conn_left k' < conn_left k.
Proof.
  intros Hs Hr. destruct Hs; unfold conn_left; cbn in *; io_cases; try lia.
  - pose proof (size_insert_le run idx (fidx, fb)). lia.
  - pose proof (size_insert_le (cp_results p) j ack). pose proof (size_delete_lt run j _ H). lia.
  - unfold nextResult in H. destruct (cp_results p !! wi) eqn:E; [|by destruct (cp_closed p)].
    injection H as <- <-. pose proof (size_delete_lt _ _ _ E). cbn. lia.
  - unfold nextResult in H. destruct (cp_results p !! wi) eqn:E; [done|].
    destruct (cp_closed p); [|done]. injection H as <-. lia.
Qed.

(** The steps the server can make once it is closed. *)
Definition accept_left (conns : gset Z) (a : accepting) : Z :=
  match a with
  | AcceptDone => 0
  | AcceptFailed => 1
  | Accepting => 2
  | Spawning _ _ => 6
  | Storing _ _ => 8
  | Naming _ => 9
  | Counting _ start seen => 10 + Z.of_nat (size ((start ∪ conns) ∖ seen))
  end.

Definition steps_left (s : Server) : Z :=
  accept_left (sv_conns s) (sv_accept s) + total work (sv_serving s) + Z.of_nat (size (sv_conns s)) +
  Z.of_nat (size (dom (sv_serving s) ∖ sv_shut s)).

Lemma steps_left_nonneg s : 0 <= steps_left s.
Proof.
  unfold steps_left, accept_left. pose proof (total_nonneg work (sv_serving s) work_nonneg).
  destruct (sv_accept s); lia.
Qed.

Lemma accept_left_mono cs cs' a : cs ⊆ cs' -> accept_left cs a <= accept_left cs' a.
Proof.
  intros H. destruct a; cbn; try lia.
  assert ((start ∪ cs) ∖ seen ⊆ (start ∪ cs') ∖ seen) as Hs%subseteq_size by set_solver. lia.
Qed.

Lemma size_take_out (X : gset Z) k : k ∈ X -> Z.of_nat (size (X ∖ {[k]})) + 1 = Z.of_nat (size X).
Proof.
  intros Hk. pose proof (size_union_alt ({[k]} : gset Z) X) as Hu. rewrite size_singleton in Hu.
  assert ({[k]} ∪ X = X) as E by set_solver. rewrite E in Hu. lia.
Qed.

Lemma size_put_in (X : gset Z) k : Z.of_nat (size ({[k]} ∪ X)) <= Z.of_nat (size X) + 1.
Proof.
  rewrite size_union_alt, size_singleton.
  assert (X ∖ {[k]} ⊆ X) as Hs%subseteq_size by set_solver. lia.
Qed.

Lemma accept_step_left cfg s s' : accept_step cfg s s' -> sv_closing s = Closed -> sv_cancelled s = true ->
  steps_left s' < steps_left s.
Proof.
  intros Hs Hc Hcc. destruct Hs; unfold steps_left; cbn in *; simplify_eq; try lia.
  - destruct H0 as [Hk Hn].
    assert ((start ∪ cs) ∖ ({[k]} ∪ seen) = ((start ∪ cs) ∖ seen) ∖ {[k]}) as -> by set_solver.
    assert (k ∈ (start ∪ cs) ∖ seen) as Hin by set_solver. pose proof (size_take_out _ _ Hin). lia.
  - unfold counted. destruct (_ <=? _); cbn; lia.
  - pose proof (size_put_in cs id). lia.
  - rewrite total_insert. set (h0 := mkServing (conn_start input) false input).
    assert (work h0 = 2) as -> by done.
    assert (total work (delete id hs) <= total work hs).
    { destruct (hs !! id) eqn:E; [|by rewrite delete_id]. rewrite (total_delete work hs id s E).
      pose proof (work_nonneg s). lia. }
    assert (dom (<[id:=h0]> hs) ∖ sh ⊆ {[id]} ∪ (dom hs ∖ sh)) as Hsub%subseteq_size.
    { rewrite dom_insert_L. set_solver. }
    pose proof (size_put_in (dom hs ∖ sh) id). lia.
Qed.

Lemma serve_step_left cfg s l s' : serve_step cfg s l s' -> srv_inv s ->
  sv_closing s = Closed -> steps_left s' < steps_left s.
Proof.
  intros Hs Hi Hc. pose proof (si_closing _ Hi) as Hq. pose proof (si_cancelled _ Hi) as Hcc.
  rewrite Hc in Hq. destruct Hs; unfold steps_left; cbn in *; simplify_eq.
  - by specialize (Hcc eq_refl).
  - rewrite total_insert, (total_delete work hs id _ H). unfold work. cbn.
    assert (dom (<[id:=mkServing k' (still_polled polled k k') i0]> hs) = dom hs) as ->.
    { rewrite dom_insert_L. apply elem_of_dom_2 in H. set_solver. }
    assert (conn_left k' < conn_left k); [|lia]. eapply conn_left_step; [exact H0|].
    intros Hrd. destruct H1 as [Hio _]. specialize (Hio Hrd).
    destruct (Hq _ _ H) as [Hsh|[Hp _]]; cbn in *.
    + rewrite bool_decide_eq_true_2 in Hio by done. naive_solver.
    + subst polled. naive_solver.
  - assert (id ∈ dom hs ∖ sh) as Hin by (apply elem_of_dom_2 in H; set_solver).
    assert (dom hs ∖ ({[id]} ∪ sh) = (dom hs ∖ sh) ∖ {[id]}) as -> by set_solver.
    pose proof (size_take_out _ _ Hin). lia.
  - pose proof (size_take_out cs id H2). assert (cs ∖ {[id]} ⊆ cs) as Hsub by set_solver.
    pose proof (accept_left_mono _ _ ac Hsub). lia.
Qed.

Lemma srv_step_left cfg s l s' : srv_step cfg s l s' -> srv_inv s -> sv_closing s = Closed ->
  steps_left s' < steps_left s.
Proof.
  intros Hs Hi Hc. assert (sv_cancelled s = true) as Hcc.
  { destruct (sv_cancelled s) eqn:E; [done|]. apply (si_cancelled _ Hi) in E. congruence. }
  destruct Hs as [Hs|[_ [Hs|Hs]]]; [by eapply serve_step_left|by eapply accept_step_left|].
  destruct Hs; cbn in *; simplify_eq.
Qed.

(** A reader or a writer that has returned has closed the pipeline. *)
Definition returned_closed (k : ConnState) : Prop :=
  k_reader k = ReaderDone \/ k_writer k = WriterDone -> cp_closed (k_pipe k) = true.

Lemma nextResult_closed i p o p' : nextResult i p = Some (o, p') ->
  cp_closed p' = cp_closed p /\ (o = None -> cp_closed p = true).
Proof.
  unfold nextResult. destruct (cp_results p !! i); [by intros [= <- <-]|].
  destruct (cp_closed p) eqn:E; [|done]. by intros [= <- <-].
Qed.

Lemma returned_closed_step max k l k' : conn_step max k l k' -> returned_closed k -> returned_closed k'.
Proof.
  intros Hs Hi. unfold returned_closed in *. destruct Hs; cbn in *; try naive_solver.
  - apply nextResult_closed in H as [-> _]. naive_solver.
  - apply nextResult_closed in H as [-> H]. naive_solver.
Qed.

Lemma conn_run_returned max ok input k : conn_run max ok (conn_start input) k -> returned_closed k.
Proof.
  intros Hr. eapply (rtc_invariant _ returned_closed); [| |exact Hr].
  - intros a b Ha (l & Hs & _). by eapply returned_closed_step.
  - by intros [?|?].
Qed.

(** What a connection can do without reading or writing once the context is
    cancelled; its handlers are taken to return. *)
Definition quiet (max : Z) (k : ConnState) : Prop :=
  exists l k', conn_step max k l k' /\ forall polled sh, io_allowed polled true sh k k'.

Ltac quiet_by c := do 2 eexists; split; [eapply c|intros ? ?; split; cbn; auto using orb_true_r].

Lemma quiet_reader max p i r idx d run w wi out fs dn :
  r <> ReaderDone -> (forall fidx fb, r = Waiting fidx fb -> awaitInflight idx max p <> None) ->
  quiet max (mkConn p i r idx d run w wi out fs dn).
Proof.
  intros Hr Hw. destruct r as [|fidx fb| |]; [| | |done].
  - quiet_by step_stop.
  - specialize (Hw _ _ eq_refl). destruct (awaitInflight idx max p) as [[]|] eqn:E; [| |done].
    + by quiet_by step_spawn.
    + by quiet_by step_refuse.
  - quiet_by (step_nack max p i idx d run w wi out fs dn false).
Qed.

Lemma quiet_step max k : 1 <= max -> conn_inv max k -> returned_closed k ->
  (k_reader k = ReaderDone /\ k_writer k = WriterDone /\ k_running k = ∅) \/ quiet max k.
Proof.
  intros Hm Hi Hc. destruct k as [p i r idx d run w wi out fs dn].
  destruct (map_choose_or_empty run) as [(j & [fidx fb] & Hj)| ->].
  { right. do 2 eexists. split; [by apply (step_handle max p i r idx d run w wi out fs dn j fidx fb AckFail)|].
    intros polled sh. split; cbn; auto. }
  pose proof (ci_all _ _ Hi) as Hall. pose proof (ci_widx _ _ Hi) as (Hn & _ & _).
  unfold taken, returned_closed in *. cbn in *. destruct w as [|a| |].
  - right. destruct (nextResult wi p) as [[[ack|] p']|] eqn:E.
    + by quiet_by step_next.
    + by quiet_by step_end.
    + unfold nextResult in E. destruct (cp_results p !! wi) eqn:Er; [done|].
      destruct (cp_closed p) eqn:Ec; [done|]. apply quiet_reader.
      { intros ->. specialize (Hc (or_introl eq_refl)). done. }
      intros fidx fb -> Ha. unfold awaitInflight in Ha.
      destruct (Z.ltb_spec (idx - cp_next p) max); [done|].
      destruct (Hall ltac:(done) wi ltac:(lia)) as [[? Hx]|[? Hx]]; [by rewrite lookup_empty in Hx|congruence].
  - right. quiet_by step_write_fail.
  - right. quiet_by step_advance.
  - specialize (Hc (or_intror eq_refl)).
    assert (r = ReaderDone \/ r <> ReaderDone) as [-> |Hr] by (destruct r; auto); [by left|right].
    apply quiet_reader; [done|]. intros fidx fb _. unfold awaitInflight. rewrite Hc. by case_match.
Qed.

(** Every registered connection is served, or about to be. *)
Definition registered_served (s : Server) : Prop :=
  forall id, id ∈ sv_conns s -> id ∈ dom (sv_serving s) \/ exists input, sv_accept s = Spawning input id.

Lemma registered_step cfg s l s' : srv_step cfg s l s' -> registered_served s -> registered_served s'.
Proof.
  intros Hs Hi id. destruct Hs as [Hs|[_ [Hs|Hs]]]; destruct Hs; unfold registered_served in *; cbn in *; intros Hid;
    try (destruct (Hi id) as [?|[? ?]]; [set_solver|left; set_solver|]; simplify_eq; eauto; fail).
  - destruct (decide (id = id0)) as [-> |]; [eauto|].
    destruct (Hi id) as [?|[? ?]]; [set_solver|by left|done].
  - destruct (Hi id Hid) as [?|[input' Hsp]]; [left; set_solver|].
    injection Hsp as -> ->. left. rewrite dom_insert_L. set_solver.
Qed.

Lemma srv_run_registered cfg ok s : srv_run cfg ok server_start s -> registered_served s.
Proof.
  intros Hr. eapply (rtc_invariant _ registered_served); [| |exact Hr].
  - intros a b Ha (l & Hs & _). by eapply registered_step.
  - intros id. cbn. set_solver.
Qed.

(** Nothing is left running. *)
Definition at_rest (s : Server) : Prop :=
  sv_accept s = AcceptDone /\ sv_conns s = ∅ /\
  forall id h, sv_serving s !! id = Some h -> id ∈ sv_shut s /\
    k_reader (h_conn h) = ReaderDone /\ k_writer (h_conn h) = WriterDone /\ k_running (h_conn h) = ∅.

Lemma accept_goes_on cfg n cs sh hs ac cl named :
  ac = AcceptDone \/ exists s', accept_step cfg (mkServer n cs sh hs ac true cl named) s'.
Proof.
  destruct ac as [|input start seen|input|input id|input id| |]; [| | | | | |by left]; right.
  - eexists. apply acc_error.
  - destruct (counts_on cfg seen) eqn:Ec; [|eexists; apply acc_counted; by left].
    destruct (set_choose_or_empty ((start ∩ cs) ∖ seen)) as [[k Hk]|He].
    + eexists. apply acc_visit with (k := k); [done|]. split; set_solver.
    + eexists. apply acc_counted. right. unfold range_ends. set_solver.
  - eexists. apply acc_name.
  - eexists. apply acc_store.
  - eexists. apply acc_spawn.
  - eexists. apply acc_stop.
Qed.

Lemma stuck_at_rest cfg ok s : 1 <= sc_MaxInflight cfg ->
  srv_run cfg ok server_start s -> sv_named s < 2 ^ 64 -> sv_closing s = Closed ->
  (forall l s', ~ srv_step cfg s l s') -> at_rest s.
Proof.
  intros Hm Hr Hn Hc Hno. pose proof (srv_run_inv _ _ _ _ Hr Hn start_srv_inv) as Hi.
  pose proof (srv_run_alone _ _ _ Hr) as Hal. pose proof (srv_run_registered _ _ _ Hr) as Hreg.
  assert (sv_cancelled s = true) as Hcc.
  { destruct (sv_cancelled s) eqn:E; [done|]. apply (si_cancelled _ Hi) in E. congruence. }
  destruct s as [n cs sh hs ac cc cl named]. cbn in *. subst cc cl.
  assert (Hh : forall id h, hs !! id = Some h -> id ∈ sh /\
    k_reader (h_conn h) = ReaderDone /\ k_writer (h_conn h) = WriterDone /\ k_running (h_conn h) = ∅).
  { intros id [k polled i0] Hh. pose proof (Hal _ _ Hh) as Hk. cbn in *.
    destruct (quiet_step (sc_MaxInflight cfg) k) as [Hd|(l & k' & Hs & Hio)];
      [done|eapply conn_run_inv; [lia|exact Hk]|by eapply conn_run_returned| |].
    - split; [|done]. destruct (decide (id ∈ sh)) as [|Hsh]; [done|].
      destruct (Hno None (mkServer n cs ({[id]} ∪ sh) hs ac true Closed named)).
      left. eapply srv_hangup; [exact Hh|tauto|done].
    - destruct (Hno l _ (or_introl (srv_conn cfg n cs sh hs ac true Closed named id k polled i0 l k' Hh Hs (Hio _ _)))). }
  assert (ac = AcceptDone) as ->.
  { destruct (accept_goes_on cfg n cs sh hs ac Closed named) as [|[s' Hs]]; [done|].
    destruct (Hno None s'). right. auto. }
  split; [done|]. split; [|done]. destruct (set_choose_or_empty cs) as [[id Hid]|]; [|set_solver].
  destruct (Hreg id Hid) as [[[k polled i0] Hk]%elem_of_dom|[? ?]]; [|done]. cbn in *.
  destruct (Hh _ _ Hk) as (Hsh & Hd & _).
  destruct (Hno None (mkServer n (cs ∖ {[id]}) sh hs AcceptDone true Closed named)).
  left. eapply srv_unregister; [exact Hk|done..].
Qed.

(** C26: the server comes to rest. Once [Close] has returned, and while fewer than 2^64
    connections have been numbered, every interleaving of
    the goroutines that are left is finite, with a bound that depends only on the
    state; and when none of them can go on (the handlers are taken to return),
    [Serve] has returned, [conns] is empty, every connection is closed, and its
    reader, its writer and its handlers have returned. So no goroutine leaks and
    none is left waiting for another. *)
Theorem shutdown_ends cfg ok s :
  srv_run (NewServer cfg) ok server_start s -> sv_closing s = Closed ->
  (forall n s', nsteps (fun a b => exists l, srv_step (NewServer cfg) a l b) n s s' ->
     sv_named s' < 2 ^ 64 -> Z.of_nat n <= steps_left s) /\
  (forall s', srv_run (NewServer cfg) (fun _ => True) s s' -> sv_named s' < 2 ^ 64 ->
     (forall l s'', ~ srv_step (NewServer cfg) s' l s'') -> at_rest s').
Proof.
  intros Hr Hc. split.
  - intros n s' Hs Hn. assert (Hi : sv_named s < 2 ^ 64 -> srv_inv s).
    { intros H. exact (srv_run_inv _ _ _ _ Hr H start_srv_inv). }
    clear Hr. revert Hc Hi. induction Hs as [s|n s s1 s2 (l & Hs) Hrest IH]; intros Hc Hi.
    { pose proof (steps_left_nonneg s). lia. }
    assert (sv_named s1 <= sv_named s2) as Hle.
    { apply (srv_run_named (NewServer cfg) (fun _ => True)), rtc_nsteps. exists n.
      eapply nsteps_congruence with (f := id), Hrest. intros a b (l' & Hl). by exists l'. }
    pose proof (srv_step_named _ _ _ _ Hs). specialize (Hi ltac:(lia)).
    pose proof (srv_step_left _ _ _ _ Hs Hi Hc).
    assert (srv_inv s1) as Hi1 by (eapply srv_step_inv; [exact Hs|lia|done]).
    specialize (IH Hn). rewrite Nat2Z.inj_succ.
    assert (sv_closing s1 = Closed) as Hc1 by (apply (fi_closed s), (final_step _ _ _ _ _ Hs Hi), final_refl; done).
    specialize (IH Hc1 (fun _ => Hi1)). lia.
  - intros s' Hr' Hn Hno. eapply (stuck_at_rest _ (fun _ => True)); [|etrans; [|exact Hr']|done| |exact Hno].
    + cbn. destruct (Z.leb_spec (sc_MaxInflight cfg) 0); lia.
    + eapply rtc_congruence with (f := id), Hr. intros a b (l & Hl & _). by exists l.
    + pose proof (srv_run_named _ _ _ _ Hr').
      assert (srv_inv s) as Hi by (eapply srv_run_inv; [exact Hr|lia|apply start_srv_inv]).
      by eapply fi_closed, (final_run _ _ s s s' Hr' Hn Hi), final_refl.
Qed.

(** ** Witnesses *)

(** One connection at most; the peer sends one frame. *)
Definition one_conn : ServerConfig := mkSC [] 0 0 1.
Definition opened : Server :=
  mkServer 1 {[1]} ∅ {[1 := mkServing (conn_start frame1) false frame1]} Accepting false NotClosing 1.
(** [Close] has gone through the map while the reader was in its read. *)
Definition shut_down : Server :=
  mkServer 1 {[1]} {[1]} {[1 := mkServing (conn_start frame1) true frame1]} Accepting true Closed 1.
(** The read has failed and the reader has returned. *)
Definition hung_up : Server :=
  mkServer 1 {[1]} {[1]}
    {[1 := mkServing (mkConn (close newConnPipeline) frame1 ReaderDone 0 0 ∅ Awaiting 0 [] [] ∅) false frame1]}
    Accepting true Closed 1.

Ltac srv_go c := eapply rtc_l; [exists None; split; [c|by intros]|].

Lemma opened_run ok : srv_run (NewServer one_conn) ok server_start opened.
Proof.
  srv_go ltac:(right; split; [done|left; apply (acc_conn _ _ _ _ _ _ _ frame1)]).
  srv_go ltac:(right; split; [done|left; apply acc_counted; right; done]).
  srv_go ltac:(right; split; [done|left; apply acc_name]).
  srv_go ltac:(right; split; [done|left; apply acc_store]).
  srv_go ltac:(right; split; [done|left; apply acc_spawn]).
  vm_compute. apply rtc_refl.
Qed.

Lemma shut_down_run ok : srv_run (NewServer one_conn) ok opened shut_down.
Proof.
  srv_go ltac:(left; apply (srv_poll _ 1 {[1]} ∅ _ Accepting NotClosing 1 1 (conn_start frame1) frame1); done).
  srv_go ltac:(right; split; [done|right; apply cls_cancel]).
  srv_go ltac:(right; split; [done|right; apply cls_listener]).
  srv_go ltac:(right; split; [done|right; apply cls_range]).
  srv_go ltac:(right; split; [done|right; apply cls_visit with (k := 1); split; set_solver]).
  srv_go ltac:(right; split; [done|right; apply cls_done; unfold range_ends; set_solver]).
  vm_compute. apply rtc_refl.
Qed.

Lemma hung_up_run ok : srv_run (NewServer one_conn) ok shut_down hung_up.
Proof.
  srv_go ltac:(left; eapply (srv_conn _ 1 {[1]} {[1]} _ Accepting true Closed 1 1 (conn_start frame1) true frame1);
    [done|apply step_stop|split; [intros _; right; left; done|done]]).
  vm_compute. apply rtc_refl.
Qed.

Lemma connections_limited_witness : Z.of_nat (size (sv_conns opened)) <= 1.
Proof.
  apply (connections_limited (NewServer one_conn) (fun _ => True) opened); [done|apply opened_run|done].
Defined.

Lemma Close_is_final_witness :
  srv_run (NewServer one_conn) (fun _ => True) shut_down hung_up /\
  match sv_serving shut_down !! 1 with
  | Some h => frame1 = k_input (h_conn h) /\ [] = k_out (h_conn h)
  | None => False
  end.
Proof.
  split; [apply hung_up_run|].
  apply (Close_is_final (NewServer one_conn) (fun _ => True) (fun _ => True) shut_down hung_up 1
    (mkServing (mkConn (close newConnPipeline) frame1 ReaderDone 0 0 ∅ Awaiting 0 [] [] ∅) false frame1));
    [etrans; [apply opened_run|apply shut_down_run]|done|apply hung_up_run|done|done].
Defined.

Lemma shutdown_ends_witness : steps_left shut_down = 5 /\ steps_left hung_up = 4 /\
  forall n s', nsteps (fun a b => exists l, srv_step (NewServer one_conn) a l b) n shut_down s' ->
     sv_named s' < 2 ^ 64 -> Z.of_nat n <= 5.
Proof.
  split; [done|]. split; [done|].
  apply (shutdown_ends one_conn (fun _ => True) shut_down); [|done].
  etrans; [apply opened_run|apply shut_down_run].
Defined.
