(* ===== verification/Handlers.v ===== *)
(** * Concurrent frame handlers ([internal/receiver/receiver.go])

    The server runs [HandleFrame] in one goroutine per frame, on many
    connections at once.  Here a call is the sequence of its critical sections
    - a load or store of an atomic, the code under one mutex, one request to the
    database, one file -, and any number of calls interleave between them.  Run
    alone, such a call is [Receiver.HandleFrame]. *)
From S2P Require Import Prelude GoBytes Protocol WalDisk WalScan Wal SeqTracker VmClient Receiver TcpServer.
Local Open Scope Z_scope.
Local Open Scope go_scope.

(** ** Programs of critical sections *)

Inductive prog (A : Type) : Type :=
| Done (a : A)
| Sec {X : Type} (m : R X) (k : X -> prog A).
Arguments Done {A} a.
Arguments Sec {A X} m k.

Fixpoint pbind {A B} (p : prog A) (f : A -> prog B) : prog B :=
  match p with
  | Done a => f a
  | Sec m k => Sec m (fun x => pbind (k x) f)
  end.
Notation "x <~ p ; k" := (pbind p (fun x => k))
  (at level 100, p at next level, right associativity) : go_scope.

Definition atomically {X} (m : R X) : prog X := Sec m Done.

(** The program run alone. *)
Fixpoint prun {A} (p : prog A) : R A :=
  match p with
  | Done a => ret a
  | Sec m k => bind m (fun x => prun (k x))
  end.

(** ** The sections of [HandleFrame] *)

Definition loadLast : R Z := gets (fun s => u64 (r_lastSeq (rw_recv s))).
Definition loadOrd : R Z := gets (fun s => load (r_seqOrd (rw_recv s))).

(** The compare-and-swap loop of [advanceSeq]: only its last turn has an effect. *)
Definition raise_last (seq : Z) : R unit :=
  set_recv (fun r => if i64 seq <=? r_lastSeq r then r else with_lastSeq (i64 seq) r).

(** The code of [advanceSeq] under [persistMu]. *)
Definition persist_last (now seq : Z) : R unit :=
  r <- recv ;;
  if negb (cfg_LastSeqFile (r_cfg r)) then ret tt
  else
    let throttled := match r_persistAt r with Some t => now <? t | None => false end in
    if throttled then ret tt
    else
      set_recv (with_persistAt (Some (now + persistInterval))) ;;;
      attempt (saveLastSeq (i64 seq)) ;;;
      ret tt.

Definition c_advanceSeq (now seq : Z) : prog unit :=
  _ <~ atomically (raise_last seq) ; atomically (persist_last now seq).

(** [seqOrd.done], under the tracker's mutex. *)
Definition track_done (seq : Z) : R bool :=
  r <- recv ;;
  let '(t, advanced) := done_seq seq (r_seqOrd r) in
  set_recv (with_seqOrd t) ;;; ret advanced.

Definition c_markDone (now seq : Z) : prog unit :=
  advanced <~ atomically (track_done seq) ;
  if advanced : bool then v <~ atomically loadOrd ; c_advanceSeq now v else Done tt.

(** The check and the closing of [tryCloseGap], under [inflightMu]. *)
Definition close_if_clear (last seq : Z) : R bool :=
  r <- recv ;;
  if negb (gap_clear last seq r) then ret false
  else set_recv (fun r => with_seqOrd (closeGap (u64 (seq - 1)) (r_seqOrd r)) r) ;;; ret true.

Definition c_tryCloseGap (now seq : Z) : prog bool :=
  last <~ atomically loadLast ;
  if seq <=? u64 (last + 1) then Done false
  else
    closed <~ atomically (close_if_clear last seq) ;
    if closed : bool then v <~ atomically loadOrd ; _ <~ c_advanceSeq now v ; Done true
    else Done false.

(** [gapWarnAllowed] reads three atomics, [markGapWarned] stores two. *)
Definition c_gapWarnAllowed (now seq : Z) : prog bool :=
  prev <~ atomically (gets (fun s => r_gapWarned (rw_recv s))) ;
  if prev =? 0 then Done true
  else
    last <~ atomically loadLast ;
    if prev <=? last then Done true
    else
      at_ <~ atomically (gets (fun s => r_gapWarnedAt (rw_recv s))) ;
      Done (gapWarnResetWindow <? now - at_).

Definition c_markGapWarned (now seq : Z) : prog unit :=
  _ <~ atomically (set_recv (fun r => with_gapWarned seq (r_gapWarnedAt r) r)) ;
  atomically (set_recv (fun r => with_gapWarned (r_gapWarned r) now r)).

Definition c_handle_jump (now frameIdx seq : Z) : prog unit :=
  last <~ atomically loadLast ;
  let warn := (allowed <~ c_gapWarnAllowed now seq ;
               if allowed : bool then c_markGapWarned now seq else Done tt) in
  if negb (u64 (last + 1) <? seq) then Done tt
  else if u64 (last + seqJumpLimit) <? seq then warn
  else
    closed <~ (if frameIdx =? 0 then c_tryCloseGap now seq else Done false) ;
    if closed : bool then atomically (set_recv (fun r => with_gapWarned 0 (r_gapWarnedAt r) r))
    else warn.

Definition c_finish (now : Z) (f : Frame) : prog unit :=
  _ <~ c_markDone now (f_Seq f) ;
  atomically (set_recv (dedupRecord (f_Seq f) (f_CRC f))).

(** The dead letter is a file of its own; the configuration never changes. *)
Definition isolate (f : Frame) (raw : bytes) (e : import_error) (status : Z) (category : bytes) :
    R (outcome rerr unit) :=
  let lines := splitLines raw in
  let meta := mkMeta (f_Seq f) 1 category status (inl e) (lit "Zone_I")
                (metricOf lines) (len lines) (len raw) in
  r <- recv ;;
  attempt (writeDLQJSON (cfg_DLQDir (r_cfg r)) add_dlq meta (f_Payload f)).

Definition c_handle_write_error (now : Z) (f : Frame) (raw : bytes) (e : import_error) : prog Z :=
  _ <~ atomically (count MWriteFail) ;
  let '(permanent, status, category) := classifyWriteError e in
  if permanent then
    _ <~ atomically (count MPoison) ;
    o <~ atomically (isolate f raw e status category) ;
    match o with
    | Ok _ => _ <~ atomically (count MDLQ) ; _ <~ c_finish now f ; Done AckSuccess
    | _ => Done AckFail
    end
  else Done AckFail.

Section handlers.
Context {C : Codec}.

(** [RelayWAL.Append], under the log's mutex. *)
Definition relay_append (f : Frame) (raw : bytes) : R (option werr) :=
  r <- recv ;;
  match r_relay r with
  | None => ret None
  | Some w =>
      let '(o, w') := Append (f_Type f) raw w in
      set_recv (with_relay (Some w')) ;;;
      match o with Ok _ => ret None | Panic => panic | Err e => ret (Some e) end
  end.

Definition relay_isolate (f : Frame) (raw : bytes) (e : werr) : R unit :=
  r <- recv ;;
  if cfg_RelayDLQDir (r_cfg r) then
    let lines := splitLines raw in
    let meta := mkMeta (f_Seq f) 1 (lit "RELAY_FORWARD_FAILURE") 0 (inr e) (lit "Zone_II")
                  (metricOf lines) (len lines) (len raw) in
    attempt (writeDLQJSON true add_relayDlq meta (f_Payload f)) ;;; ret tt
  else ret tt.

Definition c_relay_frame (f : Frame) (raw : bytes) : prog unit :=
  o <~ atomically (relay_append f raw) ;
  match o with
  | None => Done tt
  | Some e => _ <~ atomically (relay_isolate f raw e) ; atomically (count MRelayDLQ)
  end.

(** The call-back of the configuration. *)
Definition last_write_ts (raw : bytes) : R unit :=
  r <- recv ;;
  let ts := LastSampleTimestamp raw in
  if cfg_LastWriteTs (r_cfg r) && (0 <? ts) then modify (add_writeTs ts) else ret tt.

Definition c_process_frame (now frameIdx : Z) (f : Frame) : prog Z :=
  _ <~ c_handle_jump now frameIdx (f_Seq f) ;
  match Decompress f with
  | Panic => atomically panic
  | Err _ => Done AckFail
  | Ok raw =>
      if len (TrimSpace raw) =? 0 then Done AckFail
      else
        o <~ atomically (import_write raw) ;
        match o with
        | Panic => atomically panic
        | Err e => c_handle_write_error now f raw e
        | Ok _ =>
            _ <~ atomically (count MWriteOk) ;
            _ <~ c_relay_frame f raw ;
            _ <~ c_finish now f ;
            _ <~ atomically (last_write_ts raw) ;
            Done AckSuccess
        end
  end.

(** The duplicate check reads [last_seq] and then the window, under [dedupMu]. *)
Definition c_is_duplicate (f : Frame) : prog bool :=
  last <~ atomically loadLast ;
  if f_Seq f <=? last
  then atomically (gets (fun s => dedupHit (f_Seq f) (f_CRC f) (rw_recv s)))
  else Done false.

Definition c_HandleFrame (now frameIdx : Z) (frameBytes : bytes) : prog Z :=
  _ <~ atomically (count MRecv) ;
  match Decode frameBytes with
  | Panic => atomically panic
  | Err _ => Done AckFail
  | Ok f =>
      if IsHeartbeat f then Done AckSuccess
      else
        dup <~ c_is_duplicate f ;
        if dup : bool then _ <~ atomically (count MDup) ; Done AckSuccess
        else
          _ <~ atomically (count (MInflight 1)) ;
          _ <~ atomically (set_recv (addInflight (f_Seq f))) ;
          ack <~ c_process_frame now frameIdx f ;
          _ <~ atomically (set_recv (removeInflight (f_Seq f))) ;
          _ <~ atomically (count (MInflight (-1))) ;
          Done ack
  end.

(** ** The handlers of a receiver *)

Record handler := mkHandler { hd_fidx : Z; hd_fb : bytes; hd_prog : prog Z }.

Record pool := mkPool {
  pl_world : RWorld;
  pl_run : list handler;       (** the calls in progress *)
  pl_calls : list call }.      (** history: the calls that have returned *)

Inductive pool_step : relation pool :=
(** the server starts a handler *)
| pool_spawn w hs cs now fidx fb :
    pool_step (mkPool w hs cs) (mkPool w (hs ++ [mkHandler fidx fb (c_HandleFrame now fidx fb)]) cs)
(** any handler runs its next section *)
| pool_section w w' l1 l2 cs fidx fb X (m : R X) k x :
    m w = (Ok x, w') ->
    pool_step (mkPool w (l1 ++ mkHandler fidx fb (Sec m k) :: l2) cs)
      (mkPool w' (l1 ++ mkHandler fidx fb (k x) :: l2) cs)
(** a handler returns *)
| pool_answer w l1 l2 cs fidx fb a :
    pool_step (mkPool w (l1 ++ mkHandler fidx fb (Done a) :: l2) cs)
      (mkPool w (l1 ++ l2) (cs ++ [mkCall fidx fb a]))
(** the relay's sender works on its log *)
| pool_relay w hs cs relay :
    pool_step (mkPool w hs cs) (mkPool (upd_recv (with_relay relay) w) hs cs).

(** ** A call that runs alone *)

Lemma bind_ext {A B} (m m' : R A) (k k' : A -> R B) s :
  m s = m' s -> (forall a s', k a s' = k' a s') -> bind m k s = bind m' k' s.
Proof. intros Hm Hk. unfold bind. rewrite Hm. destruct (m' s) as [[a|e|] s']; [apply Hk|done|done]. Qed.

Lemma prun_bind {A B} (p : prog A) (f : A -> prog B) : forall s,
  prun (pbind p f) s = bind (prun p) (fun a => prun (f a)) s.
Proof.
  induction p as [a|X m k IH]; intros s; cbn [pbind prun]; [done|].
  rewrite bind_assoc. apply bind_ext; [done|]. intros x s'. apply IH.
Qed.

Lemma prun_atomically {X} (m : R X) s : prun (atomically m) s = m s.
Proof. cbn. unfold bind, ret. by destruct (m s) as [[a|e|] s']. Qed.


Lemma bind_gets {A B} (f : RWorld -> A) (k : A -> R B) s : bind (gets f) k s = k (f s) s.
Proof. done. Qed.
Lemma bind_modify {B} f (k : unit -> R B) s : bind (modify f) k s = k tt (f s).
Proof. done. Qed.
Lemma bind_ret {A B} (a : A) (k : A -> R B) s : bind (ret a) k s = k a s.
Proof. done. Qed.

(** Run the leading sections of both sides. *)
Ltac sections :=
  cbn [prun pbind atomically]; unfold recv, loadLast, loadOrd, set_recv, count;
  repeat first [rewrite bind_assoc | rewrite bind_gets | rewrite bind_modify | rewrite bind_ret
    | progress cbn [prun pbind atomically]].

Lemma run_advanceSeq now seq s : prun (c_advanceSeq now seq) s = advanceSeq now seq s.
Proof. unfold c_advanceSeq. rewrite prun_bind. apply bind_ext; [|intros _ s']; apply prun_atomically. Qed.

Lemma run_markDone now seq s : prun (c_markDone now seq) s = markDone now seq s.
Proof.
  unfold c_markDone, markDone, track_done. sections. destruct (done_seq _ _) as [t adv]. sections.
  destruct adv; [|done]. sections. apply run_advanceSeq.
Qed.

Lemma run_tryCloseGap now seq s : prun (c_tryCloseGap now seq) s = tryCloseGap now seq s.
Proof.
  unfold c_tryCloseGap, tryCloseGap, close_if_clear. sections. destruct (_ <=? _); [done|]. sections.
  destruct (negb _); [done|]. sections. rewrite prun_bind. sections.
  apply bind_ext; [apply run_advanceSeq|done].
Qed.

Lemma run_gap_warn now seq s :
  prun (allowed <~ c_gapWarnAllowed now seq ; if allowed : bool then c_markGapWarned now seq else Done tt) s =
  (r <- recv ;; if gapWarnAllowed now seq r then markGapWarned now seq else ret tt) s.
Proof.
  unfold c_gapWarnAllowed, gapWarnAllowed, markGapWarned, c_markGapWarned. sections.
  destruct (_ =? 0); [done|]. sections. destruct (_ <=? _); [done|]. sections. by destruct (_ <? _).
Qed.

Lemma run_handle_jump now frameIdx seq s :
  prun (c_handle_jump now frameIdx seq) s = handle_jump now frameIdx seq s.
Proof.
  unfold c_handle_jump, handle_jump. sections. destruct (negb _); [done|].
  destruct (_ <? _); [apply run_gap_warn|]. rewrite prun_bind. apply bind_ext.
  - destruct (_ =? 0); [apply run_tryCloseGap|done].
  - intros [] s'; [apply prun_atomically|apply run_gap_warn].
Qed.

Lemma run_finish now f s : prun (c_finish now f) s = finish now f s.
Proof.
  unfold c_finish, finish. rewrite prun_bind.
  apply bind_ext; [apply run_markDone|intros _ s'; apply prun_atomically].
Qed.

Lemma run_handle_write_error now f raw e s :
  prun (c_handle_write_error now f raw e) s = handle_write_error now f raw e s.
Proof.
  unfold c_handle_write_error, handle_write_error. sections.
  destruct (classifyWriteError e) as [[permanent status] category]. destruct permanent; [|done].
  sections. unfold isolate. sections. apply bind_ext; [done|]. intros [[]|e'|] s'; [|done|done].
  sections. rewrite prun_bind. change (bind (markDone now (f_Seq f)) ?k) with (bind (markDone now (f_Seq f)) k).
  transitivity (bind (finish now f) (fun _ => ret AckSuccess) (add_metric MDLQ s')).
  - apply bind_ext; [apply run_finish|done].
  - unfold finish. by rewrite bind_assoc.
Qed.

Lemma run_relay_frame f raw s : prun (c_relay_frame f raw) s = relay_frame f raw s.
Proof.
  unfold c_relay_frame, relay_frame, relay_append, relay_isolate. sections.
  destruct (r_relay _) as [w|]; [|done]. destruct (Append _ _ _) as [[a|e|] w']; sections; [done| |done].
  destruct (cfg_RelayDLQDir _); sections; [|done]. apply bind_ext; [done|].
  intros o s'. by sections.
Qed.

Lemma run_process_frame now frameIdx f s :
  prun (c_process_frame now frameIdx f) s = process_frame now frameIdx f s.
Proof.
  unfold c_process_frame, process_frame. rewrite prun_bind.
  apply bind_ext; [apply run_handle_jump|]. intros [] s1.
  destruct (Decompress f) as [raw|e|]; [|done|done]. destruct (_ =? 0); [done|]. sections.
  apply bind_ext; [done|]. intros [[]|e|] s2; [|apply run_handle_write_error|done].
  sections. rewrite prun_bind. apply bind_ext; [apply run_relay_frame|]. intros [] s3.
  rewrite prun_bind.
  transitivity (bind (finish now f) (fun _ => last_write_ts raw ;;; ret AckSuccess) s3).
  - apply bind_ext; [apply run_finish|]. intros [] s4. by sections.
  - unfold finish, last_write_ts. rewrite bind_assoc. apply bind_ext; [done|]. intros [] s4. by sections.
Qed.

(** The interleaved handler is the sequential one. A call of [HandleFrame]
    split into its critical sections - each load and store of an atomic, each
    stretch of code under a mutex, each request and each file - and run without
    interference is [HandleFrame]: same answer, same state, for every frame and
    every state, panics included. *)
Theorem sections_of_HandleFrame now frameIdx frameBytes s :
  prun (c_HandleFrame now frameIdx frameBytes) s = HandleFrame now frameIdx frameBytes s.
Proof.
  unfold c_HandleFrame, HandleFrame, c_is_duplicate. sections.
  destruct (Decode frameBytes) as [f|e|]; [|done|done]. destruct (IsHeartbeat f); [done|]. sections.
  assert (Hrun : forall s',
    prun (_ <~ atomically (count (MInflight 1)) ; _ <~ atomically (set_recv (addInflight (f_Seq f))) ;
          ack <~ c_process_frame now frameIdx f ; _ <~ atomically (set_recv (removeInflight (f_Seq f))) ;
          _ <~ atomically (count (MInflight (-1))) ; Done ack) s' =
    (count (MInflight 1) ;;; set_recv (addInflight (f_Seq f)) ;;; ack <- process_frame now frameIdx f ;;
     set_recv (removeInflight (f_Seq f)) ;;; count (MInflight (-1)) ;;; ret ack) s').
  { intros s'. sections. rewrite prun_bind. apply bind_ext; [apply run_process_frame|].
    intros a s1. by sections. }
  destruct (_ <=? _); cbn [andb]; [|apply Hrun]. sections. destruct (dedupHit _ _ _); [done|apply Hrun].
Qed.

(** ** Calls that interleave *)

(** What any section leaves to the others: nothing stored is lost, [last_seq]
    does not go back, and what the window remembers has landed. *)
Definition grew (s s' : RWorld) : Prop :=
  store_mono s s' /\ r_lastSeq (rw_recv s) <= r_lastSeq (rw_recv s').

#[local] Instance grew_refl : Reflexive grew.
Proof. intros s. by split. Qed.
#[local] Instance grew_trans : Transitive grew.
Proof. intros s1 s2 s3 [H1 L1] [H2 L2]. split; [by etrans|lia]. Qed.

(** The program ends in [Q], whatever the other handlers do between its
    sections, and all its own sections respect the rule. *)
Fixpoint safe {A} (p : prog A) (Q : A -> RWorld -> Prop) (s : RWorld) : Prop :=
  match p with
  | Done a => Q a s
  | Sec m k => forall s1, grew s s1 -> window_inv s1 ->
      wp m (fun o s2 => window_inv s2 /\ grew s1 s2 /\
        match o with Ok x => safe (k x) Q s2 | Err _ => False | Panic => True end) s1
  end.

Definition stable {A} (Q : A -> RWorld -> Prop) : Prop :=
  forall a s s', grew s s' -> Q a s -> Q a s'.

Lemma safe_later {A} (p : prog A) Q s s' : stable Q -> grew s s' -> safe p Q s -> safe p Q s'.
Proof.
  intros HQ Hg. destruct p as [a|X m k]; cbn; [by apply HQ|]. intros H s1 Hs1. apply H. by etrans.
Qed.

Lemma safe_weaken {A} (p : prog A) (Q Q' : A -> RWorld -> Prop) : forall s,
  (forall a s', grew s s' -> Q a s' -> Q' a s') -> safe p Q s -> safe p Q' s.
Proof.
  induction p as [a|X m k IH]; intros s HQ; cbn; [by apply HQ|]. intros H s1 Hs1 Hw1.
  eapply wp_conseq; [by apply H|]. intros [x|e|] s2 (Hw2 & Hg2 & Hs2); [|done|done].
  split; [done|]. split; [done|]. apply IH; [|done]. intros a s' Hg. apply HQ. by repeat (etrans; [eassumption|]).
Qed.

Lemma safe_bind {A B} (p : prog A) (f : A -> prog B) Q : forall s,
  safe p (fun a s' => safe (f a) Q s') s -> safe (pbind p f) Q s.
Proof.
  induction p as [a|X m k IH]; intros s; cbn; [done|]. intros H s1 Hs1 Hw1.
  eapply wp_conseq; [by apply H|]. intros [x|e|] s2 (Hw2 & Hg2 & Hs2); [|done|done]. auto.
Qed.

Lemma quiet_grew s s' : quiet s s' -> grew s s'.
Proof. intros Hq. split; [by apply quiet_store|]. unfold quiet in Hq. tauto. Qed.

(** A program of quiet sections. *)
Definition hushed {A} (p : prog A) : Prop := forall s, safe p (fun _ _ => True) s.

Lemma hushed_ret {A} (a : A) : hushed (Done a).
Proof. done. Qed.
Lemma hushed_atomically {X} (m : R X) : calmly m -> hushed (atomically m).
Proof.
  intros H s s1 _ Hw1. eapply wp_conseq; [apply H|]. intros o s2 [Hq Ho].
  split; [by eapply window_inv_quiet|]. split; [by apply quiet_grew|]. by destruct o.
Qed.
Lemma hushed_bind {A B} (p : prog A) (f : A -> prog B) :
  hushed p -> (forall a, hushed (f a)) -> hushed (pbind p f).
Proof. intros Hp Hf s. apply safe_bind. eapply safe_weaken; [|apply Hp]. intros a s' _ _. apply Hf. Qed.

(** Before the rest of a program, a hushed part only lets time pass. *)
Lemma safe_after {A B} (p : prog A) (f : A -> prog B) Q s :
  hushed p -> (forall a s', grew s s' -> safe (f a) Q s') -> safe (pbind p f) Q s.
Proof. intros Hp Hf. apply safe_bind. eapply safe_weaken; [|apply Hp]. auto. Qed.

Ltac hush :=
  repeat match goal with
  | |- hushed (pbind _ _) => apply hushed_bind; [|intros ?]
  | |- hushed (Done _) => apply hushed_ret
  | |- hushed (atomically _) => apply hushed_atomically
  | |- hushed (if ?b then _ else _) => destruct b
  | |- calmly (count _) => apply calmly_count
  | |- calmly _ => progress quietly
  end.

Lemma calmly_raise_last seq : calmly (raise_last seq).
Proof.
  apply calmly_modify. intros s. unfold upd_recv, quiet; cbn.
  destruct (Z.leb_spec (i64 seq) (r_lastSeq (rw_recv s))); cbn; repeat split; auto; lia.
Qed.

Lemma hushed_advanceSeq now seq : hushed (c_advanceSeq now seq).
Proof.
  unfold c_advanceSeq. apply hushed_bind; [apply hushed_atomically, calmly_raise_last|intros _].
  unfold persist_last, saveLastSeq. hush.
Qed.

Lemma hushed_markDone now seq : hushed (c_markDone now seq).
Proof. unfold c_markDone, track_done, loadOrd. hush. apply hushed_advanceSeq. Qed.

Lemma hushed_handle_jump now frameIdx seq : hushed (c_handle_jump now frameIdx seq).
Proof.
  unfold c_handle_jump, c_tryCloseGap, close_if_clear, c_gapWarnAllowed, c_markGapWarned, loadLast, loadOrd.
  hush; apply hushed_advanceSeq.
Qed.

(** ** What an answer means *)

(** The frame is a heartbeat, or its content has been imported or isolated, or
    that of a frame with its number and its checksum has. *)
Definition kept (fb : bytes) (s : RWorld) : Prop :=
  exists f, Decode fb = Ok f /\
    (IsHeartbeat f = true \/ landed s f \/
     exists g, f_Seq g = f_Seq f /\ f_CRC g = f_CRC f /\
       ChecksumIEEE (f_Payload g) = ChecksumIEEE (f_Payload f) /\ landed s g).

Definition answer_ok (fb : bytes) (a : Z) (s : RWorld) : Prop :=
  a = AckFail \/ (a = AckSuccess /\ kept fb s).

Lemma kept_mono fb s s' : store_mono s s' -> kept fb s -> kept fb s'.
Proof.
  intros Hm (f & Hd & Hf). exists f. split; [done|].
  destruct Hf as [Hh|[Hl|(g & ? & ? & ? & Hl)]]; [by left|right; left; by eapply landed_mono|].
  right. right. exists g. split_and!; try done. by eapply landed_mono.
Qed.

Lemma kept_grew fb s s' : grew s s' -> kept fb s -> kept fb s'.
Proof. intros [Hm _]. by apply kept_mono. Qed.

Lemma answer_stable fb : stable (answer_ok fb).
Proof. intros a s s' Hg [H|[H Hk]]; [by left|right]. split; [done|]. by eapply kept_grew. Qed.

Definition landing (f : Frame) (a : Z) (s : RWorld) : Prop :=
  a = AckFail \/ (a = AckSuccess /\ landed s f).

Lemma landed_grew f s s' : grew s s' -> landed s f -> landed s' f.
Proof. intros [Hm _]. by apply landed_mono. Qed.

(** Recording a frame that has landed. *)
Lemma safe_finish now f s : sealed f -> landed s f ->
  safe (c_finish now f) (fun _ s' => landed s' f) s.
Proof.
  intros Hf Hl. apply safe_after; [apply hushed_markDone|]. intros _ s1 Hg1 s2 Hg2 Hw2.
  assert (Hl2 : landed s2 f) by (eapply landed_grew; [|exact Hl]; by etrans).
  unfold set_recv. apply wp_modify. split; [by apply window_inv_record|]. cbn [safe].
  assert (Hg : grew s2 (upd_recv (dedupRecord (f_Seq f) (f_CRC f)) s2)).
  { split; [done|]. cbn. unfold dedupRecord. repeat case_match; cbn; lia. }
  split; [done|]. by eapply landed_grew.
Qed.

Lemma isolate_spec f raw e status category s1 : window_inv s1 ->
  wp (isolate f raw e status category) (fun o s2 => window_inv s2 /\ grew s1 s2 /\
    match o with
    | Ok (Ok _) => landed s2 f
    | Ok _ => True
    | Err _ => False
    | Panic => True
    end) s1.
Proof.
  intros Hw. unfold isolate. cbv zeta. set (meta := mkMeta _ _ _ _ _ _ _ _ _). unfold recv.
  wp_step. apply wp_gets. cbn [bind_post]. apply wp_attempt. unfold writeDLQJSON.
  destruct (cfg_DLQDir _); cbn [negb]; [|by apply wp_fail].
  assert (Hq : forall e', tidily (rsys e')) by apply tidily_rsys.
  wp_step. eapply wp_conseq; [apply Hq|]. intros o s2 [Hq2 Ho2].
  destruct o as [[]|e2|]; cbn [bind_post]; [|by split; [eapply window_inv_quiet|split; [apply quiet_grew|]]|done].
  wp_step. eapply wp_conseq; [apply Hq|]. intros o s3 [Hq3 Ho3]. assert (Hq13 : quiet s1 s3) by by etrans.
  destruct o as [[]|e3|]; cbn [bind_post]; [|by split; [eapply window_inv_quiet|split; [apply quiet_grew|]]|done].
  apply wp_modify. assert (Hg : grew s3 (add_dlq (meta, f_Payload f) s3)) by (split; [split; [done|by eexists]|cbn; lia]).
  split; [|split].
  - eapply (window_inv_mono s3); [apply Hg|done|done|by eapply window_inv_quiet].
  - etrans; [by apply quiet_grew|exact Hg].
  - right. exists meta. split; [|done]. cbn. apply elem_of_app. right. apply list_elem_of_here.
Qed.

Lemma safe_write_error now f raw e s : sealed f ->
  safe (c_handle_write_error now f raw e) (landing f) s.
Proof.
  intros Hf. unfold c_handle_write_error. apply safe_after; [apply hushed_atomically, calmly_count|].
  intros _ s1 _. destruct (classifyWriteError e) as [[permanent status] category].
  destruct permanent; [|by left]. apply safe_after; [apply hushed_atomically, calmly_count|].
  intros _ s2 _ s3 _ Hw3. eapply wp_conseq; [by apply isolate_spec|].
  intros [[[]|e'|]|e'|] s4 (Hw4 & Hg4 & Hl4); split_and!; try done; [|by left..].
  cbn [pbind]. apply safe_after; [apply hushed_atomically, calmly_count|]. intros _ s5 Hg5.
  apply safe_bind. eapply safe_weaken; [|apply (safe_finish now f s5 Hf); by eapply landed_grew].
  intros [] s6 _ Hl6. by right.
Qed.

Lemma import_section raw f s1 : Decompress f = Ok raw -> window_inv s1 ->
  wp (import_write raw) (fun o s2 => window_inv s2 /\ grew s1 s2 /\
    match o with
    | Ok (Ok _) => landed s2 f
    | Ok (Err _) => True
    | _ => False
    end) s1.
Proof.
  intros Hr Hw. eapply wp_conseq; [apply import_write_spec|]. intros o s2 (Hv & Hd & res & -> & Hres).
  assert (Hm : store_mono s1 s2).
  { split; [|by rewrite Hd]. destruct res as [[]|e|]; [rewrite Hres; by eexists|by rewrite Hres|done]. }
  split; [eapply (window_inv_mono s1); rewrite ?Hv; done|]. split; [split; [done|rewrite Hv; lia]|].
  destruct res as [[]|e|]; [|done|done]. left. exists raw. split; [done|]. rewrite Hres.
  apply elem_of_app. right. apply list_elem_of_here.
Qed.

(** The relay's part of a call, which may panic. *)
Lemma safe_relay f raw s (Q : unit -> RWorld -> Prop) :
  (forall a s', grew s s' -> Q a s') -> safe (c_relay_frame f raw) Q s.
Proof.
  intros HQ s1 Hg1 Hw1.
  assert (H : wp (relay_append f raw) (fun o s2 => quiet s1 s2 /\ (forall e, o <> Err e)) s1).
  { unfold relay_append, recv. wp_step. apply wp_gets. cbn [bind_post].
    destruct (r_relay (rw_recv s1)) as [w|]; [|by apply wp_ret].
    destruct (Append (f_Type f) raw w) as [o w']. assert (Hset : calmly (set_recv (with_relay (Some w')))) by quietly.
    wp_step. eapply wp_conseq; [apply Hset|]. intros o1 s2 [Hq2 Ho2]. destruct o1 as [[]|e1|]; [|done|done].
    cbn [bind_post]. by destruct o. }
  eapply wp_conseq; [exact H|]. intros o s2 [Hq2 Ho].
  split; [by eapply window_inv_quiet|]. split; [by apply quiet_grew|].
  assert (Hg2 : grew s s2) by (etrans; [exact Hg1|by apply quiet_grew]).
  destruct o as [[e|]|e|]; [|by apply HQ|by eapply Ho|done]. cbn [pbind].
  apply safe_after.
  - unfold relay_isolate, writeDLQJSON. cbn [negb]. hush.
  - intros _ s3 Hg3. eapply safe_weaken; [|apply hushed_atomically, calmly_count].
    intros a s4 Hg4 _. apply HQ. by repeat (etrans; [eassumption|]).
Qed.

Lemma safe_process now frameIdx f s : sealed f -> safe (c_process_frame now frameIdx f) (landing f) s.
Proof.
  intros Hf. unfold c_process_frame. apply safe_after; [apply hushed_handle_jump|]. intros _ s1 _.
  destruct (Decompress f) as [raw|e|] eqn:Er; [|by left|by intros s2 _ Hw2].
  destruct (_ =? 0); [by left|]. intros s2 _ Hw2.
  eapply wp_conseq; [by apply import_section|]. intros o s3 (Hw3 & Hg3 & Ho). split; [done|]. split; [done|].
  destruct o as [[[]|e|]|e|]; [|by apply safe_write_error|done..].
  cbn [pbind]. apply safe_after; [apply hushed_atomically, calmly_count|]. intros _ s4 Hg4.
  apply safe_bind, safe_relay. intros _ s5 Hg5.
  assert (Hl5 : landed s5 f) by (eapply landed_grew; [|exact Ho]; by etrans).
  apply safe_bind. eapply safe_weaken; [|by apply safe_finish]. intros [] s6 _ Hl6.
  apply safe_after; [apply hushed_atomically; unfold last_write_ts; quietly|].
  intros _ s7 Hg7. right. split; [done|]. by eapply landed_grew.
Qed.

Lemma safe_is_duplicate f s : sealed f ->
  safe (c_is_duplicate f) (fun b s' => b = true -> exists g, f_Seq g = f_Seq f /\ f_CRC g = f_CRC f /\
    ChecksumIEEE (f_Payload g) = ChecksumIEEE (f_Payload f) /\ landed s' g) s.
Proof.
  intros Hf. unfold c_is_duplicate. apply safe_after; [apply hushed_atomically, calmly_gets|].
  intros last s1 _. destruct (_ <=? _); [|done]. intros s2 _ Hw2. apply wp_gets.
  split; [done|]. split; [done|]. cbn [safe]. unfold dedupHit.
  destruct (r_dedupCRC (rw_recv s2) !! f_Seq f) as [c|] eqn:Ec; [|done].
  intros ->%Z.eqb_eq. destruct (winv_landed s2 Hw2 _ _ Ec) as (g & Hg1 & Hg2 & Hg3 & Hg4).
  exists g. split_and!; try done. by rewrite Hg3, Hf.
Qed.

Lemma calmly_inflight h seq : (h = addInflight \/ h = removeInflight) ->
  hushed (atomically (set_recv (h seq))).
Proof.
  intros Hh s s1 _ Hw1. unfold set_recv. apply wp_modify.
  split; [|split; [|done]]; destruct Hh as [-> | ->]; try (by eapply (window_inv_mono s1)); by (split; [|cbn; lia]).
Qed.

Lemma safe_HandleFrame now frameIdx fb s : safe (c_HandleFrame now frameIdx fb) (answer_ok fb) s.
Proof.
  unfold c_HandleFrame. apply safe_after; [apply hushed_atomically, calmly_count|]. intros _ s1 _.
  destruct (Decode fb) as [f|e|] eqn:Ed; [|by left|by intros s2 _ Hw2].
  destruct (IsHeartbeat f) eqn:Eh; [right; split; [done|]; exists f; split; [done|by left]|].
  pose proof (Decode_sealed _ _ Ed) as Hf. apply safe_bind.
  eapply safe_weaken; [|by apply safe_is_duplicate]. intros [] s2 _ Hdup.
  { apply safe_after; [apply hushed_atomically, calmly_count|]. intros _ s3 Hg3. right. split; [done|].
    apply (kept_grew fb s2 s3 Hg3). exists f. split; [done|]. right. right. by apply Hdup. }
  apply safe_after; [apply hushed_atomically, calmly_count|]. intros _ s3 _.
  apply safe_after; [apply calmly_inflight; by left|]. intros _ s4 _.
  apply safe_bind. eapply safe_weaken; [|by apply safe_process]. intros a s5 _ Ha.
  apply safe_after; [apply calmly_inflight; by right|]. intros _ s6 Hg6.
  apply safe_after; [apply hushed_atomically, calmly_count|]. intros _ s7 Hg7.
  destruct Ha as [->|[-> Hl]]; [by left|right]. split; [done|]. exists f. split; [done|].
  right. left. eapply landed_grew; [|exact Hl]. by etrans.
Qed.

(** ** The invariant of a receiver *)

Record pool_inv (p : pool) : Prop := {
  pi_window : window_inv (pl_world p);
  pi_run : Forall (fun h => safe (hd_prog h) (answer_ok (hd_fb h)) (pl_world p)) (pl_run p);
  pi_calls : Forall (fun c => answer_ok (call_fb c) (call_ack c) (pl_world p)) (pl_calls p) }.

Lemma pool_later w w' hs cs : window_inv w' -> grew w w' -> pool_inv (mkPool w hs cs) ->
  pool_inv (mkPool w' hs cs).
Proof.
  intros Hw' Hg [_ Hr Hc]. constructor; cbn in *; [done|..]; (eapply Forall_impl; [eassumption|]).
  - intros h. apply safe_later; [apply answer_stable|done].
  - intros c. by apply answer_stable.
Qed.

Lemma pool_step_inv p p' : pool_step p p' -> pool_inv p ->
  pool_inv p' /\ grew (pl_world p) (pl_world p').
Proof.
  intros Hs Hi. destruct Hs; pose proof Hi as [Hw Hr Hc]; cbn in *.
  - split; [|done]. constructor; cbn; [done| |done]. apply Forall_app. split; [done|].
    constructor; [|done]. apply safe_HandleFrame.
  - apply Forall_app in Hr as [Hr1 [Hh Hr2]%Forall_cons]. cbn in Hh.
    pose proof (wp_run _ _ _ _ _ (Hh w ltac:(done) Hw) H) as (Hw' & Hg & Hk).
    split; [|done]. pose proof (pool_later w w' _ cs Hw' Hg Hi) as [_ Hr' Hc']. cbn in *.
    apply Forall_app in Hr' as [Hr1' [_ Hr2']%Forall_cons].
    constructor; cbn; [done| |done]. apply Forall_app. split; [done|]. by constructor.
  - apply Forall_app in Hr as [Hr1 [Hh Hr2]%Forall_cons]. split; [|done].
    constructor; cbn; [done|by apply Forall_app|]. apply Forall_app. split; [done|]. by constructor.
  - assert (Hq : quiet w (upd_recv (with_relay relay) w)) by (unfold quiet; cbn; repeat split; auto; lia).
    split; [|by apply quiet_grew]. eapply pool_later; [by eapply window_inv_quiet|by apply quiet_grew|done].
Qed.

Lemma pool_run_inv p p' : rtc pool_step p p' -> pool_inv p ->
  pool_inv p' /\ grew (pl_world p) (pl_world p').
Proof.
  intros Hr Hi. apply (rtc_invariant pool_step (fun q => pool_inv q /\ grew (pl_world p) (pl_world q)) p p');
    [|done|done].
  intros q q' [Hq Hg] Hs. destruct (pool_step_inv q q' Hs Hq) as [Hq' Hg']. split; [done|by etrans].
Qed.

(** ** The receiver starts again *)

(** The process may also die, and a new one read its last_seq file: the calls in
    progress are gone, the window is empty, and what has been stored is still
    there. *)
Inductive receiver_step : relation pool :=
| receiver_runs p p' : pool_step p p' -> receiver_step p p'
| receiver_restarts p cfg relay l w' :
    New cfg relay (upd_faults l (pl_world p)) = (Ok tt, w') ->
    receiver_step p (mkPool w' [] (pl_calls p)).

Lemma window_inv_empty s : r_dedupSeq (rw_recv s) = [] -> r_dedupCRC (rw_recv s) = ∅ -> window_inv s.
Proof.
  intros E1 E2. split; [split; rewrite ?E1, ?E2|rewrite E2].
  - constructor.
  - intros n. rewrite lookup_empty, elem_of_nil. by split; intros [].
  - by vm_compute.
  - intros seq crc. by rewrite lookup_empty.
Qed.

Lemma tidily_loadLastSeq : tidily loadLastSeq.
Proof.
  unfold loadLastSeq. apply tidily_bind; [auto with vmsync|]. intros [data|]; [|auto with vmsync].
  apply tidily_bind; [auto with vmsync|]. intros _. destruct (Sscanf_d _); [auto with vmsync|].
  intros s. by apply wp_fail.
Qed.

(** [New]: an empty window over the old stores. *)
Lemma New_spec cfg relay s : wp (New cfg relay) (fun _ s' => window_inv s' /\ store_mono s s') s.
Proof.
  unfold New. wp_step. apply wp_modify. cbn [bind_post]. set (s1 := upd_recv _ s).
  assert (H1 : window_inv s1 /\ store_mono s s1) by (split; [by apply window_inv_empty|done]).
  destruct (cfg_LastSeqFile cfg); [|by apply wp_ret].
  apply wp_bind. eapply wp_conseq; [apply tidily_loadLastSeq|]. intros o s2 [Hq _].
  assert (H2 : window_inv s2 /\ store_mono s s2).
  { split; [eapply window_inv_quiet; [exact Hq|apply H1]|]. etrans; [apply H1|by apply quiet_store]. }
  destruct o as [seq|e|]; cbn [bind_post]; [|done..]. apply wp_modify. destruct H2 as [Hw2 Hm2].
  split; [by apply (window_inv_mono s2)|done].
Qed.

Lemma receiver_step_inv p p' : receiver_step p p' -> pool_inv p ->
  pool_inv p' /\ store_mono (pl_world p) (pl_world p') /\ pl_calls p `prefix_of` pl_calls p'.
Proof.
  intros Hs Hi. destruct Hs as [p p' Hs|p cfg relay l w' E].
  - destruct (pool_step_inv p p' Hs Hi) as [Hi' [Hm _]]. split; [done|]. split; [done|].
    by destruct Hs; cbn [pl_calls]; first [reflexivity | apply prefix_app_r; reflexivity].
  - pose proof (New_spec cfg relay (upd_faults l (pl_world p))) as H. unfold wp in H. rewrite E in H.
    destruct H as [Hw Hm]. split; [|by split]. constructor; [done|constructor|]. cbn.
    eapply Forall_impl; [apply (pi_calls p Hi)|]. intros c [Ha|[Ha Hk]]; [by left|right].
    split; [done|]. by eapply kept_mono.
Qed.

Lemma receiver_run_inv p p' : rtc receiver_step p p' -> pool_inv p ->
  pool_inv p' /\ store_mono (pl_world p) (pl_world p') /\ pl_calls p `prefix_of` pl_calls p'.
Proof.
  intros Hr Hi. apply (rtc_invariant receiver_step (fun q => pool_inv q /\
    store_mono (pl_world p) (pl_world q) /\ pl_calls p `prefix_of` pl_calls q) p p'); [|done|done].
  intros q q' (Hq & Hg & Hc) Hs. destruct (receiver_step_inv q q' Hs Hq) as (Hq' & Hg' & Hc').
  split; [done|]. split; by etrans.
Qed.

(** C7: the acknowledgements of concurrent handlers mean what they say. However
    the critical sections of any number of calls of [HandleFrame] interleave -
    with each other, with the relay's sender, with any answers of the database
    and of the file system -, every call that has returned answered 0x00, or it
    answered 0xff and its frame is a heartbeat, or its content (or that of a
    frame with the same number and checksum) has been imported or isolated as a
    dead letter; the deduplication window never remembers a frame that has not
    landed; nothing stored is lost and [last_seq] does not go back. *)
Theorem concurrent_acks_mean_landed w p :
  window_inv w -> rtc pool_step (mkPool w [] []) p ->
  window_inv (pl_world p) /\ store_mono w (pl_world p) /\
  r_lastSeq (rw_recv w) <= r_lastSeq (rw_recv (pl_world p)) /\
  Forall (fun c => call_ack c = AckFail \/ (call_ack c = AckSuccess /\ kept (call_fb c) (pl_world p)))
    (pl_calls p).
Proof.
  intros Hw Hr. destruct (pool_run_inv _ _ Hr) as [[Hw' _ Hc] [Hm Hl]]; [by constructor|]. done.
Qed.

(** ** Schedules *)

(** A schedule starts calls and picks, by position, the one that goes on. *)
Inductive choice : Type := Start (now fidx : Z) (fb : bytes) | Go (i : nat).

Definition pool_pick (p : pool) (c : choice) : pool :=
  match c with
  | Start now fidx fb =>
      mkPool (pl_world p) (pl_run p ++ [mkHandler fidx fb (c_HandleFrame now fidx fb)]) (pl_calls p)
  | Go i =>
      match pl_run p !! i with
      | None => p
      | Some (mkHandler fidx fb (Done a)) =>
          mkPool (pl_world p) (take i (pl_run p) ++ drop (S i) (pl_run p)) (pl_calls p ++ [mkCall fidx fb a])
      | Some (mkHandler fidx fb (Sec m k)) =>
          match m (pl_world p) with
          | (Ok x, w') =>
              mkPool w' (take i (pl_run p) ++ mkHandler fidx fb (k x) :: drop (S i) (pl_run p)) (pl_calls p)
          | _ => p
          end
      end
  end.

Lemma pool_pick_step p c : rtc pool_step p (pool_pick p c).
Proof.
  destruct p as [w hs cs], c as [now fidx fb|i]; cbn.
  { apply rtc_once. constructor. }
  destruct (hs !! i) as [[fidx fb pr]|] eqn:E; [|done].
  pose proof (take_drop_middle hs i _ E) as Hsp. rewrite <- Hsp at 1. destruct pr as [a|X m k].
  - apply rtc_once. constructor.
  - destruct (m w) as [[x|e|] w'] eqn:Em; [by apply rtc_once; econstructor|by rewrite Hsp..].
Qed.

Lemma pool_picks_run l : forall p, rtc pool_step p (foldl pool_pick p l).
Proof.
  induction l as [|c l IH]; intros p; cbn; [done|]. etrans; [apply pool_pick_step|apply IH].
Qed.

End handlers.

(** ** Witness *)

#[local] Existing Instance id_codec.

(** The same frame arrives on two connections; the two calls alternate. *)
Definition two_calls : list choice :=
  Start 0 0 frame_A :: Start 0 0 frame_A :: concat (replicate 30 [Go 0; Go 1]).
Definition after_two_calls : pool :=
  foldl pool_pick (mkPool (started [ok_reply; ok_reply]) [] []) two_calls.

Lemma concurrent_acks_mean_landed_witness :
  map call_ack (pl_calls after_two_calls) = [AckSuccess; AckSuccess] /\
  len (rw_imported (pl_world after_two_calls)) = 2 /\
  Forall (fun c => call_ack c = AckFail \/ (call_ack c = AckSuccess /\ kept (call_fb c) (pl_world after_two_calls)))
    (pl_calls after_two_calls).
Proof.
  split; [vm_compute; reflexivity|]. split; [vm_compute; reflexivity|].
  apply (concurrent_acks_mean_landed (started [ok_reply; ok_reply]) after_two_calls).
  - apply started_inv.
  - apply pool_picks_run.
Defined.
