(* ===== verification/Sender.v ===== *)
(** * The sending loop ([internal/sender/sender.go]).

    The sender's state is the log (shared with the poller), the network and the
    metrics.  What the other goroutines do to the log between two calls of the
    sender, the clock, and the moments at which the context is cancelled are
    parameters of the state, so that every interleaving with the poller and
    every failure of the network is a run of the model. *)
From S2P Require Import Prelude Protocol WalDisk WalScan Wal WalQueue WalCommit WalCalm TcpClient.
Local Open Scope Z_scope.
Local Open Scope go_scope.

(** ** Configuration *)

Record SenderConfig := mkSConf {
  s_MaxRetry : Z; s_BackoffBase : Z; s_BackoffMax : Z;
  s_HeartbeatInterval : Z; s_IdleSleep : Z; s_Pipeline : Z }.

Definition default_to (d v : Z) : Z := if v <=? 0 then d else v.

Definition NewSender (c : SenderConfig) : SenderConfig :=
  mkSConf (default_to 10 (s_MaxRetry c)) (default_to 1000000000 (s_BackoffBase c))
    (default_to (60 * 1000000000) (s_BackoffMax c))
    (default_to (30 * 1000000000) (s_HeartbeatInterval c))
    (default_to (200 * 1000000) (s_IdleSleep c)) (default_to 1 (s_Pipeline c)).

(** ** State *)

Inductive smetric : Type :=
| SPending (n : Z) | SSend | SRetry | SAckOk | SAckFail | SHeartbeat
(** a warning in the log: the answer is no acknowledgement *)
| SInvalid
(** the loop waits for [d], or until the context is cancelled: between two attempts,
    or because there is nothing to send *)
| SWait (d : Z) | SIdle (d : Z).

Record SWorld := mkSW {
  sw_wal : World;
  sw_net : Net;
  sw_rivals : list (list rival);   (** one group before each call on the log *)
  sw_clock : list Z;               (** successive readings of the clock *)
  sw_cancels : list bool;          (** [ctx.Done()] at each [select] *)
  sw_metrics : list smetric }.

(** The model ran out of turns; the code would go on. *)
Inductive serr : Type := SFuel.

Abbreviation SM := (M SWorld serr).

(** ** Calls *)

Definition wal_call {A} (m : W A) : SM (outcome werr A) := fun s =>
  let w1 := foldl rival_run (sw_wal s) (hd [] (sw_rivals s)) in
  let '(o, w2) := m w1 in
  (Ok o, mkSW w2 (sw_net s) (tl (sw_rivals s)) (sw_clock s) (sw_cancels s) (sw_metrics s)).

Definition net_call {A} (m : T A) : SM (outcome terr A) := fun s =>
  let '(o, n) := m (sw_net s) in
  (Ok o, mkSW (sw_wal s) n (sw_rivals s) (sw_clock s) (sw_cancels s) (sw_metrics s)).

Definition scount (m : smetric) : SM unit := modify (fun s =>
  mkSW (sw_wal s) (sw_net s) (sw_rivals s) (sw_clock s) (sw_cancels s) (sw_metrics s ++ [m])).

Definition clock : SM Z := fun s =>
  (Ok (hd 0 (sw_clock s)),
   mkSW (sw_wal s) (sw_net s) (sw_rivals s) (tl (sw_clock s)) (sw_cancels s) (sw_metrics s)).

(** A [select] with a [ctx.Done()] branch: once the context is cancelled, every
    later one sees it. *)
Definition cancelled : SM bool := fun s =>
  match sw_cancels s with
  | true :: _ => (Ok true, s)
  | _ => (Ok false,
          mkSW (sw_wal s) (sw_net s) (sw_rivals s) (sw_clock s) (tl (sw_cancels s)) (sw_metrics s))
  end.

(** A [select] that waits as well. *)
Definition wait (e : smetric) : SM bool := scount e ;;; cancelled.

(** A value of a call that, if the call panicked, panics here too. *)
Definition unwrap {E A} (o : outcome E A) : SM (outcome E A) :=
  match o with Panic => panic | _ => ret o end.

(** ** Backoff *)

(** The loop of [backoff] with [i] turns left; durations are 64-bit. *)
Fixpoint backoff_loop (i : nat) (max d : Z) : Z :=
  match i with
  | O => d
  | S i' =>
      let d' := i64 (d * 2) in
      if max <=? d' then max else backoff_loop i' max d'
  end.

Section sender.
Context (cfg : SenderConfig).

Definition backoff (n : Z) : Z :=
  if n <=? 0 then 0 else backoff_loop (Z.to_nat (n - 1)) (s_BackoffMax cfg) (s_BackoffBase cfg).

(** [retryCount++] with the cap of the pipeline. *)
Definition retry_capped (retry : Z) : Z :=
  if s_MaxRetry cfg <? retry + 1 then s_MaxRetry cfg else retry + 1.

(** [retryCount++] after a refusal. *)
Definition retry_refused (retry : Z) : Z :=
  if s_MaxRetry cfg <=? retry + 1 then s_MaxRetry cfg else retry + 1.

(** ** Heartbeat *)

Definition sendHeartbeat {C : Codec} : SM unit :=
  match EncodeHeartbeat 0 with
  | Ok fb =>
      o <- net_call EnsureConnected ;;
      match o with
      | Ok _ =>
          o <- net_call (SendFrame fb) ;;
          match o with
          | Ok _ =>
              o <- net_call WaitAck ;;
              match o with Ok _ => scount SHeartbeat | _ => ret tt end
          | _ => ret tt
          end
      | _ => ret tt
      end
  | _ => ret tt
  end.

(** ** The sliding window *)

Inductive sending : Type :=
| SentAll (retry : Z)
| SendNack (i : nat) (retry : Z)
| SendCancelled (retry : Z).

(** The sending loop of [runPipeline], from the frame [i]. *)
Fixpoint send_loop (retry : Z) (i : nat) (frames : list FrameData) : SM sending :=
  match frames with
  | [] => ret (SentAll retry)
  | f :: rest =>
      c <- cancelled ;;
      c' <- (if c : bool then ret true else if Nat.eqb i 0 then ret false else wait (SWait (backoff retry))) ;;
      if c' : bool then ret (SendCancelled retry)
      else
        scount SSend ;;;
        o <- net_call (SendFrame (fd_Bytes f)) ;;
        match o with
        | Ok _ => send_loop retry (S i) rest
        | _ => scount SRetry ;;; ret (SendNack i (retry_capped retry))
        end
  end.

(** The acknowledgement loop of [runPipeline], from the frame [i]: where to
    resume, if the window was not acknowledged whole. *)
Fixpoint ack_loop (retry : Z) (i : nat) (frames : list FrameData) : SM (option nat * Z) :=
  match frames with
  | [] => ret (None, retry)
  | f :: rest =>
      o <- net_call WaitAck ;;
      match o with
      | Ok ack =>
          if ack =? AckSuccess then
            now <- clock ;;
            o <- wal_call (Commit now (fd_Seq f)) ;;
            o <- unwrap o ;;
            match o with
            | Ok _ => scount SAckOk ;;; ack_loop 0 (S i) rest
            | _ => ack_loop retry (S i) rest
            end
          else if ack =? AckFail then
            scount SAckFail ;;; net_call Close ;;; ret (Some i, retry_refused retry)
          else scount SInvalid ;;; net_call Close ;;; ret (Some i, retry + 1)
      | _ => scount SRetry ;;; ret (Some i, retry_capped retry)
      end
  end.

(** Reconnecting before a window is sent again. *)
Definition reconnect (retry : Z) : SM Z :=
  o <- net_call EnsureConnected ;;
  match o with Ok _ => ret retry | _ => scount SRetry ;;; ret (retry_capped retry) end.

(** The outer loop of [runPipeline]. *)
Fixpoint window_loop (fuel : nat) (retry : Z) (frames : list FrameData) : SM Z :=
  match fuel with
  | O => fail SFuel
  | S fuel' =>
      r <- send_loop retry 0 frames ;;
      match r with
      | SendCancelled retry => ret retry
      | SendNack i retry => retry <- reconnect retry ;; window_loop fuel' retry (drop i frames)
      | SentAll retry =>
          a <- ack_loop retry 0 frames ;;
          match a with
          | (None, retry) => ret retry
          | (Some i, retry) => retry <- reconnect retry ;; window_loop fuel' retry (drop i frames)
          end
      end
  end.

Definition runPipeline (fuel : nat) (seq : Z) (frameBytes : bytes) (retryCount : Z) : SM Z :=
  o <- wal_call (PeekBatch (s_Pipeline cfg)) ;;
  o <- unwrap o ;;
  let frames := match o with Ok fds => fds | _ => [mkFD seq frameBytes] end in
  window_loop fuel retryCount frames.

(** ** The main loop *)

(** The local variables of [Run]. *)
Record locals := mkLocals {
  l_retryCount : Z; l_lastHeartbeat : Z; l_cached : option (Z * bytes) }.

Definition with_retry (n : Z) (l : locals) : locals := mkLocals n (l_lastHeartbeat l) (l_cached l).

(** The frame the next attempt sends: the cached one when it has this number. *)
Definition cached_frame (l : locals) (seq : Z) (frameBytes : bytes) : bytes :=
  match l_cached l with
  | Some (cseq, cb) => if cseq =? seq then cb else frameBytes
  | None => frameBytes
  end.

(** One attempt in stop-and-wait mode: the new retry count. *)
Definition stop_and_wait (seq : Z) (frameBytes : bytes) (retry : Z) : SM Z :=
  scount SSend ;;;
  o <- net_call (SendFrame frameBytes) ;;
  match o with
  | Ok _ =>
      o <- net_call WaitAck ;;
      match o with
      | Ok ack =>
          if ack =? AckSuccess then
            now <- clock ;;
            o <- wal_call (Commit now seq) ;;
            o <- unwrap o ;;
            match o with
            | Ok _ => scount SAckOk ;;; ret 0
            | _ => ret retry
            end
          else if ack =? AckFail then scount SAckFail ;;; ret (retry_refused retry)
          else scount SInvalid ;;; ret (retry + 1)
      | _ => scount SRetry ;;; ret (retry + 1)
      end
  | _ => scount SRetry ;;; ret (retry + 1)
  end.

(** Nothing to send: a heartbeat when one is due, then the wait for a frame. *)
Definition idle {C : Codec} (l : locals) : SM (option locals) :=
  scount (SPending 0) ;;;
  now <- clock ;;
  l' <- (if s_HeartbeatInterval cfg <=? now - l_lastHeartbeat l
         then sendHeartbeat ;;; now' <- clock ;; ret (mkLocals (l_retryCount l) now' (l_cached l))
         else ret l) ;;
  c <- wait (SIdle (s_IdleSleep cfg)) ;;
  if c : bool then ret None
  else wal_call (modify (set_wal (with_notify false))) ;;; ret (Some l').

(** One turn of the loop of [Run]; [None] when it returns. *)
Definition run_turn {C : Codec} (fuel : nat) (l : locals) : SM (option locals) :=
  c <- cancelled ;;
  if c : bool then ret None
  else
    o <- wal_call Peek ;;
    o <- unwrap o ;;
    match o with
    | Err ErrEmpty => idle l
    | Ok (seq, fb) =>
        o <- wal_call (gets PendingCount) ;;
        scount (SPending (match o with Ok n => n | _ => 0 end)) ;;;
        let frameBytes := cached_frame l seq fb in
        let l1 := mkLocals (l_retryCount l) (l_lastHeartbeat l) (Some (seq, frameBytes)) in
        c <- wait (SWait (backoff (l_retryCount l))) ;;
        if c : bool then ret None
        else
          o <- net_call EnsureConnected ;;
          match o with
          | Ok _ =>
              r <- (if 1 <? s_Pipeline cfg then runPipeline fuel seq frameBytes (l_retryCount l)
                    else stop_and_wait seq frameBytes (l_retryCount l)) ;;
              ret (Some (with_retry r l1))
          | _ => scount SRetry ;;; ret (Some (with_retry (l_retryCount l + 1) l1))
          end
    | _ => c <- wait (SIdle (s_IdleSleep cfg)) ;; ret (if c : bool then None else Some l)
    end.

(** [n] turns of [Run] from its start. *)
Fixpoint run_turns {C : Codec} (fuel n : nat) (l : locals) : SM (option locals) :=
  match n with
  | O => ret (Some l)
  | S n' =>
      o <- run_turn fuel l ;;
      match o with Some l' => run_turns fuel n' l' | None => ret None end
  end.

Definition Run {C : Codec} (fuel n : nat) : SM (option locals) :=
  start <- clock ;; run_turns fuel n (mkLocals 0 start None).

End sender.
