(* ===== verification/SenderSpec.v ===== *)
(** * What the sending loop guarantees

    A frame leaves the queue only when the acknowledgement at its own position
    on its own connection was 0xff, whatever the network does and however the
    poller's appends interleave; nothing else leaves the queue and nothing the
    poller appends is lost.  The file system is assumed to answer. *)
From S2P Require Import Prelude Protocol WalDisk WalScan Wal WalQueue WalCommit WalCalm TcpClient Sender.
Local Open Scope Z_scope.
Local Open Scope go_scope.

(** ** The network *)

(** Some connection carried the frame [b], whole and after whole frames, and the
    byte read at its position is 0xff. *)
Definition delivered (n : Net) (b : bytes) : Prop :=
  exists c fs rest, n_sent n c = concat fs ++ b ++ rest /\ Forall wf_frame (fs ++ [b]) /\
    n_acks n c !! length fs = Some AckSuccess.

Lemma delivered_ext n n' b : wire_ext n n' -> delivered n b -> delivered n' b.
Proof.
  intros [_ Hx] (c & fs & rest & Hs & Hwf & Ha). destruct (Hx c) as [[x Es] [l Ea]].
  exists c, fs, (rest ++ x). split; [by rewrite Es, Hs, <- !app_assoc|]. split; [done|].
  rewrite Ea. by apply lookup_app_l_Some.
Qed.

(** A stream of whole frames, perhaps cut inside the last one. *)
Definition whole_frames (s : bytes) : Prop :=
  exists fbs fb torn, s = concat fbs ++ torn /\ Forall wf_frame fbs /\ wf_frame fb /\
    torn `prefix_of` fb /\ torn <> fb.

(** The open connection carries whole frames, one acknowledgement has been read
    for each but the last ones, [out]. *)
Definition awaiting (out : list bytes) (n : Net) : Prop :=
  forall c, c_conn (n_client n) = Some c ->
    exists fbs, n_sent n c = concat (fbs ++ out) /\ Forall wf_frame fbs /\
      length fbs = length (n_acks n c).

Record net_inv (out : list bytes) (n : Net) : Prop := {
  ni_ok : net_ok n;
  ni_streams : forall c, whole_frames (n_sent n c);
  ni_wf : Forall wf_frame out;
  ni_await : awaiting out n }.

Lemma wf_frame_nonempty fb : wf_frame fb -> fb <> [].
Proof. intros (h & _ & Hl & H0) ->. rewrite len_nil in Hl. unfold HeaderSize in Hl. lia. Qed.

Lemma whole_frames_concat fbs fb : Forall wf_frame fbs -> wf_frame fb -> whole_frames (concat fbs).
Proof.
  intros Hwf Hfb. exists fbs, fb, []. rewrite app_nil_r. split_and!; try done.
  - apply prefix_nil.
  - intros E. by apply (wf_frame_nonempty fb).
Qed.

Lemma closed_await out n : c_conn (n_client n) = None -> awaiting out n.
Proof. intros H c. by rewrite H. Qed.

Lemma wrote_ext c b n n' : wrote c b n n' -> wire_ext n n'.
Proof.
  intros (H1 & H2 & H3 & H4). split; [lia|]. intros d. rewrite H3. split.
  - destruct (decide (d = c)) as [-> |]; [by eexists|]. exists []. by rewrite app_nil_r, H2.
  - exists []. by rewrite app_nil_r.
Qed.

Lemma net_send fb out n : net_inv out n -> wf_frame fb ->
  wp (SendFrame fb) (fun o n' => wire_ext n n' /\
    match o with
    | Ok _ => net_inv (out ++ [fb]) n'
    | Err _ => net_inv [] n'
    | Panic => False
    end) n.
Proof.
  intros [Hok Hst Hwf Haw] Hfb. eapply wp_conseq; [by apply SendFrame_wire|].
  intros o n' [Hok' H]. destruct (c_conn (n_client n)) as [c|] eqn:Ec.
  2: { destruct H as [-> ->]. split; [done|]. split; [done|done|done|]. by apply closed_await. }
  destruct H as [_ H]. destruct (Haw c Ec) as (fbs & Hs & Hfbs & Hl).
  assert (Hstr : forall b, wrote c b n n' -> b `prefix_of` fb -> forall d, whole_frames (n_sent n' d)).
  { intros b (H1 & H2 & _ & _) Hb d. destruct (decide (d = c)) as [-> |]; [|rewrite H2 by done; apply Hst].
    rewrite H1, Hs. destruct (decide (b = fb)) as [-> |Hne].
    - replace (concat (fbs ++ out) ++ fb) with (concat ((fbs ++ out) ++ [fb])).
      { apply (whole_frames_concat _ fb); [|done]. by rewrite !Forall_app, Forall_singleton. }
      rewrite (concat_app (fbs ++ out)). cbn. by rewrite app_nil_r.
    - exists (fbs ++ out), fb, b. by rewrite Forall_app. }
  destruct o as [[]|e|]; [| |done].
  - destruct H as [Hc Hw]. split; [by eapply wrote_ext|]. split; [done| | |].
    + by eapply Hstr.
    + by rewrite Forall_app, Forall_singleton.
    + intros d. rewrite Hc. intros [= <-]. destruct Hw as (H1 & _ & H3 & _).
      exists fbs. split; [|by rewrite H3]. rewrite H1, Hs, app_assoc, (concat_app (fbs ++ out)).
      cbn. by rewrite app_nil_r.
  - destruct H as (_ & Hc & b & Hb & Hw). split; [by eapply wrote_ext|]. split; [done| |done|].
    + by eapply Hstr.
    + by apply closed_await.
Qed.

Lemma net_ack f out n : net_inv (f :: out) n ->
  wp WaitAck (fun o n' => wire_ext n n' /\
    match o with
    | Ok a => net_inv out n' /\ (a = AckSuccess -> delivered n' f)
    | Err _ => net_inv [] n'
    | Panic => False
    end) n.
Proof.
  intros [Hok Hst Hwf Haw]. eapply wp_conseq; [by apply WaitAck_wire|].
  intros o n' (Hok' & Hx & H). split; [done|]. destruct (c_conn (n_client n)) as [c|] eqn:Ec.
  2: { destruct H as [-> ->]. split; [done|done|done|]. by apply closed_await. }
  destruct H as (Hsent & Hacks & H). destruct (Haw c Ec) as (fbs & Hs & Hfbs & Hl).
  assert (Hstr : forall d, whole_frames (n_sent n' d)) by (intros d; rewrite Hsent; apply Hst).
  apply Forall_cons in Hwf as [Hf Hout].
  destruct o as [a|e|]; [| |done].
  - destruct H as [Hc Ha]. split; [split; try done|].
    + intros d. rewrite Hc. intros [= <-]. exists (fbs ++ [f]).
      rewrite Hsent, Hs, Ha, <- app_assoc, !length_app, Hl. split; [done|].
      by rewrite Forall_app, Forall_singleton.
    + intros ->. exists c, fbs, (concat out). rewrite Hsent, Hs, Ha.
      split; [by rewrite concat_app|]. split; [by rewrite Forall_app, Forall_singleton|].
      by rewrite Hl, lookup_app_r, Nat.sub_diag by lia.
  - destruct H as (_ & Hc & _). split; [done|done|done|]. by apply closed_await.
Qed.

Lemma net_connect n : net_inv [] n ->
  wp EnsureConnected (fun o n' => wire_ext n n' /\ net_inv [] n' /\ o <> Panic) n.
Proof.
  intros [Hok Hst Hwf Haw]. eapply wp_conseq; [by apply EnsureConnected_wire|].
  intros o n' (Hok' & Hsame & Hx & H). split; [done|]. split; [|by destruct o].
  split; [done| |done|].
  - intros d. rewrite (proj1 (Hsame d)). apply Hst.
  - destruct o as [[]|e|]; [|apply closed_await, H|done]. destruct H as (c & Hc & Hor).
    intros d. rewrite Hc. intros [= <-]. destruct Hor as [Hold|(_ & Hs & Ha)].
    + rewrite (proj1 (Hsame c)), (proj2 (Hsame c)). by apply Haw.
    + exists []. by rewrite Hs, Ha.
Qed.

Lemma net_close out n : net_inv out n ->
  wp Close (fun o n' => wire_ext n n' /\ net_inv [] n' /\ o <> Panic) n.
Proof.
  intros [[Hfr Hcn] Hst Hwf Haw]. unfold Close, closeLocked. wp_steps.
  split; [split; [done|]; intros d; split; exists []; by rewrite app_nil_r|].
  split; [|done]. split; [by constructor|done|done|]. by apply closed_await.
Qed.

(** ** The log *)

Definition valid_queue (q : queue) : Prop := Forall (fun p => wf_frame p.2) (q_frames q).

Definition rivals_size (gs : list (list rival)) : Z := foldr (fun g n => group_size g + n) 0 gs.

(** Frames were added at the end, with new numbers. *)
Definition grows (q q' : ledger) : Prop :=
  q_next q <= q_next q' /\ lg_done q' = lg_done q /\ exists added, q_frames q' = q_frames q ++ added /\
    Forall (fun p : Z * bytes => q_next q <= p.1) added.

Lemma grows_refl q : grows q q.
Proof. split; [lia|]. split; [done|]. exists []. by rewrite app_nil_r. Qed.

Lemma grows_trans q1 q2 q3 : grows q1 q2 -> grows q2 q3 -> grows q1 q3.
Proof.
  intros (H1 & D1 & a1 & E1 & F1) (H2 & D2 & a2 & E2 & F2). split; [lia|]. split; [congruence|]. exists (a1 ++ a2).
  split; [by rewrite E2, E1, app_assoc|]. apply Forall_app. split; [done|].
  eapply Forall_impl; [exact F2|]. cbn. intros. lia.
Qed.

Lemma rivals_size_nonneg gs : 0 <= rivals_size gs.
Proof.
  unfold rivals_size. induction gs as [|g gs IH]; cbn [foldr]; [lia|]. pose proof (group_size_nonneg g). lia.
Qed.

Lemma group_size_concat gs : group_size (concat gs) = rivals_size gs.
Proof. induction gs as [|g gs IH]; [done|]. cbn [concat]. rewrite group_size_app, IH. done. Qed.

Lemma number_from n fbs : Forall (fun p : Z * bytes => n <= p.1) (number n fbs).
Proof.
  revert n. induction fbs as [|fb fbs IH]; intros n; cbn; constructor; [cbn; lia|].
  eapply Forall_impl; [apply IH|]. cbn. intros. lia.
Qed.

Section promise.
Context {LP : LogPromise}.

Lemma rival_run_ok w q a todo : promised w q (a :: todo) -> valid_queue q -> rival_ok a ->
  q_next q + rival_size a < 2 ^ 64 ->
  exists q', promised (rival_run w a) q' todo /\ valid_queue q' /\ grows q q' /\ q_next q' = q_next q + rival_size a.
Proof.
  intros Hl Hv Ha Hb. exists (lg_rival a q). split; [by apply promised_rival|].
  destruct a as [typ fbs|now ts]; cbn [rival_ok rival_size lg_rival] in *.
  - split; [|split; [split; [|split]|done]].
    + unfold valid_queue, lg_append, q_append; cbn. apply Forall_app. split; [done|]. by apply number_valid.
    + cbn. zlia.
    + done.
    + exists (number (q_next q) fbs). split; [done|]. apply number_from.
  - split; [done|]. split; [apply grows_refl|lia].
Qed.

Lemma rivals_run_ok todo g : forall w q, promised w q (g ++ todo) -> valid_queue q -> Forall rival_ok g ->
  q_next q + group_size g < 2 ^ 64 ->
  exists q', promised (foldl rival_run w g) q' todo /\ valid_queue q' /\ grows q q' /\
    q_next q' = q_next q + group_size g.
Proof.
  induction g as [|a g IH]; intros w q Hl Hv Hg Hb.
  { exists q. split; [done|]. split; [done|]. split; [apply grows_refl|cbn; lia]. }
  change (group_size (a :: g)) with (rival_size a + group_size g) in *. cbn [foldl].
  apply Forall_cons in Hg as [Ha Hg]. pose proof (group_size_nonneg g).
  destruct (rival_run_ok w q a (g ++ todo) Hl Hv Ha ltac:(lia)) as (q1 & Hl1 & Hv1 & Hg1 & Hn1).
  destruct (IH _ q1 Hl1 Hv1 Hg ltac:(lia)) as (q2 & Hl2 & Hv2 & Hg2 & Hn2).
  exists q2. split; [done|]. split; [done|]. split; [by eapply grows_trans|lia].
Qed.

(** ** The invariant of the sender *)

Record sinv (q : ledger) (out : list bytes) (s : SWorld) : Prop := {
  si_log : promised (sw_wal s) q (concat (sw_rivals s));
  si_valid : valid_queue q;
  si_net : net_inv out (sw_net s);
  si_rivals : Forall (Forall rival_ok) (sw_rivals s);
  si_room : q_next q + rivals_size (sw_rivals s) < 2 ^ 64 }.

(** From [q] to [q']: frames are added at the end, and frames are removed from
    the front, each of them delivered. *)
Definition evolves (q : ledger) (s : SWorld) (q' : ledger) (s' : SWorld) : Prop :=
  wire_ext (sw_net s) (sw_net s') /\ q_next q <= q_next q' /\
  exists gone added, q_frames q ++ added = gone ++ q_frames q' /\ lg_done q' = lg_done q ++ gone /\
    Forall (fun p => delivered (sw_net s') p.2) gone /\
    Forall (fun p : Z * bytes => q_next q <= p.1) added.

Lemma evolves_refl q s : evolves q s q s.
Proof. split; [done|]. split; [lia|]. exists [], []. by rewrite !app_nil_r. Qed.

Lemma evolves_trans q1 s1 q2 s2 q3 s3 :
  evolves q1 s1 q2 s2 -> evolves q2 s2 q3 s3 -> evolves q1 s1 q3 s3.
Proof.
  intros (X1 & N1 & g1 & a1 & E1 & D1 & G1 & A1) (X2 & N2 & g2 & a2 & E2 & D2 & G2 & A2).
  split; [by etrans|]. split; [lia|]. exists (g1 ++ g2), (a1 ++ a2).
  split; [by rewrite app_assoc, E1, <- !app_assoc, E2|]. split; [by rewrite D2, D1, app_assoc|]. rewrite !Forall_app. split; [split|split].
  - eapply Forall_impl; [exact G1|]. intros p Hp. by eapply delivered_ext.
  - done.
  - done.
  - eapply Forall_impl; [exact A2|]. cbn. intros. lia.
Qed.

Lemma evolves_grows q q' s s' : grows q q' -> wire_ext (sw_net s) (sw_net s') -> evolves q s q' s'.
Proof.
  intros (Hn & D & added & E & F) Hx. split; [done|]. split; [done|]. exists [], added.
  split; [by rewrite E|]. split; [by rewrite D, app_nil_r|]. by split.
Qed.

(** The context has been cancelled. *)
Definition stopped (s : SWorld) : Prop := exists l, sw_cancels s = true :: l.

(** Only the clock, the cancellations and the metrics differ. *)
Definition same_world (s s' : SWorld) : Prop :=
  sw_wal s' = sw_wal s /\ sw_net s' = sw_net s /\ sw_rivals s' = sw_rivals s.

Lemma sinv_same q out s s' : same_world s s' -> sinv q out s -> sinv q out s'.
Proof. intros (E1 & E2 & E3) []. constructor; by rewrite ?E1, ?E2, ?E3. Qed.

Lemma evolves_same q0 s0 q s s' : same_world s s' -> evolves q0 s0 q s -> evolves q0 s0 q s'.
Proof. intros (_ & E & _). unfold evolves. by rewrite E. Qed.

(** ** The calls *)

Lemma wp_cancelled Q s :
  (stopped s -> Q (Ok true) s) ->
  (forall s', same_world s s' -> Q (Ok false) s') -> wp cancelled Q s.
Proof.
  intros Ht Hf. unfold cancelled, wp. destruct (sw_cancels s) as [|[] l] eqn:E.
  - by apply Hf.
  - apply Ht. by exists l.
  - by apply Hf.
Qed.

Lemma wp_clock Q s : (forall t s', same_world s s' -> stopped s = stopped s' -> Q (Ok t) s') -> wp clock Q s.
Proof. intros H. by apply H. Qed.

Lemma wp_scount m Q s :
  (forall s', same_world s s' -> sw_cancels s' = sw_cancels s -> Q (Ok tt) s') -> wp (scount m) Q s.
Proof. intros H. by apply H. Qed.

(** A call on the network, from its specification. *)
Lemma wp_net_call {A} (m : T A) (R : outcome terr A -> Net -> Prop) Q s :
  wp m R (sw_net s) ->
  (forall o s', R o (sw_net s') -> sw_wal s' = sw_wal s -> sw_rivals s' = sw_rivals s ->
    sw_cancels s' = sw_cancels s -> Q (Ok o) s') ->
  wp (net_call m) Q s.
Proof.
  unfold wp, net_call. intros HR HQ. destruct (m (sw_net s)) as [o n]. cbn in *. by apply HQ.
Qed.

Lemma sinv_net q out out' s s' :
  sinv q out s -> net_inv out' (sw_net s') -> sw_wal s' = sw_wal s -> sw_rivals s' = sw_rivals s ->
  sinv q out' s'.
Proof. intros [] Hn Hw Hr. constructor; by rewrite ?Hw, ?Hr. Qed.

(** A call on the log: the other goroutines go first. *)
Lemma wp_wal_call {A} (m : W A) q out Q s : sinv q out s ->
  (forall q1 s1, grows q q1 -> promised (sw_wal s1) q1 (concat (sw_rivals s1)) -> sw_net s1 = sw_net s ->
    sw_cancels s1 = sw_cancels s -> sinv q1 out s1 ->
    let '(o, w2) := m (sw_wal s1) in
    Q (Ok o) (mkSW w2 (sw_net s1) (sw_rivals s1) (sw_clock s1) (sw_cancels s1) (sw_metrics s1))) ->
  wp (wal_call m) Q s.
Proof.
  intros [Hl Hv Hn Hr Hb] H. unfold wal_call, wp. cbv zeta.
  assert (Hsplit : rivals_size (sw_rivals s) = group_size (hd [] (sw_rivals s)) + rivals_size (tl (sw_rivals s))).
  { by destruct (sw_rivals s). }
  assert (Hg : Forall rival_ok (hd [] (sw_rivals s)) /\ Forall (Forall rival_ok) (tl (sw_rivals s))).
  { destruct Hr; by split. }
  pose proof (rivals_size_nonneg (tl (sw_rivals s))).
  assert (Hcat : concat (sw_rivals s) = hd [] (sw_rivals s) ++ concat (tl (sw_rivals s))) by by destruct (sw_rivals s).
  rewrite Hcat in Hl. destruct (rivals_run_ok _ (hd [] (sw_rivals s)) (sw_wal s) q Hl Hv (proj1 Hg) ltac:(lia)) as (q1 & Hl1 & Hv1 & Hg1 & Hn1).
  specialize (H q1 (mkSW (foldl rival_run (sw_wal s) (hd [] (sw_rivals s))) (sw_net s)
    (tl (sw_rivals s)) (sw_clock s) (sw_cancels s) (sw_metrics s)) Hg1 Hl1 eq_refl eq_refl).
  cbn [sw_wal sw_net sw_rivals sw_clock sw_cancels sw_metrics] in H.
  destruct (m _) as [o w2]. apply H. constructor; cbn [sw_wal sw_net sw_rivals]; try done; [apply Hg|lia].
Qed.

(** The frames of a window are in the queue, one after the other. *)
Definition window_in (q : ledger) (frames : list FrameData) : Prop :=
  exists pre post, q_frames q = pre ++ map as_pair frames ++ post.

Lemma window_grows q q' frames : grows q q' -> window_in q frames -> window_in q' frames.
Proof.
  intros (_ & _ & added & E & _) (pre & post & Hq). exists pre, (post ++ added).
  by rewrite E, Hq, <- !app_assoc.
Qed.

Lemma window_drop q i frames : window_in q frames -> window_in q (drop i frames).
Proof.
  intros (pre & post & Hq). exists (pre ++ map as_pair (take i frames)), post.
  rewrite Hq, <- app_assoc, (app_assoc (map _ _)), <- map_app, take_drop. done.
Qed.

Lemma window_valid (q : ledger) frames : valid_queue q -> window_in q frames -> Forall wf_frame (map fd_Bytes frames).
Proof.
  intros Hv (pre & post & Hq). unfold valid_queue in Hv. rewrite Hq, !Forall_app in Hv.
  destruct Hv as (_ & Hv & _). rewrite Forall_map in *. exact Hv.
Qed.

(** Committing the first frame of a window after its acknowledgement. *)
Lemma wp_commit now f rest q out Q s :
  sinv q out s -> window_in q (f :: rest) -> delivered (sw_net s) (fd_Bytes f) ->
  (forall o q' s', o <> Panic -> sinv q' out s' -> evolves q s q' s' -> window_in q' rest ->
    sw_cancels s' = sw_cancels s -> Q (Ok o) s') ->
  wp (wal_call (Commit now (fd_Seq f))) Q s.
Proof.
  intros Hi Hw Hd HQ. apply (wp_wal_call _ q out); [done|].
  intros q1 s1 Hg Hl Hnet Hc Hi1. pose proof (window_grows _ _ _ Hg Hw) as (pre & post & Hq).
  destruct pre as [|[h b] pre]; cbn [map app] in Hq.
  - pose proof (promised_commit now (as_pair f) _ _ _ _ Hl Hq) as Hl2. cbn [fst as_pair] in Hl2.
    destruct (Commit_ok now (sw_wal s1) q1 (fd_Seq f) (fd_Bytes f) (map as_pair rest ++ post) (promised_log _ _ _ Hl) Hq)
      as (w2 & E2 & _). rewrite E2 in Hl2 |- *. cbn [snd] in Hl2.
    apply (HQ _ (lg_commit (as_pair f) q1)); [done| | |by exists [], post; cbn; rewrite Hq|done].
    + destruct Hi1 as [_ Hv1 Hn1 Hr1 Hb1]. constructor; try done. cbn. unfold valid_queue in *.
      rewrite Hq in Hv1. cbn. rewrite Hq. cbn. by apply Forall_cons in Hv1 as [_ ?].
    + eapply evolves_trans; [apply (evolves_grows _ q1 _ s1 Hg); by rewrite Hnet|].
      split; [done|]. split; [done|]. exists [as_pair f], []. cbn. rewrite Hq, app_nil_r.
      split; [done|]. split; [done|]. split; [|done]. constructor; [cbn; by rewrite Hnet|done].
  - pose proof (queue_sorted _ _ (promised_log _ _ _ Hl)) as [Hs _]. rewrite Hq in Hs.
    apply StronglySorted_inv in Hs as [_ Hs].
    assert (h < fd_Seq f).
    { rewrite Forall_forall in Hs. apply (Hs (as_pair f)). rewrite elem_of_app, elem_of_cons. auto. }
    rewrite (Commit_wrong now _ q1 (fd_Seq f) h b _ (promised_log _ _ _ Hl) Hq) by lia.
    apply (HQ _ q1); [done|by destruct s1| | |done].
    + apply evolves_grows; [done|]. by cbn; rewrite Hnet.
    + exists ((h, b) :: pre ++ [as_pair f]), post. rewrite Hq. cbn. by rewrite <- app_assoc.
Qed.

(** ** The steps of a run *)

(** A run from [q] ends in a queue that [q] evolved into, with [R] of the result;
    when the model runs out of turns the invariant still holds. *)
Definition ran {A} (R : A -> ledger -> SWorld -> Prop) (q : ledger) (s : SWorld)
    (o : outcome serr A) (s' : SWorld) : Prop :=
  exists q', evolves q s q' s' /\
    match o with
    | Ok a => R a q' s'
    | Err _ => exists out, sinv q' out s'
    | Panic => False
    end.

Lemma ran_from {A} (R : A -> ledger -> SWorld -> Prop) q s q1 s1 o s' :
  evolves q s q1 s1 -> ran R q1 s1 o s' -> ran R q s o s'.
Proof. intros H (q' & H' & HR). exists q'. split; [by eapply evolves_trans|done]. Qed.

Lemma wp_ran_ret {A} (a : A) (R : A -> ledger -> SWorld -> Prop) q s :
  R a q s -> wp (ret a) (ran R q s) s.
Proof. intros H. apply wp_ret. exists q. split; [apply evolves_refl|done]. Qed.

Lemma wp_ran_bind {A B} (m : SM A) (k : A -> SM B) R1 R2 q s :
  wp m (ran R1 q s) s ->
  (forall a q1 s1, R1 a q1 s1 -> wp (k a) (ran R2 q1 s1) s1) ->
  wp (bind m k) (ran R2 q s) s.
Proof.
  intros Hm Hk. apply wp_bind. eapply wp_conseq; [exact Hm|].
  intros o s1 (q1 & He & HR). destruct o as [a|e|]; cbn [bind_post]; [| |done].
  - eapply wp_conseq; [by apply Hk|]. intros o s'. by apply ran_from.
  - by exists q1.
Qed.

(** Sequences that start with a step on the clock, the context or the metrics. *)
Lemma wp_ran_same {A B} (m : SM A) (k : A -> SM B) R (S : A -> SWorld -> Prop) q s :
  wp m (fun o s' => match o with Ok a => same_world s s' /\ S a s' | _ => False end) s ->
  (forall a s1, same_world s s1 -> S a s1 -> wp (k a) (ran R q s1) s1) ->
  wp (bind m k) (ran R q s) s.
Proof.
  intros Hm Hk. apply wp_bind. eapply wp_conseq; [exact Hm|].
  intros [a|e|] s1 H; cbn [bind_post]; [|done|done]. destruct H as [Hs HS].
  eapply wp_conseq; [by apply (Hk a)|]. intros o s'. apply ran_from.
  eapply evolves_same; [exact Hs|]. apply evolves_refl.
Qed.

Lemma same_world_refl s : same_world s s.
Proof. done. Qed.

Lemma wp_ran_cancelled {B} (k : bool -> SM B) R q s :
  (stopped s -> wp (k true) (ran R q s) s) ->
  (forall s1, same_world s s1 -> wp (k false) (ran R q s1) s1) ->
  wp (bind cancelled k) (ran R q s) s.
Proof.
  intros Ht Hf. apply wp_bind. apply wp_cancelled; cbn [bind_post]; [done|].
  intros s1 Hs. eapply wp_conseq; [by apply Hf|]. intros o s'. apply ran_from.
  eapply evolves_same; [exact Hs|]. apply evolves_refl.
Qed.

Lemma wp_ran_count {B} m (k : unit -> SM B) R q s :
  (forall s1, same_world s s1 -> wp (k tt) (ran R q s1) s1) -> wp (bind (scount m) k) (ran R q s) s.
Proof.
  intros Hk. eapply (wp_ran_same _ _ _ (fun _ _ => True)); [by apply wp_scount|].
  intros [] s1 Hs _. by apply Hk.
Qed.

Lemma wp_ran_wait {B} e (k : bool -> SM B) R q s :
  (forall s1, same_world s s1 -> stopped s1 -> wp (k true) (ran R q s1) s1) ->
  (forall s1, same_world s s1 -> wp (k false) (ran R q s1) s1) ->
  wp (bind (wait e) k) (ran R q s) s.
Proof.
  intros Ht Hf. assert (H : wp (scount e ;;; bind cancelled k) (ran R q s) s); [|exact H].
  apply wp_ran_count. intros s1 Hs1. apply wp_ran_cancelled; [by apply Ht|]. intros s2 Hs2. apply Hf.
  destruct Hs1 as (?&?&?), Hs2 as (?&?&?). split_and!; congruence.
Qed.

Lemma wp_ran_clock {B} (k : Z -> SM B) R q s :
  (forall t s1, same_world s s1 -> wp (k t) (ran R q s1) s1) -> wp (bind clock k) (ran R q s) s.
Proof.
  intros Hk. eapply (wp_ran_same _ _ _ (fun _ _ => True)); [by apply wp_clock|].
  intros t s1 Hs _. by apply Hk.
Qed.

Lemma ran_net {A} (m : T A) (R : outcome terr A -> Net -> Prop) (R' : outcome terr A -> ledger -> SWorld -> Prop) q out s :
  sinv q out s ->
  wp m (fun o n' => wire_ext (sw_net s) n' /\ R o n') (sw_net s) ->
  (forall o s', R o (sw_net s') -> sw_wal s' = sw_wal s -> sw_rivals s' = sw_rivals s -> R' o q s') ->
  wp (net_call m) (ran R' q s) s.
Proof.
  intros Hi Hm HR. eapply wp_net_call; [exact Hm|]. intros o s' [Hx Ho] Hw Hr _.
  exists q. split; [apply evolves_grows; [apply grows_refl|done]|]. by apply HR.
Qed.

Lemma ran_send q out fb s : sinv q out s -> wf_frame fb ->
  wp (net_call (SendFrame fb)) (ran (fun o q' s' => q' = q /\
    match o with Ok _ => sinv q (out ++ [fb]) s' | Err _ => sinv q [] s' | Panic => False end) q s) s.
Proof.
  intros Hi Hwf. eapply (ran_net _ _ _ q out); [done|by apply net_send, Hwf; apply Hi|].
  intros o s' Ho Hw Hr. split; [done|]. destruct o; [| |done]; by eapply sinv_net.
Qed.

Lemma ran_ack q f out s : sinv q (f :: out) s ->
  wp (net_call WaitAck) (ran (fun o q' s' => q' = q /\
    match o with
    | Ok a => sinv q out s' /\ (a = AckSuccess -> delivered (sw_net s') f)
    | Err _ => sinv q [] s'
    | Panic => False
    end) q s) s.
Proof.
  intros Hi. eapply (ran_net _ _ _ q (f :: out)); [done|by apply net_ack, Hi|].
  intros o s' Ho Hw Hr. split; [done|]. destruct o; [| |done].
  - destruct Ho as [Hn Hd]. split; [by eapply sinv_net|done].
  - by eapply sinv_net.
Qed.

Lemma ran_connect q s : sinv q [] s ->
  wp (net_call EnsureConnected) (ran (fun o q' s' => q' = q /\ sinv q [] s' /\ o <> Panic) q s) s.
Proof.
  intros Hi. eapply (ran_net _ _ _ q []); [done|by apply net_connect, Hi|].
  intros o s' [Hn Hp] Hw Hr. split; [done|]. split; [by eapply sinv_net|done].
Qed.

Lemma ran_close q out s : sinv q out s ->
  wp (net_call Close) (ran (fun o q' s' => q' = q /\ sinv q [] s' /\ o <> Panic) q s) s.
Proof.
  intros Hi. eapply (ran_net _ _ _ q out); [done|eapply net_close, Hi|].
  intros o s' [Hn Hp] Hw Hr. split; [done|]. split; [by eapply sinv_net|done].
Qed.

Lemma ran_commit now f rest q out s :
  sinv q out s -> window_in q (f :: rest) -> delivered (sw_net s) (fd_Bytes f) ->
  wp (wal_call (Commit now (fd_Seq f)))
    (ran (fun o q' s' => o <> Panic /\ sinv q' out s' /\ window_in q' rest) q s) s.
Proof.
  intros Hi Hw Hd. eapply wp_commit; [done|done|done|]. intros o q' s' Ho Hi' He Hw' _. by exists q'.
Qed.

(** A reading call on the log that leaves it as it is. *)
Lemma ran_read {A} (m : W A) (R : outcome werr A -> ledger -> Prop) q out s : sinv q out s ->
  (forall q1 w, grows q q1 -> log_ok w q1 -> exists o, m w = (o, w) /\ R o q1) ->
  wp (wal_call m) (ran (fun o q' s' => R o q' /\ sinv q' out s' /\ grows q q') q s) s.
Proof.
  intros Hi Hm. apply (wp_wal_call _ q out); [done|]. intros q1 s1 Hg Hl Hn _ Hi1.
  destruct (Hm q1 (sw_wal s1) Hg (promised_log _ _ _ Hl)) as (o & -> & Ho). exists q1.
  split; [apply evolves_grows; [done|cbn; by rewrite Hn]|]. split; [done|]. split; [by destruct s1|done].
Qed.

Lemma wp_unwrap {E A B} (o : outcome E A) (k : outcome E A -> SM B) Q s :
  o <> Panic -> wp (k o) Q s -> wp (bind (unwrap o) k) Q s.
Proof. intros Ho Hk. apply wp_bind. destruct o; [exact Hk|exact Hk|done]. Qed.

(** ** The sliding window *)

Section sender_spec.
Context (cfg : SenderConfig).

(** Where a window is after its sending loop. *)
Definition sent_post_ (i : nat) (frames : list FrameData) (out : list bytes)
    (r : sending) (q' : ledger) (s' : SWorld) : Prop :=
  match r with
  | SentAll _ => sinv q' (out ++ map fd_Bytes frames) s'
  | SendNack j _ => (i <= j)%nat /\ sinv q' [] s'
  | SendCancelled _ => stopped s' /\ exists out', sinv q' out' s'
  end.

Lemma send_loop_spec frames : forall retry i q out s,
  sinv q out s -> Forall wf_frame (map fd_Bytes frames) ->
  wp (send_loop cfg retry i frames) (ran (fun r q' s' => q' = q /\ sent_post_ i frames out r q' s') q s) s.
Proof.
  induction frames as [|f frames IH]; intros retry i q out s Hi Hwf; cbn [send_loop].
  { apply wp_ran_ret. split; [done|]. cbn. by rewrite app_nil_r. }
  cbn [map] in Hwf. apply Forall_cons in Hwf as [Hf Hwf].
  assert (Hsend : forall s1, same_world s s1 -> wp
    (scount SSend ;;;
     o <- net_call (SendFrame (fd_Bytes f)) ;;
     match o with
     | Ok _ => send_loop cfg retry (S i) frames
     | _ => scount SRetry ;;; ret (SendNack i (retry_capped cfg retry))
     end) (ran (fun r q' s' => q' = q /\ sent_post_ i (f :: frames) out r q' s') q s1) s1).
  { intros s1 Hs. apply wp_ran_count. intros s2 Hs2.
    assert (Hi2 : sinv q out s2) by (eapply sinv_same; [exact Hs2|]; by eapply sinv_same).
    eapply wp_ran_bind; [by apply (ran_send q out)|]. intros o q1 s3 [-> Ho]. destruct o as [[]|e|]; [| |done].
    - eapply wp_conseq; [by apply (IH retry (S i) q (out ++ [fd_Bytes f]))|].
      intros o s' (q' & He & HR). exists q'. split; [done|]. destruct o as [r|?|]; [|done|done].
      destruct HR as [-> HR]. split; [done|]. destruct r; cbn in *; [|intuition lia|done].
      by rewrite <- app_assoc in HR.
    - apply wp_ran_count. intros s4 Hs4. apply wp_ran_ret. split; [done|]. split; [done|].
      by eapply sinv_same. }
  assert (Hcancel : stopped s -> wp (ret (SendCancelled retry))
    (ran (fun r q' s' => q' = q /\ sent_post_ i (f :: frames) out r q' s') q s) s).
  { intros Hst. apply wp_ran_ret. split; [done|]. cbn. eauto. }
  apply wp_ran_cancelled.
  - intros Hst. apply wp_bind, wp_ret. cbn [bind_post]. by apply Hcancel.
  - intros s1 Hs. destruct (Nat.eqb i 0).
    + apply wp_bind, wp_ret. cbn [bind_post]. by apply Hsend.
    + apply wp_ran_wait; [|intros s2 Hs2; apply Hsend; destruct Hs as (?&?&?), Hs2 as (?&?&?); split_and!; congruence].
      intros s2 Hs2 Hst. apply wp_ran_ret. split; [done|]. split; [done|]. exists out.
      eapply sinv_same; [exact Hs2|]. by eapply sinv_same.
Qed.

(** Where a window is after its acknowledgement loop: it is done, or what
    remains of it is still in the queue. *)
Definition acked_post (i : nat) (frames : list FrameData) (r : option nat * Z)
    (q' : ledger) (s' : SWorld) : Prop :=
  sinv q' [] s' /\
  match r.1 with
  | None => True
  | Some j => (i <= j)%nat /\ window_in q' (drop (j - i) frames)
  end.

Lemma ack_loop_spec frames : forall retry i q s,
  sinv q (map fd_Bytes frames) s -> window_in q frames ->
  wp (ack_loop cfg retry i frames) (ran (acked_post i frames) q s) s.
Proof.
  induction frames as [|f frames IH]; intros retry i q s Hi Hw; cbn [ack_loop].
  { apply wp_ran_ret. by split. }
  assert (Hback : forall r q1 s1, sinv q1 [] s1 -> window_in q1 (f :: frames) ->
    acked_post i (f :: frames) (Some i, r) q1 s1).
  { intros r q1 s1 Hi1 Hw1. split; [done|]. cbn [fst]. split; [done|]. by rewrite Nat.sub_diag. }
  assert (Hnext : forall retry q1 s1, sinv q1 (map fd_Bytes frames) s1 -> window_in q1 frames ->
    wp (ack_loop cfg retry (S i) frames) (ran (acked_post i (f :: frames)) q1 s1) s1).
  { intros retry' q1 s1 Hi1 Hw1. eapply wp_conseq; [by apply IH|].
    intros o s' (q' & He & HR). exists q'. split; [done|]. destruct o as [[[j|] r]|?|]; [| |done|done].
    - destruct HR as (Hi' & Hj & Hw'). split; [done|]. cbn [fst] in *. split; [lia|].
      by replace (j - i)%nat with (S (j - S i)) by lia.
    - done. }
  cbn [map] in Hi. eapply wp_ran_bind; [by apply (ran_ack q)|].
  intros o q1 s1 [-> Ho]. destruct o as [a|e|]; [| |done].
  2: { apply wp_ran_count. intros s2 Hs. apply wp_ran_ret. apply Hback; [by eapply sinv_same|done]. }
  destruct Ho as [Hi1 Hd]. destruct (Z.eqb_spec a AckSuccess) as [Ha|Ha].
  - apply wp_ran_clock. intros t s2 Hs.
    assert (Hi2 : sinv q (map fd_Bytes frames) s2) by by eapply sinv_same.
    eapply wp_ran_bind.
    { apply (ran_commit t f frames q (map fd_Bytes frames)); [done|done|].
      destruct Hs as (_ & -> & _). by apply Hd. }
    intros o q2 s3 (Ho & Hi3 & Hw3). apply wp_unwrap; [done|]. destruct o as [[]|e|]; [| |done].
    + apply wp_ran_count. intros s4 Hs4. apply Hnext; [by eapply sinv_same|done].
    + by apply Hnext.
  - destruct (a =? AckFail); (apply wp_ran_count; intros s2 Hs; eapply wp_ran_bind;
      [apply (ran_close q (map fd_Bytes frames)); by eapply sinv_same|]);
      intros o q2 s3 (-> & Hi3 & _); apply wp_ran_ret; by apply Hback.
Qed.

Lemma reconnect_spec retry q s : sinv q [] s ->
  wp (reconnect cfg retry) (ran (fun _ q' s' => q' = q /\ sinv q [] s') q s) s.
Proof.
  intros Hi. eapply wp_ran_bind; [by apply ran_connect|]. intros o q1 s1 (-> & Hi1 & Ho).
  destruct o as [[]|e|]; [by apply wp_ran_ret| |done].
  apply wp_ran_count. intros s2 Hs. apply wp_ran_ret. split; [done|]. by eapply sinv_same.
Qed.

(** Between two turns: every frame sent is answered for, or the loop will not
    go on. *)
Definition settled (q : ledger) (s : SWorld) : Prop :=
  exists out, sinv q out s /\ (out = [] \/ stopped s).

Lemma window_loop_spec fuel : forall retry frames q s,
  sinv q [] s -> window_in q frames ->
  wp (window_loop cfg fuel retry frames) (ran (fun _ q' s' => settled q' s') q s) s.
Proof.
  induction fuel as [|fuel IH]; intros retry frames q s Hi Hw; cbn [window_loop].
  { apply wp_fail. exists q. split; [apply evolves_refl|]. by exists []. }
  assert (Hagain : forall r i q1 s1, sinv q1 [] s1 -> window_in q1 (drop i frames) ->
    wp (retry <- reconnect cfg r ;; window_loop cfg fuel retry (drop i frames))
      (ran (fun _ q' s' => settled q' s') q1 s1) s1).
  { intros r i q1 s1 Hi1 Hw1. eapply wp_ran_bind; [by apply reconnect_spec|].
    intros r' q2 s2 [-> Hi2]. by apply IH. }
  eapply wp_ran_bind; [by apply (send_loop_spec frames retry 0 q []); [|eapply window_valid; [apply Hi|]]|].
  intros r q1 s1 [-> Hr]. destruct r as [r|i r|r]; cbn [sent_post_] in Hr.
  - cbn [app] in Hr. eapply wp_ran_bind; [by apply ack_loop_spec|].
    intros [[i|] r'] q2 s2 [Hi2 Hj]; cbn [fst] in Hj.
    + apply Hagain; [done|]. rewrite Nat.sub_0_r in Hj. apply Hj.
    + apply wp_ran_ret. exists []. auto.
  - apply Hagain; [apply Hr|]. by apply window_drop.
  - apply wp_ran_ret. destruct Hr as [Hst [out' Hi']]. exists out'. auto.
Qed.

Lemma window_prefix (q : ledger) n fds : map as_pair fds = q_peek n q -> window_in q fds.
Proof.
  unfold q_peek, window_in. intros H. exists []. rewrite H. cbn [app]. destruct (0 <? n).
  - exists (drop (Z.to_nat n) (q_frames q)). by rewrite take_drop.
  - exists []. by rewrite app_nil_r.
Qed.

Lemma runPipeline_spec fuel seq b retry q s :
  sinv q [] s -> window_in q [mkFD seq b] ->
  wp (runPipeline cfg fuel seq b retry) (ran (fun _ q' s' => settled q' s') q s) s.
Proof.
  intros Hi Hw. eapply wp_ran_bind.
  { apply (ran_read _ (fun o q1 => o <> Panic /\ forall fds, o = Ok fds -> window_in q1 fds) q []); [done|].
    intros q1 w Hg Hl. destruct (PeekBatch_ok (s_Pipeline cfg) w q1 Hl) as [[_ ->]|(_ & fds & -> & Hm)].
    - eexists. split; [done|]. by split.
    - eexists. split; [done|]. split; [done|]. intros fds' [= <-]. by eapply window_prefix. }
  intros o q1 s1 ([Ho Hfds] & Hi1 & Hg). apply wp_unwrap; [done|]. cbv zeta.
  apply window_loop_spec; [done|]. destruct o as [fds|e|]; [by apply Hfds| |done].
  by eapply window_grows.
Qed.

(** ** Stop and wait, heartbeats *)

Lemma settled_aligned q s : sinv q [] s -> settled q s.
Proof. intros H. exists []. auto. Qed.

Lemma stop_and_wait_spec seq b retry q s :
  sinv q [] s -> window_in q [mkFD seq b] ->
  wp (stop_and_wait cfg seq b retry) (ran (fun _ q' s' => sinv q' [] s') q s) s.
Proof.
  intros Hi Hw. apply wp_ran_count. intros s1 Hs.
  assert (Hwf : wf_frame b).
  { pose proof (window_valid q _ (si_valid _ _ _ Hi) Hw) as H. by apply Forall_cons in H as [H _]. }
  assert (Hi1 : sinv q [] s1) by by eapply sinv_same.
  eapply wp_ran_bind; [by apply (ran_send q [])|]. intros o q1 s2 [-> Ho].
  destruct o as [[]|e|]; [| |done].
  2: { apply wp_ran_count. intros s3 Hs3. apply wp_ran_ret. by eapply sinv_same. }
  cbn [app] in Ho. eapply wp_ran_bind; [by apply (ran_ack q)|]. intros o q1 s3 [-> Ho3].
  destruct o as [a|e|]; [| |done].
  2: { apply wp_ran_count. intros s4 Hs4. apply wp_ran_ret. by eapply sinv_same. }
  destruct Ho3 as [Hi3 Hd]. destruct (Z.eqb_spec a AckSuccess) as [Ha|Ha].
  - apply wp_ran_clock. intros t s4 Hs4. eapply wp_ran_bind.
    { apply (ran_commit t (mkFD seq b) [] q []); [by eapply sinv_same|done|].
      destruct Hs4 as (_ & -> & _). by apply Hd. }
    intros o q2 s5 (Hp & Hi5 & _). apply wp_unwrap; [done|]. destruct o as [[]|e|]; [| |done].
    + apply wp_ran_count. intros s6 Hs6. apply wp_ran_ret. by eapply sinv_same.
    + by apply wp_ran_ret.
  - destruct (a =? AckFail); apply wp_ran_count; intros s4 Hs4; apply wp_ran_ret; by eapply sinv_same.
Qed.

Context {C : Codec}.

Definition heartbeat : bytes := encodeRaw TypeHeartbeat 0 [] 0.

Lemma heartbeat_wf : wf_frame heartbeat.
Proof. exists (mkHeader Magic Version TypeHeartbeat 0 0 0). by vm_compute. Qed.

Lemma sendHeartbeat_spec q s : sinv q [] s ->
  wp sendHeartbeat (ran (fun _ q' s' => q' = q /\ sinv q [] s') q s) s.
Proof.
  intros Hi. unfold sendHeartbeat. change (EncodeHeartbeat 0) with (@Ok perr bytes heartbeat). cbv iota.
  eapply wp_ran_bind; [by apply ran_connect|]. intros o q1 s1 (-> & Hi1 & Ho).
  destruct o as [[]|e|]; [|by apply wp_ran_ret|done].
  eapply wp_ran_bind; [by apply (ran_send q []); [|apply heartbeat_wf]|]. intros o q1 s2 [-> Ho2].
  destruct o as [[]|e|]; [|by apply wp_ran_ret|done]. cbn [app] in Ho2.
  eapply wp_ran_bind; [by apply (ran_ack q)|]. intros o q1 s3 [-> Ho3].
  destruct o as [a|e|]; [|by apply wp_ran_ret|done]. destruct Ho3 as [Hi3 _].
  eapply wp_conseq; [apply wp_scount|].
  - intros s4 Hs4 _.
    assert (H : ran (fun (_ : unit) q' s' => q' = q /\ sinv q [] s') q s3 (Ok tt) s4); [|exact H].
    exists q. split; [eapply evolves_same; [exact Hs4|apply evolves_refl]|].
    split; [done|]. by eapply sinv_same.
  - done.
Qed.

(** ** The main loop *)

(** The cached frame is the one the queue holds under its number. *)
Definition cache_ok (l : locals) (q : ledger) : Prop :=
  forall seq b, l_cached l = Some (seq, b) ->
    seq < q_next q /\ forall b', (seq, b') ∈ q_frames q -> b' = b.

Lemma cache_evolves l q q' s s' : evolves q s q' s' -> cache_ok l q -> cache_ok l q'.
Proof.
  intros (_ & Hn & gone & added & E & _ & _ & Ha) Hc seq b Hl. destruct (Hc seq b Hl) as [Hs Hb].
  split; [lia|]. intros b' Hin. assert (Hin' : (seq, b') ∈ q_frames q ++ added).
  { rewrite E, elem_of_app. by right. }
  apply elem_of_app in Hin' as [Hin'|Hin']; [by apply Hb|].
  rewrite Forall_forall in Ha. specialize (Ha _ Hin'). cbn in Ha. lia.
Qed.

Lemma sorted_head_unique w (q : ledger) seq b rest : log_ok w q -> q_frames q = (seq, b) :: rest ->
  seq < q_next q /\ forall b', (seq, b') ∈ q_frames q -> b' = b.
Proof.
  intros Hl Hq. destruct (queue_sorted w q Hl) as [Hs Hn]. rewrite Hq in *.
  apply Forall_cons in Hn as [Hn _]. split; [done|]. intros b' Hin.
  apply elem_of_cons in Hin as [[= ->]|Hin]; [done|].
  apply StronglySorted_inv in Hs as [_ Hs]. rewrite Forall_forall in Hs.
  specialize (Hs _ Hin). cbn in Hs. lia.
Qed.

(** What a turn preserves. *)
Definition turn_post (o : option locals) (q : ledger) (s : SWorld) : Prop :=
  settled q s /\ match o with Some l => cache_ok l q | None => True end.

Lemma idle_spec l q s : sinv q [] s -> cache_ok l q ->
  wp (idle cfg l) (ran turn_post q s) s.
Proof.
  intros Hi Hc. apply wp_ran_count. intros s1 Hs1. apply wp_ran_clock. intros t s2 Hs2.
  assert (Hi2 : sinv q [] s2) by (eapply sinv_same; [exact Hs2|]; by eapply sinv_same).
  eapply (wp_ran_bind _ _ (fun l' q' s' => q' = q /\ sinv q [] s' /\ cache_ok l' q)).
  { destruct (_ <=? _); [|by apply wp_ran_ret].
    eapply wp_ran_bind; [by apply sendHeartbeat_spec|]. intros [] q1 s3 [-> Hi3].
    apply wp_ran_clock. intros t' s4 Hs4. apply wp_ran_ret. split; [done|]. split; [by eapply sinv_same|done]. }
  intros l' q1 s3 (-> & Hi3 & Hc3). apply wp_ran_wait.
  { intros s4 Hs4 _. apply wp_ran_ret. split; [apply settled_aligned; by eapply sinv_same|done]. }
  intros s4 Hs4. assert (Hi4 : sinv q [] s4) by by eapply sinv_same.
  eapply (wp_ran_bind _ _ (fun _ q' s' => sinv q' [] s' /\ cache_ok l' q')).
  { apply (wp_wal_call _ q []); [done|]. intros q1 s5 Hg Hl Hn _ Hi5. unfold modify.
    exists q1. split; [apply evolves_grows; [done|cbn; by rewrite Hn]|]. split.
    - destruct Hi5 as [_ Hv5 Hn5 Hr5 Hb5]. constructor; try done. by apply promised_notify.
    - eapply (cache_evolves _ q q1 s4 s5); [|done]. apply evolves_grows; [done|by rewrite Hn]. }
  intros o q1 s5 [Hi5 Hc5]. apply wp_ran_ret. split; [by apply settled_aligned|done].
Qed.

(** A turn starts by looking at the context: when it goes on, everything sent
    has been answered for. *)
Lemma wp_turn_start {B} (k : bool -> SM B) R q s : settled q s ->
  (settled q s -> wp (k true) (ran R q s) s) ->
  (forall s1, sinv q [] s1 -> wp (k false) (ran R q s1) s1) ->
  wp (bind cancelled k) (ran R q s) s.
Proof.
  intros Hset Ht Hf. pose proof Hset as (out & Hi & Hout). apply wp_bind. unfold cancelled, wp at 1.
  destruct (sw_cancels s) as [|[] l] eqn:E; cbn [fst snd bind_post]; [|by apply Ht|].
  all: destruct Hout as [->|[l' Hst]]; [|congruence].
  all: eapply wp_conseq; [by apply Hf, (sinv_same q [] s)|]; intros o s'; apply ran_from.
  all: eapply evolves_same; [|apply evolves_refl]; done.
Qed.

Lemma cached_frame_head l seq b (q : ledger) w rest : log_ok w q -> q_frames q = (seq, b) :: rest ->
  cache_ok l q -> cached_frame l seq b = b.
Proof.
  intros Hl Hq Hc. unfold cached_frame. destruct (l_cached l) as [[cseq cb]|] eqn:E; [|done].
  destruct (Z.eqb_spec cseq seq) as [->|]; [|done]. symmetry. apply (Hc seq cb E).
  rewrite Hq. apply elem_of_cons. by left.
Qed.

(** One attempt to send the head of the queue. *)
Lemma attempt_spec fuel l seq b q s : sinv q [] s -> window_in q [mkFD seq b] -> cache_ok l q ->
  wp (c <- wait (SWait (backoff cfg (l_retryCount l))) ;;
      if c : bool then ret None
      else
        o <- net_call EnsureConnected ;;
        match o with
        | Ok _ =>
            r <- (if 1 <? s_Pipeline cfg then runPipeline cfg fuel seq b (l_retryCount l)
                  else stop_and_wait cfg seq b (l_retryCount l)) ;;
            ret (Some (with_retry r l))
        | _ => scount SRetry ;;; ret (Some (with_retry (l_retryCount l + 1) l))
        end) (ran turn_post q s) s.
Proof.
  intros Hi Hw Hc. apply wp_ran_wait.
  { intros s1 Hs1 _. apply wp_ran_ret. split; [apply settled_aligned; by eapply sinv_same|done]. }
  intros s1 Hs1. eapply wp_ran_bind; [apply ran_connect; by eapply sinv_same|].
  intros o q1 s2 (-> & Hi2 & Ho). destruct o as [[]|e|]; [| |done].
  - eapply (wp_ran_bind _ _ (fun _ q' s' => settled q' s' /\ cache_ok l q')).
    + assert (Hcache : forall (R : Z -> ledger -> SWorld -> Prop) o s',
        (forall r q' s', R r q' s' -> settled q' s') -> ran R q s2 o s' ->
        ran (fun _ q' s' => settled q' s' /\ cache_ok l q') q s2 o s').
      { intros R o s' HR (q' & He & Ho'). exists q'. split; [done|]. destruct o; [|done|done].
        split; [by eapply HR|]. by eapply cache_evolves. }
      destruct (1 <? s_Pipeline cfg).
      * eapply wp_conseq; [by apply runPipeline_spec|]. intros o s'. by apply Hcache.
      * eapply wp_conseq; [by apply stop_and_wait_spec|]. intros o s'. apply Hcache.
        intros r q' s0. apply settled_aligned.
    + intros r q2 s3 [Hset Hc3]. by apply wp_ran_ret.
  - apply wp_ran_count. intros s3 Hs3. apply wp_ran_ret. split; [|done].
    apply settled_aligned. by eapply sinv_same.
Qed.

Lemma run_turn_spec fuel l q s : settled q s -> cache_ok l q ->
  wp (run_turn cfg fuel l) (ran turn_post q s) s.
Proof.
  intros Hset Hc. unfold run_turn. apply wp_turn_start; [done|intros _; by apply wp_ran_ret|].
  intros s1 Hi1. eapply wp_ran_bind.
  { apply (ran_read _ (fun o q1 => match o with
      | Err e => e = ErrEmpty
      | Ok (seq, b) => exists w rest, log_ok w q1 /\ q_frames q1 = (seq, b) :: rest
      | Panic => False end) q []); [done|].
    intros q1 w _ Hl. destruct (Peek_ok w q1 Hl) as [[_ ->]|(seq & b & rest & Hq & ->)].
    - by exists (Err ErrEmpty).
    - exists (Ok (seq, b)). split; [done|]. by exists w, rest. }
  intros o q1 s2 (Ho & Hi2 & Hg). assert (Hc2 : cache_ok l q1).
  { apply (cache_evolves _ q q1 s1 s1); [by apply evolves_grows|done]. }
  destruct o as [[seq b]|e|]; [|subst e|done]; (apply wp_unwrap; [done|]).
  2: { by apply idle_spec. }
  destruct Ho as (w & rest & Hl & Hq). rewrite (cached_frame_head l seq b q1 w rest Hl Hq Hc2).
  pose proof (sorted_head_unique w q1 seq b rest Hl Hq) as Hhead.
  eapply wp_ran_bind.
  { apply (ran_read _ (fun _ _ => True) q1 []); [done|]. intros q2 w2 _ _. unfold gets. by eexists. }
  intros o q2 s3 (_ & Hi3 & Hg2). apply wp_ran_count. intros s4 Hs4.
  assert (Hhead2 : cache_ok (mkLocals (l_retryCount l) (l_lastHeartbeat l) (Some (seq, b))) q2).
  { apply (cache_evolves _ q1 q2 s2 s2); [by apply evolves_grows|]. by intros ? ? [= <- <-]. }
  apply (attempt_spec fuel (mkLocals (l_retryCount l) (l_lastHeartbeat l) (Some (seq, b))));
    [by eapply sinv_same| |done].
  eapply window_grows; [exact Hg2|]. exists [], rest. by rewrite Hq.
Qed.

Lemma run_turns_spec fuel n : forall l q s, settled q s -> cache_ok l q ->
  wp (run_turns cfg fuel n l) (ran turn_post q s) s.
Proof.
  induction n as [|n IH]; intros l q s Hset Hc; cbn [run_turns]; [by apply wp_ran_ret|].
  eapply wp_ran_bind; [by apply run_turn_spec|]. intros [l'|] q1 s1 [Hset1 Hc1].
  - by apply IH.
  - by apply wp_ran_ret.
Qed.

Lemma Run_ran fuel n q s : sinv q [] s -> wp (Run cfg fuel n) (ran turn_post q s) s.
Proof.
  intros Hi. apply wp_ran_clock. intros t s1 Hs1. apply run_turns_spec; [|done].
  apply settled_aligned. by eapply sinv_same.
Qed.

(** C8: no frame is lost between the log and the peer. Whatever the network does
    - refused connections, writes that stop anywhere, missing, negative and
    arbitrary acknowledgements -, whatever the poller appends meanwhile (the disk of
    the log answers), with or without the sliding window and for any number of turns, the frames that were
    in the log or have been appended to it are exactly those that are still in
    it, in order, preceded by frames each of which was carried whole by some
    connection, after whole frames, and acknowledged there by the 0xff at its own
    position. The loop never panics and every connection carries whole frames,
    but for the end of a broken one. *)
Theorem Run_loses_no_frame fuel n q s :
  sinv q [] s ->
  wp (Run cfg fuel n) (fun o s' => o <> Panic /\ exists (q' : ledger) gone added out,
    q_frames q ++ added = gone ++ q_frames q' /\ lg_done q' = lg_done q ++ gone /\
    Forall (fun p => delivered (sw_net s') p.2) gone /\
    Forall (fun p : Z * bytes => q_next q <= p.1) added /\ sinv q' out s') s.
Proof.
  intros Hi. eapply wp_conseq; [by apply Run_ran|].
  intros o s' (q' & (_ & _ & gone & added & E & D & G & A) & Ho). split; [by destruct o|].
  destruct o as [r|e|]; [destruct Ho as [(out & Hi' & _) _]|destruct Ho as [out Hi']|done].
  all: by exists q', gone, added, out.
Qed.

End sender_spec.
End promise.

(** ** Witness *)

#[local] Existing Instance plain_log.

Definition two_ledger : ledger := mkLedger [] two_queue.

(** Two frames in the log; the first dial fails, the first write is torn, the
    peer answers 0x00 and then 0xff, and the poller appends a frame before the
    third call on the log. *)
Definition rough_start : SWorld :=
  mkSW two (mkNet (NewClient (mkCC [] 0 0)) [false; true] [WrErr 3] [Some AckFail; Some AckSuccess] 0
      (fun _ => []) (fun _ => []))
    [[]; []; [RivalAppend TypeDataZstd [frame1]]] [] [] [].

Lemma rough_start_ok : sinv two_ledger [] rough_start.
Proof.
  destruct two_ok as [Hi Hr]. constructor.
  - by split.
  - repeat constructor; cbn [snd].
    + apply wf_frame_put_seq, frame1_wf.
    + apply wf_frame_put_seq, frame2_wf.
  - constructor; [by constructor| |by constructor|done]. intros c.
    apply (whole_frames_concat [] frame1); [constructor|apply frame1_wf].
  - repeat constructor. apply frame1_wf.
  - by vm_compute.
Qed.

Lemma Run_loses_no_frame_witness :
  wp (Run (C := id_codec) (NewSender (mkSConf 0 0 0 0 0 2)) 5 6) (fun o s' => o <> Panic /\
    exists (q' : ledger) gone added out, q_frames two_queue ++ added = gone ++ q_frames q' /\ lg_done q' = [] ++ gone /\
      Forall (fun p => delivered (sw_net s') p.2) gone /\
      Forall (fun p : Z * bytes => 3 <= p.1) added /\ sinv q' out s') rough_start.
Proof.
  apply (Run_loses_no_frame (C := id_codec) (NewSender (mkSConf 0 0 0 0 0 2)) 5 6 two_ledger rough_start).
  exact rough_start_ok.
Defined.
