(* ===== verification/SenderLive.v ===== *)
(** * The sending loop makes progress

    When the peer accepts connections and answers every frame with 0xff, each
    turn of the loop shortens the queue, in both modes, until it is empty; and
    the delays between attempts are bounded. *)
From S2P Require Import Prelude Protocol WalDisk WalScan Wal WalQueue WalCommit WalCalm TcpClient Sender.
Local Open Scope Z_scope.
Local Open Scope go_scope.

(** ** A peer that answers *)

(** Dials and writes succeed, the next [k] bytes read are 0xff, the log holds
    [q] and nobody else touches it, and the context is not cancelled. *)
Record ready (k : nat) (q : queue) (s : SWorld) : Prop := {
  rd_log : log_ok (sw_wal s) q;
  rd_dials : n_dials (sw_net s) = [];
  rd_writes : n_writes (sw_net s) = [];
  rd_reads : n_reads (sw_net s) = replicate k (Some AckSuccess);
  rd_rivals : sw_rivals s = [];
  rd_cancels : sw_cancels s = [] }.

Definition connected (s : SWorld) : Prop := is_Some (c_conn (n_client (sw_net s))).

(** Running [m] gives [a] and a state in [R]. *)
Definition gives {A} (m : SM A) (s : SWorld) (R : A -> SWorld -> Prop) : Prop :=
  exists a s', m s = (Ok a, s') /\ R a s'.

Lemma gives_bind {A B} (m : SM A) (k : A -> SM B) s R1 R2 :
  gives m s R1 -> (forall a s1, R1 a s1 -> gives (k a) s1 R2) -> gives (bind m k) s R2.
Proof.
  intros (a & s1 & E & H) Hk. destruct (Hk a s1 H) as (b & s2 & E2 & H2).
  exists b, s2. split; [|done]. unfold bind. by rewrite E.
Qed.

Lemma gives_ret {A} (a : A) s (R : A -> SWorld -> Prop) : R a s -> gives (ret a) s R.
Proof. intros H. by exists a, s. Qed.

Lemma ready_cancelled k q s : ready k q s -> gives cancelled s (fun b s' => b = false /\ ready k q s' /\
  (connected s -> connected s')).
Proof.
  intros []. unfold cancelled. unfold gives. rewrite rd_cancels0. do 2 eexists. split; [done|].
  split; [done|]. split; [by constructor|done].
Qed.

Lemma ready_count m k q s : ready k q s -> gives (scount m) s (fun _ s' => ready k q s' /\
  (connected s -> connected s')).
Proof. intros []. do 2 eexists. split; [done|]. split; [by constructor|done]. Qed.

Lemma ready_wait e k q s : ready k q s -> gives (wait e) s (fun b s' => b = false /\ ready k q s' /\
  (connected s -> connected s')).
Proof.
  intros H. eapply gives_bind; [by eapply ready_count|]. intros [] s1 [H1 Hc1].
  destruct (ready_cancelled k q s1 H1) as (b & s2 & E & Hb & H2 & Hc2).
  exists b, s2. split_and!; [done..|auto].
Qed.

Lemma ready_clock k q s : ready k q s -> gives clock s (fun _ s' => ready k q s' /\
  (connected s -> connected s')).
Proof. intros []. do 2 eexists. split; [done|]. split; [by constructor|done]. Qed.

Lemma ready_connect k q s : ready k q s ->
  gives (net_call EnsureConnected) s (fun o s' => o = Ok tt /\ ready k q s' /\ connected s').
Proof.
  intros [Hl Hd Hw Hr Hv Hc]. unfold gives, net_call, EnsureConnected, conn, bind, gets.
  destruct (c_conn (n_client (sw_net s))) as [c|] eqn:E; unfold ret, next_dial; rewrite ?Hd; cbn.
  - do 2 eexists. split; [done|]. split; [done|]. split; [by constructor|by exists c].
  - do 2 eexists. split; [done|]. split; [done|]. split; [by constructor|by eexists].
Qed.

Lemma ready_send fb k q s : ready k q s -> connected s ->
  gives (net_call (SendFrame fb)) s (fun o s' => o = Ok tt /\ ready k q s' /\ connected s').
Proof.
  intros [Hl Hd Hw Hr Hv Hc] [c E]. unfold gives, net_call, SendFrame, conn, bind at 1, gets.
  rewrite E. destruct fb as [|x fb]; cbn [length write_loop].
  - do 2 eexists. split; [done|]. split; [done|]. split; [by constructor|by exists c].
  - unfold bind, next_write. rewrite Hw. unfold modify. cbn [length].
    replace (drop (S (S (length fb))) (x :: fb)) with (@nil Z) by (symmetry; apply drop_ge; cbn; lia).
    destruct (length fb); cbn; (do 2 eexists; split; [done|]; split; [done|]; split; [by constructor|by exists c]).
Qed.

Lemma ready_ack k q s : ready (S k) q s -> connected s ->
  gives (net_call WaitAck) s (fun o s' => o = Ok AckSuccess /\ ready k q s' /\ connected s').
Proof.
  intros [Hl Hd Hw Hr Hv Hc] [c E]. unfold gives, net_call, WaitAck, conn, bind, gets, next_read.
  rewrite E, Hr. cbn. do 2 eexists. split; [done|]. split; [done|]. split; [by constructor|by exists c].
Qed.

(** A heartbeat may also find the peer silent. *)
Lemma ready_ack_any k q s : ready k q s -> connected s ->
  gives (net_call WaitAck) s (fun o s' => exists k', ready k' q s').
Proof.
  intros H Hc. destruct k as [|k].
  - destruct H as [Hl Hd Hw Hr Hv Hcn], Hc as [c E].
    unfold gives, net_call, WaitAck, conn, bind, gets, next_read. rewrite E, Hr. cbn.
    do 2 eexists. split; [done|]. exists 0%nat. by constructor.
  - destruct (ready_ack k q s H Hc) as (o & s' & E & _ & H' & _). exists o, s'. split; [done|]. by exists k.
Qed.

Lemma ready_commit now k q s seq b rest : ready k q s -> q_frames q = (seq, b) :: rest ->
  gives (wal_call (Commit now seq)) s (fun o s' => o = Ok tt /\ ready k (q_commit q) s' /\
    (connected s -> connected s')).
Proof.
  intros [Hl Hd Hw Hr Hv Hc] Hq. unfold gives, wal_call. rewrite Hv. cbn [hd foldl].
  destruct (Commit_ok now (sw_wal s) q seq b rest Hl Hq) as (w' & -> & Hl' & _).
  do 2 eexists. split; [done|]. split; [done|]. split; [by constructor|done].
Qed.

Lemma ready_read {A} (m : W A) (R : outcome werr A -> Prop) k q s : ready k q s ->
  (forall w, log_ok w q -> exists o, m w = (o, w) /\ R o) ->
  gives (wal_call m) s (fun o s' => R o /\ ready k q s' /\ (connected s -> connected s')).
Proof.
  intros [Hl Hd Hw Hr Hv Hc] Hm. unfold gives, wal_call. rewrite Hv. cbn [hd foldl].
  destruct (Hm _ Hl) as (o & -> & Ho). do 2 eexists. split; [done|]. split; [done|].
  split; [by constructor|done].
Qed.

(** ** The loop under such a peer *)

Section sender_live.
Context (cfg : SenderConfig).

Lemma ready_send_loop frames : forall retry i k q s, ready k q s -> connected s ->
  gives (send_loop cfg retry i frames) s (fun r s' => r = SentAll retry /\ ready k q s' /\ connected s').
Proof.
  induction frames as [|f rest IH]; intros retry i k q s H Hc; cbn [send_loop]; [by apply gives_ret|].
  eapply gives_bind; [by eapply ready_cancelled|]. intros b s1 (-> & H1 & Hc1).
  eapply (gives_bind _ _ _ (fun b s' => b = false /\ ready k q s' /\ connected s')).
  { destruct (Nat.eqb i 0); [apply gives_ret; by auto|].
    destruct (ready_wait (SWait (backoff cfg retry)) k q s1 H1) as (b & s2 & E & -> & H2 & Hc2).
    exists false, s2. cbv beta. split_and!; auto. }
  intros b s2 (-> & H2 & Hc2). eapply gives_bind; [by eapply ready_count|]. intros [] s3 [H3 Hc3].
  eapply gives_bind; [eapply ready_send; by auto|]. intros o s4 (-> & H4 & Hc4). by apply IH.
Qed.

Lemma ready_unwrap {A B} (a : A) (g : outcome werr A -> SM B) s R : gives (g (Ok a)) s R -> gives (bind (unwrap (Ok a)) g) s R.
Proof. done. Qed.

Lemma ready_ack_loop frames : forall retry i k q rest s,
  q_frames q = map as_pair frames ++ rest -> ready (length frames + k) q s -> connected s ->
  gives (ack_loop cfg retry i frames) s (fun r s' => r.1 = None /\
    ready k (mkQueue rest (q_next q)) s' /\ connected s').
Proof.
  induction frames as [|f fs IH]; intros retry i k q rest s Hq H Hc; cbn [ack_loop].
  { apply gives_ret. destruct q. cbn in *. by subst. }
  eapply gives_bind; [by apply (ready_ack (length fs + k) q s)|]. intros o s1 (-> & H1 & Hc1).
  rewrite Z.eqb_refl. eapply gives_bind; [by eapply ready_clock|]. intros now s2 [H2 Hc2].
  eapply gives_bind; [eapply ready_commit; [exact H2|exact Hq]|]. intros o s3 (-> & H3 & Hc3).
  apply ready_unwrap. eapply gives_bind; [by eapply ready_count|]. intros [] s4 [H4 Hc4].
  apply (IH 0 (S i) k (q_commit q) rest s4); [cbn; by rewrite Hq|done|].
  by apply Hc4, Hc3, Hc2.
Qed.

Lemma ready_window frames : forall fuel retry k q rest s,
  q_frames q = map as_pair frames ++ rest -> ready (length frames + k) q s -> connected s ->
  gives (window_loop cfg (S fuel) retry frames) s (fun _ s' =>
    ready k (mkQueue rest (q_next q)) s' /\ connected s').
Proof.
  intros fuel retry k q rest s Hq H Hc. cbn [window_loop].
  eapply gives_bind; [by eapply ready_send_loop|]. intros r s1 (-> & H1 & Hc1).
  eapply gives_bind; [by apply (ready_ack_loop frames retry 0 k q rest)|].
  intros [[i|] r] s2 (E & H2 & Hc2); [done|]. by apply gives_ret.
Qed.

(** The queue after its first [j] frames have left. *)
Definition q_drop (j : nat) (q : queue) : queue := mkQueue (drop j (q_frames q)) (q_next q).

(** A turn that shortens the queue. *)
Definition shorter (k : nat) (q : queue) (s : SWorld) : Prop :=
  exists j, (1 <= j <= length (q_frames q))%nat /\ ready (k - j) (q_drop j q) s.

Lemma ready_pipeline fuel seq b retry k q s :
  ready k q s -> connected s -> q_frames q <> [] -> (length (q_frames q) <= k)%nat -> 1 < s_Pipeline cfg ->
  gives (runPipeline cfg (S fuel) seq b retry) s (fun _ => shorter k q).
Proof.
  intros H Hc Hne Hk Hp. unfold runPipeline. eapply gives_bind.
  { apply (ready_read _ (fun o => exists fds, o = Ok fds /\ map as_pair fds = q_peek (s_Pipeline cfg) q) k q s H).
    intros w Hl. destruct (PeekBatch_ok (s_Pipeline cfg) w q Hl) as [[E _]|(_ & fds & -> & Hm)]; [done|]. eauto. }
  intros o s1 ((fds & -> & Hm) & H1 & Hc1). apply ready_unwrap. cbv zeta.
  assert (q_frames q = map as_pair fds ++ drop (length fds) (q_frames q) /\
    (1 <= length fds <= length (q_frames q))%nat) as [Hq Hlen].
  { unfold q_peek in Hm. destruct (Z.ltb_spec 0 (s_Pipeline cfg)); [|lia].
    pose proof (f_equal length Hm) as Hl. rewrite length_map, length_take in Hl.
    assert (Hpos : (1 <= length (q_frames q))%nat) by (destruct (q_frames q); cbn; [done|lia]).
    split; [|lia]. rewrite Hm. rewrite <- (take_drop (length fds) (q_frames q)) at 1. f_equal.
    rewrite Hl. destruct (decide (Z.to_nat (s_Pipeline cfg) <= length (q_frames q))%nat).
    - by rewrite Nat.min_l.
    - rewrite Nat.min_r, !take_ge by lia. done. }
  destruct (ready_window fds fuel retry (k - length fds) q _ s1 Hq) as (r & s2 & E & H2 & _).
  { by replace (length fds + (k - length fds))%nat with k by lia. }
  { by apply Hc1. }
  exists r, s2. split; [done|]. by exists (length fds).
Qed.

Lemma ready_stop_and_wait seq b fb retry k q rest s :
  ready (S k) q s -> connected s -> q_frames q = (seq, b) :: rest ->
  gives (stop_and_wait cfg seq fb retry) s (fun _ s' => ready k (q_commit q) s').
Proof.
  intros H Hc Hq. unfold stop_and_wait. eapply gives_bind; [by eapply ready_count|]. intros [] s1 [H1 Hc1].
  eapply gives_bind; [eapply ready_send; by auto|]. intros o s2 (-> & H2 & Hc2).
  eapply gives_bind; [by apply (ready_ack k q s2)|]. intros o s3 (-> & H3 & Hc3). rewrite Z.eqb_refl.
  eapply gives_bind; [by eapply ready_clock|]. intros now s4 [H4 Hc4].
  eapply gives_bind; [eapply ready_commit; [exact H4|exact Hq]|]. intros o s5 (-> & H5 & Hc5).
  apply ready_unwrap. eapply gives_bind; [by eapply ready_count|]. intros [] s6 [H6 Hc6]. by apply gives_ret.
Qed.

Section turns.
Context {C : Codec}.

(** A heartbeat, and the wait for a frame, leave the log alone. *)
Lemma ready_heartbeat k q s : ready k q s -> gives sendHeartbeat s (fun _ s' => exists k', ready k' q s').
Proof.
  intros H. unfold sendHeartbeat. destruct (EncodeHeartbeat 0) as [fb|e|]; [|apply gives_ret; by exists k..].
  eapply gives_bind; [by eapply ready_connect|]. intros o s1 (-> & H1 & Hc1).
  eapply gives_bind; [by eapply ready_send|]. intros o s2 (-> & H2 & Hc2).
  eapply gives_bind; [by eapply ready_ack_any|]. intros o s3 [k' H3].
  destruct o; [|apply gives_ret; by exists k'..].
  destruct (ready_count SHeartbeat k' q s3 H3) as (x & s4 & E & H4 & _). exists x, s4. eauto.
Qed.

Lemma ready_idle l k q s : ready k q s ->
  gives (idle cfg l) s (fun o s' => exists l' k', o = Some l' /\ ready k' q s').
Proof.
  intros H. unfold idle. eapply gives_bind; [by eapply ready_count|]. intros [] s1 [H1 _].
  eapply gives_bind; [by eapply ready_clock|]. intros now s2 [H2 _].
  eapply (gives_bind _ _ _ (fun _ s' => exists k', ready k' q s')).
  { destruct (_ <=? _); [|apply gives_ret; by exists k].
    eapply gives_bind; [by eapply ready_heartbeat|]. intros [] s3 [k' H3].
    eapply gives_bind; [by eapply ready_clock|]. intros now' s4 [H4 _]. apply gives_ret. by exists k'. }
  intros l' s3 [k' H3]. eapply gives_bind; [by eapply ready_wait|]. intros b s4 (-> & H4 & _).
  destruct H4 as [[Hi Hr Hcm] Hd Hw Hrd Hv Hcn]. unfold gives, bind, wal_call. rewrite Hv. cbn [hd foldl].
  unfold modify. do 2 eexists. split; [done|]. exists l', k'. split; [done|]. constructor; try done.
  split; [by apply wal_inv_notify|done|done].
Qed.

Lemma ready_turn fuel l k q s : ready k q s -> (length (q_frames q) <= k)%nat ->
  gives (run_turn cfg (S fuel) l) s (fun o s' => exists l', o = Some l' /\
    ((q_frames q = [] /\ exists k', ready k' q s') \/ shorter k q s')).
Proof.
  intros H Hk. unfold run_turn. eapply gives_bind; [by eapply ready_cancelled|]. intros b s1 (-> & H1 & _).
  eapply gives_bind.
  { apply (ready_read Peek (fun o => (o = Err ErrEmpty /\ q_frames q = []) \/
      exists seq b rest, o = Ok (seq, b) /\ q_frames q = (seq, b) :: rest) k q s1 H1).
    intros w Hl. destruct (Peek_ok w q Hl) as [[E ->]|(seq & b & rest & E & ->)]; eexists; (split; [done|]).
    - by left.
    - right. by exists seq, b, rest. }
  intros o s2 ([[-> Hq]|(seq & b & rest & -> & Hq)] & H2 & _).
  { change (bind (unwrap (Err ErrEmpty)) ?g) with (g (@Err werr (Z * bytes) ErrEmpty)).
    destruct (ready_idle l k q s2 H2) as (o & s3 & E & l' & k' & -> & H3).
    exists (Some l'), s3. split; [exact E|]. exists l'. split; [done|]. left. eauto. }
  apply ready_unwrap. cbv zeta. eapply gives_bind.
  { apply (ready_read (gets PendingCount) (fun _ => True) k q s2 H2). intros w _. by eexists. }
  intros o s3 (_ & H3 & _). eapply gives_bind; [by eapply ready_count|]. intros [] s4 [H4 _].
  eapply gives_bind; [by eapply ready_wait|]. intros b' s5 (-> & H5 & _).
  eapply gives_bind; [by eapply ready_connect|]. intros o' s6 (-> & H6 & Hc6).
  eapply (gives_bind _ _ _ (fun _ s' => shorter k q s')).
  - destruct (Z.ltb_spec 1 (s_Pipeline cfg)).
    + apply ready_pipeline; try done. by rewrite Hq.
    + destruct k as [|k]; [rewrite Hq in Hk; cbn in Hk; lia|].
      destruct (ready_stop_and_wait seq b (cached_frame l seq b) (l_retryCount l) k q rest s6 H6 Hc6 Hq) as (r & s7 & E & H7).
      exists r, s7. split; [done|]. exists 1%nat. rewrite Hq. cbn [length]. split; [lia|].
      replace (S k - 1)%nat with k by lia. unfold q_drop. unfold q_commit in H7. by rewrite Hq in *.
  - intros r s7 H7. apply gives_ret. eauto.
Qed.

Lemma ready_turns fuel n : forall l k q s,
  ready k q s -> (length (q_frames q) <= k)%nat -> (length (q_frames q) <= n)%nat ->
  gives (run_turns cfg (S fuel) n l) s (fun o s' => exists l' k', o = Some l' /\
    ready k' (mkQueue [] (q_next q)) s').
Proof.
  induction n as [|n IH]; intros l k [fs nx] s H Hk Hn; cbn [run_turns q_frames q_next] in *.
  { destruct fs; [|cbn in Hn; lia]. apply gives_ret. eauto. }
  eapply gives_bind; [by apply (ready_turn fuel l k)|].
  intros o s1 (l' & -> & [[Hq [k' H1]]|(j & Hj & H1)]); cbn [q_frames] in *.
  - subst fs. apply (IH l' k' (mkQueue [] nx) s1 H1); cbn; lia.
  - unfold q_drop in H1. cbn [q_frames q_next] in H1.
    apply (IH l' _ _ s1 H1); cbn [q_frames]; rewrite length_drop; lia.
Qed.

(** C16: the loop makes progress. When the peer accepts connections, every write
    goes through and the answers are 0xff, while the disk of the log answers and the
    poller appends nothing, [n] turns empty a log of at most [n]
    frames, in stop-and-wait mode and with any window: the loop ends neither
    early nor with a panic, the log is left well formed, empty and with the same
    next number, and no frame is asked for an acknowledgement twice ([k] answers
    are enough for [k] frames). *)
Theorem Run_drains_the_log fuel n k q s :
  (1 <= fuel)%nat -> ready k q s -> (length (q_frames q) <= k)%nat -> (length (q_frames q) <= n)%nat ->
  exists l s', Run cfg fuel n s = (Ok (Some l), s') /\ log_ok (sw_wal s') (mkQueue [] (q_next q)).
Proof.
  intros Hf H Hk Hn. destruct fuel as [|fuel]; [lia|]. unfold Run.
  assert (G : gives (start <- clock ;; run_turns cfg (S fuel) n (mkLocals 0 start None)) s
    (fun o s' => exists l' k', o = Some l' /\ ready k' (mkQueue [] (q_next q)) s')).
  { eapply gives_bind; [by eapply ready_clock|]. intros t s1 [H1 _]. by eapply ready_turns. }
  destruct G as (o & s' & E & l & k' & -> & [Hl _ _ _ _ _]). by exists l, s'.
Qed.

End turns.

(** ** The delay between attempts *)

Lemma backoff_loop_min max : 0 < max <= 2 ^ 62 -> forall i d, 0 < d < 2 ^ 62 ->
  backoff_loop (S i) max d = Z.min max (d * 2 ^ Z.of_nat (S i)).
Proof.
  intros Hm i. induction i as [|i IH]; intros d Hd; cbn [backoff_loop]; rewrite i64_small by (unfold is_i64; lia).
  - destruct (Z.leb_spec max (d * 2)); [rewrite Z.min_l|rewrite Z.min_r]; lia.
  - assert (E : d * 2 ^ Z.of_nat (S (S i)) = d * 2 * 2 ^ Z.of_nat (S i)).
    { rewrite (Nat2Z.inj_succ (S i)), Z.pow_succ_r by lia. ring. }
    destruct (Z.leb_spec max (d * 2)); [|rewrite E; apply IH; lia].
    pose proof (Z.pow_pos_nonneg 2 (Z.of_nat (S i)) ltac:(lia) ltac:(lia)). rewrite E, Z.min_l; nia.
Qed.

(** The backoff is the capped exponential its comment announces: nothing
    before the first failure, the base after it, then the double each time up to
    the maximum, although the code doubles a 64-bit duration: no product wraps
    around, the loop stops at the cap, and the delay is never negative. *)
Theorem backoff_closed_form n :
  0 < s_BackoffBase cfg < 2 ^ 62 -> 0 < s_BackoffMax cfg <= 2 ^ 62 ->
  backoff cfg n =
    (if n <=? 0 then 0 else if n =? 1 then s_BackoffBase cfg
     else Z.min (s_BackoffMax cfg) (s_BackoffBase cfg * 2 ^ (n - 1))) /\
  0 <= backoff cfg n <= Z.max (s_BackoffBase cfg) (s_BackoffMax cfg).
Proof.
  intros Hb Hm. assert (E : backoff cfg n = if n <=? 0 then 0 else if n =? 1 then s_BackoffBase cfg
     else Z.min (s_BackoffMax cfg) (s_BackoffBase cfg * 2 ^ (n - 1))).
  { unfold backoff. destruct (Z.leb_spec n 0); [done|]. destruct (Z.eqb_spec n 1) as [-> |]; [done|].
    replace (Z.to_nat (n - 1)) with (S (Z.to_nat (n - 2))) by lia. rewrite backoff_loop_min by done.
    do 3 f_equal. lia. }
  split; [exact E|]. rewrite E. repeat case_bool; lia.
Qed.

End sender_live.

(** ** Witnesses *)

(** Two frames in the log; the peer accepts, answers both and then goes silent. *)
Definition two_ready : SWorld :=
  mkSW two (mkNet (NewClient (mkCC [] 0 0)) [] [] [Some AckSuccess; Some AckSuccess] 0 (fun _ => []) (fun _ => []))
    [] [] [] [].
#[local] Existing Instance id_codec.
Definition windowed : SenderConfig := NewSender (mkSConf 0 0 0 0 0 8).
Definition one_by_one : SenderConfig := NewSender (mkSConf 0 0 0 0 0 0).

Lemma Run_drains_the_log_witness :
  (exists l s', Run windowed 1 2 two_ready = (Ok (Some l), s') /\ log_ok (sw_wal s') (mkQueue [] 3)) /\
  (exists l s', Run one_by_one 1 2 two_ready = (Ok (Some l), s') /\ log_ok (sw_wal s') (mkQueue [] 3)).
Proof.
  assert (H : ready 2 two_queue two_ready).
  { constructor; try done. destruct two_ok. by split. }
  split; apply (Run_drains_the_log _ 1 2 2 two_queue two_ready); try done; cbn; lia.
Defined.

Lemma backoff_closed_form_witness :
  backoff one_by_one 4 = 8 * 1000000000 /\ backoff one_by_one 10 = 60 * 1000000000.
Proof.
  destruct (backoff_closed_form one_by_one 4) as [E4 _]; [by vm_compute|by vm_compute|].
  destruct (backoff_closed_form one_by_one 10) as [E10 _]; [by vm_compute|by vm_compute|].
  rewrite E4, E10. by vm_compute.
Defined.
