(* ===== verification/SenderPace.v ===== *)
(** * The pace of the sending loop

    Between two attempts the loop waits. Whatever the network, the log and the
    poller do, the delay is the one that [backoff] gives to the number of failures
    since the last success, as they can be counted from the metrics and the log
    lines of the run. *)
From S2P Require Import Prelude Protocol WalDisk WalScan Wal WalQueue WalCalm TcpClient Sender SenderLive.
Local Open Scope Z_scope.
Local Open Scope go_scope.

Section pace.
Context (cfg : SenderConfig).

(** ** Counting the failures *)

(** What an event does to the count of failures: a success clears it; a failed call
    on the network adds one, where a window of frames (with [Pipeline > 1]) counts
    up to [MaxRetry] only; a refusal adds one, up to [MaxRetry]; an answer that is
    no acknowledgement adds one. *)
Definition failure_step (e : smetric) (n n' : Z) : Prop :=
  match e with
  | SAckOk => n' = 0
  | SRetry => n' = n + 1 \/ (1 < s_Pipeline cfg /\ n' = retry_capped cfg n)
  | SAckFail => n' = retry_refused cfg n
  | SInvalid => n' = n + 1
  | _ => n' = n
  end.

(** The count after the events, from [n] on. *)
Inductive failures : Z -> list smetric -> Z -> Prop :=
| failures_nil n : failures n [] n
| failures_cons n e n1 events n2 : failure_step e n n1 -> failures n1 events n2 -> failures n (e :: events) n2.

Lemma failures_app n1 a n2 b n3 : failures n1 a n2 -> failures n2 b n3 -> failures n1 (a ++ b) n3.
Proof. induction 1; [done|]. intros Hb. cbn. econstructor; [done|auto]. Qed.

Lemma failures_split a : forall n1 b n3, failures n1 (a ++ b) n3 -> exists n2, failures n1 a n2 /\ failures n2 b n3.
Proof.
  induction a as [|e a IH]; intros n1 b n3 H; [by exists n1; split; [constructor|]|].
  inversion H as [|? ? n' ? ? Hs Hf]; subst. destruct (IH _ _ _ Hf) as (n2 & H1 & H2).
  exists n2. split; [by econstructor|done].
Qed.

(** Every wait of [events] is that of the count before it, or the idle pause. *)
Definition paced (n : Z) (events : list smetric) : Prop :=
  (forall pre d post, events = pre ++ SWait d :: post -> exists k, failures n pre k /\ d = backoff cfg k) /\
  (forall d, SIdle d ∈ events -> d = s_IdleSleep cfg).

Lemma paced_nil n : paced n [].
Proof. split; [by intros [] ? ?|by intros d ?%elem_of_nil]. Qed.

Lemma paced_app n a n' b : paced n a -> failures n a n' -> paced n' b -> paced n (a ++ b).
Proof.
  intros [Ha Hia] Hf [Hb Hib]. split; [|intros d [?|?]%elem_of_app; auto]. intros pre d post E.
  destruct (app_eq_inv _ _ _ _ E) as [(l & -> & El)|(l & -> & ->)].
  - destruct l as [|x l]; cbn in El.
    + destruct (Hb [] d post) as (k & Hk & Hd); [by cbn|]. rewrite app_nil_r in Hf. exists k. split; [|done].
      rewrite <- (app_nil_r pre). by eapply failures_app.
    + injection El as <- ->. by apply (Ha pre d l).
  - destruct (Hb l d post eq_refl) as (k & Hk & Hd). exists k. split; [by eapply failures_app|done].
Qed.

(** ** The operations keep the count *)

(** [m], begun with [n] failures, is paced, and ends with a count that its result
    tells. *)
Definition counts {A} (n : Z) (m : SM A) (Q : A -> Z -> Prop) : Prop :=
  forall s, exists events n', sw_metrics (m s).2 = sw_metrics s ++ events /\ paced n events /\ failures n events n' /\
    forall a, (m s).1 = Ok a -> Q a n'.

Lemma counts_quiet {A} n (m : SM A) (Q : A -> Z -> Prop) :
  (forall s, sw_metrics (m s).2 = sw_metrics s) -> (forall a, Q a n) -> counts n m Q.
Proof. intros H HQ s. exists [], n. rewrite app_nil_r. split; [apply H|]. split; [apply paced_nil|]. by split; [constructor|]. Qed.

Lemma counts_bind {A B} n (m : SM A) (k : A -> SM B) Q R :
  counts n m Q -> (forall a n', Q a n' -> counts n' (k a) R) -> counts n (bind m k) R.
Proof.
  intros Hm Hk s. destruct (Hm s) as (ev & n' & E & Hp & Hf & HQ). unfold bind.
  destruct (m s) as [[a|e|] s1]; cbn [fst snd] in *; [|by exists ev, n'..].
  destruct (Hk a n' (HQ a eq_refl) s1) as (ev' & n'' & E' & Hp' & Hf' & HR).
  exists (ev ++ ev'), n''. rewrite E', E, app_assoc. split; [done|].
  split; [by eapply paced_app|]. split; [by eapply failures_app|done].
Qed.

Lemma counts_ret {A} n (a : A) (Q : A -> Z -> Prop) : Q a n -> counts n (ret a) Q.
Proof.
  intros HQ s. exists [], n. rewrite app_nil_r. split; [done|]. split; [apply paced_nil|]. split; [constructor|].
  by intros a' [= <-].
Qed.

Lemma counts_fail {A} n e (Q : A -> Z -> Prop) : counts n (fail e) Q.
Proof. intros s. exists [], n. rewrite app_nil_r. split; [done|]. split; [apply paced_nil|]. by split; [constructor|]. Qed.

(** A call that counts nothing. *)
Lemma counts_call {A B} n (m : SM A) (k : A -> SM B) R :
  (forall s, sw_metrics (m s).2 = sw_metrics s) -> (forall a, counts n (k a) R) -> counts n (bind m k) R.
Proof. intros Hm Hk. apply (counts_bind n m k (fun _ n' => n' = n)); [by apply counts_quiet|]. by intros a n' ->. Qed.

Lemma quiet_wal {A} (m : W A) s : sw_metrics (wal_call m s).2 = sw_metrics s.
Proof. unfold wal_call. by destruct (m _). Qed.
Lemma quiet_net {A} (m : T A) s : sw_metrics (net_call m s).2 = sw_metrics s.
Proof. unfold net_call. by destruct (m _). Qed.
Lemma quiet_cancelled s : sw_metrics (cancelled s).2 = sw_metrics s.
Proof. unfold cancelled. by destruct (sw_cancels s) as [|[] l]. Qed.
Lemma quiet_unwrap {E A} (o : outcome E A) s : sw_metrics (unwrap o s).2 = sw_metrics s.
Proof. by destruct o. Qed.
Lemma quiet_clock s : sw_metrics (clock s).2 = sw_metrics s.
Proof. done. Qed.

(** An event. *)
Lemma counts_event {B} n e n' (k : unit -> SM B) R :
  failure_step e n n' -> (forall d, e = SWait d -> d = backoff cfg n) -> (forall d, e = SIdle d -> d = s_IdleSleep cfg) ->
  counts n' (k tt) R -> counts n (bind (scount e) k) R.
Proof.
  intros He Hw Hi Hk. apply (counts_bind n (scount e) k (fun _ x => x = n')); [|by intros [] ? ->].
  intros s. exists [e], n'. split; [done|]. split; [|split; [by econstructor; [|constructor]|by intros]].
  split; [|intros d Hd%list_elem_of_singleton; by apply Hi].
  intros pre d post E. destruct pre as [|x [|y pre]]; cbn in E; try done.
  injection E as -> <-. exists n. split; [constructor|by apply Hw].
Qed.

Lemma counts_capped {B} n (k : unit -> SM B) R : 1 < s_Pipeline cfg ->
  counts (retry_capped cfg n) (k tt) R -> counts n (bind (scount SRetry) k) R.
Proof. intros Hp. apply counts_event; [by right|done|done]. Qed.

Lemma counts_wait n e :
  e = SWait (backoff cfg n) \/ e = SIdle (s_IdleSleep cfg) -> counts n (wait e) (fun _ n' => n' = n).
Proof.
  intros He. apply (counts_event n e n); [by destruct He as [->| ->]|intros d ->; by destruct He as [[= ->]|]|
    intros d ->; by destruct He as [|[= ->]]|]. apply counts_quiet; [apply quiet_cancelled|done].
Qed.

Lemma counts_waits {B} n e (k : bool -> SM B) R :
  e = SWait (backoff cfg n) \/ e = SIdle (s_IdleSleep cfg) -> (forall b, counts n (k b) R) -> counts n (bind (wait e) k) R.
Proof. intros He Hk. eapply counts_bind; [by apply counts_wait|]. by intros b n' ->. Qed.

(** ** The loop *)

Create HintDb pace.
#[local] Hint Resolve quiet_wal quiet_net quiet_cancelled quiet_unwrap quiet_clock : pace.

(** One call of a body: an event, a wait, or a call that counts nothing. *)
Ltac count_step :=
  first
    [ by apply counts_ret
    | apply counts_capped; [assumption|]
    | eapply counts_event; [by cbn; eauto|by intros|by intros|]
    | apply counts_call; [solve [eauto 1 with pace]|intros]
    | apply counts_waits; [by eauto|intros]
    | match goal with |- counts _ (match ?x with _ => _ end) _ => destruct x end ].

Lemma counts_send_loop frames : forall n i, 1 < s_Pipeline cfg ->
  counts n (send_loop cfg n i frames) (fun r n' =>
    match r with SentAll x | SendNack _ x | SendCancelled x => n' = x end).
Proof.
  induction frames as [|f frames IH]; intros n i Hp; cbn [send_loop]; [by apply counts_ret|]. count_step.
  apply (counts_bind n _ _ (fun _ n' => n' = n)).
  { destruct a; [by apply counts_ret|]. destruct (Nat.eqb i 0); [by apply counts_ret|]. apply counts_wait. by left. }
  intros c n' ->. destruct c; [by count_step|]. do 2 count_step. destruct a0; [by apply IH| |]; by repeat count_step.
Qed.

Lemma counts_ack_loop frames : forall n i, 1 < s_Pipeline cfg ->
  counts n (ack_loop cfg n i frames) (fun r n' => n' = r.2).
Proof.
  induction frames as [|f frames IH]; intros n i Hp; cbn [ack_loop]; [by apply counts_ret|]. count_step.
  destruct a as [ack| |]; [|by repeat count_step..]. destruct (ack =? AckSuccess); [|by repeat count_step].
  do 3 count_step. destruct a1; [count_step|..]; by apply IH.
Qed.

Lemma counts_reconnect n : 1 < s_Pipeline cfg -> counts n (reconnect cfg n) (fun r n' => n' = r).
Proof. intros Hp. unfold reconnect. by repeat count_step. Qed.

Lemma counts_window_loop fuel : forall n frames, 1 < s_Pipeline cfg ->
  counts n (window_loop cfg fuel n frames) (fun r n' => n' = r).
Proof.
  induction fuel as [|fuel IH]; intros n frames Hp; cbn [window_loop]; [apply counts_fail|].
  assert (Hre : forall x i, counts x (retry <- reconnect cfg x ;; window_loop cfg fuel retry (drop i frames)) (fun r n' => n' = r)).
  { intros x i. eapply counts_bind; [by apply counts_reconnect|]. intros r n' ->. by apply IH. }
  eapply counts_bind; [by apply counts_send_loop|]. intros [x|i x|x] n' ->; [|apply Hre|by apply counts_ret].
  eapply counts_bind; [by apply counts_ack_loop|]. intros [[i|] y] n' ->; [apply Hre|by apply counts_ret].
Qed.

Lemma counts_runPipeline fuel seq fb n : 1 < s_Pipeline cfg ->
  counts n (runPipeline cfg fuel seq fb n) (fun r n' => n' = r).
Proof. intros Hp. unfold runPipeline. do 2 count_step. by apply counts_window_loop. Qed.

Lemma counts_stop_and_wait seq fb n : counts n (stop_and_wait cfg seq fb n) (fun r n' => n' = r).
Proof.
  unfold stop_and_wait. do 2 count_step. destruct a as [u| |]; [|by repeat count_step..]. count_step.
  destruct a as [ack| |]; [|by repeat count_step..]. destruct (ack =? AckSuccess); [|by repeat count_step].
  do 3 count_step. destruct a1; by repeat count_step.
Qed.

Context {C : Codec}.

(** The count at the start of a turn is the variable of the loop. *)
Definition turn_counts (o : option locals) (n : Z) : Prop :=
  match o with Some l => n = l_retryCount l | None => True end.

Lemma counts_heartbeat n : counts n sendHeartbeat (fun _ n' => n' = n).
Proof.
  assert (H : counts n (scount SHeartbeat) (fun _ n' => n' = n)).
  { intros s. exists [SHeartbeat], n. split; [done|].
    split; [|split; [by econstructor; [|constructor]|by intros]].
    split; [|by intros d ?%list_elem_of_singleton]. by intros [|? []] ? ?. }
  unfold sendHeartbeat. repeat first [exact H|count_step].
Qed.

Lemma counts_idle l : counts (l_retryCount l) (idle cfg l) turn_counts.
Proof.
  unfold idle. do 2 count_step. eapply (counts_bind _ _ _ (fun l' n' => n' = l_retryCount l')).
  { destruct (_ <=? _); [|by apply counts_ret]. eapply counts_bind; [apply counts_heartbeat|].
    intros [] n' ->. by repeat count_step. }
  intros l' n' ->. repeat count_step.
Qed.

Lemma counts_run_turn fuel l : counts (l_retryCount l) (run_turn cfg fuel l) turn_counts.
Proof.
  assert (Hpause : counts (l_retryCount l) (c <- wait (SIdle (s_IdleSleep cfg)) ;; ret (if c : bool then None else Some l)) turn_counts).
  { apply counts_waits; [by right|]. intros []; by apply counts_ret. }
  unfold run_turn. count_step. destruct a; [by apply counts_ret|]. do 2 count_step.
  destruct a0 as [[seq fb]|e|]; [|destruct e; first [apply counts_idle|exact Hpause]|exact Hpause].
  do 3 count_step. destruct b; [by apply counts_ret|]. count_step.
  set (l1 := mkLocals _ _ _). destruct a1; [|by repeat count_step..].
  eapply (counts_bind _ _ _ (fun r n' => n' = r)); [|by intros r n' ->; apply counts_ret].
  destruct (Z.ltb_spec 1 (s_Pipeline cfg)); [by apply counts_runPipeline|apply counts_stop_and_wait].
Qed.

Lemma counts_run_turns fuel n : forall l, counts (l_retryCount l) (run_turns cfg fuel n l) (fun _ _ => True).
Proof.
  induction n as [|n IH]; intros l; cbn [run_turns]; [by apply counts_ret|].
  eapply counts_bind; [apply counts_run_turn|]. intros [l'|] n' Hn; [|by apply counts_ret]. cbn in Hn. subst n'. apply IH.
Qed.

(** C38: the pace of the sender. In any run of its loop, whatever the network, the
    log and the poller do, a wait for more work is the idle pause, and a wait
    between two attempts is the delay that [backoff] gives to the number of
    failures since the last success, as the events before the wait tell it
    ([failures], from 0 on): a frame that was acknowledged and committed sets it
    to 0; a call on the network that failed, a refusal and an answer that is no
    acknowledgement add one, up to [MaxRetry] for refusals and, with a window of
    more than one frame, for its failed calls. For a base and a cap below [2^62]
    nanoseconds (146 years), that delay is none without a failure, the base after
    one, and twice as long after each further one, up to the cap. *)
Theorem Run_paced fuel n s o s' :
  Run cfg fuel n s = (o, s') ->
  exists events, sw_metrics s' = sw_metrics s ++ events /\
    (forall d, SIdle d ∈ events -> d = s_IdleSleep cfg) /\
    forall pre d post, events = pre ++ SWait d :: post -> exists k, failures 0 pre k /\ d = backoff cfg k /\
    (0 < s_BackoffBase cfg < 2 ^ 62 -> 0 < s_BackoffMax cfg <= 2 ^ 62 ->
       d = (if k <=? 0 then 0 else if k =? 1 then s_BackoffBase cfg
            else Z.min (s_BackoffMax cfg) (s_BackoffBase cfg * 2 ^ (k - 1)))).
Proof.
  intros Hrun. assert (H : counts 0 (Run cfg fuel n) (fun _ _ => True)).
  { unfold Run. count_step. apply (counts_run_turns fuel n (mkLocals 0 a None)). }
  destruct (H s) as (ev & n' & E & [Hw Hi] & _). rewrite Hrun in E. exists ev. split; [exact E|]. split; [exact Hi|].
  intros pre d post Ed. destruct (Hw pre d post Ed) as (k & Hk & ->). exists k. split; [done|]. split; [done|].
  intros Hb Hm. apply (backoff_closed_form cfg k Hb Hm).
Qed.

End pace.

(** ** Witness *)

#[local] Existing Instance id_codec.

(** A peer that refuses four connections, then accepts. *)
Definition refused : SWorld :=
  mkSW two (mkNet (NewClient (mkCC [] 0 0)) [false; false; false; false; true] [] [Some AckSuccess; Some AckSuccess] 0 (fun _ => []) (fun _ => []))
    [] [] [] [].

Example refused_waits :
  omap (fun e => match e with SWait d | SIdle d => Some d | _ => None end) (sw_metrics (Run one_by_one 1 7 refused).2) =
  [0; 1000000000; 2000000000; 4000000000; 8000000000; 0; 200000000].
Proof. vm_compute. reflexivity. Qed.

(** The wait before the third attempt. *)
Lemma Run_paced_witness :
  exists events pre post, sw_metrics (Run one_by_one 1 7 refused).2 = [] ++ events /\
    events = pre ++ SWait 2000000000 :: post /\
    exists k, failures one_by_one 0 pre k /\ 2000000000 = backoff one_by_one k.
Proof.
  destruct (Run_paced one_by_one 1 7 refused (Run one_by_one 1 7 refused).1 (Run one_by_one 1 7 refused).2
    (surjective_pairing _)) as (events & E & _ & H).
  assert (Ev : events = take 7 events ++ SWait 2000000000 :: drop 8 events).
  { change (sw_metrics refused) with (@nil smetric) in E. cbn [app] in E. rewrite <- E. vm_compute. reflexivity. }
  exists events, (take 7 events), (drop 8 events). split; [exact E|]. split; [exact Ev|].
  destruct (H _ _ _ Ev) as (k & Hk & Hd & _). exists k. split; [exact Hk|exact Hd].
Defined.
