(* ===== verification/System.v ===== *)
(** * The two processes together

    The sender's loop, the connections of the server and the concurrent frame
    handlers, joined by a network that keeps bytes in order: a frame leaves the
    sender's log only when the receiver has imported or isolated it. *)
From S2P Require Import Prelude Protocol WalDisk WalScan Wal WalQueue WalCalm WalOpen WalDurable WalCrash.
From S2P Require Import SeqTracker VmClient Receiver.
From S2P Require Import TcpClient TcpServer Handlers Sender SenderSpec.
Local Open Scope Z_scope.

(** ** The answers of a connection come from its calls *)

(** Every recorded answer was given by a call on the frame at its position. *)
Definition answered (ok : call -> Prop) (st : ConnState) : Prop :=
  forall j a, k_done st !! j = Some a ->
    exists fidx fb, k_frames st !! Z.to_nat j = Some (fidx, fb) /\ ok (mkCall fidx fb a).

Lemma answered_step max (ok : call -> Prop) st l st' :
  conn_inv max st -> conn_step max st l st' -> (forall c, l = Some c -> ok c) ->
  answered ok st -> answered ok st'.
Proof.
  intros Hi Hs Hok Ha. destruct Hs; try exact Ha.
  - intros j a Hj. destruct (Ha j a Hj) as (fx & b & Hf & Hc). exists fx, b. split; [|done].
    by apply lookup_app_l_Some.
  - intros k a Hk. cbn in Hk. apply lookup_insert_Some in Hk as [[<- <-]|[Hne Hk]]; [|by apply Ha].
    destruct (ci_running _ _ Hi j _ H) as (_ & Hf & _). exists fidx, fb. split; [done|]. by apply Hok.
Qed.

Lemma conn_run_answered max (ok : call -> Prop) input st :
  0 <= max -> conn_run max ok (conn_start input) st -> answered ok st.
Proof.
  intros Hm Hr. apply (rtc_invariant _ (fun t => conn_inv max t /\ answered ok t)) in Hr; [by destruct Hr| |].
  - intros a b [Hi Ha] (l & Hs & Hok). split; [by eapply conn_step_inv|by eapply answered_step].
  - split; [by apply conn_start_inv|]. intros j a. cbn. by rewrite lookup_empty.
Qed.

(** ** A stream is cut into frames in one way *)

Lemma frame_unique a b r1 r2 : wf_frame a -> wf_frame b -> a ++ r1 = b ++ r2 -> a = b /\ r1 = r2.
Proof.
  intros Ha Hb E. destruct (read_frame_app a r1 Ha) as (h1 & H1 & _), (read_frame_app b r2 Hb) as (h2 & H2 & _).
  rewrite E, H2 in H1. by injection H1.
Qed.

Lemma frames_unique fs1 : forall fs2 r1 r2, Forall wf_frame fs1 -> Forall wf_frame fs2 ->
  concat fs1 ++ r1 = concat fs2 ++ r2 -> (length fs1 <= length fs2)%nat -> fs1 `prefix_of` fs2.
Proof.
  induction fs1 as [|a fs1 IH]; intros [|b fs2] r1 r2 H1 H2 E Hl; try apply prefix_nil; cbn in Hl; [lia|].
  inversion H1; inversion H2; subst. cbn [concat] in E. rewrite <- !app_assoc in E.
  apply frame_unique in E as [-> E]; [|done|done]. apply prefix_cons. eapply IH; [done|done|exact E|lia].
Qed.

Lemma prefix_of_app {A} (t a s : list A) : t `prefix_of` a ++ s ->
  (t `prefix_of` a /\ t <> a) \/ exists t', t = a ++ t' /\ t' `prefix_of` s.
Proof.
  revert t. induction a as [|x a IH]; intros t H; [right; by exists t|].
  destruct t as [|y t]; [left; split; [apply prefix_nil|done]|].
  cbn in H. apply prefix_cons_inv_1 in H as Ex. apply prefix_cons_inv_2 in H. subst y.
  destruct (IH t H) as [[Hp Hne]|(t' & -> & Ht')].
  - left. split; [by apply prefix_cons|]. congruence.
  - right. by exists t'.
Qed.

Lemma whole_frames_prefix s : forall t, t `prefix_of` s -> whole_frames s -> whole_frames t.
Proof.
  intros t Ht (fbs & fb & torn & -> & Hwf & Hfb & Hp & Hne). revert t Ht.
  induction Hwf as [|a fbs Ha Hwf IH]; intros t Ht; cbn [concat app] in Ht.
  - exists [], fb, t. split_and!; try done; [by etrans|]. intros ->. apply Hne.
    by apply (anti_symm prefix).
  - rewrite <- app_assoc in Ht. destruct (prefix_of_app t a _ Ht) as [[Hta Hne']|(t' & -> & Ht')]; [by exists [], a, t|].
    destruct (IH t' Ht') as (fbs' & fb' & torn' & -> & Hwf' & Hrest).
    exists (a :: fbs'), fb', torn'. cbn. rewrite <- app_assoc. split; [done|]. split; [by constructor|done].
Qed.

(** ** End to end *)

Section system.
Context {C : Codec} {LP : LogPromise}.

(** TCP keeps the bytes in order: every connection is served by [handleConn] on
    a prefix of what the sender has written on it, the handlers being calls of
    the receiver [p], and the sender has read a prefix of what was written back. *)
Definition served (max : Z) (p : pool) (n : Net) : Prop :=
  forall c, exists input st,
    input `prefix_of` n_sent n c /\
    conn_run max (fun k => k ∈ pl_calls p) (conn_start input) st /\
    n_acks n c `prefix_of` k_out st.

(** The answer at the position of a frame was given to that frame. *)
Lemma answer_at_position max ok fbs fb torn st j a :
  0 <= max -> Forall wf_frame fbs -> wf_frame fb -> torn `prefix_of` fb -> torn <> fb ->
  conn_run max ok (conn_start (concat fbs ++ torn)) st -> k_out st !! j = Some a ->
  exists fidx b, fbs !! j = Some b /\ ok (mkCall fidx b a).
Proof.
  intros Hm Hwf Hfb Hp Hne Hr Hj.
  destruct (conn_run_stream max ok fbs torn st Hm Hwf (read_frame_torn fb torn Hfb Hp Hne) Hr)
    as [Hi (_ & Hpre & Hl)].
  destruct (exact_answers max st Hi Hl j a Hj) as [Hd Hlt].
  destruct (conn_run_answered max ok _ st Hm Hr _ _ Hd) as (fidx & b & Hf & Hok).
  rewrite Nat2Z.id in Hf. exists fidx, b. split; [|done].
  assert (Ht : tag 0 fbs !! j = Some (fidx, b)) by by eapply prefix_lookup_Some.
  rewrite <- (tag_frames fbs 0), list_lookup_fmap, Ht. done.
Qed.

Lemma delivered_kept max p n b :
  0 <= max -> served max p n -> (forall c, whole_frames (n_sent n c)) -> pool_inv p ->
  delivered n b -> kept b (pl_world p).
Proof.
  intros Hm Hs Hw Hi (c & fs & rest & E & Hwf & Ha). destruct (Hs c) as (input & st & Hin & Hr & Hacks).
  destruct (whole_frames_prefix _ input Hin (Hw c)) as (fbs & fb & torn & -> & Hfbs & Hfb & Hp & Hne).
  assert (Hj : k_out st !! length fs = Some AckSuccess) by by eapply prefix_lookup_Some.
  destruct (answer_at_position max _ fbs fb torn st _ _ Hm Hfbs Hfb Hp Hne Hr Hj) as (fidx & b' & Hb & Hc).
  assert (Hpre : (fs ++ [b]) `prefix_of` fbs).
  { destruct Hin as [more Hin]. rewrite E, <- app_assoc in Hin.
    apply (frames_unique _ _ rest (torn ++ more)); [done|done| |].
    - rewrite concat_app. cbn. rewrite app_nil_r, <- app_assoc. exact Hin.
    - rewrite length_app. cbn. apply lookup_lt_Some in Hb. lia. }
  assert (Hb2 : fbs !! length fs = Some b).
  { eapply prefix_lookup_Some; [|exact Hpre]. by rewrite lookup_app_r, Nat.sub_diag. }
  assert (b' = b) as -> by congruence. pose proof (pi_calls p Hi) as Hcalls.
  rewrite Forall_forall in Hcalls. destruct (Hcalls _ Hc) as [Hf|[_ Hk]]; done.
Qed.

(** A run of the sender: what has left its log has been kept. *)
Lemma Run_keeps cfg fuel n (q : ledger) s o s' max p :
  sinv q [] s -> Run cfg fuel n s = (o, s') -> pool_inv p -> 0 <= max -> served max p (sw_net s') ->
  o <> Panic /\ (forall b, delivered (sw_net s') b -> kept b (pl_world p)) /\ exists (q' : ledger) gone added,
    (exists out, sinv q' out s') /\ q_frames q ++ added = gone ++ q_frames q' /\ lg_done q' = lg_done q ++ gone /\
    Forall (fun a : Z * bytes => q_next q <= a.1) added /\
    Forall (fun a : Z * bytes => kept a.2 (pl_world p)) gone.
Proof.
  intros Hs Hrun Hi Hm Hserved.
  pose proof (wp_run _ _ _ _ _ (Run_ran cfg fuel n q s Hs) Hrun) as (q' & (_ & _ & gone & added & E & D & G & A) & Ho).
  assert (Hend : o <> Panic /\ exists out, sinv q' out s').
  { destruct o as [r|e|]; [|by split|done]. destruct Ho as [(out & Hi' & _) _]. split; [done|by exists out]. }
  destruct Hend as [Hnp [out Hinv]]. pose proof (si_net _ _ _ Hinv) as Hnet.
  assert (Hk : forall b, delivered (sw_net s') b -> kept b (pl_world p)).
  { intros b. apply (delivered_kept max p (sw_net s')); [done|done|apply Hnet|done]. }
  split; [done|]. split; [done|]. exists q', gone, added. split_and!; try done; [by exists out|].
  eapply Forall_impl; [exact G|]. intros a. apply Hk.
Qed.

(** C3: at-least-once delivery, end to end. Let the sender run for any number of
    turns over any network and with any appends of the poller, let its
    connections be served by the receiver, whose handlers run concurrently
    against any database and file system and which may be restarted, let the
    disk of the log answer, and let the network keep the bytes of each connection in order, losing any tail of them.
    Then the frames the log held or was given are exactly those it still holds,
    in order, preceded by frames all of which have been imported, isolated as
    dead letters, or repeat a frame that has. It holds for every invariant that
    the log keeps. *)
Theorem at_least_once cfg fuel n (q : ledger) s o s' max w p :
  sinv q [] s -> Run cfg fuel n s = (o, s') ->
  window_inv w -> rtc receiver_step (mkPool w [] []) p ->
  0 <= max -> served max p (sw_net s') ->
  o <> Panic /\ exists (q' : ledger) gone added,
    promised (sw_wal s') q' (concat (sw_rivals s')) /\ q_frames q ++ added = gone ++ q_frames q' /\ lg_done q' = lg_done q ++ gone /\
    Forall (fun a : Z * bytes => q_next q <= a.1) added /\
    Forall (fun a : Z * bytes => kept a.2 (pl_world p)) gone.
Proof.
  intros Hs Hrun Hw Hp Hm Hserved.
  destruct (Run_keeps cfg fuel n q s o s' max p) as (Ho & _ & q' & gone & added & (out & Hinv) & H); try done.
  { apply (receiver_run_inv _ _ Hp). by constructor. }
  split; [done|]. exists q', gone, added. split; [apply Hinv|done].
Qed.

End system.

(** ** Witness *)

#[local] Existing Instance id_codec.

(** Two frames are sent one by one, handled one after the other and imported. *)
Definition lone : SenderConfig := NewSender (mkSConf 0 0 0 0 0 0).
Definition frames_sent : list bytes := [put_seq frame1 1; put_seq frame2 2].
Definition two_queued : SWorld :=
  mkSW two (mkNet (NewClient (mkCC [] 0 0)) [] [] [Some AckSuccess; Some AckSuccess] 0 (fun _ => []) (fun _ => []))
    [] [] [] [].
Definition sent_both : SWorld := snd (Run lone 1 2 two_queued).
Definition handled_both : pool :=
  foldl pool_pick (mkPool (started [ok_reply; ok_reply]) [] [])
    (Start 0 0 (put_seq frame1 1) :: replicate 40 (Go 0) ++ Start 0 1 (put_seq frame2 2) :: replicate 40 (Go 0)).

Lemma handled_both_calls :
  pl_calls handled_both = [mkCall 0 (put_seq frame1 1) AckSuccess; mkCall 1 (put_seq frame2 2) AckSuccess] /\
  rw_imported (pl_world handled_both) = [[7]; [8; 9]].
Proof. split; vm_compute; reflexivity. Qed.

Lemma two_queued_ok : sinv (LP := plain_log) two_ledger [] two_queued.
Proof.
  destruct two_ok as [Hi Hr]. constructor; [by split| | |by constructor|by vm_compute].
  - repeat constructor; cbn [snd]; apply wf_frame_put_seq; [apply frame1_wf|apply frame2_wf].
  - constructor; [by constructor| |by constructor|done].
    intros c. apply (whole_frames_concat [] frame1); [constructor|apply frame1_wf].
Qed.

Ltac conn_silent := eapply rtc_l; [exists None; split; [|done]|].

(** One frame through a connection, from the state before it is read. *)
Lemma conn_one_frame (ok : call -> Prop) fb rest h fidx d d' i out fs dn ack :
  read_frame (fb ++ rest) = RdFrame h fb rest -> frame_index h d = (fidx, d') ->
  ok (mkCall fidx fb ack) ->
  conn_run 1 ok (mkConn (mkPipe i ∅ false) (fb ++ rest) Reading i d ∅ Awaiting i out fs dn)
    (mkConn (mkPipe (i + 1) ∅ false) rest Reading (i + 1) d' ∅ Awaiting (i + 1) (out ++ [ack])
      (fs ++ [(fidx, fb)]) (<[i := ack]> dn)).
Proof.
  intros Hr Hf Hok.
  conn_silent; [by eapply step_read|].
  conn_silent; [apply step_spawn; unfold awaitInflight; cbn; by rewrite Z.sub_diag|].
  eapply rtc_l.
  { eexists. split; [apply step_handle with (j := i); by rewrite lookup_insert_eq|]. by intros c [= <-]. }
  conn_silent; [eapply step_next; unfold nextResult, setResult; cbn; by rewrite lookup_insert_eq|].
  conn_silent; [apply step_write|]. conn_silent; [apply step_advance|].
  cbn. unfold setResult, advance. cbn. rewrite delete_insert_id, delete_insert_id by apply lookup_empty.
  apply rtc_refl.
Qed.

Lemma sent_both_wire :
  (n_sent (sw_net sent_both) 0%nat = concat frames_sent /\
   n_acks (sw_net sent_both) 0%nat = [AckSuccess; AckSuccess]) /\
  forall c, n_acks (sw_net sent_both) (S c) = [].
Proof. split; [split; vm_compute; reflexivity|]. intros c. vm_compute. reflexivity. Qed.

Lemma both_answered : exists st, conn_run 1 (fun k => k ∈ pl_calls handled_both) (conn_start (concat frames_sent)) st /\
  k_out st = [AckSuccess; AckSuccess].
Proof.
  destruct handled_both_calls as [Hc _]. eexists. split.
  - cbn [concat frames_sent]. unfold conn_start, newConnPipeline. etrans.
    + eapply (conn_one_frame _ (put_seq frame1 1)); [vm_compute; reflexivity|vm_compute; reflexivity|].
      rewrite Hc. apply list_elem_of_here.
    + eapply (conn_one_frame _ (put_seq frame2 2) []); [vm_compute; reflexivity|vm_compute; reflexivity|].
      rewrite Hc. right. apply list_elem_of_here.
  - reflexivity.
Qed.

Lemma both_served : served 1 handled_both (sw_net sent_both).
Proof.
  destruct both_answered as (st & Hr & Ho), sent_both_wire as [[Es Ea] Eo].
  intros [|c].
  - exists (concat frames_sent), st. rewrite Es, Ea, Ho. by split_and!.
  - exists [], (conn_start []). split; [apply prefix_nil|]. split; [apply rtc_refl|]. by rewrite Eo.
Qed.

Lemma receiver_picks l p : rtc receiver_step p (foldl pool_pick p l).
Proof. eapply rtc_subrel; [|apply pool_picks_run]. apply receiver_runs. Qed.

Lemma at_least_once_witness :
  fst (Run lone 1 2 two_queued) <> Panic /\ exists (q' : ledger) gone added,
    log_ok (sw_wal sent_both) q' /\ q_frames two_queue ++ added = gone ++ q_frames q' /\ lg_done q' = [] ++ gone /\
    Forall (fun a : Z * bytes => 3 <= a.1) added /\
    Forall (fun a : Z * bytes => kept a.2 (pl_world handled_both)) gone.
Proof.
  apply (at_least_once (LP := plain_log) lone 1 2 two_ledger two_queued (fst (Run lone 1 2 two_queued)) sent_both 1
    (started [ok_reply; ok_reply]) handled_both).
  - exact two_queued_ok.
  - unfold sent_both. by destruct (Run lone 1 2 two_queued).
  - apply started_inv.
  - apply receiver_picks.
  - lia.
  - exact both_served.
Defined.
