(* ===== verification/Logger.v ===== *)
(** * The logger ([internal/logger/logger.go])

    What [New] makes of the configuration: the level and where the log is
    written.  Formatting, writing and rotating are zap and lumberjack. *)
From S2P Require Import Prelude GoBytes.
Local Open Scope Z_scope.

(** ** Definitions *)

Record LogConfig := mkLog { log_Level : bytes; log_File : bytes; log_MaxMB : Z; log_MaxBackups : Z }.

Inductive Level : Type := DebugLevel | InfoLevel | WarnLevel | ErrorLevel.

#[export] Instance Level_eq_dec : EqDecision Level.
Proof. solve_decision. Defined.

(** [strings.ToLower] on ASCII; no other rune is mapped to a letter of a level. *)
Definition to_lower (b : Z) : Z := if (65 <=? b) && (b <=? 90) then b + 32 else b.

Definition level_of (s : bytes) : Level :=
  let l := map to_lower s in
  if decide (l = lit "debug") then DebugLevel
  else if decide (l = lit "warn") then WarnLevel
  else if decide (l = lit "error") then ErrorLevel
  else InfoLevel.

Definition slash : Z := 47.

Definition dirOf (p : bytes) : bytes :=
  let i := LastIndexByte p slash in if i <? 0 then lit "." else take (Z.to_nat i) p.

Inductive sink : Type := Stderr | Rotating (file : bytes) (maxMB backups : Z).

(** [mkdirAll]: whether [os.MkdirAll] succeeds. *)
Definition New (mkdirAll : bytes -> bool) (cfg : LogConfig) : outcome bytes (Level * sink) :=
  let level := level_of (log_Level cfg) in
  match log_File cfg with
  | [] => Ok (level, Stderr)
  | file =>
      if mkdirAll (dirOf file) then
        Ok (level, Rotating file (if log_MaxMB cfg <=? 0 then 100 else log_MaxMB cfg)
          (if log_MaxBackups cfg <=? 0 then 10 else log_MaxBackups cfg))
      else Err (dirOf file)
  end.

(** ** Lemmas *)

Lemma last_index_from_split b l : forall i, 0 <= i ->
  (last_index_from i [b] l = -1 /\ b ∉ l) \/
  exists pre post, l = pre ++ b :: post /\ b ∉ post /\ last_index_from i [b] l = i + len pre.
Proof.
  induction l as [|x l IH]; intros i Hi; cbn [last_index_from].
  { left. split; [done|]. apply not_elem_of_nil. }
  destruct (IH (i + 1) ltac:(lia)) as [[-> Hn]|(pre & post & -> & Hn & ->)].
  - cbn. destruct (Z.eqb_spec b x) as [->|Hne].
    + right. exists [], l. unfold len. cbn. split_and!; [done|done|lia].
    + left. split; [done|]. by apply not_elem_of_cons.
  - right. exists (x :: pre), post. pose proof (len_nonneg pre). destruct (Z.leb_spec 0 (i + 1 + len pre)); [|lia].
    split_and!; [done|done|]. rewrite len_cons. lia.
Qed.

(** The directory of the log file: what is before its last separator. *)
Lemma dirOf_split p :
  (slash ∉ p /\ dirOf p = lit ".") \/ exists base, p = dirOf p ++ slash :: base /\ slash ∉ base.
Proof.
  unfold dirOf, LastIndexByte, LastIndex.
  destruct (last_index_from_split slash p 0 ltac:(lia)) as [[-> Hn]|(pre & post & -> & Hn & ->)]; [by left|right].
  pose proof (len_nonneg pre). destruct (Z.ltb_spec (0 + len pre) 0); [lia|].
  exists post. split; [|done]. unfold len. by rewrite Z.add_0_l, Nat2Z.id, take_app_length.
Qed.

(** Only the directory of the file can keep the logger from being made. *)
Lemma New_error mkdirAll cfg e : New mkdirAll cfg = Err e ->
  log_File cfg <> [] /\ e = dirOf (log_File cfg) /\ mkdirAll e = false.
Proof.
  unfold New. destruct (log_File cfg); [done|]. destruct (mkdirAll _) eqn:E; [done|]. by intros [= <-].
Qed.

(** A log file in the root directory: the directory asked for has no name, and
    [os.MkdirAll] does not make that one. *)
Example root_log_file : dirOf (lit "/sender.log") = [].
Proof. reflexivity. Qed.

Example levels : map level_of [lit "DEBUG"; lit "warn"; lit "trace"; []] = [DebugLevel; WarnLevel; InfoLevel; InfoLevel].
Proof. reflexivity. Qed.
