(* ===== verification/Config.v ===== *)
(** * The configuration ([internal/config/config.go])

    Sizes, durations, the validation of a decoded file, the environment's
    overrides and the configurations derived for the components.  Decoding YAML
    is the library's: a configuration is what it has decoded. *)
From S2P Require Import Prelude GoBytes GoTime VmRequest Logger Protocol WalDisk VmClient Receiver Poller TcpClient TcpServer Sender.
Local Open Scope Z_scope.

(** ** Sizes *)

(** [strings.ToUpper] on ASCII; no other rune is mapped to a letter of a unit. *)
Definition to_upper (b : Z) : Z := if (97 <=? b) && (b <=? 122) then b - 32 else b.
Definition ToUpper (l : bytes) : bytes := map to_upper l.

(** The units of [parseByteSize], in the order they are tried. *)
Definition byte_units : list (bytes * Z) :=
  [(lit "GB", Z.shiftl 1 30); (lit "MB", Z.shiftl 1 20); (lit "KB", Z.shiftl 1 10); (lit "B", 1)].

Fixpoint split_unit (t : bytes) (units : list (bytes * Z)) : Z * bytes :=
  match units with
  | [] => (1, t)
  | (suffix, m) :: rest =>
      if has_suffix suffix (ToUpper t)
      then (m, TrimSpace (take (length t - length suffix) t)) else split_unit t rest
  end.

Definition parseByteSize (s : bytes) : option Z :=
  let t := TrimSpace s in
  if len t =? 0 then None
  else
    let '(mult, t') := split_unit t byte_units in
    match ParseInt t' with Some n => Some (i64 (n * mult)) | None => None end.

Inductive byte_size_error := ErrByteSizeKind | ErrBadByteSize (s : bytes).

(** [UnmarshalYAML]: the integer and the string that the node decodes to, if it
    does. *)
Definition UnmarshalYAML (n : option Z) (s : option bytes) : outcome byte_size_error Z :=
  match n with
  | Some n => Ok n
  | None =>
      match s with
      | None => Err ErrByteSizeKind
      | Some s => match parseByteSize s with Some v => Ok v | None => Err (ErrBadByteSize s) end
      end
  end.

Definition parseSize (s0 : bytes) : option Z :=
  let s := TrimSpace s0 in
  if len s =? 0 then None
  else
    let i := length (take_digits s) in
    if Nat.eqb i 0 then None
    else
      match ParseInt (take i s) with
      | None => None
      | Some n =>
          let unit := ToUpper (TrimSpace (drop i s)) in
          if decide (unit = [] \/ unit = lit "B") then Some n
          else if decide (unit = lit "KB") then Some (i64 (n * 1024))
          else if decide (unit = lit "MB") then Some (i64 (i64 (n * 1024) * 1024))
          else if decide (unit = lit "GB") then Some (i64 (i64 (i64 (n * 1024) * 1024) * 1024))
          else None
      end.

(** ** Durations *)

(** The bytes of a number in [parseDurationExt]. *)
Definition is_num (c : Z) : bool := (c =? 45) || (c =? 43) || (c =? 46) || is_digit c.

Fixpoint span (f : Z -> bool) (l : bytes) : bytes * bytes :=
  match l with
  | c :: l' => if f c then let '(a, b) := span f l' in (c :: a, b) else ([], l)
  | [] => ([], [])
  end.

(** The loop of [parseDurationExt]: days are written as hours. *)
Fixpoint expand_days (fuel : nat) (s : bytes) : option bytes :=
  match s with
  | [] => Some []
  | _ =>
      match fuel with
      | O => None
      | S fuel' =>
          let '(num, s1) := span is_num s in
          if len num =? 0 then None
          else
            let '(unit, s2) := span (fun c => negb (is_num c)) s1 in
            match (if decide (unit = lit "d")
                   then option_map (fun f => FormatFloat (f64_mul f (f64_of_Z 24)) ++ lit "h") (ParseFloat num)
                   else Some (num ++ unit)) with
            | None => None
            | Some piece => option_map (app piece) (expand_days fuel' s2)
            end
      end
  end.

Definition parseDurationExt (s0 : bytes) : option Z :=
  let s := TrimSpace s0 in
  if len s =? 0 then None
  else
    match expand_days (length s) s with Some t => ParseDuration t | None => None end.

Definition dur (s : bytes) (def : Z) : Z :=
  match s with
  | [] => def
  | _ => match parseDurationExt s with Some d => d | None => def end
  end.

(** ** The decoded files *)

Record MonitorConfig := mkMon { mon_Addr : bytes; mon_Username : bytes; mon_Password : bytes }.

Record FileSender := mkFS {
  fs_Source : VmRequest.Config;
  fs_Interval : bytes; fs_Window : bytes; fs_Watermark : bytes; fs_MaxWindow : bytes;
  fs_FrameLines : Z; fs_FrameBytes : Z; fs_WindowTarget : Z;
  fs_ExportLag : bytes; fs_Backfill : bytes;
  fs_WAL_Path : bytes; fs_SegmentSize : bytes;
  fs_TCP_Addr : bytes; fs_Timeout : bytes; fs_DialTimeout : bytes; fs_Compression : bytes;
  fs_MaxRetry : Z; fs_BackoffBase : bytes; fs_BackoffMax : bytes; fs_HeartbeatInterval : bytes;
  fs_Pipeline : Z; fs_Monitor : MonitorConfig; fs_Log : LogConfig }.

Record FileReceiver := mkFR {
  fr_Target : VmRequest.Config;
  fr_Listen : bytes; fr_ReadTimeout : bytes; fr_MaxInflight : Z; fr_MaxConns : Z;
  fr_LastSeqFile : bytes; fr_DLQDir : bytes;
  fr_Relay_Addr : bytes; fr_Relay_Timeout : bytes; fr_Relay_DLQDir : bytes;
  fr_Monitor : MonitorConfig; fr_Log : LogConfig }.

(** [Auth()]: the credentials of the monitoring port, or nil. *)
Definition Auth (c : MonitorConfig) : option (bytes * bytes) :=
  match mon_Username c with [] => None | u => Some (u, mon_Password c) end.

(** ** The environment's overrides *)

Section env.
Context (Getenv : bytes -> bytes).

Definition env_or (name old : bytes) : bytes := match Getenv name with [] => old | v => v end.

Definition env_monitor (m : MonitorConfig) : MonitorConfig :=
  mkMon (env_or (lit "VMSYNC_MONITOR_ADDR") (mon_Addr m)) (mon_Username m) (mon_Password m).

Definition env_url (name : bytes) (c : VmRequest.Config) : VmRequest.Config :=
  mkConfig (env_or name (URL c)) (VmRequest.Timeout c) (Match c) (Token c).

Definition env_log (l : LogConfig) : LogConfig :=
  mkLog (env_or (lit "VMSYNC_LOG_LEVEL") (log_Level l)) (log_File l) (log_MaxMB l) (log_MaxBackups l).

Definition applySenderEnv (c : FileSender) : FileSender :=
  mkFS (env_url (lit "VMSYNC_SOURCE_URL") (fs_Source c))
    (fs_Interval c) (fs_Window c) (fs_Watermark c) (fs_MaxWindow c)
    (fs_FrameLines c) (fs_FrameBytes c) (fs_WindowTarget c) (fs_ExportLag c) (fs_Backfill c)
    (env_or (lit "VMSYNC_WAL_PATH") (fs_WAL_Path c)) (fs_SegmentSize c)
    (env_or (lit "VMSYNC_TCP_ADDR") (fs_TCP_Addr c)) (fs_Timeout c) (fs_DialTimeout c) (fs_Compression c)
    (fs_MaxRetry c) (fs_BackoffBase c) (fs_BackoffMax c) (fs_HeartbeatInterval c) (fs_Pipeline c)
    (env_monitor (fs_Monitor c)) (env_log (fs_Log c)).

Definition applyReceiverEnv (c : FileReceiver) : FileReceiver :=
  mkFR (env_url (lit "VMSYNC_TARGET_URL") (fr_Target c))
    (env_or (lit "VMSYNC_TCP_LISTEN") (fr_Listen c)) (fr_ReadTimeout c) (fr_MaxInflight c) (fr_MaxConns c)
    (fr_LastSeqFile c) (fr_DLQDir c) (fr_Relay_Addr c) (fr_Relay_Timeout c) (fr_Relay_DLQDir c)
    (env_monitor (fr_Monitor c)) (env_log (fr_Log c)).
End env.

(** ** Validation *)

(** Which of several bad durations is reported depends on the iteration order
    of a Go map; the error does not name it here. *)
Inductive cerr : Type :=
| CRequired (field : bytes)
| CBadDuration
| CNegative (field : bytes)
| CCompression
| CBackfill
| CFile.

Definition validateDur (s : bytes) : outcome cerr unit :=
  match s with
  | [] => Ok tt
  | _ =>
      match parseDurationExt s with
      | None => Err CBadDuration
      | Some d => if d <? 0 then Err CBadDuration else Ok tt
      end
  end.

Fixpoint validateDurs (l : list bytes) : outcome cerr unit :=
  match l with
  | [] => Ok tt
  | s :: rest => match validateDur s with Ok _ => validateDurs rest | o => o end
  end.

(** The end of [Validate] and the body of [ValidateBackfill]. *)
Definition backfill_duration (b : bytes) : outcome cerr unit :=
  match parseDurationExt b with
  | None => Err CBackfill
  | Some d => if d <? 0 then Err CBackfill else Ok tt
  end.

Definition Validate (c : FileSender) : outcome cerr unit :=
  if len (URL (fs_Source c)) =? 0 then Err (CRequired (lit "source.url"))
  else if len (fs_TCP_Addr c) =? 0 then Err (CRequired (lit "tcp.addr"))
  else if len (fs_WAL_Path c) =? 0 then Err (CRequired (lit "wal.path"))
  else
    match validateDurs [fs_Interval c; fs_Window c; fs_Watermark c; fs_MaxWindow c; fs_ExportLag c;
            fs_Timeout c; fs_DialTimeout c; fs_BackoffBase c; fs_BackoffMax c; fs_HeartbeatInterval c] with
    | Ok _ =>
        if fs_Pipeline c <? 0 then Err (CNegative (lit "sender.pipeline_window"))
        else if fs_WindowTarget c <? 0 then Err (CNegative (lit "sync.window_target"))
        else if bool_decide (fs_Compression c <> [] /\ fs_Compression c <> lit "zstd" /\ fs_Compression c <> lit "gzip")
        then Err CCompression
        else
          let b := TrimSpace (fs_Backfill c) in
          if bool_decide (b <> [] /\ b <> lit "all" /\ b <> lit "0") then backfill_duration b else Ok tt
    | o => o
    end.

Definition ValidateReceiver (c : FileReceiver) : outcome cerr unit :=
  if len (URL (fr_Target c)) =? 0 then Err (CRequired (lit "target.url"))
  else if len (fr_Listen c) =? 0 then Err (CRequired (lit "tcp.listen"))
  else if fr_MaxInflight c <? 0 then Err (CNegative (lit "tcp.max_inflight"))
  else if fr_MaxConns c <? 0 then Err (CNegative (lit "tcp.max_conns"))
  else validateDurs [fr_ReadTimeout c; fr_Relay_Timeout c].

Definition ValidateBackfill (s : bytes) : outcome cerr unit :=
  let b := TrimSpace s in
  if bool_decide (b = [] \/ b = lit "all" \/ b = lit "0" \/ b = lit "0s") then Ok tt
  else backfill_duration b.

(** [LoadSender] and [LoadReceiver], from what reading and decoding the file gave. *)
Definition LoadSender (Getenv : bytes -> bytes) (file : option FileSender) : outcome cerr FileSender :=
  match file with
  | None => Err CFile
  | Some c =>
      let c := applySenderEnv Getenv c in
      match Validate c with Ok _ => Ok c | Err e => Err e | Panic => Panic end
  end.

Definition LoadReceiver (Getenv : bytes -> bytes) (file : option FileReceiver) : outcome cerr FileReceiver :=
  match file with
  | None => Err CFile
  | Some c =>
      let c := applyReceiverEnv Getenv c in
      match ValidateReceiver c with Ok _ => Ok c | Err e => Err e | Panic => Panic end
  end.

(** ** The components' configurations *)

Definition CompressionFrameType (c : FileSender) : Z :=
  if decide (fs_Compression c = lit "gzip") then TypeData else TypeDataZstd.

Definition poller_config (c : FileSender) : PollerConfig :=
  mkPC (dur (fs_Interval c) (500 * Millisecond)) (dur (fs_Window c) (5 * Second))
    (dur (fs_Watermark c) Second) (dur (fs_MaxWindow c) (30 * Second))
    (fs_FrameLines c) (fs_FrameBytes c) (fs_WindowTarget c) (dur (fs_ExportLag c) 0)
    (CompressionFrameType c).

Definition WatermarkDuration (c : FileSender) : Z := dur (fs_Watermark c) Second.

Definition EffectiveExportLag (c : FileSender) : Z :=
  let lag0 := WatermarkDuration c in
  let v := dur (fs_ExportLag c) 0 in
  let lag := if lag0 <? v then v else lag0 in
  if lag <? DefaultExportVisibilityLag then DefaultExportVisibilityLag else lag.

Inductive BackfillMode : Type := BackfillNone | BackfillAll | BackfillDuration.
#[export] Instance BackfillMode_eq_dec : EqDecision BackfillMode.
Proof. solve_decision. Defined.

Record BackfillSpec := mkSpec { bs_Mode : BackfillMode; bs_Dur : Z }.

Definition backfill_spec (c : FileSender) : BackfillSpec :=
  let v := TrimSpace (fs_Backfill c) in
  if decide (v = [] \/ v = lit "all") then mkSpec BackfillAll 0
  else if decide (v = lit "0" \/ v = lit "0s") then mkSpec BackfillNone 0
  else
    match parseDurationExt v with
    | Some d => if d <=? 0 then mkSpec BackfillAll 0 else mkSpec BackfillDuration d
    | None => mkSpec BackfillAll 0
    end.

Definition SenderLoopConfig (c : FileSender) : SenderConfig :=
  mkSConf (fs_MaxRetry c) (dur (fs_BackoffBase c) Second) (dur (fs_BackoffMax c) (60 * Second))
    (dur (fs_HeartbeatInterval c) (30 * Second)) 0 (fs_Pipeline c).

Definition client_config (c : FileSender) : ClientConfig :=
  mkCC (fs_TCP_Addr c) (dur (fs_Timeout c) (10 * Second)) (dur (fs_DialTimeout c) (10 * Second)).

Definition SegmentSize (c : FileSender) : Z :=
  match fs_SegmentSize c with
  | [] => DefaultSegmentSize
  | s => match parseSize s with Some d => d | None => DefaultSegmentSize end
  end.

Definition server_config (c : FileReceiver) : ServerConfig :=
  mkSC (fr_Listen c) (dur (fr_ReadTimeout c) (60 * Second)) (fr_MaxInflight c) (fr_MaxConns c).

(** Whether the paths are configured; [main] adds the call-back. *)
Definition receiver_config (c : FileReceiver) (lastWriteTs : bool) : RConfig :=
  mkRC (negb (len (fr_LastSeqFile c) =? 0)) (negb (len (fr_DLQDir c) =? 0))
    (negb (len (fr_Relay_DLQDir c) =? 0)) lastWriteTs.

Definition RelayTimeout (c : FileReceiver) : Z := dur (fr_Relay_Timeout c) (10 * Second).

(** ** Examples *)

Example sizes :
  map parseByteSize [lit "512KB"; lit " 2 mb "; lit "1GB"; lit "77"; lit "5B"; lit "x"; lit "1.5MB"] =
    [Some 524288; Some 2097152; Some 1073741824; Some 77; Some 5; None; None] /\
  map parseSize [lit "64MB"; lit "64 mb"; lit "10"; lit "10TB"; lit "-1"] =
    [Some 67108864; Some 67108864; Some 10; None; None].
Proof. vm_compute. repeat split. Qed.

Example durations :
  map parseDurationExt [lit "30d"; lit "1d12h"; lit "0.5d"; lit "12h30m"; lit "-1d"; lit "1h-1d"; lit "d"; lit "1.1d"] =
    [Some (720 * Hour); Some (36 * Hour); Some (12 * Hour); Some (12 * Hour + 30 * 60 * Second);
     Some (-24 * Hour); None; None; Some (26 * Hour + 24 * 60 * Second)].
Proof. vm_compute. repeat split. Qed.

(** The multiplication wraps around: a segment of [2^34 + 1] gigabytes is one
    gigabyte, one of [2^34] is empty and one of [2^33] is negative. *)
Example sizes_wrap :
  parseSize (lit "17179869185GB") = Some (Z.shiftl 1 30) /\ parseSize (lit "17179869184GB") = Some 0 /\
  parseByteSize (lit "8589934592GB") = Some (- 2 ^ 63).
Proof. vm_compute. repeat split. Qed.

(** ** Sizes *)

(** The spellings of a unit both parsers know, and what they multiply by. *)
Definition spellings : list (bytes * Z) :=
  [([], 1); (lit "B", 1); (lit "KB", 1024); (lit "MB", 1024 ^ 2); (lit "GB", 1024 ^ 3);
   (lit "b", 1); (lit "kb", 1024); (lit "mb", 1024 ^ 2); (lit "gb", 1024 ^ 3); (lit "Kb", 1024); (lit "Mb", 1024 ^ 2)].

Lemma digits_of n : 0 <= n -> is_i64 n -> exists ds b, Sprintf_d n = ds ++ [b] /\
  forallb is_digit (ds ++ [b]) = true.
Proof.
  intros H0 Hn. destruct (Sprintf_d_shape n [] Hn) as (l & _ & He & Hd & _ & E).
  destruct (Z.ltb_spec n 0); [lia|]. cbn [app] in E. rewrite E.
  destruct l as [|b l _] using rev_ind; [done|]. by exists l, b.
Qed.

Lemma upper_digits l : forallb is_digit l = true -> ToUpper l = l.
Proof.
  induction l as [|b l IH]; cbn; [done|]. intros [Hb Hl]%andb_prop.
  change (to_upper b :: ToUpper l = b :: l). rewrite IH by done. f_equal.
  unfold is_digit, to_upper in *. apply andb_prop in Hb as [H1%Z.leb_le H2%Z.leb_le].
  destruct (Z.leb_spec 97 b); [lia|done].
Qed.

Lemma graph_unit u m : (u, m) ∈ spellings -> Forall is_graph u.
Proof.
  unfold spellings. rewrite !elem_of_cons, elem_of_nil.
  intros H. repeat destruct H as [[= -> ->]|H]; try done; vm_compute; repeat constructor; try discriminate.
Qed.

(** The size [n] with a unit is not changed by trimming and starts with its digits. *)
Lemma sized_shape n u m : 0 <= n -> is_i64 n -> (u, m) ∈ spellings ->
  TrimSpace (Sprintf_d n ++ u) = Sprintf_d n ++ u /\ take_digits (Sprintf_d n ++ u) = Sprintf_d n /\
  Sprintf_d n <> [].
Proof.
  intros H0 Hn Hu. destruct (Sprintf_d_graph n Hn) as [Hne Hg]. split; [|split; [|done]].
  - apply TrimSpace_graph; [by destruct (Sprintf_d n)|]. apply Forall_app. split; [done|by eapply graph_unit].
  - destruct (digits_of n H0 Hn) as (ds & b & E & Hd). rewrite E. apply take_digits_all; [done|].
    revert Hu. unfold spellings. rewrite !elem_of_cons, elem_of_nil. intros H.
    repeat destruct H as [[= -> ->]|H]; try done.
Qed.

Lemma parseSize_unit n u m : 0 <= n -> (u, m) ∈ spellings -> n * m < 2 ^ 63 ->
  parseSize (Sprintf_d n ++ u) = Some (n * m).
Proof.
  intros H0 Hu Hb. assert (Hm : 1 <= m).
  { revert Hu. unfold spellings. rewrite !elem_of_cons, elem_of_nil. intros H. repeat destruct H as [[= -> ->]|H]; try done; lia. }
  assert (Hn : is_i64 n) by (unfold is_i64; nia). destruct (sized_shape n u m H0 Hn Hu) as (Ht & Hd & Hne).
  unfold parseSize. rewrite Ht, Hd. destruct (Z.eqb_spec (len (Sprintf_d n ++ u)) 0) as [E|_].
  { apply len_zero_nil in E. by destruct (Sprintf_d n). }
  destruct (length (Sprintf_d n)) as [|k] eqn:Ek; [by destruct (Sprintf_d n)|]. cbn [Nat.eqb].
  rewrite <- Ek, take_app_length, drop_app_length, ParseInt_Sprintf by done.
  revert Hu Hb. clear - H0. unfold spellings. rewrite !elem_of_cons, elem_of_nil. intros H Hb.
  repeat destruct H as [[= -> ->]|H]; try done; cbv -[Z.mul Z.pow i64];
  rewrite ?(i64_small (n * 1024)), ?(i64_small (n * 1024 * 1024)), ?i64_small by (unfold is_i64; lia); f_equal; lia.
Qed.

Lemma take_minus_suffix {A} (l u : list A) : take (length (l ++ u) - length u) (l ++ u) = l.
Proof. rewrite length_app. replace (length l + length u - length u)%nat with (length l) by lia. apply take_app_length. Qed.

(** A suffix that a number does not end with. *)
Lemma no_suffix_digit p c ds b : is_digit b = true -> c <> b -> has_suffix (p ++ [c]) (ds ++ [b]) = false.
Proof.
  intros Hb Hc. unfold has_suffix. rewrite !rev_app_distr. cbn [rev app has_prefix].
  by destruct (Z.eqb_spec c b).
Qed.

Lemma ToUpper_app l k : ToUpper (l ++ k) = ToUpper l ++ ToUpper k.
Proof. apply map_app. Qed.

Lemma split_unit_digits n u m : 0 <= n -> is_i64 n -> (u, m) ∈ spellings ->
  split_unit (Sprintf_d n ++ u) byte_units = (m, Sprintf_d n).
Proof.
  intros H0 Hn Hu. destruct (Sprintf_d_graph n Hn) as [Hne Hg].
  pose proof (TrimSpace_graph _ Hne Hg) as Htrim. pose proof (take_minus_suffix (Sprintf_d n) u) as Htake.
  destruct (digits_of n H0 Hn) as (ds & b & E & Hd). pose proof Hd as Hb. rewrite forallb_app in Hb.
  apply andb_prop in Hb as [_ Hb]. cbn in Hb. rewrite andb_true_r in Hb.
  assert (Hr : 48 <= b <= 57).
  { unfold is_digit in Hb. apply andb_prop in Hb as [H1%Z.leb_le H2%Z.leb_le]. lia. }
  assert (Hup : ToUpper (Sprintf_d n ++ u) = (ds ++ [b]) ++ ToUpper u).
  { by rewrite ToUpper_app, E, upper_digits. }
  assert (Hsuf : forall p, has_suffix p (ToUpper (Sprintf_d n ++ u)) =
    has_prefix (rev p) (rev (ToUpper u) ++ b :: rev ds)).
  { intros p. unfold has_suffix. rewrite Hup, !rev_app_distr. done. }
  assert (Hne4 : (66 =? b) = false /\ (71 =? b) = false /\ (75 =? b) = false /\ (77 =? b) = false).
  { repeat split; apply Z.eqb_neq; lia. }
  destruct Hne4 as (B66 & B71 & B75 & B77). unfold byte_units. cbn [split_unit]. rewrite !Hsuf.
  revert Hu Htake. clear - Htrim B66 B71 B75 B77. unfold spellings. rewrite !elem_of_cons, elem_of_nil. intros H Htake.
  repeat destruct H as [[= -> ->]|H]; try done.
  all: repeat match goal with
    | |- context [rev (lit ?s)] => let x := eval vm_compute in (rev (lit s)) in change (rev (lit s)) with x
    | |- context [rev (ToUpper ?u)] => let x := eval vm_compute in (rev (ToUpper u)) in change (rev (ToUpper u)) with x
    end; cbn [app has_prefix]; rewrite ?B66, ?B71, ?B75, ?B77; cbn [andb];
    rewrite ?app_nil_r in *; try reflexivity; cbn [length lit map String.list_ascii_of_string] in *; rewrite ?Htake, ?Htrim; try reflexivity.
Qed.

(** The two size parsers agree. For every number and every spelling of a
    unit, in capitals or not, [parseByteSize] (the sizes of frames) and
    [parseSize] (the size of a segment) give the same value, the product, as
    long as it fits in 63 bits. *)
Theorem sizes_agree n u m :
  0 <= n -> (u, m) ∈ spellings -> n * m < 2 ^ 63 ->
  parseByteSize (Sprintf_d n ++ u) = Some (n * m) /\ parseSize (Sprintf_d n ++ u) = Some (n * m).
Proof.
  intros H0 Hu Hb. split; [|by apply parseSize_unit].
  assert (Hm : 1 <= m).
  { revert Hu. unfold spellings. rewrite !elem_of_cons, elem_of_nil. intros H. repeat destruct H as [[= -> ->]|H]; try done; lia. }
  assert (Hn : is_i64 n) by (unfold is_i64; nia). destruct (sized_shape n u m H0 Hn Hu) as (Ht & _ & Hne).
  unfold parseByteSize. rewrite Ht. destruct (Z.eqb_spec (len (Sprintf_d n ++ u)) 0) as [E|_].
  { apply len_zero_nil in E. by destruct (Sprintf_d n). }
  rewrite (split_unit_digits n u m H0 Hn Hu), ParseInt_Sprintf by done.
  by rewrite i64_small by (unfold is_i64; nia).
Qed.

Lemma sizes_agree_witness :
  parseByteSize (Sprintf_d 64 ++ lit "mb") = Some (64 * 1024 ^ 2) /\
  parseSize (Sprintf_d 64 ++ lit "mb") = Some (64 * 1024 ^ 2).
Proof.
  apply (sizes_agree 64 (lit "mb") (1024 ^ 2)); [lia| |lia].
  unfold spellings. rewrite !elem_of_cons. tauto.
Defined.

(** ** Durations *)

Lemma span_app f l : let '(a, b) := span f l in a ++ b = l.
Proof.
  induction l as [|c l IH]; cbn; [done|]. destruct (f c); [|done].
  destruct (span f l) as [a b]. cbn. by rewrite IH.
Qed.

Lemma span_length f l : (length (snd (span f l)) <= length l)%nat.
Proof.
  pose proof (span_app f l) as H. destruct (span f l) as [a b]. subst l. rewrite length_app. cbn. lia.
Qed.

(** The units of a duration, as [parseDurationExt] cuts it. *)
Fixpoint units_of (fuel : nat) (s : bytes) : list bytes :=
  match s with
  | [] => []
  | _ =>
      match fuel with
      | O => []
      | S fuel' =>
          let '(_, s1) := span is_num s in
          let '(unit, s2) := span (fun c => negb (is_num c)) s1 in
          unit :: units_of fuel' s2
      end
  end.

(** Without days the text is not changed; it is refused only when it does not
    start like a number. *)
Lemma expand_days_id fuel : forall s, (length s <= fuel)%nat -> lit "d" ∉ units_of fuel s ->
  expand_days fuel s = Some s \/ exists num c rest, s = num ++ c :: rest /\ is_num c = false /\ num = [].
Proof.
  assert (Hgen : forall fuel s, (length s <= fuel)%nat -> lit "d" ∉ units_of fuel s ->
    match s with [] => True | c :: _ => is_num c = true end -> expand_days fuel s = Some s).
  { induction fuel0 as [|fuel0 IH]; intros [|c s] Hl Hd Hc; try done; [cbn in Hl; lia|].
    cbn [expand_days units_of] in *. cbn [span] in *. rewrite Hc in *.
    pose proof (span_app is_num s) as Hs. pose proof (span_length is_num s) as Hls.
    assert (Hhd : match snd (span is_num s) with [] => True | x :: _ => is_num x = false end).
    { clear. induction s as [|x s IH]; cbn; [done|]. destruct (is_num x) eqn:E; [|done].
      by destruct (span is_num s). }
    destruct (span is_num s) as [num s1]. cbn [snd] in *.
    pose proof (span_app (fun c => negb (is_num c)) s1) as Hs1.
    pose proof (span_length (fun c => negb (is_num c)) s1) as Hls1.
    assert (Hhd1 : match snd (span (fun c => negb (is_num c)) s1) with [] => True | x :: _ => is_num x = true end).
    { clear. induction s1 as [|x s IH]; cbn; [done|]. destruct (is_num x) eqn:E; cbn; [done|].
      by destruct (span _ s). }
    destruct (span (fun c => negb (is_num c)) s1) as [unit s2]. cbn [snd] in *.
    rewrite elem_of_cons in Hd. destruct (decide (unit = lit "d")) as [-> |Hne]; [naive_solver|].
    destruct (Z.eqb_spec (len (c :: num)) 0) as [E|_]; [zlia|].
    rewrite IH; [|cbn in Hl; lia|naive_solver|done]. cbn [option_map].
    rewrite <- Hs, <- Hs1. cbn. by rewrite <- app_assoc. }
  intros [|c s] Hl Hd; [by destruct fuel; left|]. destruct (is_num c) eqn:Ec; [left; by apply Hgen|right].
  by exists [], c, s.
Qed.

(** What does not start like a number is no duration. *)
Lemma ParseDuration_bad_start c rest :
  c <> 45 /\ c <> 43 /\ c <> 46 /\ is_digit c = false -> ParseDuration (c :: rest) = None.
Proof.
  intros (H45 & H43 & H46 & Hdig).
  assert (E : (match c :: rest with 45 :: l => l | 43 :: l => l | _ => c :: rest end) = c :: rest).
  { destruct c as [|p|p]; try done. repeat (destruct p as [p|p|]; try done). }
  unfold ParseDuration. rewrite E. destruct (decide (c :: rest = [48])) as [[= -> ->]|_]; [done|].
  destruct (Z.eqb_spec (len (c :: rest)) 0) as [E0|_]; [zlia|]. cbn [length parse_terms]. unfold parse_term.
  destruct (Z.eqb_spec c 46); [done|]. by rewrite Hdig.
Qed.

(** [parseDurationExt] extends [time.ParseDuration]. On a text in which no
    unit is [d], after trimming, it gives exactly what the standard parser
    gives, errors included; the day is the only thing it adds. *)
Theorem parseDurationExt_extends s :
  lit "d" ∉ units_of (length (TrimSpace s)) (TrimSpace s) ->
  parseDurationExt s = ParseDuration (TrimSpace s).
Proof.
  intros Hd. unfold parseDurationExt. set (t := TrimSpace s) in *. clearbody t.
  destruct (Z.eqb_spec (len t) 0) as [E|_]; [by rewrite (len_zero_nil _ E)|].
  destruct (expand_days_id (length t) t (le_n _) Hd) as [-> |(num & c & rest & E & Hc & ->)]; [done|].
  cbn [app] in E. rewrite E. clear E. cbn [length expand_days span]. rewrite Hc. cbn [len length].
  assert (Hp : c <> 45 /\ c <> 43 /\ c <> 46 /\ is_digit c = false).
  { unfold is_num in Hc. apply orb_false_elim in Hc as [Hc ?]. apply orb_false_elim in Hc as [Hc ?%Z.eqb_neq].
    apply orb_false_elim in Hc as [?%Z.eqb_neq ?%Z.eqb_neq]. done. }
  symmetry. by apply ParseDuration_bad_start.
Qed.

Lemma parseDurationExt_extends_witness :
  parseDurationExt (lit " 1h30m ") = ParseDuration (lit "1h30m") /\ parseDurationExt (lit "h") = None.
Proof.
  split; [apply (parseDurationExt_extends (lit " 1h30m "))|rewrite (parseDurationExt_extends (lit "h")); [done|]];
    apply (bool_decide_unpack _); by vm_compute.
Defined.

Lemma days_table : forallb (fun n => bool_decide (parseDurationExt (Sprintf_d n ++ lit "d") = Some (n * 24 * Hour)))
  (seqZ 0 400) = true.
Proof. vm_compute. reflexivity. Qed.

(** A number of days is 24 hours each, although the code multiplies in
    floating point, prints the product and parses it again: exact for every
    whole number of days below 400. *)
Theorem whole_days n : 0 <= n < 400 -> parseDurationExt (Sprintf_d n ++ lit "d") = Some (n * 24 * Hour).
Proof.
  intros Hn. pose proof days_table as H. rewrite forallb_forall in H.
  specialize (H n). apply bool_decide_eq_true in H; [done|]. apply list_elem_of_In, elem_of_seqZ. lia.
Qed.

Lemma whole_days_witness : parseDurationExt (lit "30d") = Some (30 * 24 * Hour).
Proof. apply (whole_days 30). lia. Defined.

(** ** Validation *)

Lemma parseDurationExt_i64 s d : parseDurationExt s = Some d -> is_i64 d.
Proof.
  unfold parseDurationExt. destruct (_ =? 0); [done|]. destruct (expand_days _ _) as [t|]; [|done].
  apply ParseDuration_i64.
Qed.

(** The text is empty, or is the duration the components are given. *)
Definition duration_ok (s : bytes) : Prop :=
  s = [] \/ exists d, parseDurationExt s = Some d /\ 0 <= d < 2 ^ 63 /\ forall def, dur s def = d.

Lemma validateDur_ok s : validateDur s = Ok tt -> duration_ok s.
Proof.
  unfold validateDur. destruct s as [|c s]; [by left|]. destruct (parseDurationExt (c :: s)) as [d|] eqn:E; [|done].
  destruct (Z.ltb_spec d 0); [done|]. intros _. right. exists d. pose proof (parseDurationExt_i64 _ _ E) as Hr.
  unfold is_i64 in Hr. split; [done|]. split; [lia|]. intros def. unfold dur. by rewrite E.
Qed.

Lemma validateDurs_ok l : validateDurs l = Ok tt -> Forall duration_ok l.
Proof.
  induction l as [|s l IH]; cbn; [constructor|]. destruct (validateDur s) as [[]|e|] eqn:E; [|done|done].
  intros H. constructor; [by apply validateDur_ok|by apply IH].
Qed.

(** The durations of a sender's file. *)
Definition sender_durations (c : FileSender) : list bytes :=
  [fs_Interval c; fs_Window c; fs_Watermark c; fs_MaxWindow c; fs_ExportLag c;
   fs_Timeout c; fs_DialTimeout c; fs_BackoffBase c; fs_BackoffMax c; fs_HeartbeatInterval c].

(** What the code makes of the text of the backfill: nothing or [all] is the
    whole history; [0] and [0s] are none; any other text that parses to zero
    ([0d], [0h]) is the whole history as well, although [0s] is none, and a
    positive duration is itself. *)
Definition backfill_means (b : bytes) (spec : BackfillSpec) : Prop :=
  match bs_Mode spec with
  | BackfillAll => b = [] \/ b = lit "all" \/ parseDurationExt b = Some 0
  | BackfillNone => b = lit "0" \/ b = lit "0s"
  | BackfillDuration => parseDurationExt b = Some (bs_Dur spec) /\ 0 < bs_Dur spec < 2 ^ 63
  end.

Lemma backfill_spec_means c : let b := TrimSpace (fs_Backfill c) in
  b = [] \/ b = lit "all" \/ b = lit "0" \/ b = lit "0s" \/ backfill_duration b = Ok tt ->
  backfill_means b (backfill_spec c).
Proof.
  intros b Hb. unfold backfill_means, backfill_spec. fold b.
  destruct (decide (b = [] \/ b = lit "all")) as [H|H]; cbn [bs_Mode bs_Dur]; [tauto|].
  destruct (decide (b = lit "0" \/ b = lit "0s")) as [H0|H0]; cbn [bs_Mode bs_Dur]; [exact H0|].
  assert (Hd : backfill_duration b = Ok tt) by tauto. unfold backfill_duration in Hd.
  destruct (parseDurationExt b) as [d|] eqn:E; [|done]. pose proof (parseDurationExt_i64 _ _ E) as Hr. unfold is_i64 in Hr.
  destruct (Z.ltb_spec d 0); [done|]. destruct (Z.leb_spec d 0); cbn [bs_Mode bs_Dur].
  - right. right. f_equal. lia.
  - split; [done|lia].
Qed.

Lemma len_nonempty (l : bytes) : l <> [] <-> len l <> 0.
Proof. destruct l as [|x l]; [done|]. rewrite len_cons. pose proof (len_nonneg l). split; [lia|done]. Qed.

Lemma Validate_accepted c : Validate c = Ok tt ->
  URL (fs_Source c) <> [] /\ fs_TCP_Addr c <> [] /\ fs_WAL_Path c <> [] /\
  Forall duration_ok (sender_durations c) /\ 0 <= fs_Pipeline c /\ 0 <= fs_WindowTarget c /\
  fs_Compression c ∈ [[]; lit "zstd"; lit "gzip"] /\
  backfill_means (TrimSpace (fs_Backfill c)) (backfill_spec c).
Proof.
  unfold Validate. intros H.
  destruct (Z.eqb_spec (len (URL (fs_Source c))) 0) as [|H1]; [done|].
  destruct (Z.eqb_spec (len (fs_TCP_Addr c)) 0) as [|H2]; [done|].
  destruct (Z.eqb_spec (len (fs_WAL_Path c)) 0) as [|H3]; [done|].
  fold (sender_durations c) in H. destruct (validateDurs (sender_durations c)) as [[]|e|] eqn:Ed; [|done|done].
  destruct (Z.ltb_spec (fs_Pipeline c) 0); [done|]. destruct (Z.ltb_spec (fs_WindowTarget c) 0); [done|].
  destruct (bool_decide (fs_Compression c <> _ /\ _)) eqn:Ec; [done|]. apply bool_decide_eq_false in Ec.
  split_and!; try by apply len_nonempty.
  - by apply validateDurs_ok.
  - done.
  - done.
  - rewrite !elem_of_cons, elem_of_nil. destruct (decide (fs_Compression c = [])), (decide (fs_Compression c = lit "zstd")),
      (decide (fs_Compression c = lit "gzip")); tauto.
  - apply backfill_spec_means. destruct (bool_decide _) eqn:Eb in H; [tauto|].
    apply bool_decide_eq_false in Eb. set (b := TrimSpace _) in *.
    destruct (decide (b = [])), (decide (b = lit "all")), (decide (b = lit "0")); tauto.
Qed.

(** The other direction: what is described is accepted. *)
Lemma validateDurs_all l : Forall duration_ok l -> validateDurs l = Ok tt.
Proof.
  induction 1 as [|s l [->|(d & E & Hd & _)] _ IH]; [done|done|]. cbn. unfold validateDur.
  destruct s as [|c s]; [done|]. rewrite E, (proj2 (Z.ltb_ge _ 0)) by lia. done.
Qed.

Lemma backfill_means_passes b spec : backfill_means b spec -> b <> [] -> b <> lit "all" -> b <> lit "0" ->
  backfill_duration b = Ok tt.
Proof.
  unfold backfill_means, backfill_duration. intros H H1 H2 H3. destruct (bs_Mode spec).
  - destruct H as [->| ->]; vm_compute; reflexivity.
  - destruct H as [?|[?|E]]; [done|done|]. by rewrite E.
  - destruct H as [E Hd]. rewrite E, (proj2 (Z.ltb_ge _ 0)) by lia. done.
Qed.

(** C33: what [Validate] checks, exactly. It accepts a file if and only if the
    addresses of the source and of the receiver and the path of the log are
    given; each of its ten durations is absent or parses to a duration that is
    not negative, which is then the one the configuration passes on, at most
    the largest [int64] (a component may put its own default for a zero); the
    pipeline and the target of the window are not negative; the compression is
    one of those known; and the text of the backfill is
    nothing, [all] or a zero other than [0] and [0s] (such as [0d]), which all
    ask for everything; or [0] or [0s], which ask for nothing; or a positive
    duration, which asks for itself ([BackfillSpec]). No other number is checked: the
    limits of a frame and the count of retries may be negative, and
    are then replaced by the defaults. *)
Theorem Validate_exact c : Validate c = Ok tt <->
  URL (fs_Source c) <> [] /\ fs_TCP_Addr c <> [] /\ fs_WAL_Path c <> [] /\
  Forall duration_ok (sender_durations c) /\ 0 <= fs_Pipeline c /\ 0 <= fs_WindowTarget c /\
  fs_Compression c ∈ [[]; lit "zstd"; lit "gzip"] /\
  backfill_means (TrimSpace (fs_Backfill c)) (backfill_spec c).
Proof.
  split; [apply Validate_accepted|]. intros (H1 & H2 & H3 & Hd & H4 & H5 & Hc & Hb). unfold Validate.
  rewrite !(proj2 (Z.eqb_neq (len _) 0)) by (by apply len_nonempty). fold (sender_durations c).
  rewrite (validateDurs_all _ Hd), !(proj2 (Z.ltb_ge _ 0)) by done.
  rewrite (bool_decide_eq_false_2 (fs_Compression c <> _ /\ _)).
  2: { rewrite !elem_of_cons, elem_of_nil in Hc. tauto. }
  cbv zeta. destruct (bool_decide _) eqn:Eb; [|done]. apply bool_decide_eq_true in Eb as (E1 & E2 & E3).
  by eapply backfill_means_passes.
Qed.

(** The initial cursor and the poller use the same export lag: what
    [EffectiveExportLag] computes for the first cursor is the lag [NewPoller]
    settles on for the same file, so that the first window is not empty. *)
Theorem export_lag_agrees c : EffectiveExportLag c = pc_ExportLag (p_cfg (NewPoller (poller_config c))).
Proof.
  unfold EffectiveExportLag, WatermarkDuration, NewPoller, or_default. cbn.
  unfold DefaultExportVisibilityLag, Second. repeat case_bool; lia.
Qed.

Definition plain_file : FileSender :=
  mkFS (mkConfig (lit "http://vm:8428") [] [] []) [] (lit "5s") (lit "1s") [] 0 0 0 [] (lit "30d") (lit "/wal") (lit "64MB")
    (lit "peer:9000") [] [] [] 0 [] [] [] 0 (mkMon [] [] []) (mkLog [] [] 0 0).

Lemma Validate_exact_witness :
  duration_ok (fs_Window plain_file) /\ bs_Mode (backfill_spec plain_file) = BackfillDuration /\
  backfill_means (lit "30d") (backfill_spec plain_file).
Proof.
  destruct (proj1 (Validate_exact plain_file)) as (_ & _ & _ & Hd & _ & _ & _ & Hb); [vm_compute; reflexivity|].
  split; [by inversion Hd as [|? ? ? [|? ? ? ?]]; subst; inversion H0|]. split; [vm_compute; reflexivity|exact Hb].
Defined.

(** A zero with a unit passes validation and asks for a full backfill. *)
Example zero_days_is_all :
  ValidateBackfill (lit "0d") = Ok tt /\
  bs_Mode (backfill_spec (mkFS (mkConfig (lit "u") [] [] []) [] [] [] [] 0 0 0 [] (lit "0d") (lit "w") [] (lit "t") [] [] [] 0 [] [] [] 0
    (mkMon [] [] []) (mkLog [] [] 0 0))) = BackfillAll.
Proof. vm_compute. split; reflexivity. Qed.
