(* ===== verification/Backfill.v ===== *)
(** * The sender's start ([run] and [backfillInit] of [cmd/sender/main.go])

    The log is opened, and before the poller runs, the backfill policy is applied
    to it and a first cursor is chosen. The answers of the source are what
    [VmClient.ProbeOldestData] made of them, one for each attempt. *)
From S2P Require Import Prelude Protocol WalDisk WalScan Wal WalQueue WalCommit WalCalm WalOpen WalDurable WalCrash VmClient Poller Config.
Local Open Scope Z_scope.
Local Open Scope go_scope.

(** ** Definitions *)

(** Up to [n] attempts at probing, from the first answer that is no error. *)
Fixpoint probe_attempts (n : nat) (answers : list (outcome vmerr Z)) : option Z :=
  match n, answers with
  | S n', Ok oldest :: _ => Some oldest
  | S n', _ :: rest => probe_attempts n' rest
  | _, _ => None
  end.

(** Whether a policy is applied, the policy and its boundary. *)
Definition backfill_plan (spec : BackfillSpec) (found : option Z) (now : Z) : bool * Z * Z :=
  let oldest := default 0 found in
  let probeOK := bool_decide (is_Some found) in
  match bs_Mode spec with
  | BackfillNone => (true, 0, 0)
  | BackfillAll =>
      if negb probeOK then (false, 0, 0)
      else if oldest =? 0 then (false, 0, 0)
      else (true, BackfillAllNs, oldest)
  | BackfillDuration =>
      if probeOK && (oldest =? 0) then (false, 0, 0)
      else
        let policyNs := Milliseconds (bs_Dur spec) in
        let boundaryNs := now - policyNs in
        (true, policyNs,
          if probeOK && (0 <? oldest) && (boundaryNs <? oldest) then oldest else boundaryNs)
  end.

(** The cursor of a first start. *)
Definition first_cursor (spec : BackfillSpec) (found : option Z) (boundaryNs initLagMs now : Z) : Z :=
  let oldest := default 0 found in
  if decide (bs_Mode spec = BackfillAll) then
    if bool_decide (is_Some found) && (0 <? oldest) then oldest else now - initLagMs
  else if decide (bs_Mode spec = BackfillDuration) then
    if 0 <? boundaryNs then boundaryNs else now - initLagMs
  else now - initLagMs.

Definition backfillInit (answers : list (outcome vmerr Z)) (spec : BackfillSpec)
    (initLagMs now clock1 clock2 : Z) : W unit :=
  let found := if decide (bs_Mode spec = BackfillNone) then Some 0 else probe_attempts 5 answers in
  let '(applyPolicy, policyNs, boundaryNs) := backfill_plan spec found now in
  (if applyPolicy : bool then ApplyBackfillPolicy clock1 policyNs boundaryNs ;;; ret tt else ret tt) ;;;
  cursor <- gets Cursor ;;
  if cursor =? 0 then SetCursor clock2 (first_cursor spec found boundaryNs initLagMs now) else ret tt.

(** The start of [run]: the log is opened, and closed again when the first cursor
    cannot be saved. *)
Definition run_start (c : FileSender) (answers : list (outcome vmerr Z)) (now clock1 clock2 clock3 : Z) : W unit :=
  Open (SegmentSize c) ;;;
  o <- attempt (backfillInit answers (backfill_spec c) (Milliseconds (EffectiveExportLag c)) now clock1 clock2) ;;
  match o with
  | Ok _ => ret tt
  | Err e => attempt (Close clock3) ;;; fail e
  | Panic => panic
  end.

(** ** The log's operations when nothing fails *)

Definition legacy (w : World) : bool := w_legacyCheckpoint (wal w).

Lemma set_persist_ok now f w q : log_ok w q -> same_queue (wal w) (f (wal w)) ->
  exists w', persistLocked now (set_wal f w) = (Ok tt, w') /\ log_ok w' q /\
    w_cp (wal w') = w_cp (f (wal w)) /\ legacy w' = w_legacyCheckpoint (f (wal w)).
Proof.
  intros [Hi Hr [Hf Hc]] Hq. rewrite persistLocked_calm by done. eexists. split; [done|].
  assert (Hq' : same_queue (wal w) (with_lastCp (Some now) (f (wal w)))) by exact Hq.
  destruct (same_queue_inv (segs w) _ _ q Hq' (conj Hi Hr)) as [Hi' Hr'].
  split; [|done]. split; [done|done|]. split; [done|]. destruct Hq as (_ & _ & _ & Hh & _). cbn. by rewrite Hh.
Qed.

Lemma ApplyBackfillPolicy_ok now policyNs boundaryNs w q : log_ok w q -> legacy w = false ->
  exists b w', ApplyBackfillPolicy now policyNs boundaryNs w = (Ok b, w') /\ log_ok w' q /\
    legacy w' = false /\ BackfillPolicyNs w' = policyNs /\
    Cursor w' = (if BackfillPolicyNs w =? policyNs then Cursor w
                 else backfill_cursor policyNs boundaryNs (Cursor w)).
Proof.
  intros Hl Hleg. unfold legacy in *. unfold ApplyBackfillPolicy, bind at 1, gets. rewrite Hleg.
  change (BackfillNs (w_cp (wal w))) with (BackfillPolicyNs w).
  destruct (Z.eqb_spec (BackfillPolicyNs w) policyNs) as [E|E]; [by exists false, w|].
  unfold backfill_cursor. change (CursorNs (w_cp (wal w))) with (Cursor w).
  destruct (negb _ && _ && _); unfold bind, modify, ret;
    [set (f := fun w0 => with_cp (cp_Backfill policyNs (cp_Cursor boundaryNs (w_cp w0))) w0)
    |set (f := fun w0 => with_cp (cp_Backfill policyNs (w_cp w0)) w0)];
    destruct (set_persist_ok now f w q Hl) as (w' & E' & Hl' & Hcp & Hg); try done;
    match goal with |- context [persistLocked now ?x] => change x with (set_wal f w) end; rewrite E';
    (do 2 eexists; split; [done|]; split; [done|]; unfold BackfillPolicyNs, Cursor; rewrite Hcp;
      split_and!; [exact (eq_trans Hg Hleg)|done|done]).
Qed.

Lemma SetCursor_up now ts w q : log_ok w q -> legacy w = false -> Cursor w <= ts ->
  exists w', SetCursor now ts w = (Ok tt, w') /\ log_ok w' q /\ legacy w' = false /\
    BackfillPolicyNs w' = BackfillPolicyNs w /\ Cursor w' = ts.
Proof.
  intros Hl Hleg Hle. unfold SetCursor, bind, gets, modify. change (CursorNs (w_cp (wal w))) with (Cursor w).
  destruct (Z.ltb_spec ts (Cursor w)); [lia|].
  destruct (set_persist_ok now (fun w0 => with_cp (cp_Cursor ts (w_cp w0)) w0) w q Hl) as (w' & E & Hl' & Hcp & Hg); [done|].
  rewrite E. exists w'. unfold BackfillPolicyNs, Cursor. rewrite Hcp. split; [done|]. split; [done|]. by rewrite Hg.
Qed.

(** ** What a start guarantees *)

(** The policy to record and its boundary, or nothing when this start decides
    nothing: a full backfill needs the oldest sample, and no backfill is decided
    on a source that answered that it is empty. A bounded one whose probe found
    no answer is decided, from the clock alone. *)
Definition decided (spec : BackfillSpec) (found : option Z) (now : Z) : option (Z * Z) :=
  let back := now - Milliseconds (bs_Dur spec) in
  match bs_Mode spec, found with
  | BackfillNone, _ => Some (BackfillNoneNs, 0)
  | BackfillAll, Some oldest => if decide (oldest = 0) then None else Some (BackfillAllNs, oldest)
  | BackfillAll, None => None
  | BackfillDuration, Some oldest =>
      if decide (oldest = 0) then None
      else Some (Milliseconds (bs_Dur spec), if decide (0 < oldest) then Z.max back oldest else back)
  | BackfillDuration, None => Some (Milliseconds (bs_Dur spec), back)
  end.

(** What the probe told: the first answer among five. *)
Definition probed (spec : BackfillSpec) (answers : list (outcome vmerr Z)) : option Z :=
  if decide (bs_Mode spec = BackfillNone) then Some 0 else probe_attempts 5 answers.

(** The cursor of a first start: the boundary, else the visible end of the source. *)
Definition first_start (spec : BackfillSpec) (o : option (Z * Z)) (initLagMs now : Z) : Z :=
  match o with
  | Some (_, boundary) =>
      if bool_decide (bs_Mode spec <> BackfillNone) && (0 <? boundary) then boundary else now - initLagMs
  | None => now - initLagMs
  end.

(** What the start did to the policy and to the cursor. *)
Record covers (spec : BackfillSpec) (answers : list (outcome vmerr Z)) (initLagMs now : Z) (w w' : World) : Prop := {
  cov_policy : BackfillPolicyNs w' =
    match decided spec (probed spec answers) now with Some (policy, _) => policy | None => BackfillPolicyNs w end;
  cov_rewound : forall policy boundary, decided spec (probed spec answers) now = Some (policy, boundary) ->
    BackfillPolicyNs w <> policy -> policy <> BackfillNoneNs -> 0 < boundary ->
    Cursor w <> 0 -> Cursor w' = Z.min (Cursor w) boundary;
  cov_same : Cursor w <> 0 ->
    (forall policy boundary, decided spec (probed spec answers) now = Some (policy, boundary) ->
       BackfillPolicyNs w = policy \/ policy = BackfillNoneNs \/ boundary <= 0) -> Cursor w' = Cursor w;
  cov_first : Cursor w = 0 -> Cursor w' = first_start spec (decided spec (probed spec answers) now) initLagMs now }.

Definition planned (o : option (Z * Z)) : bool * Z * Z :=
  match o with Some (policy, boundary) => (true, policy, boundary) | None => (false, 0, 0) end.

Lemma backfill_plan_decided spec found now : backfill_plan spec found now = planned (decided spec found now).
Proof.
  unfold planned, backfill_plan, decided. destruct (bs_Mode spec), found as [o|]; cbn [default is_Some]; try done.
  - rewrite bool_decide_eq_true_2 by done. cbn. case_decide; destruct (Z.eqb_spec o 0); done.
  - rewrite bool_decide_eq_true_2 by done. cbn. case_decide; destruct (Z.eqb_spec o 0); [done..|].
    set (b := now - _). case_decide; destruct (Z.ltb_spec 0 o), (Z.ltb_spec b o); cbn; do 2 f_equal; lia.
Qed.

(** The first cursor, from what was decided. *)
Lemma first_cursor_decided spec found initLagMs now :
  first_cursor spec found (backfill_plan spec found now).2 initLagMs now =
    first_start spec (decided spec found now) initLagMs now.
Proof.
  rewrite backfill_plan_decided. unfold planned, first_cursor, first_start, decided. destruct (bs_Mode spec), found as [o|]; cbn [default]; try done.
  - cbn. destruct (decide (o = 0)) as [->|]; done.
  - cbn. destruct (decide (o = 0)) as [->|]; done.
Qed.

(** The cursor after the step of the policy. *)
Definition rewound (o : option (Z * Z)) (w : World) : Z :=
  match o with
  | Some (policy, boundary) => if BackfillPolicyNs w =? policy then Cursor w else backfill_cursor policy boundary (Cursor w)
  | None => Cursor w
  end.

Lemma rewound_range o w : 0 <= Cursor w -> 0 <= rewound o w <= Cursor w /\ (rewound o w = 0 -> Cursor w = 0).
Proof.
  unfold rewound, backfill_cursor. destruct o as [[p b]|]; [|lia]. destruct (Z.eqb_spec (BackfillPolicyNs w) p); [lia|].
  destruct (Z.eqb_spec p BackfillNoneNs), (Z.ltb_spec 0 b), (Z.ltb_spec b (Cursor w)); cbn [negb andb]; lia.
Qed.

Lemma policy_step_ok clock o w q : log_ok w q -> legacy w = false -> let '(applied, policyNs, boundaryNs) := planned o in
  exists w1, (if applied : bool then ApplyBackfillPolicy clock policyNs boundaryNs ;;; ret tt else ret tt) w = (Ok tt, w1) /\
    log_ok w1 q /\ legacy w1 = false /\
    BackfillPolicyNs w1 = (match o with Some (policy, _) => policy | None => BackfillPolicyNs w end) /\ Cursor w1 = rewound o w.
Proof.
  intros Hl Hleg. destruct o as [[p b]|]; [|by exists w]. cbn.
  destruct (ApplyBackfillPolicy_ok clock p b w q Hl Hleg) as (? & w1 & E & H). exists w1. unfold bind, ret. by rewrite E.
Qed.

Lemma first_cursor_nonneg spec found initLagMs now : initLagMs <= now ->
  0 <= first_cursor spec found (backfill_plan spec found now).2 initLagMs now.
Proof.
  intros H. rewrite first_cursor_decided. unfold first_start. destruct (decided spec found now) as [[p b]|]; [|lia].
  destruct (bool_decide _), (Z.ltb_spec 0 b); cbn; lia.
Qed.

(** All of [backfillInit], when the disk answers. *)
Lemma backfillInit_run answers spec initLagMs now clock1 clock2 w q :
  log_ok w q -> legacy w = false -> 0 <= Cursor w -> initLagMs <= now ->
  let o := decided spec (probed spec answers) now in
  exists w', backfillInit answers spec initLagMs now clock1 clock2 w = (Ok tt, w') /\ log_ok w' q /\
    BackfillPolicyNs w' = (match o with Some (policy, _) => policy | None => BackfillPolicyNs w end) /\
    Cursor w' = (if rewound o w =? 0 then first_start spec o initLagMs now else rewound o w).
Proof.
  intros Hl Hleg Hc Hlag o. unfold backfillInit. fold (probed spec answers). cbv zeta.
  pose proof (first_cursor_nonneg spec (probed spec answers) initLagMs now Hlag) as Hf0.
  pose proof (first_cursor_decided spec (probed spec answers) initLagMs now) as Hf. revert Hf0 Hf.
  rewrite backfill_plan_decided. fold o. pose proof (policy_step_ok clock1 o w q Hl Hleg) as Hs.
  destruct (rewound_range o w Hc) as [Hr _].
  destruct (planned o) as [[applied policyNs] boundaryNs]. destruct Hs as (w1 & E & Hl1 & Hg1 & Hb1 & Hc1).
  cbn [snd]. intros Hf0 <-. unfold bind at 1. rewrite E. unfold bind, gets. rewrite Hc1.
  destruct (Z.eqb_spec (rewound o w) 0) as [E0|]; [|by exists w1].
  destruct (SetCursor_up clock2 (first_cursor spec (probed spec answers) boundaryNs initLagMs now) w1 q Hl1 Hg1)
    as (w' & E' & Hl' & _ & Hb' & Hc'); [lia|]. exists w'. by rewrite Hb'.
Qed.

(** C21: a start never skips the history it was asked for. On an open log that
    is not from before the feature and whose disk answers, [backfillInit]
    succeeds and leaves the frames alone. The policy is recorded unless a
    backfill is asked for and the source answered that it is empty, or the
    backfill is a full one and the source gave no answer: then the next start
    tries again. A bounded backfill whose probe fails is recorded, its boundary
    being that long before now. When another policy than the one the log has is
    recorded with a positive boundary (the oldest sample for a full backfill), a
    cursor that is set moves back to it, or stays if it is before it, so every
    sample from there on will be exported. A boundary that is not positive moves
    nothing, nor does a policy that is already recorded or not decided; a cursor
    that is set never moves forward. The cursor of a first start is the positive
    boundary of the backfill, else the visible end of the source. *)
Theorem backfillInit_never_skips answers spec initLagMs now clock1 clock2 w q :
  log_ok w q -> legacy w = false -> 0 <= Cursor w -> initLagMs <= now ->
  exists w', backfillInit answers spec initLagMs now clock1 clock2 w = (Ok tt, w') /\
    log_ok w' q /\ covers spec answers initLagMs now w w'.
Proof.
  intros Hl Hleg Hc Hlag.
  destruct (backfillInit_run answers spec initLagMs now clock1 clock2 w q Hl Hleg Hc Hlag) as (w' & E & Hl' & Hb & Hw).
  exists w'. split; [done|]. split; [done|]. revert Hb Hw.
  destruct (rewound_range (decided spec (probed spec answers) now) w Hc) as [Hr H0].
  intros Hb Hw. split; [exact Hb| | |].
  - intros p b Hd Hp Hn Hbn Hne. rewrite Hd in Hw. unfold rewound, backfill_cursor in Hw.
    rewrite (proj2 (Z.eqb_neq _ p)), (proj2 (Z.eqb_neq p _)), (proj2 (Z.ltb_lt 0 b)) in Hw by done. cbn [negb andb] in Hw.
    destruct (Z.ltb_spec b (Cursor w)); rewrite (proj2 (Z.eqb_neq _ 0)) in Hw by lia; lia.
  - intros Hne Hs. assert (Hsame : rewound (decided spec (probed spec answers) now) w = Cursor w).
    { unfold rewound, backfill_cursor. destruct (decided _ _ _) as [[p b]|]; [|done].
      destruct (Z.eqb_spec (BackfillPolicyNs w) p); [done|]. destruct (Hs p b eq_refl) as [?|[->|?]]; [done|done|].
      by rewrite (proj2 (Z.ltb_ge 0 b)), andb_false_r. }
    rewrite Hsame in Hw. by rewrite (proj2 (Z.eqb_neq _ 0)) in Hw.
  - intros E0. by rewrite (proj2 (Z.eqb_eq (rewound _ w) 0)) in Hw by lia.
Qed.

(** ** Witness and a defect *)

(** A log at 500 with no policy yet; a full backfill, of which the third attempt
    to find the start of the data succeeds. *)
Definition at_cursor (c : Z) : World := set_wal (fun w => with_cp (cp_Cursor c (w_cp w)) w) two.

Lemma at_cursor_ok c : log_ok (at_cursor c) two_queue.
Proof.
  destruct two_ok as [Hi Hr].
  destruct (same_queue_inv (segs two) (wal two) (wal (at_cursor c)) two_queue ltac:(done) (conj Hi Hr)) as [Hi' Hr'].
  by split.
Qed.

Lemma backfillInit_never_skips_witness :
  exists w', backfillInit [Err VmDo; Err VmDo; Ok 200] (mkSpec BackfillAll 0) 100 1000 0 0 (at_cursor 500) = (Ok tt, w') /\
    log_ok w' two_queue /\ covers (mkSpec BackfillAll 0) [Err VmDo; Err VmDo; Ok 200] 100 1000 (at_cursor 500) w'.
Proof.
  apply (backfillInit_never_skips [Err VmDo; Err VmDo; Ok 200] (mkSpec BackfillAll 0) 100 1000 0 0 (at_cursor 500) two_queue).
  - apply at_cursor_ok.
  - reflexivity.
  - by vm_compute.
  - lia.
Defined.

(** A bounded backfill longer than the time since the epoch, while the source
    does not answer: the policy is recorded, the boundary is not positive, and
    the cursor stays; the next start finds the policy recorded and does nothing. *)
Example unreachable_boundary_is_recorded :
  let spec := mkSpec BackfillDuration (1001 * Millisecond) in
  let w := snd (backfillInit [] spec 100 1000 0 0 (at_cursor 500)) in
  BackfillPolicyNs w = 1001 /\ Cursor w = 500 /\
  Cursor (snd (backfillInit [Ok 200] spec 100 1000 0 0 w)) = 500.
Proof. vm_compute. repeat split. Qed.

(** ** Starting on the directory of a process that died *)

(** The first cursor leaves the frames as they are. *)
Lemma backfillInit_stands answers spec initLagMs now clock1 clock2 d q w w' :
  stands d q w -> faults w = [] -> backfillInit answers spec initLagMs now clock1 clock2 w = (Ok tt, w') ->
  stands d q w' /\ faults w' = [].
Proof.
  intros Hst Hf. unfold backfillInit. set (found := if decide _ then Some 0 else _).
  destruct (backfill_plan spec found now) as [[applied policyNs] boundaryNs].
  set (m := if applied then ApplyBackfillPolicy clock1 policyNs boundaryNs ;;; ret tt else ret tt : W unit).
  assert (Hpolicy : forall w1, m w = (Ok tt, w1) -> stands d q w1 /\ faults w1 = []).
  { unfold m. destruct applied; [|by intros w1 [= <-]]. intros w1 E.
    destruct (stands_lop (LPolicy clock1 policyNs boundaryNs) d q w w1) as (d1 & q1 & Hp & H); [done..|]. by inversion Hp; subst. }
  unfold bind at 1. destruct (m w) as [[[]|e|] w1]; [|done|done].
  destruct (Hpolicy w1 eq_refl) as [Hst1 Hf1]. unfold bind, gets. destruct (_ =? 0); [|by intros [= <-]].
  intros E. destruct (stands_lop (LCursor clock2 (first_cursor spec found boundaryNs initLagMs now)) d q w1 w')
    as (d1 & q1 & Hp & H); [done..|]. by inversion Hp; subst.
Qed.

(** A start after a crash gives back the frames. *)
Lemma run_start_recovers c answers now clock1 clock2 clock3 d fs s w :
  survives d fs s -> faults s = [] -> flocked s = false ->
  run_start c answers now clock1 clock2 clock3 s = (Ok tt, w) ->
  exists d' back q', d = d' ++ back /\ q_frames q' = back ++ fs /\ stands d' q' w /\ faults w = [].
Proof.
  intros Hsv Hf Hl. destruct (recover d fs s (SegmentSize c) Hsv Hf Hl) as (s1 & d' & back & q' & E & Hf1 & Hst & Hd & Hq).
  unfold run_start, bind at 1. rewrite E. unfold attempt, bind.
  destruct (backfillInit _ _ _ _ _ _ s1) as [[[]|e|] w1] eqn:Eb; [|by destruct (Close clock3 w1) as [[] ?]|done].
  intros [= <-]. destruct (backfillInit_stands _ _ _ _ _ _ d' q' s1 w1 Hst Hf1 Eb). by exists d', back, q'.
Qed.
