(* ===== verification/Restarts.v ===== *)
(** * A start may fail, at any call

    A process that starts opens its log, applies the backfill policy, chooses a
    first cursor, and closes the log again when one of these fails. It may die at
    any system call of all this, or one may fail, and another process starts after
    it. What the next one finds are the same frames, and one of the cursors of the
    processes before. *)
From S2P Require Import Prelude Protocol WalDisk WalScan Wal WalQueue WalCommit WalCalm WalOpen WalDurable WalCrash WalReopen WalCursor WalClose.
From S2P Require Import VmClient Poller Config Backfill.
Local Open Scope Z_scope.
Local Open Scope go_scope.

(** ** The checkpoint in memory *)

Create HintDb pinned.

(** The checkpoint in memory does not change. *)
Definition pinned {A} (m : W A) : Prop := forall s, w_cp (wal (snd (m s))) = w_cp (wal s).

Lemma pinned_bind {A B} (m : W A) (k : A -> W B) : pinned m -> (forall a, pinned (k a)) -> pinned (bind m k).
Proof.
  intros Hm Hk s. unfold bind. specialize (Hm s). destruct (m s) as [[a|e|] s']; [|done|done].
  rewrite (Hk a s'). exact Hm.
Qed.
Lemma pinned_ret {A} (a : A) : pinned (ret a).
Proof. by intros s. Qed.
Lemma pinned_fail {A} e : pinned (@fail World werr A e).
Proof. by intros s. Qed.
Lemma pinned_gets {A} (f : World -> A) : pinned (gets f).
Proof. by intros s. Qed.
Lemma pinned_modify f : (forall s, w_cp (wal (f s)) = w_cp (wal s)) -> pinned (modify f).
Proof. intros H s. apply H. Qed.
Lemma pinned_next_io : pinned next_io.
Proof. intros s. unfold next_io. by destruct (faults s). Qed.
#[local] Hint Resolve pinned_ret pinned_fail pinned_gets pinned_next_io : pinned.

Ltac pinned :=
  repeat first
    [ progress intros
    | solve [eauto 1 with pinned]
    | apply pinned_bind
    | apply pinned_modify; intros; reflexivity
    | progress cbv zeta
    | match goal with |- pinned (match ?x with _ => _ end) => destruct x end ].

Lemma pinned_sys e : pinned (sys e).
Proof. unfold sys. pinned. Qed.
#[local] Hint Resolve pinned_sys : pinned.
Lemma pinned_index_segments start acked l : pinned (index_segments start acked l).
Proof. induction l as [|i l IH]; cbn [index_segments]; unfold indexSegment; pinned. Qed.
Lemma pinned_open_append seg eo es : pinned (open_append seg eo es).
Proof. unfold open_append. pinned. Qed.
#[local] Hint Resolve pinned_index_segments pinned_open_append : pinned.

Lemma wp_pinned {A} (m : W A) s : pinned m -> wp m (fun _ s' => w_cp (wal s') = w_cp (wal s)) s.
Proof. intros H. exact (H s). Qed.

(** The position of the checkpoint once the removed segments are passed. *)
Definition scanned (lo : Z) (cp : checkpoint) : checkpoint := if SegStart cp <? lo then cp_Ack lo 0 cp else cp.

Lemma scanSegments_memory lo f0 rest torn s : disk lo (f0 :: rest) torn s -> SegStart (w_cp (wal s)) <= lo ->
  wp scanSegments (fun o s' => o = Ok tt -> w_cp (wal s') = scanned lo (w_cp (wal s))) s.
Proof.
  intros Hd Hst. pose proof (disk_indices _ _ _ _ Hd) as Hidx. unfold scanSegments.
  wp_step. apply wp_sys; intros l; cbn [bind_post]; [|done].
  wp_step. apply wp_gets. cbn [bind_post]. wp_step. apply wp_gets. cbn [bind_post]. cbn [segs wal set_faults].
  set (start := SegStart (w_cp (wal s))) in *. wp_step.
  unfold wp at 1. rewrite remove_stale_none by (eapply Forall_impl; [exact Hidx|]; cbn; lia). cbn [fst snd bind_post].
  assert (Hfil : filter (fun i => start <= i) (idxList (segs s)) = seqZ lo (len (f0 :: rest))).
  { apply idxList_filter; [|lia]. intros i _. apply (dk_dom _ _ _ _ Hd). }
  unfold firstAlive. rewrite Hfil, seqZ_len_cons. pose proof (dk_lo _ _ _ _ Hd). destruct (Z.ltb_spec lo 0); [lia|].
  assert (Hgo : forall s1, w_cp (wal s1) = scanned lo (w_cp (wal s)) ->
    wp (w <- gets wal ;; index_segments (SegStart (w_cp w)) (AckedBytes (w_cp w)) (idxList (segs s)) ;;;
        modify (set_wal (fun w => with_index (w_index w) 0 w)))
      (fun o s' => o = Ok tt -> w_cp (wal s') = scanned lo (w_cp (wal s))) s1).
  { intros s1 E1. eapply wp_conseq; [apply wp_pinned; pinned|]. intros o s' E _. congruence. }
  assert (Hsc : scanned lo (w_cp (wal s)) = if start <? lo then cp_Ack lo 0 (w_cp (wal s)) else w_cp (wal s)) by done.
  wp_step. destruct (start <? lo).
  - apply wp_modify. cbn [bind_post]. by apply Hgo.
  - apply wp_ret. cbn [bind_post]. by apply Hgo.
Qed.

Lemma acks_scanned cp lo fss j : acks cp lo fss j -> acks (scanned lo cp) lo fss j.
Proof.
  intros [H1 H2 H3 H4 H5]. unfold scanned. destruct (Z.ltb_spec (SegStart cp) lo); [|by split].
  destruct (Z.eqb_spec (SegStart cp) lo); [lia|]. subst j.
  split; cbn; [lia|done|lia|by rewrite Z.eqb_refl|constructor].
Qed.

Lemma acks_next cp lo fss j n : acks cp lo fss j -> is_u64 n -> NextSeq cp <= n -> acks (cp_NextSeq n cp) lo fss j.
Proof.
  intros [H1 H2 H3 H4 H5] Hn Hle. split; try done. eapply Forall_impl; [exact H5|]. cbn. lia.
Qed.

(** What an opening leaves in memory acknowledges no more than the disk did. *)
Lemma Open_memory segSize lo f0 rest torn j cp legacy s :
  disk lo (f0 :: rest) torn s -> read_ckpt (ckpt s) = Some (cp, legacy) -> acks cp lo (f0 :: rest) j ->
  wp (Open segSize) (fun o s' => o = Ok tt -> acks (w_cp (wal s')) lo (f0 :: rest) j) s.
Proof.
  intros Hd Hck Ha. apply (Open_begun _ _ _ cp legacy); [done|done|]. intros s1 E1 E2 E3. unfold open_rest.
  assert (Hd1 : disk lo (f0 :: rest) torn s1) by by eapply disk_same. pose proof (ak_start _ _ _ _ Ha) as Hst.
  wp_step. eapply wp_conseq; [apply (scanSegments_memory lo f0 rest torn s1 Hd1); rewrite E3; apply Hst|].
  intros [[]|e|] s2 Ho; cbn [bind_post]; [|done|done]. specialize (Ho eq_refl). rewrite E3 in Ho.
  pose proof (acks_scanned _ _ _ _ Ha) as Ha2. rewrite <- Ho in Ha2.
  wp_step. apply wp_modify. cbn [bind_post]. set (s3 := set_wal _ s2).
  assert (Ha3 : acks (w_cp (wal s3)) lo (f0 :: rest) j).
  { unfold s3. cbn. destruct (Z.ltb_spec (NextSeq (w_cp (wal s2))) (u64 (maxSeq (w_index (wal s2)) + 1))); [|done].
    cbn. apply acks_next; [done|apply u64_range|lia]. }
  clearbody s3. wp_step. apply wp_gets. cbn [bind_post].
  eapply wp_conseq; [apply wp_pinned; unfold lastSegmentIdx; pinned|]. cbn. intros o s' -> _. exact Ha3.
Qed.

(** ** What a start keeps *)

(** The frames from the [k]-th one on are not acknowledged, on the disk or in memory. *)
Definition on_disk_from (lo : Z) (fss : list (list bytes)) (k : nat) (s : World) : Prop :=
  holds_run lo fss s /\ ckpt_ok lo fss k s.
Definition resumes (lo : Z) (fss : list (list bytes)) (k : nat) (s : World) : Prop :=
  on_disk_from lo fss k s /\ mem_acks lo fss k (wal s).

Lemma persistLocked_resumes now lo fss k s : resumes lo fss k s ->
  wp (persistLocked now) (fun _ s' => resumes lo fss k s') s.
Proof.
  intros [[[torn Hd] Hc] (j & Ha & Hj)]. eapply wp_conseq; [apply persistLocked_spec|].
  intros o s' [(Es & [t Ew] & Hck & _) _].
  assert (Hm : mem_acks lo fss k (wal s')) by (exists j; by rewrite Ew). split; [split; [|]|done].
  - exists torn. by eapply disk_same.
  - destruct Hck as [E|E]; [by eapply ckpt_ok_same|]. destruct Hm as (j' & Ha' & Hj').
    exists (w_cp (wal s')), false, j'. by rewrite E.
Qed.

(** The cursor and the policy may change. *)
Lemma resumes_same lo fss k s s' : segs s' = segs s -> ckpt s' = ckpt s ->
  SegStart (w_cp (wal s')) = SegStart (w_cp (wal s)) -> AckedBytes (w_cp (wal s')) = AckedBytes (w_cp (wal s)) ->
  NextSeq (w_cp (wal s')) = NextSeq (w_cp (wal s)) -> resumes lo fss k s -> resumes lo fss k s'.
Proof.
  intros E1 E2 E3 E4 E5 [[[torn Hd] Hc] (j & [] & Hj)]. split; [split|].
  - exists torn. by eapply disk_same.
  - by eapply ckpt_ok_same.
  - exists j. split; [|done]. split; rewrite ?E3, ?E4, ?E5; done.
Qed.

Lemma SetCursor_resumes now ts lo fss k s : resumes lo fss k s -> wp (SetCursor now ts) (fun _ s' => resumes lo fss k s') s.
Proof.
  intros H. unfold SetCursor. wp_step. apply wp_gets. cbn [bind_post]. destruct (_ <? _); [by apply wp_fail|].
  wp_step. apply wp_modify. cbn [bind_post]. apply persistLocked_resumes. by apply (resumes_same _ _ _ s).
Qed.

Lemma ApplyBackfillPolicy_resumes now policyNs boundaryNs lo fss k s : resumes lo fss k s ->
  wp (ApplyBackfillPolicy now policyNs boundaryNs) (fun _ s' => resumes lo fss k s') s.
Proof.
  intros H. assert (Hsave : forall (b : bool) s1, resumes lo fss k s1 ->
    wp (persistLocked now ;;; ret b) (fun _ s' => resumes lo fss k s') s1).
  { intros b s1 H1. wp_step. eapply wp_conseq; [by apply persistLocked_resumes|].
    intros [[]|e|] s2 H2; cbn [bind_post]; [by apply wp_ret|done|done]. }
  unfold ApplyBackfillPolicy. wp_step. apply wp_gets. cbn [bind_post].
  destruct (w_legacyCheckpoint (wal s)).
  { wp_step. apply wp_modify. cbn [bind_post]. apply Hsave. by apply (resumes_same _ _ _ s). }
  destruct (_ =? _); [by apply wp_ret|]. cbv zeta. wp_step.
  destruct (negb _ && _ && _); [apply wp_modify|apply wp_ret]; cbn [bind_post]; wp_step; apply wp_modify;
    cbn [bind_post]; apply Hsave; by apply (resumes_same _ _ _ s).
Qed.

Lemma backfillInit_resumes answers spec initLagMs now clock1 clock2 lo fss k s : resumes lo fss k s ->
  wp (backfillInit answers spec initLagMs now clock1 clock2) (fun _ s' => resumes lo fss k s') s.
Proof.
  intros H. unfold backfillInit. destruct (backfill_plan _ _ _) as [[applied policyNs] boundaryNs]. wp_step.
  assert (Hcur : forall s1, resumes lo fss k s1 -> wp (cursor <- gets Cursor ;;
    if cursor =? 0 then SetCursor clock2 (first_cursor spec
      (if decide (bs_Mode spec = BackfillNone) then Some 0 else probe_attempts 5 answers) boundaryNs initLagMs now)
    else ret tt) (fun _ s' => resumes lo fss k s') s1).
  { intros s1 H1. wp_step. apply wp_gets. cbn [bind_post]. destruct (_ =? 0); [by apply SetCursor_resumes|by apply wp_ret]. }
  destruct applied; [|apply wp_ret; cbn [bind_post]; by apply Hcur].
  wp_step. eapply wp_conseq; [by apply ApplyBackfillPolicy_resumes|].
  intros [b|e|] s2 H2; cbn [bind_post]; [|done|done]. apply wp_ret. cbn [bind_post]. by apply Hcur.
Qed.

Lemma Close_leaves now lo fss k s o s' : resumes lo fss k s -> Close now s = (o, s') -> on_disk_from lo fss k s'.
Proof.
  intros [[[torn Hd] Hc] (j & Ha & Hj)] E. pose proof (Close_spec now s) as H. unfold wp in H. rewrite E in H.
  destruct H as [_ Es _ Hk _ _ _]. cbn [fst snd] in *. split; [exists torn; by eapply disk_same|].
  destruct Hk as [Hk|Hk]; [by eapply ckpt_ok_same|]. exists (w_cp (wal s)), false, j. by rewrite Hk.
Qed.

(** From the opening on. *)
Lemma opened_leaves c answers now clock1 clock2 clock3 lo fss k s s1 o s' :
  Open (SegmentSize c) s = (Ok tt, s1) -> resumes lo fss k s1 ->
  run_start c answers now clock1 clock2 clock3 s = (o, s') -> on_disk_from lo fss k s'.
Proof.
  intros E H. unfold run_start, bind, attempt. rewrite E.
  pose proof (backfillInit_resumes answers (backfill_spec c) (Milliseconds (EffectiveExportLag c)) now clock1 clock2 _ _ _ _ H) as Hb.
  unfold wp in Hb. destruct (backfillInit _ _ _ _ _ _ s1) as [[[]|e|] s2]; cbn [fst snd] in Hb; [by intros [= <- <-]; apply Hb| |by intros [= <- <-]; apply Hb].
  destruct (Close clock3 s2) as [oc s3] eqn:Ec. pose proof (Close_leaves _ _ _ _ _ _ _ Hb Ec) as H3.
  by destruct oc; intros [= <- <-].
Qed.

(** An opening that finds no segment. *)
Lemma Open_memory_empty segSize cp legacy s :
  segs s = ∅ -> read_ckpt (ckpt s) = Some (cp, legacy) -> 0 <= SegStart cp -> is_u64 (NextSeq cp) ->
  wp (Open segSize) (fun o s' => o = Ok tt -> SegStart (w_cp (wal s')) = SegStart cp /\
    AckedBytes (w_cp (wal s')) = 0 /\ is_u64 (NextSeq (w_cp (wal s')))) s.
Proof.
  intros Hs Hck H0 Hn. apply (Open_begun _ _ _ cp legacy); [done|done|]. intros s1 E1 E2 E3. unfold open_rest, scanSegments.
  wp_step. wp_step. apply wp_sys; intros l; cbn [bind_post]; [|done].
  wp_step. apply wp_gets. cbn [bind_post]. wp_step. apply wp_gets. cbn [bind_post]. cbn [segs wal set_faults].
  rewrite E1, Hs, E3. change (idxList ∅) with (@nil Z). cbn [remove_stale firstAlive]. wp_step. apply wp_ret. cbn [bind_post].
  apply wp_modify. cbn [bind_post]. wp_step. apply wp_modify. cbn [bind_post]. set (s3 := set_wal _ _).
  assert (H3 : SegStart (w_cp (wal s3)) = SegStart cp /\ AckedBytes (w_cp (wal s3)) = 0 /\ is_u64 (NextSeq (w_cp (wal s3)))).
  { unfold s3. cbn. rewrite E3. destruct (_ <? _); cbn; (split; [lia|split; [done|first [exact Hn | apply u64_range]]]). }
  clearbody s3. wp_step. apply wp_gets. cbn [bind_post].
  eapply wp_conseq; [apply wp_pinned; unfold lastSegmentIdx; pinned|]. cbn. intros o s' -> _. exact H3.
Qed.

(** An opening that succeeds, whatever has failed before: the frames that were not
    acknowledged are not acknowledged. *)
Lemma Open_resumes d fs s l segSize s1 : survives d fs s -> reopenable s = true ->
  Open segSize (set_faults l s) = (Ok tt, s1) ->
  exists lo fss k, resumes lo fss k s1 /\ map frame_pair (drop k (concat fss)) = fs /\
    map frame_pair (take k (concat fss)) `suffix_of` d.
Proof.
  intros (lo & fss & k & torn & Hd & (cp & legacy & j & Hck & Ha & Hj) & Hfs & Hdone) Hre E.
  assert (Hd' : disk lo fss torn (set_faults l s)) by by eapply disk_same; [|exact Hd].
  destruct fss as [|f0 rest].
  - assert (Es : segs s = ∅).
    { apply map_empty. intros i. apply eq_None_not_Some. rewrite (dk_dom _ _ _ _ Hd), len_nil. lia. }
    pose proof Ha as [[H0 H0'] Hn Hlen Hb _]. cbn [first List.hd length] in Hlen. assert (j = 0%nat) as -> by lia.
    pose proof (Open_cut_empty segSize cp legacy (set_faults l s) Es Hck H0) as H.
    pose proof (Open_memory_empty segSize cp legacy (set_faults l s) Es Hck H0 Hn) as Hm. unfold wp in H, Hm. rewrite E in H, Hm.
    destruct H as [Ec H], (Hm eq_refl) as (M1 & M2 & M3). cbn [fst snd] in *.
    assert (Hmem : forall lo' fss', SegStart cp <= lo' -> mem_acks lo' fss' 0 (wal s1)).
    { intros lo' fss' Hlo. exists 0%nat. split; [|done]. split; rewrite ?M1, ?M2; [lia|done|lia|destruct (SegStart cp =? lo'); reflexivity|constructor]. }
    cbn [concat] in Hfs, Hdone. rewrite drop_nil in Hfs. rewrite take_nil in Hdone.
    destruct H as [E1|E1].
    + exists lo, [], 0%nat. split; [split; [split|]|done].
      * exists torn. eapply disk_same; [|exact Hd]. cbn. congruence.
      * exists cp, legacy, 0%nat. by rewrite Ec.
      * by apply Hmem.
    + unfold reopenable in Hre. rewrite Es, Hck, bool_decide_true in Hre by done. apply Z.eqb_eq in Hre.
      exists (SegStart cp), [[]], 0%nat. split; [split; [split|]|done].
      * exists []. split; [done|apply torn_nil| | |constructor|constructor]; rewrite E1.
        -- rewrite seg_contents_whole. cbn [map]. apply run_at_cons. split; [apply lookup_singleton_eq|]. by intros ? ?.
        -- intros i. rewrite lookup_singleton_is_Some, len_cons, len_nil. lia.
      * exists cp, legacy, 0%nat. rewrite Ec. split; [done|]. split; [|done].
        split; [lia|done|cbn; lia| |constructor]. by rewrite Z.eqb_refl.
      * by apply Hmem.
  - pose proof (Open_cut segSize lo f0 rest torn j cp legacy (set_faults l s) Hd' Hck Ha) as H.
    pose proof (Open_memory segSize lo f0 rest torn j cp legacy (set_faults l s) Hd' Hck Ha) as Hm. unfold wp in H, Hm.
    rewrite E in H, Hm. destruct H as [_ [Hrun Ec]]. specialize (Hm eq_refl). cbn [fst snd] in *.
    exists lo, (f0 :: rest), k. split; [split; [split|]|done]; [done|exists cp, legacy, j; by rewrite Ec|by exists j].
Qed.

Lemma start_survives d fs s l c answers now clock1 clock2 clock3 o s' :
  survives d fs s -> reopenable s = true ->
  run_start c answers now clock1 clock2 clock3 (set_faults l s) = (o, s') -> survives d fs s'.
Proof.
  intros Hsv Hre E. destruct (Open (SegmentSize c) (set_faults l s)) as [oo s1] eqn:Eo.
  pose proof (Open_survives d fs s l (SegmentSize c) oo s1 Hsv Hre Eo) as Hsv1.
  destruct oo as [[]|e|].
  2, 3: unfold run_start, bind in E; rewrite Eo in E; by injection E as <- <-.
  destruct (Open_resumes d fs s l (SegmentSize c) s1 Hsv Hre Eo) as (lo & fss & k & Hr & Hfs & Hdone).
  destruct (opened_leaves _ _ _ _ _ _ _ _ _ _ _ _ _ Eo Hr E) as [[torn Hd] Hc]. by exists lo, fss, k, torn.
Qed.

(** ** Starting, again and again *)

(** A process starts, and stops at once or dies; the answers [l] say at which calls
    something fails, and after a death everything does. *)
Inductive restarting : relation World :=
| restarting_of s l c answers now clock1 clock2 clock3 o s' :
    reopenable s = true ->
    run_start c answers now clock1 clock2 clock3 (set_faults l (restart s)) = (o, s') -> restarting s s'.

Lemma restarts_survive d fs s s' : rtc restarting s s' -> survives d fs s -> survives d fs s'.
Proof.
  induction 1 as [|s s1 s2 Hr _ IH]; [done|]. intros Hs. apply IH.
  destruct Hr as [s l c answers now clock1 clock2 clock3 o s' Hre E].
  by eapply (start_survives d fs (restart s)); [apply survives_restart| |].
Qed.

(** ** The cursor *)

(** Choosing the first cursor does nothing when there is one. *)
Lemma backfillInit_confined (P : Z -> Prop) answers spec initLagMs now clock1 clock2 :
  downward P -> (forall c, P c -> 0 < c) -> confined P (backfillInit answers spec initLagMs now clock1 clock2).
Proof.
  intros Hd Hpos s Hs. unfold backfillInit. destruct (backfill_plan _ _ _) as [[applied policyNs] boundaryNs].
  set (m := if applied then ApplyBackfillPolicy clock1 policyNs boundaryNs ;;; ret tt else ret tt : W unit).
  assert (Hm : confined P m).
  { unfold m. destruct applied; [|by intros s1]. apply (lop_confined P (LPolicy clock1 policyNs boundaryNs)); [done|exact I]. }
  specialize (Hm s Hs). unfold bind at 1. destruct (m s) as [[a|e|] s1]; cbn [snd] in *; [|done|done].
  unfold bind, gets. destruct (Z.eqb_spec (Cursor s1) 0) as [E|E]; [|done].
  destruct Hm as [Hc _]. apply Hpos in Hc. lia.
Qed.

(** A start leaves one of the cursors of the last process on the disk, and a
    process that gets through it has one in memory. *)
Lemma run_start_confined (P : Z -> Prop) c answers now clock1 clock2 clock3 s o w :
  downward P -> (forall c, P c -> 0 < c) -> is_Some (read_ckpt (ckpt s)) -> P (disk_cursor s) ->
  run_start c answers now clock1 clock2 clock3 s = (o, w) -> P (disk_cursor w) /\ (o = Ok tt -> P (Cursor w)).
Proof.
  intros Hd Hpos Hck Hp. unfold run_start, bind at 1.
  destruct (Open (SegmentSize c) s) as [oo s1] eqn:E.
  destruct (Open_cursor _ _ _ _ Hck E) as [Ec Ecur].
  assert (Hk1 : P (disk_cursor s1)) by (unfold disk_cursor; rewrite Ec; exact Hp).
  destruct oo as [[]|e|]; [|by intros [= <- <-]..]. specialize (Ecur eq_refl).
  assert (Hs1 : within P s1) by (split; [by rewrite Ecur|done]).
  pose proof (backfillInit_confined P answers (backfill_spec c) (Milliseconds (EffectiveExportLag c)) now clock1 clock2 Hd Hpos s1 Hs1) as Hw.
  unfold bind, attempt. destruct (backfillInit _ _ _ _ _ _ s1) as [[[]|e|] s2]; cbn [snd] in Hw.
  - intros [= <- <-]. by destruct Hw.
  - pose proof (confined_Close P clock3 s2 Hw) as H3. destruct (Wal.Close clock3 s2) as [[] s3]; intros [= <- <-]; by destruct H3.
  - intros [= <- <-]. by destruct Hw.
Qed.

Lemma run_start_within (P : Z -> Prop) c answers now clock1 clock2 clock3 s w :
  downward P -> (forall c, P c -> 0 < c) -> is_Some (read_ckpt (ckpt s)) -> P (disk_cursor s) ->
  run_start c answers now clock1 clock2 clock3 s = (Ok tt, w) -> within P w.
Proof. intros Hd Hpos Hck Hp E. destruct (run_start_confined P _ _ _ _ _ _ _ _ _ Hd Hpos Hck Hp E). by split; auto. Qed.

Lemma survives_readable d fs s : survives d fs s -> is_Some (read_ckpt (ckpt s)).
Proof. intros (lo & fss & k & torn & _ & (cp & legacy & j & Hck & _) & _). by rewrite Hck. Qed.

Lemma restarts_cursor (P : Z -> Prop) d fs s s' : downward P -> (forall c, P c -> 0 < c) -> rtc restarting s s' ->
  survives d fs s -> P (disk_cursor s) -> P (disk_cursor s').
Proof.
  intros Hd Hpos. induction 1 as [|s s1 s2 Hr _ IH]; [done|]. intros Hs Hp.
  pose proof (restarts_survive d fs _ _ (rtc_once _ _ Hr) Hs) as Hs1.
  destruct Hr as [s l c answers now clock1 clock2 clock3 o s' Hre E].
  destruct (run_start_confined P _ _ _ _ _ _ (set_faults l (restart s)) _ _ Hd Hpos (survives_readable _ _ _ Hs) Hp E) as [Hk _].
  by apply IH.
Qed.

(** C5: a start may be cut short. What a process leaves on its disk is opened by one
    process after another, each of which dies at some system call of its start, be
    it of [Open], of applying the policy, of saving the first cursor or of closing
    the log again, or has some of them fail; each of these starts finds a
    [reopenable] directory, one that has a segment or whose checkpoint
    acknowledges no byte of a missing one (a start cut short on another one
    creates a segment whose first frames then pass for acknowledged, finding
    wal.go:193), and what it wrote stays written. The next start that goes through
    finds the frames that the first one would have found, behind frames that were
    acknowledged and will be sent again, whatever the configurations and the
    answers of the source were. *)
Theorem starts_interrupted d fs s s1 c answers now clock1 clock2 clock3 s2 :
  survives d fs s -> rtc restarting s s1 ->
  run_start c answers now clock1 clock2 clock3 (restart s1) = (Ok tt, s2) ->
  exists d2 back q2, d = d2 ++ back /\ q_frames q2 = back ++ fs /\ stands d2 q2 s2 /\ log_ok s2 q2.
Proof.
  intros Hs Hr E. pose proof (restarts_survive _ _ _ _ Hr Hs) as Hs1.
  destruct (run_start_recovers c answers now clock1 clock2 clock3 d fs (restart s1) s2 (survives_restart _ _ _ Hs1)
    eq_refl eq_refl E) as (d2 & back & q2 & Hd & Hq & Hst & Hf).
  exists d2, back, q2. split; [done|]. split; [done|]. split; [done|]. by eapply stands_log_ok.
Qed.

(** ** Witness *)

(** The batch of [cut_run] leaves a torn record. The first process to start dies as
    it truncates that record; the second one opens the log and dies as it saves the
    checkpoint with the policy. *)
Definition start_calls (n : nat) : list io := replicate n IoOk ++ replicate 8 (IoFail 0).
Definition started_once : World := snd (run_start plain_file [Ok 200] 900 1 2 3 (set_faults (start_calls 6) (restart (snd cut_run)))).
Definition started_twice : World := snd (run_start plain_file [Ok 200] 1000 4 5 6 (set_faults (start_calls 18) (restart started_once))).
Definition started_thrice : World := snd (run_start plain_file [Ok 200] 2000 7 8 9 (restart started_twice)).

Example second_start_dies_saving :
  Cursor started_twice = 200 /\ disk_cursor started_twice = 0 /\ disk_cursor started_thrice = 200 /\
  bool_decide (segs started_twice = segs started_once) = false.
Proof. vm_compute. repeat split. Qed.

Lemma starts_interrupted_witness : exists d1 fs, survives d1 fs (snd cut_run) /\
  exists d2 back q2, d1 = d2 ++ back /\ q_frames q2 = back ++ fs /\ stands d2 q2 started_thrice /\ log_ok started_thrice q2.
Proof.
  destruct (crash_survives (LAppend TypeData [frame1; frame2]) [] two_queue two cut_calls (fst cut_run) (snd cut_run))
    as (d1 & fs & _ & Hs);
    [apply two_stands|apply cut_ok|vm_compute; reflexivity|apply cut_tears|unfold cut_run; by destruct (lop_run _ _)|].
  exists d1, fs. split; [exact Hs|].
  apply (starts_interrupted d1 fs (snd cut_run) started_twice plain_file [Ok 200] 2000 7 8 9); [exact Hs| |].
  - apply rtc_l with started_once; [|apply rtc_once].
    + eapply (restarting_of _ (start_calls 6) plain_file [Ok 200] 900 1 2 3); [vm_compute; reflexivity|]. apply surjective_pairing.
    + eapply (restarting_of _ (start_calls 18) plain_file [Ok 200] 1000 4 5 6); [vm_compute; reflexivity|]. apply surjective_pairing.
  - assert (E : fst (run_start plain_file [Ok 200] 2000 7 8 9 (restart started_twice)) = Ok tt) by (vm_compute; reflexivity).
    unfold started_thrice. destruct (run_start _ _ _ _ _ _ _). cbn in *. by subst.
Defined.
