(* ===== verification/Lifetimes.v ===== *)
(** * Lives of the two processes

    The sender may die at any call of any operation on its log and be started
    again on the directory it leaves; the receiver may die between any two of its
    critical sections and be started again on its stores.  A process that starts
    may die at that, any number of times.  Over any number of such lives
    no frame is lost. *)
From S2P Require Import Prelude Protocol WalDisk WalScan Wal WalQueue WalCalm WalOpen WalDurable WalCrash WalReopen WalClose.
From S2P Require Import SeqTracker VmClient Receiver TcpClient TcpServer Handlers Sender SenderSpec System Config Backfill Restarts.
Local Open Scope Z_scope.

(** ** One life of the sender *)

(** A process that has just opened its log: it has no connection, the poller
    appends valid frames, and numbers are not exhausted. *)
Record born (s : SWorld) : Prop := {
  bn_net : exists cfg dials writes acks,
    sw_net s = mkNet (NewClient cfg) dials writes acks 0 (fun _ => []) (fun _ => []);
  bn_rivals : Forall (Forall rival_ok) (sw_rivals s);
  bn_room : NextSeq_ (sw_wal s) + rivals_size (sw_rivals s) < 2 ^ 64 }.

(** The operation of the poller that [x] is, if it is one. *)
Definition as_rival (x : lop) : list rival :=
  match x with
  | LAppend typ fbs => [RivalAppend typ fbs]
  | LCursor now ts => [RivalCursor now ts]
  | _ => []
  end.

(** The operation in which the process dies: the next one of the poller, the commit
    of a head that has been acknowledged, or another that is allowed. *)
Definition last_call (x : lop) (s : SWorld) : Prop :=
  allowed x (sw_wal s) /\ as_rival x `prefix_of` concat (sw_rivals s) /\
  match x with
  | LCommit _ _ => forall seq b, fst (Peek (sw_wal s)) = Ok (seq, b) -> delivered (sw_net s) b
  | _ => True
  end.

(** [poller c todo]: what the poller of a process that finds the cursor at [c] may
    do to the log. *)
Definition poller_model : Type := Z -> list rival -> Prop.

(** The last call of a process on its log, when its poller was going to do
    [todo]. *)
Inductive last_act (todo : list rival) : W unit -> Prop :=
| act_op x rest : todo = as_rival x ++ rest -> last_act todo (lop_run x)
| act_close now : last_act todo (Wal.Close now).

(** A promise of the log that outlives the process: [resting] holds between two
    lives, and whatever the poller of the next one does, the promise is kept until
    the process dies or closes the log and another has been started. *)
Class CrashPromise (poller : poller_model) := {
  cp_promise : LogPromise;
  resting : World -> ledger -> Prop;
  resting_starts w g todo : resting w g -> poller (Cursor w) todo -> promised w g todo;
  resting_stands w g : resting w g -> stands (lg_done g) g w /\ faults w = [];
  promised_stands w g todo : promised w g todo -> stands (lg_done g) g w /\ faults w = [];
  promised_rests w (g : ledger) todo m l o s1 s2 c answers now clock1 clock2 clock3 w2 d fs (g2 : ledger) :
    promised w g todo -> last_act todo m -> m (set_faults l w) = (o, s1) -> survives d fs s1 ->
    rtc restarting s1 s2 -> run_start c answers now clock1 clock2 clock3 (restart s2) = (Ok tt, w2) ->
    stands (lg_done g2) g2 w2 -> faults w2 = [] ->
    lg_done g ++ q_frames g `prefix_of` lg_done g2 ++ q_frames g2 -> resting w2 g2 }.

(** The frames are such a promise, whatever the poller does. *)
#[export] Instance durable_frames poller : CrashPromise poller.
Proof.
  refine {| cp_promise := durable_log; resting w g := stands (lg_done g) (lg_queue g) w /\ faults w = [] |}; try done.
Defined.

Section lifetimes.
Context {C : Codec} (max : Z) (poller : poller_model).

(** The sender runs while the receiver goes from [p] to [p']. Then it dies inside
    [x]; or it returns, the context being cancelled, the poller finishes what it
    was doing, and the log is closed, with success unless the process dies at
    that. Then it is started again on its directory: perhaps several times, until
    a process gets through its start. *)
Inductive life : relation (World * pool) :=
| life_of cfg fuel n s o s' x l o1 s1 s2 c answers now clock1 clock2 clock3 w2 p p' :
    born s -> poller (Cursor (sw_wal s)) (concat (sw_rivals s)) -> Run cfg fuel n s = (o, s') ->
    rtc receiver_step p p' -> served max p' (sw_net s') ->
    last_call x s' -> hazard (sw_wal s') = false -> Forall tear_ok l ->
    lop_run x (set_faults l (sw_wal s')) = (o1, s1) -> rtc restarting s1 s2 ->
    run_start c answers now clock1 clock2 clock3 (restart s2) = (Ok tt, w2) ->
    life (sw_wal s, p) (w2, p')
| life_stop cfg fuel n s s' ops rest w1 stopped l o1 s1 s2 c answers now clock1 clock2 clock3 w2 p p' :
    born s -> poller (Cursor (sw_wal s)) (concat (sw_rivals s)) -> Run cfg fuel n s = (Ok None, s') ->
    rtc receiver_step p p' -> served max p' (sw_net s') ->
    concat (sw_rivals s') = ops ++ rest -> foldl rival_run (sw_wal s') ops = w1 ->
    Wal.Close stopped (set_faults l w1) = (o1, s1) -> o1 = Ok tt \/ hazard w1 = false -> rtc restarting s1 s2 ->
    run_start c answers now clock1 clock2 clock3 (restart s2) = (Ok tt, w2) ->
    life (sw_wal s, p) (w2, p').

Lemma stands_valid d q w : stands d q w -> valid_queue q.
Proof.
  intros (lo & fss & k & [Hd Hl _ _ _]). unfold valid_queue. rewrite (lv_queue _ _ _ _ _ Hl).
  rewrite Forall_map. apply Forall_drop. eapply Forall_impl; [apply Hd|]. intros fb Hfb. apply Hfb.
Qed.

Lemma born_net s : born s -> net_inv [] (sw_net s).
Proof.
  intros [(cfg & dials & writes & acks & ->) _ _]. constructor; [by constructor| |constructor|done].
  intros c. apply (whole_frames_concat [] frame1); [constructor|apply frame1_wf].
Qed.

Section promise.
Context {CP : CrashPromise poller}.
#[local] Existing Instance cp_promise.

(** The log rests, and the receiver has kept what it acknowledges. *)
Record safe_pair (g : ledger) (w : World) (p : pool) : Prop := {
  sp_log : resting w g;
  sp_pool : pool_inv p;
  sp_done : Forall (fun a : Z * bytes => kept a.2 (pl_world p)) (lg_done g) }.

Lemma born_sinv g s : born s -> poller (Cursor (sw_wal s)) (concat (sw_rivals s)) -> resting (sw_wal s) g -> sinv g [] s.
Proof.
  intros Hb Hpoll Hp. pose proof (resting_stands _ _ Hp) as [Hs Hf]. constructor;
    [by apply resting_starts|by eapply stands_valid|by apply born_net|apply Hb|].
  pose proof (stands_log_ok _ _ _ Hs Hf) as [_ [_ Hn] _]. pose proof (bn_room s Hb) as Hr.
  unfold NextSeq_ in Hr. by rewrite Hn in Hr.
Qed.

(** What the interrupted operation has acknowledged has been kept. *)
Lemma interrupted_kept (g : ledger) x d1 fs s p : interrupted (lg_done g) g x d1 fs ->
  log_ok (sw_wal s) g -> last_call x s -> (forall b, delivered (sw_net s) b -> kept b (pl_world p)) ->
  Forall (fun a : Z * bytes => kept a.2 (pl_world p)) (lg_done g) ->
  Forall (fun a : Z * bytes => kept a.2 (pl_world p)) d1.
Proof.
  intros Hi Hp (_ & _ & Hx) Hk Hd. destruct Hi as [| | |now seq h rest Hq]; try done.
  apply Forall_app. split; [done|]. constructor; [|done]. apply Hk.
  destruct (Peek_ok _ _ Hp) as [[E _]|(n & b & rest' & E & Hpeek)]; cbn in E; [congruence|].
  assert (h = (n, b)) as -> by congruence. apply (Hx n b). by rewrite Hpeek.
Qed.

(** From the last call of a process to the start of the next one that stays. *)
Lemma ends_safely w1 (g1 : ledger) todo m l o s1 s2 c answers now clock1 clock2 clock3 w2 p' d1 fs :
  promised w1 g1 todo -> last_act todo m -> m (set_faults l w1) = (o, s1) -> survives d1 fs s1 ->
  lg_done g1 ++ q_frames g1 `prefix_of` d1 ++ fs -> Forall (fun a : Z * bytes => kept a.2 (pl_world p')) d1 ->
  pool_inv p' -> rtc restarting s1 s2 -> run_start c answers now clock1 clock2 clock3 (restart s2) = (Ok tt, w2) ->
  exists g2, safe_pair g2 w2 p' /\ lg_done g1 ++ q_frames g1 `prefix_of` lg_done g2 ++ q_frames g2.
Proof.
  intros Hg1 Hact Hcall Hsv Hpre Hkept Hi Hre Hopen. pose proof (restarts_survive d1 fs s1 s2 Hre Hsv) as Hsv2.
  destruct (run_start_recovers _ _ _ _ _ _ d1 fs (restart s2) w2 (survives_restart _ _ _ Hsv2) eq_refl eq_refl Hopen)
    as (d2 & back & q2 & Hdd & Hq & Hst2 & Hf3).
  assert (Hall1 : lg_done g1 ++ q_frames g1 `prefix_of` d2 ++ q_frames q2) by (by rewrite Hq, app_assoc, <- Hdd).
  exists (mkLedger d2 q2). split; [split; [|done|]|done].
  - by apply (promised_rests _ _ _ _ _ _ _ _ _ _ _ _ _ _ _ d1 fs _ Hg1 Hact Hcall Hsv Hre Hopen).
  - rewrite Hdd in Hkept. by apply Forall_app in Hkept as [Hkept _].
Qed.

(** What happened while the sender ran. *)
Lemma life_ran cfg fuel n s o s' p p' (g : ledger) : 0 <= max -> born s -> poller (Cursor (sw_wal s)) (concat (sw_rivals s)) ->
  Run cfg fuel n s = (o, s') -> rtc receiver_step p p' -> served max p' (sw_net s') -> safe_pair g (sw_wal s) p ->
  pool_inv p' /\ (forall b, delivered (sw_net s') b -> kept b (pl_world p')) /\ exists g1,
    (exists out, sinv g1 out s') /\ lg_done g ++ q_frames g `prefix_of` lg_done g1 ++ q_frames g1 /\
    Forall (fun a : Z * bytes => kept a.2 (pl_world p')) (lg_done g1).
Proof.
  intros Hm Hb Hpoll Hrun Hr Hs [Hg Hi Hd]. destruct (receiver_run_inv _ _ Hr Hi) as (Hi' & Hst & _).
  destruct (Run_keeps cfg fuel n g s o s' max p' (born_sinv g s Hb Hpoll Hg) Hrun Hi' Hm Hs)
    as (_ & Hkept & g1 & gone & added & Hinv & E & Ed & _ & Hgone).
  split; [done|]. split; [done|]. exists g1. split; [done|]. split.
  - rewrite Ed, <- app_assoc, <- E, app_assoc. by eexists.
  - rewrite Ed. apply Forall_app. split; [|done]. eapply Forall_impl; [exact Hd|]. intros a. by apply kept_mono.
Qed.

Lemma life_safe w p w' p' g : 0 <= max -> life (w, p) (w', p') -> safe_pair g w p ->
  exists g', safe_pair g' w' p' /\ lg_done g ++ q_frames g `prefix_of` lg_done g' ++ q_frames g'.
Proof.
  intros Hm Hl Hg. remember (w, p) as a. remember (w', p') as b.
  destruct Hl as [cfg fuel n s o s' x l o1 s1 s2 c answers now clock1 clock2 clock3 w2 p0 p1
      Hb Hpoll Hrun Hr Hs Hx Hz Ht Hcall Hre Hopen
    |cfg fuel n s s' ops rest w1 stopped l o1 s1 s2 c answers now clock1 clock2 clock3 w2 p0 p1
      Hb Hpoll Hrun Hr Hs Hops Hw1 Hcall Hz Hre Hopen]; simplify_eq.
  - destruct (life_ran cfg fuel n s o s' p p' g Hm Hb Hpoll Hrun Hr Hs Hg) as (Hi' & Hkept & g1 & [out Hinv] & Hpre & Hd1).
    pose proof (si_log _ _ _ Hinv) as Hg1. destruct (promised_stands _ _ _ Hg1) as [Hst1 Hf1].
    pose proof Hx as (Hal & [rest Hrest] & _).
    destruct (crash_survives x _ _ _ l o1 s1 Hst1 (allowed_ok _ _ _ _ Hst1 Hal) Hz Ht Hcall) as (d1 & fs & Hint & Hsv).
    destruct (ends_safely (sw_wal s') g1 (concat (sw_rivals s')) (lop_run x) l o1 s1 s2 c answers now clock1 clock2 clock3
      w' p' d1 fs) as (g2 & Hg2 & Hp2); try done; [by apply act_op with rest|by eapply interrupted_all| |].
    + by apply (interrupted_kept g1 x d1 fs s' p' Hint (stands_log_ok _ _ _ Hst1 Hf1)).
    + exists g2. split; [done|]. by etrans.
  - destruct (life_ran cfg fuel n s (Ok None) s' p p' g Hm Hb Hpoll Hrun Hr Hs Hg) as (Hi' & _ & g1 & [out Hinv] & Hpre & Hd1).
    destruct Hinv as [Hg1 Hv _ Hrok Hroom]. rewrite <- group_size_concat, Hops, group_size_app in Hroom.
    pose proof (group_size_nonneg rest). rewrite Hops in Hg1. apply Forall_concat in Hrok. rewrite Hops in Hrok.
    apply Forall_app in Hrok as [Hrok _].
    destruct (rivals_run_ok rest ops (sw_wal s') g1 Hg1 Hv Hrok ltac:(lia)) as (g3 & Hg3 & _ & (_ & Hdone & added & Hadd & _) & _).
    destruct (promised_stands _ _ _ Hg3) as [Hst3 _].
    destruct (ends_safely (foldl rival_run (sw_wal s') ops) g3 rest (Wal.Close stopped) l o1 s1 s2 c answers now clock1 clock2
      clock3 w' p' (lg_done g3) (q_frames g3)) as (g2 & Hg2 & Hp2); try done; [apply act_close| | |].
    + apply (Close_survives stopped _ _ _ o1 s1 (stands_faults _ _ l _ Hst3) Hcall). exact Hz.
    + by rewrite Hdone.
    + exists g2. split; [done|]. etrans; [exact Hpre|]. etrans; [|exact Hp2]. rewrite Hdone, Hadd, app_assoc. by eexists.
Qed.

Lemma lives_safe w p w' p' g : 0 <= max -> rtc life (w, p) (w', p') -> safe_pair g w p ->
  exists g', safe_pair g' w' p' /\ lg_done g ++ q_frames g `prefix_of` lg_done g' ++ q_frames g'.
Proof.
  intros Hm Hr H0.
  change (exists g', safe_pair g' (w', p').1 (w', p').2 /\ lg_done g ++ q_frames g `prefix_of` lg_done g' ++ q_frames g').
  apply (rtc_invariant life (fun a => exists g', safe_pair g' a.1 a.2 /\
    lg_done g ++ q_frames g `prefix_of` lg_done g' ++ q_frames g') (w, p)); [|by exists g|exact Hr].
  intros [w1 p1] [w2 p2] (g1 & Hs1 & Hp1) Hl. destruct (life_safe w1 p1 w2 p2 g1 Hm Hl Hs1) as (g2 & Hs2 & Hp2).
  exists g2. split; [done|]. by etrans.
Qed.

End promise.

(** C2: no frame is lost over any number of lives of the two processes. The
    sender runs over any network; it dies inside an operation on its log, or
    stops in order and closes it; it is started again on what that leaves on the
    disk, perhaps after dying at its start a number of times; the receiver handles frames
    concurrently and is restarted at any moment. Then the frames that were pending
    at the start, and whatever has been appended since, are a history of frames
    each of which has been imported, isolated as a dead letter, or repeats one
    that has, followed by the frames the log still holds.

    What a life may do ([life]): the calls of the log succeed until the process
    stops or dies. It is the process that dies, not the machine: what has been
    written stays written. It may die at any system call of the operation, or of
    [Close], but not while [hazard] holds (from a start that found the last
    segment removed to the first checkpoint saved after it: a frame can be lost
    there, finding wal.go:193, [reused_segment_loses_frame]), and a write that its
    death cuts leaves fewer bytes than a frame's header ([tear_ok]: finding
    wal.go:287). The starts that follow may die or fail as well, each on a
    directory that has a segment or whose checkpoint acknowledges no byte of a
    missing one ([reopenable]). *)
Theorem no_frame_lost d q w r w' p' :
  0 <= max -> stands d q w -> faults w = [] -> window_inv r ->
  Forall (fun a : Z * bytes => kept a.2 r) d -> rtc life (w, mkPool r [] []) (w', p') ->
  exists d' q', log_ok w' q' /\ d ++ q_frames q `prefix_of` d' ++ q_frames q' /\
    Forall (fun a : Z * bytes => kept a.2 (pl_world p')) d'.
Proof.
  intros Hm Hst Hf Hw Hd Hr.
  destruct (lives_safe w (mkPool r [] []) w' p' (mkLedger d q) Hm Hr) as ([d' q'] & [[Hst' Hf'] _ Hk] & Hp).
  { split; [by split|by constructor|done]. }
  exists d', q'. split; [by apply (stands_log_ok d' q')|done].
Qed.

End lifetimes.

(** ** Witness *)

#[local] Existing Instance id_codec.

Definition late_calls : list io := replicate 5 IoOk ++ [IoFail 7].

(** The sender sends its two frames, which the receiver handles and imports; the
    poller then appends two frames more, and the process dies inside the header
    of the second.  The next process dies as it truncates the torn record. *)
Definition two_fed : SWorld :=
  mkSW two (sw_net two_queued) (replicate 6 [] ++ [[RivalAppend TypeData [frame1; frame2]]]) [] [] [].
Definition fed : SWorld := snd (Run lone 1 2 two_fed).
Definition died : World := snd (lop_run (LAppend TypeData [frame1; frame2]) (set_faults late_calls (sw_wal fed))).
Definition opening_calls : list io := replicate 6 IoOk ++ [IoFail 0].
Definition died_opening : World := snd (run_start plain_file [Ok 200] 900 3 4 5 (set_faults opening_calls (restart died))).
Definition reopened : World := snd (run_start plain_file [Ok 200] 1000 6 7 8 (restart died_opening)).

(** What the poller does next does not reach the network. *)
Lemma fed_wire : sw_net fed = sw_net sent_both /\ concat (sw_rivals fed) = [RivalAppend TypeData [frame1; frame2]].
Proof. split; vm_compute; reflexivity. Qed.

#[local] Strategy expand [sw_wal two_fed].
Lemma two_wal : two = sw_wal two_fed.
Proof. reflexivity. Qed.

Lemma one_life : life 1 (fun _ _ => True) (two, mkPool (started [ok_reply; ok_reply]) [] []) (reopened, handled_both).
Proof.
  destruct fed_wire as [En Er]. rewrite two_wal.
  apply (life_of 1 (fun _ _ => True) lone 1 2 two_fed (fst (Run lone 1 2 two_fed)) fed (LAppend TypeData [frame1; frame2])
    late_calls (fst (lop_run (LAppend TypeData [frame1; frame2]) (set_faults late_calls (sw_wal fed)))) died died_opening
    plain_file [Ok 200] 1000 6 7 8 reopened
    (mkPool (started [ok_reply; ok_reply]) [] []) handled_both).
  - split; [by do 4 eexists|repeat constructor; apply frame1_wf || apply frame2_wf|by vm_compute].
  - exact I.
  - unfold fed. by destruct (Run lone 1 2 two_fed).
  - apply receiver_picks.
  - rewrite En. exact both_served.
  - split; [|split; [|done]].
    + split; [repeat constructor; apply frame1_wf || apply frame2_wf|by vm_compute].
    + by rewrite Er.
  - vm_compute. reflexivity.
  - by repeat constructor.
  - unfold died. by destruct (lop_run _ _).
  - apply rtc_once. eapply (restarting_of _ opening_calls plain_file [Ok 200] 900 3 4 5); [vm_compute; reflexivity|]. apply surjective_pairing.
  - unfold reopened. set (r := run_start _ _ _ _ _ _ _). assert (E : fst r = Ok tt) by (vm_compute; reflexivity).
    destruct r. cbn in E. by subst.
Qed.

(** The next process is stopped before it has sent anything, and closes the log. *)
Definition stopping : SWorld :=
  mkSW reopened (mkNet (NewClient (mkCC [] 0 0)) [] [] [] 0 (fun _ => []) (fun _ => [])) [] [] [true] [].
Definition stopped_log : World := snd (Wal.Close 9 reopened).
Definition restarted : World := snd (run_start plain_file [Ok 200] 2000 10 11 12 (restart stopped_log)).

Lemma quiet_served p : served 1 p (sw_net stopping).
Proof. intros c. exists [], (conn_start []). split; [apply prefix_nil|]. split; [apply rtc_refl|apply prefix_nil]. Qed.

#[local] Strategy expand [sw_wal stopping].
Lemma one_stop : life 1 (fun _ _ => True) (reopened, handled_both) (restarted, handled_both).
Proof.
  assert (Er : reopened = sw_wal stopping) by reflexivity. rewrite Er at 1.
  assert (Ef : faults reopened = []) by (vm_compute; reflexivity).
  apply (life_stop 1 (fun _ _ => True) lone 1 1 stopping (snd (Run lone 1 1 stopping)) [] [] reopened 9
    [] (Ok tt) stopped_log stopped_log plain_file [Ok 200] 2000 10 11 12 restarted).
  - split; [by do 4 eexists|constructor|by vm_compute].
  - exact I.
  - reflexivity.
  - apply rtc_refl.
  - apply quiet_served.
  - reflexivity.
  - reflexivity.
  - rewrite <- Ef, set_faults_id. unfold stopped_log.
    assert (E : fst (Wal.Close 9 reopened) = Ok tt) by (vm_compute; reflexivity). destruct (Wal.Close 9 reopened). cbn in *. by subst.
  - by left.
  - apply rtc_refl.
  - unfold restarted. set (r := run_start _ _ _ _ _ _ _). assert (E : fst r = Ok tt) by (vm_compute; reflexivity).
    destruct r. cbn in E. by subst.
Qed.

Lemma no_frame_lost_witness : exists d' q',
  log_ok restarted q' /\ q_frames two_queue `prefix_of` d' ++ q_frames q' /\
  Forall (fun a : Z * bytes => kept a.2 (pl_world handled_both)) d'.
Proof.
  apply (no_frame_lost 1 (fun _ _ => True) [] two_queue two (started [ok_reply; ok_reply])).
  - lia.
  - apply two_stands.
  - reflexivity.
  - apply started_inv.
  - constructor.
  - eapply rtc_l; [apply one_life|apply rtc_once, one_stop].
Defined.

(** The reopened log holds the frame of the interrupted batch that was whole. *)
Example reopened_holds : fst (PeekBatch 0 reopened) = Ok [mkFD 3 (put_seq frame1 3)].
Proof. vm_compute. reflexivity. Qed.
