(* ===== verification/Sync.v ===== *)
(** * From the source to the target

    The pieces together: the poller exports window after window and appends the
    frames before the cursor moves; the log keeps both; the sender delivers the
    frames; the receiver keeps what it acknowledges; and each process may die and
    be started again. So every interval that the cursor has passed has been
    exported, and every line of the export is in a frame that the receiver has
    kept or that is still in the log. *)
From S2P Require Import Prelude GoBytes Protocol WalDisk WalScan Wal WalQueue WalCalm WalOpen WalDurable WalCrash WalReopen WalCursor WalClose.
From S2P Require Import SeqTracker VmClient Receiver Poller PollTrace TcpClient TcpServer Handlers Sender SenderSpec System Config Backfill Restarts Lifetimes.
Local Open Scope Z_scope.
Local Open Scope go_scope.

Section sync.
Context {C : Codec} (answers : Z -> Z -> http_result -> Prop) (c0 : Z).

(** ** What has been exported *)

Definition hist (g : ledger) : list (Z * bytes) := lg_done g ++ q_frames g.

(** The line [l] is in a frame of the history. *)
Definition stored (H : list (Z * bytes)) (l : bytes) : Prop :=
  exists typ payload n fb, (n, fb) ∈ H /\ Encode typ n payload = Ok fb /\ l ∈ SplitByte NL payload.

(** The cursor is set, and every moment it has passed since [c0] lies in a window
    whose export is in the history. *)
Definition covered (H : list (Z * bytes)) (c : Z) : Prop :=
  0 < c /\ forall t, c0 <= t < c -> exists start fin, start <= t < fin /\ window_held answers (stored H) start fin.

Lemma window_held_mono (P Q : bytes -> Prop) start fin : (forall l, P l -> Q l) ->
  window_held answers P start fin -> window_held answers Q start fin.
Proof.
  intros H (reply & raw & Ha & He & Hp). exists reply, raw. split; [done|]. split; [done|].
  by eapply Forall_impl; [exact Hp|].
Qed.

Lemma covered_mono H H' c : H `prefix_of` H' -> covered H c -> covered H' c.
Proof.
  intros [more ->] [Hpos Hc]. split; [done|]. intros t Ht. destruct (Hc t Ht) as (start & fin & Hin & Hw).
  exists start, fin. split; [done|]. eapply window_held_mono; [|exact Hw].
  intros l (typ & payload & n & fb & Hfb & He). exists typ, payload, n, fb. split; [|done]. apply elem_of_app. by left.
Qed.

Lemma covered_down H : downward (covered H).
Proof. intros b c Hb Hbc [_ Hc]. split; [done|]. intros t Ht. apply Hc. lia. Qed.

Lemma covered_pos H c : covered H c -> 0 < c.
Proof. by intros []. Qed.

(** Every frame of [seen] is in the history, with the number it was given. *)
Definition numbered (H : list (Z * bytes)) (fb : bytes) : Prop := exists n, (n, put_seq fb n) ∈ H.

Lemma numbered_mono H H' fb : H `prefix_of` H' -> numbered H fb -> numbered H' fb.
Proof. intros [more ->] [n Hn]. exists n. apply elem_of_app. by left. Qed.

Lemma number_numbered fbs fb n : fb ∈ fbs -> numbered (number n fbs) fb.
Proof.
  intros Hin. revert n. induction Hin as [fb fbs|fb x fbs _ IH]; intros n; cbn [number].
  - exists n. apply list_elem_of_here.
  - destruct (IH (n + 1)) as [k Hk]. exists k. by right.
Qed.

Lemma framed_stored H seen l : Forall (numbered H) seen -> framed seen l -> stored H l.
Proof.
  intros Hs (typ & payload & fb & Hfb & He & Hl). rewrite Forall_forall in Hs. destruct (Hs fb Hfb) as [n Hn].
  exists typ, payload, n, (put_seq fb n). split; [done|]. split; [|done]. by apply (Encode_renumber typ 0).
Qed.

(** A window of the plan extends what is covered. *)
Lemma covered_window H seen c fin : Forall (numbered H) seen -> covered H c -> c < fin ->
  window_held answers (framed seen) c fin -> covered H fin.
Proof.
  intros Hs [Hpos Hc] Hlt Hw. split; [lia|]. intros t Ht. destruct (Z_lt_ge_dec t c) as [Hl|Hg]; [apply Hc; lia|].
  exists c, fin. split; [lia|]. eapply window_held_mono; [|exact Hw]. intros l. by apply framed_stored.
Qed.

(** ** The promise of the log *)

Definition followed (w : World) (g : ledger) (todo : list rival) : Prop :=
  exists seen, Forall (numbered (hist g)) seen /\ plan answers seen (Cursor w) todo.

Definition covers_all (w : World) (g : ledger) : Prop :=
  (stands (lg_done g) g w /\ faults w = []) /\ within (covered (hist g)) w.

Lemma within_mono (P Q : Z -> Prop) w : (forall c, P c -> Q c) -> within P w -> within Q w.
Proof. intros H [H1 H2]. split; by apply H. Qed.

Lemma synced_rival a todo w g : covers_all w g -> followed w g (a :: todo) -> rival_ok a ->
  q_next g + rival_size a < 2 ^ 64 ->
  covers_all (rival_run w a) (lg_rival a g) /\ followed (rival_run w a) (lg_rival a g) todo.
Proof.
  intros [[Hst Hf] Hw] (seen & Hs & Hp) Ha Hb. pose proof (stands_rival a w g Hst Hf Ha Hb) as Hst'.
  destruct a as [typ fbs|now ts]; cbn [rival_run lg_rival] in *.
  - assert (Hmore : hist g `prefix_of` hist (lg_append fbs g)) by (unfold hist; cbn; rewrite app_assoc; by eexists).
    destruct (frozen_AppendBatch typ fbs w) as [Ec Ek]. split; [split; [done|]|].
    + apply (within_mono (covered (hist g))); [intros c; by apply covered_mono|]. by apply (within_frozen _ w).
    + inversion Hp; subst. exists (seen ++ fbs). rewrite Ec. split; [|done]. apply Forall_app. split.
      * eapply Forall_impl; [exact Hs|]. intros fb. by apply numbered_mono.
      * apply Forall_forall. intros fb Hfb. destruct (number_numbered fbs fb (q_next g) Hfb) as [n Hn]. exists n.
        unfold hist. cbn. rewrite !elem_of_app. by right; right.
  - inversion Hp as [| |? ? ? ? ? Hlt Hwin Hrest]; subst.
    pose proof (covered_window _ seen _ ts Hs (proj1 Hw) Hlt Hwin) as Hts.
    destruct (SetCursor_ok now ts w g (stands_log_ok _ _ _ Hst Hf)) as (o & w' & E & _ & _ & Hc).
    pose proof (confined_SetCursor (covered (hist g)) now ts Hts w Hw) as Hw'. rewrite E in *. cbn [snd] in *.
    destruct (Z.ltb_spec ts (Cursor w)); [lia|]. split; [by split|]. exists seen. by rewrite Hc.
Qed.

Lemma synced_commit now h rest todo w g : covers_all w g -> followed w g todo -> q_frames g = h :: rest ->
  covers_all (snd (Commit now h.1 w)) (lg_commit h g) /\ followed (snd (Commit now h.1 w)) (lg_commit h g) todo.
Proof.
  intros [[Hst Hf] Hw] (seen & Hs & Hp) Hq.
  assert (Hh : hist (lg_commit h g) = hist g).
  { unfold hist, lg_commit. cbn. by rewrite Hq, <- app_assoc. }
  destruct (stands_commit now h rest w g Hst Hf Hq) as (w' & E & Hst' & Hf').
  pose proof (confined_Commit (covered (hist g)) now h.1 w Hw) as Hw'. rewrite E in *. cbn [snd] in *.
  destruct h as [seq b]. destruct (Commit_ok now w g seq b rest (stands_log_ok _ _ _ Hst Hf) Hq) as (w2 & E2 & _ & Hc).
  cbn [fst] in *. assert (w2 = w') as -> by congruence.
  split; [split; [done|]|exists seen]; by rewrite Hh, ?Hc.
Qed.

Definition synced_log : LogPromise.
Proof.
  refine {| promised w g todo := covers_all w g /\ followed w g todo |}.
  - intros w g todo [[[Hst Hf] _] _]. by eapply stands_log_ok.
  - intros a todo w g [Hg Hp]. by apply synced_rival.
  - intros now h rest todo w g [Hg Hp]. by apply (synced_commit now h rest).
  - intros b todo w g [[[Hst Hf] Hw] Hp]. split; [|exact Hp]. split; [|exact Hw].
    split; [by apply (stands_notify _ _ b _ Hst)|done].
Defined.

#[export] Instance synced : CrashPromise (polls answers).
Proof.
  refine {| cp_promise := synced_log; resting := covers_all |}.
  - intros w g todo Hg [Hp _]%polls_plan. split; [done|]. exists []. split; [constructor|done].
  - by intros w g [H _].
  - by intros w g todo [[H _] _].
  - intros w g todo m l o s1 s2 c ans now clock1 clock2 clock3 w2 d fs g2 [[[Hst Hf] Hw] (seen & Hs & Hp)]
      Hact Hcall Hsv Hre Hopen Hst2 Hf2 Hh.
    split; [done|]. apply (within_mono (covered (hist g))); [intros c'; by apply covered_mono|].
    assert (Hm : confined (covered (hist g)) m).
    { destruct Hact as [x rest ->|now']; [|apply confined_Close]. apply lop_confined; [apply covered_down|].
      destruct x; try done. cbn in Hp. inversion Hp; subst. by apply (covered_window _ seen (Cursor w)); [|apply Hw|..]. }
    pose proof (Hm (set_faults l w) Hw) as Hw1. rewrite Hcall in Hw1. cbn [snd] in Hw1.
    pose proof (restarts_cursor (covered (hist g)) d fs s1 s2 (covered_down _) (covered_pos _) Hre Hsv (proj2 Hw1)) as Hk2.
    apply (run_start_within (covered (hist g)) c ans now clock1 clock2 clock3 (restart s2) w2 (covered_down _) (covered_pos _));
      [|exact Hk2|done]. by apply (survives_readable d fs s2), (restarts_survive d fs s1 s2).
Defined.

End sync.

(** ** End to end *)

(** C1: no sample is lost between the source and the target, over any number of
    lives of the two processes. In every life the poller runs its loop on
    whatever the source answers, while the sender runs over any network against
    the receiver; the process dies inside an operation on its log, perhaps the
    poller's, or stops in order, and is started again. Let the cursor be set and
    saved at the start. Then every moment that the cursor has passed at the end
    lies in a window for which the source has answered an export request, and
    every line of that answer is in a frame that the receiver has kept (imported,
    isolated as a dead letter, or a repetition of one that has) or that the log
    still holds.

    What a life may do ([life], [Lifetimes]): the calls of the log succeed until
    the process stops or dies. It is the process that dies, not the machine: what
    has been written stays written. It may die at any system call of an
    operation, but not while [hazard] holds (from a start that found the last
    segment removed to the first checkpoint saved after it: a frame can be lost
    there, finding wal.go:193), and a write that its death cuts leaves fewer
    bytes than a frame's header ([tear_ok]: finding wal.go:287). The starts that
    follow may die or fail as well, each on a directory that has a segment or
    whose checkpoint acknowledges no byte of a missing one ([reopenable]). *)
Theorem samples_synced {C : Codec} answers max d q w r w' p' :
  0 <= max -> stands d q w -> faults w = [] -> window_inv r ->
  Forall (fun a : Z * bytes => kept a.2 r) d ->
  0 < Cursor w -> disk_cursor w = Cursor w ->
  rtc (life max (polls answers)) (w, mkPool r [] []) (w', p') ->
  exists d' q', log_ok w' q' /\ Forall (fun a : Z * bytes => kept a.2 (pl_world p')) d' /\
    forall t, Cursor w <= t < Cursor w' ->
      exists start fin reply raw, start <= t < fin /\ answers start fin reply /\ ExportRange reply = Ok raw /\
        forall l, l ∈ lines_of raw -> exists typ payload n fb, (n, fb) ∈ d' ++ q_frames q' /\
          Encode typ n payload = Ok fb /\ l ∈ SplitByte NL payload.
Proof.
  intros Hm Hst Hf Hr Hd Hpos Hdisk Hlives. set (c0 := Cursor w).
  assert (H0 : covered answers c0 (hist (mkLedger d q)) (Cursor w)) by (split; [done|lia]).
  destruct (lives_safe max (polls answers) (CP := synced answers c0) w (mkPool r [] []) w' p' (mkLedger d q) Hm Hlives)
    as (g' & [Hg _ Hk] & _).
  { split; [|by constructor|done]. split; [done|]. split; [done|]. by rewrite Hdisk. }
  destruct Hg as [[Hst' Hf'] [[_ Hc] _]]. exists (lg_done g'), (lg_queue g'). split; [by eapply stands_log_ok|].
  split; [done|]. intros t Ht. destruct (Hc t Ht) as (start & fin & Hin & reply & raw & Ha & He & Hl).
  exists start, fin, reply, raw. split; [done|]. split; [done|]. split; [done|]. by apply Forall_forall.
Qed.

(** ** Witness *)

#[local] Existing Instance id_codec.

(** A source that answers every export with the lines [a] and [b]. The log of two
    frames stands at the cursor 500; the poller appends one window and moves the
    cursor while the sender delivers the two frames, and the process dies as the
    poller appends the next window. *)
Definition two_line_source (start fin : Z) (reply : http_result) : Prop := reply = HReply 200 [97; 10; 98; 10] true.

Definition two_at : World := snd (SetCursor 0 500 two).
Definition next_ops : list rival := poll_trace two_lines no_flush bpNormal three_ticks 500 poller_start.
Definition two_polled : SWorld :=
  mkSW two_at (sw_net two_queued) (replicate 5 [] ++ [take 2 next_ops; drop 2 next_ops]) [] [] [].
Definition polled : SWorld := snd (Run lone 1 2 two_polled).
Definition second_window : lop :=
  match drop 2 next_ops with RivalAppend typ fbs :: _ => LAppend typ fbs | _ => LCursor 0 0 end.
Definition cut_window : list io := [IoOk; IoFail 7].
Definition cut_short : World := snd (lop_run second_window (set_faults cut_window (sw_wal polled))).
Definition resumed : World := snd (run_start plain_file [Ok 0] 1000 6 7 8 (restart cut_short)).

Example next_ops_are : map (fun a => match a with RivalAppend _ fbs => inl (length fbs) | RivalCursor _ ts => inr ts end) next_ops =
  [inl 1%nat; inr 5500; inl 1%nat; inr 15500].
Proof. vm_compute. reflexivity. Qed.

Lemma polled_wire : sw_net polled = sw_net sent_both /\ concat (sw_rivals polled) = drop 2 next_ops.
Proof. split; vm_compute; reflexivity. Qed.

Lemma two_at_stands : stands [] two_queue two_at.
Proof.
  destruct (stands_lop (LCursor 0 500) [] two_queue two two_at) as (d & q & Hp & Hst & _);
    [apply two_stands|reflexivity|exact I|vm_compute; reflexivity|]. by inversion Hp; subst.
Qed.

Lemma next_ops_polled : polls two_line_source 500 next_ops.
Proof. by exists default_config, two_lines, no_flush, three_ticks, 0%nat, 0%nat, fresh. Qed.

Lemma second_window_next : as_rival second_window `prefix_of` drop 2 next_ops /\ allowed second_window (sw_wal polled) /\
  exists typ fbs, second_window = LAppend typ fbs.
Proof.
  assert (Hok : Forall rival_ok (drop 2 next_ops)) by apply Forall_drop, poll_trace_ok.
  assert (Hroom : match second_window with LAppend _ fbs => NextSeq_ (sw_wal polled) + len fbs < 2 ^ 64 | _ => True end) by (vm_compute; reflexivity).
  unfold second_window in *. destruct (drop 2 next_ops) as [|[typ fbs|now ts] rest] eqn:E; [by vm_compute in E| |by vm_compute in E].
  split; [by exists rest|]. split; [|by exists typ, fbs]. split; [by inversion Hok|exact Hroom].
Qed.

#[local] Strategy expand [sw_wal two_polled].
Lemma two_at_wal : two_at = sw_wal two_polled.
Proof. reflexivity. Qed.

Lemma synced_life : life 1 (polls two_line_source) (two_at, mkPool (started [ok_reply; ok_reply]) [] []) (resumed, handled_both).
Proof.
  destruct polled_wire as [En Er], second_window_next as (Hnext & Hal & typ & fbs & Esw). rewrite two_at_wal.
  apply (life_of 1 (polls two_line_source) lone 1 2 two_polled (fst (Run lone 1 2 two_polled)) polled second_window
    cut_window (fst (lop_run second_window (set_faults cut_window (sw_wal polled)))) cut_short cut_short
    plain_file [Ok 0] 1000 6 7 8 resumed (mkPool (started [ok_reply; ok_reply]) [] []) handled_both).
  - split; [by do 4 eexists| |by vm_compute]. cbn [sw_rivals two_polled].
    assert (Hok : Forall rival_ok next_ops) by apply poll_trace_ok.
    apply Forall_app. split; [by repeat constructor|]. apply Forall_cons. split; [by apply Forall_take|]. apply Forall_cons. split; [by apply Forall_drop|constructor].
  - exact next_ops_polled.
  - unfold polled. by destruct (Run lone 1 2 two_polled).
  - apply receiver_picks.
  - rewrite En. exact both_served.
  - split; [exact Hal|]. split; [by rewrite Er|]. by rewrite Esw.
  - vm_compute. reflexivity.
  - by repeat constructor.
  - unfold cut_short. by destruct (lop_run _ _).
  - apply rtc_refl.
  - unfold resumed. set (r := run_start _ _ _ _ _ _ _). assert (E : fst r = Ok tt) by (vm_compute; reflexivity).
    destruct r. cbn in E. by subst.
Qed.

Lemma samples_synced_witness :
  Cursor two_at = 500 /\ Cursor resumed = 5500 /\
  exists d' q', log_ok resumed q' /\ Forall (fun a : Z * bytes => kept a.2 (pl_world handled_both)) d' /\
    forall t, Cursor two_at <= t < Cursor resumed ->
      exists start fin reply raw, start <= t < fin /\ two_line_source start fin reply /\ ExportRange reply = Ok raw /\
        forall l, l ∈ lines_of raw -> exists typ payload n fb, (n, fb) ∈ d' ++ q_frames q' /\
          Encode typ n payload = Ok fb /\ l ∈ SplitByte NL payload.
Proof.
  split; [vm_compute; reflexivity|]. split; [vm_compute; reflexivity|].
  apply (samples_synced two_line_source 1 [] two_queue two_at (started [ok_reply; ok_reply]) resumed handled_both).
  - lia.
  - apply two_at_stands.
  - reflexivity.
  - apply started_inv.
  - constructor.
  - vm_compute. reflexivity.
  - vm_compute. reflexivity.
  - apply rtc_once, synced_life.
Defined.
