(* ===== verification/Monitor.v ===== *)
(** * The metrics ([internal/monitor/metrics.go])

    The parts that compute: the timestamp of the last point written, which
    concurrent handlers raise with a compare-and-swap loop, the two delays, and
    the authentication of the port. The counters are the events the other
    files record; rendering their text is not modelled. *)
From S2P Require Import Prelude.
Local Open Scope Z_scope.

(** ** [SetLastWriteTs] *)

(** Where a call of the loop is: before its load, holding what it loaded, or
    returned. *)
Inductive raise_pc : Type := Loading | Loaded (cur : Z) | Returned.

(** The shared value and the calls, each with its argument. *)
Record raising := mkRaising { lastWriteTs : Z; calls : list (Z * raise_pc) }.

(** One turn of the loop is a load and a compare-and-swap; other calls may run
    between the two. *)
Inductive raise_step : relation raising :=
| raise_load v l1 l2 ts :
    raise_step (mkRaising v (l1 ++ (ts, Loading) :: l2)) (mkRaising v (l1 ++ (ts, Loaded v) :: l2))
| raise_old v l1 l2 ts cur :
    ts <= cur ->
    raise_step (mkRaising v (l1 ++ (ts, Loaded cur) :: l2)) (mkRaising v (l1 ++ (ts, Returned) :: l2))
| raise_swap l1 l2 ts cur :
    cur < ts ->
    raise_step (mkRaising cur (l1 ++ (ts, Loaded cur) :: l2)) (mkRaising ts (l1 ++ (ts, Returned) :: l2))
| raise_lost v l1 l2 ts cur :
    cur < ts -> v <> cur ->
    raise_step (mkRaising v (l1 ++ (ts, Loaded cur) :: l2)) (mkRaising v (l1 ++ (ts, Loading) :: l2)).

(** ** Delays *)

Definition e2eDelay (ts now : Z) : Z :=
  if ts =? 0 then 0 else let d := Z.quot (now - ts) 1000 in if d <? 0 then 0 else d.

Definition syncDelay (cursor now : Z) : Z :=
  let d := Z.quot (now - cursor) 1000 in if d <? 0 then 0 else d.

(** ** The port *)

Record auth := mkAuth { a_Username : bytes; a_Password : bytes }.

Inductive response : Type := Unauthorized | Served.

(** [authMiddleware]: what a request with these basic credentials is answered. *)
Definition authMiddleware (a : option auth) (basic : option (bytes * bytes)) : response :=
  match a with
  | None => Served
  | Some a =>
      if decide (a_Username a = []) then Served
      else
        match basic with
        | Some (u, p) =>
            if decide (u = a_Username a) then if decide (p = a_Password a) then Served else Unauthorized
            else Unauthorized
        | None => Unauthorized
        end
  end.

(** ** Properties *)

Definition pc_ok (v : Z) (c : Z * raise_pc) : Prop :=
  match c.2 with Loading => True | Loaded cur => cur <= v | Returned => c.1 <= v end.

Record raise_inv (v0 : Z) (s : raising) : Prop := {
  ri_from : lastWriteTs s = v0 \/ lastWriteTs s ∈ map fst (calls s);
  ri_up : v0 <= lastWriteTs s;
  ri_calls : Forall (pc_ok (lastWriteTs s)) (calls s) }.

Lemma Forall_middle {A} (P : A -> Prop) l1 x l2 : Forall P (l1 ++ x :: l2) <-> P x /\ Forall P (l1 ++ l2).
Proof. rewrite !Forall_app, Forall_cons. tauto. Qed.

Lemma map_fst_middle (l1 l2 : list (Z * raise_pc)) ts pc pc' :
  map fst (l1 ++ (ts, pc) :: l2) = map fst (l1 ++ (ts, pc') :: l2).
Proof. by rewrite !map_app. Qed.

Lemma pc_ok_up v v' : v <= v' -> forall c, pc_ok v c -> pc_ok v' c.
Proof. intros Hv [ts [|cur|]]; cbn; lia. Qed.

Lemma raise_step_inv v0 s s' : raise_step s s' -> raise_inv v0 s ->
  raise_inv v0 s' /\ map fst (calls s') = map fst (calls s) /\ lastWriteTs s <= lastWriteTs s'.
Proof.
  intros Hs [Hf Hu Hc]. destruct Hs; cbn in *; apply Forall_middle in Hc as [Hx Hc]; unfold pc_ok in Hx; cbn in Hx;
    (split; [|split; [apply map_fst_middle|lia]]); constructor; cbn;
    try (erewrite map_fst_middle; eassumption); try lia; try (apply Forall_middle; split; [unfold pc_ok; cbn; lia|done]).
  - right. rewrite map_app. apply elem_of_app. right. by left.
  - apply Forall_middle. split; [unfold pc_ok; cbn; lia|]. eapply Forall_impl; [exact Hc|]. apply pc_ok_up. lia.
Qed.

(** The timestamp of the last point written only grows and loses no
    update: however the calls of [SetLastWriteTs] interleave, the value is
    always the first one or one that was given, it never goes back, and once
    every call has returned it is the greatest of them all. *)
Theorem SetLastWriteTs_max v0 tss s :
  rtc raise_step (mkRaising v0 (map (fun ts => (ts, Loading)) tss)) s ->
  (lastWriteTs s = v0 \/ lastWriteTs s ∈ tss) /\ v0 <= lastWriteTs s /\
  ((forall c, c ∈ calls s -> c.2 = Returned) -> lastWriteTs s = foldr Z.max v0 tss).
Proof.
  intros Hr.
  assert (H : raise_inv v0 s /\ map fst (calls s) = tss).
  { apply (rtc_invariant raise_step (fun s => raise_inv v0 s /\ map fst (calls s) = tss)) in Hr; [done| |].
    - intros a b [Ha Et] Hs. destruct (raise_step_inv v0 a b Hs Ha) as (Hb & E & _). split; [done|congruence].
    - cbn. rewrite map_map. cbn. rewrite map_id. split; [|done]. constructor; cbn; [by left|lia|].
      apply Forall_forall. intros c Hc. apply list_elem_of_fmap in Hc as (ts & -> & _). done. }
  destruct H as [[Hf Hu Hc] E]. rewrite E in Hf. split; [done|]. split; [done|]. intros Hall.
  assert (Hle : Forall (fun ts => ts <= lastWriteTs s) tss).
  { rewrite <- E. apply Forall_forall. intros ts Hts. apply list_elem_of_fmap in Hts as ([ts' pc] & -> & Hin).
    rewrite Forall_forall in Hc. specialize (Hc _ Hin). specialize (Hall _ Hin). cbn in *. by subst pc. }
  clear E Hc Hall. assert (Hmax : forall l, Forall (fun ts => ts <= lastWriteTs s) l -> foldr Z.max v0 l <= lastWriteTs s).
  { induction 1; cbn; lia. }
  assert (Hin : forall l ts, ts ∈ l -> ts <= foldr Z.max v0 l).
  { induction 1; cbn; lia. }
  assert (Hbase : forall l, v0 <= foldr Z.max v0 l) by (induction l; cbn; lia).
  pose proof (Hmax tss Hle). destruct Hf as [Hf|Hf]; [|apply Hin in Hf; lia].
  specialize (Hbase tss). lia.
Qed.

(** Two calls load the same value; the smaller one swaps first, and the other
    loses its swap and turns again. *)
Lemma SetLastWriteTs_max_witness :
  rtc raise_step (mkRaising 3 [(9, Loading); (5, Loading)]) (mkRaising 9 [(9, Returned); (5, Returned)]) /\
  9 = foldr Z.max 3 [9; 5].
Proof.
  assert (Hr : rtc raise_step (mkRaising 3 [(9, Loading); (5, Loading)]) (mkRaising 9 [(9, Returned); (5, Returned)])).
  { eapply rtc_l; [apply (raise_load 3 [] [(5, Loading)] 9)|].
    eapply rtc_l; [apply (raise_load 3 [(9, Loaded 3)] [] 5)|].
    eapply rtc_l; [apply (raise_swap [(9, Loaded 3)] [] 5 3); lia|].
    eapply rtc_l; [apply (raise_lost 5 [] [(5, Returned)] 9 3); lia|].
    eapply rtc_l; [apply (raise_load 5 [] [(5, Returned)] 9)|].
    eapply rtc_l; [apply (raise_swap [] [(5, Returned)] 9 5); lia|]. apply rtc_refl. }
  split; [exact Hr|]. apply (SetLastWriteTs_max 3 [9; 5] _ Hr). intros c. cbn [Monitor.calls].
  rewrite !elem_of_cons, elem_of_nil. intros [-> |[-> |[]]]; done.
Defined.

(** A configured user name protects the port. *)
Lemma authMiddleware_served a basic : authMiddleware (Some a) basic = Served ->
  a_Username a = [] \/ basic = Some (a_Username a, a_Password a).
Proof.
  unfold authMiddleware. destruct (decide _); [by left|]. destruct basic as [[u p]|]; [|done].
  repeat case_decide; try done. subst. by right.
Qed.
