(* ===== verification/Metrics.v ===== *)
(** * The metrics page ([internal/monitor/metrics.go])

    The counters, the operations that set and increment them, and the text
    [Render] makes of them.  Each counter is one atomic word, so a state is a
    function from the fields to their values and an operation is one step. *)
From S2P Require Import Prelude GoBytes GoTime GoFloat VmClient Receiver Sender Monitor.
From Stdlib Require Import SpecFloat.
Local Open Scope Z_scope.

(** ** The counters *)

(** The fields of [Metrics]. *)
Inductive field : Type :=
| cursor | walPending | walBytes | sendTotal | ackOk | ackFail | retry
| dlqTotal | heartbeat | pollSkip | writeFail | writeOk | recvTotal | dupTotal
| walDiskRatio | bpStatus | pausedSecs | poisonPacket | skipPoint | lastWriteTs | relayDLQ
| inflight | fpState | fpBatch | fpPoints | fpSigOnly | fpDropBig | fpDropPrec
| fpDropBP | fpLineSkip | fpDedupHit.

#[export] Instance field_eq_dec : EqDecision field.
Proof. solve_decision. Defined.

(** [atomic.Int64] or [atomic.Uint64]. *)
Definition signed (f : field) : bool :=
  match f with
  | cursor | walPending | walBytes | walDiskRatio | bpStatus | pausedSecs | lastWriteTs | inflight | fpState => true
  | _ => false
  end.

Definition Metrics : Type := field -> Z.

Definition New : Metrics := fun _ => 0.

Definition store (f : field) (v : Z) (m : Metrics) : Metrics :=
  fun g => if decide (g = f) then v else m g.
Definition add (f : field) (d : Z) (m : Metrics) : Metrics :=
  store f (if signed f then i64 (m f + d) else u64 (m f + d)) m.
Definition SetCursor (v : Z) : Metrics -> Metrics := store cursor v.
Definition SetWALPending (v : Z) : Metrics -> Metrics := store walPending v.
Definition SetWALBytes (v : Z) : Metrics -> Metrics := store walBytes v.
Definition SetBackpressureStatus (v : Z) : Metrics -> Metrics := store bpStatus v.
Definition SetFastPathState (v : Z) : Metrics -> Metrics := store fpState v.
Definition IncSend : Metrics -> Metrics := add sendTotal 1.
Definition IncAckOk : Metrics -> Metrics := add ackOk 1.
Definition IncAckFail : Metrics -> Metrics := add ackFail 1.
Definition IncRetry : Metrics -> Metrics := add retry 1.
Definition IncDLQ : Metrics -> Metrics := add dlqTotal 1.
Definition IncHeartbeat : Metrics -> Metrics := add heartbeat 1.
Definition IncPollSkip : Metrics -> Metrics := add pollSkip 1.
Definition IncWriteFail : Metrics -> Metrics := add writeFail 1.
Definition IncWriteOk : Metrics -> Metrics := add writeOk 1.
Definition IncRecv : Metrics -> Metrics := add recvTotal 1.
Definition IncDup : Metrics -> Metrics := add dupTotal 1.
Definition IncPoisonPacket : Metrics -> Metrics := add poisonPacket 1.
Definition IncSkipPoint : Metrics -> Metrics := add skipPoint 1.
Definition IncRelayDLQ : Metrics -> Metrics := add relayDLQ 1.
Definition IncFastPathBatch : Metrics -> Metrics := add fpBatch 1.
Definition IncFastPathSignalOnly : Metrics -> Metrics := add fpSigOnly 1.
Definition IncFastPathDroppedOversize : Metrics -> Metrics := add fpDropBig 1.
Definition IncFastPathDroppedPrecision : Metrics -> Metrics := add fpDropPrec 1.
Definition IncFastPathDroppedBackpressure : Metrics -> Metrics := add fpDropBP 1.
Definition IncFastPathLineSkipped : Metrics -> Metrics := add fpLineSkip 1.
Definition IncFastPathDedupHit : Metrics -> Metrics := add fpDedupHit 1.
Definition IncInflight : Metrics -> Metrics := add inflight 1.
Definition DecInflight : Metrics -> Metrics := add inflight (-1).
Definition AddPausedSeconds (v : Z) : Metrics -> Metrics := add pausedSecs v.
Definition AddFastPathPoints (v : Z) : Metrics -> Metrics := add fpPoints (u64 v).

(** [int64(ratio * 10000)] of a finite ratio; beyond the range of [int64] Go
    leaves the result to the machine. *)
Definition int64_of (x : float64) : Z :=
  match x with S754_finite true _ _ => - f64_trunc x | _ => f64_trunc x end.
Definition SetWALDiskRatio (ratio : float64) : Metrics -> Metrics :=
  store walDiskRatio (int64_of (f64_mul ratio (f64_of_Z 10000))).

Definition AckFailCount (m : Metrics) : Z := m ackFail.
Definition AckOkCount (m : Metrics) : Z := m ackOk.
Definition SkipPointCount (m : Metrics) : Z := m skipPoint.
Definition LastWriteTs (m : Metrics) : Z := m lastWriteTs.
Definition RelayDLQCount (m : Metrics) : Z := m relayDLQ.
Definition FastPathState (m : Metrics) : Z := m fpState.
Definition FastPathBatches (m : Metrics) : Z := m fpBatch.
Definition FastPathPoints (m : Metrics) : Z := m fpPoints.
Definition FastPathSignalOnly (m : Metrics) : Z := m fpSigOnly.
Definition FastPathDroppedOversize (m : Metrics) : Z := m fpDropBig.
Definition FastPathDroppedPrecision (m : Metrics) : Z := m fpDropPrec.
Definition FastPathDroppedBackpressure (m : Metrics) : Z := m fpDropBP.
Definition FastPathLineSkipped (m : Metrics) : Z := m fpLineSkip.
Definition FastPathDedupHit (m : Metrics) : Z := m fpDedupHit.
Definition Inflight (m : Metrics) : Z := m inflight.
Definition DLQCount (m : Metrics) : Z := m dlqTotal.
Definition PoisonCount (m : Metrics) : Z := m poisonPacket.
Definition BackpressureStatus (m : Metrics) : Z := m bpStatus.

(** ** [fmt.Sprintf] *)

Inductive arg : Type := ArgInt (n : Z) | ArgFloat (x : float64).

(** [%.4f]. *)
Definition Sprintf_4f : float64 -> bytes := Sprintf_f 4.

Definition verb (a : arg) : bytes :=
  match a with ArgInt n => Sprintf_d n | ArgFloat x => Sprintf_4f x end.

(** A format whose verbs are [%d] and [%.4f], which take the arguments in turn. *)
Fixpoint Sprintf (format : bytes) (args : list arg) : bytes :=
  match format with
  | [] => []
  | c :: rest =>
      match args, rest with
      | a :: args', x :: rest' =>
          if (c =? 37) && (x =? 100) then verb a ++ Sprintf rest' args'
          else
            match rest' with
            | y :: z :: rest'' =>
                if (c =? 37) && (x =? 46) && (y =? 52) && (z =? 102) then verb a ++ Sprintf rest'' args'
                else c :: Sprintf rest args
            | _ => c :: Sprintf rest args
            end
      | _, _ => c :: Sprintf rest args
      end
  end.

(** ** [Render] *)

Definition format1 : bytes := lit
"# HELP sync_cursor_ns 当前逻辑游标（已进入 WAL 的最大数据时间）
# TYPE sync_cursor_ns gauge
sync_cursor_ns %d
# HELP sync_delay_seconds 同步延迟（now - cursor）
# TYPE sync_delay_seconds gauge
sync_delay_seconds %d
# HELP wal_pending 未确认帧数
# TYPE wal_pending gauge
wal_pending %d
# HELP wal_size_bytes WAL 目录占用
# TYPE wal_size_bytes gauge
wal_size_bytes %d
# HELP send_total 发送帧总数
# TYPE send_total counter
send_total %d
# HELP ack_success ACK 成功总数
# TYPE ack_success counter
ack_success %d
# HELP ack_fail ACK 失败总数
# TYPE ack_fail counter
ack_fail %d
# HELP retry_total 重试总数
# TYPE retry_total counter
retry_total %d
# HELP dlq_total 死信转存总数
# TYPE dlq_total counter
dlq_total %d
# HELP heartbeat_total 心跳总数
# TYPE heartbeat_total counter
heartbeat_total %d
# HELP poll_skip 反压跳过轮询总数
# TYPE poll_skip counter
poll_skip %d
# HELP recv_total Receiver 收到帧总数
# TYPE recv_total counter
recv_total %d
# HELP write_ok Receiver 写库成功总数
# TYPE write_ok counter
write_ok %d
# HELP write_fail Receiver 写库失败总数
# TYPE write_fail counter
write_fail %d
# HELP recv_inflight receiver 在途处理帧数
# TYPE recv_inflight gauge
recv_inflight %d
# HELP dup_total Receiver 去重命中总数
# TYPE dup_total counter
dup_total %d
# HELP point_skip_total 超限跳过单点总数（batch=1 仍超上限的病理点）
# TYPE point_skip_total counter
point_skip_total %d
# HELP relay_dlq_total 中继转发失败转存总数
# TYPE relay_dlq_total counter
relay_dlq_total %d
# HELP sync_e2e_delay_seconds 端到端延迟（now - 目标库最后写入点时间，0=未知）
# TYPE sync_e2e_delay_seconds gauge
sync_e2e_delay_seconds %d
# HELP fast_path_state 快路径状态 0=off 1=waiting(仅信号) 2=active(透传)
# TYPE fast_path_state gauge
fast_path_state %d
# HELP fast_path_batches_total 快路径收到推送批总数
# TYPE fast_path_batches_total counter
fast_path_batches_total %d
# HELP fast_path_points_total 快路径转发点总数
# TYPE fast_path_points_total counter
fast_path_points_total %d
# HELP fast_path_signal_only_total WAITING 期仅作信号的批数
# TYPE fast_path_signal_only_total counter
fast_path_signal_only_total %d
# HELP fast_path_dropped_oversize_total 超限跳过批数（Poller 兜底）
# TYPE fast_path_dropped_oversize_total counter
fast_path_dropped_oversize_total %d
# HELP fast_path_dropped_precision_total 非 ns 精度跳过批数（Poller 兜底）
# TYPE fast_path_dropped_precision_total counter
fast_path_dropped_precision_total %d
# HELP fast_path_dropped_backpressure_total 反压跳过批数（Poller 兜底）
# TYPE fast_path_dropped_backpressure_total counter
fast_path_dropped_backpressure_total %d
# HELP fast_path_line_skipped_total 逐行跳过行数（坏行/非 ns/非目标 measurement）
# TYPE fast_path_line_skipped_total counter
fast_path_line_skipped_total %d
# HELP fast_path_dedup_hits_total Poller 侧去重命中点数（跳过已由快路径转发的点）
# TYPE fast_path_dedup_hits_total counter
fast_path_dedup_hits_total %d
".

Definition format2 : bytes := lit
"# HELP vm_sync_wal_disk_usage_ratio WAL 挂载盘占用率
# TYPE vm_sync_wal_disk_usage_ratio gauge
vm_sync_wal_disk_usage_ratio %.4f
# HELP vm_sync_backpressure_status 反压状态 0=正常 1=降速 2=挂起
# TYPE vm_sync_backpressure_status gauge
vm_sync_backpressure_status %d
# HELP vm_sync_poller_paused_seconds_total Poller 反压挂起累计秒数
# TYPE vm_sync_poller_paused_seconds_total counter
vm_sync_poller_paused_seconds_total %d
# HELP vm_sync_dlq_generated_total 死信隔离总帧数
# TYPE vm_sync_dlq_generated_total counter
vm_sync_dlq_generated_total %d
# HELP vm_sync_poison_packet_count 毒丸报文数
# TYPE vm_sync_poison_packet_count counter
vm_sync_poison_packet_count %d
".

(** The arguments; [now] and [now'] are the two readings of the clock. *)
Definition args1 (now now' : Z) (m : Metrics) : list arg := map ArgInt
  [m cursor; syncDelay (m cursor) now; m walPending; m walBytes; m sendTotal; m ackOk; m ackFail; m retry; m dlqTotal;
   m heartbeat; m pollSkip; m recvTotal; m writeOk; m writeFail; m inflight; m dupTotal; m skipPoint;
   m relayDLQ; e2eDelay (m lastWriteTs) now'; m fpState; m fpBatch; m fpPoints; m fpSigOnly; m fpDropBig;
   m fpDropPrec; m fpDropBP; m fpLineSkip; m fpDedupHit].
Definition args2 (m : Metrics) : list arg :=
  ArgFloat (f64_div (f64_of_Z (m walDiskRatio)) (f64_of_Z 10000)) ::
  map ArgInt [m bpStatus; m pausedSecs; m dlqTotal; m poisonPacket].

Definition Render (now now' : Z) (m : Metrics) : bytes :=
  Sprintf format1 (args1 now now' m) ++ Sprintf format2 (args2 m).

(** ** Reading the page *)

(** A line of the page that is no comment: a name and a value. *)
Definition sample_of (line : bytes) : option (bytes * bytes) :=
  match line with
  | [] => None
  | c :: _ =>
      if c =? 35 then None
      else let i := IndexByte line 32 in
           if i <? 0 then None
           else Some (take (Z.to_nat i) line, drop (S (Z.to_nat i)) line)
  end.

Definition samples (page : bytes) : list (bytes * bytes) := omap sample_of (SplitByte NL page).

(** The page as three lines for each series. *)
Record series := mkSeries { sr_name : bytes; sr_help : bytes; sr_kind : bytes; sr_verb : bytes }.

(** The rest of a line after [p] and a blank. *)
Definition after (p line : bytes) : bytes := drop (length p + 1) line.

Fixpoint series_of (lines : list bytes) : list series :=
  match lines with
  | help :: kind :: sample :: rest =>
      let name := take (Z.to_nat (IndexByte sample 32)) sample in
      mkSeries name (after (lit "# HELP " ++ name) help) (after (lit "# TYPE " ++ name) kind) (after name sample) ::
      series_of rest
  | _ => []
  end.

(** The text of a series before its value. *)
Definition preamble (s : series) : bytes :=
  lit "# HELP " ++ sr_name s ++ [32] ++ sr_help s ++ [NL] ++
  lit "# TYPE " ++ sr_name s ++ [32] ++ sr_kind s ++ [NL] ++ sr_name s ++ [32].
Definition block (s : series) (v : bytes) : bytes := preamble s ++ v ++ [NL].

Definition plain (l : bytes) : bool := forallb (fun b => negb (b =? NL) && negb (b =? 37)) l.
Definition series_ok (s : series) : bool :=
  plain (sr_name s) && plain (sr_help s) && plain (sr_kind s) &&
  match sr_name s with [] => false | c :: _ => negb (c =? 35) end &&
  forallb (fun b => negb (b =? 32)) (sr_name s) &&
  (bool_decide (sr_verb s = lit "%d") || bool_decide (sr_verb s = lit "%.4f")).

Definition series1 : list series := series_of (SplitByte NL format1).
Definition series2 : list series := series_of (SplitByte NL format2).

Definition format_of (l : list series) : bytes := concat (map (fun s => block s (sr_verb s)) l).

Lemma formats_blocks : format1 = format_of series1 /\ format2 = format_of series2.
Proof. split; vm_compute; reflexivity. Qed.

Lemma formats_ok : forallb series_ok (series1 ++ series2) = true.
Proof. vm_compute. reflexivity. Qed.

(** *** What a format prints *)

Lemma Sprintf_char c rest args : c <> 37 -> Sprintf (c :: rest) args = c :: Sprintf rest args.
Proof.
  intros Hc. apply Z.eqb_neq in Hc. cbn [Sprintf]. rewrite Hc. cbn [andb].
  destruct args; [done|]. destruct rest as [|x [|y [|z r]]]; done.
Qed.

Lemma Sprintf_text l rest args : 37 ∉ l -> Sprintf (l ++ rest) args = l ++ Sprintf rest args.
Proof.
  induction l as [|c l IH]; intros H; [done|]. apply not_elem_of_cons in H as [Hc H].
  cbn [app]. rewrite Sprintf_char by done. by rewrite IH.
Qed.

Lemma Sprintf_verb v a rest args : v = lit "%d" \/ v = lit "%.4f" ->
  Sprintf (v ++ rest) (a :: args) = verb a ++ Sprintf rest args.
Proof. by intros [-> | ->]. Qed.

Lemma plain_spec l : plain l = true -> (NL ∉ l) /\ (37 ∉ l).
Proof.
  unfold plain. rewrite forallb_forall. intros H.
  split; intros Hin; apply list_elem_of_In in Hin; by specialize (H _ Hin).
Qed.

Lemma absent x l : forallb (fun b => negb (b =? x)) l = true -> x ∉ l.
Proof.
  rewrite forallb_forall. intros H Hin. apply list_elem_of_In in Hin. specialize (H _ Hin). cbv beta in H.
  by rewrite Z.eqb_refl in H.
Qed.

Lemma nl_digits l : forallb is_digit l = true -> NL ∉ l.
Proof. rewrite forallb_forall. intros H Hin. apply list_elem_of_In in Hin. by specialize (H _ Hin). Qed.

Lemma nl_Sprintf_d n : NL ∉ Sprintf_d n.
Proof.
  unfold Sprintf_d. destruct (n <? 0); [apply not_elem_of_cons; split; [done|]|];
    by apply nl_digits, dec_digits_digits.
Qed.

Lemma nl_verb a : NL ∉ verb a.
Proof.
  assert (Hd : forall n, NL ∉ Sprintf_d (n / 10 ^ 4) ++ 46 :: pad 4 (Sprintf_d (n mod 10 ^ 4))).
  { intros n. unfold pad. rewrite not_elem_of_app, not_elem_of_cons, not_elem_of_app. split; [apply nl_Sprintf_d|].
    split; [done|]. split; [|apply nl_Sprintf_d]. by intros [? _]%elem_of_replicate. }
  destruct a as [n|x]; cbn [verb]; [apply nl_Sprintf_d|].
  unfold Sprintf_4f. destruct x as [s|s| |s m e]; cbn [Sprintf_f].
  - destruct s; cbn [app]; rewrite ?not_elem_of_cons; auto.
  - destruct s; apply absent; vm_compute; reflexivity.
  - apply absent. vm_compute. reflexivity.
  - destruct s; cbn [app]; rewrite ?not_elem_of_cons; auto.
Qed.

Record series_fine (s : series) : Prop := {
  sf_name : (NL ∉ sr_name s) /\ (37 ∉ sr_name s);
  sf_help : (NL ∉ sr_help s) /\ (37 ∉ sr_help s);
  sf_kind : (NL ∉ sr_kind s) /\ (37 ∉ sr_kind s);
  sf_head : exists c l, sr_name s = c :: l /\ c <> 35;
  sf_blank : 32 ∉ sr_name s;
  sf_verb : sr_verb s = lit "%d" \/ sr_verb s = lit "%.4f" }.

Lemma series_ok_fine s : series_ok s = true -> series_fine s.
Proof.
  unfold series_ok. intros [[[[[H1 H2]%andb_prop H3]%andb_prop H4]%andb_prop H5]%andb_prop H6]%andb_prop.
  split; [by apply plain_spec..| |by apply absent|].
  - destruct (sr_name s) as [|c l]; [done|]. exists c, l. split; [done|]. by intros ->.
  - apply orb_prop in H6 as [H6|H6]; apply bool_decide_eq_true in H6; auto.
Qed.

Lemma preamble_text s : series_fine s -> 37 ∉ preamble s.
Proof.
  intros [[_ Hn] [_ Hh] [_ Hk] _ _ _]. unfold preamble.
  rewrite !not_elem_of_app. split_and!; try done; by apply absent.
Qed.

Lemma Sprintf_block s a rest args : series_fine s ->
  Sprintf (block s (sr_verb s) ++ rest) (a :: args) = block s (verb a) ++ Sprintf rest args.
Proof.
  intros Hs. unfold block. rewrite <- !app_assoc, Sprintf_text by by apply preamble_text.
  rewrite Sprintf_verb by apply Hs. cbn [app]. by rewrite Sprintf_char by done.
Qed.

(** A page with one block for each argument. *)
Fixpoint page_of (l : list series) (args : list arg) : bytes :=
  match l, args with
  | s :: l', a :: args' => block s (verb a) ++ page_of l' args'
  | _, _ => []
  end.

Lemma Sprintf_page l : forall args, Forall series_fine l -> length l = length args ->
  Sprintf (format_of l) args = page_of l args.
Proof.
  induction l as [|s l IH]; intros [|a args] Hl Hlen; try done. apply Forall_cons in Hl as [Hs Hl].
  unfold format_of. cbn [map concat page_of]. rewrite Sprintf_block by done. f_equal. apply IH; [done|]. by injection Hlen.
Qed.

(** *** What a reader of the page finds *)

Lemma sample_of_comment l : sample_of (35 :: l) = None.
Proof. done. Qed.

Lemma sample_of_line s v : series_fine s -> sample_of (sr_name s ++ 32 :: v) = Some (sr_name s, v).
Proof.
  intros Hs. destruct (sf_head s Hs) as (c & l & E & Hc).
  assert (Hd : exists l', sr_name s ++ 32 :: v = c :: l') by (rewrite E; by eexists). destruct Hd as [l' Hd].
  unfold sample_of. rewrite Hd. destruct (Z.eqb_spec c 35); [done|]. rewrite <- Hd.
  rewrite (Index_app_byte (sr_name s) 32 v (sf_blank s Hs)). destruct (Z.ltb_spec (len (sr_name s)) 0) as [Hn|_]; [zlia|].
  unfold len. rewrite Nat2Z.id, take_app_length. f_equal. f_equal.
  change (S (length (sr_name s))) with (1 + length (sr_name s))%nat. rewrite Nat.add_comm, <- drop_drop.
  by rewrite drop_app_length.
Qed.

Lemma samples_line line rest : NL ∉ line ->
  samples (line ++ NL :: rest) = (match sample_of line with Some x => [x] | None => [] end) ++ samples rest.
Proof. intros H. unfold samples. rewrite Split_app by done. cbn [omap list_omap]. by destruct (sample_of line). Qed.

Lemma samples_block s v rest : series_fine s -> NL ∉ v ->
  samples (block s v ++ rest) = (sr_name s, v) :: samples rest.
Proof.
  intros Hs Hv. destruct (sf_name s Hs) as [Hn _], (sf_help s Hs) as [Hh _], (sf_kind s Hs) as [Hk _].
  replace (block s v ++ rest) with ((lit "# HELP " ++ sr_name s ++ [32] ++ sr_help s) ++ NL ::
    (lit "# TYPE " ++ sr_name s ++ [32] ++ sr_kind s) ++ NL :: (sr_name s ++ 32 :: v) ++ NL :: rest).
  2: { unfold block, preamble. by repeat (rewrite <- ?app_assoc; cbn [app]). }
  rewrite !samples_line; rewrite ?not_elem_of_app, ?not_elem_of_cons;
    [|split_and!; try done; by apply absent..].
  change (sample_of (lit "# HELP " ++ sr_name s ++ [32] ++ sr_help s)) with (@None (bytes * bytes)).
  change (sample_of (lit "# TYPE " ++ sr_name s ++ [32] ++ sr_kind s)) with (@None (bytes * bytes)).
  by rewrite sample_of_line.
Qed.

Lemma samples_page l : forall args rest, Forall series_fine l -> length l = length args ->
  samples (page_of l args ++ rest) = zip (map sr_name l) (map verb args) ++ samples rest.
Proof.
  induction l as [|s l IH]; intros [|a args] rest Hl Hlen; try done. apply Forall_cons in Hl as [Hs Hl].
  cbn [page_of]. rewrite <- app_assoc, samples_block by (done || apply nl_verb). cbn [map zip zip_with app]. f_equal.
  apply IH; [done|]. by injection Hlen.
Qed.

(** What a reader of the page should find. *)
Definition readings (now now' : Z) (m : Metrics) : list (bytes * bytes) :=
  [(lit "sync_cursor_ns", Sprintf_d (m cursor)); (lit "sync_delay_seconds", Sprintf_d (syncDelay (m cursor) now));
   (lit "wal_pending", Sprintf_d (m walPending)); (lit "wal_size_bytes", Sprintf_d (m walBytes));
   (lit "send_total", Sprintf_d (m sendTotal)); (lit "ack_success", Sprintf_d (m ackOk));
   (lit "ack_fail", Sprintf_d (m ackFail)); (lit "retry_total", Sprintf_d (m retry));
   (lit "dlq_total", Sprintf_d (m dlqTotal)); (lit "heartbeat_total", Sprintf_d (m heartbeat));
   (lit "poll_skip", Sprintf_d (m pollSkip)); (lit "recv_total", Sprintf_d (m recvTotal));
   (lit "write_ok", Sprintf_d (m writeOk)); (lit "write_fail", Sprintf_d (m writeFail));
   (lit "recv_inflight", Sprintf_d (m inflight)); (lit "dup_total", Sprintf_d (m dupTotal));
   (lit "point_skip_total", Sprintf_d (m skipPoint)); (lit "relay_dlq_total", Sprintf_d (m relayDLQ));
   (lit "sync_e2e_delay_seconds", Sprintf_d (e2eDelay (m lastWriteTs) now'));
   (lit "fast_path_state", Sprintf_d (m fpState)); (lit "fast_path_batches_total", Sprintf_d (m fpBatch));
   (lit "fast_path_points_total", Sprintf_d (m fpPoints)); (lit "fast_path_signal_only_total", Sprintf_d (m fpSigOnly));
   (lit "fast_path_dropped_oversize_total", Sprintf_d (m fpDropBig));
   (lit "fast_path_dropped_precision_total", Sprintf_d (m fpDropPrec));
   (lit "fast_path_dropped_backpressure_total", Sprintf_d (m fpDropBP));
   (lit "fast_path_line_skipped_total", Sprintf_d (m fpLineSkip));
   (lit "fast_path_dedup_hits_total", Sprintf_d (m fpDedupHit));
   (lit "vm_sync_wal_disk_usage_ratio", Sprintf_4f (f64_div (f64_of_Z (m walDiskRatio)) (f64_of_Z 10000)));
   (lit "vm_sync_backpressure_status", Sprintf_d (m bpStatus));
   (lit "vm_sync_poller_paused_seconds_total", Sprintf_d (m pausedSecs));
   (lit "vm_sync_dlq_generated_total", Sprintf_d (m dlqTotal));
   (lit "vm_sync_poison_packet_count", Sprintf_d (m poisonPacket))].

Lemma series_names :
  map sr_name series1 = map lit ["sync_cursor_ns"; "sync_delay_seconds"; "wal_pending"; "wal_size_bytes"; "send_total";
    "ack_success"; "ack_fail"; "retry_total"; "dlq_total"; "heartbeat_total"; "poll_skip"; "recv_total"; "write_ok";
    "write_fail"; "recv_inflight"; "dup_total"; "point_skip_total"; "relay_dlq_total"; "sync_e2e_delay_seconds";
    "fast_path_state"; "fast_path_batches_total"; "fast_path_points_total"; "fast_path_signal_only_total";
    "fast_path_dropped_oversize_total"; "fast_path_dropped_precision_total"; "fast_path_dropped_backpressure_total";
    "fast_path_line_skipped_total"; "fast_path_dedup_hits_total"]%str /\
  map sr_name series2 = map lit ["vm_sync_wal_disk_usage_ratio"; "vm_sync_backpressure_status";
    "vm_sync_poller_paused_seconds_total"; "vm_sync_dlq_generated_total"; "vm_sync_poison_packet_count"]%str.
Proof. split; vm_compute; reflexivity. Qed.

Lemma series_lengths now now' m :
  length series1 = length (args1 now now' m) /\ length series2 = length (args2 m).
Proof. rewrite <- !(length_map sr_name). destruct series_names as [-> ->]. by split. Qed.

Lemma series_all_fine : Forall series_fine series1 /\ Forall series_fine series2.
Proof.
  apply Forall_app, Forall_forall. intros s Hs. apply series_ok_fine. pose proof formats_ok as H.
  rewrite forallb_forall in H. by apply H, list_elem_of_In.
Qed.

Lemma Render_pages now now' m :
  Render now now' m = page_of series1 (args1 now now' m) ++ page_of series2 (args2 m) ++ [].
Proof.
  destruct formats_blocks as [E1 E2], series_all_fine as [H1 H2], (series_lengths now now' m) as [L1 L2].
  rewrite app_nil_r, <- (Sprintf_page series1 _ H1 L1), <- (Sprintf_page series2 _ H2 L2), <- E1, <- E2. done.
Qed.

(** C40: the metrics page says what the counters hold. Reading the text of
    [Render] line by line, whatever the counters are, gives every series exactly
    once, under its own name and with the value of its counter. *)
Theorem Render_samples now now' m :
  samples (Render now now' m) = readings now now' m /\ NoDup (map fst (readings now now' m)).
Proof.
  split.
  - destruct series_all_fine as [H1 H2], (series_lengths now now' m) as [L1 L2].
    rewrite Render_pages, (samples_page series1 _ _ H1 L1), (samples_page series2 _ _ H2 L2).
    destruct series_names as [-> ->]. reflexivity.
  - change (map fst (readings now now' m)) with (map fst (readings 0 0 New)).
    apply (bool_decide_unpack _). vm_compute. exact I.
Qed.

(** The share of the disk, kept as ten-thousandths, is printed as it was kept. *)
Lemma ratio_text v : 0 <= v <= 10000 ->
  Sprintf_4f (f64_div (f64_of_Z v) (f64_of_Z 10000)) = Sprintf_d (v / 10000) ++ 46 :: pad 4 (Sprintf_d (v mod 10000)).
Proof.
  intros Hv. destruct (Z.eq_dec v 0) as [->|]; [vm_compute; reflexivity|].
  apply (Sprintf_quotient v 10000 14 4); lia.
Qed.

Example ratio_texts :
  map (fun v => Sprintf_4f (f64_div (f64_of_Z v) (f64_of_Z 10000))) [0; 1; 99; 1234; 7000; 8505; 9999; 10000] =
  map lit ["0.0000"; "0.0001"; "0.0099"; "0.1234"; "0.7000"; "0.8505"; "0.9999"; "1.0000"]%str.
Proof. vm_compute. reflexivity. Qed.

(** ** The events of the other components *)

(** What the sender's loop and the receiver report, on the counters. *)
Definition sender_event (e : smetric) : Metrics -> Metrics :=
  match e with
  | SPending n => SetWALPending n
  | SSend => IncSend
  | SRetry => IncRetry
  | SAckOk => IncAckOk
  | SAckFail => IncAckFail
  | SHeartbeat => IncHeartbeat
  | SInvalid | SWait _ | SIdle _ => fun m => m
  end.

Definition receiver_event (e : metric) : Metrics -> Metrics :=
  match e with
  | MRecv => IncRecv
  | MDup => IncDup
  | MInflight d => add inflight d
  | MWriteOk => IncWriteOk
  | MWriteFail => IncWriteFail
  | MPoison => IncPoisonPacket
  | MDLQ => IncDLQ
  | MRelayDLQ => IncRelayDLQ
  end.

Lemma add_eq f d m : add f d m f = if signed f then i64 (m f + d) else u64 (m f + d).
Proof. unfold add, store. by destruct (decide (f = f)). Qed.

Lemma add_ne g f d m : g <> f -> add f d m g = m g.
Proof. intros H. unfold add, store. by destruct (decide (g = f)). Qed.

(** Handlers count themselves in and out: the gauge of the frames in flight is
    the sum of what they added, in any order of the events. *)
Definition in_flight (es : list metric) : Z :=
  foldr (fun e n => match e with MInflight d => d + n | _ => n end) 0 es.

Lemma inflight_sum es : forall m, is_i64 (m inflight) ->
  foldl (fun m e => receiver_event e m) m es inflight = i64 (m inflight + in_flight es).
Proof.
  induction es as [|e es IH]; intros m Hm; cbn [foldl in_flight foldr]; [by rewrite Z.add_0_r, i64_small|].
  fold (in_flight es). destruct e as [| |d| | | | |]; cbn [receiver_event]; rewrite IH;
    rewrite ?(add_ne inflight) by done; rewrite ?(add_eq inflight); try done; [|apply i64_range].
  cbn [signed]. rewrite i64_add. f_equal. lia.
Qed.
