(* ===== verification/Backpressure.v ===== *)
(** * What the poller does about a full disk

    The three levels of [bp_step] compare floating-point numbers.  On a disk of less
    than a pebibyte the comparisons are exact, so polling depends on the blocks that
    [statfs] counts as it would in rational arithmetic.  The second part models what
    [Run] reports of it to the metrics. *)
From S2P Require Import Prelude GoBytes GoTime GoFloat Poller Metrics.
From Stdlib Require Import SpecFloat.
Local Open Scope Z_scope.

(** ** The marks are exact *)

Lemma SFltb_not_leb m e n f :
  SFltb (S754_finite false m e) (S754_finite false n f) = negb (SFleb (S754_finite false n f) (S754_finite false m e)).
Proof.
  unfold SFltb, SFleb. cbn [SFcompare]. rewrite (Z.compare_antisym f e). destruct (Z.compare_spec f e); cbn [CompOpp]; try done.
  change (Pos.compare_cont Eq n m) with (Pos.compare n m). change (Pos.compare_cont Eq m n) with (Pos.compare m n).
  rewrite (Pos.compare_antisym n m). by destruct (Pos.compare n m).
Qed.

(** Comparing with a number [t / 2^53]. *)
Lemma SFleb_mark t m e : SFleb (S754_finite false t (-53)) (S754_finite false m e) =
  if e <? -53 then false else if e =? -53 then Z.pos t <=? Z.pos m else true.
Proof.
  unfold SFleb. cbn [SFcompare]. change (Pos.compare_cont Eq t m) with (Pos.compare t m).
  destruct (Z.compare_spec (-53) e), (Z.ltb_spec e (-53)), (Z.eqb_spec e (-53)); try done; try lia.
Qed.

(** [t / 2^53] is the double nearest to [n / 5], or close to it. *)
Lemma mark_exact t n d a b : 5 * Z.pos t = n * 2 ^ 53 + d -> -1 <= d <= 2 -> 3 <= n <= 4 -> 0 <= a <= b -> 0 < b < 2 ^ 50 ->
  SFleb (S754_finite false t (-53)) (f64_div (f64_of_Z a) (f64_of_Z b)) = (n * b <=? 5 * a).
Proof.
  intros Ht Hd Hn Ha Hb. destruct (Z.eq_dec a 0) as [->|Ha0].
  { destruct (f64_of_pos b) as (m & e & -> & _); [lia|]. destruct (Z.leb_spec (n * b) (5 * 0)); [nia|done]. }
  destruct (f64_quotient a b 50) as (m & e & -> & He & Hm & Hq); [lia..|]. rewrite SFleb_mark.
  destruct (Z.ltb_spec e (-53)) as [He1|He1]; [|destruct (Z.eqb_spec e (-53)) as [->|He2]].
  - assert (HD : 2 ^ 54 <= 2 ^ (- e)) by (apply Z.pow_le_mono_r; lia). set (D := 2 ^ (- e)) in *. clearbody D.
    destruct (Z.leb_spec (n * b) (5 * a)); [|done]. nia.
  - change (- -53) with 53 in Hq. destruct (Z.leb_spec (Z.pos t) (Z.pos m)), (Z.leb_spec (n * b) (5 * a)); try done; nia.
  - assert (HD : 2 ^ (- e) <= 2 ^ 52) by (apply Z.pow_le_mono_r; lia).
    assert (HD0 : 0 < 2 ^ (- e)) by (apply Z.pow_pos_nonneg; lia). set (D := 2 ^ (- e)) in *. clearbody D.
    destruct (Z.leb_spec (n * b) (5 * a)); [done|]. nia.
Qed.

Lemma mark_below t n d a b : 5 * Z.pos t = n * 2 ^ 53 + d -> -1 <= d <= 2 -> 3 <= n <= 4 -> 0 <= a <= b -> 0 < b < 2 ^ 50 ->
  SFltb (f64_div (f64_of_Z a) (f64_of_Z b)) (S754_finite false t (-53)) = negb (n * b <=? 5 * a).
Proof.
  intros Ht Hd Hn Ha Hb. rewrite <- (mark_exact t n d a b) by done. destruct (Z.eq_dec a 0) as [->|Ha0].
  - destruct (f64_of_pos b) as (m & e & -> & _); [lia|done].
  - destruct (f64_quotient a b 50) as (m & e & -> & _); [lia..|]. apply SFltb_not_leb.
Qed.

(** ** Disks *)

(** A reading of a disk of less than [2^50] bytes. *)
Definition reading_ok (r : option Statfs_t) : Prop :=
  match r with
  | Some st => 0 <= sf_Bavail st <= sf_Blocks st /\ 0 < sf_Bsize st /\ 0 < sf_Blocks st * sf_Bsize st < 2 ^ 50
  | None => True
  end.

(** [p] per cent of the blocks, at least, are not available; a disk that cannot be
    read counts as empty. *)
Definition filled (p : Z) (r : option Statfs_t) : bool :=
  match r with
  | Some st => p * sf_Blocks st <=? 100 * (sf_Blocks st - sf_Bavail st)
  | None => false
  end.

Lemma ratio_bytes st : reading_ok (Some st) ->
  WalDiskUsageRatio (Some st) =
    f64_div (f64_of_Z ((sf_Blocks st - sf_Bavail st) * sf_Bsize st)) (f64_of_Z (sf_Blocks st * sf_Bsize st)).
Proof.
  intros (Ha & Hs & Hb). unfold WalDiskUsageRatio, u64.
  assert (Hpos : 0 < sf_Blocks st) by nia. assert (Hle1 : sf_Bsize st <= sf_Blocks st * sf_Bsize st) by nia. rewrite (Z.mod_small (sf_Bsize st)) by lia.
  assert (Hle : 0 <= sf_Bavail st * sf_Bsize st <= sf_Blocks st * sf_Bsize st) by nia.
  rewrite (Z.mod_small (sf_Blocks st * _)), (Z.mod_small (sf_Bavail st * _)), (Z.mod_small (_ - _)) by lia. destruct (Z.eqb_spec (sf_Blocks st * sf_Bsize st) 0); [lia|].
  do 2 f_equal. lia.
Qed.

Lemma leb_scale n x y c : 0 < c -> (n * (x * c) <=? 5 * (y * c)) = (20 * n * x <=? 100 * y).
Proof.
  intros Hc. apply Bool.eq_iff_eq_true. rewrite !Z.leb_le.
  replace (n * (x * c)) with (n * x * c) by lia. replace (5 * (y * c)) with (5 * y * c) by lia.
  rewrite <- Z.mul_le_mono_pos_r by done. lia.
Qed.

Lemma ratio_red r : reading_ok r -> SFleb bpRedTrigger (WalDiskUsageRatio r) = filled 80 r.
Proof.
  destruct r as [st|]; [|done]. intros Hr. rewrite ratio_bytes by done. destruct Hr as (Ha & Hs & Hb).
  assert (R : bpRedTrigger = S754_finite false 7205759403792794 (-53)) by by vm_compute. rewrite R.
  rewrite (mark_exact _ 4 2) by (try nia; done). by apply leb_scale.
Qed.

Lemma ratio_green r : reading_ok r -> SFltb (WalDiskUsageRatio r) bpGreenResume = negb (filled 60 r).
Proof.
  destruct r as [st|]; [|done]. intros Hr. rewrite ratio_bytes by done. destruct Hr as (Ha & Hs & Hb).
  assert (G : bpGreenResume = S754_finite false 5404319552844595 (-53)) by by vm_compute. rewrite G.
  rewrite (mark_below _ 3 (-1)) by (try nia; done). f_equal. by apply leb_scale.
Qed.

(** C39: the poller stops for a full disk, with hysteresis. Whatever [statfs] answers
    for a disk that has blocks and less than 2^50 bytes, or fails to answer (which
    counts as an empty disk), polling is suspended after any sequence of readings
    exactly when some reading found 80 per cent of the disk in use, and every
    reading since has found 60 per cent at least: the comparisons, which the code
    makes on quotients in float64, are those of the exact fractions. *)
Theorem full_disk_pauses rs : Forall reading_ok rs ->
  (foldl bp_step bpNormal (map WalDiskUsageRatio rs) = bpPaused <->
   exists pre r post, rs = pre ++ r :: post /\ filled 80 r = true /\ Forall (fun v => filled 60 v = true) post).
Proof.
  intros Hok. rewrite backpressure_hysteresis. split.
  - intros (pre & u & post & E & Hu & Hp).
    apply map_eq_app in E as (pre' & rest & -> & <- & E). apply map_eq_cons in E as (r & post' & -> & <- & <-).
    apply Forall_app in Hok as [_ [Hr Hpost]%Forall_cons]. exists pre', r, post'.
    split; [done|]. split; [by rewrite <- ratio_red|].
    rewrite Forall_map in Hp. apply (Forall_impl _ _ _ (proj2 (Forall_and _ _) (conj Hpost Hp))).
    intros v [Hv H]. cbn in H. rewrite ratio_green in H by done. by destruct (filled 60 v).
  - intros (pre & r & post & -> & Hr & Hp). apply Forall_app in Hok as [_ [Hok Hpost]%Forall_cons].
    exists (map WalDiskUsageRatio pre), (WalDiskUsageRatio r), (map WalDiskUsageRatio post).
    split; [by rewrite map_app|]. split; [by rewrite ratio_red|].
    rewrite Forall_map. apply (Forall_impl _ _ _ (proj2 (Forall_and _ _) (conj Hpost Hp))).
    intros v [Hv H]. cbn. by rewrite ratio_green, H.
Qed.

(** A disk that fills up to the upper mark and is relieved down to the lower one. *)
Definition filling : list (option Statfs_t) :=
  [Some (mkStatfs 1000 4096 300); Some (mkStatfs 1000 4096 200); Some (mkStatfs 1000 4096 400)].

Lemma full_disk_pauses_witness : Forall reading_ok filling /\ foldl bp_step bpNormal (map WalDiskUsageRatio filling) = bpPaused /\
  foldl bp_step bpNormal (map WalDiskUsageRatio (filling ++ [None])) = bpNormal.
Proof.
  assert (Hok : Forall reading_ok filling) by (repeat constructor; cbn; lia). split; [done|]. split; [|by vm_compute].
  apply (full_disk_pauses filling Hok). exists [Some (mkStatfs 1000 4096 300)], (Some (mkStatfs 1000 4096 200)),
    [Some (mkStatfs 1000 4096 400)]. split; [done|]. split; [by vm_compute|]. by repeat constructor.
Defined.

(** ** What is reported *)

Definition f64_add (x y : float64) : float64 := SFadd 53 1024 x y.

(** [Duration.Seconds] and [time.Since], on monotonic readings. *)
Definition Seconds (d : Z) : float64 :=
  f64_add (f64_of_Z (Z.quot d Second)) (f64_div (f64_of_Z (Z.rem d Second)) (f64_of_Z Second)).
Definition Since (now start : Z) : Z := Z.max (- 2 ^ 63) (Z.min (2 ^ 63 - 1) (now - start)).

(** [int64(state)] *)
Definition bpCode (state : bpState) : Z := match state with bpNormal => 0 | bpDegraded => 1 | bpPaused => 2 end.

(** The variables [state] and [pausedStart] of [Run], and the metrics. *)
Record gauges := mkGauges { g_state : bpState; g_pausedStart : Z; g_metrics : Metrics }.

(** One turn: the disk, the clock in [time.Since], and in [time.Now] after it. *)
Record reading := mkReading { rd_disk : option Statfs_t; rd_now : Z; rd_again : Z }.

Definition bp_report (g : gauges) (r : reading) : gauges :=
  let usage := WalDiskUsageRatio (rd_disk r) in
  let state' := bp_step (g_state g) usage in
  let m1 := match g_state g with
            | bpPaused => AddPausedSeconds (int64_of (Seconds (Since (rd_now r) (g_pausedStart g)))) (g_metrics g)
            | _ => g_metrics g
            end in
  let start' := match g_state g, state' with
                | bpPaused, _ | _, bpPaused => rd_again r
                | _, _ => g_pausedStart g
                end in
  let m2 := SetWALDiskRatio usage (SetBackpressureStatus (bpCode state') m1) in
  mkGauges state' start' (match state' with bpPaused => IncPollSkip m2 | _ => m2 end).

Definition report_start : gauges := mkGauges bpNormal 0 Metrics.New.

(** The states are those of [bp_step], and the status is the last one. *)
Lemma report_states rs : forall g,
  g_state (foldl bp_report g rs) = foldl bp_step (g_state g) (map WalDiskUsageRatio (map rd_disk rs)).
Proof. induction rs as [|r rs IH]; intros g; cbn [foldl map]; [done|]. by rewrite IH. Qed.

Lemma report_status r g : g_metrics (bp_report g r) bpStatus = bpCode (g_state (bp_report g r)).
Proof.
  unfold bp_report. cbn [g_state g_metrics]. by destruct (bp_step (g_state g) (WalDiskUsageRatio (rd_disk r))).
Qed.

(** *** The seconds of a pause *)

Example whole_seconds : map (fun d => int64_of (Seconds d)) [0; 500 * Millisecond; 999999999; Second; 90 * Second + 1] = [0; 0; 0; 1; 90].
Proof. vm_compute. reflexivity. Qed.

(** Less than a second is no second. *)
Lemma fraction_lost d : 0 <= d < Second -> int64_of (Seconds d) = 0.
Proof.
  intros Hd. unfold Seconds, Second in *. rewrite Z.quot_small, Z.rem_small by lia.
  destruct (Z.eq_dec d 0) as [->|Hd0]; [by vm_compute|].
  destruct (f64_quotient d 1000000000 30) as (m & e & E & He & _ & Hq); [lia..|].
  change (1 * 10 ^ 9) with 1000000000. rewrite E.
  change (f64_add (f64_of_Z 0) (S754_finite false m e)) with (S754_finite false m e). cbn [int64_of f64_trunc].
  destruct (Z.leb_spec 0 e); [lia|].
  assert (HD : 2 ^ 30 <= 2 ^ (- e)) by (apply Z.pow_le_mono_r; lia). set (D := 2 ^ (- e)) in *. clearbody D.
  apply Z.div_small. split; [lia|]. nia.
Qed.

(** While the poller is paused, each turn comes less than a second after the last. *)
Fixpoint quick (g : gauges) (rs : list reading) : Prop :=
  match rs with
  | [] => True
  | r :: rest => (g_state g = bpPaused -> 0 <= rd_now r - g_pausedStart g < Second) /\ quick (bp_report g r) rest
  end.

(** The counter of the seconds the poller has been paused stays at zero, however
    long the pause, when the interval is below a second, as the default one is:
    each turn adds the whole seconds since the last one, and starts again. *)
Theorem pause_is_not_counted rs : quick report_start rs -> g_metrics (foldl bp_report report_start rs) pausedSecs = 0.
Proof.
  assert (G : forall g, quick g rs -> g_metrics g pausedSecs = 0 -> g_metrics (foldl bp_report g rs) pausedSecs = 0).
  { induction rs as [|r rs IH]; intros g; [done|]. cbn [quick foldl]. intros [Hq Hr] Hg. apply IH; [done|].
    assert (H1 : forall st u m, m pausedSecs = 0 ->
      (match st with bpPaused => IncPollSkip (SetWALDiskRatio u (SetBackpressureStatus (bpCode st) m))
                   | _ => SetWALDiskRatio u (SetBackpressureStatus (bpCode st) m) end) pausedSecs = 0) by by intros [].
    unfold bp_report. cbn [g_metrics]. apply H1. destruct (g_state g); try done.
    unfold Since. rewrite Z.min_r, Z.max_r by (specialize (Hq eq_refl); unfold Second in Hq; lia).
    rewrite fraction_lost by auto. unfold AddPausedSeconds. rewrite add_eq, Hg. by vm_compute. }
  intros Hq. by apply G.
Qed.

(** A full disk, four turns of half a second. *)
Definition long_pause : list reading :=
  map (fun k => mkReading (Some (mkStatfs 1000 4096 100)) (k * (500 * Millisecond)) (k * (500 * Millisecond) + 10)) [1; 2; 3; 4].

Lemma pause_is_not_counted_witness : g_metrics (foldl bp_report report_start long_pause) pausedSecs = 0 /\
  g_metrics (foldl bp_report report_start long_pause) pollSkip = 4.
Proof.
  split; [|by vm_compute]. apply pause_is_not_counted. vm_compute. repeat split; intros; discriminate.
Defined.
