(* ===== verification/PollLive.v ===== *)
(** * The poller catches up

    While the source answers and the disk has room, every turn of the loop either
    moves the cursor or halves the window that did not fit into a frame, which it
    can do a bounded number of times; so after a bounded number of turns the cursor
    is as close to the present as the visibility lag allows. *)
From S2P Require Import Prelude GoBytes GoTime Protocol WalDisk WalScan Wal WalQueue WalCommit WalCalm VmClient Poller PollTrace Backpressure.
From Stdlib Require Import SpecFloat.
Local Open Scope Z_scope.
Local Open Scope go_scope.

(** ** The window *)

Lemma windowSize_least p :
  Millisecond <= pc_Window (p_cfg p) -> Millisecond <= pc_MaxWindow (p_cfg p) < 2 ^ 62 ->
  Millisecond <= windowSize p.
Proof.
  intros Hw Hm. unfold windowSize. assert (Hms : 0 < Millisecond) by done. destruct (p_oversizeStreak p) as [|k].
  - set (cap := if p_streakAllEmpty p then emptySkipMaxWindow else pc_MaxWindow (p_cfg p)).
    assert (Hcap : Millisecond <= cap < 2 ^ 62) by (unfold cap; destruct (p_streakAllEmpty p); [done|lia]).
    destruct (grow_window_spec (p_underfillStreak p) cap (pc_Window (p_cfg p))) as (G & _); [lia..|].
    cbv zeta. case_bool; lia.
  - destruct (shrink_window_spec (S k) (pc_Window (p_cfg p))) as [H _]; [lia|]. unfold oversizeMinWindow in H. lia.
Qed.

(** After enough halvings the window is one millisecond. *)
Lemma windowSize_shrunk p K : p_oversizeStreak p = S K ->
  Millisecond <= pc_Window (p_cfg p) <= Millisecond * 2 ^ Z.of_nat (S K) -> windowSize p = Millisecond.
Proof.
  intros Ho Hw. unfold windowSize. rewrite Ho. assert (Hms : 0 < Millisecond) by done.
  destruct (shrink_window_spec (S K) (pc_Window (p_cfg p))) as [H1 H2]; [lia|]. unfold oversizeMinWindow in *.
  specialize (H2 ltac:(lia)). lia.
Qed.

Lemma Milliseconds_1 d : Millisecond <= d -> 1 <= Milliseconds d.
Proof. intros H. change 1 with (Milliseconds Millisecond). by apply Milliseconds_mono. Qed.

(** Before the lag is reached, a round has a window. *)
Lemma windowEnd_progress p cursor now flushOK :
  config_ok (p_cfg p) -> Millisecond <= windowSize p -> Millisecond <= pc_MaxWindow (p_cfg p) ->
  cursor < now - Milliseconds (pc_ExportLag (p_cfg p)) -> cursor < windowEnd cursor now flushOK p.
Proof.
  intros Hok Hw Hm Hc. pose proof (Milliseconds_1 _ Hw). pose proof (Milliseconds_1 _ Hm).
  pose proof (Milliseconds_mono _ _ (proj2 (ok_watermark _ Hok))).
  unfold windowEnd. set (lag := Milliseconds (pc_ExportLag (p_cfg p))) in *.
  set (mark := Milliseconds (pc_Watermark (p_cfg p))) in *. set (size := Milliseconds (windowSize p)) in *.
  set (most := Milliseconds (pc_MaxWindow (p_cfg p))) in *. cbv zeta.
  destruct flushOK, (Nat.eqb (p_underfillStreak p) 0); cbn [andb]; repeat case_bool; lia.
Qed.

(** ** A round *)

Section live.
Context {C : Codec}.
Context (export_at : nat -> Z -> Z -> http_result) (flush_at : nat -> http_result).
Context (cfg : PollerConfig) (K : nat).
Context (Hcfg : config_ok cfg) (Hmax : Millisecond <= pc_MaxWindow cfg < 2 ^ 62).
Context (Hwin : Millisecond <= pc_Window cfg <= Millisecond * 2 ^ Z.of_nat (S K)).

Let lag : Z := Milliseconds (pc_ExportLag cfg).

(** The export of a window is answered, and fits into frames or can be split. *)
Definition fits (k : nat) (start fin : Z) : Prop :=
  exists raw, ExportRange (export_at k start fin) = Ok raw /\
    let frames := splitFrames raw (pc_FrameLines cfg) (pc_FrameBytes cfg) in
    (exists enc, encode_frames (pc_Compression cfg) frames = Ok enc) \/
    (start + 1 < fin /\ exists e, encode_frames (pc_Compression cfg) frames = Err e /\ is_too_large e = true).

Context (Hsource : forall k start fin, start < fin -> fits k start fin).

(** Between two rounds, an export is in flight only if the last round went well, and
    the window has been halved [S K] times at most. *)
Record live (p : Poller) : Prop := {
  lv_cfg : p_cfg p = cfg;
  lv_slot : slot_ok export_at p;
  lv_none : p_oversizeStreak p <> 0%nat -> p_prefetch p = None;
  lv_halved : (p_oversizeStreak p <= S K)%nat }.

(** Nothing but the end of a round touches the streak of oversized windows. *)
Definition kept_streak (s s' : PWorld) : Prop := p_oversizeStreak (pw_poller s') = p_oversizeStreak (pw_poller s).

Lemma flush_kept now s : kept_streak s (flushSource flush_at now s).2.
Proof. unfold kept_streak, flushSource. destruct (ForceFlush _) as [[]|e|]; cbn; [done|by case_match..]. Qed.

Lemma launch_kept now2 now3 cursor s : kept_streak s (launchPrefetch export_at now2 now3 cursor s).2.
Proof.
  unfold kept_streak, launchPrefetch, poller, bind, gets. cbv zeta. cbn [fst snd].
  destruct (p_prefetch (pw_poller s)); [done|].
  match goal with |- context [now3 - ?e <? _] => set (ne := e) end. by destruct (now3 - ne <? _), (ne <=? cursor).
Qed.

(** The window the export is for, and the slot it may come from. *)
Lemma obtain_live cursor fin s : cursor < fin -> slot_ok export_at (pw_poller s) ->
  exists fin' k s', obtain_export export_at false cursor fin s = (Ok (Some (fin', export_at k cursor fin')), s') /\
    cursor < fin' /\ kept_streak s s' /\ (p_prefetch (pw_poller s) = None -> fin' = fin).
Proof.
  intros Hlt Hs. unfold obtain_export, poller, bind, gets, set_poller, modify, ret, send_export. unfold slot_ok in Hs.
  destruct (p_prefetch (pw_poller s)) as [slot|]; [|by repeat eexists].
  destruct Hs as ((k & Hk) & Hsl & _). destruct (Z.eqb_spec (ps_cursor slot) cursor) as [<-|Hne].
  - exists (ps_end slot), k. eexists. rewrite Hk. by repeat split.
  - by repeat eexists.
Qed.

Lemma export_round_live now now2 now3 cursor s :
  live (pw_poller s) -> cursor < now - lag ->
  exists fin raw k s', export_round export_at flush_at false now now2 now3 cursor s = (Ok (Some (fin, raw)), s') /\
    cursor < fin /\ ExportRange (export_at k cursor fin) = Ok raw /\ kept_streak s s' /\
    (p_oversizeStreak (pw_poller s) = S K -> fin = cursor + 1).
Proof.
  intros [Hc Hs Hn Hh] Hlt. unfold export_round, poller. unfold bind at 1, gets at 1.
  set (p := pw_poller s) in *.
  assert (Hsize : Millisecond <= windowSize p) by (apply windowSize_least; rewrite Hc; lia).
  match goal with |- context [bind (if ?b then ?x else ?y) ?k] => set (kk := k); set (m := if b then x else y) end.
  assert (Hm : exists flushOK s1, m s = (Ok flushOK, s1) /\ kept_streak s s1 /\ p_cfg (pw_poller s1) = cfg /\
    slot_ok export_at (pw_poller s1) /\ p_prefetch (pw_poller s1) = p_prefetch p).
  { unfold m. case_bool; [|by exists true, s].
    destruct (flushSource flush_at now s) as [o s1] eqn:E. unfold flushSource in E.
    destruct (ForceFlush _) as [[]|e|]; injection E as <- <-; do 2 eexists; (split; [reflexivity|]); first [done|by case_match]. }
  destruct Hm as (flushOK & s1 & E & Hk1 & Hc1 & Hs1 & Hp1). unfold bind at 1. rewrite E. unfold kk. clear kk m E.
  set (fin0 := windowEnd cursor now flushOK p).
  assert (Hfin0 : cursor < fin0) by (apply windowEnd_progress; rewrite ?Hc; [done|done|lia|exact Hlt]).
  destruct (windowEnd_le p cursor now flushOK) as (_ & _ & Hle & _). fold fin0 in Hle.
  destruct (Z.leb_spec fin0 cursor); [lia|].
  destruct (obtain_live cursor fin0 s1 Hfin0 Hs1) as (fin & k & s2 & E2 & Hlt2 & Hk2 & Hf2).
  unfold bind at 1. rewrite E2. destruct (Hsource k cursor fin Hlt2) as (raw & Er & _). rewrite Er.
  unfold bind at 1, set_poller, modify. set (s3 := upd_poller _ s2).
  assert (Hk3 : kept_streak s2 s3).
  { unfold kept_streak, s3. cbn [pw_poller upd_poller]. unfold update_streak. by repeat case_match. }
  pose proof (launch_kept now2 now3 fin s3) as Hk4.
  pose proof (launchPrefetch_spec export_at now3 now2 now3 fin s3 ltac:(lia)) as Hl. unfold wp in Hl.
  unfold bind at 1. destruct (launchPrefetch export_at now2 now3 fin s3) as [o s4]. cbn [fst snd] in *.
  destruct Hl as (_ & _ & Ho). destruct o as [[]| |]; try done. exists fin, raw, k, s4. unfold kept_streak in *.
  split; [done|]. split; [done|]. split; [done|]. split; [congruence|].
  intros Ho1. rewrite Hf2 by (rewrite Hp1; apply Hn; by rewrite Ho1).
  assert (Hone : windowSize p = Millisecond) by (apply (windowSize_shrunk p K); [done|by rewrite Hc]).
  rewrite Hone in Hle. change (Milliseconds Millisecond) with 1 in Hle. lia.
Qed.

(** ** The turns *)

(** A turn with room on the disk, at [T] or later, before the end. *)
Definition working (T : Z) (t : tick) : Prop :=
  t_cancelled t = false /\ T <= t_now t /\ reading_ok (t_disk t) /\ filled 80 (t_disk t) = false.

Lemma working_runs T st t : working T t -> st <> bpPaused -> bp_step st (t_usage t) <> bpPaused.
Proof.
  intros (_ & _ & Hr & Hf) Hst. rewrite bp_step_paused. unfold t_usage. rewrite ratio_red by done. rewrite Hf. by intros [|[? _]].
Qed.

(** Any turn leaves the cursor where it was or moves it on. *)
Lemma tick_forth st t c s : slot_ok export_at (pw_poller s) ->
  slot_ok export_at (pw_poller (tick_trace export_at flush_at st t c s).2) /\
  c <= foldl op_cursor c (tick_trace export_at flush_at st t c s).1.
Proof.
  intros Hs. unfold tick_trace.
  pose proof (export_round_spec export_at flush_at (t_cancelled t) (t_now t) (t_now2 t) (t_now3 t) c s Hs) as H. unfold wp in H.
  destruct (export_round _ _ _ _ _ _ _ s) as [o s1]. cbn [fst snd] in H. destruct H as ([_ _ _ Hs1 _] & got & -> & Hgot).
  specialize (Hs1 Hs). destruct got as [[fin raw]|]; [|destruct st; split; try done; cbn; lia].
  destruct Hgot as (Hlt & _).
  assert (H : slot_ok export_at (pw_poller (upd_poller (round_after (p_cfg (pw_poller s)) raw) s1)) /\
    c <= foldl op_cursor c (round_ops (p_cfg (pw_poller s)) (t_nowNs t) fin raw)).
  { split; [by apply round_after_slot|]. unfold round_ops. repeat case_match; cbn; lia. }
  destruct st; [done|done|split; [done|cbn; lia]].
Qed.

Lemma trace_forth ticks : forall st c s, slot_ok export_at (pw_poller s) ->
  c <= foldl op_cursor c (poll_trace export_at flush_at st ticks c s).
Proof.
  induction ticks as [|t ticks IH]; intros st c s Hs; cbn [poll_trace]; [cbn; lia|].
  destruct (tick_forth (bp_step st (t_usage t)) t c s Hs) as [Hs1 Hc].
  destruct (tick_trace _ _ _ _ _ s) as [ops s1]. cbn [fst snd] in *. rewrite foldl_app. etrans; [exact Hc|]. by apply IH.
Qed.

(** What is left to do, in turns at most, from the cursor [c] to [goal]. *)
Definition turns_left (goal c : Z) (p : Poller) : Z :=
  (goal - c) * Z.of_nat (S (S K)) - Z.of_nat (p_oversizeStreak p).

(** A turn before the lag is reached. *)
Lemma tick_live T st t c s : st <> bpPaused -> working T t -> live (pw_poller s) -> c < T - lag ->
  let '(ops, s1) := tick_trace export_at flush_at st t c s in
  live (pw_poller s1) /\ turns_left (T - lag) (foldl op_cursor c ops) (pw_poller s1) < turns_left (T - lag) c (pw_poller s).
Proof.
  intros Hst (Hcan & Hnow & _) Hl Hc. pose proof (tick_forth st t c s (lv_slot _ Hl)) as [Hslot _]. revert Hslot.
  destruct (export_round_live (t_now t) (t_now2 t) (t_now3 t) c s Hl ltac:(lia)) as (fin & raw & k & s1 & E & Hlt & Er & Hk & Hone).
  pose proof (export_round_spec export_at flush_at false (t_now t) (t_now2 t) (t_now3 t) c s (lv_slot _ Hl)) as Hx.
  unfold wp in Hx. rewrite E in Hx. cbn [fst snd] in Hx. destruct Hx as ([_ _ Hc1 _ _] & _).
  destruct Hl as [Hcf _ _ Hh]. unfold tick_trace. rewrite Hcan, E, Hcf.
  assert (Ht : forall x : list rival * PWorld, match st with bpPaused => ([], s) | _ => x end = x) by (intros x; by destruct st).
  rewrite Ht. cbn [fst snd]. intros Hslot. unfold turns_left. unfold kept_streak in Hk. rewrite Hcf in Hc1.
  destruct (Hsource k c fin Hlt) as (raw' & Er' & Hf). rewrite Er in Er'. injection Er' as <-. cbv zeta in Hf.
  unfold round_ops, round_after in *. cbn [pw_poller upd_poller] in *.
  destruct (splitFrames raw (pc_FrameLines cfg) (pc_FrameBytes cfg)) as [|f frames] eqn:Ef.
  { cbn [foldl op_cursor p_oversizeStreak with_oversize]. split; [|nia].
    split; cbn [p_cfg p_oversizeStreak p_prefetch with_oversize]; [done|done|done|lia]. }
  destruct Hf as [[enc Ee]|(Hlong & e & Ee & He)]; rewrite Ee in *.
  - cbn [foldl op_cursor p_oversizeStreak with_oversize]. split; [|nia].
    split; cbn [p_cfg p_oversizeStreak p_prefetch with_oversize]; [done|done|done|lia].
  - rewrite He in *. cbn [foldl p_oversizeStreak with_oversize with_prefetch]. split; [|lia].
    split; cbn [p_cfg p_oversizeStreak p_prefetch with_oversize with_prefetch]; [done|done|done|].
    assert (p_oversizeStreak (pw_poller s) <> S K); [|lia]. intros H. specialize (Hone H). lia.
Qed.

Lemma trace_live T ticks : forall st c s, st <> bpPaused -> Forall (working T) ticks -> live (pw_poller s) ->
  turns_left (T - lag) c (pw_poller s) <= Z.of_nat (length ticks) ->
  T - lag <= foldl op_cursor c (poll_trace export_at flush_at st ticks c s).
Proof.
  induction ticks as [|t ticks IH]; intros st c s Hst Hw Hl Hn; (destruct (Z.le_gt_cases (T - lag) c) as [Hge|Hlt];
    [etrans; [exact Hge|by apply trace_forth, lv_slot]|]).
  - pose proof (lv_halved _ Hl). unfold turns_left in Hn. cbn [length] in Hn. nia.
  - apply Forall_cons in Hw as [Ht Hw]. cbn [poll_trace]. pose proof (working_runs T st t Ht Hst) as Hst'.
    pose proof (tick_live T _ t c s Hst' Ht Hl ltac:(lia)) as H.
    destruct (tick_trace _ _ _ _ _ s) as [ops s1]. destruct H as [Hl1 Hd]. rewrite foldl_app.
    apply IH; [done|done|done|]. cbn [length] in Hn. lia.
Qed.

End live.

Arguments fits {C}.

(** ** The loop *)

(** C17: the poller catches up. Let the file system of the log answer and the numbers
    of its frames stay below 2^64, let the sender make any calls on the log in
    between ([visits]), and let the source answer every request with an export that
    fits into frames, or does not and is of more than a millisecond; the base and the
    largest window are a millisecond at least, and [S K] halvings bring the base to
    one. Then [K + 2] turns for each millisecond from the cursor to the time
    [T] less the visibility lag are enough, each of them at [T] or later, not
    cancelled and with less than 80 per cent of the disk in use: the loop ends, and
    the cursor has reached that time, moved by the operations of the trace. *)
Theorem poller_catches_up {C : Codec} export_at flush_at c K ticks T w (g : ledger) visits exports flushes :
  let cfg := p_cfg (NewPoller c) in
  let goal := T - Milliseconds (pc_ExportLag cfg) in
  let start := mkPW (NewPoller c) w visits exports flushes in
  let ops := poll_trace export_at flush_at bpNormal ticks (Cursor w) start in
  Millisecond <= pc_MaxWindow cfg < 2 ^ 62 -> Millisecond <= pc_Window cfg <= Millisecond * 2 ^ Z.of_nat (S K) ->
  (forall k start fin, start < fin -> fits export_at cfg k start fin) ->
  Forall (working T) ticks -> (goal - Cursor w) * Z.of_nat (S (S K)) <= Z.of_nat (length ticks) ->
  log_ok w g -> q_next g + group_size ops < 2 ^ 64 ->
  exists s', run_loop export_at flush_at bpNormal ticks start = (Ok (foldl bp_step bpNormal (map t_usage ticks)), s') /\
    Cursor (pw_wal s') = foldl op_cursor (Cursor w) ops /\ goal <= Cursor (pw_wal s').
Proof.
  cbv zeta. intros Hm Hw Hs Ht Hn Hl Hb.
  set (start := mkPW (NewPoller c) w visits exports flushes) in *. assert (Hslot : slot_ok export_at (pw_poller start)) by exact I.
  destruct (run_loop_trace export_at flush_at ticks bpNormal g start Hl Hslot Hb) as (s' & E & Hwent).
  pose proof (wn_cursor _ _ _ _ Hwent) as Ec. exists s'. split; [exact E|]. split; [exact Ec|]. rewrite Ec.
  apply (trace_live export_at flush_at (p_cfg (NewPoller c)) K (NewPoller_ok c) Hm Hw Hs); [discriminate|exact Ht| |].
  - split; [reflexivity|exact I|intros H; by destruct H|apply Nat.le_0_l].
  - unfold turns_left. change (p_oversizeStreak (pw_poller start)) with 0%nat.
    change (Cursor (pw_wal start)) with (Cursor w). lia.
Qed.

(** ** Witness *)

#[local] Existing Instance id_codec.

(** The cursor at 0, the present at 15.002 s, and 28 turns. *)
Definition turns : list tick := replicate 28 (mkTick (disk 100) false 20000 20000 20000 6).

Lemma poller_catches_up_witness :
  exists s', run_loop two_lines no_flush bpNormal turns (mkPW (NewPoller default_config) fresh three_visits 0 0) = (Ok bpNormal, s') /\
    2 <= Cursor (pw_wal s').
Proof.
  destruct fresh_ok as [Hi Hr].
  pose proof (poller_catches_up two_lines no_flush default_config 12 turns 15002 fresh (mkLedger [] (mkQueue [] 1)) three_visits 0 0) as H.
  cbv zeta in H. assert (E : foldl bp_step bpNormal (map t_usage turns) = bpNormal) by (vm_compute; reflexivity).
  rewrite E in H. destruct H as (s' & Hrun & _ & Hc); [clear E..| |exists s'; split; [exact Hrun|exact Hc]].
  - by vm_compute.
  - by vm_compute.
  - intros k start fin _. exists [97; 10; 98; 10]. split; [by vm_compute|]. left. vm_compute. by eexists.
  - apply Forall_forall. intros t [-> _]%elem_of_replicate. split; [reflexivity|]. split; [cbn; lia|].
    split; [cbn; lia|by vm_compute].
  - by vm_compute.
  - split; [exact Hi|exact Hr|by split].
  - by vm_compute.
Defined.
