(* ===== verification/Commands.v ===== *)
(** * The two commands ([cmd/sender/main.go], [cmd/receiver/main.go])

    [run] of each command reads the configuration, makes the components from it,
    one after the other, and returns at the first error; then the components run
    until a signal stops them. *)
From S2P Require Import Prelude GoBytes VmRequest Logger Protocol WalDisk WalScan Wal WalQueue WalCommit WalCalm WalOpen WalDurable WalCrash WalReopen VmClient Receiver Handlers Poller TcpClient TcpServer Serving Sender SenderSpec SenderLive System Config Backfill Restarts Metrics.
Local Open Scope Z_scope.

Inductive run_error : Type :=
| RunConfig (e : cerr)
| RunLog (dir : bytes)
| RunClient (e : new_error)
| RunWal (e : werr)
| RunReceiver (e : rerr)
| RunListen (addr : bytes).

(** ** The sender *)

(** What the goroutines of the sender are started with. *)
Record sender_parts := mkParts {
  sp_source : VmRequest.Client; sp_poller : Poller; sp_conn : TcpClient.Client; sp_loop : SenderConfig;
  sp_metrics : Metrics; sp_auth : option (bytes * bytes) }.

Section commands.
Context (Getenv : bytes -> bytes) (mkdirAll : bytes -> bool).

(** [usage]: what [DiskUsage] reads. *)
Definition sender_made (c : FileSender) (source : VmRequest.Client) (usage : Z) (w : World) : sender_parts :=
  mkParts source (NewPoller (poller_config c)) (TcpClient.NewClient (client_config c)) (NewSender (SenderLoopConfig c))
    (SetWALBytes usage (SetWALPending (PendingCount w) (Metrics.SetCursor (Cursor w) Metrics.New)))
    (Auth (fs_Monitor c)).

Definition sender_run (file : option FileSender) (answers : list (outcome vmerr Z)) (now clock1 clock2 clock3 usage : Z)
    (w : World) : outcome run_error sender_parts * World :=
  match LoadSender Getenv file with
  | Err e => (Err (RunConfig e), w)
  | Panic => (Panic, w)
  | Ok c =>
      match Logger.New mkdirAll (fs_Log c) with
      | Err dir => (Err (RunLog dir), w)
      | Panic => (Panic, w)
      | Ok _ =>
          match VmRequest.NewClient (fs_Source c) with
          | Err e => (Err (RunClient e), w)
          | Panic => (Panic, w)
          | Ok source =>
              match run_start c answers now clock1 clock2 clock3 w with
              | (Ok _, w') => (Ok (sender_made c source usage w'), w')
              | (Err e, w') => (Err (RunWal e), w')
              | (Panic, w') => (Panic, w')
              end
          end
      end
  end.

(** ** The receiver *)

(** The relay's log is never opened: [cfg.RelayWAL] stays nil. [listens]: whether
    [net.Listen] succeeds. *)
Definition receiver_run (listens : bool) (file : option FileReceiver) (r : RWorld) : outcome run_error ServerConfig * RWorld :=
  match LoadReceiver Getenv file with
  | Err e => (Err (RunConfig e), r)
  | Panic => (Panic, r)
  | Ok c =>
      match Logger.New mkdirAll (fr_Log c) with
      | Err dir => (Err (RunLog dir), r)
      | Panic => (Panic, r)
      | Ok _ =>
          match VmRequest.NewClient (fr_Target c) with
          | Err e => (Err (RunClient e), r)
          | Panic => (Panic, r)
          | Ok _ =>
              match Receiver.New (receiver_config c true) None r with
              | (Ok _, r') =>
                  if listens then (Ok (NewServer (server_config c)), r')
                  else (Err (RunListen (fr_Listen c)), r')
              | (Err e, r') => (Err (RunReceiver e), r')
              | (Panic, r') => (Panic, r')
              end
          end
      end
  end.

(** ** What a command starts with *)

(** The settings of the sending loop, and of its connection. *)
Record loop_ok (c : SenderConfig) (k : TcpClient.Client) : Prop := {
  lok_retry : 0 < s_MaxRetry c;
  lok_base : 0 < s_BackoffBase c;
  lok_max : 0 < s_BackoffMax c;
  lok_heartbeat : 0 < s_HeartbeatInterval c;
  lok_idle : 0 < s_IdleSleep c;
  lok_pipeline : 0 < s_Pipeline c;
  lok_timeout : 0 < cc_Timeout (TcpClient.c_cfg k) /\ 0 < cc_DialTimeout (TcpClient.c_cfg k);
  lok_conn : c_conn k = None }.

Lemma default_to_pos d v : 0 < d -> 0 < default_to d v.
Proof. unfold default_to. destruct (Z.leb_spec v 0); lia. Qed.

Lemma NewSender_ok c k : loop_ok (NewSender c) (TcpClient.NewClient k).
Proof.
  split; cbn [NewSender s_MaxRetry s_BackoffBase s_BackoffMax s_HeartbeatInterval s_IdleSleep s_Pipeline];
    try by apply default_to_pos.
  - cbn. destruct (Z.leb_spec (cc_Timeout k) 0), (Z.leb_spec (cc_DialTimeout k) 0); lia.
  - done.
Qed.

(** The length of the queue. *)
Lemma PendingCount_queue w q : log_ok w q -> PendingCount w = len (q_frames q).
Proof.
  intros [[Hi _] [Hr _] _]. apply Forall2_length in Hr. unfold PendingCount, pending, len in *. rewrite length_drop in Hr.
  pose proof (inv_acked _ Hi). unfold len in *. lia.
Qed.

(** The gauges a start sets. *)
Lemma made_gauges c source usage w : sp_metrics (sender_made c source usage w) cursor = Cursor w /\
  sp_metrics (sender_made c source usage w) walPending = PendingCount w /\
  sp_metrics (sender_made c source usage w) walBytes = usage.
Proof. done. Qed.

(** C28: the sender starts on what the last process left, whatever the configuration
    says. On a directory that holds the history [d] and the pending frames [fs]
    after a crash, which no other process has locked, [run] either refuses the
    configuration, the log file or the source's address and has touched nothing;
    or fails to open the log or to save the first cursor, whichever call of the
    disk failed, and leaves the history and the frames to the next process,
    if the directory is one a start may be interrupted on ([reopenable]: it has
    a segment, or its checkpoint acknowledges no byte of one that is gone); or it starts its goroutines: when no call of the disk failed, on a log in which
    every frame that was pending still is, behind frames of [d] it will send
    again; with the queue's length and the cursor as its first gauges; with
    positive settings of the sending loop and of the connection, whatever the
    file says, and the poller's as [config_ok] asks; and with a client that is
    not connected. *)
Theorem sender_starts file answers now clock1 clock2 clock3 usage d fs w o w' :
  survives d fs w -> flocked w = false ->
  sender_run file answers now clock1 clock2 clock3 usage w = (o, w') ->
  match o with
  | Ok parts => faults w = [] -> exists d' back q, d = d' ++ back /\ q_frames q = back ++ fs /\ stands d' q w' /\ log_ok w' q /\
      sp_metrics parts walPending = len (q_frames q) /\ sp_metrics parts cursor = Cursor w' /\
      config_ok (p_cfg (sp_poller parts)) /\ loop_ok (sp_loop parts) (sp_conn parts)
  | Err (RunWal _) | Panic => reopenable w = true -> survives d fs w'
  | Err _ => w' = w
  end.
Proof.
  intros Hsv Hl. unfold sender_run.
  destruct (LoadSender Getenv file) as [c|e|]; [|by intros [= <- <-]..].
  destruct (Logger.New mkdirAll (fs_Log c)) as [?|dir|]; [|by intros [= <- <-]..].
  destruct (VmRequest.NewClient (fs_Source c)) as [source|e|]; [|by intros [= <- <-]..].
  assert (Hfail : forall o1 w1, run_start c answers now clock1 clock2 clock3 w = (o1, w1) -> reopenable w = true -> survives d fs w1).
  { intros o1 w1 E1 Hre. rewrite <- (set_faults_id w) in E1. by apply (start_survives _ _ _ _ _ _ _ _ _ _ _ _ Hsv Hre E1). }
  destruct (run_start c answers now clock1 clock2 clock3 w) as [[[]|e|] w1] eqn:E;
    [|intros [= <- <-]; by apply (Hfail _ _ eq_refl)..].
  intros [= <- <-] Hf.
  destruct (run_start_recovers c answers now clock1 clock2 clock3 d fs w w1 Hsv Hf Hl E) as (d' & back & q & Hd & Hq & Hst & Hf1).
  pose proof (stands_log_ok _ _ _ Hst Hf1) as Hok.
  exists d', back, q. split_and!; try done.
  - destruct (made_gauges c source usage w1) as (_ & -> & _). 
    by apply PendingCount_queue.
  - apply NewPoller_ok.
  - apply NewSender_ok.
Qed.

(** The number the [last_seq] file holds: 0 without a file. *)
Definition stored_seq (cfg : RConfig) (file : option bytes) : option Z :=
  if cfg_LastSeqFile cfg then
    match file with Some data => Sscanf_d (TrimSpace data) | None => Some 0 end
  else Some 0.

Lemma New_result cfg relay s s' : Receiver.New cfg relay s = (Ok tt, s') ->
  stored_seq cfg (rw_file s) = Some (r_lastSeq (rw_recv s')) /\ r_relay (rw_recv s') = relay /\
  r_dedupSeq (rw_recv s') = [] /\ rw_file s' = rw_file s.
Proof.
  unfold Receiver.New, stored_seq. unfold set_recv, modify, bind at 1. destruct (cfg_LastSeqFile cfg); [|by intros [= <-]].
  unfold loadLastSeq, bind, gets. cbn [rw_file upd_recv].
  destruct (rw_file s) as [data|] eqn:Ef; [|intros [= <-]; cbn; by rewrite Ef].
  unfold rsys. cbn [rw_faults upd_recv].
  destruct (rw_faults s) as [|[|k] l]; try done;
    destruct (Sscanf_d (TrimSpace data)); try done; intros [= <-]; cbn; by rewrite Ef.
Qed.

(** C29: the receiver starts where the last one stopped. Whatever the configuration
    says, [run] either refuses it, the log file or the target's address and has
    touched nothing, or fails to read [last_seq] or to listen, or starts a server
    that serves at least one frame at a time; the handler then starts with the
    number in the [last_seq] file, an empty window and no relay, as after a restart
    in the life of the receiver, and what was imported or kept stays. *)
Theorem receiver_starts {C : Codec} listens file p o r' :
  receiver_run listens file (pl_world p) = (o, r') ->
  store_mono (pl_world p) r' /\
  match o with
  | Ok cfg => receiver_step p (mkPool r' [] (pl_calls p)) /\ window_inv r' /\
      (exists c, LoadReceiver Getenv file = Ok c /\
         stored_seq (receiver_config c true) (rw_file (pl_world p)) = Some (r_lastSeq (rw_recv r'))) /\
      r_dedupSeq (rw_recv r') = [] /\ r_relay (rw_recv r') = None /\ 1 <= sc_MaxInflight cfg /\ 0 < sc_ReadTimeout cfg
  | Err (RunReceiver _) | Err (RunListen _) | Panic => True
  | Err _ => r' = pl_world p
  end.
Proof.
  unfold receiver_run.
  destruct (LoadReceiver Getenv file) as [c|e|] eqn:Ec; [|by intros [= <- <-]..].
  destruct (Logger.New mkdirAll (fr_Log c)) as [?|dir|]; [|by intros [= <- <-]..].
  destruct (VmRequest.NewClient (fr_Target c)) as [source|e|]; [|by intros [= <- <-]..].
  pose proof (New_spec (receiver_config c true) None (pl_world p)) as H. unfold wp in H.
  destruct (Receiver.New (receiver_config c true) None (pl_world p)) as [o1 r1] eqn:E.
  cbn [fst snd] in H. destruct o1 as [[]|e|].
  - destruct H as [Hw Hm]. destruct listens; intros [= <- <-]; [|by split].
    split; [done|]. split.
    { apply (receiver_restarts p (receiver_config c true) None (rw_faults (pl_world p))).
      rewrite <- E. by destruct p as [[] ? ?]. }
    destruct (New_result _ _ _ _ E) as (Hs & Hr & Hw' & _).
    split; [done|]. split; [by exists c|]. split; [done|]. split; [done|]. cbn. destruct (Z.leb_spec (fr_MaxInflight c) 0), (Z.leb_spec (dur (fr_ReadTimeout c) (60 * Poller.Second)) 0); lia.
  - intros [= <- <-]. by destruct H.
  - intros [= <- <-]. by destruct H.
Qed.

End commands.

(** ** The connections of the two processes *)

(** What is assumed of the network: [peer c] is the connection of the server at
    the other end of the [c]-th one of the sender, if it was accepted and is
    served; TCP keeps the bytes of each direction in order, losing any tail of
    them, and brings none to the sender from a connection that is not served. *)
Definition linked (n : Net) (s : Server) (peer : nat -> option Z) : Prop :=
  forall c,
    match peer c with
    | Some id => exists h, sv_serving s !! id = Some h /\
        h_input h `prefix_of` n_sent n c /\ n_acks n c `prefix_of` k_out (h_conn h)
    | None => n_acks n c = []
    end.

(** Over such a network the server is what the theorems about the whole system
    ask for, its [handleConn]s running alone as far as each connection can tell. *)
Lemma server_serves cfg (p : pool) n s peer :
  srv_run cfg (fun k => k ∈ pl_calls p) server_start s -> linked n s peer ->
  served (sc_MaxInflight cfg) p n.
Proof.
  intros Hr Hl c. specialize (Hl c). destruct (peer c) as [id|].
  - destruct Hl as (h & Hh & Hin & Hout). exists (h_input h), (h_conn h). split; [done|].
    split; [|done]. by apply (srv_run_alone _ _ _ Hr id).
  - exists [], (conn_start []). split; [apply prefix_nil|]. split; [apply rtc_refl|]. by rewrite Hl.
Qed.

(** C9: at-least-once delivery between the two programs. Let the sending loop
    run for any number of turns, over any network and with any appends of the
    poller, on a log whose disk answers; let [Serve], [Close] and any number of
    connections of the server run in any interleaving, each handler being a call
    of a receiver whose calls are themselves interleaved, against any database
    and file system and with any restarts; and let TCP keep the bytes of each
    direction of a connection in order, losing any tail ([linked], the one
    assumption on the network). Then the sending loop does not panic, the frames
    its log held or was given are exactly those that it still holds, in order,
    behind those it has removed, and every frame it has removed has been
    imported, is kept as a dead letter, or repeats one that has. It
    holds whatever invariant the log keeps ([LogPromise]). *)
Theorem programs_deliver {C : Codec} {LP : LogPromise} scfg fuel n (q : ledger) a o a' cfg w p srv peer :
  sinv q [] a -> Run scfg fuel n a = (o, a') ->
  window_inv w -> rtc receiver_step (mkPool w [] []) p ->
  0 <= sc_MaxInflight cfg -> srv_run cfg (fun k => k ∈ pl_calls p) server_start srv -> linked (sw_net a') srv peer ->
  o <> Panic /\ exists (q' : ledger) gone added,
    promised (sw_wal a') q' (concat (sw_rivals a')) /\ q_frames q ++ added = gone ++ q_frames q' /\
    lg_done q' = lg_done q ++ gone /\
    Forall (fun f : Z * bytes => q_next q <= f.1) added /\
    Forall (fun f : Z * bytes => kept f.2 (pl_world p)) gone.
Proof.
  intros Hs Hrun Hw Hp Hm Hsrv Hl.
  destruct (Run_keeps scfg fuel n q a o a' (sc_MaxInflight cfg) p) as (Ho & _ & q' & gone & added & (out & Hinv) & H); try done.
  { apply (receiver_run_inv _ _ Hp). by constructor. }
  { by eapply server_serves. }
  split; [done|]. exists q', gone, added. split; [apply Hinv|done].
Qed.

(** ** The sender stops *)

(** The calls that matter when the sender stops: of the poller and the sending loop
    on the log, of the sending loop on the connection, and the two of [run]. *)
Inductive event : Type := PollerCall | SenderCall | ConnClose | LogClose.

(** Where [run] is: waiting for a signal, in [runWG.Wait], after it, with the
    client closed, and returned, the deferred [walInst.Close] done. *)
Inductive main_pc : Type := Serving_ | Joining | Joined | Disconnected | Returned.

Record process := mkProcess {
  pr_main : main_pc; pr_cancelled : bool; pr_poller : bool; pr_sender : bool; pr_events : list event }.

Definition process_start : process := mkProcess Serving_ false true true [].

(** [runWG.Wait] returns when both goroutines have. *)
Definition joined (poller sender : bool) : bool := negb poller && negb sender.

Inductive process_step : relation process :=
| prc_polls m cc se ev :
    process_step (mkProcess m cc true se ev) (mkProcess m cc true se (ev ++ [PollerCall]))
| prc_sends m cc po ev :
    process_step (mkProcess m cc po true ev) (mkProcess m cc po true (ev ++ [SenderCall]))
| prc_poller_returns m se ev :
    process_step (mkProcess m true true se ev) (mkProcess m true false se ev)
| prc_sender_returns m po ev :
    process_step (mkProcess m true po true ev) (mkProcess m true po false ev)
| prc_signal cc po se ev :
    process_step (mkProcess Serving_ cc po se ev) (mkProcess Joining true po se ev)
| prc_join cc po se ev : joined po se = true ->
    process_step (mkProcess Joining cc po se ev) (mkProcess Joined cc po se ev)
| prc_disconnect cc po se ev :
    process_step (mkProcess Joined cc po se ev) (mkProcess Disconnected cc po se (ev ++ [ConnClose]))
| prc_return cc po se ev :
    process_step (mkProcess Disconnected cc po se ev) (mkProcess Returned cc po se (ev ++ [LogClose])).

(** What the trace is at each point of [run]. *)
Definition used (ev : list event) : Prop := Forall (fun e => e = PollerCall \/ e = SenderCall) ev.

Definition process_inv (q : process) : Prop :=
  match pr_main q with
  | Serving_ | Joining => used (pr_events q)
  | Joined => joined (pr_poller q) (pr_sender q) = true /\ used (pr_events q)
  | Disconnected => joined (pr_poller q) (pr_sender q) = true /\ exists ev, used ev /\ pr_events q = ev ++ [ConnClose]
  | Returned => joined (pr_poller q) (pr_sender q) = true /\ exists ev, used ev /\ pr_events q = ev ++ [ConnClose; LogClose]
  end.

Lemma used_snoc ev e : used ev -> e = PollerCall \/ e = SenderCall -> used (ev ++ [e]).
Proof. intros H He. apply Forall_app. split; [done|constructor; [done|constructor]]. Qed.

Lemma process_step_inv q q' : process_step q q' -> process_inv q -> process_inv q'.
Proof.
  intros Hs. destruct Hs; unfold process_inv, joined in *; cbn in *; intros Hi;
    try destruct m; try destruct Hi as [Hj Hi]; rewrite ?andb_true_iff, ?negb_true_iff in *; try done;
    try (by destruct Hj); auto using used_snoc.
  - split; [done|]. by exists ev.
  - split; [done|]. destruct Hi as (ev' & Hu & ->). exists ev'. by rewrite <- app_assoc.
Qed.

(** The sender stops in order. In every interleaving of the poller, the sending loop
    and [run] after a signal, the connection and then the log are closed once, when
    the poller and the sending loop have returned: neither is used afterwards. *)
Theorem stops_in_order q : rtc process_step process_start q ->
  exists before closed, pr_events q = before ++ closed /\ used before /\ closed `prefix_of` [ConnClose; LogClose] /\
    (closed <> [] -> pr_poller q = false /\ pr_sender q = false).
Proof.
  intros Hr. assert (process_inv q) as Hi.
  { eapply (rtc_invariant _ process_inv); [| |exact Hr]; [|by apply Forall_nil]. intros a b Ha Hs. by eapply process_step_inv. }
  assert (Hj : joined (pr_poller q) (pr_sender q) = true -> pr_poller q = false /\ pr_sender q = false).
  { unfold joined. by destruct (pr_poller q), (pr_sender q). }
  unfold process_inv in Hi. destruct (pr_main q).
  1, 2: exists (pr_events q), []; rewrite app_nil_r; split_and!; [done|done|apply prefix_nil|done].
  - exists (pr_events q), []. rewrite app_nil_r. destruct Hi. split; [done|]. split; [done|]. split; [apply prefix_nil|done].
  - destruct Hi as (Hjo & ev & Hu & He). exists ev, [ConnClose]. split; [done|]. split; [done|]. split; [by exists [LogClose]|auto].
  - destruct Hi as (Hjo & ev & Hu & He). exists ev, [ConnClose; LogClose]. split; [done|]. split; [done|]. split; [done|auto].
Qed.

(** ** Witnesses *)

#[local] Existing Instance id_codec.

Definition no_env (name : bytes) : bytes := [].
Definition any_dir (dir : bytes) : bool := true.

(** The log after a crash inside an append; the source cannot be reached. *)
Definition left_behind : World := restart (snd cut_run).
Definition relaunched : outcome run_error sender_parts * World :=
  sender_run no_env any_dir (Some plain_file) [] 100000 1 2 3 77 left_behind.

Lemma sender_starts_witness : exists parts d1 fs d' back q, fst relaunched = Ok parts /\
  survives d1 fs left_behind /\ d1 = d' ++ back /\ q_frames q = back ++ fs /\ stands d' q (snd relaunched) /\
  sp_metrics parts walPending = len (q_frames q) /\ config_ok (p_cfg (sp_poller parts)).
Proof.
  destruct (crash_survives (LAppend TypeData [frame1; frame2]) [] two_queue two cut_calls (fst cut_run) (snd cut_run))
    as (d1 & fs & _ & Hs);
    [apply two_stands|apply cut_ok|vm_compute; reflexivity|apply cut_tears|unfold cut_run; by destruct (lop_run _ _)|].
  assert (Hsv : survives d1 fs left_behind) by (by apply survives_restart).
  pose proof (sender_starts no_env any_dir (Some plain_file) [] 100000 1 2 3 77 d1 fs left_behind (fst relaunched)
    (snd relaunched) Hsv eq_refl ltac:(unfold relaunched; apply surjective_pairing)) as H.
  assert (E : is_ok (fst relaunched) = true) by (vm_compute; reflexivity).
  destruct (fst relaunched) as [parts|e|]; [|done|done].
  destruct (H eq_refl) as (d' & back & q & Hd & Hq & Hst & _ & Hp & _ & Hc & _). by exists parts, d1, fs, d', back, q.
Defined.

Definition plain_receiver : FileReceiver :=
  mkFR (mkConfig (lit "http://vm:8428") [] [] []) (lit ":9000") (lit "30s") 0 4 (lit "last_seq") [] [] [] []
    (mkMon [] [] []) (mkLog [] [] 0 0).
Definition was_at_seven : pool := mkPool (upd_file (Some (lit "7")) (started [])) [] [].
Definition back_at_seven : outcome run_error ServerConfig * RWorld :=
  receiver_run no_env any_dir true (Some plain_receiver) (pl_world was_at_seven).

Lemma receiver_starts_witness :
  fst back_at_seven = Ok (mkSC (lit ":9000") (30 * 1000000000) 8 4) /\ r_lastSeq (rw_recv (snd back_at_seven)) = 7 /\
  receiver_step was_at_seven (mkPool (snd back_at_seven) [] []).
Proof.
  assert (E : fst back_at_seven = Ok (mkSC (lit ":9000") (30 * 1000000000) 8 4)) by (vm_compute; reflexivity).
  pose proof (receiver_starts no_env any_dir true (Some plain_receiver) was_at_seven (fst back_at_seven)
    (snd back_at_seven) ltac:(unfold back_at_seven; apply surjective_pairing)) as [_ H].
  split; [done|]. split; [vm_compute; reflexivity|]. rewrite E in H. apply H.
Defined.

(** A connection alone is a connection of the server, while nobody closes it. *)
Lemma srv_run_conn cfg ok k k' : conn_run (sc_MaxInflight cfg) ok k k' -> forall n cs sh hs ac cl named id polled i0,
  hs !! id = Some (mkServing k polled i0) -> id ∉ sh ->
  exists polled', srv_run cfg ok (mkServer n cs sh hs ac false cl named)
    (mkServer n cs sh (<[id := mkServing k' polled' i0]> hs) ac false cl named).
Proof.
  induction 1 as [k|k k1 k' (l & Hs & Hok) _ IH]; intros n cs sh hs ac cl named id polled i0 Hh Hsh.
  { exists polled. rewrite insert_id by done. apply rtc_refl. }
  assert (Hone : forall hs1, hs1 !! id = Some (mkServing k true i0) -> exists polled',
    srv_run cfg ok (mkServer n cs sh hs1 ac false cl named) (mkServer n cs sh (<[id := mkServing k' polled' i0]> hs1) ac false cl named)).
  { intros hs1 Hh1. destruct (IH n cs sh (<[id := mkServing k1 (still_polled true k k1) i0]> hs1) ac cl named id
      (still_polled true k k1) i0) as [polled' Hr]; [by rewrite lookup_insert_eq|done|].
    exists polled'. rewrite insert_insert_eq in Hr. eapply rtc_l; [|exact Hr]. exists l. split; [|done]. left.
    eapply srv_conn; [exact Hh1|done|]. rewrite bool_decide_eq_false_2 by done. split; [auto|done]. }
  destruct polled; [by apply Hone|]. assert (k_reader k = Reading \/ k_reader k <> Reading) as [Ek|Ek] by (destruct (k_reader k); auto).
  - destruct (Hone (<[id := mkServing k true i0]> hs)) as [polled' Hr]; [by rewrite lookup_insert_eq|].
    exists polled'. rewrite insert_insert_eq in Hr. eapply rtc_l; [|exact Hr]. exists None. split; [|done].
    left. by apply srv_poll.
  - destruct (IH n cs sh (<[id := mkServing k1 (still_polled false k k1) i0]> hs) ac cl named id
      (still_polled false k k1) i0) as [polled' Hr]; [by rewrite lookup_insert_eq|done|].
    exists polled'. rewrite insert_insert_eq in Hr. eapply rtc_l; [|exact Hr]. exists l. split; [|done]. left.
    eapply srv_conn; [exact Hh|done|]. split; [tauto|by rewrite bool_decide_eq_false_2].
Qed.

(** No limit on the connections, one frame at a time: the first connection. *)
Definition one_frame_each : ServerConfig := NewServer (mkSC [] 0 1 0).
Definition first_conn (input : bytes) : Server :=
  mkServer 1 {[1]} ∅ {[1 := mkServing (conn_start input) false input]} Accepting false NotClosing 1.

Lemma first_conn_run ok input : srv_run one_frame_each ok server_start (first_conn input).
Proof.
  srv_go ltac:(right; split; [done|left; apply (acc_conn _ _ _ _ _ _ _ input)]).
  srv_go ltac:(right; split; [done|left; apply acc_name]).
  srv_go ltac:(right; split; [done|left; apply acc_store]).
  srv_go ltac:(right; split; [done|left; apply acc_spawn]).
  unfold first_conn. rewrite union_empty_r_L. apply rtc_refl.
Qed.

Lemma first_conn_answers input ok st : conn_run 1 ok (conn_start input) st -> exists srv,
  srv_run one_frame_each ok server_start srv /\ exists polled, sv_serving srv !! 1 = Some (mkServing st polled input).
Proof.
  intros Hr. destruct (srv_run_conn one_frame_each ok (conn_start input) st Hr 1 {[1]} ∅
    {[1 := mkServing (conn_start input) false input]} Accepting NotClosing 1 1 false input) as [polled Hs];
    [apply lookup_singleton_eq|apply not_elem_of_empty|].
  eexists. split; [etrans; [apply first_conn_run|exact Hs]|]. exists polled. apply lookup_insert_eq.
Qed.

Lemma programs_deliver_witness :
  fst (Run lone 1 2 two_queued) <> Panic /\ exists (q' : ledger) gone added,
    log_ok (sw_wal sent_both) q' /\ q_frames two_queue ++ added = gone ++ q_frames q' /\ lg_done q' = [] ++ gone /\
    Forall (fun f : Z * bytes => 3 <= f.1) added /\
    Forall (fun f : Z * bytes => kept f.2 (pl_world handled_both)) gone.
Proof.
  destruct both_answered as (st & Hr & Ho), sent_both_wire as [[Es Ea] Eo].
  destruct (first_conn_answers (concat frames_sent) _ st Hr) as (srv & Hrun & Hh).
  eapply (programs_deliver (LP := plain_log) lone 1 2 two_ledger two_queued (fst (Run lone 1 2 two_queued)) sent_both
    one_frame_each (started [ok_reply; ok_reply]) handled_both srv (fun c => match c with O => Some 1 | _ => None end)).
  - exact two_queued_ok.
  - unfold sent_both. by destruct (Run lone 1 2 two_queued).
  - apply started_inv.
  - apply receiver_picks.
  - apply Z.le_0_1.
  - exact Hrun.
  - intros [|c]; [|exact (Eo c)]. destruct Hh as [polled Hh]. eexists. split; [exact Hh|]. cbn [h_input h_conn].
    rewrite Es, Ea, Ho. by split.
Defined.
