(* ===== verification/LinkProxy.v ===== *)
(** * The link proxy of the benchmark ([bench/linkproxy/main.go])

    It stands between the two processes, forwards the bytes of each connection in
    both directions and counts them.  A forwarding loop is a function of what its
    reads and writes return; the proxy is a transition system in which the loops of
    all connections interleave. *)
From S2P Require Import Prelude GoBytes Protocol WalDisk WalScan Receiver Handlers TcpClient TcpServer Serving Sender System Commands.
Local Open Scope Z_scope.

(** ** One direction *)

(** What a turn of [pipe] sees: the bytes read (at most 64 KiB), whether the read
    returned an error too, and how many bytes a write wrote that failed. *)
Record turn := mkTurn { t_bytes : bytes; t_err : bool; t_short : option nat }.

(** What was read and written so far, the bytes that were counted, whether the
    loop runs. *)
Record flow := mkFlow { f_read : bytes; f_written : bytes; f_counted : Z; f_running : bool }.

Definition flow_start : flow := mkFlow [] [] 0 true.
Definition bufSize : Z := Z.shiftl 64 10.

Definition pipe_turn (t : turn) (f : flow) : flow :=
  let read := f_read f ++ t_bytes t in
  if 0 <? len (t_bytes t) then
    match t_short t with
    | Some k => mkFlow read (f_written f ++ take k (t_bytes t)) (f_counted f) false
    | None => mkFlow read (f_written f ++ t_bytes t) (f_counted f + len (t_bytes t)) (negb (t_err t))
    end
  else mkFlow read (f_written f) (f_counted f) (negb (t_err t)).

Fixpoint pipe (turns : list turn) (f : flow) : flow :=
  match turns with
  | [] => f
  | t :: rest => let f' := pipe_turn t f in if f_running f' then pipe rest f' else f'
  end.

(** What a direction promises: it delivers a prefix of what it read, all of it
    while it runs; and the count is what was delivered, but for a write that
    failed. *)
Record flow_ok (f : flow) : Prop := {
  fo_prefix : f_written f `prefix_of` f_read f;
  fo_all : f_running f = true -> f_written f = f_read f;
  fo_count : f_counted f <= len (f_written f) <= f_counted f + bufSize;
  fo_exact : f_running f = true -> f_counted f = len (f_written f) }.

Lemma flow_start_ok : flow_ok flow_start.
Proof. split; try done. Qed.

Lemma pipe_turn_ok t f : flow_ok f -> f_running f = true -> len (t_bytes t) <= bufSize -> flow_ok (pipe_turn t f).
Proof.
  intros [_ Ha _ He] Hr Hb. specialize (Ha Hr). specialize (He Hr). unfold pipe_turn. rewrite Ha.
  assert (Hl : f_counted f = len (f_read f)) by (by rewrite He, Ha). assert (HB : 0 <= bufSize) by done.
  destruct (Z.ltb_spec 0 (len (t_bytes t))) as [Hp|Hp].
  - destruct (t_short t) as [k|]; split; cbn [f_read f_written f_counted f_running]; intros; try done; try zlia.
    apply prefix_app, prefix_take.
  - rewrite (len_zero_nil (t_bytes t)), app_nil_r by zlia. split; cbn; intros; try done; zlia.
Qed.

(** The loop as a whole. *)
Lemma pipe_ok turns : forall f, flow_ok f -> f_running f = true -> Forall (fun t => len (t_bytes t) <= bufSize) turns ->
  flow_ok (pipe turns f).
Proof.
  induction turns as [|t turns IH]; intros f Hf Hr Ht; cbn [pipe]; [done|]. apply Forall_cons in Ht as [Ht Hts].
  pose proof (pipe_turn_ok t f Hf Hr Ht) as H. cbv zeta. destruct (f_running (pipe_turn t f)) eqn:E; [by apply IH|done].
Qed.

(** ** The proxy *)

(** Where a [handle] is: before [net.Dial] returns, forwarding, returned. Its
    connections are open until it returns. *)
Inductive stage : Type := Dialling | Piping | Hung.
#[export] Instance stage_eq_dec : EqDecision stage.
Proof. solve_decision. Defined.

(** [lk_forward]: from the client to the target; [lk_backward]: the other way. *)
Record link := mkLink { lk_stage : stage; lk_forward : flow; lk_backward : flow }.
Record proxy := mkProxy { txBytes : Z; rxBytes : Z; conns : Z; links : list link }.

Definition proxy_start : proxy := mkProxy 0 0 0 [].

(** A count is added to the shared counter. *)
Definition tally (f f' : flow) (counter : Z) : Z := u64 (counter + (f_counted f' - f_counted f)).

Inductive proxy_step : proxy -> proxy -> Prop :=
| px_accept tx rx n ls :
    proxy_step (mkProxy tx rx n ls) (mkProxy tx rx (i64 (n + 1)) (ls ++ [mkLink Dialling flow_start flow_start]))
| px_dial_error tx rx n ls i f b :
    ls !! i = Some (mkLink Dialling f b) ->
    proxy_step (mkProxy tx rx n ls) (mkProxy tx rx (i64 (n + -1)) (<[i := mkLink Hung f b]> ls))
| px_dialled tx rx n ls i f b :
    ls !! i = Some (mkLink Dialling f b) ->
    proxy_step (mkProxy tx rx n ls) (mkProxy tx rx n (<[i := mkLink Piping f b]> ls))
| px_forward tx rx n ls i f b t :
    ls !! i = Some (mkLink Piping f b) -> f_running f = true -> len (t_bytes t) <= bufSize ->
    proxy_step (mkProxy tx rx n ls)
      (mkProxy (tally f (pipe_turn t f) tx) rx n (<[i := mkLink Piping (pipe_turn t f) b]> ls))
(** the loop back runs on after [handle] has returned, but writes nothing then *)
| px_backward tx rx n ls i st f b t :
    ls !! i = Some (mkLink st f b) -> st <> Dialling -> f_running b = true -> len (t_bytes t) <= bufSize ->
    (st = Hung -> f_written (pipe_turn t b) = f_written b) ->
    proxy_step (mkProxy tx rx n ls)
      (mkProxy tx (tally b (pipe_turn t b) rx) n (<[i := mkLink st f (pipe_turn t b)]> ls))
(** the loop forward has returned, and so does [handle] *)
| px_return tx rx n ls i f b :
    ls !! i = Some (mkLink Piping f b) -> f_running f = false ->
    proxy_step (mkProxy tx rx n ls) (mkProxy tx rx (i64 (n + -1)) (<[i := mkLink Hung f b]> ls)).

(** *** Sums over the connections *)

Definition sum_of {A} (g : A -> Z) (l : list A) : Z := foldr (fun x n => g x + n) 0 l.

Lemma sum_of_app {A} (g : A -> Z) (l k : list A) : sum_of g (l ++ k) = sum_of g l + sum_of g k.
Proof. unfold sum_of. induction l as [|x l IH]; cbn [app foldr]; [done|]. rewrite IH. lia. Qed.

Lemma sum_of_insert {A} (g : A -> Z) (l : list A) i x y : l !! i = Some x -> sum_of g (<[i := y]> l) = sum_of g l + (g y - g x).
Proof.
  intros H. pose proof (lookup_lt_Some _ _ _ H) as Hi. rewrite (insert_take_drop _ _ _ Hi).
  rewrite <- (take_drop_middle _ _ _ H) at 3. rewrite !sum_of_app. unfold sum_of. cbn [foldr]. lia.
Qed.

Definition is_open (k : link) : Z := if decide (lk_stage k = Hung) then 0 else 1.

(** The counters of the proxy are the sums over its connections, and each direction
    keeps its promise. *)
Record proxy_ok (p : proxy) : Prop := {
  po_tx : txBytes p = u64 (sum_of (fun k => f_counted (lk_forward k)) (links p));
  po_rx : rxBytes p = u64 (sum_of (fun k => f_counted (lk_backward k)) (links p));
  po_conns : conns p = i64 (sum_of is_open (links p));
  po_flows : Forall (fun k => flow_ok (lk_forward k) /\ flow_ok (lk_backward k)) (links p) }.

Lemma tally_sum (g : link -> Z) ls i k k' c : ls !! i = Some k -> c = u64 (sum_of g ls) ->
  u64 (c + (g k' - g k)) = u64 (sum_of g (<[i := k']> ls)).
Proof. intros H ->. rewrite u64_add. f_equal. by rewrite (sum_of_insert _ _ _ _ _ H). Qed.

(** A connection is replaced by one with the counts the counters have taken in. *)
Lemma proxy_ok_insert tx rx n ls i k k' n' :
  proxy_ok (mkProxy tx rx n ls) -> ls !! i = Some k ->
  (flow_ok (lk_forward k) -> flow_ok (lk_backward k) -> flow_ok (lk_forward k') /\ flow_ok (lk_backward k')) ->
  n' = i64 (n + (is_open k' - is_open k)) ->
  proxy_ok (mkProxy (tally (lk_forward k) (lk_forward k') tx) (tally (lk_backward k) (lk_backward k') rx) n' (<[i := k']> ls)).
Proof.
  intros [Ht Hr Hn Hf] Hi Hk ->. cbn [txBytes rxBytes conns links] in *. split; cbn [txBytes rxBytes conns links].
  - by apply (tally_sum (fun k => f_counted (lk_forward k))).
  - by apply (tally_sum (fun k => f_counted (lk_backward k))).
  - rewrite Hn, i64_add, (sum_of_insert _ _ _ _ _ Hi). done.
  - apply Forall_insert; [done|]. rewrite Forall_lookup in Hf. by apply Hk; apply (Hf i).
Qed.

Lemma tally_same f c : c = u64 c -> tally f f c = c.
Proof. unfold tally. rewrite Z.sub_diag, Z.add_0_r. by intros <-. Qed.

Lemma proxy_step_ok p p' : proxy_step p p' -> proxy_ok p -> proxy_ok p'.
Proof.
  assert (U : forall x c, c = u64 x -> c = u64 c) by (intros x c ->; unfold u64; by rewrite Zmod_mod).
  assert (I : forall x c, c = i64 x -> c = i64 (c + 0)) by (intros x c ->; rewrite i64_add; f_equal; lia).
  intros Hs H. destruct Hs as [tx rx n ls|tx rx n ls i f b Hi|tx rx n ls i f b Hi|tx rx n ls i f b t Hi Hr Hl|
    tx rx n ls i st f b t Hi Hst Hr Hl Hw|tx rx n ls i f b Hi Hr];
    pose proof (U _ _ (po_tx _ H)) as Htx; pose proof (U _ _ (po_rx _ H)) as Hrx; pose proof (I _ _ (po_conns _ H)) as Hn;
    cbn [txBytes rxBytes conns] in *.
  - destruct H as [Ht Hx Hc Hf]. cbn [txBytes rxBytes conns links] in *.
    split; cbn [txBytes rxBytes conns links]; rewrite ?sum_of_app; cbn; rewrite ?Z.add_0_r; try done.
    + rewrite Hc. by rewrite i64_add.
    + apply Forall_app. split; [done|]. repeat constructor; apply flow_start_ok.
  - pose proof (proxy_ok_insert _ _ _ _ _ _ (mkLink Hung f b) _ H Hi (fun a c => conj a c) eq_refl) as G.
    cbn in G. by rewrite !tally_same in G.
  - pose proof (proxy_ok_insert _ _ _ _ _ _ (mkLink Piping f b) _ H Hi (fun a c => conj a c) Hn) as G.
    cbn in G. by rewrite !tally_same in G.
  - pose proof (proxy_ok_insert _ _ _ _ _ _ (mkLink Piping (pipe_turn t f) b) _ H Hi
      (fun a c => conj (pipe_turn_ok t f a Hr Hl) c) Hn) as G.
    cbn in G. by rewrite (tally_same b) in G.
  - assert (Ho : n = i64 (n + (is_open (mkLink st f (pipe_turn t b)) - is_open (mkLink st f b)))).
    { unfold is_open. cbn. by rewrite Z.sub_diag. }
    pose proof (proxy_ok_insert _ _ _ _ _ _ (mkLink st f (pipe_turn t b)) _ H Hi
      (fun a c => conj a (pipe_turn_ok t b c Hr Hl)) Ho) as G.
    cbn in G. by rewrite (tally_same f) in G.
  - pose proof (proxy_ok_insert _ _ _ _ _ _ (mkLink Hung f b) _ H Hi (fun a c => conj a c) eq_refl) as G.
    cbn in G. by rewrite !tally_same in G.
Qed.

Lemma proxy_run_ok p : rtc proxy_step proxy_start p -> proxy_ok p.
Proof.
  intros Hr. apply (rtc_invariant proxy_step proxy_ok) with proxy_start; [|by split|done].
  intros a b Ha Hs. by apply (proxy_step_ok a).
Qed.

(** The proxy delivers and counts. In every interleaving of its connections, each
    direction has delivered a prefix of what it read, all of it while it runs; the
    two counters are the sums, modulo [2^64], of what the directions delivered, but
    for the last write of a direction that failed; and the gauge is the number of
    connections open. *)
Theorem proxy_counts p : rtc proxy_step proxy_start p ->
  Forall (fun k => flow_ok (lk_forward k) /\ flow_ok (lk_backward k)) (links p) /\
  txBytes p = u64 (sum_of (fun k => f_counted (lk_forward k)) (links p)) /\
  rxBytes p = u64 (sum_of (fun k => f_counted (lk_backward k)) (links p)) /\
  conns p = i64 (sum_of is_open (links p)).
Proof. intros Hr. by destruct (proxy_run_ok p Hr). Qed.

(** *** The page *)

(** [fmt.Fprintf] of the handler of [/metrics]. *)
Definition proxy_page (p : proxy) : bytes :=
  lit "linkproxy_tx_bytes_total " ++ Sprintf_d (txBytes p) ++ NL ::
  lit "linkproxy_rx_bytes_total " ++ Sprintf_d (rxBytes p) ++ NL ::
  lit "linkproxy_conns " ++ Sprintf_d (conns p) ++ [NL].

(** ** The processes behind a proxy *)

(** [peer c]: the connection of the proxy that the [c]-th one of the sender was
    accepted as, and the one of the server that the proxy dialled. *)
Definition linked_through (n : Net) (s : Server) (p : proxy) (peer : nat -> option (nat * Z)) : Prop :=
  forall c,
    match peer c with
    | Some (i, id) => exists k h, links p !! i = Some k /\ sv_serving s !! id = Some h /\
        f_read (lk_forward k) `prefix_of` n_sent n c /\ h_input h `prefix_of` f_written (lk_forward k) /\
        f_read (lk_backward k) `prefix_of` k_out (h_conn h) /\ n_acks n c `prefix_of` f_written (lk_backward k)
    | None => n_acks n c = []
    end.

(** The proxy may stand between the two processes. What the theorems about the
    whole system ask of the connections of the sender holds of connections that the
    proxy forwards to the server, while it, the server and the handlers run in any
    interleaving. *)
Theorem proxy_is_transparent cfg (hs : pool) n s p peer :
  srv_run cfg (fun k => k ∈ pl_calls hs) server_start s -> rtc proxy_step proxy_start p ->
  linked_through n s p peer -> served (sc_MaxInflight cfg) hs n.
Proof.
  intros Hs Hp Hl. pose proof (proxy_run_ok p Hp) as Hf.
  intros c. specialize (Hl c). destruct (peer c) as [[i id]|].
  - destruct Hl as (k & h & Hk & Hh & Hin & Hd & Hb & Hout).
    destruct (Forall_lookup_1 _ _ _ _ (po_flows _ Hf) Hk) as [[Hw _ _ _] [Hw' _ _ _]].
    exists (h_input h), (h_conn h). split; [by transitivity (f_written (lk_forward k)); [|transitivity (f_read (lk_forward k))]|].
    split; [by apply (srv_run_alone _ _ _ Hs id)|].
    by transitivity (f_written (lk_backward k)); [|transitivity (f_read (lk_backward k))].
  - exists [], (conn_start []). split; [apply prefix_nil|]. split; [apply rtc_refl|]. by rewrite Hl.
Qed.

(** ** Witnesses *)

#[local] Existing Instance id_codec.

(** The sender has written a frame on its first connection; the second one was refused. *)
Definition one_written : Net :=
  mkNet (TcpClient.NewClient (mkCC [] 0 0)) [] [] [] 2 (fun c => match c with O => frame1 | _ => [] end) (fun _ => []).

(** One connection, a frame that is forwarded, and a loop back that finds an end. *)
Definition frame_in : turn := mkTurn frame1 false None.
Definition back_ends : turn := mkTurn [] true None.
Definition one_frame : proxy :=
  mkProxy (len frame1) 0 1 [mkLink Piping (pipe_turn frame_in flow_start) (pipe_turn back_ends flow_start)].

Lemma one_frame_run : rtc proxy_step proxy_start one_frame.
Proof.
  eapply rtc_l; [apply px_accept|]. eapply rtc_l; [by apply (px_dialled _ _ _ _ 0)|].
  eapply rtc_l; [apply (px_forward _ _ _ _ 0 flow_start flow_start frame_in); [done..|by vm_compute]|].
  eapply rtc_l; [apply (px_backward _ _ _ _ 0 Piping (pipe_turn frame_in flow_start) flow_start back_ends); [done..|by vm_compute|done]|].
  apply rtc_refl.
Qed.

Lemma proxy_counts_witness : txBytes one_frame = len frame1 /\ conns one_frame = 1 /\
  f_written (lk_forward (mkLink Piping (pipe_turn frame_in flow_start) flow_start)) = frame1.
Proof.
  pose proof (proxy_counts one_frame one_frame_run) as (_ & Ht & _ & Hc).
  split; [rewrite Ht; by vm_compute|]. split; [rewrite Hc; by vm_compute|by vm_compute].
Defined.

Lemma proxy_is_transparent_witness : served 8 (mkPool (started []) [] []) one_written.
Proof.
  apply (proxy_is_transparent (NewServer one_conn) (mkPool (started []) [] []) one_written opened one_frame
    (fun c => match c with O => Some (O, 1) | _ => None end)).
  - apply opened_run.
  - apply one_frame_run.
  - intros [|c]; [|done]. do 2 eexists. split; [reflexivity|]. split; [reflexivity|].
    assert (E : f_written (pipe_turn frame_in flow_start) = frame1 /\ f_read (pipe_turn frame_in flow_start) = frame1) by by vm_compute.
    cbn [lk_forward lk_backward n_sent n_acks one_written h_input h_conn]. destruct E as [-> ->].
    split_and!; [done|done|vm_compute; apply prefix_nil..].
Defined.

Example one_frame_page : Metrics.samples (proxy_page one_frame) =
  [(lit "linkproxy_tx_bytes_total", Sprintf_d (len frame1)); (lit "linkproxy_rx_bytes_total", lit "0"); (lit "linkproxy_conns", lit "1")].
Proof. vm_compute. reflexivity. Qed.
